(* ===== verification/_CoqProject ===== *)
-Q . S2P
Prelude.v
Slice.v
Coding.v
Comparator.v
Hash.v
Bloom.v
Logging.v
Status.v
DbFormat.v
Crc32cTables.v
Crc32c.v
File.v
LogFormat.v
LogWriter.v
LogReader.v
Random.v
Arena.v
SkipList.v
SkipListReaders.v
MemTable.v
BytewiseTable.v
HandleTable.v
LRUList.v
LRUCache.v
LRUHistory.v
ShardedCache.v
Limiter.v
Posix.v
SimOS.v
PosixFile.v
PosixLog.v
PosixRandom.v
PosixEnv.v
Env.v
EnvPosix.v
Background.v
Iterator.v
PosixLogger.v
Process.v
