(* ===== verification/Prelude.v ===== *)
(** * A verification library for mini_leveldb (root file)

    The program is the lower half of LevelDB: byte slices and encodings, internal
    keys, the arena, skip list and memtable, the write-ahead log, the cache, and
    the Posix environment with its background thread.  This library translates
    its C++ by hand into executable definitions and proves what makes each part
    correct.  Names of definitions are the names of the source.

    ** The parts, and where they are

    Each file models one part of src/.  Its sections are: the code; the
    specification; the lemmas that carry the proofs; the theorems, with concrete
    instances ([..._witness]) where they have hypotheses.

    - Prelude: bytes, machine words, buffers with bounds, tactics, the lemmas
      several parts share.
    - Slice (include/slice.h), Coding (util/coding), Comparator
      (include/comparator.h, util/comparator.cc), Hash (util/hash.cc), Bloom
      (include/filter_policy.h, util/bloom.cc), Logging (util/logging), Status
      (include/status.h, util/status.cc), Random (util/random.h): the helpers.
    - DbFormat (db/dbformat): internal keys, their comparator and filter policy.
      They wrap a user comparator and a user policy, and are proved against the
      promises of those: the classes [ComparatorLaws] and [FilterLaws].
    - Crc32cTables, Crc32c (util/crc32c): the checksum.
    - File (the file classes of include/env.h), LogFormat, LogWriter, LogReader
      (db/log_format.h, db/log_writer, db/log_reader): the log, over any file and
      any checksum.
    - Arena (util/arena), SkipList (db/skiplist.h), MemTable (db/memtable): the
      skip list is over any key type, comparator and allocator (classes
      [KeyOrder] and [NodeAllocatorLaws]);
      the memtable supplies entries in arena memory as keys and the arena as the
      allocator.  BytewiseTable: the memtable over the built-in comparator, which
      does not keep the promises MemTable asks for.  SkipListReaders: readers of the skip list while it is inserted
      into, under the memory orders of the code.
    - HandleTable, LRUList, LRUCache, LRUHistory, ShardedCache (util/cache.cc):
      the hash table of entries, the two circular lists, one shard, histories of
      calls on a shard, and the cache of sixteen shards.
    - Posix: the system calls as a class [Posix], and what POSIX documents about
      them as classes of laws.  SimOS: an operating system in memory that meets
      every law.
    - PosixFile, Limiter, PosixRandom, PosixEnv, Background (util/env_posix.cc):
      files for writing and for reading, the shared limits, random access, the
      environment with its lock table, the background queue.  PosixLog: the log
      on those files.
    - Env (util/env.cc and the defaults of include/env.h): whole files through any
      environment that keeps the promises [EnvLaws]; EnvPosix: the environment of
      util/env_posix.cc keeps them.
    - Iterator (include/iterator.h, table/iterator.cc), PosixLogger
      (util/posix_logger.h), Process (the default environment, opening loggers, the
      test directory and the clock, of util/env_posix.cc).

    ** How the code is represented

    - A [char] is a byte, a machine word an integer of [Z] in its range, and
      arithmetic that wraps is followed by [mod 2 ^ w].  Double arithmetic is
      that of the standard library's binary64 (Bloom).
    - Code that can fault returns an [option]: [None] is a failed assertion, an
      access out of bounds, a read of memory that was never written or was freed,
      or a null dereference.  Theorems that state a result [Some r] therefore
      state that none of these happens.  Errors of the program itself are
      values of [Status].
    - A slice is the bytes it denotes.  Buffers that are written through pointers
      are byte lists with an offset; the memory of an arena is a map from
      addresses to bytes; nodes and cache entries are in a heap, with one map for
      each pointer field, so that a field may be absent before it is assigned
      and after it is freed.  The shards of a cache have disjoint memories.
      [new] and [malloc] are the allocator's choice: the address is an argument,
      or a parameter with the documented promise of a fresh block.
    - Virtual classes are type classes of operations; what they promise is a
      separate class of laws, against which clients are proved.
    - A call that holds a mutex from beginning to end is one step, so that what
      threads can do to such an object is any sequence of calls.  The background
      queue, the limiters and the readers of the skip list, whose steps do
      interleave, are step relations.  There SkipListReaders keeps the history of
      all stores, which one thread makes; what another thread knows of it is how
      many it has seen, an acquiring load of a released store adds to that, and a
      load may return any value its location has had since.  This allows whatever
      C++ allows, and more: a relaxed load does not bound the next one.
    - System calls are functions on the state of the system that return the new
      state and a result or an [errno].  Nothing is assumed of them beyond the
      classes in Posix: [WriteLaws] (short writes, interrupted calls, descriptors,
      what a synchronisation makes durable), [HealthyLaws] (a device with room),
      [ReadLaws], [RegularLaws] (a file nobody else writes), [FsLaws] (names,
      inodes, offsets, locks and mappings as one process sees them; a file may
      have several names, and a transfer may be short).  Each
      theorem names the classes it uses, and its instance is SimOS.

    ** What the theorems show

    - Helpers: [Slice_compare_correct], [Bytewise_shortening],
      [bloom_no_false_negatives], [ConsumeDecimalNumber_correct] and the round
      trips of encodings, with rejection of truncated input and no access out of
      bounds ([varint32_roundtrip], [GetVarint32Ptr_safe]).
    - Keys: [internal_key_roundtrip], [InternalKeyComparator_order].
    - Checksum: [Extend_correct] (the tables and strides compute the bit-serial
      CRC), [Extend_detects_corruption].
    - Log: [AddRecord_correct] (the documented layout), [ReadRecord_total] (any
      contents whatever), [log_crash_roundtrip] (reading any prefix of a written
      log), [ReadPhysicalRecord_detects]; [PosixLog_survives] puts the log on
      Posix files, through a crash.
    - Memtable: [Arena_correct], [Insert_correct], [SkipList_refines_sorted_list],
      [Iterator_correct], [readers_linearize] (no lock is needed for reading),
      [MemTable_refines_versions];
      [Get_Bytewise_finds_nothing] is what the built-in comparator makes of it.
    - Cache: [HandleTable_refines_map], [LRUCache_refines],
      [LRUCache_Insert_evicts], [LRUCache_deletes_once],
      [ShardedLRUCache_refines], [ShardedLRUCache_coherent],
      [ShardedLRUCache_capacity].
    - Posix environment: [PosixWritableFile_correct], [Random_Read_correct],
      [NewRandomAccessFile_correct], [PosixEnv_names_correct],
      [LockFile_excludes], [LockFile_drops_lock], [Limiter_safe],
      [WriteStringToFile_roundtrip]; the background queue in
      [Background_fifo] and [Background_live].
    - [Cleanup_once], [Logv_correct].

    Some of them state defects: a slice never compares equal to itself, which
    breaks the memtable over the built-in comparator; the capacity of a cache
    wraps; a failed flush drops bytes that were accepted; a refused lock gives up
    the one that is held; an empty file cannot be mapped; a read that is cut short
    is OK.

    ** Fuel

    Loops that are not structural recursions take fuel, and running out is [None],
    so a theorem that gives a result shows that the fuel is enough.  The measures:
    [ReadPhysicalRecord], three iterations (at most one skipped trailer, one
    refill and the record); [AddRecord], two more than the length (each fragment
    but the first and last takes a byte); [ReadRecord], more than the bytes left;
    searches in the skip list, its nodes plus its height; [RandomHeight], twelve
    draws; chains of the hash table, their entries; growing the table, 31
    doublings, which cover every length of a [uint32_t]; evicting, pruning and
    destroying, the entries of the shard; writing to a descriptor, the
    interruptions still to come plus the bytes; reading, the interruptions;
    reading a whole file, its bytes; [Logv], the two iterations of its loop;
    cleaning up, the nodes.  The mutual defaults of [RemoveFile] and [DeleteFile]
    do diverge for a class that overrides neither, for any fuel
    ([Env.Env_defaults]).

    ** Not modelled

    - [SleepForMicroseconds] and [StartThread] of [PosixEnv]: they pass their
      arguments on.  [SignalAll] of include/mutex.h is never called, and
      [MutexLock] is a mutex held for a whole call.
    - [NoDestructor], and the placement [new] of [SingletonEnv]; Process has
      [Env::Default] as the state of a process.
    - [EnvWrapper] beyond the operations util/env.cc uses: the other methods
      forward in the same way.
    - The bytes of a memtable's entries under concurrent readers:
      SkipListReaders has the keys inside the nodes.
    - What a program does after the static initialiser of [Extend] has re-entered
      itself, which is undefined: [Crc32c.Extend] is [None] there, and its
      theorems are about the body, and about calls that find it initialised.
    - Symbolic links, and the effect of making and removing directories; hard links
      and several spellings of a name are allowed for.
    - [F_FULLFSYNC], the difference between [fdatasync] and [fsync], the flag
      [O_CLOEXEC], and [errno] as a variable: a call returns its error.  A crash
      can lose bytes but not the name of a file.
    - The constants of db/dbformat.h no code of the repository uses, and
      [helpPrint] of util/cache.cc.
    - src/examples and src/third_party: tests, and the framework they use. *)
From Stdlib Require Export String Strings.Byte ZArith Lia.
From Stdlib Require Export Btauto.
From stdpp Require Export base list numbers gmap strings.

(** ** Bytes and machine words

    A [char] is a [Byte.byte]; [u8] reads it as the [uint8_t] the code casts
    to, [s8] as a signed [char], and [byte_of] is the truncating conversion
    [static_cast<uint8_t>].  Words of [w] bits are integers of [Z] reduced
    modulo [2 ^ w] wherever the C++ arithmetic wraps. *)

Abbreviation byte := Byte.byte.
Abbreviation bytes := (list Byte.byte).

Definition u8 (b : byte) : Z := Z.of_N (Byte.to_N b).
Definition s8 (b : byte) : Z := if Z.ltb (u8 b) 128 then u8 b else (u8 b - 256)%Z.
Definition byte_of (z : Z) : byte :=
  default x00 (Byte.of_N (Z.to_N (z mod 256))).

Definition u32 (z : Z) : Z := (z mod 2 ^ 32)%Z.
Definition u64 (z : Z) : Z := (z mod 2 ^ 64)%Z.

(** String literals of the source, as bytes. *)
Definition str (s : string) : bytes := list_byte_of_string s.

(** ** Faulting computations

    [option] is the type of a computation that may fault: [None] is an access
    outside an object, a failed [assert] or any other undefined behaviour, so
    that "the operation never faults" is a theorem.  Results the code itself
    reports (a null pointer, [false], a [Status]) are values inside it. *)

Declare Scope ldb_scope.
Delimit Scope ldb_scope with ldb.
Notation "'ASSERT' b ; k" := (if b then k else None)
  (at level 100, b at level 99, k at level 200, right associativity) : ldb_scope.
Open Scope ldb_scope.

(** A buffer is a list of bytes and a pointer into it an offset. *)
Definition load (m : bytes) (p : nat) : option byte := m !! p.
Definition store (m : bytes) (p : nat) (b : byte) : option bytes :=
  if decide (p < length m) then Some (<[p := b]> m) else None.
Definition memcpy (m : bytes) (p : nat) (src : bytes) : option bytes :=
  if decide (p + length src ≤ length m)
  then Some (take p m ++ src ++ drop (p + length src) m) else None.
Definition load_range (m : bytes) (p n : nat) : option bytes :=
  if decide (p + n ≤ length m) then Some (take n (drop p m)) else None.

(** A loop [while (c s) s = body s], run for at most [fuel] tests of its
    condition; a loop that needs more is [None]. *)
Fixpoint while {S} (fuel : nat) (c : S → bool) (body : S → option S) (s : S) : option S :=
  match fuel with
  | O => None
  | S k => if c s then s' ← body s; while k c body s' else Some s
  end.

Create HintDb ldb.
Create Rewrite HintDb ldb_rw.
Create Rewrite HintDb zbits.

#[global] Instance byte_eq_dec : EqDecision byte := Byte.byte_eq_dec.
#[global] Program Instance byte_countable : Countable byte :=
  inj_countable Byte.to_N Byte.of_N _.
Next Obligation. exact Byte.of_to_N. Qed.
#[global] Instance byte_inhabited : Inhabited byte := populate x00.

Section bytes.
Local Open Scope Z_scope.

Lemma u8_range b : 0 <= u8 b < 256.
Proof.
  unfold u8. split; [lia|].
  assert (Byte.to_N b <= 255)%N by apply Byte.to_N_bounded. lia.
Qed.

Lemma u8_byte_of z : u8 (byte_of z) = z mod 256.
Proof.
  unfold u8, byte_of.
  assert (0 <= z mod 256 < 256) by (apply Z.mod_pos_bound; lia).
  destruct (Byte.of_N (Z.to_N (z mod 256))) eqn:E; simpl.
  - apply Byte.to_of_N in E. rewrite E. lia.
  - apply Byte.of_N_None_iff in E. lia.
Qed.

Lemma u8_inj a b : u8 a = u8 b → a = b.
Proof.
  unfold u8. intros H. apply N2Z.inj in H.
  pose proof (Byte.of_to_N a). pose proof (Byte.of_to_N b). congruence.
Qed.

Lemma byte_of_u8 b : byte_of (u8 b) = b.
Proof. apply u8_inj. rewrite u8_byte_of. apply Z.mod_small, u8_range. Qed.

Lemma byte_of_mod z : byte_of (z mod 256) = byte_of z.
Proof. apply u8_inj. rewrite !u8_byte_of. apply Z.mod_mod. lia. Qed.

Lemma u8_eqb a b : (u8 a =? u8 b) = bool_decide (a = b).
Proof.
  case_bool_decide as H; [subst; apply Z.eqb_refl|].
  apply Z.eqb_neq. intros E. by apply H, u8_inj.
Qed.

Lemma u32_range z : 0 <= u32 z < 2 ^ 32.
Proof. apply Z.mod_pos_bound. lia. Qed.
Lemma u64_range z : 0 <= u64 z < 2 ^ 64.
Proof. apply Z.mod_pos_bound. lia. Qed.
Lemma u32_small z : 0 <= z < 2 ^ 32 → u32 z = z.
Proof. apply Z.mod_small. Qed.
Lemma u64_small z : 0 <= z < 2 ^ 64 → u64 z = z.
Proof. apply Z.mod_small. Qed.
Lemma u32_u32 z : u32 (u32 z) = u32 z.
Proof. apply Z.mod_mod. lia. Qed.
End bytes.

#[export] Hint Resolve u8_range u32_range u64_range : ldb.
#[export] Hint Rewrite u8_byte_of byte_of_u8 byte_of_mod u32_u32 : ldb_rw.

(** ** Bitwise reasoning *)
Section bits.
Local Open Scope Z_scope.

Lemma testbit_high n w i : 0 <= n < 2 ^ w → w <= i → Z.testbit n i = false.
Proof.
  intros Hn Hi. destruct (Z.eq_dec n 0) as [->|]; [apply Z.bits_0|].
  destruct (Z_lt_dec w 0).
  { rewrite Z.pow_neg_r in Hn by lia. lia. }
  apply Z.bits_above_log2; [lia|].
  apply Z.lt_le_trans with w; [|lia]. apply Z.log2_lt_pow2; lia.
Qed.

Lemma testbit_mod_pow2 a w i :
  0 <= w → 0 <= i → Z.testbit (a mod 2 ^ w) i = (i <? w) && Z.testbit a i.
Proof.
  intros. destruct (Z.ltb_spec i w).
  - by rewrite Z.mod_pow2_bits_low.
  - by rewrite Z.mod_pow2_bits_high by lia.
Qed.

Lemma lxor_range w a b :
  0 <= a < 2 ^ w → 0 <= b < 2 ^ w → 0 <= Z.lxor a b < 2 ^ w.
Proof.
  intros Ha Hb. destruct (Z_lt_dec w 0).
  { rewrite Z.pow_neg_r in Ha by lia. lia. }
  assert (Z.lxor a b = (Z.lxor a b) mod 2 ^ w) as ->.
  { apply Z.bits_inj'. intros i Hi. rewrite testbit_mod_pow2 by lia.
    destruct (Z.ltb_spec i w); [done|]. rewrite Z.lxor_spec.
    by rewrite (testbit_high a w), (testbit_high b w) by lia. }
  apply Z.mod_pos_bound. lia.
Qed.

Lemma lor_range w a b :
  0 <= a < 2 ^ w → 0 <= b < 2 ^ w → 0 <= Z.lor a b < 2 ^ w.
Proof.
  intros Ha Hb. destruct (Z_lt_dec w 0).
  { rewrite Z.pow_neg_r in Ha by lia. lia. }
  assert (Z.lor a b = (Z.lor a b) mod 2 ^ w) as ->.
  { apply Z.bits_inj'. intros i Hi. rewrite testbit_mod_pow2 by lia.
    destruct (Z.ltb_spec i w); [done|]. rewrite Z.lor_spec.
    by rewrite (testbit_high a w), (testbit_high b w) by lia. }
  apply Z.mod_pos_bound. lia.
Qed.

Lemma shiftr_range w a n :
  0 <= n → 0 <= a < 2 ^ w → 0 <= Z.shiftr a n < 2 ^ w.
Proof.
  intros. rewrite Z.shiftr_div_pow2 by lia.
  split; [apply Z.div_pos; lia|].
  apply Z.div_lt_upper_bound; [lia|]. nia.
Qed.

(** A value below [2 ^ w] joined with a value shifted by [w] is their sum. *)
Lemma lor_shiftl_add a b w :
  0 <= w → 0 <= a < 2 ^ w → Z.lor a (Z.shiftl b w) = a + b * 2 ^ w.
Proof.
  intros Hw Ha. rewrite <- Z.shiftl_mul_pow2 by lia.
  rewrite Z.add_nocarry_lxor.
  - symmetry. apply Z.lxor_lor. apply Z.bits_inj'. intros i Hi.
    rewrite Z.land_spec, Z.bits_0. destruct (Z_lt_dec i w).
    + by rewrite Z.shiftl_spec_low, andb_false_r by lia.
    + by rewrite (testbit_high a w) by lia.
  - apply Z.bits_inj'. intros i Hi.
    rewrite Z.land_spec, Z.bits_0. destruct (Z_lt_dec i w).
    + by rewrite Z.shiftl_spec_low, andb_false_r by lia.
    + by rewrite (testbit_high a w) by lia.
Qed.

Lemma lor_mul_add a b w :
  0 <= w → 0 <= a < 2 ^ w → Z.lor a (b * 2 ^ w) = a + b * 2 ^ w.
Proof. intros. rewrite <- Z.shiftl_mul_pow2 at 1 by lia. by apply lor_shiftl_add. Qed.

Lemma land_127 a : Z.land a 127 = a mod 128.
Proof. exact (Z.land_ones a 7 ltac:(lia)). Qed.
Lemma land_255 a : Z.land a 255 = a mod 256.
Proof. exact (Z.land_ones a 8 ltac:(lia)). Qed.

(** The continuation bit of a varint byte. *)
Lemma land_128 a : 0 <= a < 256 → (Z.land a 128 =? 0) = (a <? 128).
Proof.
  intros H. assert (E : Z.land a 128 = 128 * (a / 128)).
  { change 128 with (2 ^ 7) at 2 3. rewrite Z.mul_comm, <- Z.shiftl_mul_pow2 by lia.
    rewrite <- Z.shiftr_div_pow2 by lia.
    apply Z.bits_inj'. intros i Hi.
    rewrite Z.land_spec. destruct (Z_lt_dec i 7).
    - rewrite Z.shiftl_spec_low by lia. change 128 with (2 ^ 7).
      rewrite Z.pow2_bits_eqb by lia.
      destruct (Z.eqb_spec 7 i); [lia|]. apply andb_false_r.
    - rewrite Z.shiftl_spec by lia. rewrite Z.shiftr_spec by lia.
      change 128 with (2 ^ 7). rewrite Z.pow2_bits_eqb by lia.
      replace (i - 7 + 7) with i by lia.
      destruct (Z.eqb_spec 7 i); [by rewrite andb_true_r|].
      by rewrite andb_false_r, (testbit_high a 8) by lia. }
  rewrite E. destruct (Z.ltb_spec a 128).
  - rewrite Z.div_small by lia. reflexivity.
  - apply Z.eqb_neq. assert (1 <= a / 128) by (apply Z.div_le_lower_bound; lia). lia.
Qed.
End bits.

#[export] Hint Resolve lxor_range lor_range shiftr_range : ldb.

(** ** Lists and buffers *)

Lemma store_Some m p b :
  p < length m → store m p b = Some (<[p := b]> m).
Proof. intros. unfold store. by rewrite decide_True. Qed.

Lemma memcpy_Some m p src :
  p + length src ≤ length m →
  memcpy m p src = Some (take p m ++ src ++ drop (p + length src) m).
Proof. intros. unfold memcpy. by rewrite decide_True. Qed.

Lemma load_range_Some m p n :
  p + n ≤ length m → load_range m p n = Some (take n (drop p m)).
Proof. intros. unfold load_range. by rewrite decide_True. Qed.

(** Storing a byte just after an already written prefix extends the prefix. *)
Lemma insert_middle {A} (pre : list A) x y post p :
  p = length pre → <[p := y]> (pre ++ x :: post) = pre ++ y :: post.
Proof.
  intros ->. rewrite insert_app_r_alt by lia. by rewrite Nat.sub_diag.
Qed.

Lemma store_app pre b x post :
  store (pre ++ x :: post) (length pre) b = Some (pre ++ b :: post).
Proof.
  rewrite store_Some by (rewrite length_app; simpl; lia).
  by rewrite insert_middle.
Qed.

Lemma memcpy_app pre old post src p :
  p = length pre → length old = length src →
  memcpy (pre ++ old ++ post) p src = Some (pre ++ src ++ post).
Proof.
  intros -> Hlen. rewrite memcpy_Some by (rewrite !length_app; lia).
  rewrite take_app_length. do 3 f_equal.
  by rewrite (assoc_L (++)), drop_app_length' by (rewrite length_app; lia).
Qed.

Lemma memcpy_app_0 old post src :
  length old = length src → memcpy (old ++ post) 0 src = Some (src ++ post).
Proof. intros. by apply (memcpy_app [] old post src). Qed.

Lemma store_at pre b x post p :
  p = length pre → store (pre ++ x :: post) p b = Some ((pre ++ [b]) ++ post).
Proof. intros ->. by rewrite store_app, <- (assoc_L (++)). Qed.

Lemma load_range_app pre m post :
  load_range (pre ++ m ++ post) (length pre) (length m) = Some m.
Proof.
  rewrite load_range_Some by (rewrite !length_app; lia).
  by rewrite drop_app_length, take_app_length.
Qed.

Lemma load_range_0 m : load_range m 0 (length m) = Some m.
Proof. rewrite load_range_Some by lia. by rewrite drop_0, firstn_all. Qed.

Lemma while_ext {S} fuel c (body body' : S → option S) s :
  (∀ s, body s = body' s) → while fuel c body s = while fuel c body' s.
Proof.
  intros Hb. revert s. induction fuel as [|k IH]; intros s; [done|]. cbn. rewrite Hb.
  destruct (c s); [|done]. destruct (body' s); [apply IH|done].
Qed.

(** Total correctness of a loop: an invariant and a decreasing measure. *)
Lemma while_total {S} (I : S → Prop) (μ : S → nat) c (body : S → option S) :
  (∀ s, I s → c s = true → ∃ s', body s = Some s' ∧ I s' ∧ μ s' < μ s) →
  ∀ fuel s, I s → μ s < fuel →
  ∃ s', while fuel c body s = Some s' ∧ I s' ∧ c s' = false.
Proof.
  intros Hb. induction fuel as [|k IH]; intros s HI Hμ; [lia|]. simpl.
  destruct (c s) eqn:Hc; [|eauto].
  destruct (Hb s HI Hc) as (s' & -> & HI' & Hlt). cbn [mbind option_bind].
  apply IH; [done|lia].
Qed.

(** ** Tactics *)

(** Adds the range of every byte the goal or a hypothesis reads. *)
Ltac byte_range b :=
  lazymatch goal with
  | _ : (0 <= u8 b < 256)%Z |- _ => fail
  | _ => pose proof (u8_range b)
  end.
Ltac byte_ranges :=
  repeat match goal with
  | |- context [u8 ?b] => byte_range b
  | _ : context [u8 ?b] |- _ => byte_range b
  end.

(** Linear arithmetic with quotients, remainders and shifts by constants. *)
Ltac lia_div := Z.div_mod_to_equations; lia.
Ltac lia_shift := rewrite ?Z.shiftr_div_pow2 by lia; lia_div.

(** Splits the hypotheses a faulting computation leaves behind. *)
Ltac simplify_exec :=
  repeat (simplify_option_eq || case_match || simplify_eq).

(** Equality of words bit by bit: normal form of [Z.testbit], then the
    boolean identity. *)
#[export] Hint Rewrite Z.lxor_spec Z.land_spec Z.lor_spec Z.bits_0 : zbits.
#[export] Hint Rewrite Z.shiftr_spec Z.shiftl_spec testbit_mod_pow2 using lia : zbits.

Ltac zbitwise :=
  apply Z.bits_inj'; intros ?i ?Hi; autorewrite with zbits; try btauto.
