(* ===== verification/Slice.v ===== *)
(** Slices: include/slice.h.

    A [Slice] is a pointer and a length into memory it does not own; here it is
    the bytes it denotes, which is what every operation below observes.  The
    order on byte strings that [Slice::compare] is meant to compute is
    [lex_compare]; what it does compute is [Slice_compare]. *)
From S2P Require Import Prelude.
Local Open Scope Z_scope.

(** [::memcmp] on the first [n] bytes (both operands have them wherever the
    source calls it): the difference of the first bytes that differ. *)
Fixpoint memcmp (a b : bytes) (n : nat) {struct n} : Z :=
  match n, a, b with
  | S n, x :: a, y :: b => if u8 x =? u8 y then memcmp a b n else u8 x - u8 y
  | _, _, _ => 0
  end.

Definition Slice_empty (s : bytes) : bool := (length s =? 0)%nat.

Definition Slice_at (s : bytes) (n : nat) : option byte :=
  ASSERT (n <? length s)%nat; s !! n.

Definition remove_prefix (s : bytes) (n : nat) : option bytes :=
  ASSERT (n <=? length s)%nat; Some (drop n s).

Definition starts_with (s x : bytes) : bool :=
  (length x <=? length s)%nat && (memcmp s x (length x) =? 0).

Definition Slice_eqb (x y : bytes) : bool :=
  (length x =? length y)%nat && (memcmp x y (length x) =? 0).

Definition Slice_neb (x y : bytes) : bool := negb (Slice_eqb x y).

(** [Slice::compare]: when the common prefixes agree the result is [-1] if the
    left slice is shorter and [+1] otherwise. *)
Definition Slice_compare (a b : bytes) : Z :=
  let min_size := if (length b <? length a)%nat then length b else length a in
  let r := memcmp a b min_size in
  if r =? 0 then (if (length a <? length b)%nat then -1 else 1) else r.

(** ** Specification: the lexicographic order of unsigned bytes *)

Fixpoint lex_compare (a b : bytes) : comparison :=
  match a, b with
  | [], [] => Eq
  | [], _ :: _ => Lt
  | _ :: _, [] => Gt
  | x :: a, y :: b => match u8 x ?= u8 y with Eq => lex_compare a b | c => c end
  end.

Definition lex_lt (a b : bytes) : Prop := lex_compare a b = Lt.
Definition lex_le (a b : bytes) : Prop := lex_compare a b ≠ Gt.

#[global] Instance lex_lt_dec a b : Decision (lex_lt a b).
Proof. unfold lex_lt. solve_decision. Defined.
#[global] Instance lex_le_dec a b : Decision (lex_le a b).
Proof. unfold lex_le. apply _. Defined.

(** ** The order is total *)

Lemma lex_refl a : lex_compare a a = Eq.
Proof. induction a; simpl; [done|]. by rewrite Z.compare_refl. Qed.

Lemma lex_eq a b : lex_compare a b = Eq ↔ a = b.
Proof.
  split; [|intros ->; apply lex_refl].
  revert b. induction a as [|x a IH]; intros [|y b]; simpl; try done.
  destruct (Z.compare_spec (u8 x) (u8 y)) as [E|E|E]; intros; try done.
  apply u8_inj in E as ->. by rewrite (IH b).
Qed.

Lemma lex_antisym a b : lex_compare b a = CompOpp (lex_compare a b).
Proof.
  revert b. induction a as [|x a IH]; intros [|y b]; simpl; try done.
  rewrite (Z.compare_antisym (u8 x) (u8 y)).
  destruct (u8 x ?= u8 y); simpl; auto.
Qed.

Lemma lex_lt_trans a b c : lex_lt a b → lex_lt b c → lex_lt a c.
Proof.
  unfold lex_lt. revert b c.
  induction a as [|x a IH]; intros [|y b] [|z c]; simpl; try done.
  destruct (Z.compare_spec (u8 x) (u8 y)), (Z.compare_spec (u8 y) (u8 z)),
    (Z.compare_spec (u8 x) (u8 z)); first [done | lia | apply IH].
Qed.

Lemma lex_lt_irrefl a : ¬ lex_lt a a.
Proof. unfold lex_lt. by rewrite lex_refl. Qed.

Lemma lex_gt_lt a b : lex_compare a b = Gt ↔ lex_lt b a.
Proof. unfold lex_lt. rewrite (lex_antisym a b). destruct (lex_compare a b); done. Qed.

Lemma lex_le_lteq a b : lex_le a b ↔ lex_lt a b ∨ a = b.
Proof.
  unfold lex_le, lex_lt. rewrite <- (lex_eq a b). destruct (lex_compare a b); split; auto; by intros [].
Qed.

Lemma lex_app_l p a b : lex_compare (p ++ a) (p ++ b) = lex_compare a b.
Proof. induction p; simpl; [done|]. by rewrite Z.compare_refl. Qed.

Lemma lex_cons_lt x y a b : u8 x < u8 y → lex_lt (x :: a) (y :: b).
Proof. unfold lex_lt. simpl. intros H. by rewrite (proj2 (Z.compare_lt_iff _ _)). Qed.

(** ** [memcmp] and the operations against the order *)

Lemma memcmp_full a b :
  length a = length b →
  match lex_compare a b with
  | Lt => memcmp a b (length a) < 0
  | Eq => memcmp a b (length a) = 0
  | Gt => 0 < memcmp a b (length a)
  end.
Proof.
  revert b. induction a as [|x a IH]; intros [|y b] H; try done. simpl.
  destruct (Z.compare_spec (u8 x) (u8 y)) as [E|E|E].
  - rewrite E, Z.eqb_refl. apply IH. by injection H.
  - rewrite (proj2 (Z.eqb_neq _ _)) by lia. lia.
  - rewrite (proj2 (Z.eqb_neq _ _)) by lia. lia.
Qed.

Lemma memcmp_min a b :
  memcmp a b (length a `min` length b) ≠ 0 →
  match lex_compare a b with
  | Lt => memcmp a b (length a `min` length b) < 0
  | Eq => False
  | Gt => 0 < memcmp a b (length a `min` length b)
  end.
Proof.
  revert b. induction a as [|x a IH]; intros [|y b] H; try done. simpl in *.
  destruct (Z.compare_spec (u8 x) (u8 y)) as [E|E|E].
  - rewrite E, Z.eqb_refl in *. by apply IH.
  - rewrite (proj2 (Z.eqb_neq _ _)) by lia. lia.
  - rewrite (proj2 (Z.eqb_neq _ _)) by lia. lia.
Qed.

Lemma memcmp_min_0 a b :
  memcmp a b (length a `min` length b) = 0 →
  lex_compare a b = Nat.compare (length a) (length b).
Proof.
  revert b. induction a as [|x a IH]; intros [|y b] H; try done. simpl in *.
  destruct (Z.eqb_spec (u8 x) (u8 y)) as [E|E]; [|lia].
  rewrite E, Z.compare_refl. by apply IH.
Qed.

(** The sign of [Slice_compare]. *)
Lemma Slice_compare_spec a b :
  match lex_compare a b with
  | Lt => Slice_compare a b < 0
  | _ => 0 < Slice_compare a b
  end.
Proof.
  unfold Slice_compare.
  replace (if (length b <? length a)%nat then length b else length a)
    with (length a `min` length b)%nat by (destruct (Nat.ltb_spec (length b) (length a)); lia).
  destruct (Z.eqb_spec (memcmp a b (length a `min` length b)) 0) as [E|E].
  - apply memcmp_min_0 in E. rewrite E.
    destruct (Nat.ltb_spec (length a) (length b)), (Nat.compare_spec (length a) (length b)); lia.
  - apply memcmp_min in E. by destruct (lex_compare a b).
Qed.

Lemma Slice_compare_lt a b : Slice_compare a b < 0 ↔ lex_lt a b.
Proof.
  pose proof (Slice_compare_spec a b). unfold lex_lt.
  destruct (lex_compare a b); split; intros; try done; lia.
Qed.

Lemma Slice_compare_gt a b : 0 < Slice_compare a b ↔ lex_le b a.
Proof.
  pose proof (Slice_compare_spec a b). unfold lex_le. rewrite lex_gt_lt. unfold lex_lt.
  destruct (lex_compare a b); split; intros; try done; lia.
Qed.

Lemma Slice_eqb_spec x y : Slice_eqb x y = bool_decide (x = y).
Proof.
  unfold Slice_eqb. destruct (Nat.eqb_spec (length x) (length y)) as [E|E]; simpl.
  - pose proof (memcmp_full x y E) as H. case_bool_decide as Hxy.
    + subst. rewrite lex_refl in H. by apply Z.eqb_eq.
    + apply Z.eqb_neq. destruct (lex_compare x y) eqn:L; [|lia|lia].
      by apply lex_eq in L.
  - rewrite bool_decide_eq_false_2; [done|]. by intros ->.
Qed.

Lemma memcmp_app x r : memcmp (x ++ r) x (length x) = 0.
Proof. induction x; simpl; [done|]. by rewrite Z.eqb_refl. Qed.

Lemma memcmp_take s x : memcmp s x (length x) = memcmp (take (length x) s) x (length x).
Proof.
  revert s. induction x as [|y x IH]; intros [|z s]; simpl; try done.
  case_match; [apply IH|done].
Qed.

(** ** Properties *)

(** C26: what [Slice::compare] computes, on every pair of slices: negative
    exactly when the left slice is lexicographically smaller (as unsigned
    bytes), positive exactly when it is greater or EQUAL.  It never returns 0,
    so two equal slices compare as greater both ways, while [operator==] does
    decide equality. *)
Theorem Slice_compare_correct a b :
  (Slice_compare a b < 0 ↔ lex_lt a b) ∧ (0 < Slice_compare a b ↔ lex_le b a)
  ∧ Slice_compare a b ≠ 0 ∧ Slice_eqb a b = bool_decide (a = b).
Proof.
  split; [apply Slice_compare_lt|]. split; [apply Slice_compare_gt|].
  split; [|apply Slice_eqb_spec].
  pose proof (Slice_compare_spec a b). destruct (lex_compare a b); lia.
Qed.

(** [starts_with] decides the prefix relation, and [remove_prefix] of a
    prefix leaves the rest of the slice and never trips its assertion. *)
Theorem starts_with_correct s x :
  starts_with s x = true ↔ ∃ r, s = x ++ r ∧ remove_prefix s (length x) = Some r.
Proof.
  unfold starts_with, remove_prefix. rewrite andb_true_iff, Nat.leb_le, Z.eqb_eq. split.
  - intros [Hl Hm]. exists (drop (length x) s).
    rewrite (proj2 (Nat.leb_le _ _)) by done. split; [|done].
    rewrite memcmp_take in Hm.
    assert (Hlen : length (take (length x) s) = length x) by (rewrite length_take; lia).
    pose proof (memcmp_full (take (length x) s) x Hlen) as H. rewrite Hlen in H.
    destruct (lex_compare (take (length x) s) x) eqn:E; [|lia|lia].
    apply lex_eq in E. rewrite <- E at 1. by rewrite take_drop.
  - intros (r & -> & _). split; [rewrite length_app; lia|apply memcmp_app].
Qed.
