(* ===== verification/Coding.v ===== *)
(** Integer and slice encodings: util/coding.h and util/coding.cc.

    Buffers written through a [char*] are a byte list with an offset
    ([EncodeVarint32 m dst v] returns the buffer after the stores and the
    advanced pointer); [std::string] outputs and [Slice] inputs are their
    bytes.  The specification [varint] is the LEB128 encoding. *)
From S2P Require Import Prelude.
Local Open Scope Z_scope.

(** ** Fixed-width little-endian integers *)

(** [*(ptr++) = x], once per element. *)
Fixpoint put_bytes (m : bytes) (p : nat) (xs : list Z) : option (bytes * nat) :=
  match xs with
  | [] => Some (m, p)
  | x :: xs => m' ← store m p (byte_of x); put_bytes m' (S p) xs
  end.

Definition EncodeFixed32 (m : bytes) (dst : nat) (value : Z) : option bytes :=
  fst <$> put_bytes m dst
    [value; Z.shiftr value 8; Z.shiftr value 16; Z.shiftr value 24].

Definition EncodeFixed64 (m : bytes) (dst : nat) (value : Z) : option bytes :=
  fst <$> put_bytes m dst
    [value; Z.shiftr value 8; Z.shiftr value 16; Z.shiftr value 24;
     Z.shiftr value 32; Z.shiftr value 40; Z.shiftr value 48; Z.shiftr value 56].

Definition DecodeFixed32 (m : bytes) (ptr : nat) : option Z :=
  b0 ← load m ptr; b1 ← load m (ptr + 1); b2 ← load m (ptr + 2); b3 ← load m (ptr + 3);
  Some (Z.lor (Z.lor (Z.lor (u8 b0) (Z.shiftl (u8 b1) 8))
                     (Z.shiftl (u8 b2) 16)) (Z.shiftl (u8 b3) 24)).

Definition DecodeFixed64 (m : bytes) (ptr : nat) : option Z :=
  b0 ← load m ptr; b1 ← load m (ptr + 1); b2 ← load m (ptr + 2); b3 ← load m (ptr + 3);
  b4 ← load m (ptr + 4); b5 ← load m (ptr + 5); b6 ← load m (ptr + 6); b7 ← load m (ptr + 7);
  Some (Z.lor (Z.lor (Z.lor (Z.lor (Z.lor (Z.lor (Z.lor (u8 b0) (Z.shiftl (u8 b1) 8))
        (Z.shiftl (u8 b2) 16)) (Z.shiftl (u8 b3) 24)) (Z.shiftl (u8 b4) 32))
        (Z.shiftl (u8 b5) 40)) (Z.shiftl (u8 b6) 48)) (Z.shiftl (u8 b7) 56)).

(** A local [char buf[n]]; its initial contents are never read. *)
Definition char_array (n : nat) : bytes := replicate n x00.

Definition PutFixed32 (dst : bytes) (value : Z) : option bytes :=
  buf ← EncodeFixed32 (char_array 4) 0 value; Some (dst ++ buf).

Definition PutFixed64 (dst : bytes) (value : Z) : option bytes :=
  buf ← EncodeFixed64 (char_array 8) 0 value; Some (dst ++ buf).

(** ** Varints *)

Definition B : Z := 128.

Definition EncodeVarint32 (m : bytes) (dst : nat) (v : Z) : option (bytes * nat) :=
  if v <? Z.shiftl 1 7 then put_bytes m dst [v]
  else if v <? Z.shiftl 1 14 then put_bytes m dst [Z.lor v B; Z.shiftr v 7]
  else if v <? Z.shiftl 1 21 then
    put_bytes m dst [Z.lor v B; Z.lor (Z.shiftr v 7) B; Z.shiftr v 14]
  else if v <? Z.shiftl 1 28 then
    put_bytes m dst [Z.lor v B; Z.lor (Z.shiftr v 7) B; Z.lor (Z.shiftr v 14) B;
                     Z.shiftr v 21]
  else
    put_bytes m dst [Z.lor v B; Z.lor (Z.shiftr v 7) B; Z.lor (Z.shiftr v 14) B;
                     Z.lor (Z.shiftr v 21) B; Z.shiftr v 28].

(** The [while (v >= B)] loop; the fuel bounds its iterations. *)
Fixpoint EncodeVarint64_loop (fuel : nat) (m : bytes) (ptr : nat) (v : Z)
    : option (bytes * nat) :=
  match fuel with
  | O => None
  | S fuel =>
      if B <=? v then
        m' ← store m ptr (byte_of (Z.lor v B));
        EncodeVarint64_loop fuel m' (S ptr) (Z.shiftr v 7)
      else m' ← store m ptr (byte_of v); Some (m', S ptr)
  end.

Definition EncodeVarint64 (m : bytes) (dst : nat) (v : Z) : option (bytes * nat) :=
  EncodeVarint64_loop 10 m dst v.

Definition PutVarint32 (dst : bytes) (v : Z) : option bytes :=
  '(buf, ptr) ← EncodeVarint32 (char_array 5) 0 v; Some (dst ++ take ptr buf).

Definition PutVarint64 (dst : bytes) (v : Z) : option bytes :=
  '(buf, ptr) ← EncodeVarint64 (char_array 10) 0 v; Some (dst ++ take ptr buf).

(** [value.size()] is converted to [uint32_t] by the call. *)
Definition PutLengthPrefixedSlice (dst value : bytes) : option bytes :=
  dst' ← PutVarint32 dst (u32 (Z.of_nat (length value))); Some (dst' ++ value).

Fixpoint VarintLength_loop (fuel : nat) (v : Z) (len : nat) : option nat :=
  match fuel with
  | O => None
  | S fuel => if 128 <=? v then VarintLength_loop fuel (Z.shiftr v 7) (S len)
              else Some len
  end.

Definition VarintLength (v : Z) : option nat := VarintLength_loop 10 v 1.

(** The decoding loop [for (shift = 0; shift <= last && p < limit; shift += 7)]
    shared by the two widths: [wrap] is the width of [result].  The value is
    [Some None] for the null pointer and [Some (Some (q, value))] otherwise. *)
Fixpoint GetVarint_loop (wrap : Z → Z) (last : Z) (fuel : nat) (m : bytes)
    (p limit : nat) (shift result : Z) : option (option (nat * Z)) :=
  match fuel with
  | O => None
  | S fuel =>
      if (shift <=? last) && (p <? limit)%nat then
        b ← load m p;
        let byte := u8 b in
        if negb (Z.land byte 128 =? 0) then
          GetVarint_loop wrap last fuel m (S p) limit (shift + 7)
            (Z.lor result (wrap (Z.shiftl (Z.land byte 127) shift)))
        else Some (Some (S p, Z.lor result (wrap (Z.shiftl byte shift))))
      else Some None
  end.

Definition GetVarint32PtrFallback (m : bytes) (p limit : nat) : option (option (nat * Z)) :=
  GetVarint_loop u32 28 6 m p limit 0 0.

Definition GetVarint64Ptr (m : bytes) (p limit : nat) : option (option (nat * Z)) :=
  GetVarint_loop u64 63 11 m p limit 0 0.

Definition GetVarint32Ptr (m : bytes) (p limit : nat) : option (option (nat * Z)) :=
  if (p <? limit)%nat then
    b ← load m p;
    let result := u8 b in
    if Z.land result 128 =? 0 then Some (Some (S p, result))
    else GetVarint32PtrFallback m p limit
  else GetVarint32PtrFallback m p limit.

(** [Some None] returns false and leaves the input alone; [Some (Some (v, s))]
    returns true with the value [v] and the rest [s] of the input. *)
Definition GetVarint32 (input : bytes) : option (option (Z * bytes)) :=
  r ← GetVarint32Ptr input 0 (length input);
  match r with
  | None => Some None
  | Some (q, v) => Some (Some (v, drop q input))
  end.

Definition GetVarint64 (input : bytes) : option (option (Z * bytes)) :=
  r ← GetVarint64Ptr input 0 (length input);
  match r with
  | None => Some None
  | Some (q, v) => Some (Some (v, drop q input))
  end.

(** The input after the call and, when it returns true, the result slice. *)
Definition GetLengthPrefixedSlice (input : bytes) : option (bytes * option bytes) :=
  r ← GetVarint32 input;
  match r with
  | None => Some (input, None)
  | Some (len, rest) =>
      if len <=? Z.of_nat (length rest)
      then Some (drop (Z.to_nat len) rest, Some (take (Z.to_nat len) rest))
      else Some (rest, None)
  end.

(** ** Specification: the LEB128 encoding of a natural number *)

Fixpoint leb128 (fuel : nat) (v : Z) : bytes :=
  match fuel with
  | O => []
  | S fuel => if v <? 128 then [byte_of v]
              else byte_of (128 + v mod 128) :: leb128 fuel (v / 128)
  end.

Definition varint (v : Z) : bytes := leb128 10 v.

(** Little-endian bytes of a [n]-byte word. *)
Fixpoint le_bytes (n : nat) (v : Z) : bytes :=
  match n with
  | O => []
  | S n => byte_of v :: le_bytes n (v / 256)
  end.

Fixpoint le_value (l : bytes) : Z :=
  match l with
  | [] => 0
  | b :: l => u8 b + 256 * le_value l
  end.

(** ** Stores into a buffer *)

Lemma put_bytes_app pre old post xs :
  length old = length xs →
  put_bytes (pre ++ old ++ post) (length pre) xs
  = Some (pre ++ (byte_of <$> xs) ++ post, (length pre + length xs)%nat).
Proof.
  revert pre old. induction xs as [|x xs IH]; intros pre old Hlen.
  - destruct old; [|done]. simpl. by rewrite Nat.add_0_r.
  - destruct old as [|o old]; [done|]. injection Hlen as Hlen.
    simpl. rewrite store_app. simpl.
    specialize (IH (pre ++ [byte_of x]) old Hlen).
    rewrite <- !app_assoc, length_app in IH. simpl in IH.
    replace (S (length pre)) with (length pre + 1)%nat by lia.
    rewrite IH. do 2 f_equal. lia.
Qed.

(** A whole local array is filled. *)
Lemma put_bytes_array n xs :
  (length xs ≤ n)%nat →
  ∃ buf, put_bytes (char_array n) 0 xs = Some (buf, length xs)
         ∧ take (length xs) buf = byte_of <$> xs ∧ length buf = n.
Proof.
  intros H. unfold char_array.
  replace n with (length xs + (n - length xs))%nat by lia. rewrite replicate_add.
  pose proof (put_bytes_app [] (replicate (length xs) x00)
                (replicate (n - length xs) x00) xs) as E.
  simpl in E. rewrite E by (by rewrite length_replicate).
  eexists. split; [done|]. split.
  - rewrite take_app_le by (by rewrite length_fmap).
    by rewrite take_ge by (by rewrite length_fmap).
  - rewrite length_app, length_fmap, length_replicate. lia.
Qed.

(** ** Fixed-width integers *)

Lemma length_le_bytes n v : length (le_bytes n v) = n.
Proof. revert v. induction n; intros; simpl; auto. Qed.

Lemma le_value_range l : 0 <= le_value l < 2 ^ (8 * Z.of_nat (length l)).
Proof.
  induction l as [|b l IH]; [simpl; lia|].
  cbn [le_value length].
  replace (2 ^ (8 * Z.of_nat (S (length l)))) with (256 * 2 ^ (8 * Z.of_nat (length l)))
    by (change 256 with (2 ^ 8); rewrite <- Z.pow_add_r by lia; f_equal; lia).
  pose proof (u8_range b). lia.
Qed.

Lemma le_value_le_bytes n v : le_value (le_bytes n v) = v mod 2 ^ (8 * Z.of_nat n).
Proof.
  revert v. induction n as [|n IH]; intros v.
  - simpl. by rewrite Z.mod_1_r.
  - cbn [le_bytes le_value]. rewrite IH, u8_byte_of.
    replace (2 ^ (8 * Z.of_nat (S n))) with (256 * 2 ^ (8 * Z.of_nat n))
      by (change 256 with (2 ^ 8); rewrite <- Z.pow_add_r by lia; f_equal; lia).
    by rewrite Z.rem_mul_r by lia.
Qed.

Lemma le_bytes_le_value l : le_bytes (length l) (le_value l) = l.
Proof.
  induction l as [|b l IH]; [done|]. cbn [length le_bytes le_value].
  pose proof (u8_range b).
  replace ((u8 b + 256 * le_value l) / 256) with (le_value l)
    by (rewrite Z.mul_comm, Z.div_add by lia; rewrite Z.div_small; lia).
  rewrite IH. f_equal. apply u8_inj. rewrite u8_byte_of.
  rewrite Z.mul_comm, Z.mod_add by lia. by apply Z.mod_small.
Qed.

(** The bytes the code shifts out are the little-endian bytes. *)
Lemma fixed32_bytes v :
  (byte_of <$> [v; Z.shiftr v 8; Z.shiftr v 16; Z.shiftr v 24]) = le_bytes 4 v.
Proof. cbn. rewrite !Z.shiftr_div_pow2 by lia. by rewrite !Z.div_div by lia. Qed.

Lemma fixed64_bytes v :
  (byte_of <$> [v; Z.shiftr v 8; Z.shiftr v 16; Z.shiftr v 24; Z.shiftr v 32;
                Z.shiftr v 40; Z.shiftr v 48; Z.shiftr v 56]) = le_bytes 8 v.
Proof. cbn. rewrite !Z.shiftr_div_pow2 by lia. by rewrite !Z.div_div by lia. Qed.

Lemma EncodeFixed32_app pre old post v :
  length old = 4%nat →
  EncodeFixed32 (pre ++ old ++ post) (length pre) v = Some (pre ++ le_bytes 4 v ++ post).
Proof.
  intros H. unfold EncodeFixed32. rewrite put_bytes_app by done.
  by rewrite fixed32_bytes.
Qed.

Lemma EncodeFixed64_app pre old post v :
  length old = 8%nat →
  EncodeFixed64 (pre ++ old ++ post) (length pre) v = Some (pre ++ le_bytes 8 v ++ post).
Proof.
  intros H. unfold EncodeFixed64. rewrite put_bytes_app by done.
  by rewrite fixed64_bytes.
Qed.

Lemma PutFixed32_eq dst v : PutFixed32 dst v = Some (dst ++ le_bytes 4 v).
Proof.
  unfold PutFixed32. pose proof (EncodeFixed32_app [] (char_array 4) [] v eq_refl) as E.
  rewrite app_nil_r in E. simpl in E. rewrite E. simpl. by rewrite ?app_nil_r.
Qed.

Lemma PutFixed64_eq dst v : PutFixed64 dst v = Some (dst ++ le_bytes 8 v).
Proof.
  unfold PutFixed64. pose proof (EncodeFixed64_app [] (char_array 8) [] v eq_refl) as E.
  rewrite app_nil_r in E. simpl in E. rewrite E. simpl. by rewrite ?app_nil_r.
Qed.

Lemma load_app_r pre l i : load (pre ++ l) (length pre + i) = l !! i.
Proof. unfold load. rewrite lookup_app_r by lia. f_equal. lia. Qed.

Lemma DecodeFixed32_app pre l post :
  length l = 4%nat → DecodeFixed32 (pre ++ l ++ post) (length pre) = Some (le_value l).
Proof.
  intros H. do 4 (destruct l as [|? l]; [done|]). destruct l; [|done].
  unfold DecodeFixed32. rewrite <- (Nat.add_0_r (length pre)) at 1.
  rewrite !load_app_r. simpl. f_equal.
  byte_ranges.
  rewrite (lor_shiftl_add _ _ 8), (lor_shiftl_add _ _ 16), (lor_shiftl_add _ _ 24) by lia.
  lia.
Qed.

Lemma DecodeFixed64_app pre l post :
  length l = 8%nat → DecodeFixed64 (pre ++ l ++ post) (length pre) = Some (le_value l).
Proof.
  intros H. do 8 (destruct l as [|? l]; [done|]). destruct l; [|done].
  unfold DecodeFixed64. rewrite <- (Nat.add_0_r (length pre)) at 1.
  rewrite !load_app_r. simpl. f_equal.
  byte_ranges.
  rewrite (lor_shiftl_add _ _ 8), (lor_shiftl_add _ _ 16), (lor_shiftl_add _ _ 24),
    (lor_shiftl_add _ _ 32), (lor_shiftl_add _ _ 40), (lor_shiftl_add _ _ 48),
    (lor_shiftl_add _ _ 56) by lia.
  lia.
Qed.

(** ** Varints: the encoders compute [varint] *)

Lemma leb128_S f v :
  leb128 (S f) v = if v <? 128 then [byte_of v]
                   else byte_of (128 + v mod 128) :: leb128 f (v / 128).
Proof. done. Qed.

(** [v | 128] and [128 + v mod 128] agree in their low byte. *)
Lemma byte_of_lor_B v : 0 <= v → byte_of (Z.lor v B) = byte_of (128 + v mod 128).
Proof.
  intros Hv. rewrite <- (byte_of_mod (Z.lor v B)). f_equal.
  rewrite (Z.div_mod v 128) at 1 by lia. unfold B.
  replace (128 * (v / 128) + v mod 128)
    with (Z.lor (v mod 128) (Z.shiftl (v / 128) 7))
    by (rewrite lor_shiftl_add by (try lia; apply Z.mod_pos_bound; lia); lia).
  change 128 with (Z.shiftl 1 7) at 3.
  rewrite <- Z.lor_assoc, <- Z.shiftl_lor.
  rewrite lor_shiftl_add by (try lia; apply Z.mod_pos_bound; lia).
  change 256 with (2 * 2 ^ 7). change (2 ^ 7) with 128 at 1.
  rewrite Z.add_comm, Z.mul_comm. rewrite (Z.add_comm (_ * _)).
  assert (E : Z.lor (v / 128) 1 mod 2 = 1).
  { change 2 with (2 ^ 1). rewrite <- Z.land_ones by lia.
    rewrite Z.land_lor_distr_l. change (Z.land 1 (Z.ones 1)) with 1.
    rewrite Z.land_ones by lia. change (2 ^ 1) with 2.
    pose proof (Z.mod_pos_bound (v / 128) 2 ltac:(lia)).
    assert ((v / 128) mod 2 = 0 ∨ (v / 128) mod 2 = 1) as [-> | ->] by lia; done. }
  rewrite (Z.div_mod (Z.lor (v / 128) 1) 2) by lia. rewrite E.
  pose proof (Z.mod_pos_bound v 128 ltac:(lia)).
  replace (2 ^ 7) with 128 by lia.
  replace (v mod 128 + 128 * (2 * (Z.lor (v / 128) 1 / 2) + 1))
    with ((128 + v mod 128) + Z.lor (v / 128) 1 / 2 * 256) by lia.
  rewrite Z.mod_add by lia. apply Z.mod_small. lia.
Qed.

Lemma leb128_last f v : v < 128 → leb128 (S f) v = [byte_of v].
Proof. intros. rewrite leb128_S. by rewrite (proj2 (Z.ltb_lt _ _)). Qed.

Lemma leb128_more f v :
  128 <= v → leb128 (S f) v = byte_of (Z.lor v B) :: leb128 f (Z.shiftr v 7).
Proof.
  intros. rewrite leb128_S, (proj2 (Z.ltb_ge _ _)) by done.
  by rewrite byte_of_lor_B, Z.shiftr_div_pow2 by lia.
Qed.

#[local] Arguments leb128 : simpl never.

(** One LEB128 step at a time, with the shifts of the source. *)
Ltac leb128_step :=
  first [rewrite leb128_last by lia_shift
        |rewrite leb128_more by lia_shift;
         rewrite ?Z.shiftr_shiftr by lia; simpl Z.add].

Lemma EncodeVarint32_app pre old post v :
  0 <= v < 2 ^ 32 → length old = length (varint v) →
  EncodeVarint32 (pre ++ old ++ post) (length pre) v
  = Some (pre ++ varint v ++ post, (length pre + length (varint v))%nat).
Proof.
  unfold EncodeVarint32, varint. intros Hv.
  change (Z.shiftl 1 7) with 128. change (Z.shiftl 1 14) with (2 ^ 14).
  change (Z.shiftl 1 21) with (2 ^ 21). change (Z.shiftl 1 28) with (2 ^ 28).
  repeat case_match; repeat leb128_step; intros Hlen; by rewrite put_bytes_app.
Qed.

Lemma pow2_7S f : 2 ^ (7 * Z.of_nat (S f)) = 128 * 2 ^ (7 * Z.of_nat f).
Proof. change 128 with (2 ^ 7). rewrite <- Z.pow_add_r by lia. f_equal. lia. Qed.

Lemma EncodeVarint64_loop_app f pre old post v :
  0 <= v < 2 ^ (7 * Z.of_nat f) → (0 < f)%nat → length old = length (leb128 f v) →
  EncodeVarint64_loop f (pre ++ old ++ post) (length pre) v
  = Some (pre ++ leb128 f v ++ post, (length pre + length (leb128 f v))%nat).
Proof.
  revert pre old v. induction f as [|f IH]; intros pre old v Hv Hf Hlen; [lia|].
  rewrite pow2_7S in Hv. cbn [EncodeVarint64_loop]. unfold B at 1.
  destruct (Z.leb_spec 128 v).
  - rewrite leb128_more in * by done. destruct old as [|o old]; [done|].
    injection Hlen as Hlen. simpl. rewrite store_app. simpl.
    assert (Hf' : (0 < f)%nat) by (destruct f; [change (2 ^ _) with 1 in Hv|]; lia).
    specialize (IH (pre ++ [byte_of (Z.lor v B)]) old (Z.shiftr v 7)).
    rewrite <- !app_assoc, length_app in IH. simpl in IH.
    replace (S (length pre)) with (length pre + 1)%nat by lia.
    rewrite IH; [do 2 f_equal; lia| |done|done].
    rewrite Z.shiftr_div_pow2 by lia. change (2 ^ 7) with 128.
    split; [lia_div|]. apply Z.div_lt_upper_bound; lia.
  - rewrite leb128_last in * by done. destruct old as [|o [|]]; [done| |done].
    simpl. rewrite store_app. simpl. do 2 f_equal. lia.
Qed.

Lemma EncodeVarint64_app pre old post v :
  0 <= v < 2 ^ 64 → length old = length (varint v) →
  EncodeVarint64 (pre ++ old ++ post) (length pre) v
  = Some (pre ++ varint v ++ post, (length pre + length (varint v))%nat).
Proof. intros. apply EncodeVarint64_loop_app; [|lia|done]. change (7 * _) with 70. lia. Qed.

Lemma VarintLength_loop_eq f v len :
  0 <= v < 2 ^ (7 * Z.of_nat f) → (0 < f)%nat →
  VarintLength_loop f v (S len) = Some (len + length (leb128 f v))%nat.
Proof.
  revert v len. induction f as [|f IH]; intros v len Hv Hf; [lia|].
  rewrite pow2_7S in Hv. cbn [VarintLength_loop]. destruct (Z.leb_spec 128 v).
  - rewrite leb128_more by done. rewrite IH; [simpl; f_equal; lia| |].
    + rewrite Z.shiftr_div_pow2 by lia. change (2 ^ 7) with 128.
      split; [lia_div|]. apply Z.div_lt_upper_bound; lia.
    + destruct f; [change (2 ^ _) with 1 in Hv|]; lia.
  - rewrite leb128_last by done. simpl. f_equal. lia.
Qed.

Lemma VarintLength_eq v : 0 <= v < 2 ^ 64 → VarintLength v = Some (length (varint v)).
Proof.
  intros. unfold VarintLength. rewrite VarintLength_loop_eq; [done| |lia].
  change (7 * _) with 70. lia.
Qed.

Lemma length_leb128 f k v :
  0 <= v < 2 ^ (7 * Z.of_nat k) → (0 < k)%nat → (length (leb128 f v) ≤ k)%nat.
Proof.
  revert k v. induction f as [|f IH]; intros k v Hv Hk; [simpl; lia|].
  rewrite leb128_S. case_match; [simpl; lia|].
  destruct k as [|k]; [lia|]. rewrite pow2_7S in Hv. simpl.
  assert (0 < k)%nat by (destruct k; [change (2 ^ _) with 1 in Hv|]; lia).
  specialize (IH k (v / 128)). apply le_n_S, IH; [|lia].
  split; [lia_div|]. apply Z.div_lt_upper_bound; lia.
Qed.

Lemma length_varint32 v : 0 <= v < 2 ^ 32 → (length (varint v) ≤ 5)%nat.
Proof. intros. apply length_leb128; [|lia]. change (7 * _) with 35. lia. Qed.

Lemma length_varint64 v : 0 <= v < 2 ^ 64 → (length (varint v) ≤ 10)%nat.
Proof. intros. apply length_leb128; [|lia]. change (7 * _) with 70. lia. Qed.

Lemma varint_nonempty v : (0 < length (varint v))%nat.
Proof. unfold varint. rewrite leb128_S. case_match; simpl; lia. Qed.

(** Encoding into a local array and appending the written part. *)
Lemma char_array_split n k : (k ≤ n)%nat → char_array n = [] ++ char_array k ++ char_array (n - k).
Proof. intros. unfold char_array. simpl. rewrite <- replicate_add. f_equal. lia. Qed.

Lemma PutVarint32_eq dst v : 0 <= v < 2 ^ 32 → PutVarint32 dst v = Some (dst ++ varint v).
Proof.
  intros H. unfold PutVarint32. pose proof (length_varint32 v H).
  rewrite (char_array_split 5 (length (varint v))) by lia.
  rewrite (EncodeVarint32_app []) by (try done; apply length_replicate).
  simpl. by rewrite take_app_length.
Qed.

Lemma PutVarint64_eq dst v : 0 <= v < 2 ^ 64 → PutVarint64 dst v = Some (dst ++ varint v).
Proof.
  intros H. unfold PutVarint64. pose proof (length_varint64 v H).
  rewrite (char_array_split 10 (length (varint v))) by lia.
  rewrite (EncodeVarint64_app []) by (try done; apply length_replicate).
  simpl. by rewrite take_app_length.
Qed.

(** ** Varints: the decoding loop *)
Section decode_loop.
Context (w last : Z) (Hw : 0 < w)
        (Hlast : ∀ k : nat, 7 * Z.of_nat k < w → 7 * Z.of_nat k <= last).
Let wrap (z : Z) := z mod 2 ^ w.

Lemma wrap_small z : 0 <= z < 2 ^ w → wrap z = z.
Proof. apply Z.mod_small. Qed.

(** Reading an encoding at [length pre] with at least its bytes before
    [limit] gives the value; with fewer, the null pointer. *)
Lemma GetVarint_loop_leb128 f g k pre v post limit result :
  (f ≤ g)%nat → (0 < f)%nat → 0 <= v < 2 ^ (7 * Z.of_nat f) →
  7 * Z.of_nat k < w → 0 <= result < 2 ^ (7 * Z.of_nat k) →
  v * 2 ^ (7 * Z.of_nat k) < 2 ^ w →
  GetVarint_loop wrap last g (pre ++ leb128 f v ++ post) (length pre) limit
    (7 * Z.of_nat k) result
  = Some (if decide (length pre + length (leb128 f v) ≤ limit)%nat
          then Some ((length pre + length (leb128 f v))%nat,
                     result + v * 2 ^ (7 * Z.of_nat k))
          else None).
Proof.
  revert g k pre v result. induction f as [|f IH]; intros g k pre v result Hg Hf Hv Hk Hr Hvw; [lia|].
  destruct g as [|g]; [lia|]. cbn [GetVarint_loop].
  specialize (Hlast k Hk). rewrite (proj2 (Z.leb_le _ _)) by done. simpl.
  pose proof (Z.pow_pos_nonneg 2 (7 * Z.of_nat k) ltac:(lia) ltac:(lia)) as Hpos.
  destruct (Z_lt_dec v 128) as [Hlt|Hge].
  - rewrite leb128_last by done. simpl.
    destruct (Nat.ltb_spec (length pre) limit);
      [rewrite decide_True by lia | by rewrite decide_False by lia].
    unfold load. rewrite list_lookup_middle by done. simpl.
    rewrite u8_byte_of, Z.mod_small, land_128 by lia.
    rewrite (proj2 (Z.ltb_lt _ _)) by done. simpl.
    rewrite Z.shiftl_mul_pow2, wrap_small by lia.
    rewrite lor_mul_add by lia.
    do 3 f_equal; simpl; lia.
  - rewrite pow2_7S in Hv.
    rewrite leb128_S, (proj2 (Z.ltb_ge _ _)) by lia. simpl.
    pose proof (Z.mod_pos_bound v 128 ltac:(lia)).
    pose proof (Z.div_mod v 128 ltac:(lia)) as Hdm.
    destruct (Nat.ltb_spec (length pre) limit) as [Hlim|Hlim];
      [| by rewrite decide_False by lia].
    unfold load. rewrite list_lookup_middle by done. simpl.
    rewrite u8_byte_of, (Z.mod_small (128 + _)), land_128 by lia.
    rewrite (proj2 (Z.ltb_ge _ _)) by lia. simpl.
    rewrite land_127. replace ((128 + v mod 128) mod 128) with (v mod 128)
      by (rewrite <- (Z.mul_1_l 128) at 2; rewrite Z.add_comm, Z.mod_add by lia;
          symmetry; apply Z.mod_mod; lia).
    assert (Hlow : v mod 128 * 2 ^ (7 * Z.of_nat k) <= v * 2 ^ (7 * Z.of_nat k))
      by (apply Z.mul_le_mono_nonneg_r; lia).
    assert (Hnn : 0 <= v mod 128 * 2 ^ (7 * Z.of_nat k)) by (apply Z.mul_nonneg_nonneg; lia).
    rewrite Z.shiftl_mul_pow2, wrap_small by lia.
    rewrite lor_mul_add by lia.
    assert (Hpow : 2 ^ (7 * Z.of_nat (S k)) = 128 * 2 ^ (7 * Z.of_nat k)) by apply pow2_7S.
    assert (Hk' : 7 * Z.of_nat (S k) < w).
    { apply (Z.pow_lt_mono_r_iff 2); [lia|lia|]. rewrite Hpow.
      apply Z.le_lt_trans with (v * 2 ^ (7 * Z.of_nat k)); [|done].
      apply Z.mul_le_mono_nonneg_r; lia. }
    replace (7 * Z.of_nat k + 7) with (7 * Z.of_nat (S k)) by lia.
    specialize (IH g (S k) (pre ++ [byte_of (128 + v mod 128)]) (v / 128)
                   (result + v mod 128 * 2 ^ (7 * Z.of_nat k))).
    rewrite <- app_assoc, length_app in IH. simpl in IH.
    replace (S (length pre)) with (length pre + 1)%nat by lia.
    assert (0 < f)%nat by (destruct f; [change (2 ^ (7 * Z.of_nat 0)) with 1 in Hv|]; lia).
    assert (Hv' : v mod 128 * 2 ^ (7 * Z.of_nat k) + v / 128 * (128 * 2 ^ (7 * Z.of_nat k))
                  = v * 2 ^ (7 * Z.of_nat k)) by (rewrite Hdm at 3; ring).
    assert (Hm : v mod 128 * 2 ^ (7 * Z.of_nat k) <= 127 * 2 ^ (7 * Z.of_nat k))
      by (apply Z.mul_le_mono_nonneg_r; lia).
    rewrite IH; [|lia|done|split; lia_div|done|rewrite Hpow; lia|rewrite Hpow; lia].
    f_equal. case_decide; [rewrite decide_True by lia|by rewrite decide_False by lia].
    do 2 f_equal; [lia|]. rewrite Hpow. lia.
Qed.

(** On any input the loop neither faults nor runs out of fuel, the pointer it
    returns is past [p] and not past [limit], and the value fits the width. *)
Lemma GetVarint_loop_total g m p limit shift result :
  (0 < g)%nat → last < shift + 7 * (Z.of_nat g - 1) → (limit ≤ length m)%nat →
  0 <= shift → 0 <= result < 2 ^ w →
  ∃ r, GetVarint_loop wrap last g m p limit shift result = Some r ∧
       ∀ q v, r = Some (q, v) → (p < q ≤ limit)%nat ∧ (q < p + g)%nat ∧ 0 <= v < 2 ^ w.
Proof.
  revert p shift result. induction g as [|g IH]; intros p shift result Hg Hfuel Hlim Hs Hr; [lia|].
  cbn [GetVarint_loop]. destruct (Z.leb_spec shift last); simpl;
    [|by eexists; split; [done|]].
  destruct (Nat.ltb_spec p limit); simpl; [|by eexists; split; [done|]].
  destruct (lookup_lt_is_Some_2 m p ltac:(lia)) as [b Hb].
  unfold load. rewrite Hb. simpl.
  assert (Hmod : ∀ z, 0 <= wrap z < 2 ^ w) by (intros; apply Z.mod_pos_bound; lia).
  destruct (negb _).
  - destruct (IH (S p) (shift + 7) (Z.lor result (wrap (Z.shiftl (Z.land (u8 b) 127) shift))))
      as (r & -> & Hq); [lia..|auto with ldb|].
    eexists. split; [done|]. intros q v ?. destruct (Hq q v) as (?&?&?); [done|]. lia.
  - eexists. split; [done|]. intros q v [= <- <-].
    split; [lia|]. split; [lia|]. auto with ldb.
Qed.
End decode_loop.

(** ** The decoders on encodings and on arbitrary input *)

Lemma u32_last (k : nat) : 7 * Z.of_nat k < 32 → 7 * Z.of_nat k <= 28.
Proof. lia. Qed.
Lemma u64_last (k : nat) : 7 * Z.of_nat k < 64 → 7 * Z.of_nat k <= 63.
Proof. lia. Qed.

(** What the decoders return on an encoding cut off at [limit]. *)
Definition varint_at (pre : bytes) (v : Z) (limit : nat) : option (nat * Z) :=
  if decide (length pre + length (varint v) ≤ limit)%nat
  then Some ((length pre + length (varint v))%nat, v) else None.

(** Fuel beyond the number of 7-bit groups makes no difference. *)
Lemma leb128_fuel f g v :
  (0 < f)%nat → (f ≤ g)%nat → 0 <= v < 2 ^ (7 * Z.of_nat f) → leb128 g v = leb128 f v.
Proof.
  revert g v. induction f as [|f IH]; intros g v Hf Hg Hv; [lia|].
  destruct g as [|g]; [lia|]. rewrite (leb128_S g), (leb128_S f). case_match; [done|].
  rewrite pow2_7S in Hv. f_equal.
  assert (0 < f)%nat by (destruct f; [change (2 ^ _) with 1 in Hv|]; lia).
  apply IH; [done|lia|]. split; lia_div.
Qed.

Lemma GetVarint32PtrFallback_varint pre v post limit :
  0 <= v < 2 ^ 32 →
  GetVarint32PtrFallback (pre ++ varint v ++ post) (length pre) limit
  = Some (varint_at pre v limit).
Proof.
  intros Hv. unfold varint_at. unfold varint. rewrite (leb128_fuel 5) by (simpl; lia).
  etransitivity; [apply (GetVarint_loop_leb128 32 28 ltac:(lia) u32_last 5 6 0); simpl; lia|].
  simpl. by rewrite Z.mul_1_r.
Qed.

Lemma GetVarint64Ptr_varint pre v post limit :
  0 <= v < 2 ^ 64 →
  GetVarint64Ptr (pre ++ varint v ++ post) (length pre) limit
  = Some (varint_at pre v limit).
Proof.
  intros Hv. unfold varint_at, varint.
  etransitivity; [apply (GetVarint_loop_leb128 64 63 ltac:(lia) u64_last 10 11 0); simpl; lia|].
  simpl. by rewrite Z.mul_1_r.
Qed.

(** The inlined fast path agrees with the loop. *)
Lemma GetVarint32Ptr_fallback m p limit :
  GetVarint32Ptr m p limit = GetVarint32PtrFallback m p limit.
Proof.
  unfold GetVarint32Ptr, GetVarint32PtrFallback. cbn [GetVarint_loop].
  destruct (p <? limit)%nat; [|done]. simpl. destruct (load m p) as [b|]; [|done].
  simpl. destruct (Z.land (u8 b) 128 =? 0); [|done]. simpl.
  rewrite Z.shiftl_0_r, u32_small by (pose proof (u8_range b); lia). done.
Qed.

Lemma GetVarint32Ptr_varint pre v post limit :
  0 <= v < 2 ^ 32 →
  GetVarint32Ptr (pre ++ varint v ++ post) (length pre) limit
  = Some (varint_at pre v limit).
Proof. intros. rewrite GetVarint32Ptr_fallback. by apply GetVarint32PtrFallback_varint. Qed.

Lemma GetVarint32_varint v rest :
  0 <= v < 2 ^ 32 → GetVarint32 (varint v ++ rest) = Some (Some (v, rest)).
Proof.
  intros. unfold GetVarint32.
  rewrite (GetVarint32Ptr_varint [] v rest) by done. unfold varint_at.
  rewrite decide_True by (rewrite length_app; simpl; lia).
  simpl. by rewrite drop_app_length.
Qed.

Lemma GetVarint64_varint v rest :
  0 <= v < 2 ^ 64 → GetVarint64 (varint v ++ rest) = Some (Some (v, rest)).
Proof.
  intros. unfold GetVarint64.
  rewrite (GetVarint64Ptr_varint [] v rest) by done. unfold varint_at.
  rewrite decide_True by (rewrite length_app; simpl; lia).
  simpl. by rewrite drop_app_length.
Qed.

(** A cut-off encoding: reading [n] of its bytes is reading all of them with
    the limit [n], since the loop never looks past its limit. *)
Lemma GetVarint_loop_limit wrap last g m m' p limit shift result :
  (limit ≤ length m)%nat →
  GetVarint_loop wrap last g (m ++ m') p limit shift result
  = GetVarint_loop wrap last g m p limit shift result.
Proof.
  intros Hl. revert p shift result. induction g as [|g IH]; intros; [done|].
  cbn [GetVarint_loop]. destruct (Z.leb_spec shift last), (Nat.ltb_spec p limit); simpl; try done.
  unfold load. rewrite lookup_app_l by lia. destruct (m !! p); [|done]. simpl.
  case_match; [apply IH|done].
Qed.

Lemma GetVarint32_truncated v n :
  0 <= v < 2 ^ 32 → (n < length (varint v))%nat → GetVarint32 (take n (varint v)) = Some None.
Proof.
  intros Hv Hn. unfold GetVarint32. rewrite GetVarint32Ptr_fallback.
  rewrite length_take, Nat.min_l by lia. unfold GetVarint32PtrFallback.
  rewrite <- (GetVarint_loop_limit _ _ _ _ (drop n (varint v)))
    by (rewrite length_take; lia).
  rewrite take_drop. pose proof (GetVarint32PtrFallback_varint [] v [] n Hv) as E.
  rewrite app_nil_r in E. unfold GetVarint32PtrFallback in E. cbn [length app] in E.
  rewrite E. unfold varint_at. by rewrite decide_False by (simpl; lia).
Qed.

Lemma GetVarint64_truncated v n :
  0 <= v < 2 ^ 64 → (n < length (varint v))%nat → GetVarint64 (take n (varint v)) = Some None.
Proof.
  intros Hv Hn. unfold GetVarint64.
  rewrite length_take, Nat.min_l by lia. unfold GetVarint64Ptr.
  rewrite <- (GetVarint_loop_limit _ _ _ _ (drop n (varint v)))
    by (rewrite length_take; lia).
  rewrite take_drop. pose proof (GetVarint64Ptr_varint [] v [] n Hv) as E.
  rewrite app_nil_r in E. unfold GetVarint64Ptr in E. cbn [length app] in E.
  rewrite E. unfold varint_at. by rewrite decide_False by (simpl; lia).
Qed.

Lemma GetLengthPrefixedSlice_eq value rest :
  Z.of_nat (length value) < 2 ^ 32 →
  GetLengthPrefixedSlice (varint (Z.of_nat (length value)) ++ value ++ rest)
  = Some (rest, Some value).
Proof.
  intros H. unfold GetLengthPrefixedSlice. rewrite GetVarint32_varint by lia. simpl.
  rewrite (proj2 (Z.leb_le _ _)) by (rewrite length_app; lia).
  by rewrite Nat2Z.id, drop_app_length, take_app_length.
Qed.

(** ** Properties *)

(** C27: the 32-bit varint round trip.  [PutVarint32] appends an encoding of
    [VarintLength v] (at most five) bytes; [GetVarint32] on that encoding
    followed by anything returns the value and exactly the rest, and on any
    strict prefix of it reports failure; none of the calls reads or writes
    outside its buffer. *)
Theorem varint32_roundtrip dst v rest :
  0 <= v < 2 ^ 32 →
  ∃ enc, PutVarint32 dst v = Some (dst ++ enc)
    ∧ VarintLength v = Some (length enc) ∧ (length enc ≤ 5)%nat
    ∧ GetVarint32 (enc ++ rest) = Some (Some (v, rest))
    ∧ ∀ n, (n < length enc)%nat → GetVarint32 (take n enc) = Some None.
Proof.
  intros Hv. exists (varint v). rewrite PutVarint32_eq, VarintLength_eq by lia.
  eauto 10 using length_varint32, GetVarint32_varint, GetVarint32_truncated.
Qed.

(** The 64-bit varint round trip, with the same guarantees and at most ten
    bytes. *)
Theorem varint64_roundtrip dst v rest :
  0 <= v < 2 ^ 64 →
  ∃ enc, PutVarint64 dst v = Some (dst ++ enc)
    ∧ VarintLength v = Some (length enc) ∧ (length enc ≤ 10)%nat
    ∧ GetVarint64 (enc ++ rest) = Some (Some (v, rest))
    ∧ ∀ n, (n < length enc)%nat → GetVarint64 (take n enc) = Some None.
Proof.
  intros Hv. exists (varint v). rewrite PutVarint64_eq, VarintLength_eq by lia.
  eauto 10 using length_varint64, GetVarint64_varint, GetVarint64_truncated.
Qed.

(** C28: on arbitrary memory the 32-bit decoder terminates, never reads at or
    past [limit], and what it returns is null or a pointer at most five bytes
    on, not past [limit], with a value that fits 32 bits. *)
Theorem GetVarint32Ptr_safe m p limit :
  (limit ≤ length m)%nat →
  ∃ r, GetVarint32Ptr m p limit = Some r ∧
    (∀ m', GetVarint32Ptr (m ++ m') p limit = Some r) ∧
    ∀ q v, r = Some (q, v) → (p < q ≤ limit)%nat ∧ (q ≤ p + 5)%nat ∧ 0 <= v < 2 ^ 32.
Proof.
  intros Hl. setoid_rewrite GetVarint32Ptr_fallback. unfold GetVarint32PtrFallback.
  destruct (GetVarint_loop_total 32 28 ltac:(lia) 6 m p limit 0 0) as (r & E & Hr);
    [lia..|].
  exists r. split; [exact E|]. split; [intros; by rewrite GetVarint_loop_limit|].
  intros q v ->. destruct (Hr q v eq_refl) as (?&?&?). lia.
Qed.

(** Length-prefixed slices round trip.  Any slice shorter than 4 GB that
    is appended with [PutLengthPrefixedSlice] is returned by
    [GetLengthPrefixedSlice], which leaves exactly what follows it. *)
Theorem length_prefixed_roundtrip dst value rest :
  Z.of_nat (length value) < 2 ^ 32 →
  ∃ enc, PutLengthPrefixedSlice dst value = Some (dst ++ enc)
    ∧ GetLengthPrefixedSlice (enc ++ rest) = Some (rest, Some value).
Proof.
  intros H. unfold PutLengthPrefixedSlice. rewrite u32_small by lia.
  rewrite PutVarint32_eq by lia. simpl.
  eexists. rewrite <- app_assoc. split; [done|].
  rewrite <- app_assoc. by apply GetLengthPrefixedSlice_eq.
Qed.

(** Fixed-width integers round trip through a buffer: encoding at an
    offset overwrites exactly the four (eight) bytes there, decoding reads the
    value back modulo the width, and encoding what was decoded restores the
    bytes. *)
Theorem fixed_roundtrip pre post old4 old8 v :
  length old4 = 4%nat → length old8 = 8%nat →
  (∃ e, EncodeFixed32 (pre ++ old4 ++ post) (length pre) v = Some (pre ++ e ++ post)
        ∧ length e = 4%nat
        ∧ DecodeFixed32 (pre ++ e ++ post) (length pre) = Some (u32 v))
  ∧ (∃ e, EncodeFixed64 (pre ++ old8 ++ post) (length pre) v = Some (pre ++ e ++ post)
        ∧ length e = 8%nat
        ∧ DecodeFixed64 (pre ++ e ++ post) (length pre) = Some (u64 v))
  ∧ (∃ n, DecodeFixed64 (pre ++ old8 ++ post) (length pre) = Some n
        ∧ EncodeFixed64 (pre ++ old8 ++ post) (length pre) n = Some (pre ++ old8 ++ post)).
Proof.
  intros H4 H8. split_and!.
  - exists (le_bytes 4 v). rewrite EncodeFixed32_app, DecodeFixed32_app by done.
    by rewrite le_value_le_bytes.
  - exists (le_bytes 8 v). rewrite EncodeFixed64_app, DecodeFixed64_app by done.
    by rewrite le_value_le_bytes.
  - exists (le_value old8). rewrite DecodeFixed64_app, EncodeFixed64_app by done.
    rewrite <- H8, le_bytes_le_value. done.
Qed.

Lemma varint32_roundtrip_witness :
  ∃ enc, PutVarint32 [x07] 300 = Some ([x07] ++ enc)
    ∧ VarintLength 300 = Some (length enc) ∧ (length enc ≤ 5)%nat
    ∧ GetVarint32 (enc ++ [x01]) = Some (Some (300, [x01]))
    ∧ ∀ n, (n < length enc)%nat → GetVarint32 (take n enc) = Some None.
Proof. apply (varint32_roundtrip [x07] 300 [x01]). lia. Defined.

Lemma varint64_roundtrip_witness :
  ∃ enc, PutVarint64 [] (2 ^ 63 + 100) = Some ([] ++ enc)
    ∧ VarintLength (2 ^ 63 + 100) = Some (length enc) ∧ (length enc ≤ 10)%nat
    ∧ GetVarint64 (enc ++ [x01]) = Some (Some (2 ^ 63 + 100, [x01]))
    ∧ ∀ n, (n < length enc)%nat → GetVarint64 (take n enc) = Some None.
Proof. apply (varint64_roundtrip [] (2 ^ 63 + 100) [x01]). lia. Defined.

Lemma GetVarint32Ptr_safe_witness :
  ∃ r, GetVarint32Ptr [x81; x82; x83; x84; x85; x11] 0 6 = Some r ∧
    (∀ m', GetVarint32Ptr ([x81; x82; x83; x84; x85; x11] ++ m') 0 6 = Some r) ∧
    ∀ q v, r = Some (q, v) → (0 < q ≤ 6)%nat ∧ (q ≤ 0 + 5)%nat ∧ 0 <= v < 2 ^ 32.
Proof. apply (GetVarint32Ptr_safe [x81; x82; x83; x84; x85; x11] 0 6). simpl. lia. Defined.

Lemma length_prefixed_roundtrip_witness :
  ∃ enc, PutLengthPrefixedSlice [] [x61; x62] = Some ([] ++ enc)
    ∧ GetLengthPrefixedSlice (enc ++ [x00]) = Some ([x00], Some [x61; x62]).
Proof. apply (length_prefixed_roundtrip [] [x61; x62] [x00]). simpl. lia. Defined.

Lemma fixed_roundtrip_witness :
  let pre := [x01] in let post := [x02] in
  (∃ e, EncodeFixed32 (pre ++ char_array 4 ++ post) (length pre) (2 ^ 32 + 5) = Some (pre ++ e ++ post)
        ∧ length e = 4%nat
        ∧ DecodeFixed32 (pre ++ e ++ post) (length pre) = Some (u32 (2 ^ 32 + 5)))
  ∧ (∃ e, EncodeFixed64 (pre ++ char_array 8 ++ post) (length pre) (2 ^ 32 + 5) = Some (pre ++ e ++ post)
        ∧ length e = 8%nat
        ∧ DecodeFixed64 (pre ++ e ++ post) (length pre) = Some (u64 (2 ^ 32 + 5)))
  ∧ (∃ n, DecodeFixed64 (pre ++ char_array 8 ++ post) (length pre) = Some n
        ∧ EncodeFixed64 (pre ++ char_array 8 ++ post) (length pre) n = Some (pre ++ char_array 8 ++ post)).
Proof. intros pre post. apply (fixed_roundtrip pre post); reflexivity. Defined.
