(* ===== verification/Comparator.v ===== *)
(** Comparators: include/comparator.h and util/comparator.cc.

    [Comparator] is the virtual interface as a record of operations; the
    documented contract is the class [ComparatorLaws], against which the
    clients (internal keys, the memtable) are proved.  [BytewiseComparator] is
    the built-in implementation.  Because it calls [Slice::compare], which
    never returns 0, it does not meet the contract
    ([Bytewise_not_lawful]); [LexComparator] is the same comparator with the
    three-way order the contract asks for, and does ([LexComparator_laws]). *)
From S2P Require Import Prelude Slice.
Local Open Scope Z_scope.

(** [Compare] and the two shortening operations may fault (an implementation
    may assert on its arguments); the strings they update are returned. *)
Record Comparator := {
  Name : bytes;
  Compare : bytes → bytes → option Z;
  FindShortestSeparator : bytes → bytes → option bytes;
  FindShortSuccessor : bytes → option bytes
}.

(** ** The built-in bytewise comparator *)

(** The [while] loop: the length of the common prefix. *)
Fixpoint diff_index (start limit : bytes) : nat :=
  match start, limit with
  | x :: start, y :: limit => if decide (x = y) then S (diff_index start limit) else O
  | _, _ => O
  end.

Definition Bytewise_Compare (a b : bytes) : option Z := Some (Slice_compare a b).

Definition Bytewise_FindShortestSeparator (start limit : bytes) : option bytes :=
  let min_length := (length start `min` length limit)%nat in
  let diff := diff_index start limit in
  if (min_length <=? diff)%nat then Some start
  else
    s ← start !! diff; l ← limit !! diff;
    let diff_byte := u8 s in
    if (diff_byte <? 255) && (diff_byte + 1 <? u8 l) then
      let start' := take diff start ++ [byte_of (diff_byte + 1)] in
      ASSERT (Slice_compare start' limit <? 0); Some start'
    else Some start.

(** The [for] loop; [pre] holds the bytes already passed. *)
Fixpoint successor_loop (pre key : bytes) : bytes :=
  match key with
  | [] => pre
  | b :: key => if u8 b =? 255 then successor_loop (pre ++ [b]) key
                else pre ++ [byte_of (u8 b + 1)]
  end.

Definition Bytewise_FindShortSuccessor (key : bytes) : option bytes :=
  Some (successor_loop [] key).

Definition BytewiseComparator : Comparator := {|
  Name := str "leveldb.BytewiseComparator";
  Compare := Bytewise_Compare;
  FindShortestSeparator := Bytewise_FindShortestSeparator;
  FindShortSuccessor := Bytewise_FindShortSuccessor
|}.

(** ** The contract *)

Definition cmp_lt (c : Comparator) (a b : bytes) : Prop :=
  ∃ r, Compare c a b = Some r ∧ r < 0.
Definition cmp_le (c : Comparator) (a b : bytes) : Prop :=
  ∃ r, Compare c a b = Some r ∧ r <= 0.
Definition cmp_eqv (c : Comparator) (a b : bytes) : Prop := Compare c a b = Some 0.

(** Three-way comparison on the keys satisfying [ok]: total, the sign of the
    swapped comparison is the opposite one (so "== 0" is an equivalence), and
    transitive. *)
Class OrderLaws (c : Comparator) (ok : bytes → Prop) : Prop := {
  cmp_total : ∀ a b, ok a → ok b → is_Some (Compare c a b);
  cmp_swap : ∀ a b r s, ok a → ok b → Compare c a b = Some r → Compare c b a = Some s →
             Z.sgn s = - Z.sgn r;
  cmp_trans : ∀ x y z, ok x → ok y → ok z → cmp_le c x y → cmp_le c y z → cmp_le c x z
}.

(** What [InternalKeyComparator] needs of the two shortening operations: if
    [start < limit] the separator is in [start, limit), as comparator.h says, and
    otherwise [start]; and the successor is not below the key.  The comment on
    [FindShortSuccessor] promises a larger string ([larger_successor]), which no
    implementation that only shortens can keep on every key: on which keys the
    built-in one does is part of [Bytewise_shortening]. *)
Class ShorteningLaws (c : Comparator) (ok : bytes → Prop) : Prop := {
  sep_between : ∀ start limit, ok start → ok limit → cmp_lt c start limit →
    ∃ r, FindShortestSeparator c start limit = Some r ∧ ok r
         ∧ cmp_le c start r ∧ cmp_lt c r limit;
  sep_skip : ∀ start limit, ok start → ok limit → ¬ cmp_lt c start limit →
    FindShortestSeparator c start limit = Some start;
  succ_above : ∀ key, ok key →
    ∃ r, FindShortSuccessor c key = Some r ∧ ok r ∧ cmp_le c key r
}.

(** The comment on [FindShortSuccessor] in comparator.h: a short string larger
    than the key. *)
Definition larger_successor (c : Comparator) (key : bytes) : Prop :=
  ∃ r, FindShortSuccessor c key = Some r ∧ cmp_lt c key r.

Class ComparatorLaws (c : Comparator) (ok : bytes → Prop) : Prop := {
  laws_order :: OrderLaws c ok;
  laws_short :: ShorteningLaws c ok
}.

(** The lawful three-way lexicographic comparison. *)
Definition lex_three_way (a b : bytes) : Z :=
  match lex_compare a b with Lt => -1 | Eq => 0 | Gt => 1 end.

Definition LexComparator : Comparator := {|
  Name := Name BytewiseComparator;
  Compare := λ a b, Some (lex_three_way a b);
  FindShortestSeparator := Bytewise_FindShortestSeparator;
  FindShortSuccessor := Bytewise_FindShortSuccessor
|}.

Definition any_key (k : bytes) : Prop := True.

(** ** Consequences of the order laws *)
Section order.
Context (c : Comparator) (ok : bytes → Prop) `{!OrderLaws c ok}.

Lemma cmp_refl a : ok a → cmp_eqv c a a.
Proof.
  intros Ha. destruct (cmp_total a a Ha Ha) as [r Hr]. unfold cmp_eqv.
  pose proof (cmp_swap a a r r Ha Ha Hr Hr). rewrite Hr. f_equal. lia.
Qed.

Lemma cmp_not_lt a b : ok a → ok b → ¬ cmp_lt c a b ↔ cmp_le c b a.
Proof.
  intros Ha Hb. destruct (cmp_total a b Ha Hb) as [r Hr], (cmp_total b a Hb Ha) as [s Hs].
  pose proof (cmp_swap a b r s Ha Hb Hr Hs). unfold cmp_lt, cmp_le.
  setoid_rewrite Hr. setoid_rewrite Hs. split.
  - intros Hn. exists s. split; [done|]. destruct (Z_lt_dec r 0); [|lia].
    destruct Hn. eauto.
  - intros (? & [= <-] & ?) (? & [= <-] & ?). lia.
Qed.

Lemma cmp_lt_le a b : cmp_lt c a b → cmp_le c a b.
Proof. intros (r & ? & ?). exists r. split; [done|lia]. Qed.

Lemma cmp_eqv_le a b : cmp_eqv c a b → cmp_le c a b.
Proof. intros H. exists 0. split; [done|lia]. Qed.

Lemma cmp_eqv_sym a b : ok a → ok b → cmp_eqv c a b → cmp_eqv c b a.
Proof.
  unfold cmp_eqv. intros Ha Hb H. destruct (cmp_total b a Hb Ha) as [s Hs].
  pose proof (cmp_swap a b 0 s Ha Hb H Hs). rewrite Hs. f_equal. lia.
Qed.

Lemma cmp_le_lt_trans x y z :
  ok x → ok y → ok z → cmp_le c x y → cmp_lt c y z → cmp_lt c x z.
Proof.
  intros Hx Hy Hz Hxy Hyz. destruct (cmp_total x z Hx Hz) as [r Hr].
  destruct (Z_lt_dec r 0) as [|Hge]; [by exists r|]. exfalso.
  assert (cmp_le c z x) as Hzx.
  { apply cmp_not_lt; [done..|]. intros (r' & Hr' & ?). simplify_eq. lia. }
  pose proof (cmp_trans z x y Hz Hx Hy Hzx Hxy) as Hzy.
  by apply (cmp_not_lt y z) in Hzy.
Qed.

Lemma cmp_lt_le_trans x y z :
  ok x → ok y → ok z → cmp_lt c x y → cmp_le c y z → cmp_lt c x z.
Proof.
  intros Hx Hy Hz Hxy Hyz. destruct (cmp_total x z Hx Hz) as [r Hr].
  destruct (Z_lt_dec r 0) as [|Hge]; [by exists r|]. exfalso.
  assert (cmp_le c z x) as Hzx.
  { apply cmp_not_lt; [done..|]. intros (r' & Hr' & ?). simplify_eq. lia. }
  pose proof (cmp_trans y z x Hy Hz Hx Hyz Hzx) as Hyx.
  by apply (cmp_not_lt x y) in Hyx.
Qed.

Lemma cmp_lt_trans x y z :
  ok x → ok y → ok z → cmp_lt c x y → cmp_lt c y z → cmp_lt c x z.
Proof. eauto using cmp_le_lt_trans, cmp_lt_le. Qed.

Lemma cmp_lt_irrefl x : ok x → ¬ cmp_lt c x x.
Proof. intros Hx (r & Hr & ?). pose proof (cmp_refl x Hx) as E. unfold cmp_eqv in E. simplify_eq. lia. Qed.

Lemma cmp_eqv_iff a b : ok a → ok b → cmp_eqv c a b ↔ cmp_le c a b ∧ cmp_le c b a.
Proof.
  intros Ha Hb. split; [eauto 6 using cmp_eqv_le, cmp_eqv_sym|].
  intros [(r & Hr & Hr0) (s & Hs & Hs0)]. pose proof (cmp_swap a b r s Ha Hb Hr Hs).
  unfold cmp_eqv. rewrite Hr. f_equal. lia.
Qed.

Lemma cmp_eqv_trans x y z :
  ok x → ok y → ok z → cmp_eqv c x y → cmp_eqv c y z → cmp_eqv c x z.
Proof.
  intros Hx Hy Hz. rewrite !cmp_eqv_iff by done. intros [? ?] [? ?].
  split; [by apply (cmp_trans x y z)|by apply (cmp_trans z y x)].
Qed.

(** Every pair of keys is ordered one way, the other, or equivalent. *)
Lemma cmp_cases a b : ok a → ok b →
  (∃ r, Compare c a b = Some r ∧ r < 0 ∧ cmp_lt c a b)
  ∨ (Compare c a b = Some 0 ∧ cmp_eqv c a b)
  ∨ (∃ r, Compare c a b = Some r ∧ 0 < r ∧ cmp_lt c b a).
Proof.
  intros Ha Hb. destruct (cmp_total a b Ha Hb) as [r Hr], (cmp_total b a Hb Ha) as [s Hs].
  pose proof (cmp_swap a b r s Ha Hb Hr Hs).
  destruct (Z.lt_trichotomy r 0) as [?|[->|?]].
  - left. exists r. split_and!; [done..|]. by exists r.
  - right. left. done.
  - right. right. exists r. split_and!; [done..|]. exists s. split; [done|lia].
Qed.

Lemma cmp_eqv_not_lt a b : ok a → ok b → cmp_eqv c a b → ¬ cmp_lt c a b.
Proof. intros Ha Hb H. apply cmp_not_lt; auto using cmp_eqv_le, cmp_eqv_sym. Qed.
End order.

(** ** The bytewise operations in the lexicographic order *)

Lemma common_prefix (start limit : bytes) :
  ∃ p s l, start = p ++ s ∧ limit = p ++ l
    ∧ match s, l with x :: _, y :: _ => x ≠ y | _, _ => True end.
Proof.
  revert limit. induction start as [|x start IH]; intros [|y limit].
  1-3: eexists [], _, _; by rewrite ?app_nil_l.
  destruct (decide (x = y)) as [<-|Hxy].
  - destruct (IH limit) as (p & s & l & -> & -> & H). by exists (x :: p), s, l.
  - by exists [], (x :: start), (y :: limit).
Qed.

(** At the first difference the byte is incremented if that stays below the byte
    of the limit, and the rest cut off. *)
Lemma Bytewise_separator_diff p x y s l :
  x ≠ y →
  Bytewise_FindShortestSeparator (p ++ x :: s) (p ++ y :: l)
  = Some (if u8 x + 1 <? u8 y then p ++ [byte_of (u8 x + 1)] else p ++ x :: s).
Proof.
  intros Hne. unfold Bytewise_FindShortestSeparator.
  assert (diff_index (p ++ x :: s) (p ++ y :: l) = length p) as ->.
  { induction p as [|z p IH]; cbn; [by rewrite decide_False|]. by rewrite decide_True, IH. }
  rewrite (proj2 (Nat.leb_gt _ _)) by (rewrite !length_app; cbn; lia).
  rewrite !list_lookup_middle by done. cbn [mbind option_bind]. byte_ranges.
  destruct (Z.ltb_spec (u8 x + 1) (u8 y)); rewrite ?andb_false_r; [|done].
  rewrite (proj2 (Z.ltb_lt (u8 x) 255)) by lia. cbn [andb]. rewrite take_app_length.
  rewrite (proj2 (Z.ltb_lt _ _)); [done|]. apply Slice_compare_lt.
  unfold lex_lt. rewrite lex_app_l. apply lex_cons_lt. rewrite u8_byte_of, Z.mod_small; lia.
Qed.

Lemma Bytewise_separator_prefix start limit :
  start `prefix_of` limit ∨ limit `prefix_of` start →
  Bytewise_FindShortestSeparator start limit = Some start.
Proof.
  assert (Hd : ∀ a b : bytes, diff_index a (a ++ b) = length a ∧ diff_index (a ++ b) a = length a).
  { induction a as [|x a IH]; intros b; [by destruct b|]. cbn.
    rewrite !decide_True by done. by destruct (IH b) as [-> ->]. }
  intros [[k ->]|[k ->]]; unfold Bytewise_FindShortestSeparator;
    [rewrite (proj1 (Hd start k))|rewrite (proj2 (Hd limit k))];
    by rewrite (proj2 (Nat.leb_le _ _)) by (rewrite length_app; lia).
Qed.

(** The two outcomes of [FindShortestSeparator]: the common prefix with its
    next byte incremented, strictly between, or no change. *)
Lemma Bytewise_separator_cases start limit :
  (∃ p x y s l, start = p ++ x :: s ∧ limit = p ++ y :: l ∧ u8 x + 1 < u8 y
     ∧ Bytewise_FindShortestSeparator start limit = Some (p ++ [byte_of (u8 x + 1)]))
  ∨ Bytewise_FindShortestSeparator start limit = Some start.
Proof.
  destruct (common_prefix start limit) as (p & s & l & -> & -> & Hne).
  destruct s as [|x s], l as [|y l];
    [right; apply Bytewise_separator_prefix; rewrite ?app_nil_r;
       first [by left|by left; apply prefix_app_r|by right; apply prefix_app_r]..|].
  rewrite Bytewise_separator_diff by done.
  destruct (Z.ltb_spec (u8 x + 1) (u8 y)); [left|by right]. by exists p, x, y, s, l.
Qed.

Lemma successor_loop_eq pre key :
  successor_loop pre key = pre ++ successor_loop [] key.
Proof.
  revert pre. induction key as [|b key IH]; intros pre; simpl; [by rewrite app_nil_r|].
  case_match; [|done]. rewrite IH, (IH [b]), <- app_assoc. done.
Qed.

Lemma successor_loop_le key : lex_le key (successor_loop [] key).
Proof.
  induction key as [|b key IH]; [done|]. simpl. byte_ranges. destruct (Z.eqb_spec (u8 b) 255).
  - rewrite successor_loop_eq. unfold lex_le. simpl. by rewrite Z.compare_refl.
  - apply lex_le_lteq. left. apply lex_cons_lt. rewrite u8_byte_of, Z.mod_small; lia.
Qed.

(** The first byte that is not 0xff is incremented, and the rest cut off. *)
Lemma successor_loop_ff n b rest :
  u8 b ≠ 255 → successor_loop [] (replicate n xff ++ b :: rest) = replicate n xff ++ [byte_of (u8 b + 1)].
Proof.
  intros Hb. induction n as [|n IH]; cbn; [by rewrite (proj2 (Z.eqb_neq _ _))|].
  change (u8 xff =? 255) with true. cbn iota. by rewrite successor_loop_eq, IH.
Qed.

Lemma successor_loop_all_ff n : successor_loop [] (replicate n xff) = replicate n xff.
Proof.
  induction n as [|n IH]; [done|]. cbn. change (u8 xff =? 255) with true. cbn iota.
  by rewrite successor_loop_eq, IH.
Qed.

(** ** How short a separator or a successor can be *)

Lemma between_length p x y s l t :
  lex_le (p ++ x :: s) t → lex_lt t (p ++ y :: l) → (length p < length t)%nat.
Proof.
  unfold lex_le, lex_lt. revert t. induction p as [|c p IH]; intros [|z t]; cbn; try done; [lia|].
  intros Hle Hlt. assert (length p < length t)%nat; [|lia].
  destruct (Z.compare_spec (u8 c) (u8 z)) as [E|E|E], (Z.compare_spec (u8 z) (u8 c)) as [E'|E'|E'];
    try done; try lia. by apply IH.
Qed.

Lemma above_ff_length n rest t : lex_lt (replicate n xff ++ rest) t → (n < length t)%nat.
Proof.
  unfold lex_lt. revert t. induction n as [|n IH]; intros [|z t]; [by destruct rest|cbn; lia|done|].
  cbn [replicate app lex_compare length]. byte_ranges. change (u8 xff) with 255. intros Hlt.
  destruct (Z.compare_spec 255 (u8 z)); [apply IH in Hlt; lia|lia|done].
Qed.

Lemma LexComparator_lt a b : cmp_lt LexComparator a b ↔ lex_lt a b.
Proof.
  unfold cmp_lt, lex_lt. simpl. unfold lex_three_way. split.
  - intros (r & [= <-] & H). by destruct (lex_compare a b).
  - intros ->. by exists (-1).
Qed.

Lemma LexComparator_le a b : cmp_le LexComparator a b ↔ lex_le a b.
Proof.
  unfold cmp_le, lex_le. simpl. unfold lex_three_way. split.
  - intros (r & [= <-] & H). by destruct (lex_compare a b).
  - intros H. eexists. split; [done|]. by destruct (lex_compare a b).
Qed.

#[export] Instance LexComparator_order : OrderLaws LexComparator any_key.
Proof.
  split.
  - intros; simpl; eauto.
  - intros a b r s _ _ [= <-] [= <-]. unfold lex_three_way.
    rewrite (lex_antisym a b). by destruct (lex_compare a b).
  - intros x y z _ _ _. rewrite !LexComparator_le, !lex_le_lteq.
    intros [Hxy| ->] [Hyz| ->]; eauto using lex_lt_trans.
Qed.

(** Shortening depends only on "<", on which the two comparators agree. *)
Lemma Bytewise_lt a b : cmp_lt BytewiseComparator a b ↔ lex_lt a b.
Proof.
  unfold cmp_lt. simpl. unfold Bytewise_Compare. rewrite <- Slice_compare_lt. split; [by intros (r & [= <-] & H)|eauto].
Qed.

Lemma Bytewise_separator_correct start limit :
  lex_lt start limit →
  ∃ r, Bytewise_FindShortestSeparator start limit = Some r
       ∧ lex_le start r ∧ lex_lt r limit ∧ (length r ≤ length start)%nat.
Proof.
  intros Hlt.
  destruct (Bytewise_separator_cases start limit)
    as [(p & x & y & s & l & Hs & Hl & Hxy & E)|E]; rewrite E; eexists; split; [done| |done|].
  - byte_ranges. subst. split_and!.
    + apply lex_le_lteq. left. unfold lex_lt. rewrite lex_app_l. apply lex_cons_lt.
      rewrite u8_byte_of, Z.mod_small; lia.
    + unfold lex_lt. rewrite lex_app_l. apply lex_cons_lt.
      rewrite u8_byte_of, Z.mod_small; lia.
    + rewrite !length_app. simpl. lia.
  - split_and!; [apply lex_le_lteq; auto|done|lia].
Qed.

Lemma Bytewise_separator_skip start limit :
  ¬ lex_lt start limit → Bytewise_FindShortestSeparator start limit = Some start.
Proof.
  intros Hn. destruct (Bytewise_separator_cases start limit)
    as [(p & x & y & s & l & -> & -> & Hxy & _)|E]; [|done].
  destruct Hn. unfold lex_lt. rewrite lex_app_l. apply lex_cons_lt. lia.
Qed.

#[export] Instance LexComparator_short : ShorteningLaws LexComparator any_key.
Proof.
  split.
  - intros start limit _ _ H%LexComparator_lt.
    destruct (Bytewise_separator_correct start limit H) as (r & ? & ? & ? & _).
    exists r. by rewrite LexComparator_le, LexComparator_lt.
  - intros start limit _ _ H. apply Bytewise_separator_skip. by rewrite <- LexComparator_lt.
  - intros key _. eexists. split; [done|]. split; [done|].
    rewrite LexComparator_le. apply successor_loop_le.
Qed.

(** With a three-way order the same comparator meets the whole contract. *)
#[export] Instance LexComparator_laws : ComparatorLaws LexComparator any_key.
Proof. split; apply _. Qed.

(** ** Properties *)

(** C29: [BytewiseComparator] shortens as far as it can, in the byte order.
    [FindShortestSeparator] never trips its assertion and returns a string in
    [start, limit), no longer than [start], if [start < limit], and [start]
    otherwise.  Where the two first differ by more than one, the result is that
    byte incremented and nothing after it: strictly above [start], and as short as
    any string in [start, limit); where they differ by one, or one is a prefix of
    the other, [start] is unchanged.  [FindShortSuccessor] increments the first
    byte that is not 0xff and cuts off the rest: the result is strictly larger than
    the key, and as short as any string that is.  A key of 0xff bytes alone, the
    empty one included, is left unchanged, so it is not given the larger string the
    comment promises; every larger string is longer than such a key. *)
Theorem Bytewise_shortening start limit key :
  (lex_lt start limit →
   ∃ r, FindShortestSeparator BytewiseComparator start limit = Some r
        ∧ lex_le start r ∧ lex_lt r limit ∧ (length r ≤ length start)%nat)
  ∧ (¬ lex_lt start limit ∨ start `prefix_of` limit →
     FindShortestSeparator BytewiseComparator start limit = Some start)
  ∧ (∀ p x y s l, start = p ++ x :: s → limit = p ++ y :: l → u8 x < u8 y →
     ∃ r, FindShortestSeparator BytewiseComparator start limit = Some r
          ∧ if u8 x + 1 <? u8 y
            then r = p ++ [byte_of (u8 x + 1)] ∧ lex_lt start r
                 ∧ ∀ t, lex_le start t → lex_lt t limit → (length r ≤ length t)%nat
            else r = start)
  ∧ (∀ n b rest, key = replicate n xff ++ b :: rest → u8 b ≠ 255 →
     ∃ r, FindShortSuccessor BytewiseComparator key = Some r
          ∧ r = replicate n xff ++ [byte_of (u8 b + 1)] ∧ larger_successor BytewiseComparator key
          ∧ ∀ t, lex_lt key t → (length r ≤ length t)%nat)
  ∧ (∀ n, key = replicate n xff →
     FindShortSuccessor BytewiseComparator key = Some key ∧ ¬ larger_successor BytewiseComparator key
     ∧ ∀ t, lex_lt key t → (length key < length t)%nat).
Proof.
  split; [apply Bytewise_separator_correct|]. split_and!.
  - intros [?|?]; [by apply Bytewise_separator_skip|by apply Bytewise_separator_prefix; left].
  - intros p x y s l -> -> Hxy. eexists. split; [by apply Bytewise_separator_diff; intros ->; lia|].
    byte_ranges. destruct (Z.ltb_spec (u8 x + 1) (u8 y)); [|done]. split_and!; [done| |].
    + unfold lex_lt. rewrite lex_app_l. apply lex_cons_lt. rewrite u8_byte_of, Z.mod_small; lia.
    + intros t Hle Hlt. rewrite length_app. cbn. pose proof (between_length _ _ _ _ _ _ Hle Hlt). lia.
  - intros n b rest -> Hb. byte_ranges. eexists. split; [done|]. rewrite successor_loop_ff by done.
    split_and!; [done| |].
    + eexists. split; [done|]. rewrite successor_loop_ff by done. apply Bytewise_lt.
      unfold lex_lt. rewrite lex_app_l. apply lex_cons_lt. rewrite u8_byte_of, Z.mod_small; lia.
    + intros t Ht%above_ff_length. rewrite length_app, length_replicate. cbn. lia.
  - intros n ->.
    assert (E : FindShortSuccessor BytewiseComparator (replicate n xff) = Some (replicate n xff)).
    { cbn. unfold Bytewise_FindShortSuccessor. by rewrite successor_loop_all_ff. }
    split_and!; [done| |].
    + intros (r & E' & Hlt%Bytewise_lt). rewrite E in E'. simplify_eq. by apply lex_lt_irrefl in Hlt.
    + intros t. rewrite <- (app_nil_r (replicate n xff)) at 1. rewrite length_replicate.
      apply above_ff_length.
Qed.

(** The built-in comparator breaks the documented three-way contract: equal
    keys compare as +1, so no set of keys with at least one key satisfies the
    order laws; on distinct keys it agrees with the lawful comparator. *)
Theorem Bytewise_not_lawful (ok : bytes → Prop) k :
  ok k → ¬ OrderLaws BytewiseComparator ok
  ∧ ∀ a b, a ≠ b → ∃ r s, Compare BytewiseComparator a b = Some r
      ∧ Compare LexComparator a b = Some s ∧ Z.sgn r = Z.sgn s.
Proof.
  intros Hk. split.
  - intros L. pose proof (cmp_swap k k (Slice_compare k k) (Slice_compare k k) Hk Hk eq_refl eq_refl).
    pose proof (Slice_compare_spec k k) as H'. rewrite lex_refl in H'. lia.
  - intros a b Hab. do 2 eexists. split; [done|]. split; [done|].
    pose proof (Slice_compare_spec a b) as H. unfold lex_three_way.
    destruct (lex_compare a b) eqn:E; [by apply lex_eq in E|lia|lia].
Qed.

Lemma Bytewise_not_lawful_witness :
  any_key [x61] ∧ (¬ OrderLaws BytewiseComparator any_key
  ∧ ∀ a b, a ≠ b → ∃ r s, Compare BytewiseComparator a b = Some r
      ∧ Compare LexComparator a b = Some s ∧ Z.sgn r = Z.sgn s).
Proof. split; [exact I|apply (Bytewise_not_lawful any_key [x61] I)]. Defined.
