(* ===== verification/Hash.v ===== *)
(** The hash function: util/hash.cc.  The code walks a pointer over the data
    four bytes at a time; [hash_blocks] is the same function by recursion on
    the data. *)
From S2P Require Import Prelude Coding.
Local Open Scope Z_scope.

Definition hash_m : Z := 0xc6a4a793.
Definition hash_r : Z := 24.

(** [h += w; h *= m; h ^= (h >> s)] on [uint32_t]. *)
Definition hash_mix (s h w : Z) : Z :=
  let h := u32 (u32 (h + w) * hash_m) in Z.lxor h (Z.shiftr h s).

(** The [while (data + 4 <= limit)] loop. *)
Fixpoint Hash_loop (fuel : nat) (m : bytes) (data limit : nat) (h : Z) : option (nat * Z) :=
  match fuel with
  | O => None
  | S fuel =>
      if (data + 4 <=? limit)%nat then
        w ← DecodeFixed32 m data;
        Hash_loop fuel m (data + 4) limit (hash_mix 16 h w)
      else Some (data, h)
  end.

(** The [switch] on the one to three remaining bytes, with its fallthroughs. *)
Definition Hash_tail (m : bytes) (data limit : nat) (h : Z) : option Z :=
  let case1 h := b0 ← load m data; Some (hash_mix hash_r h (u8 b0)) in
  let case2 h := b1 ← load m (data + 1); case1 (u32 (h + Z.shiftl (u8 b1) 8)) in
  match (limit - data)%nat with
  | 3%nat => b2 ← load m (data + 2); case2 (u32 (h + Z.shiftl (u8 b2) 16))
  | 2%nat => case2 h
  | 1%nat => case1 h
  | _ => Some h
  end.

(** [Hash(data, n, seed)] on the [n] bytes of [m] at offset [data]. *)
Definition Hash_at (m : bytes) (data n : nat) (seed : Z) : option Z :=
  let limit := (data + n)%nat in
  let h := u32 (Z.lxor seed (u64 (Z.of_nat n * hash_m))) in
  '(data, h) ← Hash_loop (S n) m data limit h;
  Hash_tail m data limit h.

Definition Hash (data : bytes) (seed : Z) : option Z := Hash_at data 0 (length data) seed.

(** ** Specification by recursion on the data *)

Fixpoint hash_blocks (h : Z) (l : bytes) : Z :=
  match l with
  | a :: b :: c :: d :: l => hash_blocks (hash_mix 16 h (le_value [a; b; c; d])) l
  | [] => h
  | a :: l => hash_mix hash_r h (le_value (a :: l))
  end.

Definition hash_spec (data : bytes) (seed : Z) : Z :=
  hash_blocks (u32 (Z.lxor seed (Z.of_nat (length data) * hash_m))) data.

(** The vectors of examples/hashTest. *)
Example Hash_vector1 : Hash [xe2; x99; xa5] 0xbc9f1d34 = Some 0x323c078f.
Proof. reflexivity. Qed.
Example Hash_vector2 : Hash [xe1; x80; xb9; x32] 0xbc9f1d34 = Some 0xed21633a.
Proof. reflexivity. Qed.
Example Hash_vector3 : Hash [] 0xbc9f1d34 = Some 0xbc9f1d34.
Proof. reflexivity. Qed.

(** ** Lemmas *)

Lemma hash_mix_range s h w : 0 <= s → 0 <= hash_mix s h w < 2 ^ 32.
Proof. intros. unfold hash_mix. apply lxor_range; auto with ldb. Qed.

(** The code reduces after each addition; a single reduction is the same. *)
Lemma hash_mix_u32 s h w : hash_mix s (u32 h) w = hash_mix s h w.
Proof. unfold hash_mix, u32. by rewrite Zplus_mod_idemp_l. Qed.

Lemma hash_mix_shift s h a b : hash_mix s (h + a) b = hash_mix s h (b + a).
Proof. unfold hash_mix. by replace (h + a + b) with (h + (b + a)) by lia. Qed.

Lemma Hash_loop_blocks fuel pre l post h :
  (length l < fuel)%nat →
  ∃ l1 l2 h', l = l1 ++ l2 ∧ (length l2 < 4)%nat
    ∧ Hash_loop fuel (pre ++ l ++ post) (length pre) (length pre + length l) h
      = Some ((length pre + length l1)%nat, h')
    ∧ hash_blocks h l = hash_blocks h' l2.
Proof.
  revert pre l h. induction fuel as [|fuel IH]; intros pre l h Hf; [lia|].
  cbn [Hash_loop]. destruct (Nat.leb_spec (length pre + 4) (length pre + length l)) as [H4|H4].
  - do 4 (destruct l as [|? l]; [simpl in H4; lia|]).
    change (b :: b0 :: b1 :: b2 :: l) with ([b; b0; b1; b2] ++ l).
    rewrite <- app_assoc, DecodeFixed32_app by done. cbn [mbind option_bind].
    destruct (IH (pre ++ [b; b0; b1; b2]) l (hash_mix 16 h (le_value [b; b0; b1; b2])))
      as (l1 & l2 & h' & -> & Hl2 & E & Eb); [simpl in Hf; lia|].
    exists ([b; b0; b1; b2] ++ l1), l2, h'. rewrite <- app_assoc.
    split_and!; [done|done| |done].
    transitivity (Some ((length (pre ++ [b; b0; b1; b2]) + length l1)%nat, h')).
    + rewrite <- E, <- !app_assoc, !length_app. simpl. f_equal; rewrite ?length_app; lia.
    + rewrite !length_app. simpl. do 2 f_equal. lia.
  - exists [], l, h. rewrite Nat.add_0_r. split_and!; [done|lia|done|done].
Qed.

Lemma Hash_tail_blocks pre l post h :
  (length l < 4)%nat →
  Hash_tail (pre ++ l ++ post) (length pre) (length pre + length l) h
  = Some (hash_blocks h l).
Proof.
  intros Hl. unfold Hash_tail.
  replace (length pre + length l - length pre)%nat with (length l) by lia.
  destruct l as [|b0 [|b1 [|b2 [|]]]]; [done| | | |simpl in Hl; lia];
    cbn [length app]; rewrite ?load_app_r; unfold load;
    rewrite (list_lookup_middle pre) by done; simpl; f_equal;
    repeat (rewrite hash_mix_u32 || rewrite hash_mix_shift);
    rewrite ?Z.shiftl_mul_pow2 by lia; f_equal; lia.
Qed.

Lemma Hash_at_spec pre data post seed :
  Hash_at (pre ++ data ++ post) (length pre) (length data) seed
  = Some (hash_spec data seed).
Proof.
  unfold Hash_at, hash_spec.
  assert (E0 : u32 (Z.lxor seed (u64 (Z.of_nat (length data) * hash_m)))
               = u32 (Z.lxor seed (Z.of_nat (length data) * hash_m))).
  { unfold u32, u64. apply Z.bits_inj'. intros i Hi.
    rewrite !testbit_mod_pow2, !Z.lxor_spec, testbit_mod_pow2 by lia.
    destruct (Z.ltb_spec i 32); [|done]. by rewrite (proj2 (Z.ltb_lt i 64)) by lia. }
  rewrite E0. clear E0. set (h := u32 _). assert (Hh : 0 <= h < 2 ^ 32) by apply u32_range.
  destruct (Hash_loop_blocks (S (length data)) pre data post h) as (l1 & l2 & h' & E & Hl2 & -> & Eb);
    [lia|].
  cbn [mbind option_bind]. rewrite Eb, E.
  pose proof (Hash_tail_blocks (pre ++ l1) l2 post h' Hl2) as Ht.
  rewrite !length_app, <- !app_assoc in *. rewrite Nat.add_assoc. exact Ht.
Qed.

Lemma hash_blocks_range h l : 0 <= h < 2 ^ 32 → 0 <= hash_blocks h l < 2 ^ 32.
Proof.
  revert l h. fix IH 1. intros [|a [|b [|c [|d l]]]] h Hh; simpl; try done;
    try (apply hash_mix_range; unfold hash_r; lia).
  apply IH. apply hash_mix_range. lia.
Qed.

Lemma hash_spec_range data seed : 0 <= hash_spec data seed < 2 ^ 32.
Proof. apply hash_blocks_range, u32_range. Qed.

Lemma Hash_eq data seed : Hash data seed = Some (hash_spec data seed).
Proof.
  pose proof (Hash_at_spec [] data [] seed) as E. by rewrite app_nil_r in E.
Qed.

(** ** Properties *)

(** [Hash] reads exactly the [n] bytes it is given, wherever they lie in
    memory, never faults, and computes the block-recursive specification, a
    32-bit value. *)
Theorem Hash_correct pre data post seed :
  Hash_at (pre ++ data ++ post) (length pre) (length data) seed
    = Some (hash_spec data seed)
  ∧ 0 <= hash_spec data seed < 2 ^ 32.
Proof. split; [apply Hash_at_spec|apply hash_spec_range]. Qed.
