(* ===== verification/Bloom.v ===== *)
(** Filter policies: include/filter_policy.h and util/bloom.cc.

    [FilterPolicy] is the virtual interface, [FilterLaws] its promise that a
    key of the set is never rejected.  The bloom filter writes into the string
    it extends through [array = &dst[init_size]]: the model stores at
    [array + bitpos / 8] in the whole string. *)
From S2P Require Import Prelude Coding Hash.
From Stdlib Require Import Floats.SpecFloat.
Local Open Scope Z_scope.

(** [CreateFilter keys dst] is the string after the call (the filter is
    appended to it) and the keys, which a policy may overwrite. *)
Record FilterPolicy := {
  FilterName : bytes;
  CreateFilter : list bytes → bytes → option (list bytes * bytes);
  KeyMayMatch : bytes → bytes → option bool
}.

(** A key of the set always matches a filter made for a set in [fits], over the
    keys satisfying [ok]. *)
Class FilterLaws (p : FilterPolicy) (ok : bytes → Prop) (fits : nat → Prop) : Prop := {
  filter_total : ∀ keys dst, Forall ok keys → fits (length keys) →
    ∃ keys' f, CreateFilter p keys dst = Some (keys', dst ++ f);
  filter_match : ∀ keys keys' dst f key, Forall ok keys → fits (length keys) →
    CreateFilter p keys dst = Some (keys', dst ++ f) → key ∈ keys →
    KeyMayMatch p key f = Some true
}.

Definition BloomHash (key : bytes) : option Z := Hash key 0xbc9f1d34.

Record BloomFilterPolicy := { bits_per_key_ : Z; k_ : Z }.

(** [static_cast<size_t>(bits_per_key * 0.69)] in IEEE double precision: [0.69]
    is the nearest double, the conversion truncates, and it is undefined when
    the truncated value is negative. *)
Definition double_0_69 : spec_float := S754_finite false 6214967485771284 (-53).

Definition trunc_to_size_t (x : spec_float) : option Z :=
  match x with
  | S754_zero _ => Some 0
  | S754_finite s m e =>
      let t := if e <? 0 then Z.pos m / 2 ^ (- e) else Z.pos m * 2 ^ e in
      if s then (if t =? 0 then Some 0 else None)
      else if t <? 2 ^ 64 then Some t else None
  | _ => None
  end.

Definition BloomFilterPolicy_new (bits_per_key : Z) : option BloomFilterPolicy :=
  k ← trunc_to_size_t (SFmul 53 1024 (binary_normalize 53 1024 bits_per_key 0 false) double_0_69);
  let k := if k <? 1 then 1 else k in
  let k := if 30 <? k then 30 else k in
  Some {| bits_per_key_ := u64 bits_per_key; k_ := k |}.

(** Rotate right 17 bits, on [uint32_t]. *)
Definition bloom_delta (h : Z) : Z := Z.lor (Z.shiftr h 17) (u32 (Z.shiftl h 15)).

(** The inner [for] loop of [CreateFilter]; [h % bits] is undefined for no bits. *)
Fixpoint bloom_add (k : nat) (dst : bytes) (array : nat) (bits h delta : Z) : option bytes :=
  match k with
  | O => Some dst
  | S k =>
      ASSERT negb (bits =? 0);
      let bitpos := u32 (h mod bits) in
      let p := (array + Z.to_nat (bitpos / 8))%nat in
      b ← load dst p;
      dst' ← store dst p (byte_of (Z.lor (u8 b) (Z.shiftl 1 (bitpos mod 8))));
      bloom_add k dst' array bits (u32 (h + delta)) delta
  end.

(** The outer [for] loop. *)
Fixpoint bloom_add_keys (p : BloomFilterPolicy) (keys : list bytes) (dst : bytes)
    (array : nat) (bits : Z) : option bytes :=
  match keys with
  | [] => Some dst
  | key :: keys =>
      h ← BloomHash key;
      dst' ← bloom_add (Z.to_nat (k_ p)) dst array bits h (bloom_delta h);
      bloom_add_keys p keys dst' array bits
  end.

(** The number of bytes of the bit array. *)
Definition bloom_bytes (p : BloomFilterPolicy) (n : nat) : Z :=
  let bits := u64 (Z.of_nat n * bits_per_key_ p) in
  let bits := if bits <? 64 then 64 else bits in
  u64 (bits + 7) / 8.

Definition Bloom_CreateFilter (p : BloomFilterPolicy) (keys : list bytes) (dst : bytes)
    : option bytes :=
  let nbytes := bloom_bytes p (length keys) in
  let bits := u64 (nbytes * 8) in
  let init_size := length dst in
  let dst := (dst ++ replicate (Z.to_nat nbytes) x00) ++ [byte_of (k_ p)] in
  bloom_add_keys p keys dst init_size bits.

(** The [for] loop of [KeyMayMatch]. *)
Fixpoint bloom_probe (k : nat) (array : bytes) (bits h delta : Z) : option bool :=
  match k with
  | O => Some true
  | S k =>
      ASSERT negb (bits =? 0);
      let bitpos := u32 (h mod bits) in
      b ← load array (Z.to_nat (bitpos / 8));
      if Z.land (s8 b) (Z.shiftl 1 (bitpos mod 8)) =? 0 then Some false
      else bloom_probe k array bits (u32 (h + delta)) delta
  end.

(** [array[len - 1]] is a signed [char] converted to [size_t]. *)
Definition Bloom_KeyMayMatch (p : BloomFilterPolicy) (key bloom_filter : bytes) : option bool :=
  let len := length bloom_filter in
  if (len <? 2)%nat then Some false
  else
    let bits := u64 (Z.of_nat (len - 1) * 8) in
    kb ← load bloom_filter (len - 1);
    let k := u64 (s8 kb) in
    if 30 <? k then Some true
    else
      h ← BloomHash key;
      bloom_probe (Z.to_nat k) bloom_filter bits h (bloom_delta h).

Definition BloomPolicy (p : BloomFilterPolicy) : FilterPolicy := {|
  FilterName := str "leveldb.BuiltinBloomFilter2";
  CreateFilter := λ keys dst, pair keys <$> Bloom_CreateFilter p keys dst;
  KeyMayMatch := Bloom_KeyMayMatch p
|}.

Definition NewBloomFilterPolicy (bits_per_key : Z) : option FilterPolicy :=
  BloomPolicy <$> BloomFilterPolicy_new bits_per_key.

(** The number of probes for the usual parameters, and the policies the
    constructor makes. *)
Definition bloom_wf (p : BloomFilterPolicy) : Prop :=
  1 <= k_ p <= 30 ∧ 0 <= bits_per_key_ p < 2 ^ 64.

(** The filter of [n] keys fits [size_t] arithmetic. *)
Definition bloom_fits (p : BloomFilterPolicy) (n : nat) : Prop :=
  Z.of_nat n * bits_per_key_ p + 7 < 2 ^ 64.

Example bloom_k_10 : k_ <$> BloomFilterPolicy_new 10 = Some 6.
Proof. reflexivity. Qed.
Example bloom_k_100 : k_ <$> BloomFilterPolicy_new 100 = Some 30.
Proof. reflexivity. Qed.
Example bloom_k_0 : k_ <$> BloomFilterPolicy_new 0 = Some 1.
Proof. reflexivity. Qed.
Example bloom_k_29 : k_ <$> BloomFilterPolicy_new 29 = Some 20.
Proof. reflexivity. Qed.
Example bloom_hello :
  (p ← NewBloomFilterPolicy 10; '(_, f) ← CreateFilter p [str "hello"; str "world"] [x01];
   a ← KeyMayMatch p (str "hello") (drop 1 f); b ← KeyMayMatch p (str "x") (drop 1 f);
   Some (length f, a, b)) = Some (10%nat, true, false).
Proof. reflexivity. Qed.

(** ** Bits of the array *)

Definition bit_set (m : bytes) (array : nat) (pos : Z) : Prop :=
  ∃ b, m !! (array + Z.to_nat (pos / 8))%nat = Some b ∧ Z.testbit (u8 b) (pos mod 8) = true.

(** The bit positions probed from the hash [h] by steps of [delta]. *)
Fixpoint bloom_positions (k : nat) (bits h delta : Z) : list Z :=
  match k with
  | O => []
  | S k => u32 (h mod bits) :: bloom_positions k bits (u32 (h + delta)) delta
  end.

Lemma testbit_shiftl_1 n i : 0 <= i → 0 <= n → Z.testbit (Z.shiftl 1 n) i = (i =? n).
Proof.
  intros. rewrite Z.shiftl_1_l, Z.pow2_bits_eqb by lia. apply Z.eqb_sym.
Qed.

Lemma s8_testbit b i : 0 <= i < 8 → Z.testbit (s8 b) i = Z.testbit (u8 b) i.
Proof.
  intros Hi. unfold s8. destruct (u8 b <? 128); [done|].
  rewrite <- (Z.mod_pow2_bits_low (u8 b - 256) 8) by lia.
  rewrite <- (Z.mod_pow2_bits_low (u8 b) 8) by lia.
  change (2 ^ 8) with 256. f_equal.
  replace (u8 b - 256) with (u8 b + (-1) * 256) by lia. by rewrite Z.mod_add by lia.
Qed.

(** The probe's test reads the bit. *)
Lemma probe_bit b n : 0 <= n < 8 →
  (Z.land (s8 b) (Z.shiftl 1 n) =? 0) = negb (Z.testbit (u8 b) n).
Proof.
  intros Hn. rewrite <- s8_testbit by done.
  destruct (Z.testbit (s8 b) n) eqn:E; simpl.
  - apply Z.eqb_neq. intros H.
    assert (Z.testbit (Z.land (s8 b) (Z.shiftl 1 n)) n = true) as C.
    { rewrite Z.land_spec, E, testbit_shiftl_1 by lia. by rewrite Z.eqb_refl. }
    by rewrite H, Z.bits_0 in C.
  - apply Z.eqb_eq, Z.bits_inj'. intros i Hi.
    rewrite Z.land_spec, Z.bits_0, testbit_shiftl_1 by lia.
    destruct (Z.eqb_spec i n); [by subst; rewrite E|apply andb_false_r].
Qed.

(** The byte stored by [|=]: the new bit is set and the old ones stay. *)
Lemma byte_or_bit b n i : 0 <= n < 8 → 0 <= i < 8 →
  Z.testbit (u8 (byte_of (Z.lor (u8 b) (Z.shiftl 1 n)))) i
  = Z.testbit (u8 b) i || (i =? n).
Proof.
  intros Hn Hi. rewrite u8_byte_of. change 256 with (2 ^ 8).
  rewrite Z.mod_pow2_bits_low, Z.lor_spec, testbit_shiftl_1 by lia. done.
Qed.

Lemma mod8_range z : 0 <= z mod 8 < 8.
Proof. apply Z.mod_pos_bound. lia. Qed.

(** One iteration of the inner loop stays inside the array. *)
Lemma bitpos_bounds h bits nb :
  bits = 8 * Z.of_nat nb → 0 < bits →
  0 <= u32 (h mod bits) ∧ (Z.to_nat (u32 (h mod bits) / 8) < nb)%nat.
Proof.
  intros Hb Hpos. pose proof (Z.mod_pos_bound h bits Hpos).
  assert (0 <= u32 (h mod bits) <= h mod bits).
  { unfold u32. split; [apply Z.mod_pos_bound; lia|apply Z.mod_le; lia]. }
  split; [lia|]. lia_div.
Qed.

Section inner_loop.
Context (array nb : nat) (bits : Z) (Hbits : bits = 8 * Z.of_nat nb) (Hpos : 0 < bits).

(** What the writes preserve and establish. *)
Definition bloom_ext (dst dst' : bytes) : Prop :=
  length dst' = length dst
  ∧ (∀ pos, 0 <= pos → bit_set dst array pos → bit_set dst' array pos)
  ∧ (∀ i, (i < array ∨ array + nb ≤ i)%nat → dst' !! i = dst !! i).

Lemma bloom_ext_refl dst : bloom_ext dst dst.
Proof. by split_and!. Qed.

Lemma bloom_ext_trans d1 d2 d3 : bloom_ext d1 d2 → bloom_ext d2 d3 → bloom_ext d1 d3.
Proof.
  intros (L1 & B1 & O1) (L2 & B2 & O2). split_and!; [congruence|auto|].
  intros i Hi. by rewrite O2, O1.
Qed.

Lemma bloom_write dst pos b :
  0 <= pos → (Z.to_nat (pos / 8) < nb)%nat → (array + nb ≤ length dst)%nat →
  dst !! (array + Z.to_nat (pos / 8))%nat = Some b →
  let dst' := <[(array + Z.to_nat (pos / 8))%nat :=
                byte_of (Z.lor (u8 b) (Z.shiftl 1 (pos mod 8)))]> dst in
  bloom_ext dst dst' ∧ bit_set dst' array pos.
Proof.
  intros Hp Hnb Hlen Hb dst'. pose proof (mod8_range pos) as Hm. split.
  - split_and!; [apply length_insert| |].
    + intros q Hq (b' & Hb' & Ht). unfold bit_set, dst'. pose proof (mod8_range q).
      destruct (decide (Z.to_nat (q / 8) = Z.to_nat (pos / 8))) as [E|E].
      * rewrite E in Hb' |- *. simplify_eq. rewrite list_lookup_insert_eq by lia.
        eexists. split; [done|]. by rewrite byte_or_bit, Ht by lia.
      * rewrite list_lookup_insert_ne by lia. eauto.
    + intros i Hi. apply list_lookup_insert_ne. lia.
  - eexists. split; [apply list_lookup_insert_eq; lia|].
    rewrite byte_or_bit, Z.eqb_refl by lia. apply orb_true_r.
Qed.

Lemma bloom_add_spec k dst h delta :
  (array + nb ≤ length dst)%nat →
  ∃ dst', bloom_add k dst array bits h delta = Some dst' ∧ bloom_ext dst dst'
    ∧ Forall (bit_set dst' array) (bloom_positions k bits h delta).
Proof.
  revert dst h. induction k as [|k IH]; intros dst h Hlen.
  { exists dst. split_and!; [done|apply bloom_ext_refl|done]. }
  simpl. rewrite (proj2 (Z.eqb_neq _ _)) by lia. simpl.
  destruct (bitpos_bounds h bits nb Hbits Hpos) as [H0 Hnb].
  set (pos := u32 (h mod bits)) in *.
  destruct (lookup_lt_is_Some_2 dst (array + Z.to_nat (pos / 8))) as [b Hb]; [lia|].
  unfold load. rewrite Hb. cbn [mbind option_bind].
  rewrite store_Some by lia. cbn [mbind option_bind].
  destruct (bloom_write dst pos b H0 Hnb Hlen Hb) as [Hext Hset].
  edestruct IH as (dst' & E & Hext' & Hall); [by rewrite length_insert|].
  exists dst'. split; [exact E|]. split; [by eapply bloom_ext_trans|].
  constructor; [|done]. by apply Hext'.
Qed.

Lemma bloom_probe_true k m h delta :
  (nb ≤ length m)%nat → Forall (bit_set m 0) (bloom_positions k bits h delta) →
  bloom_probe k m bits h delta = Some true.
Proof.
  revert h. induction k as [|k IH]; intros h Hlen Hall; [done|].
  simpl in *. apply Forall_cons in Hall as [(b & Hb & Ht) Hall].
  rewrite (proj2 (Z.eqb_neq _ _)) by lia. simpl in *.
  unfold load. rewrite Hb. simpl. rewrite probe_bit, Ht by apply mod8_range. simpl.
  by apply IH.
Qed.
End inner_loop.

(** ** The whole filter *)

Definition key_positions (p : BloomFilterPolicy) (bits : Z) (key : bytes) : list Z :=
  let h := hash_spec key 0xbc9f1d34 in
  bloom_positions (Z.to_nat (k_ p)) bits h (bloom_delta h).

Lemma bloom_positions_nonneg k bits h delta :
  Forall (λ pos, 0 <= pos) (bloom_positions k bits h delta).
Proof. revert h. induction k; intros h; constructor; [apply u32_range|auto]. Qed.

Lemma bloom_add_keys_spec p array nb bits keys dst :
  bits = 8 * Z.of_nat nb → 0 < bits → (array + nb ≤ length dst)%nat →
  ∃ dst', bloom_add_keys p keys dst array bits = Some dst' ∧ bloom_ext array nb dst dst'
    ∧ ∀ key, key ∈ keys → Forall (bit_set dst' array) (key_positions p bits key).
Proof.
  intros Hbits Hpos. revert dst. induction keys as [|key keys IH]; intros dst Hlen.
  { exists dst. split_and!; [done|apply bloom_ext_refl|]. by intros ? ?%not_elem_of_nil. }
  simpl. unfold BloomHash. rewrite Hash_eq. cbn [mbind option_bind].
  set (h := hash_spec key _).
  destruct (bloom_add_spec array nb bits Hbits Hpos (Z.to_nat (k_ p)) dst h (bloom_delta h) Hlen)
    as (d1 & -> & Hext1 & Hall1).
  cbn [mbind option_bind]. destruct (IH d1) as (d2 & -> & Hext2 & Hall2).
  { by rewrite (proj1 Hext1). }
  exists d2. split_and!; [done|by eapply bloom_ext_trans|].
  intros key' [->|Hin]%elem_of_cons; [|auto].
  pose proof (bloom_positions_nonneg (Z.to_nat (k_ p)) bits h (bloom_delta h)) as Hnn.
  unfold key_positions. rewrite Forall_forall in Hall1, Hnn |- *.
  intros pos Hin. apply Hext2; auto.
Qed.

Lemma bloom_bytes_fits p n :
  bloom_wf p → bloom_fits p n →
  8 <= bloom_bytes p n < 2 ^ 61.
Proof.
  intros [_ Hb] Hf. unfold bloom_fits in Hf. unfold bloom_bytes.
  assert (0 <= Z.of_nat n * bits_per_key_ p) by (apply Z.mul_nonneg_nonneg; lia).
  rewrite (u64_small (_ * _)) by lia.
  destruct (Z.ltb_spec (Z.of_nat n * bits_per_key_ p) 64); rewrite u64_small by lia; lia_div.
Qed.

(** [CreateFilter] appends the array and the probe count. *)
Lemma CreateFilter_spec p keys dst :
  bloom_wf p → bloom_fits p (length keys) →
  ∃ arr, Bloom_CreateFilter p keys dst = Some (dst ++ arr ++ [byte_of (k_ p)])
    ∧ Z.of_nat (length arr) = bloom_bytes p (length keys)
    ∧ ∀ key, key ∈ keys →
        Forall (bit_set (arr ++ [byte_of (k_ p)]) 0)
               (key_positions p (8 * Z.of_nat (length arr)) key).
Proof.
  intros Hwf Hfits. pose proof (bloom_bytes_fits p _ Hwf Hfits) as Hn.
  unfold Bloom_CreateFilter. set (nb := Z.to_nat (bloom_bytes p (length keys))).
  assert (Hnb : Z.of_nat nb = bloom_bytes p (length keys)) by lia.
  assert (Hbits : u64 (bloom_bytes p (length keys) * 8) = 8 * Z.of_nat nb)
    by (rewrite u64_small; lia).
  set (d0 := (dst ++ replicate nb x00) ++ [byte_of (k_ p)]).
  destruct (bloom_add_keys_spec p (length dst) nb _ keys d0 Hbits) as (d & E & (Hlen & _ & Hout) & Hall).
  { lia. } { unfold d0. rewrite !length_app, length_replicate. simpl. lia. }
  assert (Hd0 : length d0 = (length dst + nb + 1)%nat)
    by (unfold d0; rewrite !length_app, length_replicate; simpl; lia).
  (* the result keeps the prefix and the last byte *)
  assert (Hd : d = dst ++ take nb (drop (length dst) d) ++ [byte_of (k_ p)]).
  { rewrite <- (take_drop (length dst) d) at 1. f_equal.
    - apply list_eq_same_length with (length dst); [|rewrite length_take; lia|].
      + done.
      + intros i x y Hi Hx Hy. rewrite lookup_take_lt in Hx by lia.
        rewrite Hout in Hx by lia. unfold d0 in Hx.
        rewrite !lookup_app_l in Hx by (rewrite ?length_app; lia). congruence.
    - rewrite <- (take_drop nb (drop (length dst) d)) at 1. f_equal.
      rewrite drop_drop. apply list_eq_same_length with 1%nat; [done|rewrite length_drop; lia|].
      intros i x y Hi Hx Hy. assert (i = 0)%nat as -> by lia. simpl in Hy.
      rewrite lookup_drop, Hout in Hx by lia. unfold d0 in Hx.
      rewrite lookup_app_r in Hx by (rewrite length_app, length_replicate; lia).
      rewrite length_app, length_replicate in Hx.
      replace (length dst + nb + 0 - (length dst + nb))%nat with 0%nat in Hx by lia.
      simpl in Hx. congruence. }
  set (arr := take nb (drop (length dst) d)) in *.
  assert (Harr : length arr = nb) by (unfold arr; rewrite length_take, length_drop; lia).
  exists arr. rewrite E, <- Hd, Harr. split_and!; [done|done|].
  intros key Hin. specialize (Hall key Hin). rewrite Hbits in Hall.
  eapply Forall_impl; [exact Hall|]. intros pos (b & Hb & Ht). exists b. split; [|done].
  rewrite Hd, lookup_app_r in Hb by lia. rewrite <- Hb. f_equal. lia.
Qed.

(** The probe count survives its trip through a [char]. *)
Lemma probe_count_char k : 1 <= k <= 30 → u64 (s8 (byte_of k)) = k.
Proof.
  intros. unfold s8. rewrite u8_byte_of, Z.mod_small by lia.
  rewrite (proj2 (Z.ltb_lt _ _)) by lia. apply u64_small. lia.
Qed.

Lemma KeyMayMatch_filter q p arr key :
  bloom_wf p → 8 <= Z.of_nat (length arr) < 2 ^ 61 →
  Forall (bit_set (arr ++ [byte_of (k_ p)]) 0) (key_positions p (8 * Z.of_nat (length arr)) key) →
  Bloom_KeyMayMatch q key (arr ++ [byte_of (k_ p)]) = Some true.
Proof.
  intros [Hk _] Hlen Hall. unfold Bloom_KeyMayMatch.
  rewrite length_app. cbn [length]. rewrite (proj2 (Nat.ltb_ge _ _)) by lia.
  replace (length arr + 1 - 1)%nat with (length arr) by lia.
  unfold load. rewrite list_lookup_middle by done. cbn [mbind option_bind].
  rewrite probe_count_char by done. rewrite (proj2 (Z.ltb_ge _ _)) by lia.
  unfold BloomHash. rewrite Hash_eq. cbn [mbind option_bind].
  rewrite u64_small by lia.
  apply (bloom_probe_true (length arr)); [lia|rewrite length_app; lia|].
  by rewrite Z.mul_comm.
Qed.

#[export] Instance BloomPolicy_laws p (Hwf : bloom_wf p) :
  FilterLaws (BloomPolicy p) (λ _, True) (bloom_fits p).
Proof.
  split.
  - intros keys dst _ Hf. destruct (CreateFilter_spec p keys dst Hwf Hf) as (arr & E & _).
    simpl. rewrite E. simpl. eauto.
  - intros keys keys' dst f key _ Hf E Hin.
    destruct (CreateFilter_spec p keys dst Hwf Hf) as (arr & E' & Hn & Hall).
    simpl in *. rewrite E' in E. simplify_eq/=.
    pose proof (bloom_bytes_fits p _ Hwf Hf). apply KeyMayMatch_filter; [done|lia|auto].
Qed.

Lemma BloomFilterPolicy_new_wf b p : BloomFilterPolicy_new b = Some p → bloom_wf p.
Proof.
  unfold BloomFilterPolicy_new. intros H. simplify_option_eq.
  split; simpl; [|apply u64_range].
  repeat case_match; lia.
Qed.

Lemma bloom_probe_total k m bits nb h delta :
  bits = 8 * Z.of_nat nb → 0 < bits → (nb ≤ length m)%nat →
  is_Some (bloom_probe k m bits h delta).
Proof.
  intros Hb Hpos Hlen. revert h. induction k as [|k IH]; intros h; [done|]. simpl.
  rewrite (proj2 (Z.eqb_neq _ _)) by lia. simpl.
  destruct (bitpos_bounds h bits nb Hb Hpos) as [_ Hnb].
  destruct (lookup_lt_is_Some_2 m (Z.to_nat (u32 (h mod bits) / 8))) as [b Hm]; [lia|].
  unfold load. rewrite Hm. simpl. case_match; [done|apply IH].
Qed.

(** ** Properties *)

(** C10: no false negatives.  Every filter the built-in policy makes for a set
    of keys is appended to [dst], has the documented size (bits rounded up to
    bytes, at least eight, plus the probe count), and every key of the set
    matches it, also when it is queried through a policy built with other
    parameters. *)
Theorem bloom_no_false_negatives bits_per_key p q keys dst key :
  BloomFilterPolicy_new bits_per_key = Some p → bloom_fits p (length keys) → key ∈ keys →
  ∃ f, CreateFilter (BloomPolicy p) keys dst = Some (keys, dst ++ f)
    ∧ Z.of_nat (length f)
      = (Z.max 64 (Z.of_nat (length keys) * bits_per_key_ p) + 7) / 8 + 1
    ∧ KeyMayMatch (BloomPolicy p) key f = Some true
    ∧ KeyMayMatch (BloomPolicy q) key f = Some true.
Proof.
  intros Hwf%BloomFilterPolicy_new_wf Hf Hin.
  destruct (CreateFilter_spec p keys dst Hwf Hf) as (arr & E & Hn & Hall).
  pose proof (bloom_bytes_fits p _ Hwf Hf).
  exists (arr ++ [byte_of (k_ p)]). simpl. rewrite E. split; [done|]. split.
  - rewrite length_app. simpl. destruct Hwf as [_ Hb]. unfold bloom_fits in Hf.
    assert (0 <= Z.of_nat (length keys) * bits_per_key_ p) by (apply Z.mul_nonneg_nonneg; lia).
    unfold bloom_bytes in Hn. rewrite (u64_small (_ * _)) in Hn by lia.
    destruct (Z.ltb_spec (Z.of_nat (length keys) * bits_per_key_ p) 64);
      rewrite u64_small in Hn by lia; [rewrite Z.max_l by lia|rewrite Z.max_r by lia]; lia.
  - split; (apply KeyMayMatch_filter; [done|lia|auto]).
Qed.

(** [KeyMayMatch] answers on any bytes at all as a filter without reading
    outside them: anything shorter than two bytes rejects every key, and an
    unknown probe count (over 30 as an unsigned value) accepts every key. *)
Theorem KeyMayMatch_total p key f :
  Z.of_nat (length f) < 2 ^ 61 →
  (∃ r, Bloom_KeyMayMatch p key f = Some r)
  ∧ ((length f < 2)%nat → Bloom_KeyMayMatch p key f = Some false)
  ∧ ∀ arr k, f = arr ++ [k] → (0 < length arr)%nat → 30 < u8 k →
      Bloom_KeyMayMatch p key f = Some true.
Proof.
  intros Hlen. unfold Bloom_KeyMayMatch. split_and!.
  - destruct (Nat.ltb_spec (length f) 2); [eauto|].
    destruct (lookup_lt_is_Some_2 f (length f - 1)) as [b Hb]; [lia|].
    unfold load. rewrite Hb. simpl. case_match; [eauto|].
    unfold BloomHash. rewrite Hash_eq. simpl. rewrite (u64_small (_ * 8)) by lia.
    eapply (bloom_probe_total _ _ _ (length f - 1)); lia.
  - intros H. by rewrite (proj2 (Nat.ltb_lt _ _)).
  - intros arr k -> Ha Hk. rewrite length_app. cbn [length].
    rewrite (proj2 (Nat.ltb_ge _ _)) by lia.
    replace (length arr + 1 - 1)%nat with (length arr) by lia.
    unfold load. rewrite list_lookup_middle by done. simpl.
    pose proof (u8_range k). unfold s8, u64.
    destruct (Z.ltb_spec (u8 k) 128).
    + rewrite Z.mod_small by lia. by rewrite (proj2 (Z.ltb_lt _ _)).
    + replace (u8 k - 256) with (u8 k - 256 + 2 ^ 64 + (-1) * 2 ^ 64) by lia.
      rewrite Z.mod_add, Z.mod_small by lia. by rewrite (proj2 (Z.ltb_lt _ _)) by lia.
Qed.

Lemma bloom_no_false_negatives_witness :
  ∃ f, CreateFilter (BloomPolicy {| bits_per_key_ := 10; k_ := 6 |}) [str "hello"; str "world"] [x01]
       = Some ([str "hello"; str "world"], [x01] ++ f)
    ∧ Z.of_nat (length f) = (Z.max 64 (2 * 10) + 7) / 8 + 1
    ∧ KeyMayMatch (BloomPolicy {| bits_per_key_ := 10; k_ := 6 |}) (str "world") f = Some true
    ∧ KeyMayMatch (BloomPolicy {| bits_per_key_ := 1; k_ := 1 |}) (str "world") f = Some true.
Proof.
  apply (bloom_no_false_negatives 10 {| bits_per_key_ := 10; k_ := 6 |}
           {| bits_per_key_ := 1; k_ := 1 |} [str "hello"; str "world"] [x01] (str "world")).
  - reflexivity.
  - reflexivity.
  - apply elem_of_cons; right; apply elem_of_cons; left; reflexivity.
Defined.

Lemma KeyMayMatch_total_witness :
  let p := {| bits_per_key_ := 10; k_ := 6 |} in let f := [x00; x1f] in
  (∃ r, Bloom_KeyMayMatch p [x61] f = Some r)
  ∧ ((length f < 2)%nat → Bloom_KeyMayMatch p [x61] f = Some false)
  ∧ ∀ arr k, f = arr ++ [k] → (0 < length arr)%nat → 30 < u8 k →
      Bloom_KeyMayMatch p [x61] f = Some true.
Proof. intros p f. apply (KeyMayMatch_total p [x61] f). simpl. lia. Defined.
