(* ===== verification/Logging.v ===== *)
(** Number and escape formatting: util/logging.h and util/logging.cc.  The
    [snprintf] conversions the code uses ([%llu], [%02x]) are written out. *)
From S2P Require Import Prelude Slice.
Local Open Scope Z_scope.

(** [%llu]: decimal digits, most significant first, for a 64-bit value. *)
Fixpoint decimal_loop (fuel : nat) (n : Z) (acc : bytes) : bytes :=
  match fuel with
  | O => acc
  | S fuel =>
      let acc := byte_of (48 + n mod 10) :: acc in
      if n <? 10 then acc else decimal_loop fuel (n / 10) acc
  end.

Definition print_llu (n : Z) : bytes := decimal_loop 20 n [].

Definition hex_digit (n : Z) : byte := byte_of (if n <? 10 then 48 + n else 87 + n).

(** [%02x] of a value below 256. *)
Definition print_02x (n : Z) : bytes := [hex_digit (n / 16); hex_digit (n mod 16)].

(** The text fits the 30-byte buffer, terminator included. *)
Definition AppendNumberTo (str : bytes) (num : Z) : option bytes :=
  let buf := print_llu num in
  ASSERT (length buf <? 30)%nat; Some (str ++ buf).

(** One character: the comparisons are on signed [char]. *)
Definition escape_char (c : byte) : bytes :=
  if (32 <=? s8 c) && (s8 c <=? 126) then [c]
  else str "\x" ++ print_02x (Z.land (s8 c mod 2 ^ 32) 0xff).

Fixpoint AppendEscapedStringTo (str value : bytes) : bytes :=
  match value with
  | [] => str
  | c :: value => AppendEscapedStringTo (str ++ escape_char c) value
  end.

Definition NumberToString (num : Z) : option bytes := AppendNumberTo [] num.

Definition EscapeString (value : bytes) : bytes := AppendEscapedStringTo [] value.

Definition kMaxUint64 : Z := 2 ^ 64 - 1.
Definition kLastDigitOfMaxUint64 : Z := 48 + kMaxUint64 mod 10.

(** The [for] loop over the input: [None] is the early [return false]; otherwise
    the value and the number of characters consumed. *)
Fixpoint consume_loop (input : bytes) (value : Z) (consumed : nat) : option (Z * nat) :=
  match input with
  | [] => Some (value, consumed)
  | c :: input =>
      let ch := u8 c in
      if (ch <? 48) || (57 <? ch) then Some (value, consumed)
      else if (kMaxUint64 / 10 <? value)
              || ((value =? kMaxUint64 / 10) && (kLastDigitOfMaxUint64 <? ch)) then None
      else consume_loop input (u64 (value * 10 + (ch - 48))) (S consumed)
  end.

Record consume_result := {
  consumed_ok : bool;         (* the return value *)
  consumed_val : option Z;    (* [*val], when it is assigned *)
  consumed_in : bytes         (* [*in] after the call *)
}.

Definition ConsumeDecimalNumber (input : bytes) : option consume_result :=
  match consume_loop input 0 0 with
  | None => Some {| consumed_ok := false; consumed_val := None; consumed_in := input |}
  | Some (value, n) =>
      rest ← remove_prefix input n;
      Some {| consumed_ok := negb (n =? 0)%nat; consumed_val := Some value; consumed_in := rest |}
  end.

(** ** Specification *)

Definition is_digit (c : byte) : Prop := 48 <= u8 c <= 57.
#[global] Instance is_digit_dec c : Decision (is_digit c).
Proof. unfold is_digit. apply _. Defined.

Definition is_printable (c : byte) : Prop := 32 <= u8 c <= 126.
#[global] Instance is_printable_dec c : Decision (is_printable c).
Proof. unfold is_printable. apply _. Defined.

(** The number a digit string denotes, continuing from [v]. *)
Definition decimal_value (v : Z) (ds : bytes) : Z :=
  foldl (λ v c, v * 10 + (u8 c - 48)) v ds.

(** ** Lemmas *)

Lemma decimal_value_mono ds v : 0 <= v → Forall is_digit ds → v <= decimal_value v ds.
Proof.
  revert v. induction ds as [|c ds IH]; intros v Hv Hd; simpl; [lia|].
  apply Forall_cons in Hd as [Hc Hd]. unfold is_digit in Hc.
  specialize (IH (v * 10 + (u8 c - 48)) ltac:(lia) Hd).
  unfold decimal_value in *. lia.
Qed.

(** The overflow test is exact: the next value does not fit 64 bits. *)
Lemma overflow_test v ch :
  0 <= v < 2 ^ 64 → 48 <= ch <= 57 →
  ((kMaxUint64 / 10 <? v) || ((v =? kMaxUint64 / 10) && (kLastDigitOfMaxUint64 <? ch)))
  = negb (v * 10 + (ch - 48) <? 2 ^ 64).
Proof.
  intros Hv Hc. change (kMaxUint64 / 10) with 1844674407370955161.
  change kLastDigitOfMaxUint64 with 53. change (2 ^ 64) with 18446744073709551616 in *.
  destruct (Z.ltb_spec 1844674407370955161 v), (Z.eqb_spec v 1844674407370955161),
    (Z.ltb_spec 53 ch), (Z.ltb_spec (v * 10 + (ch - 48)) 18446744073709551616); simpl; lia.
Qed.

Lemma consume_loop_spec ds rest v n :
  Forall is_digit ds → match rest with c :: _ => ¬ is_digit c | [] => True end →
  0 <= v < 2 ^ 64 →
  consume_loop (ds ++ rest) v n
  = if decide (decimal_value v ds < 2 ^ 64)
    then Some (decimal_value v ds, (n + length ds)%nat) else None.
Proof.
  revert v n. induction ds as [|c ds IH]; intros v n Hd Hr Hv; simpl.
  - rewrite decide_True by lia. rewrite Nat.add_0_r. destruct rest as [|c rest]; [done|].
    simpl. unfold is_digit in Hr.
    destruct (Z.ltb_spec (u8 c) 48), (Z.ltb_spec 57 (u8 c)); simpl; try done. lia.
  - apply Forall_cons in Hd as [Hc Hd]. unfold is_digit in Hc.
    rewrite (proj2 (Z.ltb_ge (u8 c) 48)), (proj2 (Z.ltb_ge 57 (u8 c))) by lia. simpl.
    rewrite overflow_test by done.
    destruct (Z.ltb_spec (v * 10 + (u8 c - 48)) (2 ^ 64)) as [Hlt|Hge]; simpl.
    + rewrite u64_small by lia. rewrite IH by (done || lia).
      case_decide; [|done]. do 2 f_equal. lia.
    + rewrite decide_False; [done|].
      pose proof (decimal_value_mono ds (v * 10 + (u8 c - 48)) ltac:(lia) Hd). lia.
Qed.

(** Every string is a maximal digit prefix and a rest. *)
Lemma digit_prefix (s : bytes) :
  ∃ ds rest, s = ds ++ rest ∧ Forall is_digit ds
    ∧ match rest with c :: _ => ¬ is_digit c | [] => True end.
Proof.
  induction s as [|c s (ds & rest & -> & Hd & Hr)]; [by exists [], []|].
  destruct (decide (is_digit c)).
  - exists (c :: ds), rest. split_and!; [done| |done]. by constructor.
  - exists [], (c :: ds ++ rest). done.
Qed.

Lemma ConsumeDecimalNumber_spec ds rest :
  Forall is_digit ds → match rest with c :: _ => ¬ is_digit c | [] => True end →
  ConsumeDecimalNumber (ds ++ rest)
  = Some (if decide (decimal_value 0 ds < 2 ^ 64)
          then {| consumed_ok := negb (length ds =? 0)%nat;
                  consumed_val := Some (decimal_value 0 ds); consumed_in := rest |}
          else {| consumed_ok := false; consumed_val := None; consumed_in := ds ++ rest |}).
Proof.
  intros Hd Hr. unfold ConsumeDecimalNumber. rewrite consume_loop_spec by (done || lia).
  case_decide; [|done]. unfold remove_prefix. simpl.
  rewrite (proj2 (Nat.leb_le _ _)) by (rewrite length_app; lia).
  simpl. by rewrite drop_app_length.
Qed.

Lemma decimal_value_app v a b : decimal_value v (a ++ b) = decimal_value (decimal_value v a) b.
Proof. apply foldl_app. Qed.

Lemma u8_digit n : 0 <= n < 10 → u8 (byte_of (48 + n)) = 48 + n.
Proof. intros. rewrite u8_byte_of. apply Z.mod_small. lia. Qed.

Lemma decimal_loop_spec fuel n acc :
  0 <= n < 10 ^ Z.of_nat fuel → (0 < fuel)%nat →
  ∃ ds, decimal_loop fuel n acc = ds ++ acc ∧ Forall is_digit ds ∧ (0 < length ds ≤ fuel)%nat
    ∧ decimal_value 0 ds = n.
Proof.
  revert n acc. induction fuel as [|fuel IH]; intros n acc Hn Hf; [lia|].
  pose proof (Z.mod_pos_bound n 10 ltac:(lia)).
  assert (Hdig : is_digit (byte_of (48 + n mod 10))) by (unfold is_digit; rewrite u8_digit; lia).
  simpl. destruct (Z.ltb_spec n 10).
  - exists [byte_of (48 + n mod 10)]. split_and!; [done|by constructor|simpl; lia..|].
    unfold decimal_value. simpl. rewrite u8_digit, Z.mod_small by lia. lia.
  - rewrite Nat2Z.inj_succ, Z.pow_succ_r in Hn by lia.
    destruct (IH (n / 10) (byte_of (48 + n mod 10) :: acc)) as (ds & -> & Hd & Hl & Hv).
    + split; lia_div.
    + destruct fuel; [change (10 ^ Z.of_nat 0) with 1 in Hn|]; lia.
    + exists (ds ++ [byte_of (48 + n mod 10)]). rewrite <- app_assoc. split_and!; [done| | | |].
      * apply Forall_app; split; [done|by constructor].
      * rewrite length_app. simpl. lia.
      * rewrite length_app. simpl. lia.
      * rewrite decimal_value_app, Hv. unfold decimal_value. simpl. rewrite u8_digit by lia.
        pose proof (Z.div_mod n 10). lia.
Qed.

Lemma digits_length k n acc :
  (0 < k)%nat → 0 <= n < 10 ^ Z.of_nat k → ∀ fuel, (length (decimal_loop fuel n acc) ≤ k + length acc)%nat.
Proof.
  revert n acc. induction k as [|k IH]; intros n acc Hk Hn fuel; [lia|].
  destruct fuel as [|fuel]; cbn [decimal_loop]; [lia|].
  destruct (Z.ltb_spec n 10); [cbn [length]; lia|].
  destruct (decide (k = 0)%nat) as [->|]; [lia|].
  rewrite Nat2Z.inj_succ, Z.pow_succ_r in Hn by lia.
  etransitivity; [apply (IH (n / 10)); [lia|lia_div]|]. cbn [length]. lia.
Qed.

Lemma NumberToString_spec n :
  0 <= n < 2 ^ 64 →
  ∃ ds, NumberToString n = Some ds ∧ Forall is_digit ds ∧ (0 < length ds ≤ 20)%nat
    ∧ decimal_value 0 ds = n.
Proof.
  intros Hn. unfold NumberToString, AppendNumberTo, print_llu.
  destruct (decimal_loop_spec 20 n []) as (ds & -> & Hd & Hl & Hv); [|lia|].
  { change (10 ^ _) with 100000000000000000000. lia. }
  rewrite app_nil_r. rewrite (proj2 (Nat.ltb_lt _ _)) by lia. eauto 10.
Qed.

Lemma AppendEscapedStringTo_eq str value :
  AppendEscapedStringTo str value = str ++ (value ≫= escape_char).
Proof.
  revert str. induction value as [|c value IH]; intros; simpl; [by rewrite app_nil_r|].
  by rewrite IH, <- app_assoc.
Qed.

Lemma EscapeString_eq value : EscapeString value = value ≫= escape_char.
Proof. apply AppendEscapedStringTo_eq. Qed.

Lemma escape_char_cases c :
  (is_printable c ∧ escape_char c = [c])
  ∨ (¬ is_printable c ∧ escape_char c = str "\x" ++ print_02x (u8 c)).
Proof.
  unfold escape_char, is_printable, s8. pose proof (u8_range c).
  destruct (Z.ltb_spec (u8 c) 128) as [H1|H1].
  - destruct (Z.leb_spec 32 (u8 c)), (Z.leb_spec (u8 c) 126); simpl; [left; split; [lia|done]|right..];
      (split; [lia|]); rewrite (Z.mod_small _ (2 ^ 32)), land_255, Z.mod_small by lia; done.
  - right. rewrite (proj2 (Z.leb_gt _ _)) by lia. simpl. split; [lia|].
    assert (E : ((u8 c - 256) mod 2 ^ 32) mod 256 = u8 c).
    { change (2 ^ 32) with 4294967296. lia_div. }
    by rewrite land_255, E.
Qed.

Lemma hex_digit_printable n : 0 <= n < 16 → is_printable (hex_digit n).
Proof.
  intros. unfold is_printable, hex_digit. rewrite u8_byte_of.
  destruct (Z.ltb_spec n 10); rewrite Z.mod_small by lia; lia.
Qed.

Lemma escape_char_printable c : Forall is_printable (escape_char c).
Proof.
  destruct (escape_char_cases c) as [[H ->]|[_ ->]]; [by constructor|].
  pose proof (u8_range c). apply Forall_app. split.
  - apply (bool_decide_unpack _). vm_compute. exact I.
  - unfold print_02x. repeat apply Forall_cons_2; [..|apply Forall_nil_2];
      apply hex_digit_printable; lia_div.
Qed.

(** ** Properties *)

(** C30: [ConsumeDecimalNumber] on every input: with [ds] the longest prefix of
    digits, if its value fits 64 bits the value is stored, exactly the digits
    are consumed, and the result is true iff there was a digit; if it does not
    fit, the call returns false and changes neither the input nor [*val]. *)
Theorem ConsumeDecimalNumber_correct input :
  ∃ ds rest, input = ds ++ rest ∧ Forall is_digit ds
    ∧ match rest with c :: _ => ¬ is_digit c | [] => True end
    ∧ ConsumeDecimalNumber input
      = Some (if decide (decimal_value 0 ds < 2 ^ 64)
              then {| consumed_ok := negb (length ds =? 0)%nat;
                      consumed_val := Some (decimal_value 0 ds); consumed_in := rest |}
              else {| consumed_ok := false; consumed_val := None; consumed_in := input |}).
Proof.
  destruct (digit_prefix input) as (ds & rest & -> & Hd & Hr).
  exists ds, rest. split_and!; auto using ConsumeDecimalNumber_spec.
Qed.

(** Printing a 64-bit number never overruns the buffer, and parsing the
    text back, whatever non-digit follows it, returns the number and the rest. *)
Theorem number_roundtrip n rest :
  0 <= n < 2 ^ 64 → match rest with c :: _ => ¬ is_digit c | [] => True end →
  ∃ s, NumberToString n = Some s ∧ (length s ≤ 20)%nat
    ∧ ConsumeDecimalNumber (s ++ rest)
      = Some {| consumed_ok := true; consumed_val := Some n; consumed_in := rest |}.
Proof.
  intros Hn Hr. destruct (NumberToString_spec n Hn) as (ds & E & Hd & Hl & Hv).
  exists ds. split; [done|]. split; [lia|].
  rewrite ConsumeDecimalNumber_spec by done. rewrite decide_True by lia.
  rewrite Hv. by destruct ds; [simpl in Hl; lia|].
Qed.

(** [EscapeString] yields only printable characters, keeps a string as it
    is exactly when it was printable already, and escapes each character on its
    own (a concatenation escapes to the concatenation). *)
Theorem EscapeString_correct a b :
  Forall is_printable (EscapeString a)
  ∧ (EscapeString a = a ↔ Forall is_printable a)
  ∧ EscapeString (a ++ b) = EscapeString a ++ EscapeString b.
Proof.
  rewrite !EscapeString_eq. split_and!.
  - induction a as [|c a IH]; simpl; [done|].
    apply Forall_app; auto using escape_char_printable.
  - split.
    + intros E. rewrite <- E. clear E. induction a as [|c a IH]; simpl; [done|].
      apply Forall_app; auto using escape_char_printable.
    + induction 1 as [|c a Hc _ IH]; [done|]. rewrite bind_cons, IH.
      by destruct (escape_char_cases c) as [[_ ->]|[? _]].
  - apply bind_app.
Qed.

Lemma number_roundtrip_witness :
  ∃ s, NumberToString (2 ^ 64 - 1) = Some s ∧ (length s ≤ 20)%nat
    ∧ ConsumeDecimalNumber (s ++ str " x")
      = Some {| consumed_ok := true; consumed_val := Some (2 ^ 64 - 1); consumed_in := str " x" |}.
Proof. apply (number_roundtrip (2 ^ 64 - 1) (str " x")); [lia|vm_compute; intuition discriminate]. Defined.
