(* ===== verification/Status.v ===== *)
(** Results of operations: include/status.h and util/status.cc.

    A status is its [state_]: null for OK, otherwise the array holding the
    message length, the code and the message.  The first part works on the
    array contents; the second on a heap of arrays with pointers to them, for
    the operations that manage ownership (copies, moves, destruction). *)
From S2P Require Import Prelude Coding Logging.
Local Open Scope Z_scope.

Inductive Code :=
  | kOk | kNotFound | kCorruption | kNotSupported | kInvalidArgument | kIOError.
#[global] Instance Code_eq_dec : EqDecision Code.
Proof. solve_decision. Defined.

(** The enumerators' values. *)
Definition Code_value (c : Code) : Z :=
  match c with
  | kOk => 0 | kNotFound => 1 | kCorruption => 2 | kNotSupported => 3
  | kInvalidArgument => 4 | kIOError => 5
  end.

(** ** Array contents *)

(** [const char* state_] by what it points to. *)
Definition Status := option bytes.

Definition OK : Status := None.
Definition ok (s : Status) : bool := bool_decide (s = None).

(** [Status(Code, msg, msg2)]; [memcpy] of [size] copies its host (little
    endian) representation, and [size + 5] is 32-bit arithmetic. *)
Definition Status_new (c : Code) (msg msg2 : bytes) : option Status :=
  ASSERT (negb (bool_decide (c = kOk)));
  let len1 := u32 (Z.of_nat (length msg)) in
  let len2 := u32 (Z.of_nat (length msg2)) in
  let size := u32 (len1 + (if len2 =? 0 then 0 else u32 (2 + len2))) in
  let result := char_array (Z.to_nat (u32 (size + 5))) in
  result ← memcpy result 0 (le_bytes 4 size);
  result ← store result 4 (byte_of (Code_value c));
  result ← memcpy result 5 (take (Z.to_nat len1) msg);
  if len2 =? 0 then Some (Some result)
  else
    result ← store result (5 + Z.to_nat len1) (byte_of 58);
    result ← store result (6 + Z.to_nat len1) (byte_of 32);
    result ← memcpy result (7 + Z.to_nat len1) (take (Z.to_nat len2) msg2);
    Some (Some result).

Definition NotFound (msg msg2 : bytes) : option Status := Status_new kNotFound msg msg2.
Definition Corruption (msg msg2 : bytes) : option Status := Status_new kCorruption msg msg2.
Definition NotSupported (msg msg2 : bytes) : option Status := Status_new kNotSupported msg msg2.
Definition InvalidArgument (msg msg2 : bytes) : option Status :=
  Status_new kInvalidArgument msg msg2.
Definition IOError (msg msg2 : bytes) : option Status := Status_new kIOError msg msg2.

(** [code()] as the integer the enumeration is compared and printed by. *)
Definition code (s : Status) : option Z :=
  match s with
  | None => Some (Code_value kOk)
  | Some st => c ← load st 4; Some (s8 c)
  end.

Definition is_code (c : Code) (s : Status) : option bool :=
  v ← code s; Some (v =? Code_value c).
Definition IsNotFound : Status → option bool := is_code kNotFound.
Definition IsCorruption : Status → option bool := is_code kCorruption.
Definition IsIOError : Status → option bool := is_code kIOError.
Definition IsNotSupportedError : Status → option bool := is_code kNotSupported.
Definition IsInvalidArgument : Status → option bool := is_code kInvalidArgument.

(** [%d] *)
Definition print_d (z : Z) : bytes :=
  if z <? 0 then str "-" ++ print_llu (- z) else print_llu z.

(** The text the switch chooses. *)
Definition code_text (v : Z) : option bytes :=
  if v =? 0 then Some (str "OK")
  else if v =? 1 then Some (str "NotFound: ")
  else if v =? 2 then Some (str "Corruption: ")
  else if v =? 3 then Some (str "Not implemented: ")
  else if v =? 4 then Some (str "Invalid argument: ")
  else if v =? 5 then Some (str "IO error: ")
  else
    let tmp := str "Unknown code(" ++ print_d v ++ str "): " in
    ASSERT (length tmp <? 30)%nat; Some tmp.

Definition ToString (s : Status) : option bytes :=
  match s with
  | None => Some (str "OK")
  | Some st =>
      v ← code s; type ← code_text v;
      len ← load_range st 0 4;
      m ← load_range st 5 (Z.to_nat (le_value len));
      Some (type ++ m)
  end.

(** ** Ownership

    Status objects own their arrays: the heap maps the addresses of live
    arrays to their contents and a [Status] object is its pointer. *)
Definition heap := gmap nat bytes.
Definition ptr := option nat.

(** [new char[n]] of the given contents, and [delete[]]: deleting null does
    nothing, deleting an array that is not live is a fault. *)
Definition new_array (h : heap) (bs : bytes) : heap * nat :=
  let l := fresh (dom h) in (<[l := bs]> h, l).
Definition delete_array (h : heap) (p : ptr) : option heap :=
  match p with
  | None => Some h
  | Some l => if h !! l is Some _ then Some (delete l h) else None
  end.

Definition CopyState (h : heap) (state : nat) : option (heap * nat) :=
  st ← h !! state;
  len ← load_range st 0 4;
  let n := Z.to_nat (u32 (le_value len + 5)) in
  src ← load_range st 0 n;
  result ← memcpy (char_array n) 0 src;
  Some (new_array h result).

(** The constructors, [operator=] and the destructor; [Status_move] also
    returns the new state of its argument. *)
Definition Status_copy (h : heap) (rhs : ptr) : option (heap * ptr) :=
  match rhs with
  | None => Some (h, None)
  | Some l => '(h, l') ← CopyState h l; Some (h, Some l')
  end.

Definition Status_move (rhs : ptr) : ptr * ptr := (rhs, None).

Definition Status_assign (h : heap) (self rhs : ptr) : option (heap * ptr) :=
  if bool_decide (self ≠ rhs) then h ← delete_array h self; Status_copy h rhs
  else Some (h, self).

Definition Status_move_assign (self rhs : ptr) : ptr * ptr := (rhs, self).

Definition Status_destroy (h : heap) (self : ptr) : option heap := delete_array h self.

Example ToString_example :
  (s ← NotFound (str "key") (str "db"); ToString s) = Some (str "NotFound: key: db").
Proof. vm_compute. reflexivity. Qed.
Example ToString_unknown :
  ToString (Some [x00; x00; x00; x00; xfe]) = Some (str "Unknown code(-2): ").
Proof. vm_compute. reflexivity. Qed.

(** ** Specification *)

Definition full_msg (msg msg2 : bytes) : bytes :=
  msg ++ match msg2 with [] => [] | _ => str ": " ++ msg2 end.

(** The layout: length, code, message. *)
Definition state_of (c : Code) (m : bytes) : bytes :=
  le_bytes 4 (Z.of_nat (length m)) ++ byte_of (Code_value c) :: m.

(** A message fits the 32-bit length field and the array size. *)
Definition msg_fits (msg msg2 : bytes) : Prop :=
  Z.of_nat (length msg) + Z.of_nat (length msg2) + 7 < 2 ^ 32.

Definition type_text (c : Code) : bytes :=
  match c with
  | kOk => str "OK" | kNotFound => str "NotFound: " | kCorruption => str "Corruption: "
  | kNotSupported => str "Not implemented: " | kInvalidArgument => str "Invalid argument: "
  | kIOError => str "IO error: "
  end.

Lemma char_array_app n m : char_array (n + m) = char_array n ++ char_array m.
Proof. apply replicate_add. Qed.
Lemma length_char_array n : length (char_array n) = n.
Proof. apply length_replicate. Qed.

Lemma length_full_msg m1 m2 :
  Z.of_nat (length (full_msg m1 m2))
  = Z.of_nat (length m1) + (if Z.of_nat (length m2) =? 0 then 0 else 2 + Z.of_nat (length m2)).
Proof.
  unfold full_msg. rewrite length_app. destruct m2 as [|b m2].
  { change (Z.of_nat (length (@nil byte)) =? 0) with true.
    change (length (@nil byte)) with 0%nat. lia. }
  rewrite length_app. change (length (str ": ")) with 2%nat.
  destruct (Z.eqb_spec (Z.of_nat (length (b :: m2))) 0); cbn [length] in *; lia.
Qed.

Lemma Status_new_eq c m1 m2 :
  c ≠ kOk → msg_fits m1 m2 →
  Status_new c m1 m2 = Some (Some (state_of c (full_msg m1 m2))).
Proof.
  unfold msg_fits. intros Hc Hm. unfold Status_new. rewrite bool_decide_eq_false_2 by done.
  cbn [negb]. rewrite !(u32_small (Z.of_nat (length _))) by lia.
  rewrite (u32_small (2 + _)) by lia.
  pose proof (length_full_msg m1 m2) as Hl. rewrite <- Hl.
  assert (Z.of_nat (length (full_msg m1 m2)) + 5 < 2 ^ 32).
  { rewrite Hl. destruct (_ =? _); lia. }
  rewrite !(u32_small (Z.of_nat (length (full_msg m1 m2)))) by lia.
  rewrite (u32_small (_ + 5)) by lia. unfold state_of.
  set (hd := le_bytes 4 (Z.of_nat (length (full_msg m1 m2)))).
  set (cd := byte_of (Code_value c)).
  assert (length hd = 4%nat) as Hhd by apply length_le_bytes. clearbody hd.
  rewrite !Nat2Z.id, !firstn_all.
  replace (Z.to_nat (Z.of_nat (length (full_msg m1 m2)) + 5))
    with (4 + (1 + length (full_msg m1 m2)))%nat by lia.
  rewrite !char_array_app, memcpy_app_0 by done. cbn [mbind option_bind].
  change (char_array 1) with [x00]. cbn [app].
  rewrite store_at by done. cbn [mbind option_bind].
  replace (hd ++ cd :: full_msg m1 m2) with ((hd ++ [cd]) ++ full_msg m1 m2)
    by (by rewrite <- (assoc_L (++))).
  assert (length (hd ++ [cd]) = 5%nat) as Hh by (rewrite length_app; cbn; lia).
  revert Hh. generalize (hd ++ [cd]) as h. clear. intros h Hh.
  destruct m2 as [|b m2].
  { unfold full_msg. cbn [length Z.of_nat Z.eqb]. rewrite app_nil_r.
    rewrite <- (app_nil_r (char_array _)), <- (app_nil_r m1) at 1.
    rewrite memcpy_app by (rewrite ?length_char_array, ?app_nil_r; lia).
    cbn [mbind option_bind]. by rewrite app_nil_r. }
  destruct (Z.eqb_spec (Z.of_nat (length (b :: m2))) 0); [cbn [length] in *; lia|].
  revert n. unfold full_msg. generalize (b :: m2) as m. intros m _.
  replace (length (m1 ++ str ": " ++ m)) with (length m1 + (1 + (1 + length m)))%nat
    by (rewrite !length_app; cbn [length str]; done).
  rewrite !char_array_app, memcpy_app by (rewrite ?length_char_array; lia).
  change (char_array 1) with [x00]. cbn [mbind option_bind app].
  rewrite (assoc_L (++) h), store_at by (rewrite length_app; lia).
  cbn [mbind option_bind]. rewrite store_at by (rewrite !length_app; cbn [length]; lia).
  cbn [mbind option_bind]. rewrite <- (app_nil_r (char_array _)).
  rewrite memcpy_app by (rewrite ?length_char_array, ?length_app; cbn [length]; lia).
  cbn [mbind option_bind]. rewrite app_nil_r, <- !(assoc_L (++)). done.
Qed.

Lemma load_range_at pre m post p n :
  p = length pre → n = length m → load_range (pre ++ m ++ post) p n = Some m.
Proof. intros -> ->. apply load_range_app. Qed.

Lemma state_length c m : length (state_of c m) = (5 + length m)%nat.
Proof. unfold state_of. rewrite length_app, length_le_bytes. cbn [length]. lia. Qed.

(** Reading the fields of a well-formed array back. *)
Lemma state_fields c m :
  Z.of_nat (length m) < 2 ^ 32 →
  (∃ len, load_range (state_of c m) 0 4 = Some len ∧ le_value len = Z.of_nat (length m))
  ∧ load (state_of c m) 4 = Some (byte_of (Code_value c))
  ∧ load_range (state_of c m) 5 (length m) = Some m.
Proof.
  intros Hm. unfold state_of. set (hd := le_bytes 4 _).
  assert (length hd = 4%nat) as Hhd by apply length_le_bytes. split_and!.
  - exists hd. split.
    + by apply (load_range_at [] hd).
    + subst hd. rewrite le_value_le_bytes. apply Z.mod_small. lia.
  - unfold load. rewrite lookup_app_r, Hhd by lia. done.
  - rewrite (cons_middle _ hd m), (assoc_L (++)). rewrite <- (app_nil_r m) at 1.
    apply load_range_at; [rewrite length_app; cbn [length]; lia|done].
Qed.

Lemma code_state c m : code (Some (state_of c m)) = Some (Code_value c).
Proof.
  unfold code, load, state_of. rewrite lookup_app_r by (rewrite length_le_bytes; lia).
  rewrite length_le_bytes. by destruct c.
Qed.

(** A status built by any of the factory functions is not OK, carries its
    code — exactly the matching predicate answers true — and prints as the
    code's text followed by [msg], and by [": " msg2] unless [msg2] is empty;
    the OK status prints "OK".  No write leaves the array, whatever the two
    messages, as long as their length fits the 32-bit length field. *)
Theorem Status_correct c msg msg2 :
  c ≠ kOk → msg_fits msg msg2 →
  (∃ s, Status_new c msg msg2 = Some s
    ∧ ok s = false
    ∧ ToString s = Some (type_text c ++ full_msg msg msg2)
    ∧ ∀ c', is_code c' s = Some (bool_decide (c' = c)))
  ∧ ok OK = true ∧ ToString OK = Some (type_text kOk)
  ∧ ∀ c', is_code c' OK = Some (bool_decide (c' = kOk)).
Proof.
  intros Hc Hfit. split.
  - rewrite Status_new_eq by done. eexists. split; [done|].
    assert (Z.of_nat (length (full_msg msg msg2)) < 2 ^ 32) as Hl.
    { unfold msg_fits in Hfit. rewrite length_full_msg. destruct (_ =? _); lia. }
    split; [done|]. split.
    + unfold ToString. rewrite code_state. cbn [mbind option_bind].
      destruct (state_fields c _ Hl) as ((len & -> & Hlen) & _ & Hm).
      replace (code_text (Code_value c)) with (Some (type_text c)) by (by destruct c).
      cbn [mbind option_bind]. by rewrite Hlen, Nat2Z.id, Hm.
    + intros c'. unfold is_code. rewrite code_state. cbn [mbind option_bind].
      by destruct c, c'.
  - split_and!; [done..|]. by intros [].
Qed.

Lemma Status_correct_witness :
  (∃ s, Status_new kIOError (str "lock db") (str "held") = Some s
    ∧ ok s = false
    ∧ ToString s = Some (type_text kIOError ++ full_msg (str "lock db") (str "held"))
    ∧ ∀ c', is_code c' s = Some (bool_decide (c' = kIOError)))
  ∧ ok OK = true ∧ ToString OK = Some (type_text kOk)
  ∧ ∀ c', is_code c' OK = Some (bool_decide (c' = kOk)).
Proof. apply (Status_correct kIOError (str "lock db") (str "held")); done. Defined.

(** ** Ownership *)

(** A pointer and the value it stands for. *)
Definition represents (h : heap) (p : ptr) (v : Status) : Prop :=
  match p, v with
  | None, None => True
  | Some l, Some st => h !! l = Some st
  | _, _ => False
  end.

Definition state_wf (st : bytes) : Prop :=
  ∃ c m, st = state_of c m ∧ Z.of_nat (length m) + 5 < 2 ^ 32.

Definition Status_wf (v : Status) : Prop := if v is Some st then state_wf st else True.

Lemma CopyState_eq h l st :
  h !! l = Some st → state_wf st →
  CopyState h l = Some (<[fresh (dom h) := st]> h, fresh (dom h)).
Proof.
  intros Hl (c & m & -> & Hm). unfold CopyState. rewrite Hl. cbn [mbind option_bind].
  destruct (state_fields c m) as ((len & -> & Hlen) & _); [lia|]. cbn [mbind option_bind].
  rewrite Hlen, u32_small by lia.
  replace (Z.to_nat (Z.of_nat (length m) + 5)) with (length (state_of c m))
    by (rewrite state_length; lia).
  rewrite load_range_0. cbn [mbind option_bind].
  rewrite <- (app_nil_r (char_array _)), memcpy_app_0 by apply length_char_array.
  cbn [mbind option_bind]. by rewrite app_nil_r.
Qed.

Lemma Status_copy_eq h rhs w :
  represents h rhs w → Status_wf w →
  ∃ h' p, Status_copy h rhs = Some (h', p) ∧ represents h' p w
    ∧ (∀ l, Some l ≠ p → h' !! l = h !! l)
    ∧ (∀ l, p = Some l → h !! l = None).
Proof.
  destruct rhs as [l|], w as [st|]; cbn; try done; intros Hl Hw.
  - rewrite (CopyState_eq h l st) by done. cbn [mbind option_bind].
    do 2 eexists. split; [done|]. split_and!.
    + apply lookup_insert_eq.
    + intros k Hk. apply lookup_insert_ne. congruence.
    + intros k [= <-]. apply not_elem_of_dom, is_fresh.
  - exists h, None. split_and!; done.
Qed.

Lemma represents_ne h h' p w q :
  represents h p w → (∀ l, Some l ≠ q → h' !! l = h !! l) → (q = p → p = None) →
  represents h' p w.
Proof.
  destruct p as [l|], w as [st|]; cbn; try done. intros Hl Heq Hq.
  rewrite Heq; [done|]. intros E. by specialize (Hq (eq_sym E)).
Qed.

(** Copy assignment gives the target the value of its argument and leaves
    the argument as it was, frees the array the target owned, shares no array
    between two distinct objects, touches no other array, and is the identity
    on self-assignment; afterwards the target can be destroyed without a
    double free and without affecting the argument. *)
Theorem Status_assign_correct h self rhs v w :
  represents h self v → represents h rhs w → Status_wf w →
  ∃ h' self', Status_assign h self rhs = Some (h', self')
    ∧ represents h' self' w ∧ represents h' rhs w
    ∧ (∀ l, Some l ≠ self → Some l ≠ self' → h' !! l = h !! l)
    ∧ (self = rhs → h' = h ∧ self' = self)
    ∧ (self ≠ rhs →
         (self' = rhs → rhs = None)
         ∧ (∀ l, self = Some l → self' ≠ Some l → h' !! l = None)
         ∧ ∃ h'', Status_destroy h' self' = Some h'' ∧ represents h'' rhs w
             ∧ ∀ l, self' = Some l → h'' !! l = None).
Proof.
  intros Hs Hr Hw. unfold Status_assign. case_bool_decide as Hne.
  2: { assert (self = rhs) as <- by (destruct (decide (self = rhs)); tauto).
       do 2 eexists. split; [done|]. split_and!; try done. }
  destruct (delete_array h self) as [h1|] eqn:Hdel.
  2: { destruct self as [l|], v as [st|]; cbn in *; try done. by rewrite Hs in Hdel. }
  assert (∀ l, Some l ≠ self → h1 !! l = h !! l) as Hh1.
  { intros k Hk. destruct self as [l|]; cbn in Hdel; [|congruence].
    destruct (h !! l); simplify_eq. apply lookup_delete_ne. congruence. }
  assert (∀ l, self = Some l → h1 !! l = None) as Hfree.
  { intros k ->. cbn in Hdel. destruct (h !! k); simplify_eq. apply lookup_delete_eq. }
  assert (represents h1 rhs w) as Hr1 by (by apply (represents_ne h h1 rhs w self)).
  destruct (Status_copy_eq h1 rhs w Hr1 Hw) as (h' & p & Hcp & Hp & Heq & Hnew).
  cbn [mbind option_bind]. rewrite Hcp.
  assert (p = rhs → rhs = None) as Hpr.
  { intros ->. destruct rhs as [l|], w as [st|]; cbn in *; try done.
    rewrite (Hnew l eq_refl) in Hr1. done. }
  assert (represents h' rhs w) as Hr' by (by apply (represents_ne h1 h' rhs w p)).
  do 2 eexists. split; [done|]. split_and!; [done..| |done|].
  { intros l Hl Hl'. by rewrite Heq, Hh1. }
  intros _. split_and!; [done| |].
  { intros l Hl Hl'. rewrite Heq by congruence. by apply Hfree. }
  unfold Status_destroy. destruct p as [l|]; cbn.
  - destruct w as [st|]; [|done]. cbn in Hp. rewrite Hp. eexists. split; [done|]. split.
    + apply (represents_ne h' _ rhs _ (Some l)); [done| |done].
      intros k Hk. apply lookup_delete_ne. congruence.
    + intros k [= <-]. apply lookup_delete_eq.
  - eexists. split_and!; [done..|]. discriminate.
Qed.

Lemma Status_assign_correct_witness :
  let st := state_of kNotFound (str "a") in
  let st' := state_of kIOError (str "bc") in
  let h : heap := {[ 1%nat := st; 2%nat := st' ]} in
  ∃ h' self', Status_assign h (Some 1%nat) (Some 2%nat) = Some (h', self')
    ∧ represents h' self' (Some st') ∧ represents h' (Some 2%nat) (Some st')
    ∧ (∀ l, Some l ≠ Some 1%nat → Some l ≠ self' → h' !! l = h !! l)
    ∧ (Some 1%nat = Some 2%nat → h' = h ∧ self' = Some 1%nat)
    ∧ (Some 1%nat ≠ Some 2%nat →
         (self' = Some 2%nat → Some 2%nat = None)
         ∧ (∀ l, Some 1%nat = Some l → self' ≠ Some l → h' !! l = None)
         ∧ ∃ h'', Status_destroy h' self' = Some h'' ∧ represents h'' (Some 2%nat) (Some st')
             ∧ ∀ l, self' = Some l → h'' !! l = None).
Proof.
  apply (Status_assign_correct _ (Some 1%nat) (Some 2%nat)
           (Some (state_of kNotFound (str "a"))) (Some (state_of kIOError (str "bc"))));
    [reflexivity|reflexivity|].
  exists kIOError, (str "bc"). split; [reflexivity|]. vm_compute. reflexivity.
Defined.
