(* ===== verification/DbFormat.v ===== *)
(** Internal keys: db/dbformat.h and db/dbformat.cc.

    An internal key is [user key | (sequence << 8 | type) as 8 little-endian
    bytes].  [InternalKeyComparator] and [InternalFilterPolicy] wrap a user
    comparator and a user policy; both are proved against the interfaces'
    laws. *)
From S2P Require Import Prelude Slice Coding Comparator Bloom Logging.
Local Open Scope Z_scope.

Inductive ValueType := kTypeDeletion | kTypeValue.

(** The enumerators' values. *)
Definition ValueType_value (t : ValueType) : Z :=
  match t with kTypeDeletion => 0x0 | kTypeValue => 0x1 end.

Definition kValueTypeForSeek : Z := ValueType_value kTypeValue.
Definition kMaxSequenceNumber : Z := Z.shiftl 1 56 - 1.

(** [ptype] is the raw value: [ParseInternalKey] casts any byte to the enum. *)
Record ParsedInternalKey := { user_key : bytes; sequence : Z; ptype : Z }.

Definition InternalKeyEncodingLength (key : ParsedInternalKey) : nat :=
  (length (user_key key) + 8)%nat.

Definition PackSequenceAndType (seq t : Z) : option Z :=
  ASSERT seq <=? kMaxSequenceNumber;
  ASSERT t <=? kValueTypeForSeek;
  Some (Z.lor (u64 (Z.shiftl seq 8)) t).

Definition AppendInternalKey (result : bytes) (key : ParsedInternalKey) : option bytes :=
  packed ← PackSequenceAndType (sequence key) (ptype key);
  PutFixed64 (result ++ user_key key) packed.

(** The return value and, unless the key is too short, the fields stored. *)
Definition ParseInternalKey (internal_key : bytes) : option (bool * option ParsedInternalKey) :=
  let n := length internal_key in
  if (n <? 8)%nat then Some (false, None)
  else
    num ← DecodeFixed64 internal_key (n - 8);
    let c := Z.land num 0xff in
    Some (c <=? ValueType_value kTypeValue,
          Some {| sequence := Z.shiftr num 8; ptype := c;
                  user_key := take (n - 8) internal_key |}).

Definition ExtractUserKey (internal_key : bytes) : option bytes :=
  ASSERT (8 <=? length internal_key)%nat;
  Some (take (length internal_key - 8) internal_key).

(** ** [InternalKeyComparator] *)

Definition InternalKeyComparator_Compare (uc : Comparator) (akey bkey : bytes) : option Z :=
  ua ← ExtractUserKey akey; ub ← ExtractUserKey bkey;
  r ← Compare uc ua ub;
  if r =? 0 then
    anum ← DecodeFixed64 akey (length akey - 8);
    bnum ← DecodeFixed64 bkey (length bkey - 8);
    Some (if bnum <? anum then -1 else if anum <? bnum then 1 else r)
  else Some r.

(** [PutFixed64(&tmp, PackSequenceAndType(kMaxSequenceNumber, kValueTypeForSeek))] *)
Definition put_seek_tag (tmp : bytes) : option bytes :=
  packed ← PackSequenceAndType kMaxSequenceNumber kValueTypeForSeek;
  PutFixed64 tmp packed.

Definition InternalKeyComparator_FindShortestSeparator (uc : Comparator)
    (start limit : bytes) : option bytes :=
  user_start ← ExtractUserKey start; user_limit ← ExtractUserKey limit;
  tmp ← FindShortestSeparator uc user_start user_limit;
  if (length tmp <? length user_start)%nat then
    c ← Compare uc user_start tmp;
    if c <? 0 then
      tmp' ← put_seek_tag tmp;
      c1 ← InternalKeyComparator_Compare uc start tmp';
      ASSERT c1 <? 0;
      c2 ← InternalKeyComparator_Compare uc tmp' limit;
      ASSERT c2 <? 0;
      Some tmp'
    else Some start
  else Some start.

Definition InternalKeyComparator_FindShortSuccessor (uc : Comparator) (key : bytes)
    : option bytes :=
  ukey ← ExtractUserKey key;
  tmp ← FindShortSuccessor uc ukey;
  if (length tmp <? length ukey)%nat then
    c ← Compare uc ukey tmp;
    if c <? 0 then
      tmp' ← put_seek_tag tmp;
      c1 ← InternalKeyComparator_Compare uc key tmp';
      ASSERT c1 <? 0;
      Some tmp'
    else Some key
  else Some key.

Definition InternalKeyComparator (uc : Comparator) : Comparator := {|
  Name := str "leveldb.InternalKeyComparator";
  Compare := InternalKeyComparator_Compare uc;
  FindShortestSeparator := InternalKeyComparator_FindShortestSeparator uc;
  FindShortSuccessor := InternalKeyComparator_FindShortSuccessor uc
|}.

(** ** [InternalFilterPolicy]: it overwrites [keys] with the user keys. *)

Definition InternalFilterPolicy (up : FilterPolicy) : FilterPolicy := {|
  FilterName := FilterName up;
  CreateFilter := λ keys dst, mkey ← mapM ExtractUserKey keys; CreateFilter up mkey dst;
  KeyMayMatch := λ key f, ukey ← ExtractUserKey key; KeyMayMatch up ukey f
|}.

(** ** The class [InternalKey]: [rep_], empty when invalid *)

Definition InternalKey_new (ukey : bytes) (s : Z) (t : ValueType) : option bytes :=
  AppendInternalKey [] {| user_key := ukey; sequence := s; ptype := ValueType_value t |}.
Definition InternalKey_DecodeFrom (s : bytes) : bytes * bool := (s, negb (length s =? 0)%nat).
Definition InternalKey_Encode (rep : bytes) : option bytes :=
  ASSERT negb (length rep =? 0)%nat; Some rep.
Definition InternalKey_user_key (rep : bytes) : option bytes := ExtractUserKey rep.
Definition InternalKey_SetFrom (p : ParsedInternalKey) : option bytes := AppendInternalKey [] p.
Definition InternalKey_Clear : bytes := [].
Definition InternalKeyComparator_CompareKeys (uc : Comparator) (a b : bytes) : option Z :=
  a ← InternalKey_Encode a; b ← InternalKey_Encode b; InternalKeyComparator_Compare uc a b.

Definition ParsedInternalKey_DebugString (p : ParsedInternalKey) : option bytes :=
  Some (str "'" ++ EscapeString (user_key p) ++ str "' @ " ++ print_llu (sequence p)
        ++ str " : " ++ print_llu (ptype p)).

Definition InternalKey_DebugString (rep : bytes) : option bytes :=
  r ← ParseInternalKey rep;
  match r with
  | (true, Some parsed) => ParsedInternalKey_DebugString parsed
  | _ => Some (str "(bad)" ++ EscapeString rep)
  end.

(** ** [LookupKey]: the buffer ([space_] or the heap) and two offsets into it *)

Record LookupKey := {
  lk_buf : bytes; lk_on_heap : bool;
  kstart_ : nat; end_ : nat
}.

Definition LookupKey_new (ukey : bytes) (s : Z) : option LookupKey :=
  let usize := length ukey in
  let needed := (usize + 13)%nat in
  let on_heap := negb (needed <=? 200)%nat in
  let dst := char_array (if on_heap then needed else 200) in
  '(dst, kstart) ← EncodeVarint32 dst 0 (u32 (Z.of_nat usize + 8));
  dst ← memcpy dst kstart ukey;
  packed ← PackSequenceAndType s kValueTypeForSeek;
  dst ← EncodeFixed64 dst (kstart + usize) packed;
  Some {| lk_buf := dst; lk_on_heap := on_heap;
          kstart_ := kstart; end_ := (kstart + usize + 8)%nat |}.

Definition memtable_key (k : LookupKey) : bytes := take (end_ k) (lk_buf k).
Definition internal_key (k : LookupKey) : bytes := drop (kstart_ k) (take (end_ k) (lk_buf k)).
Definition LookupKey_user_key (k : LookupKey) : bytes :=
  take (end_ k - kstart_ k - 8) (drop (kstart_ k) (lk_buf k)).

(** ** Specification: the bytes of an internal key *)

Definition tag_of (seq : Z) (t : ValueType) : Z := seq * 256 + ValueType_value t.
Definition encode_internal (ukey : bytes) (seq : Z) (t : ValueType) : bytes :=
  ukey ++ le_bytes 8 (tag_of seq t).

Definition user_part (k : bytes) : bytes := take (length k - 8) k.
Definition tag_part (k : bytes) : Z := le_value (drop (length k - 8) k).

Definition internal_ok (ok : bytes → Prop) (k : bytes) : Prop :=
  (8 ≤ length k)%nat ∧ ok (user_part k).

Example LookupKey_bytes :
  memtable_key <$> LookupKey_new (str "ab") 5
  = Some (byte_of 10 :: str "ab" ++ [x01; x05; x00; x00; x00; x00; x00; x00]).
Proof. reflexivity. Qed.

Example DebugString_ex :
  InternalKey_DebugString (encode_internal (str "k") 12 kTypeValue) = Some (str "'k' @ 12 : 1").
Proof. reflexivity. Qed.

(** ** Encoding and parsing *)

Lemma Pack_eq seq t :
  0 <= seq <= kMaxSequenceNumber →
  PackSequenceAndType seq (ValueType_value t) = Some (tag_of seq t).
Proof.
  intros Hs. change kMaxSequenceNumber with (2 ^ 56 - 1) in *. unfold PackSequenceAndType, tag_of.
  change kMaxSequenceNumber with (2 ^ 56 - 1).
  rewrite (proj2 (Z.leb_le _ _)) by lia.
  assert (Ht : 0 <= ValueType_value t <= 1) by (destruct t; simpl; lia).
  rewrite (proj2 (Z.leb_le (ValueType_value t) _)) by (unfold kValueTypeForSeek; simpl; lia).
  rewrite Z.shiftl_mul_pow2, u64_small, Z.lor_comm, lor_mul_add by lia. f_equal. lia.
Qed.

Lemma tag_range seq t : 0 <= seq <= kMaxSequenceNumber → 0 <= tag_of seq t < 2 ^ 64.
Proof.
  intros Hs. change kMaxSequenceNumber with (2 ^ 56 - 1) in Hs.
  unfold tag_of. destruct t; simpl; lia.
Qed.

Lemma AppendInternalKey_eq result ukey seq t :
  0 <= seq <= kMaxSequenceNumber →
  AppendInternalKey result {| user_key := ukey; sequence := seq; ptype := ValueType_value t |}
  = Some (result ++ encode_internal ukey seq t).
Proof.
  intros Hs. unfold AppendInternalKey. simpl. rewrite Pack_eq by done. simpl.
  by rewrite PutFixed64_eq, <- app_assoc.
Qed.

Lemma ExtractUserKey_eq k : (8 ≤ length k)%nat → ExtractUserKey k = Some (user_part k).
Proof. intros. unfold ExtractUserKey. by rewrite (proj2 (Nat.leb_le _ _)). Qed.

Lemma length_tag (k : bytes) : (8 ≤ length k)%nat → length (drop (length k - 8) k) = 8%nat.
Proof. intros. rewrite length_drop. lia. Qed.

Lemma DecodeFixed64_tag k : (8 ≤ length k)%nat →
  DecodeFixed64 k (length k - 8) = Some (tag_part k).
Proof.
  intros H. pose proof (DecodeFixed64_app (user_part k) (drop (length k - 8) k) [] (length_tag k H)) as E.
  rewrite app_nil_r in E. unfold user_part in E. rewrite take_drop in E.
  by rewrite length_take, Nat.min_l in E by lia.
Qed.

Lemma user_part_app u tag : length tag = 8%nat → user_part (u ++ tag) = u.
Proof.
  intros H. unfold user_part. rewrite length_app, H.
  replace (length u + 8 - 8)%nat with (length u) by lia. apply take_app_length.
Qed.

Lemma tag_part_app u tag : length tag = 8%nat → tag_part (u ++ tag) = le_value tag.
Proof.
  intros H. unfold tag_part. rewrite length_app, H.
  replace (length u + 8 - 8)%nat with (length u) by lia. by rewrite drop_app_length.
Qed.

Lemma internal_split (k : bytes) : (8 ≤ length k)%nat → k = user_part k ++ le_bytes 8 (tag_part k).
Proof.
  intros H. unfold user_part, tag_part. pose proof (le_bytes_le_value (drop (length k - 8) k)) as E.
  rewrite length_tag in E by done. by rewrite E, take_drop.
Qed.

Lemma tag_part_range k : (8 ≤ length k)%nat → 0 <= tag_part k < 2 ^ 64.
Proof.
  intros H. pose proof (le_value_range (drop (length k - 8) k)) as R.
  rewrite length_tag in R by done. exact R.
Qed.

Lemma user_part_encode u seq t : user_part (encode_internal u seq t) = u.
Proof. apply user_part_app, length_le_bytes. Qed.

Lemma tag_part_encode u seq t :
  0 <= seq <= kMaxSequenceNumber → tag_part (encode_internal u seq t) = tag_of seq t.
Proof.
  intros Hs. unfold encode_internal. rewrite tag_part_app by apply length_le_bytes.
  rewrite le_value_le_bytes. apply Z.mod_small. by apply tag_range.
Qed.

Lemma length_encode_internal u seq t : length (encode_internal u seq t) = (length u + 8)%nat.
Proof. unfold encode_internal. by rewrite length_app, length_le_bytes. Qed.

Lemma ParseInternalKey_eq k : (8 ≤ length k)%nat →
  ParseInternalKey k
  = Some (tag_part k mod 256 <=? 1,
          Some {| sequence := tag_part k / 256; ptype := tag_part k mod 256;
                  user_key := user_part k |}).
Proof.
  intros H. unfold ParseInternalKey. rewrite (proj2 (Nat.ltb_ge _ _)) by done.
  rewrite DecodeFixed64_tag by done. simpl.
  rewrite Z.shiftr_div_pow2, land_255 by lia. done.
Qed.

(** ** The order on internal keys *)
Section internal_order.
Context (uc : Comparator) (ok : bytes → Prop) `{!OrderLaws uc ok}.
Let ikc := InternalKeyComparator uc.
Let iok := internal_ok ok.

Lemma ikc_Compare a b : (8 ≤ length a)%nat → (8 ≤ length b)%nat →
  Compare ikc a b =
    r ← Compare uc (user_part a) (user_part b);
    Some (if r =? 0 then (if tag_part b <? tag_part a then -1
                          else if tag_part a <? tag_part b then 1 else 0) else r).
Proof.
  intros Ha Hb. simpl. unfold InternalKeyComparator_Compare.
  rewrite !ExtractUserKey_eq by done. simpl.
  destruct (Compare uc _ _) as [r|]; simpl; [|done].
  destruct (Z.eqb_spec r 0) as [->|]; [|done].
  by rewrite !DecodeFixed64_tag by done.
Qed.

(** Smaller user key first; within a user key, larger tag (newer) first. *)
Lemma ikc_lt a b : iok a → iok b →
  cmp_lt ikc a b ↔
  cmp_lt uc (user_part a) (user_part b)
  ∨ (cmp_eqv uc (user_part a) (user_part b) ∧ tag_part b < tag_part a).
Proof.
  intros [Ha Hua] [Hb Hub]. unfold cmp_lt at 1. rewrite ikc_Compare by done.
  destruct (cmp_cases uc ok _ _ Hua Hub) as [(r & E & Hr & Hlt)|[[E Heqv]|(r & E & Hr & Hgt)]];
    rewrite E; simpl.
  - rewrite (proj2 (Z.eqb_neq _ _)) by lia. split; [auto|by exists r].
  - assert (Hn : ¬ cmp_lt uc (user_part a) (user_part b)) by by apply (cmp_eqv_not_lt uc ok).
    destruct (Z.ltb_spec (tag_part b) (tag_part a)) as [Ht|Ht].
    + split; [auto|by exists (-1)].
    + split; [|intros [?|[_ ?]]; [done|lia]].
      intros (r & [= <-] & Hr). destruct (Z.ltb_spec (tag_part a) (tag_part b)); lia.
  - rewrite (proj2 (Z.eqb_neq _ _)) by lia. split.
    + intros (? & [= <-] & ?). lia.
    + intros [Hlt|[Heqv _]].
      * exfalso. eapply (cmp_lt_irrefl uc ok); [exact Hua|]. by eapply (cmp_lt_trans uc ok).
      * unfold cmp_eqv in Heqv. simplify_eq. lia.
Qed.

Lemma ikc_eqv a b : iok a → iok b →
  cmp_eqv ikc a b ↔ cmp_eqv uc (user_part a) (user_part b) ∧ tag_part a = tag_part b.
Proof.
  intros [Ha Hua] [Hb Hub]. unfold cmp_eqv at 1. rewrite ikc_Compare by done.
  destruct (cmp_total (user_part a) (user_part b) Hua Hub) as [r E].
  unfold cmp_eqv. rewrite E. simpl. destruct (Z.eqb_spec r 0) as [->|Hr].
  - destruct (Z.ltb_spec (tag_part b) (tag_part a)), (Z.ltb_spec (tag_part a) (tag_part b));
      (split; [intros [=]|intros [_ ?]]); first [done|lia|split; [done|lia]|do 2 f_equal; lia].
  - split; [by intros [= ->]|by intros [[= ->] _]].
Qed.

#[export] Instance internal_order_laws : OrderLaws ikc iok.
Proof.
  split.
  - intros a b [Ha Hua] [Hb Hub]. rewrite ikc_Compare by done.
    destruct (cmp_total (user_part a) (user_part b) Hua Hub) as [r ->]. simpl. eauto.
  - intros a b r s [Ha Hua] [Hb Hub]. rewrite !ikc_Compare by done.
    destruct (cmp_total (user_part a) (user_part b) Hua Hub) as [x Hx].
    destruct (cmp_total (user_part b) (user_part a) Hub Hua) as [y Hy].
    pose proof (cmp_swap _ _ x y Hua Hub Hx Hy) as Hsw. rewrite Hx, Hy. simpl.
    destruct (Z.eqb_spec x 0), (Z.eqb_spec y 0); [|lia|lia|by intros [= <-] [= <-]].
    intros [= <-] [= <-].
    destruct (Z.ltb_spec (tag_part b) (tag_part a)), (Z.ltb_spec (tag_part a) (tag_part b)); lia.
  - intros x y z Hx Hy Hz.
    assert (Hle : ∀ a b, iok a → iok b → cmp_le ikc a b ↔ cmp_lt ikc a b ∨ cmp_eqv ikc a b).
    { intros a b _ _. unfold cmp_le, cmp_lt, cmp_eqv. split.
      - intros (r & Hr & ?). destruct (Z.eq_dec r 0) as [->|]; [by right|].
        left. exists r. split; [done|lia].
      - intros [(r & Hr & ?)|Hr]; eexists; (split; [exact Hr|lia]). }
    rewrite !Hle, !ikc_lt, !ikc_eqv by done.
    destruct Hx as [_ Hx], Hy as [_ Hy], Hz as [_ Hz].
    intros [[H1|[H1 T1]]|[H1 T1]] [[H2|[H2 T2]]|[H2 T2]].
    1: left; left; by eapply (cmp_lt_trans uc ok _ (user_part y)).
    1,2: left; left; eapply (cmp_lt_le_trans uc ok _ (user_part y)); eauto using cmp_eqv_le.
    1,4: left; left; eapply (cmp_le_lt_trans uc ok _ (user_part y)); eauto using cmp_eqv_le.
    all: assert (cmp_eqv uc (user_part x) (user_part z))
           by (by eapply (cmp_eqv_trans uc ok _ (user_part y))).
    1-3: left; right; split; [done|lia].
    right; split; [done|lia].
Qed.
End internal_order.

(** ** Shortening internal keys *)

Definition seek_tag : bytes := le_bytes 8 (tag_of kMaxSequenceNumber kTypeValue).

Lemma put_seek_tag_eq tmp : put_seek_tag tmp = Some (tmp ++ seek_tag).
Proof.
  unfold put_seek_tag. change kValueTypeForSeek with (ValueType_value kTypeValue).
  rewrite Pack_eq by (split; [by vm_compute|apply Z.le_refl]). apply PutFixed64_eq.
Qed.

Lemma internal_ok_seek (ok : bytes → Prop) u : ok u → internal_ok ok (u ++ seek_tag).
Proof.
  intros. split; [rewrite length_app; unfold seek_tag; rewrite length_le_bytes; lia|].
  by rewrite user_part_app by apply length_le_bytes.
Qed.

Section internal_short.
Context (uc : Comparator) (ok : bytes → Prop) `{!ComparatorLaws uc ok}.
Let ikc := InternalKeyComparator uc.
Let iok := internal_ok ok.

Lemma ikc_lt_user a b : iok a → iok b →
  cmp_lt uc (user_part a) (user_part b) → cmp_lt ikc a b.
Proof. intros Ha Hb H. apply (ikc_lt uc ok); auto. Qed.

Lemma ikc_refl_le a : iok a → cmp_le ikc a a.
Proof. intros. by eapply cmp_eqv_le, (cmp_refl ikc iok). Qed.

(** A key shortened to [u] and given the newest tag lies strictly above [a]. *)
Lemma seek_above a u : iok a → ok u → cmp_lt uc (user_part a) u →
  cmp_lt ikc a (u ++ seek_tag).
Proof.
  intros Ha Hu H. apply ikc_lt_user; [done|by apply internal_ok_seek|].
  by rewrite user_part_app by apply length_le_bytes.
Qed.

#[export] Instance internal_short_laws : ShorteningLaws ikc iok.
Proof.
  split.
  - intros start limit Hs Hl Hlt. pose proof Hs as [Hs8 Hus]. pose proof Hl as [Hl8 Hul].
    assert (Hdef : cmp_le ikc start start) by by apply ikc_refl_le.
    simpl. unfold InternalKeyComparator_FindShortestSeparator.
    rewrite !ExtractUserKey_eq by done. cbn [mbind option_bind].
    assert (Hu : (∃ r, FindShortestSeparator uc (user_part start) (user_part limit) = Some r
                   ∧ ok r ∧ cmp_lt uc r (user_part limit))
                 ∨ FindShortestSeparator uc (user_part start) (user_part limit)
                   = Some (user_part start)).
    { apply (ikc_lt uc ok) in Hlt; [|done..]. destruct Hlt as [Hlt|[Heqv _]].
      - left. destruct (sep_between _ _ Hus Hul Hlt) as (r & ? & ? & ? & ?). eauto.
      - right. apply sep_skip; [done..|]. by apply (cmp_eqv_not_lt uc ok). }
    destruct Hu as [(r & Er & Hr & Hrl)|Er]; rewrite Er; cbn [mbind option_bind];
      [|rewrite Nat.ltb_irrefl; by exists start].
    destruct (length r <? _)%nat; [|by exists start].
    destruct (cmp_total (user_part start) r Hus Hr) as [c Ec]. rewrite Ec. cbn [mbind option_bind].
    destruct (Z.ltb_spec c 0); [|by exists start].
    rewrite put_seek_tag_eq. cbn [mbind option_bind].
    assert (H1 : cmp_lt ikc start (r ++ seek_tag)) by (apply seek_above; [done..|by exists c]).
    assert (H2 : cmp_lt ikc (r ++ seek_tag) limit).
    { apply ikc_lt_user; [by apply internal_ok_seek|done|].
      by rewrite user_part_app by apply length_le_bytes. }
    pose proof H1 as (c1 & E1 & Hc1). pose proof H2 as (c2 & E2 & Hc2). simpl in E1, E2.
    rewrite E1. cbn [mbind option_bind]. rewrite (proj2 (Z.ltb_lt _ _)) by done.
    rewrite E2. cbn [mbind option_bind]. rewrite (proj2 (Z.ltb_lt _ _)) by done.
    exists (r ++ seek_tag). split_and!; [done|by apply internal_ok_seek|by apply cmp_lt_le|done].
  - intros start limit Hs Hl Hn. pose proof Hs as [Hs8 Hus]. pose proof Hl as [Hl8 Hul].
    simpl. unfold InternalKeyComparator_FindShortestSeparator.
    rewrite !ExtractUserKey_eq by done. cbn [mbind option_bind].
    rewrite sep_skip; [cbn [mbind option_bind]; by rewrite Nat.ltb_irrefl|done..|].
    intros H. by apply Hn, ikc_lt_user.
  - intros key Hk. pose proof Hk as [Hk8 Huk].
    assert (Hdef : cmp_le ikc key key) by by apply ikc_refl_le.
    simpl. unfold InternalKeyComparator_FindShortSuccessor.
    rewrite ExtractUserKey_eq by done. cbn [mbind option_bind].
    destruct (succ_above (user_part key) Huk) as (r & -> & Hr & _). cbn [mbind option_bind].
    destruct (length r <? _)%nat; [|by exists key].
    destruct (cmp_total (user_part key) r Huk Hr) as [c Ec]. rewrite Ec. cbn [mbind option_bind].
    destruct (Z.ltb_spec c 0); [|by exists key].
    rewrite put_seek_tag_eq. cbn [mbind option_bind].
    assert (H1 : cmp_lt ikc key (r ++ seek_tag)) by (apply seek_above; [done..|by exists c]).
    pose proof H1 as (c1 & E1 & Hc1). simpl in E1.
    rewrite E1. cbn [mbind option_bind]. rewrite (proj2 (Z.ltb_lt _ _)) by done.
    exists (r ++ seek_tag). split_and!; [done|by apply internal_ok_seek|by apply cmp_lt_le].
Qed.

#[export] Instance internal_laws : ComparatorLaws ikc iok.
Proof. split; apply _. Qed.
End internal_short.

(** ** The filter wrapper *)

Lemma ExtractUserKeys keys :
  Forall (λ k : bytes, 8 ≤ length k)%nat keys →
  mapM ExtractUserKey keys = Some (user_part <$> keys).
Proof.
  induction 1 as [|k keys Hk _ IH]; [done|]. simpl. rewrite ExtractUserKey_eq by done.
  simpl. by rewrite IH.
Qed.

#[export] Instance internal_filter_laws up ok fits `{!FilterLaws up ok fits} :
  FilterLaws (InternalFilterPolicy up) (internal_ok ok) fits.
Proof.
  assert (Hsplit : ∀ keys, Forall (internal_ok ok) keys →
            Forall (λ k : bytes, 8 ≤ length k)%nat keys ∧ Forall ok (user_part <$> keys)).
  { intros keys H. rewrite Forall_fmap. split; eapply Forall_impl; try exact H; by intros k []. }
  split.
  - intros keys dst [H8 Hok]%Hsplit Hf. simpl. rewrite ExtractUserKeys by done. simpl.
    apply filter_total; [done|by rewrite length_fmap].
  - intros keys keys' dst f key Hk Hf E Hin. pose proof (Hsplit _ Hk) as [H8 Hok].
    simpl in *. rewrite ExtractUserKeys in E by done. simpl in E.
    rewrite Forall_forall in H8. rewrite ExtractUserKey_eq by auto. simpl.
    eapply filter_match; [exact Hok|by rewrite length_fmap|exact E|].
    by apply list_elem_of_fmap_2.
Qed.

(** ** The layout of a lookup key *)

Lemma LookupKey_new_eq ukey s :
  0 <= s <= kMaxSequenceNumber → Z.of_nat (length ukey) + 8 < 2 ^ 32 →
  let n := varint (Z.of_nat (length ukey) + 8) in
  ∃ rest, LookupKey_new ukey s = Some {|
    lk_buf := n ++ encode_internal ukey s kTypeValue ++ rest;
    lk_on_heap := negb (length ukey + 13 <=? 200)%nat;
    kstart_ := length n; end_ := (length n + length ukey + 8)%nat |}.
Proof.
  intros Hs Hu n. unfold LookupKey_new.
  set (N := if negb (length ukey + 13 <=? 200)%nat then (length ukey + 13)%nat else 200%nat).
  assert (HN : (length ukey + 13 ≤ N)%nat).
  { unfold N. destruct (Nat.leb_spec (length ukey + 13) 200); simpl; lia. }
  pose proof (length_varint32 (Z.of_nat (length ukey) + 8) ltac:(lia)) as Hn. fold n in Hn.
  rewrite u32_small by lia. rewrite (char_array_split N (length n)) by lia.
  rewrite (EncodeVarint32_app []) by (try lia; apply length_replicate).
  cbn [mbind option_bind length app Nat.add]. fold n.
  unfold char_array. rewrite memcpy_Some by (rewrite length_app, length_replicate; lia).
  cbn [mbind option_bind]. rewrite take_app_length.
  change kValueTypeForSeek with (ValueType_value kTypeValue). rewrite Pack_eq by done.
  cbn [mbind option_bind].
  rewrite drop_app_ge, drop_replicate by lia.
  set (k := (N - length n - (length n + length ukey - length n))%nat).
  replace k with (8 + (k - 8))%nat by (unfold k; lia). rewrite replicate_add.
  pose proof (EncodeFixed64_app (n ++ ukey) (replicate 8 x00) (replicate (k - 8) x00)
                (tag_of s kTypeValue) eq_refl) as E.
  rewrite length_app, <- !app_assoc in E. simpl plus in *. rewrite E.
  eexists. unfold encode_internal. rewrite <- app_assoc. done.
Qed.

(** ** Properties *)

(** C31: encoding and parsing internal keys are inverse to each other.  What
    [AppendInternalKey] appends parses back to the same user key, sequence
    number and type; conversely, whenever [ParseInternalKey] returns true the
    fields it stored encode to the very bytes parsed; keys shorter than eight
    bytes are rejected and no call faults. *)
Theorem internal_key_roundtrip result ukey seq t k :
  0 <= seq <= kMaxSequenceNumber →
  (∃ e, AppendInternalKey result {| user_key := ukey; sequence := seq; ptype := ValueType_value t |}
          = Some (result ++ e)
        ∧ length e = InternalKeyEncodingLength
                       {| user_key := ukey; sequence := seq; ptype := ValueType_value t |}
        ∧ ParseInternalKey e
          = Some (true, Some {| user_key := ukey; sequence := seq; ptype := ValueType_value t |})
        ∧ ExtractUserKey e = Some ukey)
  ∧ (∃ b r, ParseInternalKey k = Some (b, r) ∧ ((length k < 8)%nat → b = false)
       ∧ (b = true → ∃ p, r = Some p ∧ AppendInternalKey [] p = Some k)).
Proof.
  intros Hs. pose proof (tag_range seq t Hs). split.
  - exists (encode_internal ukey seq t). rewrite AppendInternalKey_eq by done.
    pose proof (length_encode_internal ukey seq t) as Hlen. split_and!; [done|done| |].
    + rewrite ParseInternalKey_eq, user_part_encode, tag_part_encode by (done || lia).
      unfold tag_of. rewrite Z.div_add_l, Z.add_comm, Z.mod_add by lia.
      by destruct t; simpl; rewrite Z.add_0_r.
    + rewrite ExtractUserKey_eq by lia. by rewrite user_part_encode.
  - destruct (Nat.lt_ge_cases (length k) 8) as [Hk|Hk].
    + exists false, None. unfold ParseInternalKey. by rewrite (proj2 (Nat.ltb_lt _ _)).
    + rewrite ParseInternalKey_eq by done. do 2 eexists. split; [done|]. split; [lia|].
      intros Ht%Z.leb_le. eexists. split; [done|].
      pose proof (tag_part_range k Hk). pose proof (Z.mod_pos_bound (tag_part k) 256 ltac:(lia)).
      pose proof (Z.div_mod (tag_part k) 256 ltac:(lia)) as Hdm.
      assert (∃ t', tag_part k mod 256 = ValueType_value t') as [t' Et].
      { destruct (Z.eq_dec (tag_part k mod 256) 0); [by exists kTypeDeletion|].
        exists kTypeValue. simpl. lia. }
      rewrite Et, AppendInternalKey_eq
        by (change kMaxSequenceNumber with (2 ^ 56 - 1); split; lia_div).
      simpl. unfold encode_internal, tag_of.
      replace (tag_part k / 256 * 256 + ValueType_value t') with (tag_part k) by lia.
      by rewrite <- internal_split.
Qed.

(** C11: over any lawful user comparator the internal comparator is total on
    well-formed keys and orders them by user key first and, for equivalent user
    keys, by decreasing (sequence, type), so that the newest version of a key
    comes first; it is 0 only for equivalent user keys with the same tag. *)
Theorem InternalKeyComparator_order uc ok u1 u2 s1 s2 t1 t2 :
  OrderLaws uc ok → ok u1 → ok u2 →
  0 <= s1 <= kMaxSequenceNumber → 0 <= s2 <= kMaxSequenceNumber →
  let k1 := encode_internal u1 s1 t1 in let k2 := encode_internal u2 s2 t2 in
  ∃ r, Compare (InternalKeyComparator uc) k1 k2 = Some r
    ∧ (r < 0 ↔ cmp_lt uc u1 u2 ∨ (cmp_eqv uc u1 u2
                 ∧ (s2 < s1 ∨ (s1 = s2 ∧ ValueType_value t2 < ValueType_value t1))))
    ∧ (r = 0 ↔ cmp_eqv uc u1 u2 ∧ s1 = s2 ∧ t1 = t2).
Proof.
  intros Hlaws H1 H2 Hs1 Hs2 k1 k2.
  assert (Hok : ∀ u s t, ok u → internal_ok ok (encode_internal u s t)).
  { intros. split; [rewrite length_encode_internal; lia|by rewrite user_part_encode]. }
  destruct (cmp_total (c := InternalKeyComparator uc) (ok := internal_ok ok) k1 k2
              (Hok u1 s1 t1 H1) (Hok u2 s2 t2 H2)) as [r Hr].
  exists r. split; [done|].
  pose proof (ikc_lt uc ok k1 k2 (Hok _ _ _ H1) (Hok _ _ _ H2)) as Hlt.
  pose proof (ikc_eqv uc ok k1 k2 (Hok _ _ _ H1) (Hok _ _ _ H2)) as Heqv.
  unfold k1, k2 in Hlt, Heqv. rewrite !user_part_encode, !tag_part_encode in Hlt, Heqv by done.
  fold k1 k2 in Hlt, Heqv.
  assert (Htag : tag_of s2 t2 < tag_of s1 t1
                 ↔ s2 < s1 ∨ (s1 = s2 ∧ ValueType_value t2 < ValueType_value t1)).
  { unfold tag_of. destruct t1, t2; simpl; lia. }
  assert (Htag' : tag_of s1 t1 = tag_of s2 t2 ↔ s1 = s2 ∧ t1 = t2).
  { unfold tag_of. destruct t1, t2; simpl; split; intros; destruct_and?; simplify_eq;
      try (split; [lia|done]); lia. }
  rewrite <- Htag, <- Htag'. split.
  - rewrite <- Hlt. unfold cmp_lt. rewrite Hr. split; [eauto|by intros (? & [= <-] & ?)].
  - rewrite <- Heqv. unfold cmp_eqv. rewrite Hr. split; [by intros ->|by intros [= ->]].
Qed.

(** Over any lawful user comparator the shortening of internal keys meets
    the comparator contract: the assertions inside never fail, a separator lies
    in [start, limit), a successor is not below its key, and both are again
    well-formed internal keys. *)
Theorem InternalKeyComparator_shortening uc ok start limit key :
  ComparatorLaws uc ok → internal_ok ok start → internal_ok ok limit → internal_ok ok key →
  let ikc := InternalKeyComparator uc in
  (cmp_lt ikc start limit →
     ∃ r, FindShortestSeparator ikc start limit = Some r ∧ internal_ok ok r
          ∧ cmp_le ikc start r ∧ cmp_lt ikc r limit)
  ∧ (¬ cmp_lt ikc start limit → FindShortestSeparator ikc start limit = Some start)
  ∧ ∃ r, FindShortSuccessor ikc key = Some r ∧ internal_ok ok r ∧ cmp_le ikc key r.
Proof.
  intros Hlaws Hs Hl Hk ikc. split; [|split].
  - by apply sep_between.
  - by apply (sep_skip (ok := internal_ok ok)).
  - by apply succ_above.
Qed.

(** Over the built-in bytewise comparator the sequence number is never
    looked at: two internal keys with the same user key compare as +1 both ways
    whatever their tags, even a key with itself. *)
Theorem InternalKeyComparator_bytewise u s1 s2 t1 t2 :
  Compare (InternalKeyComparator BytewiseComparator)
    (encode_internal u s1 t1) (encode_internal u s2 t2) = Some 1.
Proof.
  rewrite ikc_Compare by (rewrite length_encode_internal; lia).
  rewrite !user_part_encode. simpl. unfold Slice_compare.
  rewrite Nat.ltb_irrefl. pose proof (memcmp_full u u eq_refl) as H. rewrite lex_refl in H.
  by rewrite H.
Qed.

(** Building a lookup key never writes outside its buffer (the 200-byte
    array for keys up to 187 bytes, the heap beyond), and its three views are
    the length-prefixed internal key, the internal key with the seek type, and
    the user key. *)
Theorem LookupKey_layout ukey s :
  0 <= s <= kMaxSequenceNumber → Z.of_nat (length ukey) + 8 < 2 ^ 32 →
  ∃ k, LookupKey_new ukey s = Some k
    ∧ memtable_key k = varint (Z.of_nat (length ukey) + 8) ++ encode_internal ukey s kTypeValue
    ∧ internal_key k = encode_internal ukey s kTypeValue
    ∧ LookupKey_user_key k = ukey
    ∧ (lk_on_heap k = true ↔ 187 < length ukey)%nat.
Proof.
  intros Hs Hu. destruct (LookupKey_new_eq ukey s Hs Hu) as [rest E].
  eexists. split; [exact E|]. unfold memtable_key, internal_key, LookupKey_user_key. simpl.
  set (n := varint _). set (e := encode_internal _ _ _).
  assert (He : length e = (length ukey + 8)%nat) by apply length_encode_internal.
  assert (Et : take (length n + length ukey + 8) (n ++ e ++ rest) = n ++ e).
  { rewrite app_assoc, take_app_le by (rewrite length_app; lia).
    apply take_ge. rewrite length_app. lia. }
  rewrite Et, drop_app_length. split_and!; [done..| |].
  - rewrite drop_app_length. unfold e, encode_internal. rewrite <- app_assoc.
    replace (length n + length ukey + 8 - length n - 8)%nat with (length ukey) by lia.
    apply take_app_length.
  - rewrite negb_true_iff, Nat.leb_gt. lia.
Qed.

(** Wrapping a policy that has no false negatives gives one for internal
    keys: the wrapper, run on well-formed internal keys, makes the user policy's
    filter of their user keys and accepts every key of the set, whatever the
    sequence number and type it is queried with. *)
Theorem InternalFilterPolicy_no_false_negatives up ok fits keys dst key seq t :
  FilterLaws up ok fits → Forall (internal_ok ok) keys → fits (length keys) → key ∈ keys →
  ∃ f, CreateFilter (InternalFilterPolicy up) keys dst
       = CreateFilter up (user_part <$> keys) dst
    ∧ (∃ ks, CreateFilter (InternalFilterPolicy up) keys dst = Some (ks, dst ++ f))
    ∧ KeyMayMatch (InternalFilterPolicy up) (encode_internal (user_part key) seq t) f = Some true.
Proof.
  intros HL Hk Hf Hin.
  destruct (filter_total (FilterLaws := internal_filter_laws up ok fits) keys dst Hk Hf) as (ks & f & E).
  pose proof (filter_match (FilterLaws := internal_filter_laws up ok fits) keys ks dst f key Hk Hf E Hin) as Hm.
  exists f. split_and!; [|by exists ks|].
  - simpl. rewrite ExtractUserKeys; [done|]. eapply Forall_impl; [exact Hk|]. by intros k [].
  - simpl in *. rewrite ExtractUserKey_eq in Hm by (rewrite Forall_forall in Hk; by apply Hk).
    rewrite ExtractUserKey_eq by (rewrite length_encode_internal; lia).
    by rewrite user_part_encode.
Qed.

(** ** Witnesses *)

Lemma any_internal_ok k : (8 <=? length k)%nat = true → internal_ok any_key k.
Proof. intros H%Nat.leb_le. by split. Qed.

Lemma internal_key_roundtrip_witness :
  let p := {| user_key := str "k"; sequence := 7; ptype := ValueType_value kTypeValue |} in
  (∃ e, AppendInternalKey [x00] p = Some ([x00] ++ e)
        ∧ length e = InternalKeyEncodingLength p
        ∧ ParseInternalKey e = Some (true, Some p)
        ∧ ExtractUserKey e = Some (str "k"))
  ∧ (∃ b r, ParseInternalKey (str "123456789") = Some (b, r)
       ∧ ((length (str "123456789") < 8)%nat → b = false)
       ∧ (b = true → ∃ p, r = Some p ∧ AppendInternalKey [] p = Some (str "123456789"))).
Proof.
  intros p. apply (internal_key_roundtrip [x00] (str "k") 7 kTypeValue (str "123456789")).
  split; [lia|vm_compute; discriminate].
Defined.

Lemma InternalKeyComparator_order_witness :
  let k1 := encode_internal (str "a") 9 kTypeValue in
  let k2 := encode_internal (str "a") 3 kTypeDeletion in
  ∃ r, Compare (InternalKeyComparator LexComparator) k1 k2 = Some r
    ∧ (r < 0 ↔ cmp_lt LexComparator (str "a") (str "a") ∨ (cmp_eqv LexComparator (str "a") (str "a")
                 ∧ (3 < 9 ∨ (9 = 3 ∧ ValueType_value kTypeDeletion < ValueType_value kTypeValue))))
    ∧ (r = 0 ↔ cmp_eqv LexComparator (str "a") (str "a") ∧ 9 = 3 ∧ kTypeValue = kTypeDeletion).
Proof.
  apply (InternalKeyComparator_order LexComparator any_key (str "a") (str "a") 9 3 kTypeValue kTypeDeletion);
    [apply _|exact I|exact I|split; [lia|vm_compute; discriminate]..].
Defined.

Lemma InternalKeyComparator_shortening_witness :
  let ikc := InternalKeyComparator LexComparator in
  let start := encode_internal (str "abcd") 5 kTypeValue in
  let limit := encode_internal (str "ad") 5 kTypeValue in
  (cmp_lt ikc start limit →
     ∃ r, FindShortestSeparator ikc start limit = Some r ∧ internal_ok any_key r
          ∧ cmp_le ikc start r ∧ cmp_lt ikc r limit)
  ∧ (¬ cmp_lt ikc start limit → FindShortestSeparator ikc start limit = Some start)
  ∧ ∃ r, FindShortSuccessor ikc start = Some r ∧ internal_ok any_key r ∧ cmp_le ikc start r.
Proof.
  intros ikc start limit.
  apply (InternalKeyComparator_shortening LexComparator any_key start limit start);
    [apply _|apply any_internal_ok; reflexivity..].
Defined.

Lemma LookupKey_layout_witness :
  ∃ k, LookupKey_new (str "key") 42 = Some k
    ∧ memtable_key k = varint (Z.of_nat (length (str "key")) + 8) ++ encode_internal (str "key") 42 kTypeValue
    ∧ internal_key k = encode_internal (str "key") 42 kTypeValue
    ∧ LookupKey_user_key k = str "key"
    ∧ (lk_on_heap k = true ↔ 187 < length (str "key"))%nat.
Proof. apply (LookupKey_layout (str "key") 42); [split; [lia|vm_compute; discriminate]|simpl; lia]. Defined.

Lemma InternalFilterPolicy_no_false_negatives_witness :
  let up := BloomPolicy {| bits_per_key_ := 10; k_ := 6 |} in
  let key := encode_internal (str "a") 9 kTypeValue in
  ∃ f, CreateFilter (InternalFilterPolicy up) [key] []
       = CreateFilter up (user_part <$> [key]) []
    ∧ (∃ ks, CreateFilter (InternalFilterPolicy up) [key] [] = Some (ks, [] ++ f))
    ∧ KeyMayMatch (InternalFilterPolicy up) (encode_internal (user_part key) 3 kTypeValue) f = Some true.
Proof.
  intros up key.
  apply (InternalFilterPolicy_no_false_negatives up any_key
           (bloom_fits {| bits_per_key_ := 10; k_ := 6 |}) [key] [] key 3 kTypeValue).
  - apply BloomPolicy_laws. split; simpl; lia.
  - apply Forall_cons_2; [apply any_internal_ok; reflexivity|apply Forall_nil_2].
  - unfold bloom_fits; simpl; lia.
  - apply elem_of_cons; left; reflexivity.
Defined.
