(* ===== verification/Crc32c.v ===== *)
(** CRC-32C: util/crc32c.cc (Extend, with its byte, word and stride steps) and
    util/crc32c.h (Value, Mask, Unmask).

    [crc_bytes] is the specification, the bit-serial CRC with the reflected
    Castagnoli polynomial; [Extend_portable] is the body of [Extend] after its
    static initialiser and [Extend] the function with it. *)
From S2P Require Import Prelude Coding Crc32cTables.
Local Open Scope Z_scope.

(** ** The code *)

Definition kCRC32Xor : Z := 0xffffffff.

Definition ReadUint32LE (m : bytes) (buffer : nat) : option Z := DecodeFixed32 m buffer.

(** [RoundUp<N>] on the address of a pointer. *)
Definition RoundUp (N : Z) (pointer : Z) : Z :=
  Z.land (u64 (pointer + (N - 1))) (2 ^ 64 - 1 - (N - 1)).

(** A table read [table[i]]; an index past the array is a fault. *)
Definition table_at (table : list Z) (i : Z) : option Z := table !! Z.to_nat i.

(** STEP1: one byte; the state is the pointer [p] and [l]. *)
Definition STEP1 (m : bytes) (s : nat * Z) : option (nat * Z) :=
  let '(p, l) := s in
  b ← load m p;
  let c := Z.lxor (Z.land l 0xff) (u8 b) in
  t ← table_at kByteExtensionTable c;
  Some ((p + 1)%nat, Z.lxor t (Z.shiftr l 8)).

(** STEP4(s): the new value of [crc##s] from the word at [p + s * 4]. *)
Definition STEP4 (m : bytes) (p s : nat) (crc : Z) : option Z :=
  w ← ReadUint32LE m (p + s * 4);
  t3 ← table_at kStrideExtensionTable3 (Z.land crc 0xff);
  t2 ← table_at kStrideExtensionTable2 (Z.land (Z.shiftr crc 8) 0xff);
  t1 ← table_at kStrideExtensionTable1 (Z.land (Z.shiftr crc 16) 0xff);
  t0 ← table_at kStrideExtensionTable0 (Z.shiftr crc 24);
  Some (Z.lxor (Z.lxor (Z.lxor (Z.lxor w t3) t2) t1) t0).

(** The pointer and the four partial results of the stride loops. *)
Record Strides := mkStrides { s_p : nat; crc0 : Z; crc1 : Z; crc2 : Z; crc3 : Z }.

Definition STEP16 (m : bytes) (st : Strides) : option Strides :=
  let p := s_p st in
  c0 ← STEP4 m p 0 (crc0 st); c1 ← STEP4 m p 1 (crc1 st);
  c2 ← STEP4 m p 2 (crc2 st); c3 ← STEP4 m p 3 (crc3 st);
  Some (mkStrides (p + 16) c0 c1 c2 c3).

(** The body of the word loop: STEP4(0), then the rotation of the partials. *)
Definition step_word (m : bytes) (st : Strides) : option Strides :=
  let p := s_p st in
  c0 ← STEP4 m p 0 (crc0 st);
  Some (mkStrides (p + 4) (crc1 st) (crc2 st) (crc3 st) c0).

(** STEP4W(w) returns the new [l]. *)
Fixpoint STEP4W_loop (i : nat) (w : Z) : option Z :=
  match i with
  | O => Some w
  | S k => t ← table_at kByteExtensionTable (Z.land w 0xff);
           STEP4W_loop k (Z.lxor (Z.shiftr w 8) t)
  end.
Definition STEP4W (l w : Z) : option Z := STEP4W_loop 4 (Z.lxor w l).

Definition room (e : nat) (k : Z) (p : nat) : bool := k <=? Z.of_nat e - Z.of_nat p.

(** The block under [if ((e - p) >= 16)], returning the new [p] and [l]. *)
Definition Extend_strides (m : bytes) (e p : nat) (l : Z) : option (nat * Z) :=
  c0 ← ReadUint32LE m (p + 0 * 4);
  c1 ← ReadUint32LE m (p + 1 * 4);
  c2 ← ReadUint32LE m (p + 2 * 4);
  c3 ← ReadUint32LE m (p + 3 * 4);
  let st := mkStrides (p + 16) (Z.lxor c0 l) c1 c2 c3 in
  st ← while (S e) (fun st => room e 16 (s_p st)) (STEP16 m) st;
  st ← while (S e) (fun st => room e 4 (s_p st)) (step_word m) st;
  l ← STEP4W 0 (crc0 st); l ← STEP4W l (crc1 st);
  l ← STEP4W l (crc2 st); l ← STEP4W l (crc3 st);
  Some (s_p st, l).

(** [Extend] after its static initialiser: [data] lies at address [addr]; the
    pointers are offsets into it, [x] is the first aligned one. *)
Definition Extend_portable (crc addr : Z) (data : bytes) : option Z :=
  let e := length data in
  let l := Z.lxor crc kCRC32Xor in
  let x := RoundUp 4 addr - addr in
  '(p, l) ← (if x <=? Z.of_nat e
             then while (S e) (fun s => negb (Z.of_nat s.1 =? x)) (STEP1 data) (0%nat, l)
             else Some (0%nat, l));
  '(p, l) ← (if room e 16 p then Extend_strides data e p l else Some (p, l));
  '(p, l) ← while (S e) (fun s => negb (s.1 =? e)%nat) (STEP1 data) (p, l);
  Some (Z.lxor l kCRC32Xor).

(** The function-local [static bool accelerate]. *)
Inductive static_bool := Uninitialized | Initializing | Initialized (b : bool).

Definition kTestCRCBuffer : bytes := str "TestCRCBuffer".
Definition kTestCRCValue : Z := 0xdcbc59fa.

(** [Extend] with the static's initialiser, [CanAccelerateCRC32C] and
    [AcceleratedCRC32C], which call [Extend] again.  The result carries the
    state of the static after the call.  Entering the declaration while the
    variable is being initialised is undefined behaviour: [None].  [fuel]
    bounds the depth of the calls; [AcceleratedCRC32C] is [Extend]. *)
Fixpoint Extend (fuel : nat) (accelerate : static_bool) (crc addr : Z) (data : bytes)
    : option (static_bool * Z) :=
  match fuel with
  | O => None
  | S k =>
    accelerate ← match accelerate with
                 | Uninitialized =>
                   '(_, v) ← Extend k Initializing 0 0 kTestCRCBuffer;
                   Some (Initialized (v =? kTestCRCValue))
                 | Initializing => None
                 | Initialized b => Some (Initialized b)
                 end;
    match accelerate with
    | Initialized true => Extend k accelerate crc addr data
    | _ => v ← Extend_portable crc addr data; Some (accelerate, v)
    end
  end.

Definition Value (fuel : nat) (accelerate : static_bool) (addr : Z) (data : bytes)
    : option (static_bool * Z) :=
  Extend fuel accelerate 0 addr data.

Definition kMaskDelta : Z := 0xa282ead8.

Definition Mask (crc : Z) : Z :=
  u32 (Z.lor (Z.shiftr crc 15) (u32 (Z.shiftl crc 17)) + kMaskDelta).

Definition Unmask (masked_crc : Z) : Z :=
  let rot := u32 (masked_crc - kMaskDelta) in
  Z.lor (Z.shiftr rot 17) (u32 (Z.shiftl rot 15)).

(** ** The specification *)

(** The reflected polynomial of CRC-32C (RFC 3720). *)
Definition kPoly : Z := 0x82f63b78.
Definition crc_bit (l : Z) : Z := Z.lxor (Z.shiftr l 1) (if Z.odd l then kPoly else 0).
Definition crc_bits (n : nat) (l : Z) : Z := Nat.iter n crc_bit l.
Definition crc_byte (l : Z) (b : byte) : Z := crc_bits 8 (Z.lxor l (u8 b)).
Definition crc_bytes (l : Z) (bs : bytes) : Z := fold_left crc_byte bs l.
Definition crc32c (crc : Z) (bs : bytes) : Z :=
  Z.lxor (crc_bytes (Z.lxor crc kCRC32Xor) bs) kCRC32Xor.

(** The vectors of RFC 3720, section B.4. *)
Example rfc3720_zeros : Extend_portable 0 4096 (repeat x00 32) = Some 0x8a9136aa.
Proof. vm_compute. reflexivity. Qed.
Example rfc3720_ones : Extend_portable 0 4097 (repeat xff 32) = Some 0x62a8ab43.
Proof. vm_compute. reflexivity. Qed.
Example rfc3720_increasing :
  Extend_portable 0 4098 (map (fun i => byte_of (Z.of_nat i)) (seq 0 32)) = Some 0x46dd794e.
Proof. vm_compute. reflexivity. Qed.
Example test_crc_value : Extend_portable 0 4099 kTestCRCBuffer = Some kTestCRCValue.
Proof. vm_compute. reflexivity. Qed.

(** ** Linearity of the bit-serial step *)

Lemma crc_bit_lxor a b : crc_bit (Z.lxor a b) = Z.lxor (crc_bit a) (crc_bit b).
Proof.
  unfold crc_bit. rewrite <- !Z.bit0_odd, Z.lxor_spec, Z.shiftr_lxor.
  destruct (Z.testbit a 0), (Z.testbit b 0); cbn [xorb]; zbitwise.
Qed.

Lemma crc_bits_0 l : crc_bits 0 l = l.
Proof. done. Qed.
(** Conversion unfolds [crc_byte] before it starts on the eight steps. *)
#[local] Strategy 100 [crc_bits].
Lemma crc_byte_eq l b : crc_byte l b = crc_bits 8 (Z.lxor l (u8 b)).
Proof. reflexivity. Qed.
Lemma crc_bytes_cons l b bs : crc_bytes l (b :: bs) = crc_bytes (crc_byte l b) bs.
Proof. exact (eq_refl (crc_bytes (crc_byte l b) bs)). Qed.

Lemma crc_bits_S n l : crc_bits (S n) l = crc_bit (crc_bits n l).
Proof. done. Qed.

Lemma crc_bits_lxor n a b : crc_bits n (Z.lxor a b) = Z.lxor (crc_bits n a) (crc_bits n b).
Proof.
  induction n as [|n IH]; [done|]. by rewrite !crc_bits_S, IH, crc_bit_lxor.
Qed.

Lemma crc_bits_add n k l : crc_bits (n + k) l = crc_bits n (crc_bits k l).
Proof. apply Nat.iter_add. Qed.

(** Bits above the ones shifted out move down unchanged. *)
Lemma crc_bit_double h : crc_bit (2 * h) = h.
Proof.
  unfold crc_bit. rewrite Z.odd_mul. cbn [Z.odd andb].
  rewrite Z.lxor_0_r, Z.shiftr_div_pow2 by lia.
  change (2 ^ 1) with 2. rewrite Z.mul_comm. apply Z.div_mul. lia.
Qed.

Lemma crc_bits_shiftl n h : crc_bits n (Z.shiftl h (Z.of_nat n)) = h.
Proof.
  revert h. induction n as [|n IH]; intros h; [by rewrite Z.shiftl_0_r|].
  replace (S n) with (n + 1)%nat at 1 by lia. rewrite crc_bits_add.
  assert (Z.shiftl h (Z.of_nat (S n)) = 2 * Z.shiftl h (Z.of_nat n)) as ->.
  { rewrite !Z.shiftl_mul_pow2, Nat2Z.inj_succ, Z.pow_succ_r by lia. lia. }
  change (crc_bits 1 ?x) with (crc_bit x). by rewrite crc_bit_double.
Qed.

(** The low byte of a word and the rest. *)
Lemma split_byte l : l = Z.lxor (Z.land l 0xff) (Z.shiftl (Z.shiftr l 8) 8).
Proof.
  rewrite land_255. change 256 with (2 ^ 8). apply Z.bits_inj'. intros i Hi.
  rewrite Z.lxor_spec, testbit_mod_pow2, Z.shiftl_spec by lia.
  destruct (Z.ltb_spec i 8).
  - rewrite (Z.testbit_neg_r _ (i - 8)) by lia. btauto.
  - rewrite Z.shiftr_spec by lia. replace (i - 8 + 8) with i by lia. btauto.
Qed.

(** ** The tables *)

Definition table_ok (table : list Z) (n : nat) (k : Z) : bool :=
  forallb (fun i => bool_decide
    (table !! i = Some (crc_bits n (Z.shiftl (Z.of_nat i) k)))) (seq 0 256).

Lemma table_ok_at table n k i :
  table_ok table n k = true → 0 <= i < 256 →
  table_at table i = Some (crc_bits n (Z.shiftl i k)).
Proof.
  intros H Hi. apply forallb_forall with (x := Z.to_nat i) in H; [|apply in_seq; lia].
  apply bool_decide_eq_true in H. by rewrite Z2Nat.id in H by lia.
Qed.

Lemma byte_table i :
  0 <= i < 256 → table_at kByteExtensionTable i = Some (crc_bits 8 i).
Proof.
  intros Hi. rewrite (table_ok_at _ 8 0) by (vm_compute; done || lia).
  by rewrite Z.shiftl_0_r.
Qed.

Lemma stride_tables i :
  0 <= i < 256 →
  table_at kStrideExtensionTable3 i = Some (crc_bits 128 i)
  ∧ table_at kStrideExtensionTable2 i = Some (crc_bits 128 (Z.shiftl i 8))
  ∧ table_at kStrideExtensionTable1 i = Some (crc_bits 128 (Z.shiftl i 16))
  ∧ table_at kStrideExtensionTable0 i = Some (crc_bits 128 (Z.shiftl i 24)).
Proof.
  intros Hi. split_and!.
  - rewrite (table_ok_at _ 128 0), Z.shiftl_0_r; [done|by vm_compute|done].
  - by rewrite (table_ok_at _ 128 8); [|vm_compute|].
  - by rewrite (table_ok_at _ 128 16); [|vm_compute|].
  - by rewrite (table_ok_at _ 128 24); [|vm_compute|].
Qed.

(** ** One step of each kind *)

Definition is_u32 (l : Z) : Prop := 0 <= l < 2 ^ 32.
#[local] Hint Unfold is_u32 : ldb.

Lemma crc_bit_u32 l : is_u32 l → is_u32 (crc_bit l).
Proof.
  intros H. apply lxor_range; [apply shiftr_range; [lia|done]|].
  destruct (Z.odd l); unfold kPoly; lia.
Qed.

Lemma crc_bits_u32 n l : is_u32 l → is_u32 (crc_bits n l).
Proof. intros H. induction n; [done|]. rewrite crc_bits_S. by apply crc_bit_u32. Qed.

Lemma u8_u32 b : is_u32 (u8 b).
Proof. pose proof (u8_range b). unfold is_u32. lia. Qed.

Lemma crc_byte_u32 l b : is_u32 l → is_u32 (crc_byte l b).
Proof. intros. apply crc_bits_u32, lxor_range; [done|apply u8_u32]. Qed.

Lemma crc_bytes_u32 bs l : is_u32 l → is_u32 (crc_bytes l bs).
Proof.
  revert l. induction bs as [|b bs IH]; intros l Hl; [done|].
  by apply IH, crc_byte_u32.
Qed.

Lemma crc_bytes_app l a b : crc_bytes l (a ++ b) = crc_bytes (crc_bytes l a) b.
Proof. apply fold_left_app. Qed.

Lemma low_byte_range l : 0 <= Z.land l 0xff < 256.
Proof. rewrite land_255. apply Z.mod_pos_bound. lia. Qed.

(** The table look-up of one byte is eight bit steps. *)
Lemma byte_step l :
  table_at kByteExtensionTable (Z.land l 0xff) = Some (crc_bits 8 (Z.land l 0xff))
  ∧ Z.lxor (crc_bits 8 (Z.land l 0xff)) (Z.shiftr l 8) = crc_bits 8 l.
Proof.
  split; [apply byte_table, low_byte_range|].
  rewrite (split_byte l) at 3. rewrite crc_bits_lxor. f_equal.
  symmetry. apply (crc_bits_shiftl 8).
Qed.

Lemma STEP1_eq m p l b :
  load m p = Some b → STEP1 m (p, l) = Some ((p + 1)%nat, crc_byte l b).
Proof.
  intros Hb. unfold STEP1. rewrite Hb. cbn [mbind option_bind].
  pose proof (u8_range b) as Hr.
  assert (E : Z.lxor (Z.land l 0xff) (u8 b) = Z.land (Z.lxor l (u8 b)) 0xff).
  { rewrite !land_255. change 256 with (2 ^ 8). zbitwise.
    destruct (Z.ltb_spec i 8); [btauto|]. rewrite (testbit_high (u8 b) 8) by lia. btauto. }
  assert (E2 : Z.shiftr l 8 = Z.shiftr (Z.lxor l (u8 b)) 8).
  { rewrite Z.shiftr_lxor, (Z.shiftr_div_pow2 (u8 b)) by lia.
    rewrite Z.div_small by lia. by rewrite Z.lxor_0_r. }
  rewrite E, E2. destruct (byte_step (Z.lxor l (u8 b))) as [-> Hx].
  cbn [mbind option_bind]. rewrite Hx, crc_byte_eq. reflexivity.
Qed.

Lemma STEP4W_eq l w : STEP4W l w = Some (crc_bits 32 (Z.lxor w l)).
Proof.
  unfold STEP4W. generalize (Z.lxor w l) as v. intros v.
  assert (H : ∀ i v, STEP4W_loop i v = Some (crc_bits (8 * i) v)).
  { clear. induction i as [|i IH]; intros v; [done|]. cbn [STEP4W_loop].
    destruct (byte_step v) as [-> Hx]. cbn [mbind option_bind].
    rewrite Z.lxor_comm, Hx, IH, <- crc_bits_add. do 2 f_equal. lia. }
  apply H.
Qed.

(** The partial results of a stride step: 128 bit steps, and the word. *)
Lemma split_word l :
  l = Z.lxor (Z.lxor (Z.lxor (Z.land l 0xff)
        (Z.shiftl (Z.land (Z.shiftr l 8) 0xff) 8))
        (Z.shiftl (Z.land (Z.shiftr l 16) 0xff) 16))
        (Z.shiftl (Z.shiftr l 24) 24).
Proof.
  rewrite (split_byte l) at 1. rewrite (split_byte (Z.shiftr l 8)) at 1.
  rewrite Z.shiftr_shiftr by lia. change (8 + 8) with 16.
  rewrite (split_byte (Z.shiftr l 16)) at 1.
  rewrite Z.shiftr_shiftr by lia. change (16 + 8) with 24.
  rewrite !Z.shiftl_lxor, !Z.shiftl_shiftl by lia.
  rewrite <- !Z.lxor_assoc. done.
Qed.

Lemma STEP4_eq m p s crc w :
  is_u32 crc → ReadUint32LE m (p + s * 4) = Some w →
  STEP4 m p s crc = Some (Z.lxor w (crc_bits 128 crc)).
Proof.
  intros Hc Hw. unfold STEP4. rewrite Hw. cbn [mbind option_bind].
  destruct (stride_tables (Z.land crc 0xff)) as (-> & _); [apply low_byte_range|].
  destruct (stride_tables (Z.land (Z.shiftr crc 8) 0xff)) as (_ & -> & _);
    [apply low_byte_range|].
  destruct (stride_tables (Z.land (Z.shiftr crc 16) 0xff)) as (_ & _ & -> & _);
    [apply low_byte_range|].
  destruct (stride_tables (Z.shiftr crc 24)) as (_ & _ & _ & ->).
  { unfold is_u32 in Hc. rewrite Z.shiftr_div_pow2 by lia. lia_div. }
  cbn [mbind option_bind]. f_equal.
  rewrite (split_word crc) at 5. rewrite !crc_bits_lxor, <- !Z.lxor_assoc. done.
Qed.

(** Eight bit steps per byte of a little-endian word are the byte steps. *)
Lemma le_value_cons b bs : le_value (b :: bs) = Z.lxor (u8 b) (Z.shiftl (le_value bs) 8).
Proof.
  pose proof (u8_range b). cbn [le_value]. rewrite <- Z.add_nocarry_lxor.
  - rewrite Z.shiftl_mul_pow2 by lia. lia.
  - apply Z.bits_inj'. intros i Hi. rewrite Z.land_spec, Z.bits_0.
    destruct (Z_lt_dec i 8).
    + by rewrite Z.shiftl_spec_low, andb_false_r by lia.
    + by rewrite (testbit_high _ 8) by lia.
Qed.

Lemma crc_word bs l :
  crc_bits (8 * length bs) (Z.lxor (le_value bs) l) = crc_bytes l bs.
Proof.
  revert l. induction bs as [|b bs IH]; intros l; [apply Z.lxor_0_l|].
  rewrite crc_bytes_cons, crc_byte_eq. cbn [length].
  replace (8 * S (length bs))%nat with (8 * length bs + 8)%nat by lia.
  rewrite crc_bits_add, le_value_cons.
  rewrite (Z.lxor_comm (u8 b)), Z.lxor_assoc, crc_bits_lxor, (crc_bits_shiftl 8).
  rewrite (Z.lxor_comm (u8 b)). apply IH.
Qed.

#[local] Opaque crc_bits crc_byte.

(** ** The loops *)

Section extend.
Context (data : bytes) (l0 : Z) (Hl0 : is_u32 l0).
#[local] Abbreviation e := (length data).

(** [l] is the CRC of the bytes before [p]. *)
Definition at_byte (s : nat * Z) : Prop :=
  (s.1 ≤ e)%nat ∧ s.2 = crc_bytes l0 (take s.1 data).

Lemma at_byte_u32 s : at_byte s → is_u32 s.2.
Proof. intros [_ ->]. by apply crc_bytes_u32. Qed.

Lemma STEP1_at s :
  at_byte s → (s.1 < e)%nat →
  ∃ s', STEP1 data s = Some s' ∧ at_byte s' ∧ s'.1 = S s.1.
Proof.
  destruct s as [p l]. unfold at_byte. cbn [fst snd]. intros [Hp ->] Hlt.
  destruct (lookup_lt_is_Some_2 data p Hlt) as [b Hb].
  rewrite (STEP1_eq data p _ b Hb). eexists. split; [done|].
  replace (p + 1)%nat with (S p) by lia. split; [|done].
  split; [cbn; lia|]. cbn [fst snd]. rewrite (take_S_r _ _ _ Hb), crc_bytes_app. reflexivity.
Qed.

(** Byte steps up to a target that is not past the end. *)
Lemma while_STEP1 (c : nat * Z → bool) (x : nat) s :
  (∀ s, c s = negb (s.1 =? x)%nat) → (s.1 ≤ x ≤ e)%nat → at_byte s →
  while (S e) c (STEP1 data) s = Some (x, crc_bytes l0 (take x data)).
Proof.
  intros Hc Hx Hs.
  destruct (while_total (fun s => at_byte s ∧ s.1 ≤ x)%nat (fun s => x - s.1)%nat
              c (STEP1 data)) with (fuel := S e) (s := s) as (s' & -> & [Hat Hle] & Hend).
  - intros t [Ht Htx]. rewrite Hc, negb_true_iff, Nat.eqb_neq. intros Hne.
    destruct (STEP1_at t Ht) as (t' & -> & Ht' & E); [lia|].
    exists t'. split; [done|]. split; [split; [done|lia]|lia].
  - split; [done|lia].
  - lia.
  - rewrite Hc, negb_false_iff, Nat.eqb_eq in Hend.
    destruct s' as [p l], Hat as [_ E]. cbn in *. by subst.
Qed.

Lemma ReadUint32LE_eq p :
  (p + 4 ≤ e)%nat → ReadUint32LE data p = Some (le_value (take 4 (drop p data))).
Proof.
  intros Hp. unfold ReadUint32LE.
  assert (length (take 4 (drop p data)) = 4%nat) as Hlen
    by (rewrite length_take, length_drop; lia).
  pose proof (DecodeFixed32_app (take p data) _ (drop 4 (drop p data)) Hlen) as H.
  rewrite take_drop, take_drop, length_take, Nat.min_l in H by lia. exact H.
Qed.

Lemma word_u32 p : (p + 4 ≤ e)%nat → is_u32 (le_value (take 4 (drop p data))).
Proof.
  intros Hp. pose proof (le_value_range (take 4 (drop p data))) as H.
  rewrite length_take, length_drop, Nat.min_l in H by lia. exact H.
Qed.

Lemma crc_bytes_word p l :
  (p + 4 ≤ e)%nat → l = crc_bytes l0 (take p data) →
  crc_bits 32 (Z.lxor (le_value (take 4 (drop p data))) l)
  = crc_bytes l0 (take (p + 4) data).
Proof.
  intros Hp ->.
  assert (length (take 4 (drop p data)) = 4%nat) as Hlen
    by (rewrite length_take, length_drop; lia).
  replace 32%nat with (8 * length (take 4 (drop p data)))%nat by lia.
  rewrite crc_word, <- crc_bytes_app. by rewrite take_take_drop.
Qed.

(** What the four partial results stand for: the value STEP4W combines. *)
Definition combine (st : Strides) : Z :=
  crc_bits 32 (Z.lxor (crc3 st) (crc_bits 32 (Z.lxor (crc2 st)
    (crc_bits 32 (Z.lxor (crc1 st) (crc_bits 32 (Z.lxor (crc0 st) 0))))))).

Definition at_stride (st : Strides) : Prop :=
  (s_p st ≤ e)%nat ∧ combine st = crc_bytes l0 (take (s_p st) data)
  ∧ is_u32 (crc0 st) ∧ is_u32 (crc1 st) ∧ is_u32 (crc2 st) ∧ is_u32 (crc3 st).

Lemma combine_rotate p p' w c0 c1 c2 c3 :
  combine (mkStrides p' c1 c2 c3 (Z.lxor w (crc_bits 128 c0)))
  = crc_bits 32 (Z.lxor w (combine (mkStrides p c0 c1 c2 c3))).
Proof.
  unfold combine. cbn [crc0 crc1 crc2 crc3]. rewrite !Z.lxor_0_r.
  change 128%nat with (32 + (32 + (32 + 32)))%nat.
  rewrite !crc_bits_add, !crc_bits_lxor. zbitwise.
Qed.

Lemma step_word_at st :
  at_stride st → room e 4 (s_p st) = true →
  ∃ st', step_word data st = Some st' ∧ at_stride st' ∧ s_p st' = (s_p st + 4)%nat.
Proof.
  destruct st as [p c0 c1 c2 c3]. unfold at_stride, room. cbn [s_p crc0 crc1 crc2 crc3].
  intros (Hp & Hc & H0 & H1 & H2 & H3) Hr. apply Z.leb_le in Hr.
  unfold step_word. cbn [s_p crc0 crc1 crc2 crc3].
  erewrite STEP4_eq; [|done|].
  2: { rewrite Nat.mul_0_l, Nat.add_0_r. apply ReadUint32LE_eq. lia. }
  cbn [mbind option_bind]. eexists. split; [done|]. cbn [s_p crc0 crc1 crc2 crc3].
  split; [|done]. split; [lia|]. split.
  - rewrite (combine_rotate p). by apply crc_bytes_word; [lia|].
  - split_and!; [done..|]. apply lxor_range; [apply word_u32; lia|by apply crc_bits_u32].
Qed.

(** A 16-byte swath is four word steps, after which the rotation is undone. *)
Lemma STEP16_at st :
  at_stride st → room e 16 (s_p st) = true →
  ∃ st', STEP16 data st = Some st' ∧ at_stride st' ∧ s_p st' = (s_p st + 16)%nat.
Proof.
  destruct st as [p c0 c1 c2 c3]. unfold at_stride, room. cbn [s_p crc0 crc1 crc2 crc3].
  intros (Hp & Hc & H0 & H1 & H2 & H3) Hr. apply Z.leb_le in Hr.
  unfold STEP16. cbn [s_p crc0 crc1 crc2 crc3].
  do 4 (erewrite STEP4_eq; [|done|apply ReadUint32LE_eq; lia]; cbn [mbind option_bind]).
  eexists. split; [done|]. cbn [s_p crc0 crc1 crc2 crc3]. split; [|done].
  split; [lia|]. split.
  - rewrite (combine_rotate 0), (combine_rotate 0), (combine_rotate 0), (combine_rotate p).
    rewrite (crc_bytes_word (p + 0 * 4)); [|lia|by rewrite Hc, Nat.add_0_r].
    rewrite (crc_bytes_word (p + 1 * 4)); [|lia|f_equal; f_equal; lia].
    rewrite (crc_bytes_word (p + 2 * 4)); [|lia|f_equal; f_equal; lia].
    rewrite (crc_bytes_word (p + 3 * 4)); [|lia|f_equal; f_equal; lia].
    do 2 f_equal. lia.
  - split_and!; (apply lxor_range; [apply word_u32; lia|by apply crc_bits_u32]).
Qed.

Lemma while_strides k (c : Strides → bool) body st :
  (∀ t, c t = room e k (s_p t)) →
  (∀ t, at_stride t → c t = true →
    ∃ t', body t = Some t' ∧ at_stride t' ∧ (s_p t < s_p t')%nat) →
  at_stride st → ∃ st', while (S e) c body st = Some st' ∧ at_stride st'.
Proof.
  intros Hc Hb Hst.
  destruct (while_total at_stride (fun s => e - s_p s)%nat c body) with (fuel := S e) (s := st)
    as (s' & ? & ? & ?); [|done|lia|eauto].
  intros t Ht Hct. destruct (Hb t Ht Hct) as (t' & ? & Ht' & ?).
  exists t'. split_and!; [done..|]. destruct Ht', Ht. lia.
Qed.

Lemma Extend_strides_at p l :
  at_byte (p, l) → room e 16 p = true →
  ∃ s', Extend_strides data e p l = Some s' ∧ at_byte s'.
Proof.
  intros Hat Hr. pose proof (at_byte_u32 _ Hat) as Hl32. destruct Hat as [Hp Hl].
  cbn in Hp, Hl, Hl32. unfold room in Hr. apply Z.leb_le in Hr.
  unfold Extend_strides.
  do 4 (rewrite ReadUint32LE_eq by lia; cbn [mbind option_bind]).
  set (st := mkStrides _ _ _ _ _).
  assert (at_stride st) as Hst.
  { split; [cbn; lia|]. split.
    - subst st. unfold combine. cbn [s_p crc0 crc1 crc2 crc3]. rewrite Z.lxor_0_r.
      rewrite (crc_bytes_word (p + 0 * 4)); [|lia|by rewrite Nat.add_0_r].
      rewrite (crc_bytes_word (p + 1 * 4)); [|lia|f_equal; f_equal; lia].
      rewrite (crc_bytes_word (p + 2 * 4)); [|lia|f_equal; f_equal; lia].
      rewrite (crc_bytes_word (p + 3 * 4)); [|lia|f_equal; f_equal; lia].
      do 2 f_equal. lia.
    - subst st. cbn [crc0 crc1 crc2 crc3].
      split_and!; try (apply word_u32; lia). apply lxor_range; [apply word_u32; lia|done]. }
  destruct (while_strides 16 (fun st => room e 16 (s_p st)) (STEP16 data) st)
    as (st1 & -> & H1); [done| |done|].
  { intros t Ht Hct. destruct (STEP16_at t Ht Hct) as (t' & ? & ? & ?).
    exists t'. split_and!; [done..|lia]. }
  cbn [mbind option_bind].
  destruct (while_strides 4 (fun st => room e 4 (s_p st)) (step_word data) st1)
    as (st2 & -> & H2); [done| |done|].
  { intros t Ht Hct. destruct (step_word_at t Ht Hct) as (t' & ? & ? & ?).
    exists t'. split_and!; [done..|lia]. }
  cbn [mbind option_bind]. rewrite !STEP4W_eq. cbn [mbind option_bind].
  do 3 (rewrite STEP4W_eq; cbn [mbind option_bind]).
  eexists. split; [done|]. destruct H2 as (? & Hc & _). split; done.
Qed.
End extend.

(** ** The whole of Extend *)

Lemma RoundUp_4 a :
  0 <= a → a + 3 < 2 ^ 64 → ∃ d, RoundUp 4 a = a + Z.of_nat d ∧ (d < 4)%nat.
Proof.
  intros. unfold RoundUp. rewrite u64_small by lia.
  change (2 ^ 64 - 1 - (4 - 1)) with (Z.shiftl (Z.ones 62) 2).
  assert (Z.land (a + (4 - 1)) (Z.shiftl (Z.ones 62) 2)
          = Z.shiftl (Z.shiftr (a + 3) 2) 2) as ->.
  { change (4 - 1) with 3. apply Z.bits_inj'. intros i Hi.
    rewrite Z.land_spec, !Z.shiftl_spec by lia. destruct (Z_lt_dec i 2).
    - rewrite !(Z.testbit_neg_r _ (i - 2)) by lia. apply andb_false_r.
    - rewrite Z.shiftr_spec by lia. replace (i - 2 + 2) with i by lia.
      destruct (Z_lt_dec (i - 2) 62).
      + by rewrite Z.ones_spec_low, andb_true_r by lia.
      + rewrite Z.ones_spec_high by lia. by rewrite (testbit_high _ 64), andb_false_l by lia. }
  rewrite Z.shiftl_mul_pow2, Z.shiftr_div_pow2 by lia.
  exists (Z.to_nat ((a + 3) / 2 ^ 2 * 2 ^ 2 - a)). change (2 ^ 2) with 4.
  split; lia_div.
Qed.

Lemma Extend_portable_eq crc addr data :
  is_u32 crc → 0 <= addr → addr + 3 < 2 ^ 64 →
  Extend_portable crc addr data = Some (crc32c crc data).
Proof.
  intros Hcrc Ha Ha'. unfold Extend_portable, crc32c.
  assert (is_u32 (Z.lxor crc kCRC32Xor)) as Hl0
    by (apply lxor_range; [done|unfold kCRC32Xor; lia]).
  set (l0 := Z.lxor crc kCRC32Xor) in *.
  destruct (RoundUp_4 addr) as (d & -> & Hd); [done..|].
  replace (addr + Z.of_nat d - addr) with (Z.of_nat d) by lia.
  assert (∃ s, (if Z.of_nat d <=? Z.of_nat (length data)
                then while (S (length data)) (fun s => negb (Z.of_nat s.1 =? Z.of_nat d))
                       (STEP1 data) (0%nat, l0)
                else Some (0%nat, l0)) = Some s ∧ at_byte data l0 s) as (s & -> & Hs).
  { destruct (Z.leb_spec (Z.of_nat d) (Z.of_nat (length data))).
    - rewrite (while_STEP1 data l0 _ d (0%nat, l0)).
      + eexists. split; [done|]. split; [cbn; lia|done].
      + intros t. f_equal. destruct (Nat.eqb_spec t.1 d), (Z.eqb_spec (Z.of_nat t.1) (Z.of_nat d)); lia.
      + cbn. lia.
      + split; [cbn; lia|done].
    - eexists. split; [done|]. split; [cbn; lia|done]. }
  destruct s as [p l]. cbn [mbind option_bind].
  assert (∃ s, (if room (length data) 16 p then Extend_strides data (length data) p l
                else Some (p, l)) = Some s ∧ at_byte data l0 s) as (s & -> & Hs').
  { destruct (room (length data) 16 p) eqn:Hr; [by apply Extend_strides_at|eauto]. }
  destruct s as [p' l']. cbn [mbind option_bind].
  rewrite (while_STEP1 data l0 _ (length data) (p', l')).
  - cbn [mbind option_bind]. by rewrite firstn_all.
  - done.
  - destruct Hs' as [? _]. cbn in *. lia.
  - done.
Qed.

Lemma crc32c_u32 crc data : is_u32 crc → is_u32 (crc32c crc data).
Proof.
  intros. apply lxor_range; [|unfold kCRC32Xor; lia].
  apply crc_bytes_u32, lxor_range; [done|unfold kCRC32Xor; lia].
Qed.

Lemma crc32c_app crc a b : crc32c crc (a ++ b) = crc32c (crc32c crc a) b.
Proof.
  unfold crc32c. rewrite Z.lxor_assoc, Z.lxor_nilpotent, Z.lxor_0_r.
  by rewrite crc_bytes_app.
Qed.

Lemma Extend_ready k crc addr data :
  is_u32 crc → 0 <= addr → addr + 3 < 2 ^ 64 →
  Extend (S k) (Initialized false) crc addr data
  = Some (Initialized false, crc32c crc data).
Proof.
  intros. cbn [Extend mbind option_bind]. by rewrite Extend_portable_eq.
Qed.

(** C5: the portable body of [Extend] terminates, reads only its buffer (and
    every table only inside its 256 entries) and computes the bit-serial
    CRC-32C for every length and every alignment of the buffer; extending the
    CRC of [a] by [b] gives the CRC of their concatenation, wherever the two
    pieces lie. *)
Theorem Extend_correct crc addr addr' addr'' a b :
  is_u32 crc → 0 <= addr < 2 ^ 64 - 3 → 0 <= addr' < 2 ^ 64 - 3 → 0 <= addr'' < 2 ^ 64 - 3 →
  Extend_portable crc addr (a ++ b) = Some (crc32c crc (a ++ b))
  ∧ is_u32 (crc32c crc (a ++ b))
  ∧ Extend_portable crc addr (a ++ b)
    = c ← Extend_portable crc addr' a; Extend_portable c addr'' b.
Proof.
  intros. rewrite !Extend_portable_eq by (done || lia).
  split_and!; [done|by apply crc32c_u32|].
  cbn [mbind option_bind]. rewrite Extend_portable_eq by (try apply crc32c_u32; done || lia).
  by rewrite crc32c_app.
Qed.

Lemma Extend_correct_witness :
  Extend_portable 0 4097 (str "hello " ++ str "world")
    = Some (crc32c 0 (str "hello " ++ str "world"))
  ∧ is_u32 (crc32c 0 (str "hello " ++ str "world"))
  ∧ Extend_portable 0 4097 (str "hello " ++ str "world")
    = c ← Extend_portable 0 8 (str "hello "); Extend_portable c 19 (str "world").
Proof.
  apply (Extend_correct 0 4097 8 19 (str "hello ") (str "world")); unfold is_u32; lia.
Defined.

(** With the static initialiser as written, no call of [Extend] that has
    to initialise [accelerate] ever returns: [CanAccelerateCRC32C] calls
    [AcceleratedCRC32C], which calls [Extend], which re-enters the declaration
    being initialised.  Nor would it with [accelerate] true, when [Extend] and
    [AcceleratedCRC32C] call each other for ever.  Only the false state
    computes a CRC. *)
Theorem Extend_first_call fuel crc addr data :
  Extend fuel Uninitialized crc addr data = None
  ∧ Value fuel Uninitialized addr data = None
  ∧ Extend fuel (Initialized true) crc addr data = None.
Proof.
  assert (∀ c, Extend fuel Uninitialized c addr data = None) as H.
  { intros c. destruct fuel as [|[|k]]; done. }
  split_and!; [apply H|apply H|].
  clear H. induction fuel as [|k IH]; [done|]. cbn [Extend mbind option_bind]. exact IH.
Qed.

(** ** Masking *)

(** Rotations of a word, as the code writes them. *)
Lemma rotate_rotate x r s :
  is_u32 x → 0 < r → 0 < s → r + s = 32 →
  let y := Z.lor (Z.shiftr x r) (u32 (Z.shiftl x s)) in
  is_u32 y ∧ Z.lor (Z.shiftr y s) (u32 (Z.shiftl y r)) = x.
Proof.
  intros Hx Hr Hs Hrs y. split.
  { apply lor_range; [apply shiftr_range; [lia|done]|apply u32_range]. }
  subst y. unfold u32. apply Z.bits_inj'. intros i Hi.
  autorewrite with zbits.
  replace (i + s + r) with (i + 32) by lia. replace (i + s - s) with i by lia.
  rewrite (testbit_high x 32 (i + 32)) by (done || lia).
  destruct (Z.ltb_spec i 32).
  2: { rewrite (testbit_high x 32 i) by (done || lia). btauto. }
  destruct (Z_lt_dec (i - r) 0).
  - rewrite !(Z.testbit_neg_r _ (i - r)) by lia.
    destruct (Z.ltb_spec (i + s) 32); [btauto|lia].
  - rewrite Z.shiftr_spec, testbit_mod_pow2, Z.shiftl_spec by lia.
    replace (i - r + r) with i by lia.
    rewrite (Z.testbit_neg_r _ (i - r - s)) by lia.
    destruct (Z.ltb_spec (i + s) 32); [lia|]. btauto.
Qed.

Lemma Unmask_Mask crc : is_u32 crc → Unmask (Mask crc) = crc.
Proof.
  intros H. destruct (rotate_rotate crc 15 17) as [Hy E]; [done|lia..|].
  unfold Unmask, Mask. set (y := Z.lor _ _) in *.
  replace (u32 (u32 (y + kMaskDelta) - kMaskDelta)) with y; [exact E|].
  unfold u32. rewrite Zminus_mod_idemp_l. rewrite Z.add_simpl_r.
  symmetry. by apply Z.mod_small.
Qed.

(** [Mask] and [Unmask] are inverse bijections of the 32-bit words, so no
    CRC is lost by masking and [Mask] never leaves 32 bits. *)
Theorem Mask_bijective crc :
  is_u32 crc →
  Unmask (Mask crc) = crc ∧ Mask (Unmask crc) = crc ∧ is_u32 (Mask crc) ∧ is_u32 (Unmask crc).
Proof.
  intros H. split_and!; [by apply Unmask_Mask| |apply u32_range|].
  - destruct (rotate_rotate (u32 (crc - kMaskDelta)) 17 15) as [_ E]; [apply u32_range|lia..|].
    unfold Unmask, Mask. cbv zeta. rewrite E. unfold u32. rewrite Zplus_mod_idemp_l.
    rewrite Z.sub_add. by apply Z.mod_small.
  - apply lor_range; [apply shiftr_range; [lia|apply u32_range]|apply u32_range].
Qed.

Lemma Mask_bijective_witness :
  Unmask (Mask kTestCRCValue) = kTestCRCValue ∧ Mask (Unmask kTestCRCValue) = kTestCRCValue
  ∧ is_u32 (Mask kTestCRCValue) ∧ is_u32 (Unmask kTestCRCValue).
Proof. apply (Mask_bijective kTestCRCValue). split; reflexivity || discriminate. Defined.

(** ** Error detection *)

Lemma crc_bit_inj a b : is_u32 a → is_u32 b → crc_bit a = crc_bit b → a = b.
Proof.
  intros Ha Hb E. apply Z.lxor_eq.
  assert (Hx : is_u32 (Z.lxor a b)) by (by apply lxor_range).
  assert (Hz : crc_bit (Z.lxor a b) = 0) by (by rewrite crc_bit_lxor, E, Z.lxor_nilpotent).
  revert Hx Hz. generalize (Z.lxor a b) as x. unfold is_u32. intros x Hx Hz.
  unfold crc_bit in Hz. apply Z.lxor_eq in Hz. rewrite Z.shiftr_div_pow2 in Hz by lia.
  change (2 ^ 1) with 2 in Hz. unfold kPoly in Hz.
  destruct (Z.odd x) eqn:Ho; [lia_div|].
  rewrite <- Z.negb_even, negb_false_iff in Ho. apply Z.even_spec in Ho as [k ->]. lia_div.
Qed.

Lemma crc_bits_inj n a b : is_u32 a → is_u32 b → crc_bits n a = crc_bits n b → a = b.
Proof.
  intros Ha Hb. induction n as [|n IH]; [by rewrite !crc_bits_0|]. rewrite !crc_bits_S.
  intros E. apply IH, crc_bit_inj; [by apply crc_bits_u32..|done].
Qed.

Lemma crc_byte_inj l l' b : is_u32 l → is_u32 l' → crc_byte l b = crc_byte l' b → l = l'.
Proof.
  intros Hl Hl' E. rewrite !crc_byte_eq in E. apply crc_bits_inj in E; try (apply lxor_range; [done|apply u8_u32]).
  apply (f_equal (fun v => Z.lxor v (u8 b))) in E.
  by rewrite !Z.lxor_assoc, Z.lxor_nilpotent, !Z.lxor_0_r in E.
Qed.

Lemma crc_byte_inj_r l b b' : is_u32 l → crc_byte l b = crc_byte l b' → b = b'.
Proof.
  intros Hl E. rewrite !crc_byte_eq in E. apply crc_bits_inj in E; try (apply lxor_range; [done|apply u8_u32]).
  apply (f_equal (Z.lxor l)) in E.
  rewrite <- !Z.lxor_assoc, Z.lxor_nilpotent, !Z.lxor_0_l in E. by apply u8_inj.
Qed.

Lemma crc_bytes_inj bs l l' :
  is_u32 l → is_u32 l' → crc_bytes l bs = crc_bytes l' bs → l = l'.
Proof.
  revert l l'. induction bs as [|b bs IH]; intros l l' Hl Hl' E; [exact E|].
  apply (crc_byte_inj _ _ b); [done..|].
  by apply IH; [by apply crc_byte_u32..|].
Qed.

Lemma crc32c_one_byte crc pre b b' post :
  is_u32 crc → b ≠ b' → crc32c crc (pre ++ b :: post) ≠ crc32c crc (pre ++ b' :: post).
Proof.
  intros Hc Hb E. apply Hb. unfold crc32c in E.
  apply (f_equal (fun v => Z.lxor v kCRC32Xor)) in E.
  rewrite !Z.lxor_assoc, Z.lxor_nilpotent, !Z.lxor_0_r, !crc_bytes_app in E.
  assert (is_u32 (crc_bytes (Z.lxor crc kCRC32Xor) pre)) as Hl.
  { apply crc_bytes_u32, lxor_range; [done|unfold kCRC32Xor; lia]. }
  change (?b :: post) with ([b] ++ post) in E. rewrite !crc_bytes_app in E.
  apply crc_bytes_inj in E; [|by apply crc_byte_u32..].
  by apply crc_byte_inj_r in E.
Qed.

(** The checksum detects every corruption of a single byte: two buffers
    that differ in exactly one byte never have the same CRC, and the values a
    writer stores for them ([Mask] of the CRC) differ too. *)
Theorem Extend_detects_corruption crc addr pre b b' post :
  is_u32 crc → 0 <= addr < 2 ^ 64 - 3 → b ≠ b' →
  ∃ c c', Extend_portable crc addr (pre ++ b :: post) = Some c
    ∧ Extend_portable crc addr (pre ++ b' :: post) = Some c'
    ∧ c ≠ c' ∧ Mask c ≠ Mask c'.
Proof.
  intros Hc Ha Hb. rewrite !Extend_portable_eq by (done || lia).
  do 2 eexists. do 2 (split; [done|]).
  pose proof (crc32c_one_byte crc pre b b' post Hc Hb) as Hne. split; [exact Hne|].
  intros E. apply Hne. apply (f_equal Unmask) in E.
  by rewrite !Unmask_Mask in E by (by apply crc32c_u32).
Qed.

Lemma Extend_detects_corruption_witness :
  ∃ c c', Extend_portable 0 4096 (str "ab" ++ x00 :: str "cd") = Some c
    ∧ Extend_portable 0 4096 (str "ab" ++ x80 :: str "cd") = Some c'
    ∧ c ≠ c' ∧ Mask c ≠ Mask c'.
Proof.
  apply (Extend_detects_corruption 0 4096 (str "ab") x00 x80 (str "cd"));
    [unfold is_u32; lia|lia|discriminate].
Defined.
