(* ===== verification/File.v ===== *)
(** The file interfaces of include/env.h as type classes: the operations, and
    apart from them what implementations promise their clients. *)
From S2P Require Import Prelude Status.

(** [WritableFile]: every operation returns the file's next state and its
    [Status]; [None] is a fault. *)
Class WritableFile (F : Type) := {
  Append : F → bytes → option (F * Status);
  Close : F → option (F * Status);
  Flush : F → option (F * Status);
  Sync : F → option (F * Status)
}.

(** [SequentialFile]: [Read] also returns [*result], or [None] when it does not
    assign it. *)
Class SequentialFile (F : Type) := {
  Read : F → Z → option (F * Status * option bytes);
  Skip : F → Z → option (F * Status)
}.

(** No operation the log writer uses faults, whatever its status. *)
Class WritableFileTotal F `{WritableFile F} := {
  Append_total : ∀ f d, ∃ f' s, Append f d = Some (f', s);
  Flush_total : ∀ f, ∃ f' s, Flush f = Some (f', s)
}.

(** In a [good] state appending succeeds and adds the bytes to the contents. *)
Class WritableFileLaws F `{WritableFile F} (good : F → Prop) (contents : F → bytes) := {
  Append_ok : ∀ f d, good f →
    ∃ f', Append f d = Some (f', OK) ∧ good f' ∧ contents f' = contents f ++ d;
  Flush_ok : ∀ f, good f →
    ∃ f', Flush f = Some (f', OK) ∧ good f' ∧ contents f' = contents f
}.

(** A finite file: reads never fault, deliver at most what is left, and may
    fail or be short. *)
Class SequentialFileFinite F `{SequentialFile F} (size : F → nat) := {
  Read_finite : ∀ f n, ∃ f' s r, Read f n = Some (f', s, r)
    ∧ size f' + length (default [] r) ≤ size f;
  Skip_finite : ∀ f n, ∃ f' s, Skip f n = Some (f', s) ∧ size f' ≤ size f
}.

(** In a [good] state the next bytes are delivered in full, as for a regular
    file that is not being written. *)
Class SequentialFileLaws F `{SequentialFile F} (good : F → Prop) (rest : F → bytes) := {
  Read_ok : ∀ f n, good f → (0 <= n < 2 ^ 62)%Z →
    ∃ f', Read f n = Some (f', OK, Some (take (Z.to_nat n) (rest f)))
      ∧ good f' ∧ rest f' = drop (Z.to_nat n) (rest f);
  Skip_ok : ∀ f n, good f → (0 <= n < 2 ^ 62)%Z →
    ∃ f', Skip f n = Some (f', OK) ∧ good f' ∧ rest f' = drop (Z.to_nat n) (rest f)
}.

(** ** In-memory files

    The file a string is read from or written to; it meets every law, so the
    laws are satisfiable. *)
Record MemFile := { mem : bytes }.

#[export] Instance MemFile_writable : WritableFile MemFile := {
  Append f d := Some ({| mem := mem f ++ d |}, OK);
  Close f := Some (f, OK);
  Flush f := Some (f, OK);
  Sync f := Some (f, OK)
}.

#[export] Instance MemFile_sequential : SequentialFile MemFile := {
  Read f n := Some ({| mem := drop (Z.to_nat n) (mem f) |}, OK, Some (take (Z.to_nat n) (mem f)));
  Skip f n := Some ({| mem := drop (Z.to_nat n) (mem f) |}, OK)
}.

#[export] Instance MemFile_total : WritableFileTotal MemFile.
Proof. split; intros; cbn; eauto. Qed.

#[export] Instance MemFile_writable_laws : WritableFileLaws MemFile (λ _, True) mem.
Proof. split; intros; cbn; eexists; split_and!; done. Qed.

#[export] Instance MemFile_finite : SequentialFileFinite MemFile (λ f, length (mem f)).
Proof.
  split; intros f n; cbn.
  - do 3 eexists. split; [done|]. cbn. rewrite length_drop, length_take. lia.
  - do 2 eexists. split; [done|]. cbn. rewrite length_drop. lia.
Qed.

#[export] Instance MemFile_sequential_laws : SequentialFileLaws MemFile (λ _, True) mem.
Proof. split; intros; cbn; eexists; split_and!; done. Qed.
