(* ===== verification/LogFormat.v ===== *)
(** The log format, db/log_format.h, with the checksum the writer and the
    reader use and the specification of a log's bytes. *)
From S2P Require Import Prelude Coding Crc32c.
Local Open Scope Z_scope.

Inductive RecordType := kZeroType | kFullType | kFirstType | kMiddleType | kLastType.
#[global] Instance RecordType_eq_dec : EqDecision RecordType.
Proof. solve_decision. Defined.

Definition RecordType_value (t : RecordType) : Z :=
  match t with
  | kZeroType => 0 | kFullType => 1 | kFirstType => 2 | kMiddleType => 3 | kLastType => 4
  end.

Definition kMaxRecordType : Z := RecordType_value kLastType.
Definition kBlockSize : Z := 32768.
Definition kHeaderSize : Z := 4 + 2 + 1.

(** ** The checksum

    What the log asks of [crc32c::Extend]; [Value] is [Extend] from 0. *)
Class Checksum := { crc_Extend : Z → bytes → option Z }.
Definition crc_Value `{Checksum} (data : bytes) : option Z := crc_Extend 0 data.

(** It is a total function to words that composes over concatenation and tells
    apart data that differ in one byte. *)
Class ChecksumLaws `{Checksum} (crc : Z → bytes → Z) := {
  crc_Extend_eq : ∀ c d, is_u32 c → crc_Extend c d = Some (crc c d);
  crc_u32 : ∀ c d, is_u32 c → is_u32 (crc c d);
  crc_app : ∀ c a b, crc c (a ++ b) = crc (crc c a) b;
  crc_detects : ∀ c pre b b' post, is_u32 c → b ≠ b' →
    crc c (pre ++ b :: post) ≠ crc c (pre ++ b' :: post)
}.

(** [crc32c::Extend] at any buffer address, once [accelerate] is false. *)
Definition Crc32cAt (addr : Z) : Checksum :=
  {| crc_Extend c d := snd <$> Extend 1 (Initialized false) c addr d |}.

Lemma Crc32cAt_laws addr : 0 <= addr < 2 ^ 64 - 3 → @ChecksumLaws (Crc32cAt addr) crc32c.
Proof.
  intros Ha. split.
  - intros c d Hc. cbn [crc_Extend Crc32cAt]. by rewrite Extend_ready by (done || lia).
  - intros. by apply crc32c_u32.
  - intros. apply crc32c_app.
  - intros. by apply crc32c_one_byte.
Qed.

#[export] Instance Crc32c_checksum : Checksum := Crc32cAt 4096.
#[export] Instance Crc32c_checksum_laws : ChecksumLaws crc32c.
Proof. apply Crc32cAt_laws. lia. Qed.

(** ** Specification of the bytes of a log *)

(** A physical record: its type and payload. *)
Definition item := (RecordType * bytes)%type.

Section format.
Context (crc : Z → bytes → Z).

Definition type_byte (t : RecordType) : byte := byte_of (RecordType_value t).

(** Masked checksum of type and payload, length, type. *)
Definition header (i : item) : bytes :=
  le_bytes 4 (Mask (crc 0 (type_byte i.1 :: i.2)))
  ++ le_bytes 2 (Z.of_nat (length i.2)) ++ [type_byte i.1].

Definition blk : nat := Z.to_nat kBlockSize.
Definition hdr : nat := Z.to_nat kHeaderSize.
(** Conversion should not write block sizes out in unary. *)
#[global] Strategy 100 [Z.to_nat Pos.to_nat Pos.iter_op].
Lemma blk_eq : Z.to_nat kBlockSize = blk.
Proof. reflexivity. Qed.

(** The zeros before the next header when the block has no room for one, and
    the offset in its block where that header starts. *)
Definition trailer (off : nat) : bytes :=
  if decide (blk - off < hdr)%nat then replicate (blk - off) x00 else [].
Definition start (off : nat) : nat := if decide (blk - off < hdr)%nat then 0%nat else off.

(** The bytes of a sequence of physical records written from offset [off] of a
    block, and the offset after them. *)
Fixpoint phys_bytes (off : nat) (items : list item) : bytes :=
  match items with
  | [] => []
  | i :: items =>
      trailer off ++ header i ++ i.2 ++ phys_bytes (start off + hdr + length i.2) items
  end.

Fixpoint phys_off (off : nat) (items : list item) : nat :=
  match items with
  | [] => off
  | i :: items => phys_off (start off + hdr + length i.2) items
  end.

(** Each record fits its block. *)
Fixpoint phys_ok (off : nat) (items : list item) : Prop :=
  match items with
  | [] => (off ≤ blk)%nat
  | i :: items =>
      (off ≤ blk)%nat ∧ (start off + hdr + length i.2 ≤ blk)%nat ∧ i.1 ≠ kZeroType
      ∧ phys_ok (start off + hdr + length i.2) items
  end.

Lemma trailer_full off :
  (blk - off < hdr)%nat → trailer off = replicate (blk - off) x00 ∧ start off = 0%nat.
Proof. intros. unfold trailer, start. by rewrite !decide_True. Qed.

Lemma trailer_room off : (hdr ≤ blk - off)%nat → trailer off = [] ∧ start off = off.
Proof. intros. unfold trailer, start. by rewrite !decide_False by lia. Qed.

Lemma start_le off : (off ≤ blk)%nat → (start off + hdr ≤ blk)%nat.
Proof.
  intros. unfold start. case_decide; unfold blk, hdr, kBlockSize, kHeaderSize in *; lia.
Qed.

Lemma phys_bytes_app off a b :
  phys_bytes off (a ++ b) = phys_bytes off a ++ phys_bytes (phys_off off a) b.
Proof.
  revert off. induction a as [|i a IH]; intros off; [done|].
  cbn [app phys_bytes phys_off]. by rewrite IH, <- !(assoc_L (++)).
Qed.

Lemma phys_off_app off a b : phys_off off (a ++ b) = phys_off (phys_off off a) b.
Proof. revert off. induction a as [|i a IH]; intros off; [done|]. apply IH. Qed.

Lemma phys_ok_app off a b :
  phys_ok off (a ++ b) ↔ phys_ok off a ∧ phys_ok (phys_off off a) b.
Proof.
  revert off. induction a as [|i a IH]; intros off; cbn.
  - split; [|tauto]. intros H. split; [|done]. destruct b; cbn in H; tauto.
  - rewrite IH. tauto.
Qed.

Lemma phys_ok_le off items : phys_ok off items → (off ≤ blk ∧ phys_off off items ≤ blk)%nat.
Proof.
  revert off. induction items as [|i items IH]; intros off; cbn; [done|].
  intros (? & ? & ? & H). apply IH in H as [? ?]. done.
Qed.

Lemma length_header i : length (header i) = hdr.
Proof. unfold header. by rewrite !length_app, !length_le_bytes. Qed.


(** The physical records of one user record: one FULL, or a FIRST, any number
    of MIDDLEs and a LAST, whose payloads concatenate to it.  [begin] tells
    whether none has been written yet. *)
Inductive fragments : bool → bytes → list item → Prop :=
  | frag_full d : fragments true d [(kFullType, d)]
  | frag_first p d items : fragments false d items → fragments true (p ++ d) ((kFirstType, p) :: items)
  | frag_middle p d items : fragments false d items → fragments false (p ++ d) ((kMiddleType, p) :: items)
  | frag_last d : fragments false d [(kLastType, d)].

(** The physical records of a sequence of user records. *)
Inductive log_of : list bytes → list (list item) → Prop :=
  | log_nil : log_of [] []
  | log_cons d ds items itemss :
      fragments true d items → log_of ds itemss → log_of (d :: ds) (items :: itemss).
End format.

(** Arithmetic of block offsets. *)
Ltac blk_lia := unfold blk, hdr, kBlockSize, kHeaderSize in *; lia.
