(* ===== verification/LogWriter.v ===== *)
(** The log writer, db/log_writer.h and db/log_writer.cc, over any file and
    checksum. *)
From S2P Require Import Prelude Coding Crc32c Status File LogFormat.
Local Open Scope Z_scope.

Section writer.
Context {F : Type} `{WritableFile F} `{Checksum}.

Record Writer := { dest_ : F; block_offset_ : Z; type_crc_ : list Z }.

(** [type_crc[i] = crc32c::Value(&t, 1)] for [i] from 0 to [kMaxRecordType]. *)
Fixpoint InitTypeCrc_loop (n : nat) (i : Z) : option (list Z) :=
  match n with
  | O => Some []
  | S k =>
    v ← crc_Value [byte_of i];
    vs ← InitTypeCrc_loop k (i + 1);
    Some (v :: vs)
  end.
Definition InitTypeCrc : option (list Z) := InitTypeCrc_loop (Z.to_nat (kMaxRecordType + 1)) 0.

Definition Writer_new (dest : F) : option Writer :=
  tc ← InitTypeCrc; Some {| dest_ := dest; block_offset_ := 0; type_crc_ := tc |}.

Definition Writer_new_at (dest : F) (dest_length : Z) : option Writer :=
  tc ← InitTypeCrc;
  Some {| dest_ := dest; block_offset_ := dest_length mod kBlockSize; type_crc_ := tc |}.

Definition set_dest (w : Writer) (f : F) : Writer :=
  {| dest_ := f; block_offset_ := block_offset_ w; type_crc_ := type_crc_ w |}.
Definition set_block_offset (w : Writer) (o : Z) : Writer :=
  {| dest_ := dest_ w; block_offset_ := o; type_crc_ := type_crc_ w |}.

(** [EmitPhysicalRecord(t, ptr, length)], [payload] being [ptr[0, length)]. *)
Definition EmitPhysicalRecord (w : Writer) (t : RecordType) (payload : bytes)
    : option (Writer * Status) :=
  let len := Z.of_nat (length payload) in
  ASSERT (len <=? 0xffff);
  ASSERT (block_offset_ w + kHeaderSize + len <=? kBlockSize);
  let buf := char_array (Z.to_nat kHeaderSize) in
  buf ← store buf 4 (byte_of (Z.land len 0xff));
  buf ← store buf 5 (byte_of (Z.shiftr len 8));
  buf ← store buf 6 (byte_of (RecordType_value t));
  tc ← type_crc_ w !! Z.to_nat (RecordType_value t);
  crc ← crc_Extend tc payload;
  let crc := Mask crc in
  buf ← EncodeFixed32 buf 0 crc;
  '(f, s) ← Append (dest_ w) buf;
  '(f, s) ← (if ok s
             then '(f, s) ← Append f payload;
                  if ok s then Flush f else Some (f, s)
             else Some (f, s));
  Some (set_block_offset (set_dest w f) (block_offset_ w + (kHeaderSize + len)), s).

(** The padding at the head of the loop body: six bytes of zeros at most, whose
    status the code drops. *)
Definition switch_block (w : Writer) : option Writer :=
  let leftover := kBlockSize - block_offset_ w in
  ASSERT (0 <=? leftover);
  if leftover <? kHeaderSize then
    w ← (if 0 <? leftover
         then '(f, _) ← Append (dest_ w) (take (Z.to_nat leftover) [x00; x00; x00; x00; x00; x00]);
              Some (set_dest w f)
         else Some w);
    Some (set_block_offset w 0)
  else Some w.

Definition record_type (begin end_ : bool) : RecordType :=
  if begin && end_ then kFullType
  else if begin then kFirstType
  else if end_ then kLastType
  else kMiddleType.

(** The [do ... while] loop: [data] is [ptr[0, left)]. *)
Fixpoint AddRecord_loop (fuel : nat) (w : Writer) (data : bytes) (begin : bool)
    : option (Writer * Status) :=
  match fuel with
  | O => None
  | S k =>
    w ← switch_block w;
    ASSERT (0 <=? kBlockSize - block_offset_ w - kHeaderSize);
    let avail := kBlockSize - block_offset_ w - kHeaderSize in
    let left := Z.of_nat (length data) in
    let fragment_length := if left <? avail then left else avail in
    let end_ := left =? fragment_length in
    let n := Z.to_nat fragment_length in
    '(w, s) ← EmitPhysicalRecord w (record_type begin end_) (take n data);
    if ok s && (0 <? left - fragment_length)
    then AddRecord_loop k w (drop n data) false
    else Some (w, s)
  end.

(** One iteration may write an empty FIRST fragment at the end of a block;
    every other one consumes a byte at least. *)
Definition AddRecord (w : Writer) (slice : bytes) : option (Writer * Status) :=
  AddRecord_loop (2 + length slice) w slice true.

End writer.
Arguments Writer : clear implicits.

Example AddRecord_example :
  (w ← Writer_new {| mem := [] |};
   '(w, s) ← AddRecord w (str "abc");
   Some (drop 4 (mem (dest_ w)), block_offset_ w, s))
  = Some ([x03; x00; x01] ++ str "abc", 10, OK).
Proof. vm_compute. reflexivity. Qed.
Example AddRecord_split_example :
  (w ← Writer_new_at {| mem := [] |} 32761;
   '(w, s) ← AddRecord w (str "abc");
   Some (length (mem (dest_ w)), block_offset_ w, s))
  = Some (17%nat, 10, OK).
Proof. vm_compute. reflexivity. Qed.

(** ** Proofs *)

Section proofs.
Context {F : Type} `{WritableFile F} `{Checksum} (crc : Z → bytes → Z) `{!ChecksumLaws crc}.
Implicit Types (w : Writer F) (t : RecordType).

Definition type_crcs : list Z := map (λ i, crc 0 [byte_of i]) [0; 1; 2; 3; 4].

(** The writer's invariant. *)
Definition Writer_ok (w : Writer F) : Prop :=
  type_crc_ w = type_crcs ∧ 0 <= block_offset_ w <= kBlockSize.

Definition off (w : Writer F) : nat := Z.to_nat (block_offset_ w).

Lemma zero_u32 : is_u32 0.
Proof. unfold is_u32. lia. Qed.

Lemma InitTypeCrc_eq : InitTypeCrc = Some type_crcs.
Proof.
  unfold InitTypeCrc. change (Z.to_nat (kMaxRecordType + 1)) with 5%nat.
  cbn [InitTypeCrc_loop]. unfold crc_Value.
  do 5 (rewrite crc_Extend_eq by apply zero_u32; cbn [mbind option_bind]). done.
Qed.

Lemma type_crcs_at t :
  type_crcs !! Z.to_nat (RecordType_value t) = Some (crc 0 [type_byte t]).
Proof. by destruct t. Qed.

Lemma type_crc_u32 t : is_u32 (crc 0 [type_byte t]).
Proof. apply crc_u32, zero_u32. Qed.

(** The record the three [Append]/[Flush] calls write. *)
Lemma EmitPhysicalRecord_eq w t p :
  Writer_ok w → block_offset_ w + kHeaderSize + Z.of_nat (length p) <= kBlockSize →
  EmitPhysicalRecord w t p =
    '(f, s) ← Append (dest_ w) (header crc (t, p));
    '(f, s) ← (if ok s then '(f, s) ← Append f p; if ok s then Flush f else Some (f, s)
               else Some (f, s));
    Some (set_block_offset (set_dest w f)
            (block_offset_ w + (kHeaderSize + Z.of_nat (length p))), s).
Proof.
  intros [Htc Hoff] Hfit. unfold kHeaderSize, kBlockSize in *. unfold EmitPhysicalRecord.
  rewrite (proj2 (Z.leb_le _ _)) by lia.
  rewrite (proj2 (Z.leb_le _ _)) by (unfold kHeaderSize, kBlockSize; lia).
  change (char_array (Z.to_nat kHeaderSize)) with [x00; x00; x00; x00; x00; x00; x00].
  set (b4 := byte_of (Z.land _ _)). set (b5 := byte_of (Z.shiftr _ _)).
  unfold store. cbn [length decide_rel decide]. rewrite !decide_True by (cbn [length insert list_insert]; lia).
  cbn [mbind option_bind insert list_insert].
  do 2 (rewrite decide_True by (cbn [length]; lia); cbn [mbind option_bind insert list_insert]).
  rewrite Htc, type_crcs_at. cbn [mbind option_bind].
  rewrite crc_Extend_eq by apply type_crc_u32. cbn [mbind option_bind].
  rewrite <- crc_app. cbn [app].
  pose proof (EncodeFixed32_app [] [x00; x00; x00; x00]
                [b4; b5; byte_of (RecordType_value t)] (Mask (crc 0 (type_byte t :: p))) eq_refl) as E.
  cbn [app length] in E. rewrite E. cbn [mbind option_bind].
  assert (le_bytes 4 (Mask (crc 0 (type_byte t :: p))) ++ [b4; b5; byte_of (RecordType_value t)]
          = header crc (t, p)) as ->; [|done].
  unfold header. cbn [fst snd le_bytes app]. do 4 f_equal. subst b4 b5.
  rewrite land_255, byte_of_mod, Z.shiftr_div_pow2 by lia. done.
Qed.

Lemma switch_block_eq w :
  Writer_ok w →
  switch_block w =
    w' ← (if decide (trailer (off w) = []) then Some w
          else '(f, _) ← Append (dest_ w) (trailer (off w)); Some (set_dest w f));
    Some (set_block_offset w' (Z.of_nat (start (off w)))).
Proof.
  intros [_ Hoff]. unfold switch_block. rewrite (proj2 (Z.leb_le _ _)) by lia.
  assert (Hbl : (blk - off w)%nat = Z.to_nat (kBlockSize - block_offset_ w))
    by (unfold off, blk, kBlockSize in *; lia).
  set (l := kBlockSize - block_offset_ w) in *.
  assert (Hl : 0 <= l) by lia. clearbody l.
  destruct (Z.ltb_spec l kHeaderSize) as [Hlt|Hge].
  - destruct (trailer_full (off w)) as [-> ->]; [unfold hdr; lia|].
    rewrite Hbl.
    assert (take (Z.to_nat l) [x00; x00; x00; x00; x00; x00] = replicate (Z.to_nat l) x00) as ->.
    { unfold kHeaderSize in Hlt. change (4 + 2 + 1) with 7 in Hlt.
      assert (Z.to_nat l < 7)%nat as Hn by lia. revert Hn. clear. generalize (Z.to_nat l).
      intros n Hn. do 7 (destruct n as [|n]; [done|]). lia. }
    destruct (Z.ltb_spec 0 l).
    + rewrite decide_False; [done|].
      intros E%(f_equal length). rewrite length_replicate in E. cbn in E. lia.
    + assert (l = 0) as -> by lia. done.
  - destruct (trailer_room (off w)) as [-> ->]; [unfold hdr; lia|].
    rewrite decide_True by done. cbn [mbind option_bind]. f_equal.
    unfold off. rewrite Z2Nat.id by lia. by destruct w.
Qed.

(** The payload of the next fragment. *)
Definition frag_len (o : nat) (data : bytes) : nat :=
  Nat.min (length data) (blk - start o - hdr).

Lemma off_le w : Writer_ok w → (off w ≤ blk)%nat.
Proof. intros [_ ?]. unfold off, blk. lia. Qed.

(** One iteration of the loop, once the block has been switched. *)
Lemma AddRecord_loop_eq k w w1 data begin :
  Writer_ok w → Writer_ok w1 → switch_block w = Some w1 → off w1 = start (off w) →
  let n := frag_len (off w) data in
  AddRecord_loop (S k) w data begin =
    '(w2, s) ← EmitPhysicalRecord w1 (record_type begin (bool_decide (n = length data)))
                 (take n data);
    if ok s && bool_decide (n < length data)%nat
    then AddRecord_loop k w2 (drop n data) false else Some (w2, s).
Proof.
  intros Hw Hw1 Hsw Hoff n. cbn [AddRecord_loop]. rewrite Hsw. cbn [mbind option_bind].
  pose proof (start_le (off w) (off_le w Hw)) as Hs. rewrite <- Hoff in Hs.
  destruct Hw1 as [_ Hb]. unfold off, blk, hdr in Hs.
  rewrite (proj2 (Z.leb_le _ _)) by lia.
  set (m := if _ <? _ then _ else _).
  assert (m = Z.of_nat n) as ->.
  { subst m n. unfold frag_len. rewrite <- Hoff. unfold off, blk, hdr.
    destruct (Z.ltb_spec (Z.of_nat (length data)) (kBlockSize - block_offset_ w1 - kHeaderSize));
      unfold kBlockSize, kHeaderSize in *; lia. }
  rewrite Nat2Z.id.
  assert ((Z.of_nat (length data) =? Z.of_nat n) = bool_decide (n = length data)) as ->.
  { case_bool_decide; [apply Z.eqb_eq|apply Z.eqb_neq]; lia. }
  assert ((0 <? Z.of_nat (length data) - Z.of_nat n) = bool_decide (n < length data)%nat) as ->.
  { case_bool_decide; [apply Z.ltb_lt|apply Z.ltb_ge]; lia. }
  done.
Qed.

Lemma Writer_ok_set w f o :
  Writer_ok w → 0 <= o <= kBlockSize → Writer_ok (set_block_offset (set_dest w f) o).
Proof. intros [? ?] ?. done. Qed.

(** The fragment fits what the switch leaves of the block. *)
Lemma frag_fits w w1 data :
  Writer_ok w → Writer_ok w1 → off w1 = start (off w) →
  block_offset_ w1 + kHeaderSize + Z.of_nat (length (take (frag_len (off w) data) data))
    <= kBlockSize.
Proof.
  intros Hw [_ Hb] Hoff. pose proof (start_le (off w) (off_le w Hw)) as Hs.
  rewrite length_take. unfold frag_len. rewrite <- Hoff in *. unfold off, blk, hdr in *. lia.
Qed.

(** What remains to be done: one iteration for each byte, and one for an empty
    first fragment. *)
Definition todo (w : Writer F) (data : bytes) : nat :=
  length data + if decide (start (off w) + hdr = blk)%nat then 1 else 0.

Lemma todo_step w w2 data :
  Writer_ok w → (frag_len (off w) data < length data)%nat →
  off w2 = (start (off w) + hdr + frag_len (off w) data)%nat →
  (todo w2 (drop (frag_len (off w) data) data) < todo w data)%nat.
Proof.
  intros Hw Hlt Hoff. unfold todo. rewrite length_drop.
  pose proof (start_le (off w) (off_le w Hw)) as Hs.
  unfold frag_len in *.
  assert (off w2 = blk) as Hb by lia. rewrite Hb.
  destruct (trailer_full blk) as [_ ->]; [unfold hdr, kHeaderSize; lia|].
  unfold blk, hdr, kBlockSize, kHeaderSize in *. repeat case_decide; lia.
Qed.

(** ** Any file: termination, assertions, the block invariant *)
Section total.
Context `{!WritableFileTotal F}.

Lemma switch_block_total w :
  Writer_ok w → ∃ w1, switch_block w = Some w1 ∧ Writer_ok w1 ∧ off w1 = start (off w).
Proof.
  intros Hw. rewrite switch_block_eq by done.
  pose proof (start_le (off w) (off_le w Hw)) as Hs. unfold blk in Hs.
  destruct Hw as [Htc _].
  assert (∀ v, off (set_block_offset v (Z.of_nat (start (off w)))) = start (off w)) as Ho
    by (intros v; unfold off; cbn; lia).
  case_decide.
  - eexists. split; [done|]. split; [|apply Ho]. split; [done|]. cbn [block_offset_ set_block_offset]. blk_lia.
  - destruct (Append_total (dest_ w) (trailer (off w))) as (f & s & ->).
    eexists. split; [done|]. split; [|apply Ho]. split; [done|]. cbn [block_offset_ set_block_offset]. blk_lia.
Qed.

Lemma EmitPhysicalRecord_total w t p :
  Writer_ok w → block_offset_ w + kHeaderSize + Z.of_nat (length p) <= kBlockSize →
  ∃ w' s, EmitPhysicalRecord w t p = Some (w', s) ∧ Writer_ok w'
    ∧ off w' = (off w + hdr + length p)%nat.
Proof.
  intros Hw Hfit. rewrite EmitPhysicalRecord_eq by done.
  destruct (Append_total (dest_ w) (header crc (t, p))) as (f1 & s1 & ->).
  cbn [mbind option_bind].
  assert (∃ f s, (if ok s1 then '(f, s) ← Append f1 p; if ok s then Flush f else Some (f, s)
                  else Some (f1, s1)) = Some (f, s)) as (f & s & ->).
  { destruct (ok s1); [|eauto]. destruct (Append_total f1 p) as (f2 & s2 & ->).
    cbn [mbind option_bind]. destruct (ok s2); [|eauto]. apply Flush_total. }
  cbn [mbind option_bind]. do 2 eexists. split; [done|]. destruct Hw as [Htc Hb]. split.
  - apply Writer_ok_set; [done|]. unfold kHeaderSize in *. lia.
  - unfold off, hdr. cbn [block_offset_ set_block_offset]. unfold kHeaderSize. lia.
Qed.

Lemma AddRecord_loop_total k w data begin :
  Writer_ok w → (todo w data < k)%nat →
  ∃ w' s, AddRecord_loop k w data begin = Some (w', s) ∧ Writer_ok w'.
Proof.
  revert w data begin. induction k as [|k IH]; intros w data begin Hw Hk; [lia|].
  destruct (switch_block_total w Hw) as (w1 & Hsw & Hw1 & Hoff).
  rewrite (AddRecord_loop_eq k w w1) by done. set (n := frag_len (off w) data).
  destruct (EmitPhysicalRecord_total w1 (record_type begin (bool_decide (n = length data)))
              (take n data)) as (w2 & s & -> & Hw2 & Hoff2); [done|by apply frag_fits|].
  cbn [mbind option_bind]. destruct (ok s); [|eauto]. case_bool_decide as Hn; [|eauto].
  apply IH; [done|]. eapply Nat.lt_le_trans; [apply todo_step; try done|lia].
  rewrite Hoff2, Hoff, length_take. subst n. unfold frag_len in *. lia.
Qed.
End total.

(** ** A reliable file: the bytes written *)
Section reliable.
Context (good : F → Prop) (contents : F → bytes) `{!WritableFileLaws F good contents}.

Lemma switch_block_good w :
  Writer_ok w → good (dest_ w) →
  ∃ w1, switch_block w = Some w1 ∧ Writer_ok w1 ∧ off w1 = start (off w) ∧ good (dest_ w1)
    ∧ contents (dest_ w1) = contents (dest_ w) ++ trailer (off w).
Proof.
  intros Hw Hg. rewrite switch_block_eq by done.
  pose proof (start_le (off w) (off_le w Hw)) as Hs. unfold blk in Hs.
  destruct Hw as [Htc _].
  assert (∀ v, off (set_block_offset v (Z.of_nat (start (off w)))) = start (off w)) as Ho
    by (intros v; unfold off; cbn; lia).
  case_decide as Htr.
  - eexists. split; [done|]. rewrite Htr, app_nil_r. split.
    { split; [done|]. cbn [block_offset_ set_block_offset]. blk_lia. }
    split_and!; try apply Ho; done.
  - destruct (Append_ok (dest_ w) (trailer (off w)) Hg) as (f & -> & Hf & Hc).
    eexists. split; [done|]. split.
    { split; [done|]. cbn [block_offset_ set_block_offset]. blk_lia. }
    split_and!; try apply Ho; done.
Qed.

Lemma EmitPhysicalRecord_good w t p :
  Writer_ok w → good (dest_ w) →
  block_offset_ w + kHeaderSize + Z.of_nat (length p) <= kBlockSize →
  ∃ w', EmitPhysicalRecord w t p = Some (w', OK) ∧ Writer_ok w'
    ∧ off w' = (off w + hdr + length p)%nat ∧ good (dest_ w')
    ∧ contents (dest_ w') = contents (dest_ w) ++ header crc (t, p) ++ p.
Proof.
  intros Hw Hg Hfit. rewrite EmitPhysicalRecord_eq by done.
  destruct (Append_ok (dest_ w) (header crc (t, p)) Hg) as (f1 & -> & Hg1 & Hc1).
  cbn [mbind option_bind]. change (ok OK) with true. cbn iota.
  destruct (Append_ok f1 p Hg1) as (f2 & -> & Hg2 & Hc2).
  cbn [mbind option_bind]. change (ok OK) with true. cbn iota.
  destruct (Flush_ok f2 Hg2) as (f3 & -> & Hg3 & Hc3). cbn [mbind option_bind].
  eexists. split; [done|]. destruct Hw as [Htc Hb]. split.
  { apply Writer_ok_set; [done|]. unfold kHeaderSize in *. lia. }
  split; [|split; [done|]].
  - unfold off, hdr. cbn [block_offset_ set_block_offset]. unfold kHeaderSize. lia.
  - cbn [dest_ set_block_offset set_dest]. by rewrite Hc3, Hc2, Hc1, (assoc_L (++)).
Qed.

Lemma AddRecord_loop_good k w data begin :
  Writer_ok w → good (dest_ w) → (todo w data < k)%nat →
  ∃ w' items, AddRecord_loop k w data begin = Some (w', OK)
    ∧ Writer_ok w' ∧ good (dest_ w')
    ∧ fragments begin data items ∧ phys_ok (off w) items ∧ off w' = phys_off (off w) items
    ∧ contents (dest_ w') = contents (dest_ w) ++ phys_bytes crc (off w) items.
Proof.
  revert w data begin. induction k as [|k IH]; intros w data begin Hw Hg Hk; [lia|].
  destruct (switch_block_good w Hw Hg) as (w1 & Hsw & Hw1 & Hoff & Hg1 & Hc1).
  rewrite (AddRecord_loop_eq k w w1) by done.
  pose proof (off_le w Hw) as Hle. pose proof (start_le _ Hle) as Hs.
  set (n := frag_len (off w) data).
  assert (n ≤ length data ∧ start (off w) + hdr + n ≤ blk)%nat as [Hn Hnb]
    by (subst n; unfold frag_len; lia).
  set (t := record_type begin (bool_decide (n = length data))).
  destruct (EmitPhysicalRecord_good w1 t (take n data))
    as (w2 & -> & Hw2 & Hoff2 & Hg2 & Hc2); [done..|by apply frag_fits|].
  rewrite Hoff, length_take, Nat.min_l in Hoff2 by lia. rewrite Hc1, <- (assoc_L (++)) in Hc2.
  cbn [mbind option_bind]. change (ok OK) with true. cbn [andb].
  case_bool_decide as Hlt.
  - destruct (IH w2 (drop n data) false) as (w' & items & -> & Hw' & Hg' & Hfr & Hok & Ho & Hc).
    { done. } { done. }
    { eapply Nat.lt_le_trans; [apply todo_step; done|lia]. }
    assert (t = if begin then kFirstType else kMiddleType) as Ht.
    { subst t. rewrite bool_decide_eq_false_2 by lia. by destruct begin. }
    exists w', ((t, take n data) :: items). split_and!; try done.
    + rewrite Ht. rewrite <- (take_drop n data) at 1. by destruct begin; constructor.
    + cbn [phys_ok fst snd]. rewrite length_take, Nat.min_l, <- Hoff2 by lia.
      split_and!; try done; [lia|]. rewrite Ht. by destruct begin.
    + cbn [phys_off snd]. by rewrite length_take, Nat.min_l, <- Hoff2 by lia.
    + cbn [phys_bytes fst snd]. rewrite Hc, Hc2, length_take, Nat.min_l, <- Hoff2 by lia.
      by rewrite <- !(assoc_L (++)).
  - assert (n = length data) as En by lia.
    rewrite firstn_all2 in * by lia.
    assert (t = if begin then kFullType else kLastType) as Ht.
    { subst t. rewrite bool_decide_eq_true_2 by done. by destruct begin. }
    exists w2, [(t, data)]. split_and!; try done.
    + rewrite Ht. by destruct begin; constructor.
    + cbn [phys_ok fst snd]. split_and!; [done|lia| |lia]. rewrite Ht. by destruct begin.
    + cbn [phys_off snd]. by rewrite <- En.
    + cbn [phys_bytes fst snd]. rewrite Hc2, app_nil_r. done.
Qed.
End reliable.

Lemma todo_fuel w data : (todo w data < 2 + length data)%nat.
Proof. unfold todo. case_decide; lia. Qed.

Lemma Writer_new_ok dest :
  ∃ w, Writer_new dest = Some w ∧ Writer_ok w ∧ dest_ w = dest ∧ off w = 0%nat.
Proof.
  unfold Writer_new. rewrite InitTypeCrc_eq. eexists. split; [done|].
  split; [|done]. split; [done|]. cbn. unfold kBlockSize. lia.
Qed.

Lemma Writer_new_at_ok dest n :
  0 <= n → ∃ w, Writer_new_at dest n = Some w ∧ Writer_ok w ∧ dest_ w = dest
    ∧ off w = (Z.to_nat n mod blk)%nat.
Proof.
  intros Hn. unfold Writer_new_at. rewrite InitTypeCrc_eq. eexists. split; [done|].
  split; [|split; [done|]].
  - split; [done|]. cbn. pose proof (Z.mod_pos_bound n kBlockSize eq_refl). lia.
  - unfold off, blk. cbn [block_offset_]. by rewrite Z2Nat.inj_mod.
Qed.

Lemma AddRecord_good good contents `{!WritableFileLaws F good contents} w data :
  Writer_ok w → good (dest_ w) →
  ∃ w' items, AddRecord w data = Some (w', OK)
    ∧ Writer_ok w' ∧ good (dest_ w')
    ∧ fragments true data items ∧ phys_ok (off w) items ∧ off w' = phys_off (off w) items
    ∧ contents (dest_ w') = contents (dest_ w) ++ phys_bytes crc (off w) items.
Proof. intros. by apply AddRecord_loop_good; [..|apply todo_fuel]. Qed.

(** C8: on a file whose writes succeed, [AddRecord] returns OK and appends
    exactly one run of physical records — a FULL one, or FIRST, MIDDLEs and
    LAST, whose payloads concatenate to the record — laid out by the format:
    masked checksum, length and type before each payload, zeros at the end of a
    block with no room for a header, no physical record across a block boundary.
    Both constructors establish the writer's invariant and [AddRecord] keeps it,
    the block offset following the bytes written. *)
Theorem AddRecord_correct good contents `{!WritableFileLaws F good contents} w data :
  Writer_ok w → good (dest_ w) →
  (∃ w' items, AddRecord w data = Some (w', OK)
    ∧ Writer_ok w' ∧ good (dest_ w')
    ∧ fragments true data items ∧ phys_ok (off w) items ∧ off w' = phys_off (off w) items
    ∧ contents (dest_ w') = contents (dest_ w) ++ phys_bytes crc (off w) items)
  ∧ (∀ f, ∃ w0, Writer_new f = Some w0 ∧ Writer_ok w0 ∧ dest_ w0 = f ∧ off w0 = 0%nat)
  ∧ (∀ f n, 0 <= n → ∃ w0, Writer_new_at f n = Some w0 ∧ Writer_ok w0 ∧ dest_ w0 = f
      ∧ off w0 = (Z.to_nat n mod blk)%nat).
Proof.
  intros. split_and!; [by apply AddRecord_good|apply Writer_new_ok|apply Writer_new_at_ok].
Qed.

(** Whatever the statuses the file returns, [AddRecord] terminates, trips
    none of the assertions on offsets and lengths, keeps the block offset inside
    the block, and stops at the first physical record that fails: when the
    header cannot be appended, its status is the result and the payload is never
    appended. *)
Theorem AddRecord_total `{!WritableFileTotal F} w data :
  Writer_ok w →
  (∃ w' s, AddRecord w data = Some (w', s) ∧ Writer_ok w')
  ∧ ∀ f s, trailer (off w) = [] →
      let n := frag_len (off w) data in
      let t := record_type true (bool_decide (n = length data)) in
      Append (dest_ w) (header crc (t, take n data)) = Some (f, s) → ok s = false →
      ∃ w', AddRecord w data = Some (w', s) ∧ dest_ w' = f ∧ Writer_ok w'.
Proof.
  intros Hw. split; [by apply AddRecord_loop_total, todo_fuel|].
  intros f s Htr n t Happ Hs.
  destruct (switch_block_total w Hw) as (w1 & Hsw & Hw1 & Hoff).
  unfold AddRecord. cbn [Nat.add]. rewrite (AddRecord_loop_eq _ w w1) by done.
  pose proof (frag_fits w w1 data Hw Hw1 Hoff) as Hfit.
  rewrite EmitPhysicalRecord_eq by done. fold n. fold t.
  rewrite switch_block_eq in Hsw by done. rewrite decide_True in Hsw by done.
  cbn [mbind option_bind] in Hsw. simplify_eq. cbn [dest_ set_block_offset].
  rewrite Happ. cbn [mbind option_bind]. rewrite Hs. cbn [mbind option_bind]. rewrite Hs.
  cbn [andb]. eexists. split; [done|]. split; [done|].
  subst n. destruct Hw1 as [? ?]. apply Writer_ok_set; [done|]. unfold kHeaderSize in *. lia.
Qed.

(** The block is switched although its padding could not be written. *)
Lemma switch_block_lost w f s :
  Writer_ok w → trailer (off w) ≠ [] → Append (dest_ w) (trailer (off w)) = Some (f, s) →
  switch_block w = Some (set_block_offset (set_dest w f) 0).
Proof.
  intros Hw Htr Happ. rewrite switch_block_eq, decide_False, Happ by done.
  cbn [mbind option_bind]. destruct (decide (blk - off w < hdr)%nat) as [Hlt|Hge].
  - by destruct (trailer_full (off w) Hlt) as [_ ->].
  - destruct (trailer_room (off w)) as [Ht _]; [lia|]. by destruct Htr.
Qed.

Lemma switch_block_start w : block_offset_ w = 0 → switch_block w = Some w.
Proof. intros Hb. unfold switch_block. by rewrite Hb. Qed.

Lemma AddRecord_switch w w0 data :
  switch_block w = Some w0 → switch_block w0 = Some w0 → AddRecord w data = AddRecord w0 data.
Proof.
  intros H1 H2. unfold AddRecord. cbn [Nat.add AddRecord_loop]. by rewrite H1, H2.
Qed.

(** The status of the zero padding is dropped: when the padding of a block
    cannot be written but the following writes succeed, [AddRecord] reports OK
    although the record now starts at a file offset that is not a block
    boundary, where readers will not look for it. *)
Theorem AddRecord_drops_trailer_error good contents `{!WritableFileLaws F good contents} w data f s :
  Writer_ok w → trailer (off w) ≠ [] →
  Append (dest_ w) (trailer (off w)) = Some (f, s) → ok s = false →
  good f → contents f = contents (dest_ w) →
  ∃ w' items, AddRecord w data = Some (w', OK)
    ∧ fragments true data items ∧ phys_ok 0 items
    ∧ contents (dest_ w') = contents (dest_ w) ++ phys_bytes crc 0 items.
Proof.
  intros Hw Htr Happ Hs Hg Hc.
  set (w0 := set_block_offset (set_dest w f) 0).
  assert (Writer_ok w0) as Hw0 by (apply Writer_ok_set; [done|unfold kBlockSize; lia]).
  rewrite (AddRecord_switch w w0)
    by first [by apply (switch_block_lost w f s)|by apply switch_block_start].
  destruct (AddRecord_good good contents w0 data)
    as (w' & items & -> & _ & _ & Hfr & Hok & _ & Hcont); [done..|].
  exists w', items. split_and!; [done..|]. rewrite Hcont. by rewrite <- Hc.
Qed.
End proofs.

(** ** Concrete writers *)

(** A file whose next [fail_in]-th append fails, for the error paths. *)
Record FlakyFile := { flaky_mem : bytes; fail_in : nat }.
#[export] Instance FlakyFile_writable : WritableFile FlakyFile := {
  Append f d := match fail_in f with
    | O => Some ({| flaky_mem := flaky_mem f ++ d; fail_in := 0 |}, OK)
    | 1%nat => s ← IOError (str "disk full") []; Some ({| flaky_mem := flaky_mem f; fail_in := 0 |}, s)
    | S k => Some ({| flaky_mem := flaky_mem f ++ d; fail_in := k |}, OK)
    end;
  Close f := Some (f, OK);
  Flush f := Some (f, OK);
  Sync f := Some (f, OK)
}.
#[export] Instance FlakyFile_total : WritableFileTotal FlakyFile.
Proof. split; intros [m [|[|n]]]; cbn; eauto. Qed.
#[export] Instance FlakyFile_laws : WritableFileLaws FlakyFile (λ f, fail_in f = 0%nat) flaky_mem.
Proof.
  split; [intros [m n] d Hf|intros [m n] Hf]; cbn in Hf; subst; cbn; eexists; split_and!; done.
Qed.

Lemma AddRecord_correct_witness :
  let w := {| dest_ := {| mem := [] |}; block_offset_ := 32760; type_crc_ := type_crcs crc32c |} in
  (∃ w' items, AddRecord w (str "hello") = Some (w', OK)
    ∧ Writer_ok crc32c w' ∧ True
    ∧ fragments true (str "hello") items ∧ phys_ok (off w) items ∧ off w' = phys_off (off w) items
    ∧ mem (dest_ w') = [] ++ phys_bytes crc32c (off w) items)
  ∧ (∀ f : MemFile, ∃ w0, Writer_new f = Some w0 ∧ Writer_ok crc32c w0 ∧ dest_ w0 = f ∧ off w0 = 0%nat)
  ∧ (∀ (f : MemFile) n, 0 <= n → ∃ w0, Writer_new_at f n = Some w0 ∧ Writer_ok crc32c w0 ∧ dest_ w0 = f
      ∧ off w0 = (Z.to_nat n mod blk)%nat).
Proof.
  intros w. apply (AddRecord_correct crc32c (λ _, True) mem w (str "hello")); [|done].
  split; [reflexivity|]. split; discriminate.
Defined.

Lemma AddRecord_total_witness :
  let w := {| dest_ := {| flaky_mem := []; fail_in := 1 |}; block_offset_ := 0;
              type_crc_ := type_crcs crc32c |} in
  (∃ w' s, AddRecord w (str "hello") = Some (w', s) ∧ Writer_ok crc32c w')
  ∧ ∀ f s, trailer (off w) = [] →
      let n := frag_len (off w) (str "hello") in
      let t := record_type true (bool_decide (n = length (str "hello"))) in
      Append (dest_ w) (header crc32c (t, take n (str "hello"))) = Some (f, s) → ok s = false →
      ∃ w', AddRecord w (str "hello") = Some (w', s) ∧ dest_ w' = f ∧ Writer_ok crc32c w'.
Proof.
  intros w. apply (AddRecord_total crc32c w (str "hello")).
  split; [reflexivity|]. split; discriminate.
Defined.

Lemma AddRecord_drops_trailer_error_witness :
  let w := {| dest_ := {| flaky_mem := []; fail_in := 1 |}; block_offset_ := 32766;
              type_crc_ := type_crcs crc32c |} in
  ∃ w' items, AddRecord w (str "lost") = Some (w', OK)
    ∧ fragments true (str "lost") items ∧ phys_ok 0 items
    ∧ flaky_mem (dest_ w') = [] ++ phys_bytes crc32c 0 items.
Proof.
  intros w.
  apply (AddRecord_drops_trailer_error crc32c (λ f, fail_in f = 0%nat) flaky_mem w (str "lost")
    {| flaky_mem := []; fail_in := 0 |}
    (Some (state_of kIOError (full_msg (str "disk full") [])))); try (vm_compute; reflexivity).
  - split; [reflexivity|]. split; discriminate.
  - intros E. vm_compute in E. discriminate.
Defined.
