(* ===== verification/LogReader.v ===== *)
(** The log reader, db/log_reader.h and db/log_reader.cc, over any file and
    checksum. *)
From S2P Require Import Prelude Slice Coding Crc32c Logging Status File LogFormat LogWriter.
Local Open Scope Z_scope.

Section reader.
Context {F : Type} `{SequentialFile F} `{Checksum}.

(** [reporter_] is null or the corruptions reported so far, oldest first;
    [buffer_] is what it denotes of the backing store. *)
Record Reader := {
  file_ : F;
  reporter_ : option (list (Z * Status));
  checksum_ : bool;
  buffer_ : bytes;
  eof_ : bool;
  last_record_offset_ : Z;
  end_of_buffer_offset_ : Z;
  initial_offset_ : Z;
  resyncing_ : bool
}.

Definition Reader_new (file : F) (reporter : option (list (Z * Status))) (checksum : bool)
    (initial_offset : Z) : Reader :=
  {| file_ := file; reporter_ := reporter; checksum_ := checksum; buffer_ := []; eof_ := false;
     last_record_offset_ := 0; end_of_buffer_offset_ := 0; initial_offset_ := initial_offset;
     resyncing_ := 0 <? initial_offset |}.

(** Assignments to the members. *)
Definition set_file (r : Reader) (f : F) : Reader :=
  {| file_ := f; reporter_ := reporter_ r; checksum_ := checksum_ r; buffer_ := buffer_ r;
     eof_ := eof_ r; last_record_offset_ := last_record_offset_ r;
     end_of_buffer_offset_ := end_of_buffer_offset_ r; initial_offset_ := initial_offset_ r;
     resyncing_ := resyncing_ r |}.
Definition set_reporter (r : Reader) x : Reader :=
  {| file_ := file_ r; reporter_ := x; checksum_ := checksum_ r; buffer_ := buffer_ r;
     eof_ := eof_ r; last_record_offset_ := last_record_offset_ r;
     end_of_buffer_offset_ := end_of_buffer_offset_ r; initial_offset_ := initial_offset_ r;
     resyncing_ := resyncing_ r |}.
Definition set_buffer (r : Reader) (b : bytes) : Reader :=
  {| file_ := file_ r; reporter_ := reporter_ r; checksum_ := checksum_ r; buffer_ := b;
     eof_ := eof_ r; last_record_offset_ := last_record_offset_ r;
     end_of_buffer_offset_ := end_of_buffer_offset_ r; initial_offset_ := initial_offset_ r;
     resyncing_ := resyncing_ r |}.
Definition set_eof (r : Reader) (b : bool) : Reader :=
  {| file_ := file_ r; reporter_ := reporter_ r; checksum_ := checksum_ r; buffer_ := buffer_ r;
     eof_ := b; last_record_offset_ := last_record_offset_ r;
     end_of_buffer_offset_ := end_of_buffer_offset_ r; initial_offset_ := initial_offset_ r;
     resyncing_ := resyncing_ r |}.
Definition set_last (r : Reader) (o : Z) : Reader :=
  {| file_ := file_ r; reporter_ := reporter_ r; checksum_ := checksum_ r; buffer_ := buffer_ r;
     eof_ := eof_ r; last_record_offset_ := o;
     end_of_buffer_offset_ := end_of_buffer_offset_ r; initial_offset_ := initial_offset_ r;
     resyncing_ := resyncing_ r |}.
Definition set_end (r : Reader) (o : Z) : Reader :=
  {| file_ := file_ r; reporter_ := reporter_ r; checksum_ := checksum_ r; buffer_ := buffer_ r;
     eof_ := eof_ r; last_record_offset_ := last_record_offset_ r;
     end_of_buffer_offset_ := o; initial_offset_ := initial_offset_ r;
     resyncing_ := resyncing_ r |}.
Definition set_resyncing (r : Reader) (b : bool) : Reader :=
  {| file_ := file_ r; reporter_ := reporter_ r; checksum_ := checksum_ r; buffer_ := buffer_ r;
     eof_ := eof_ r; last_record_offset_ := last_record_offset_ r;
     end_of_buffer_offset_ := end_of_buffer_offset_ r; initial_offset_ := initial_offset_ r;
     resyncing_ := b |}.

Definition size (b : bytes) : Z := Z.of_nat (length b).

Definition kEof : Z := kMaxRecordType + 1.
Definition kBadRecord : Z := kMaxRecordType + 2.

Definition ReportDrop (r : Reader) (nbytes : Z) (reason : Status) : Reader :=
  match reporter_ r with
  | Some reports =>
    if initial_offset_ r <=? u64 (end_of_buffer_offset_ r - size (buffer_ r) - nbytes)
    then set_reporter r (Some (reports ++ [(nbytes, reason)])) else r
  | None => r
  end.

Definition ReportCorruption (r : Reader) (nbytes : Z) (reason : bytes) : option Reader :=
  s ← Corruption reason []; Some (ReportDrop r nbytes s).

Definition SkipToInitialBlock (r : Reader) : option (Reader * bool) :=
  let offset_in_block := initial_offset_ r mod kBlockSize in
  let block_start_location := initial_offset_ r - offset_in_block in
  let block_start_location :=
    if kBlockSize - 6 <? offset_in_block then u64 (block_start_location + kBlockSize)
    else block_start_location in
  let r := set_end r block_start_location in
  if 0 <? block_start_location then
    '(f, skip_status) ← Skip (file_ r) block_start_location;
    let r := set_file r f in
    if negb (ok skip_status) then Some (ReportDrop r block_start_location skip_status, false)
    else Some (r, true)
  else Some (r, true).

(** [unsigned int type = header[6]]: the conversion of a signed [char]. *)
Definition header_type (header : bytes) : option Z := c ← load header 6; Some (u32 (s8 c)).
Definition header_length (header : bytes) : option Z :=
  c4 ← load header 4; c5 ← load header 5;
  let a := Z.land (u32 (s8 c4)) 0xff in
  let b := Z.land (u32 (s8 c5)) 0xff in
  Some (Z.lor a (Z.shiftl b 8)).

(** The comparison under [if (checksum_)]. *)
Definition verify_checksum (r : Reader) (len : Z) : option bool :=
  let header := buffer_ r in
  if checksum_ r then
    masked ← DecodeFixed32 header 0;
    let expected_crc := Unmask masked in
    data ← load_range header 6 (Z.to_nat (1 + len));
    actual_crc ← crc_Value data;
    Some (actual_crc =? expected_crc)
  else Some true.

(** The part of the loop body after the header is known to be in the buffer;
    the results are the type returned and [*result]. *)
Definition parse_record (r : Reader) (result : bytes) : option (Reader * Z * bytes) :=
  let header := buffer_ r in
  type ← header_type header;
  len ← header_length header;
  if size (buffer_ r) <? kHeaderSize + len then
    let drop_size := size (buffer_ r) in
    let r := set_buffer r [] in
    if negb (eof_ r) then
      r ← ReportCorruption r drop_size (str "bad record length"); Some (r, kBadRecord, result)
    else Some (r, kEof, result)
  else if (type =? RecordType_value kZeroType) && (len =? 0) then
    Some (set_buffer r [], kBadRecord, result)
  else
    good ← verify_checksum r len;
    if negb good then
      let drop_size := size (buffer_ r) in
      let r := set_buffer r [] in
      r ← ReportCorruption r drop_size (str "checksum mismatch"); Some (r, kBadRecord, result)
    else
      b ← remove_prefix (buffer_ r) (Z.to_nat (kHeaderSize + len));
      let r := set_buffer r b in
      if u64 (end_of_buffer_offset_ r - size (buffer_ r) - kHeaderSize - len) <? initial_offset_ r
      then Some (r, kBadRecord, [])
      else
        data ← load_range header (Z.to_nat kHeaderSize) (Z.to_nat len);
        Some (r, type, data).

Fixpoint ReadPhysicalRecord_loop (fuel : nat) (r : Reader) (result : bytes)
    : option (Reader * Z * bytes) :=
  match fuel with
  | O => None
  | S k =>
    if size (buffer_ r) <? kHeaderSize then
      if negb (eof_ r) then
        '(f, status, res) ← Read (file_ r) kBlockSize;
        let r := set_buffer (set_file r f) (default [] res) in
        let r := set_end r (u64 (end_of_buffer_offset_ r + size (buffer_ r))) in
        if negb (ok status) then
          let r := ReportDrop (set_buffer r []) kBlockSize status in
          Some (set_eof r true, kEof, result)
        else if size (buffer_ r) <? kBlockSize then
          ReadPhysicalRecord_loop k (set_eof r true) result
        else ReadPhysicalRecord_loop k r result
      else Some (set_buffer r [], kEof, result)
    else parse_record r result
  end.

(** A second iteration follows a read and a third never happens: the buffer is
    then full, or the end of the file has been seen. *)
Definition ReadPhysicalRecord (r : Reader) (result : bytes) : option (Reader * Z * bytes) :=
  ReadPhysicalRecord_loop 3 r result.

(** The local variables of [ReadRecord]. *)
Record Locals := {
  fragment : bytes; scratch : bytes;
  in_fragmented_record : bool; prospective_record_offset : Z
}.

(** The [switch] returns from [ReadRecord] with [record], or goes on. *)
Inductive outcome := Return (ok : bool) (record : bytes) | Continue.

Definition unknown_type_text (t : Z) : option bytes :=
  let buf := str "unknown record type " ++ print_llu t in
  ASSERT (length buf <? 40)%nat; Some buf.

Definition when_scratch (r : Reader) (v : Locals) (reason : bytes) : option Reader :=
  if in_fragmented_record v && negb (Slice_empty (scratch v))
  then ReportCorruption r (size (scratch v)) reason else Some r.

(** The body of the loop of [ReadRecord]. *)
Definition ReadRecord_body (r : Reader) (v : Locals) : option (Reader * Locals * outcome) :=
  '(r, record_type, fragment) ← ReadPhysicalRecord r (fragment v);
  let v := {| fragment := fragment; scratch := scratch v;
              in_fragmented_record := in_fragmented_record v;
              prospective_record_offset := prospective_record_offset v |} in
  let physical_record_offset :=
    u64 (end_of_buffer_offset_ r - size (buffer_ r) - kHeaderSize - size fragment) in
  if resyncing_ r && (record_type =? RecordType_value kMiddleType) then Some (r, v, Continue)
  else if resyncing_ r && (record_type =? RecordType_value kLastType) then
    Some (set_resyncing r false, v, Continue)
  else
  let r := set_resyncing r false in
  let set_v sc inf pro := {| fragment := fragment; scratch := sc; in_fragmented_record := inf;
                             prospective_record_offset := pro |} in
  if record_type =? RecordType_value kFullType then
    r ← when_scratch r v (str "partial record without end(1)");
    let pro := physical_record_offset in
    Some (set_last r pro, set_v [] (in_fragmented_record v) pro, Return true fragment)
  else if record_type =? RecordType_value kFirstType then
    r ← when_scratch r v (str "partial record without end(2)");
    Some (r, set_v fragment true physical_record_offset, Continue)
  else if record_type =? RecordType_value kMiddleType then
    if negb (in_fragmented_record v) then
      r ← ReportCorruption r (size fragment) (str "missing start of fragmented record(1)");
      Some (r, v, Continue)
    else
      Some (r, set_v (scratch v ++ fragment) (in_fragmented_record v) (prospective_record_offset v),
            Continue)
  else if record_type =? RecordType_value kLastType then
    if negb (in_fragmented_record v) then
      r ← ReportCorruption r (size fragment) (str "missing start of fragmented record(2)");
      Some (r, v, Continue)
    else
      let sc := scratch v ++ fragment in
      Some (set_last r (prospective_record_offset v),
            set_v sc (in_fragmented_record v) (prospective_record_offset v), Return true sc)
  else if record_type =? kEof then
    let sc := if in_fragmented_record v then [] else scratch v in
    Some (r, set_v sc (in_fragmented_record v) (prospective_record_offset v), Return false [])
  else if record_type =? kBadRecord then
    if in_fragmented_record v then
      r ← ReportCorruption r (size (scratch v)) (str "error in middle of record");
      Some (r, set_v [] false (prospective_record_offset v), Continue)
    else Some (r, v, Continue)
  else
    buf ← unknown_type_text record_type;
    r ← ReportCorruption r
          (size fragment + (if in_fragmented_record v then size (scratch v) else 0)) buf;
    Some (r, set_v [] false (prospective_record_offset v), Continue).

Fixpoint ReadRecord_loop (fuel : nat) (r : Reader) (v : Locals)
    : option (Reader * bool * bytes) :=
  match fuel with
  | O => None
  | S k =>
    '(r, v, o) ← ReadRecord_body r v;
    match o with
    | Return b record => Some (r, b, record)
    | Continue => ReadRecord_loop k r v
    end
  end.

(** [ReadRecord]: the returned boolean and [*record].  [fuel] bounds the
    physical records looked at. *)
Definition ReadRecord (fuel : nat) (r : Reader) : option (Reader * bool * bytes) :=
  '(r, go) ← (if last_record_offset_ r <? initial_offset_ r
              then SkipToInitialBlock r else Some (r, true));
  if negb go then Some (r, false, [])
  else ReadRecord_loop fuel r
         {| fragment := []; scratch := []; in_fragmented_record := false;
            prospective_record_offset := 0 |}.

Definition LastRecordOffset (r : Reader) : Z := last_record_offset_ r.

(** A client that reads records until [ReadRecord] returns false, noting each
    record with its [LastRecordOffset]. *)
Fixpoint read_all (n fuel : nat) (r : Reader) : option (Reader * list (bytes * Z)) :=
  match n with
  | O => None
  | S n =>
    '(r, b, record) ← ReadRecord fuel r;
    if (b : bool)
    then '(r', records) ← read_all n fuel r; Some (r', (record, LastRecordOffset r) :: records)
    else Some (r, [])
  end.
End reader.
Arguments Reader : clear implicits.

(** A client that adds records one after the other while they are accepted. *)
Fixpoint write_all `{WritableFile F} `{Checksum} (w : Writer F) (records : list bytes)
    : option (Writer F) :=
  match records with
  | [] => Some w
  | d :: ds => '(w, s) ← AddRecord w d; if ok s then write_all w ds else None
  end.

Example read_written_example :
  (w ← Writer_new {| mem := [] |};
   w ← write_all w [str "abc"; []; repeat x61 20];
   '(r, rs) ← read_all 5 20 (Reader_new (dest_ w) (Some []) true 3);
   Some (rs, reporter_ r, last_record_offset_ r))
  = Some ([([], 10); (repeat x61 20, 17)], Some [], 17).
Proof. vm_compute. reflexivity. Qed.

(** ** Proofs *)

Lemma unknown_type_text_eq t :
  0 <= t < 2 ^ 32 → ∃ b, unknown_type_text t = Some b ∧ (length b < 40)%nat.
Proof.
  intros Ht. unfold unknown_type_text.
  pose proof (digits_length 10 t [] ltac:(lia) ltac:(lia) 20) as Hl.
  assert (length (str "unknown record type " ++ print_llu t) < 40)%nat as Hb.
  { rewrite length_app. unfold print_llu. cbn [length] in Hl.
    change (length (str "unknown record type ")) with 20%nat. lia. }
  rewrite (proj2 (Nat.ltb_lt _ _)) by done. eauto.
Qed.

Lemma land_s8 c : Z.land (u32 (s8 c)) 0xff = u8 c.
Proof.
  pose proof (u8_range c). rewrite land_255. unfold u32, s8.
  destruct (Z.ltb_spec (u8 c) 128); lia_div.
Qed.

Section parse.
Context {F : Type} `{SequentialFile F} `{Checksum} (crc : Z → bytes → Z) `{!ChecksumLaws crc}.
Implicit Types (r : Reader F) (v : Locals).

(** Reporting changes nothing but the reports. *)
Lemma ReportDrop_fields r n s : ∃ x, ReportDrop r n s = set_reporter r x.
Proof.
  unfold ReportDrop. destruct (reporter_ r) eqn:E; [case_match; [eauto|]|];
    exists (reporter_ r); by destruct r.
Qed.

Lemma ReportCorruption_eq r n m :
  Z.of_nat (length m) + 7 < 2 ^ 32 →
  ReportCorruption r n m = Some (ReportDrop r n (Some (state_of kCorruption (full_msg m [])))).
Proof.
  intros Hm. unfold ReportCorruption, Corruption.
  rewrite Status_new_eq; [done..|]. unfold msg_fits. cbn [length]. lia.
Qed.

Lemma ReportCorruption_total r n m :
  Z.of_nat (length m) + 7 < 2 ^ 32 → ∃ x, ReportCorruption r n m = Some (set_reporter r x).
Proof.
  intros Hm. rewrite ReportCorruption_eq by done.
  destruct (ReportDrop_fields r n (Some (state_of kCorruption (full_msg m [])))) as [x ->]. eauto.
Qed.

(** The length and type fields of a header that is in the buffer. *)
Lemma header_fields b :
  kHeaderSize <= size b →
  ∃ t len, header_type b = Some t ∧ header_length b = Some (Z.of_nat len)
    ∧ 0 <= t < 2 ^ 32 ∧ Z.of_nat len < 65536.
Proof.
  unfold size, kHeaderSize. intros Hb.
  assert (∀ i, (i < 7)%nat → ∃ c, load b i = Some c) as Hload.
  { intros i Hi. apply lookup_lt_is_Some_2. lia. }
  destruct (Hload 4%nat) as [c4 H4]; [lia|]. destruct (Hload 5%nat) as [c5 H5]; [lia|].
  destruct (Hload 6%nat) as [c6 H6]; [lia|].
  pose proof (u8_range c4). pose proof (u8_range c5).
  exists (u32 (s8 c6)), (Z.to_nat (u8 c4 + u8 c5 * 2 ^ 8)).
  unfold header_type, header_length. rewrite H4, H5, H6. cbn [mbind option_bind].
  rewrite !land_s8, lor_shiftl_add by lia. split_and!; [done| |apply u32_range..|lia].
  f_equal. lia.
Qed.

Lemma DecodeFixed32_total b : (4 ≤ length b)%nat → ∃ m, DecodeFixed32 b 0 = Some m.
Proof.
  intros Hb. do 4 (destruct b as [|? b]; [cbn in Hb; lia|]). unfold DecodeFixed32. cbn. eauto.
Qed.

Lemma verify_checksum_total r len :
  kHeaderSize + Z.of_nat len <= size (buffer_ r) →
  ∃ good, verify_checksum r (Z.of_nat len) = Some good.
Proof.
  unfold size, kHeaderSize. intros Hb. unfold verify_checksum.
  destruct (checksum_ r); [|eauto].
  destruct (DecodeFixed32_total (buffer_ r)) as [m ->]; [lia|]. cbn [mbind option_bind].
  rewrite load_range_Some by lia. cbn [mbind option_bind].
  unfold crc_Value. rewrite crc_Extend_eq by apply zero_u32. cbn. eauto.
Qed.

(** Parsing terminates without a fault on any bytes and consumes a header at
    least. *)
Lemma parse_record_total r result :
  kHeaderSize <= size (buffer_ r) →
  ∃ r' t res, parse_record r result = Some (r', t, res)
    ∧ file_ r' = file_ r ∧ (length (buffer_ r') < length (buffer_ r))%nat
    ∧ 0 <= t < 2 ^ 32.
Proof.
  intros Hb. unfold parse_record.
  destruct (header_fields (buffer_ r) Hb) as (t & len & -> & -> & Ht & Hlen).
  cbn [mbind option_bind]. unfold size, kHeaderSize in *.
  destruct (Z.ltb_spec (Z.of_nat (length (buffer_ r))) (4 + 2 + 1 + Z.of_nat len)).
  { change (eof_ (set_buffer r [])) with (eof_ r). destruct (eof_ r); cbn [negb].
    - do 3 eexists. split; [done|]. split; [done|]. split; [cbn; lia|]. split; done.
    - destruct (ReportCorruption_total (set_buffer r []) (Z.of_nat (length (buffer_ r)))
                  (str "bad record length")) as [x ->]; [done|].
      do 3 eexists. split; [done|]. split; [done|]. split; [cbn; lia|]. split; done. }
  destruct (_ && _).
  { do 3 eexists. split; [done|]. split; [done|]. split; [cbn; lia|]. split; done. }
  destruct (verify_checksum_total r len) as [good ->]; [unfold size, kHeaderSize; lia|].
  cbn [mbind option_bind]. destruct good; cbn [negb].
  - unfold remove_prefix. rewrite (proj2 (Nat.leb_le _ _)) by (unfold kHeaderSize; lia).
    cbn [mbind option_bind].
    case_match.
    + do 3 eexists. split; [done|].
      split; [done|]. split; [cbn [buffer_ set_buffer]; rewrite length_drop; lia|]. split; done.
    + rewrite load_range_Some by (unfold kHeaderSize; lia). cbn [mbind option_bind].
      do 3 eexists. split; [done|].
      split; [done|]. split; [cbn [buffer_ set_buffer]; rewrite length_drop; lia|done].
  - destruct (ReportCorruption_total (set_buffer r []) (Z.of_nat (length (buffer_ r)))
                (str "checksum mismatch")) as [x ->]; [done|].
    do 3 eexists. split; [done|]. split; [done|]. split; [cbn; lia|]. split; done.
Qed.

(** ** Termination on arbitrary files *)
Section total.
Context (fsize : F → nat) `{!SequentialFileFinite F fsize}.

Definition left (r : Reader F) : nat := fsize (file_ r) + length (buffer_ r).

(** A physical record costs a byte at least, or is the end of the file. *)
Definition phys_result (r : Reader F) (o : option (Reader F * Z * bytes)) : Prop :=
  ∃ r' t res, o = Some (r', t, res) ∧ 0 <= t < 2 ^ 32
    ∧ (left r' ≤ left r)%nat ∧ (t = kEof ∨ (left r' < left r)%nat).

Lemma ReadPhysicalRecord_buffered k r result :
  kHeaderSize <= size (buffer_ r) ∨ eof_ r = true →
  phys_result r (ReadPhysicalRecord_loop (S k) r result).
Proof.
  intros Hr. cbn [ReadPhysicalRecord_loop].
  destruct (Z.ltb_spec (size (buffer_ r)) kHeaderSize).
  - destruct Hr as [Hr|Hr]; [lia|]. rewrite Hr. cbn [negb].
    do 3 eexists. split; [done|]. split; [done|]. unfold left. cbn [file_ buffer_ set_buffer length].
    split; [lia|by left].
  - destruct (parse_record_total r result) as (r' & t & res & -> & Hf & Hlt & Ht); [done|].
    do 3 eexists. split; [done|]. split; [done|]. unfold left. rewrite Hf. lia.
Qed.

Lemma phys_result_le r r' o :
  (left r' ≤ left r)%nat → phys_result r' o → phys_result r o.
Proof.
  intros Hle (r2 & t & res & -> & Ht & ? & ?). exists r2, t, res.
  split_and!; try done; lia.
Qed.

Lemma ReadPhysicalRecord_total r result : phys_result r (ReadPhysicalRecord r result).
Proof.
  destruct (decide (kHeaderSize <= size (buffer_ r))) as [?|Hsz];
    [by apply ReadPhysicalRecord_buffered; left|].
  destruct (eof_ r) eqn:Heof; [by apply ReadPhysicalRecord_buffered; right|].
  unfold ReadPhysicalRecord. cbn [ReadPhysicalRecord_loop]. fold (@ReadPhysicalRecord_loop F _ _).
  rewrite (proj2 (Z.ltb_lt _ _)), Heof by lia. cbn [negb].
  destruct (Read_finite (file_ r) kBlockSize) as (f & s & res & -> & Hsize).
  cbn [mbind option_bind]. set (r1 := set_end _ _).
  assert (left r1 ≤ left r)%nat as Hle.
  { unfold left. subst r1. cbn. lia. }
  destruct (ok s); cbn [negb].
  2: { destruct (ReportDrop_fields (set_buffer r1 []) kBlockSize s) as [x ->].
       do 3 eexists. split; [done|]. split; [done|]. unfold left in *. cbn in *.
       split; [lia|by left]. }
  destruct (Z.ltb_spec (size (buffer_ r1)) kBlockSize).
  - apply (phys_result_le r (set_eof r1 true)); [exact Hle|].
    apply (ReadPhysicalRecord_buffered 1). by right.
  - apply (phys_result_le r r1); [exact Hle|].
    apply (ReadPhysicalRecord_buffered 1). left. unfold kHeaderSize, kBlockSize in *. lia.
Qed.

(** One iteration of the loop of [ReadRecord] returns or consumes a byte. *)
Lemma ReadRecord_body_total r v :
  ∃ r' v' o, ReadRecord_body r v = Some (r', v', o) ∧ (left r' ≤ left r)%nat
    ∧ (o = Continue → (left r' < left r)%nat).
Proof.
  unfold ReadRecord_body.
  destruct (ReadPhysicalRecord_total r (fragment v)) as (r1 & t & fr & -> & Ht & Hle & Hlt).
  cbn [mbind option_bind].
  assert (∀ x b, left (set_reporter (set_resyncing r1 b) x) = left r1) as Hl1 by done.
  assert (∀ r2 : Reader F, left r2 = left r1 →
    (t ≠ kEof) → (left r2 ≤ left r)%nat ∧ (Continue = Continue → (left r2 < left r)%nat)) as Hgo.
  { intros r2 -> Hne. destruct Hlt; [done|]. split; [lia|done]. }
  assert (∀ c, t = RecordType_value c → t ≠ kEof) as Hne.
  { intros c ->. by destruct c. }
  destruct (resyncing_ r1 && (t =? RecordType_value kMiddleType)) eqn:E1.
  { apply andb_true_iff in E1 as [_ E1%Z.eqb_eq].
    do 3 eexists. split; [done|]. apply Hgo; [done|by eapply Hne]. }
  destruct (resyncing_ r1 && (t =? RecordType_value kLastType)) eqn:E2.
  { apply andb_true_iff in E2 as [_ E2%Z.eqb_eq].
    do 3 eexists. split; [done|]. apply Hgo; [done|by eapply Hne]. }
  assert (∀ v m, Z.of_nat (length m) + 7 < 2 ^ 32 →
    ∃ x, when_scratch (set_resyncing r1 false) v m = Some (set_reporter (set_resyncing r1 false) x))
    as Hws.
  { intros v0 m Hm. unfold when_scratch. case_match; [by apply ReportCorruption_total|].
    exists (reporter_ r1). by destruct r1. }
  assert (∀ n m, Z.of_nat (length m) + 7 < 2 ^ 32 →
    ∃ x, ReportCorruption (set_resyncing r1 false) n m
         = Some (set_reporter (set_resyncing r1 false) x)) as Hrc
    by (intros; by apply ReportCorruption_total).
  destruct (Z.eqb_spec t (RecordType_value kFullType)) as [T1|T1].
  { edestruct Hws as [x ->]; [done|]. do 3 eexists. split; [done|]. split; [|done].
    rewrite <- (Hl1 x false) in Hle. exact Hle. }
  destruct (Z.eqb_spec t (RecordType_value kFirstType)) as [T2|T2].
  { edestruct Hws as [x ->]; [done|]. do 3 eexists. split; [done|].
    apply Hgo; [done|by eapply Hne]. }
  destruct (Z.eqb_spec t (RecordType_value kMiddleType)) as [T3|T3].
  { destruct (in_fragmented_record v); cbn [negb].
    - do 3 eexists. split; [done|]. apply Hgo; [done|by eapply Hne].
    - edestruct Hrc as [x ->]; [done|]. do 3 eexists. split; [done|].
      apply Hgo; [done|by eapply Hne]. }
  destruct (Z.eqb_spec t (RecordType_value kLastType)) as [T4|T4].
  { destruct (in_fragmented_record v); cbn [negb].
    - do 3 eexists. split; [done|]. split; [exact Hle|done].
    - edestruct Hrc as [x ->]; [done|]. do 3 eexists. split; [done|].
      apply Hgo; [done|by eapply Hne]. }
  destruct (Z.eqb_spec t kEof) as [T5|T5].
  { do 3 eexists. split; [done|]. split; [exact Hle|done]. }
  destruct (Z.eqb_spec t kBadRecord) as [T6|T6].
  { destruct (in_fragmented_record v).
    - edestruct Hrc as [x ->]; [done|]. do 3 eexists. split; [done|]. by apply Hgo.
    - do 3 eexists. split; [done|]. by apply Hgo. }
  destruct (unknown_type_text_eq t Ht) as (b & -> & Hb). cbn [mbind option_bind].
  edestruct Hrc as [x ->]; [lia|]. do 3 eexists. split; [done|]. by apply Hgo.
Qed.

Lemma ReadRecord_loop_total fuel r v :
  (left r < fuel)%nat →
  ∃ r' b rec, ReadRecord_loop fuel r v = Some (r', b, rec) ∧ (left r' ≤ left r)%nat.
Proof.
  revert r v. induction fuel as [|k IH]; intros r v Hk; [lia|]. cbn [ReadRecord_loop].
  destruct (ReadRecord_body_total r v) as (r1 & v1 & o & -> & Hle & Hc). cbn [mbind option_bind].
  destruct o as [b rec|]; [eauto|]. specialize (Hc eq_refl).
  destruct (IH r1 v1) as (r2 & b & rec & -> & ?); [lia|]. do 3 eexists. split; [done|lia].
Qed.

(** C9: the reader is total on arbitrary files: whatever bytes the file holds,
    however short or failing its reads are, and whatever state the reader is
    in, [ReadRecord] terminates (it looks at no more physical records than there
    are bytes left, plus one), makes no access outside its buffer, and never
    reads more than the file has. *)
Theorem ReadRecord_total r fuel :
  (left r < fuel)%nat →
  ∃ r' b record, ReadRecord fuel r = Some (r', b, record) ∧ (left r' ≤ left r)%nat.
Proof.
  intros Hfuel. unfold ReadRecord.
  assert (∃ r1 go, (if last_record_offset_ r <? initial_offset_ r then SkipToInitialBlock r
                    else Some (r, true)) = Some (r1, go) ∧ (left r1 ≤ left r)%nat)
    as (r1 & go & -> & Hle).
  { case_match; [|eauto]. unfold SkipToInitialBlock.
    set (bsl := if _ <? initial_offset_ r mod kBlockSize then _ else _).
    destruct (0 <? bsl); [|do 2 eexists; split; [done|]; unfold left; cbn; lia].
    cbn [file_ set_end]. destruct (Skip_finite (file_ r) bsl) as (f & s & -> & Hf).
    cbn [mbind option_bind]. destruct (ok s); cbn [negb].
    - do 2 eexists. split; [done|]. unfold left. cbn. lia.
    - edestruct ReportDrop_fields as [x ->].
      do 2 eexists. split; [done|]. unfold left. cbn. lia. }
  cbn [mbind option_bind]. destruct go; cbn [negb].
  - edestruct ReadRecord_loop_total as (r2 & b & rec & -> & ?); [|do 3 eexists; split; [done|lia]].
    lia.
  - do 3 eexists. split; [done|lia].
Qed.
End total.

(** ** Parsing what the writer wrote *)

Lemma header_prefix i post :
  ∃ c0 c1 c2 c3 b4 b5, header crc i ++ post = [c0; c1; c2; c3; b4; b5; type_byte i.1] ++ post
    ∧ le_value [c0; c1; c2; c3] = Mask (crc 0 (type_byte i.1 :: i.2))
    ∧ b4 = byte_of (Z.of_nat (length i.2)) ∧ b5 = byte_of (Z.of_nat (length i.2) / 256).
Proof.
  unfold header. set (m := Mask _).
  assert (0 <= m < 2 ^ 32) as Hm by apply u32_range.
  pose proof (le_value_le_bytes 4 m) as E. rewrite Z.mod_small in E by done.
  cbn [le_bytes] in *. do 6 eexists. split; [cbn [app]; done|]. split_and!; done.
Qed.

Lemma header_parse i post :
  Z.of_nat (length i.2) < 65536 →
  header_type (header crc i ++ post) = Some (RecordType_value i.1)
  ∧ header_length (header crc i ++ post) = Some (Z.of_nat (length i.2))
  ∧ DecodeFixed32 (header crc i ++ post) 0 = Some (Mask (crc 0 (type_byte i.1 :: i.2))).
Proof.
  intros Hlen. destruct (header_prefix i post) as (c0 & c1 & c2 & c3 & b4 & b5 & -> & Hm & -> & ->).
  split_and!.
  - unfold header_type, load. cbn. f_equal. by destruct i.1.
  - unfold header_length, load. cbn [app lookup list_lookup mbind option_bind].
    rewrite !land_s8, !u8_byte_of, lor_shiftl_add by (try apply Z.mod_pos_bound; lia).
    f_equal. lia_div.
  - rewrite <- Hm.
    exact (DecodeFixed32_app [] [c0; c1; c2; c3] ([_; _; _] ++ post) eq_refl).
Qed.

(** A whole record at the head of the buffer is returned and removed. *)
Lemma parse_record_item r result i post :
  buffer_ r = header crc i ++ i.2 ++ post → Z.of_nat (length i.2) < 65536 → i.1 ≠ kZeroType →
  initial_offset_ r = 0 →
  parse_record r result = Some (set_buffer r post, RecordType_value i.1, i.2).
Proof.
  intros Hb Hlen Ht H0'. unfold parse_record. rewrite Hb.
  destruct (header_parse i (i.2 ++ post) Hlen) as (-> & -> & Hcrc). cbn [mbind option_bind].
  pose proof (length_header crc i) as Hhl.
  assert (Hsz : size (header crc i ++ i.2 ++ post)
                = kHeaderSize + Z.of_nat (length i.2) + Z.of_nat (length post)).
  { unfold size. rewrite !length_app, Hhl. unfold hdr, kHeaderSize. lia. }
  rewrite Hsz, (proj2 (Z.ltb_ge _ _)) by lia.
  destruct (Z.eqb_spec (RecordType_value i.1) (RecordType_value kZeroType));
    [by destruct i as [[] ?]|]. cbn [andb].
  assert (verify_checksum r (Z.of_nat (length i.2)) = Some true) as ->.
  { unfold verify_checksum. rewrite Hb. destruct (checksum_ r); [|done].
    rewrite Hcrc. cbn [mbind option_bind].
    assert (load_range (header crc i ++ i.2 ++ post) 6 (Z.to_nat (1 + Z.of_nat (length i.2)))
            = Some (type_byte i.1 :: i.2)) as ->.
    { destruct (header_prefix i (i.2 ++ post)) as (c0 & c1 & c2 & c3 & b4 & b5 & -> & _).
      change (type_byte i.1 :: i.2) with ([type_byte i.1] ++ i.2).
      rewrite <- (load_range_app [c0; c1; c2; c3; b4; b5] ([type_byte i.1] ++ i.2) post).
      rewrite <- !(assoc_L (++)). cbn [app length]. f_equal. lia. }
    cbn [mbind option_bind]. unfold crc_Value. rewrite crc_Extend_eq by apply zero_u32.
    cbn [mbind option_bind]. rewrite Unmask_Mask by (apply crc_u32, zero_u32).
    by rewrite Z.eqb_refl. }
  cbn [mbind option_bind negb]. rewrite !Z2Nat.inj_add, Nat2Z.id by (unfold kHeaderSize; lia).
  change (Z.to_nat kHeaderSize) with hdr. unfold remove_prefix.
  rewrite (proj2 (Nat.leb_le _ _)) by (rewrite !length_app; lia). cbn [mbind option_bind].
  rewrite (assoc_L (++)), drop_app_length' by (rewrite length_app; lia).
  cbn [initial_offset_ set_buffer]. rewrite H0', (proj2 (Z.ltb_ge _ _)) by apply u64_range.
  rewrite <- (assoc_L (++)), <- Hhl, load_range_app. done.
Qed.

(** A record cut short by the end of the file is dropped silently. *)
Lemma parse_record_cut r result i n tail :
  buffer_ r = take n (header crc i ++ i.2 ++ tail) →
  kHeaderSize <= size (buffer_ r) < kHeaderSize + Z.of_nat (length i.2) →
  Z.of_nat (length i.2) < 65536 → eof_ r = true →
  parse_record r result = Some (set_buffer r [], kEof, result).
Proof.
  intros Hb [Hlo Hhi] Hlen Heof. unfold parse_record.
  pose proof (length_header crc i) as Hhl.
  assert (hdr ≤ n)%nat as Hn.
  { unfold size in Hlo. rewrite Hb, length_take in Hlo. unfold hdr. lia. }
  assert (buffer_ r = header crc i ++ take (n - hdr) (i.2 ++ tail)) as Hb'
    by (rewrite Hb, take_app, Hhl; rewrite firstn_all2 by lia; done).
  rewrite Hb'.
  destruct (header_parse i (take (n - hdr) (i.2 ++ tail)) Hlen) as (-> & -> & _).
  cbn [mbind option_bind]. rewrite <- Hb', (proj2 (Z.ltb_lt _ _)) by done.
  cbn [eof_ set_buffer]. by rewrite Heof.
Qed.

(** ** Reading a log, or a prefix of one, back *)
Section stream.
Context (good : F → Prop) (rest : F → bytes) `{!SequentialFileLaws F good rest}.

(** The bytes not yet consumed. *)
Definition stream (r : Reader F) : bytes := buffer_ r ++ rest (file_ r).

Lemma set_eof_id (r : Reader F) e : eof_ r = e → set_eof r e = r.
Proof. destruct r. cbn. by intros ->. Qed.

Lemma stream_set_eof r e : stream (set_eof r e) = stream r.
Proof. reflexivity. Qed.

(** The reader stands at offset [off] of a block, at position [pos] of the file. *)
Record Reading (r : Reader F) (off pos : nat) : Prop := {
  rd_good : good (file_ r);
  rd_initial : initial_offset_ r = 0;
  rd_resyncing : resyncing_ r = false;
  rd_last : 0 <= last_record_offset_ r;
  rd_pos : end_of_buffer_offset_ r = Z.of_nat (pos + length (buffer_ r));
  rd_small : Z.of_nat (pos + length (stream r)) < 2 ^ 64;
  rd_off : (off ≤ blk)%nat;
  rd_more : eof_ r = false → (length (buffer_ r) + off = blk)%nat;
  rd_eof : eof_ r = true → rest (file_ r) = [] ∧ (length (buffer_ r) + off ≤ blk)%nat
}.

(** The buffer moves on, the file does not. *)
Lemma Reading_drop r off pos n :
  Reading r off pos → (n ≤ length (buffer_ r))%nat →
  Reading (set_buffer r (drop n (buffer_ r))) (off + n) (pos + n).
Proof.
  intros [] Hn. unfold stream in *. rewrite length_app in *.
  assert (length (buffer_ r) + off ≤ blk)%nat
    by (destruct (eof_ r); [by apply rd_eof0|by rewrite rd_more0]).
  split; cbn; rewrite ?length_app, ?length_drop; try done; try lia.
  - intros E. specialize (rd_more0 E). lia.
  - intros E. destruct (rd_eof0 E). split; [done|lia].
Qed.

(** Once a header is in the buffer, or the file ends before one. *)
Lemma ReadPhysicalRecord_ready r off pos result :
  Reading r off pos →
  (∃ r', ReadPhysicalRecord r result = Some (r', kEof, result) ∧ reporter_ r' = reporter_ r
     ∧ (length (stream r) < length (trailer off) + hdr)%nat)
  ∨ ∃ r1, ReadPhysicalRecord r result = parse_record r1 result
     ∧ Reading r1 (start off) (pos + length (trailer off))
     ∧ kHeaderSize <= size (buffer_ r1) ∧ stream r1 = drop (length (trailer off)) (stream r)
     ∧ reporter_ r1 = reporter_ r.
Proof.
  intros Hr. destruct (Hr) as [Hgood _ _ _ Hpos Hsmall Hoff Hmore Heof].
  destruct (decide (kHeaderSize <= size (buffer_ r))) as [Hsz|Hsz].
  { right. exists r. unfold ReadPhysicalRecord. cbn [ReadPhysicalRecord_loop].
    rewrite (proj2 (Z.ltb_ge _ _)) by done.
    assert (hdr ≤ blk - off)%nat as Hroom.
    { unfold size, hdr in *. destruct (eof_ r); [destruct Heof; [done|]|specialize (Hmore eq_refl)]; lia. }
    destruct (trailer_room off Hroom) as [-> ->]. cbn [length]. rewrite Nat.add_0_r, drop_0. done. }
  unfold ReadPhysicalRecord. cbn [ReadPhysicalRecord_loop].
  rewrite (proj2 (Z.ltb_lt _ _)) by lia. unfold size in Hsz.
  destruct (eof_ r) eqn:E; cbn [negb].
  { left. destruct (Heof eq_refl) as [Hrest Hle]. eexists. split; [done|]. split; [done|].
    unfold stream. rewrite Hrest, app_nil_r. unfold hdr. lia. }
  specialize (Hmore eq_refl).
  destruct (trailer_full off) as [Htr Hst]; [unfold hdr; lia|].
  assert (length (trailer off) = length (buffer_ r)) as Hlt by (rewrite Htr, length_replicate; lia).
  destruct (Read_ok (file_ r) kBlockSize Hgood) as (f & -> & Hgf & Hf); [done|].
  cbn [mbind option_bind default]. change (ok OK) with true. cbn [negb].
  rewrite blk_eq in *.
  set (b := take blk (rest (file_ r))). set (r1 := set_end _ _).
  assert (length b ≤ blk)%nat as Hb by (subst b; rewrite length_take; lia).
  assert (b ++ rest f = rest (file_ r)) as Hbr by (subst b; rewrite Hf; apply take_drop).
  assert (Hst1 : ∀ e, (e = false → length b = blk) → (e = true → rest f = []) →
            Reading (set_eof r1 e) 0 (pos + length (buffer_ r))).
  { intros e He1 He2. unfold stream in Hsmall. rewrite <- Hbr, !length_app in Hsmall.
    destruct Hr. split; unfold stream; cbn; rewrite ?length_app; try done; try lia.
    - rewrite Hpos. unfold size. rewrite u64_small; lia.
    - intros Ee. rewrite He1 by done. lia.
    - intros Ee. split; [by apply He2|]. fold b. lia. }
  assert (stream r1 = drop (length (trailer off)) (stream r)) as Hstream.
  { unfold stream. cbn. fold b. by rewrite Hbr, Hlt, drop_app_length. }
  destruct (Z.ltb_spec (size (buffer_ r1)) kBlockSize) as [Hs|Hs].
  - change (buffer_ (set_eof r1 true)) with b. change (buffer_ r1) with b in Hs.
    assert (rest f = []) as Hrf.
    { rewrite Hf. apply drop_ge. unfold size in Hs. subst b. rewrite length_take in Hs.
      unfold blk in *. lia. }
    destruct (Z.ltb_spec (size b) kHeaderSize) as [Hs2|Hs2]; cbn [eof_ set_eof negb].
    + left. eexists. split; [done|]. split; [done|]. unfold stream. rewrite <- Hbr, Hrf, app_nil_r.
      rewrite length_app. unfold size in Hs2. unfold hdr. lia.
    + right. exists (set_eof r1 true). split; [done|]. rewrite Hst, Hlt.
      split; [by apply Hst1|]. split; [done|]. rewrite <- Hlt.
      split; [rewrite ?stream_set_eof; exact Hstream|reflexivity].
  - change (buffer_ r1) with b in Hs |- *. unfold size in Hs.
    rewrite (proj2 (Z.ltb_ge _ _)) by (unfold size; blk_lia).
    assert (r1 = set_eof r1 false) as Hr1 by (symmetry; apply set_eof_id; exact E).
    right. exists r1. split; [done|]. rewrite Hst, Hlt.
    split; [rewrite Hr1; apply Hst1; [blk_lia|done]|].
    split; [unfold size; change (buffer_ r1) with b; blk_lia|]. rewrite <- Hlt.
    split; [rewrite ?stream_set_eof; exact Hstream|reflexivity].
Qed.

Lemma ReadPhysicalRecord_end r off pos result :
  Reading r off pos → stream r = [] →
  ∃ r', ReadPhysicalRecord r result = Some (r', kEof, result) ∧ reporter_ r' = reporter_ r.
Proof.
  intros Hr Hs.
  destruct (ReadPhysicalRecord_ready r off pos result Hr)
    as [(r' & ? & ? & _)|(r1 & _ & _ & Hsz & Hst & _)]; [eauto|].
  rewrite Hs, drop_nil in Hst. unfold stream in Hst. apply app_nil in Hst as [Hb _].
  rewrite Hb in Hsz. unfold size, kHeaderSize in Hsz. cbn in Hsz. lia.
Qed.

(** The next physical record of a log, or its silent end when it is cut. *)
Lemma ReadPhysicalRecord_item r off pos i items n result :
  Reading r off pos → phys_ok off (i :: items) →
  stream r = take n (phys_bytes crc off (i :: items)) →
  let m := (length (trailer off) + hdr + length i.2)%nat in
  let off' := (start off + hdr + length i.2)%nat in
  ((m ≤ length (stream r))%nat
   ∧ ∃ r', ReadPhysicalRecord r result = Some (r', RecordType_value i.1, i.2)
       ∧ Reading r' off' (pos + m) ∧ stream r' = take (n - m) (phys_bytes crc off' items)
       ∧ reporter_ r' = reporter_ r)
  ∨ ((length (stream r) < m)%nat
   ∧ ∃ r', ReadPhysicalRecord r result = Some (r', kEof, result) ∧ reporter_ r' = reporter_ r).
Proof.
  intros Hr (Hoff & Hfit & Hty & Hok) Hst m off'.
  destruct (ReadPhysicalRecord_ready r off pos result Hr)
    as [(r' & ? & ? & Hlt)|(r1 & -> & Hr1 & Hsz & Hst1 & Hrep)].
  { right. split; [subst m; lia|eauto]. }
  cbn [phys_bytes] in Hst.
  assert (Z.of_nat (length i.2) < 65536) as Hlen by blk_lia.
  pose proof (length_header crc i) as Hhl.
  set (tl := phys_bytes crc off' items) in *.
  rewrite Hst, skipn_firstn_comm, drop_app_length in Hst1.
  assert (length (stream r1) = length (stream r) - length (trailer off))%nat as Hls
    by (rewrite Hst1, Hst, !length_take, (length_app (trailer off)); lia).
  assert (buffer_ r1 = take (length (buffer_ r1)) (stream r1)) as Hbt
    by (unfold stream; by rewrite take_app_length).
  assert (length (buffer_ r1) ≤ length (stream r1))%nat by (unfold stream; rewrite length_app; lia).
  set (k := length (buffer_ r1)) in *. unfold size in Hsz. fold k in Hsz.
  destruct (decide (hdr + length i.2 ≤ k)%nat) as [Hfull|Hcut].
  - left. split; [unfold hdr, kHeaderSize in *; lia|].
    set (h := header crc i ++ i.2) in *.
    assert (length h = hdr + length i.2)%nat as Hh by (subst h; rewrite length_app; lia).
    assert (buffer_ r1 = h ++ drop (length h) (buffer_ r1)) as Hb.
    { rewrite <- (take_drop (length h) (buffer_ r1)) at 1. f_equal.
      rewrite Hbt, Hst1, !take_take, (assoc_L (++) (header crc i)).
      fold h. rewrite take_app_le by lia. apply firstn_all2.
      rewrite Hst1, length_take in *. lia. }
    rewrite (parse_record_item r1 result i (drop (length h) (buffer_ r1)));
      [|rewrite Hb at 1; subst h; by rewrite <- (assoc_L (++))|done..|by destruct Hr1].
    eexists. split; [done|].
    replace off' with (start off + length h)%nat by (subst off'; lia).
    replace (pos + m)%nat with (pos + length (trailer off) + length h)%nat by (subst m; lia).
    split; [by apply Reading_drop; [|lia]|]. split; [|done].
    unfold stream. cbn [buffer_ set_buffer file_].
    assert (drop (length h) (buffer_ r1) ++ rest (file_ r1) = drop (length h) (stream r1)) as ->.
    { unfold stream. rewrite drop_app_le by lia. done. }
    rewrite Hst1, skipn_firstn_comm, (assoc_L (++) (header crc i)). fold h.
    rewrite drop_app_length. f_equal. subst m. lia.
  - destruct (eof_ r1) eqn:Heof.
    + right. destruct (rd_eof _ _ _ Hr1 Heof) as [Hrest _].
      assert (stream r1 = buffer_ r1) as Hsb by (unfold stream; rewrite Hrest; apply app_nil_r).
      split.
      * subst m. rewrite Hsb in Hls. fold k in Hls. unfold hdr, kHeaderSize in *. lia.
      * rewrite (parse_record_cut r1 result i (n - length (trailer off)) tl);
          [eauto|by rewrite <- Hsb| |done..].
        unfold size. fold k. unfold hdr in *. unfold kHeaderSize in *. lia.
    + pose proof (rd_more _ _ _ Hr1 Heof). fold k in H1. lia.
Qed.

Lemma set_resyncing_same (r : Reader F) b : resyncing_ r = b → set_resyncing r b = r.
Proof. destruct r. cbn. by intros ->. Qed.

(** The body of the loop on each type of fragment, outside a resync. *)
Section body.
Context (r r' : Reader F) (v : Locals) (p : bytes) (Hres : resyncing_ r' = false).
Let pro : Z := u64 (end_of_buffer_offset_ r' - size (buffer_ r') - kHeaderSize - size p).

Lemma set_resyncing_id : set_resyncing r' false = r'.
Proof using Hres. by apply set_resyncing_same. Qed.

Local Ltac body H :=
  unfold ReadRecord_body; rewrite H; cbn [mbind option_bind]; rewrite Hres; cbn [andb];
  rewrite set_resyncing_id; unfold when_scratch; cbn.

Lemma body_full :
  ReadPhysicalRecord r (fragment v) = Some (r', RecordType_value kFullType, p) →
  in_fragmented_record v = false →
  ∃ v', ReadRecord_body r v = Some (set_last r' pro, v', Return true p).
Proof using Hres. intros H1 Hv. body H1. rewrite Hv. cbn. eauto. Qed.

Lemma body_first :
  ReadPhysicalRecord r (fragment v) = Some (r', RecordType_value kFirstType, p) →
  in_fragmented_record v = false →
  ReadRecord_body r v
  = Some (r', {| fragment := p; scratch := p; in_fragmented_record := true;
                 prospective_record_offset := pro |}, Continue).
Proof using Hres. intros H1 Hv. body H1. rewrite Hv. cbn. done. Qed.

Lemma body_middle :
  ReadPhysicalRecord r (fragment v) = Some (r', RecordType_value kMiddleType, p) →
  in_fragmented_record v = true →
  ReadRecord_body r v
  = Some (r', {| fragment := p; scratch := scratch v ++ p; in_fragmented_record := true;
                 prospective_record_offset := prospective_record_offset v |}, Continue).
Proof using Hres. intros H1 Hv. body H1. rewrite Hv. cbn. done. Qed.

Lemma body_last :
  ReadPhysicalRecord r (fragment v) = Some (r', RecordType_value kLastType, p) →
  in_fragmented_record v = true →
  ∃ v', ReadRecord_body r v
    = Some (set_last r' (prospective_record_offset v), v', Return true (scratch v ++ p)).
Proof using Hres. intros H1 Hv. body H1. rewrite Hv. cbn. eauto. Qed.
End body.

Lemma body_eof r r' v p :
  ReadPhysicalRecord r (fragment v) = Some (r', kEof, p) →
  ∃ r'' v', ReadRecord_body r v = Some (r'', v', Return false []) ∧ reporter_ r'' = reporter_ r'.
Proof.
  intros H1. unfold ReadRecord_body. rewrite H1. cbn [mbind option_bind].
  rewrite !andb_false_r. cbn. eauto.
Qed.

Lemma Reading_set_last r off pos o :
  Reading r off pos → 0 <= o → Reading (set_last r o) off pos.
Proof. intros [] Ho. split; done. Qed.

(** The offset of a physical record that ends at [pos + m]. *)
Lemma record_offset r off pos tr p :
  Reading r off (pos + (tr + hdr + length p)) →
  u64 (end_of_buffer_offset_ r - size (buffer_ r) - kHeaderSize - size p) = Z.of_nat (pos + tr).
Proof.
  intros []. unfold stream, size in *. rewrite length_app in *. rewrite rd_pos0.
  unfold hdr, kHeaderSize in *. rewrite u64_small; lia.
Qed.

(** What [ReadRecord] returns for the fragments of one record. *)
Lemma ReadRecord_loop_fragments begin d items :
  fragments begin d items →
  ∀ later r v off pos n fuel,
  Reading r off pos → phys_ok off (items ++ later) →
  stream r = take n (phys_bytes crc off (items ++ later)) →
  in_fragmented_record v = negb begin → (begin = true → scratch v = []) →
  0 <= prospective_record_offset v → (length items < fuel)%nat →
  let m := length (phys_bytes crc off items) in
  let p := (pos + length (trailer off))%nat in
  ((m ≤ length (stream r))%nat
   ∧ ∃ r', ReadRecord_loop fuel r v = Some (r', true, scratch v ++ d)
       ∧ Reading r' (phys_off off items) (pos + m)
       ∧ stream r' = take (n - m) (phys_bytes crc (phys_off off items) later)
       ∧ reporter_ r' = reporter_ r
       ∧ last_record_offset_ r' = if begin then Z.of_nat p else prospective_record_offset v)
  ∨ ((length (stream r) < m)%nat
   ∧ ∃ r', ReadRecord_loop fuel r v = Some (r', false, []) ∧ reporter_ r' = reporter_ r).
Proof.
  induction 1 as [d|p d items Hfr IH|p d items Hfr IH|d];
    intros later r v off pos n fuel Hr Hok Hst Hin Hsc Hpro Hfuel m q;
    (destruct fuel as [|k]; [cbn in Hfuel; lia|]); cbn [ReadRecord_loop app] in *;
    pose proof (ReadPhysicalRecord_item r off pos _ _ n (fragment v) Hr Hok Hst) as Hitem;
    cbn [fst snd] in Hitem; set (m0 := (length (trailer off) + hdr + length _)%nat) in Hitem.
  (* m is m0 plus the fragments that follow *)
  all: assert (Hm : ∀ t p its, length (phys_bytes crc off ((t, p) :: its))
         = (length (trailer off) + hdr + length p
            + length (phys_bytes crc (start off + hdr + length p) its))%nat)
       by (intros; cbn [phys_bytes snd]; rewrite !length_app, length_header; lia).
  all: subst m q; rewrite !Hm; fold m0.
  all: destruct Hitem as [[Hle (r1 & Hrpr & Hr1 & Hst1 & Hrep1)]|[Hlt (r1 & Hrpr & Hrep1)]].
  all: try (right; split; [lia|]; destruct (body_eof _ _ v _ Hrpr) as (r2 & v2 & -> & Hrep2);
            cbn [mbind option_bind]; eexists; split; [done|congruence]).
  all: assert (length (stream r1) = length (stream r) - m0)%nat as Hls
    by (rewrite Hst, Hst1, !length_take, Hm; fold m0; lia).
  all: cbn [phys_bytes phys_off length snd] in *.
  - left. destruct (body_full r r1 v d) as [v2 ->]; [by destruct Hr1|done|done|].
    cbn [mbind option_bind]. rewrite Nat.add_0_r. split; [done|].
    eexists. split; [by rewrite Hsc|]. cbn [reporter_ set_last last_record_offset_].
    rewrite (record_offset r1 _ pos _ d Hr1).
    split; [apply Reading_set_last; [done|lia]|]. done.
  - rewrite (body_first r r1 v p); [|by destruct Hr1|done|done]. cbn [mbind option_bind].
    rewrite (record_offset r1 _ pos _ p Hr1).
    edestruct (IH later r1) as [[Hle2 (r2 & -> & Hr2 & Hst2 & Hrep2 & Hl2)]|[Hlt2 (r2 & -> & Hrep2)]];
      [exact Hr1|by destruct Hok as (_ & _ & _ & ?)|exact Hst1|done|done|cbn; lia|lia|left|right];
      (split; [lia|]; eexists; split; [by rewrite ?Hsc|]).
    + rewrite Nat.add_assoc, Nat.sub_add_distr. split_and!; [done..|congruence|done].
    + congruence.
  - rewrite (body_middle r r1 v p); [|by destruct Hr1|done|done]. cbn [mbind option_bind].
    edestruct (IH later r1) as [[Hle2 (r2 & -> & Hr2 & Hst2 & Hrep2 & Hl2)]|[Hlt2 (r2 & -> & Hrep2)]];
      [exact Hr1|by destruct Hok as (_ & _ & _ & ?)|exact Hst1|done|done|exact Hpro|lia|left|right];
      (split; [lia|]; eexists; split; [cbn [scratch]; by rewrite <- ?(assoc_L (++))|]).
    + rewrite Nat.add_assoc, Nat.sub_add_distr. split_and!; [done..|congruence|done].
    + congruence.
  - left. destruct (body_last r r1 v d) as [v2 ->]; [by destruct Hr1|done|done|].
    cbn [mbind option_bind]. rewrite Nat.add_0_r. split; [done|].
    eexists. split; [done|]. cbn [reporter_ set_last last_record_offset_].
    split; [by apply Reading_set_last|]. done.
Qed.


Lemma ReadRecord_reading r off pos fuel :
  Reading r off pos →
  ReadRecord fuel r = ReadRecord_loop fuel r
    {| fragment := []; scratch := []; in_fragmented_record := false;
       prospective_record_offset := 0 |}.
Proof.
  intros []. unfold ReadRecord. rewrite rd_initial0, (proj2 (Z.ltb_ge _ _)) by done. done.
Qed.

Lemma length_items_le off items : (length items ≤ length (phys_bytes crc off items))%nat.
Proof.
  revert off. induction items as [|i items IH]; intros off; [done|].
  cbn [phys_bytes length]. rewrite !length_app, length_header.
  specialize (IH (start off + hdr + length i.2)%nat). unfold hdr, kHeaderSize in *. lia.
Qed.

(** Where the header of each record starts. *)
Fixpoint spots (off pos : nat) (itemss : list (list item)) : list Z :=
  match itemss with
  | [] => []
  | items :: itemss =>
      Z.of_nat (pos + length (trailer off))
      :: spots (phys_off off items) (pos + length (phys_bytes crc off items)) itemss
  end.

(** The bytes of the first [k] records. *)
Definition log_length (off : nat) (itemss : list (list item)) (k : nat) : nat :=
  length (phys_bytes crc off (concat (take k itemss))).

Lemma read_all_S n fuel (r : Reader F) :
  read_all (S n) fuel r =
    ('(r, b, record) ← ReadRecord fuel r;
     if (b : bool)
     then '(r', records) ← read_all n fuel r; Some (r', (record, LastRecordOffset r) :: records)
     else Some (r, [])).
Proof. reflexivity. Qed.

Lemma read_all_log ds itemss :
  log_of ds itemss →
  ∀ r off pos n fuel,
  Reading r off pos → phys_ok off (concat itemss) →
  stream r = take n (phys_bytes crc off (concat itemss)) →
  (length (phys_bytes crc off (concat itemss)) < fuel)%nat →
  ∃ k r', read_all (S (length ds)) fuel r = Some (r', take k (zip ds (spots off pos itemss)))
    ∧ reporter_ r' = reporter_ r ∧ (k ≤ length ds)%nat
    ∧ (log_length off itemss k ≤ length (stream r))%nat
    ∧ ((k < length ds)%nat → (length (stream r) < log_length off itemss (S k))%nat).
Proof.
  induction 1 as [|d ds items itemss Hfr Hlog IH]; intros r off pos n fuel Hr Hok Hst Hfuel.
  - cbn [concat phys_bytes] in Hst. rewrite take_nil in Hst.
    set (v := {| fragment := []; scratch := []; in_fragmented_record := false;
                 prospective_record_offset := 0 |}).
    destruct (ReadPhysicalRecord_end r off pos (fragment v) Hr Hst) as (r1 & Hrpr & Hrep).
    destruct (body_eof r r1 v _ Hrpr) as (r2 & v2 & Hb & Hrep2).
    exists 0%nat, r2. cbn [read_all length]. rewrite (ReadRecord_reading r off pos fuel Hr). fold v.
    destruct fuel as [|k]; [lia|]. cbn [ReadRecord_loop]. rewrite Hb. cbn [mbind option_bind].
    split_and!; [done|congruence|lia| |lia]. unfold log_length. cbn. lia.
  - cbn [concat] in *. pose proof Hfuel as Hfuel'.
    rewrite phys_bytes_app, length_app in Hfuel'.
    pose proof (length_items_le off items).
    cbn [length]. rewrite read_all_S, (ReadRecord_reading r off pos fuel Hr).
    set (v := {| fragment := []; scratch := []; in_fragmented_record := false;
                 prospective_record_offset := 0 |}).
    edestruct (ReadRecord_loop_fragments true d items Hfr (concat itemss) r v off pos n fuel Hr)
      as [[Hle (r1 & -> & Hr1 & Hst1 & Hrep & Hlast)]|[Hlt (r1 & -> & Hrep)]];
      [exact Hok|exact Hst|reflexivity|done|done|lia|..]; cbn [mbind option_bind].
    + destruct (IH r1 _ _ (n - length (phys_bytes crc off items))%nat fuel Hr1) as (k & r2 & -> & Hrep2 & Hk & Hlo & Hhi);
        [by apply phys_ok_app in Hok as [_ ?]|exact Hst1|lia|].
      assert (length (stream r1) = length (stream r) - length (phys_bytes crc off items))%nat as Hls.
      { rewrite Hst, Hst1, !length_take, phys_bytes_app, length_app. lia. }
      cbn [mbind option_bind]. exists (S k), r2.
      assert (∀ j, log_length off (items :: itemss) (S j)
                   = length (phys_bytes crc off items) + log_length (phys_off off items) itemss j)%nat
        as Hll.
      { intros j. unfold log_length. cbn [take concat]. by rewrite phys_bytes_app, length_app. }
      rewrite !Hll. cbn [spots zip zip_with take]. unfold LastRecordOffset. rewrite Hlast.
      split_and!; [done|congruence|lia|lia|lia].
    + exists 0%nat, r1. split_and!; [done|done|lia| |].
      * unfold log_length. cbn. lia.
      * intros _. unfold log_length. cbn [take concat]. by rewrite app_nil_r.
Qed.

(** At the start, an empty buffer stands at the end of a block. *)
Lemma Reading_new f rep check :
  good f → Z.of_nat (length (rest f)) < 2 ^ 64 → Reading (Reader_new f rep check 0) blk 0.
Proof. intros Hg Hs. split; cbn; try done; lia. Qed.

Lemma phys_blk i items :
  phys_bytes crc blk (i :: items) = phys_bytes crc 0 (i :: items)
  ∧ phys_off blk (i :: items) = phys_off 0 (i :: items)
  ∧ (phys_ok 0 (i :: items) → phys_ok blk (i :: items)).
Proof.
  destruct (trailer_full blk) as [Ht Hs]; [blk_lia|]. rewrite Nat.sub_diag in Ht.
  destruct (trailer_room 0) as [Ht0 Hs0]; [blk_lia|].
  cbn [phys_bytes phys_off phys_ok]. rewrite Ht, Hs, Ht0, Hs0. split_and!; [done..|].
  intros (_ & H1 & H2 & H3). split; [apply le_n|]. split; [exact H1|]. split; [exact H2|exact H3].
Qed.

Lemma fragments_nonempty begin d items : fragments begin d items → ∃ i its, items = i :: its.
Proof. destruct 1; eauto. Qed.

Lemma read_all_new ds itemss f n rep check fuel :
  log_of ds itemss → phys_ok 0 (concat itemss) → good f →
  rest f = take n (phys_bytes crc 0 (concat itemss)) →
  Z.of_nat (length (phys_bytes crc 0 (concat itemss))) < 2 ^ 64 →
  (length (phys_bytes crc 0 (concat itemss)) < fuel)%nat →
  ∃ k r', read_all (S (length ds)) fuel (Reader_new f rep check 0)
          = Some (r', take k (zip ds (spots 0 0 itemss)))
    ∧ reporter_ r' = rep ∧ (k ≤ length ds)%nat
    ∧ (log_length 0 itemss k ≤ length (rest f))%nat
    ∧ ((k < length ds)%nat → (length (rest f) < log_length 0 itemss (S k))%nat).
Proof.
  intros Hlog Hok Hg Hrest Hsmall Hfuel.
  assert (Reading (Reader_new f rep check 0) blk 0) as Hr.
  { apply Reading_new; [done|]. rewrite Hrest, length_take. lia. }
  assert (phys_bytes crc blk (concat itemss) = phys_bytes crc 0 (concat itemss)
          ∧ phys_ok blk (concat itemss) ∧ spots blk 0 itemss = spots 0 0 itemss
          ∧ ∀ k, log_length blk itemss k = log_length 0 itemss k) as (E1 & E2 & E3 & E4).
  { destruct Hlog as [|d ds items itemss Hfr Hlog].
    { split; [done|]. split; [apply le_n|]. split; [done|]. intros k. by destruct k. }
    destruct (fragments_nonempty _ _ _ Hfr) as (i & its & ->).
    destruct (trailer_full blk) as [Ht _]; [blk_lia|]. rewrite Nat.sub_diag in Ht.
    destruct (trailer_room 0) as [Ht0 _]; [blk_lia|].
    cbn [concat app] in *. destruct (phys_blk i (its ++ concat itemss)) as (-> & _ & ?).
    destruct (phys_blk i its) as (Eb & Eo & _). cbn [spots].
    rewrite Eb, Eo, Ht, Ht0. split_and!; [done|auto|done|].
    intros [|k]; [done|]. unfold log_length. cbn [take concat app].
    by destruct (phys_blk i (its ++ concat (take k itemss))) as (-> & _). }
  rewrite <- E1 in Hrest, Hfuel. rewrite <- E3.
  destruct (read_all_log ds itemss Hlog _ blk 0 n fuel Hr E2 Hrest Hfuel)
    as (k & r' & Hra & Hrep & Hk & Hlo & Hhi).
  exists k, r'. rewrite !E4 in *. split_and!; done.
Qed.
End stream.

(** ** Corruption *)

Lemma verify_checksum_corrupt r t a b b' c post :
  b ≠ b' → checksum_ r = true → Z.of_nat (length (a ++ b :: c)) < 65536 →
  buffer_ r = header crc (t, a ++ b :: c) ++ (a ++ b' :: c) ++ post →
  verify_checksum r (Z.of_nat (length (a ++ b :: c))) = Some false.
Proof.
  intros Hb Hc Hlen Hbuf. unfold verify_checksum. rewrite Hc, Hbuf.
  destruct (header_parse (t, a ++ b :: c) ((a ++ b' :: c) ++ post) Hlen) as (_ & _ & ->).
  cbn [mbind option_bind fst snd].
  assert (load_range (header crc (t, a ++ b :: c) ++ (a ++ b' :: c) ++ post) 6
            (Z.to_nat (1 + Z.of_nat (length (a ++ b :: c))))
          = Some (type_byte t :: a ++ b' :: c)) as ->.
  { destruct (header_prefix (t, a ++ b :: c) ((a ++ b' :: c) ++ post))
      as (c0 & c1 & c2 & c3 & b4 & b5 & -> & _). cbn [fst].
    change (type_byte t :: a ++ b' :: c) with ([type_byte t] ++ a ++ b' :: c).
    rewrite <- (load_range_app [c0; c1; c2; c3; b4; b5] ([type_byte t] ++ a ++ b' :: c) post).
    rewrite <- !(assoc_L (++)). cbn [app length]. f_equal. rewrite !length_app. cbn [length]. lia. }
  cbn [mbind option_bind]. unfold crc_Value. rewrite crc_Extend_eq by apply zero_u32.
  cbn [mbind option_bind]. rewrite Unmask_Mask by (apply crc_u32, zero_u32).
  f_equal. apply Z.eqb_neq.
  change (type_byte t :: a ++ b' :: c) with ((type_byte t :: a) ++ b' :: c).
  change (type_byte t :: a ++ b :: c) with ((type_byte t :: a) ++ b :: c).
  apply crc_detects; [apply zero_u32|done].
Qed.

(** C32: a reader that verifies checksums never returns a payload in which one
    byte was altered: when the record at the head of its buffer is a well-formed
    record with one payload byte changed, it reports "checksum mismatch" for the
    rest of the block, drops that, and answers bad record. *)
Theorem ReadPhysicalRecord_detects r result reports t a b b' c post :
  b ≠ b' → checksum_ r = true → t ≠ kZeroType → initial_offset_ r = 0 →
  reporter_ r = Some reports → Z.of_nat (length (a ++ b :: c)) < 65536 →
  buffer_ r = header crc (t, a ++ b :: c) ++ (a ++ b' :: c) ++ post →
  ∃ r' mismatch, Corruption (str "checksum mismatch") [] = Some mismatch
    ∧ ReadPhysicalRecord r result = Some (r', kBadRecord, result)
    ∧ buffer_ r' = [] ∧ file_ r' = file_ r ∧ last_record_offset_ r' = last_record_offset_ r
    ∧ reporter_ r' = Some (reports ++ [(size (buffer_ r), mismatch)]).
Proof.
  intros Hb Hc Ht Hi Hrep Hlen Hbuf.
  pose proof (length_header crc (t, a ++ b :: c)) as Hhl.
  assert (Hsz : size (buffer_ r)
                = kHeaderSize + Z.of_nat (length (a ++ b :: c)) + Z.of_nat (length post)).
  { unfold size. rewrite Hbuf, !length_app, Hhl. unfold hdr, kHeaderSize. cbn [length]. lia. }
  unfold ReadPhysicalRecord. cbn [ReadPhysicalRecord_loop].
  rewrite (proj2 (Z.ltb_ge (size (buffer_ r)) _)) by lia.
  unfold parse_record. cbn zeta.
  destruct (header_parse (t, a ++ b :: c) ((a ++ b' :: c) ++ post) Hlen) as (Et & El & _).
  rewrite <- Hbuf in Et, El. rewrite Et, El.
  cbn [mbind option_bind fst snd]. rewrite (proj2 (Z.ltb_ge (size (buffer_ r)) _)) by lia.
  destruct (Z.eqb_spec (RecordType_value t) (RecordType_value kZeroType));
    [by destruct t|]. cbn [andb].
  rewrite (verify_checksum_corrupt r t a b b' c post) by done. cbn [mbind option_bind negb].
  rewrite ReportCorruption_eq by done.
  do 2 eexists. split; [reflexivity|]. split; [reflexivity|].
  unfold ReportDrop. cbn [reporter_ set_buffer initial_offset_]. rewrite Hrep, Hi.
  rewrite (proj2 (Z.leb_le _ _)) by apply u64_range. done.
Qed.
End parse.

(** ** Writing a log and reading it back *)
Section roundtrip.
Context `{Checksum} (crc : Z → bytes → Z) `{!ChecksumLaws crc}.
Context {F1 : Type} `{WritableFile F1} (good1 : F1 → Prop) (contents : F1 → bytes)
  `{!WritableFileLaws F1 good1 contents}.
Context {F2 : Type} `{SequentialFile F2} (good2 : F2 → Prop) (rest : F2 → bytes)
  `{!SequentialFileLaws F2 good2 rest}.

(** Writing record after record appends their fragments; every prefix of the
    records leaves the corresponding prefix of the file. *)
Lemma write_all_good ds : ∀ w,
  Writer_ok crc w → good1 (dest_ w) →
  ∃ itemss, log_of ds itemss ∧ phys_ok (off w) (concat itemss)
    ∧ ∀ k, ∃ w', write_all w (take k ds) = Some w' ∧ Writer_ok crc w' ∧ good1 (dest_ w')
        ∧ off w' = phys_off (off w) (concat (take k itemss))
        ∧ contents (dest_ w') = contents (dest_ w) ++ phys_bytes crc (off w) (concat (take k itemss)).
Proof.
  induction ds as [|d ds IH]; intros w Hw Hg.
  - exists []. split_and!; [constructor|by apply (off_le crc)|].
    intros k. exists w. rewrite take_nil. cbn. rewrite take_nil. cbn. by rewrite app_nil_r.
  - destruct (AddRecord_good crc good1 contents w d Hw Hg)
      as (w1 & items & Hadd & Hw1 & Hg1 & Hfr & Hok & Ho & Hc).
    destruct (IH w1 Hw1 Hg1) as (itemss & Hlog & Hoks & Hk).
    exists (items :: itemss). cbn [concat]. split_and!; [by constructor| |].
    { apply phys_ok_app. by rewrite <- Ho. }
    intros [|k].
    + exists w. cbn. by rewrite app_nil_r.
    + cbn [take write_all]. rewrite Hadd. cbn [mbind option_bind]. change (ok OK) with true.
      cbn iota. destruct (Hk k) as (w' & -> & Hw' & Hg' & Ho' & Hc'). exists w'.
      split_and!; try done; cbn [concat]; [by rewrite Ho', phys_off_app, <- Ho|].
      by rewrite Hc', Hc, phys_bytes_app, <- Ho, (assoc_L (++)).
Qed.

(** C1: what is written is what is read.  Records written to an empty file are
    all accepted; and when the file is read from its start after a crash that
    kept only its first [n] bytes — anywhere, in a header, a payload or the
    padding of a block — the reader returns, in order and unaltered, exactly the
    records whose last byte was kept, gives for each the file offset of its
    first header, and reports no corruption, whether it verifies checksums or
    not.  With nothing lost ([n] at least the length) that is every record. *)
Theorem log_crash_roundtrip ds f1 :
  good1 f1 → contents f1 = [] →
  ∃ w0 w itemss,
    Writer_new f1 = Some w0 ∧ write_all w0 ds = Some w
    ∧ log_of ds itemss ∧ contents (dest_ w) = phys_bytes crc 0 (concat itemss)
    ∧ ∀ n f2 reporter checksum fuel,
        let written := contents (dest_ w) in
        good2 f2 → rest f2 = take n written →
        Z.of_nat (length written) < 2 ^ 64 → (length written < fuel)%nat →
        ∃ k r',
          read_all (S (length ds)) fuel (Reader_new f2 reporter checksum 0)
            = Some (r', take k (zip ds (spots crc 0 0 itemss)))
          ∧ reporter_ r' = reporter
          ∧ (k ≤ length ds)%nat
          ∧ (∃ wk, write_all w0 (take k ds) = Some wk
               ∧ (length (contents (dest_ wk)) ≤ n)%nat)
          ∧ ((k < length ds)%nat → ∃ wk, write_all w0 (take (S k) ds) = Some wk
               ∧ (n < length (contents (dest_ wk)))%nat)
          ∧ ((length written ≤ n)%nat → k = length ds).
Proof.
  intros Hg Hnil. destruct (Writer_new_ok crc f1) as (w0 & Hnew & Hw0 & Hd0 & Ho0).
  destruct (write_all_good ds w0 Hw0) as (itemss & Hlog & Hok & Hk); [by rewrite Hd0|].
  rewrite Ho0, Hd0, Hnil in *.
  destruct (Hk (length ds)) as (w & Hw & _ & _ & _ & Hc). rewrite app_nil_l in Hc.
  rewrite firstn_all in Hw.
  assert (length itemss = length ds) as Hlen by (clear -Hlog; induction Hlog; cbn; congruence).
  rewrite <- Hlen, firstn_all in Hc.
  exists w0, w, itemss. split_and!; [done..|]. intros n f2 rep check fuel written Hg2 Hrest Hsm Hf.
  subst written. rewrite Hc in *.
  destruct (read_all_new crc good2 rest ds itemss f2 n rep check fuel)
    as (k & r' & Hra & Hrep & Hkle & Hlo & Hhi); [done..|].
  exists k, r'. rewrite Hrest, length_take in *.
  assert (∀ j, (log_length crc 0 itemss j ≤ length (phys_bytes crc 0 (concat itemss)))%nat) as Hmono.
  { intros j. unfold log_length. rewrite <- (take_drop j itemss) at 2.
    rewrite concat_app, phys_bytes_app, length_app. lia. }
  split_and!; [done..| | |].
  - destruct (Hk k) as (wk & -> & _ & _ & _ & Hck). exists wk. split; [done|].
    rewrite Hck, app_nil_l.
    unfold log_length in Hlo. lia.
  - intros Hlt. destruct (Hk (S k)) as (wk & -> & _ & _ & _ & Hck). exists wk. split; [done|].
    rewrite Hck, app_nil_l. specialize (Hhi Hlt). specialize (Hmono (S k)). unfold log_length in *. lia.
  - intros Hn. destruct (decide (k = length ds)); [done|].
    specialize (Hhi ltac:(lia)). specialize (Hmono (S k)). lia.
Qed.
End roundtrip.

(** ** Concrete readers *)

Lemma ReadRecord_total_witness :
  ∃ r' b record,
    ReadRecord 12 (Reader_new {| mem := str "not a log!" |} (Some []) true 0) = Some (r', b, record)
    ∧ (left (λ f, length (mem f)) r'
       ≤ left (λ f, length (mem f)) (Reader_new {| mem := str "not a log!" |} (Some []) true 0))%nat.
Proof. apply (ReadRecord_total crc32c (λ f, length (mem f))). cbn. lia. Defined.

Lemma ReadPhysicalRecord_detects_witness :
  let r := {| file_ := {| mem := [] |}; reporter_ := Some []; checksum_ := true;
              buffer_ := header crc32c (kFullType, str "a" ++ x62 :: str "c")
                         ++ (str "a" ++ x00 :: str "c") ++ str "rest";
              eof_ := true; last_record_offset_ := 0; end_of_buffer_offset_ := 14;
              initial_offset_ := 0; resyncing_ := false |} in
  ∃ r' mismatch, Corruption (str "checksum mismatch") [] = Some mismatch
    ∧ ReadPhysicalRecord r [] = Some (r', kBadRecord, [])
    ∧ buffer_ r' = [] ∧ file_ r' = file_ r ∧ last_record_offset_ r' = last_record_offset_ r
    ∧ reporter_ r' = Some ([] ++ [(size (buffer_ r), mismatch)]).
Proof.
  intros r. apply (ReadPhysicalRecord_detects crc32c r [] [] kFullType (str "a") x62 x00 (str "c")
                     (str "rest")); (reflexivity || discriminate).
Defined.

Lemma log_crash_roundtrip_witness :
  ∃ w0 w itemss,
    Writer_new {| mem := [] |} = Some w0 ∧ write_all w0 [str "one"; str "two"] = Some w
    ∧ log_of [str "one"; str "two"] itemss
    ∧ mem (dest_ w) = phys_bytes crc32c 0 (concat itemss)
    ∧ ∀ n f2 reporter checksum fuel,
        let written := mem (dest_ w) in
        True → mem f2 = take n written →
        Z.of_nat (length written) < 2 ^ 64 → (length written < fuel)%nat →
        ∃ k r',
          read_all 3 fuel (Reader_new f2 reporter checksum 0)
            = Some (r', take k (zip [str "one"; str "two"] (spots crc32c 0 0 itemss)))
          ∧ reporter_ r' = reporter
          ∧ (k ≤ 2)%nat
          ∧ (∃ wk, write_all w0 (take k [str "one"; str "two"]) = Some wk
               ∧ (length (mem (dest_ wk)) ≤ n)%nat)
          ∧ ((k < 2)%nat → ∃ wk, write_all w0 (take (S k) [str "one"; str "two"]) = Some wk
               ∧ (n < length (mem (dest_ wk)))%nat)
          ∧ ((length written ≤ n)%nat → k = 2%nat).
Proof.
  apply (log_crash_roundtrip crc32c (λ _, True) mem (λ _, True) mem [str "one"; str "two"]
           {| mem := [] |}); reflexivity.
Defined.
