(* ===== verification/Random.v ===== *)
(** The pseudo-random generator, util/random.h. *)
From S2P Require Import Prelude.
Local Open Scope Z_scope.

(** A generator is its [seed_]. *)
Definition Random := Z.

Definition Random_new (s : Z) : Random :=
  let seed_ := Z.land s 0x7fffffff in
  if (seed_ =? 0) || (seed_ =? 2147483647) then 1 else seed_.

Definition random_M : Z := 2147483647.
Definition random_A : Z := 16807.

(** [Next]: the new state, which is also the result. *)
Definition Next (seed_ : Random) : Random :=
  let product := u64 (seed_ * random_A) in
  let seed_ := u32 (Z.shiftr product 31 + Z.land product random_M) in
  if random_M <? seed_ then u32 (seed_ - random_M) else seed_.

(** [% n] on unsigned operands; division by zero is undefined. *)
Definition Uniform (r : Random) (n : Z) : option (Random * Z) :=
  let r := Next r in
  if u32 n =? 0 then None else Some (r, r mod u32 n).

Definition OneIn (r : Random) (n : Z) : option (Random * bool) :=
  let r := Next r in
  if u32 n =? 0 then None else Some (r, r mod u32 n =? 0).

(** [1 << Uniform(max_log + 1)] in [int]. *)
Definition Skewed (r : Random) (max_log : Z) : option (Random * Z) :=
  '(r, u) ← Uniform r (max_log + 1);
  ASSERT u <? 31;
  Uniform r (Z.shiftl 1 u).

Example Next_1 : Next 1 = 16807. Proof. reflexivity. Qed.
Example Next_known : Nat.iter (Z.to_nat 10000) Next 1 = 1043618065.
Proof. vm_compute. reflexivity. Qed.

(** The states the generator can be in. *)
Definition Random_ok (r : Random) : Prop := 1 <= r < random_M.

(** The product is never a multiple of the modulus, which is coprime to the
    multiplier. *)
Lemma product_not_multiple r k : Random_ok r → r * 16807 ≠ 2147483647 * k.
Proof.
  unfold Random_ok, random_M. intros Hr E.
  assert ((2147483647 | 16807 * r)) as Hd by (exists k; lia).
  apply Z.gauss in Hd; [|reflexivity]. destruct Hd as [j Hj]. nia.
Qed.

Lemma land_M a : Z.land a 2147483647 = a mod 2 ^ 31.
Proof. exact (Z.land_ones a 31 ltac:(lia)). Qed.

Lemma Next_eq r : Random_ok r → Next r = (r * 16807) mod 2147483647.
Proof.
  intros Hok. pose proof (fun k => product_not_multiple r k Hok) as Hmul.
  unfold Random_ok, random_M in Hok. unfold Next, random_A, random_M.
  rewrite u64_small by lia. rewrite land_M, Z.shiftr_div_pow2 by lia.
  change (2 ^ 31) with 2147483648. set (p := r * 16807) in *.
  assert (0 < p < 2147483647 * 16807) by lia.
  set (q := p / 2147483648). set (m := p mod 2147483648).
  assert (p = 2147483648 * q + m ∧ 0 <= m < 2147483648 ∧ 0 <= q <= 16807) as (Hp & Hm & Hq)
    by (subst q m; split_and!; lia_div).
  clearbody q m. rewrite (u32_small (q + m)) by lia.
  pose proof (Hmul (q + 1)).
  destruct (Z.ltb_spec 2147483647 (q + m)).
  - rewrite u32_small by lia. apply (Z.mod_unique_pos _ _ (q + 1)); lia.
  - apply (Z.mod_unique_pos _ _ q); lia.
Qed.

Lemma Next_ok r : Random_ok r → Random_ok (Next r).
Proof.
  intros Hok. rewrite Next_eq by done. unfold Random_ok, random_M in *.
  pose proof (Z.mod_pos_bound (r * 16807) 2147483647 eq_refl).
  assert ((r * 16807) mod 2147483647 ≠ 0); [|lia].
  intros E. apply Z.mod_divide in E as [k Hk]; [|lia].
  by apply (product_not_multiple r k); [|lia].
Qed.

Lemma Random_new_ok s : Random_ok (Random_new s).
Proof.
  unfold Random_ok, Random_new, random_M.
  change 0x7fffffff with 2147483647. rewrite land_M. change (2 ^ 31) with 2147483648.
  pose proof (Z.mod_pos_bound s 2147483648 eq_refl).
  destruct (Z.eqb_spec (s mod 2147483648) 0), (Z.eqb_spec (s mod 2147483648) 2147483647);
    cbn [orb]; lia.
Qed.

(** The shift-and-add reduction computes the Lehmer generator
    [seed * 16807 mod (2^31 - 1)] exactly, without leaving 32 bits, and from any
    seed the constructor accepts the state stays in [1, 2^31 - 2] for ever, so
    it never sticks at 0 or at the modulus; [Uniform] then answers a value below
    its bound. *)
Theorem Random_correct s k n :
  0 < n < 2 ^ 31 →
  let r := Nat.iter k Next (Random_new s) in
  Random_ok r ∧ Next r = (r * 16807) mod (2 ^ 31 - 1)
  ∧ ∃ v, Uniform r n = Some (Next r, v) ∧ 0 <= v < n
      ∧ OneIn r n = Some (Next r, v =? 0).
Proof.
  intros Hn r. assert (Hr : Random_ok r).
  { subst r. induction k as [|k IH]; [apply Random_new_ok|by apply Next_ok]. }
  split; [done|]. split; [by apply Next_eq|].
  exists (Next r mod n). unfold Uniform, OneIn. rewrite (u32_small n) by lia.
  destruct (Z.eqb_spec n 0); [lia|]. split; [done|]. split; [|done].
  apply Z.mod_pos_bound. lia.
Qed.

Lemma OneIn_total r n : 0 < n < 2 ^ 31 → Random_ok r →
  ∃ r' b, OneIn r n = Some (r', b) ∧ Random_ok r'.
Proof.
  intros Hn Hr. unfold OneIn. rewrite u32_small by lia.
  destruct (Z.eqb_spec n 0); [lia|]. do 2 eexists. split; [done|by apply Next_ok].
Qed.

Lemma Random_correct_witness :
  let r := Nat.iter 5 Next (Random_new 0xdeadbeef) in
  Random_ok r ∧ Next r = (r * 16807) mod (2 ^ 31 - 1)
  ∧ ∃ v, Uniform r 4 = Some (Next r, v) ∧ 0 <= v < 4
      ∧ OneIn r 4 = Some (Next r, v =? 0).
Proof. apply (Random_correct 0xdeadbeef 5 4). lia. Defined.
