(* ===== verification/Arena.v ===== *)
(** The arena allocator, util/arena.h and util/arena.cc.

    Addresses are integers; [new char[n]] is the allocator the source calls, a
    parameter with the documented promise of [operator new[]]: the block it
    returns is disjoint from the live blocks, not at the null address, and
    aligned for any object. *)
From S2P Require Import Prelude.
Local Open Scope Z_scope.

(** A range of addresses: its start and length. *)
Definition range := (Z * Z)%type.
Definition disjoint_ranges (a b : range) : Prop := a.1 + a.2 <= b.1 ∨ b.1 + b.2 <= a.1.
Definition inside (a b : range) : Prop := b.1 <= a.1 ∧ a.1 + a.2 <= b.1 + b.2.

(** [operator new char[]] given the live blocks and a size. *)
Class NewChar := { new_char : list range → Z → Z }.
Class NewCharLaws `{NewChar} := {
  new_char_disjoint : ∀ bs n b, 0 < n → b ∈ bs → disjoint_ranges (new_char bs n, n) b;
  new_char_range : ∀ bs n, 0 < n → 0 < new_char bs n;
  new_char_aligned : ∀ bs n, new_char bs n mod 8 = 0
}.

Definition kArenaBlockSize : Z := 4096.
Definition sizeof_ptr : Z := 8.

Section arena.
Context `{NewChar}.

(** [blocks_] keeps the size with each address, for the specification; the code
    stores the address only. *)
Record Arena := {
  alloc_ptr_ : Z; alloc_bytes_remaining_ : Z; blocks_ : list range; memory_usage_ : Z
}.

Definition Arena_new : Arena :=
  {| alloc_ptr_ := 0; alloc_bytes_remaining_ := 0; blocks_ := []; memory_usage_ := 0 |}.

Definition MemoryUsage (a : Arena) : Z := memory_usage_ a.

Definition AllocateNewBlock (a : Arena) (block_bytes : Z) : Arena * Z :=
  let result := new_char (blocks_ a) block_bytes in
  ({| alloc_ptr_ := alloc_ptr_ a; alloc_bytes_remaining_ := alloc_bytes_remaining_ a;
      blocks_ := blocks_ a ++ [(result, block_bytes)];
      memory_usage_ := u64 (memory_usage_ a + u64 (block_bytes + sizeof_ptr)) |}, result).

(** [alloc_ptr_ += n; alloc_bytes_remaining_ -= n]. *)
Definition bump (a : Arena) (n : Z) : Arena :=
  {| alloc_ptr_ := alloc_ptr_ a + n; alloc_bytes_remaining_ := u64 (alloc_bytes_remaining_ a - n);
     blocks_ := blocks_ a; memory_usage_ := memory_usage_ a |}.

Definition AllocateFallback (a : Arena) (nbytes : Z) : Arena * Z :=
  if kArenaBlockSize / 4 <? nbytes then AllocateNewBlock a nbytes
  else
    let '(a, block) := AllocateNewBlock a kArenaBlockSize in
    let a := {| alloc_ptr_ := block; alloc_bytes_remaining_ := kArenaBlockSize;
                blocks_ := blocks_ a; memory_usage_ := memory_usage_ a |} in
    let result := alloc_ptr_ a in
    (bump a nbytes, result).

Definition Allocate (a : Arena) (nbytes : Z) : option (Arena * Z) :=
  ASSERT (0 <? nbytes);
  if nbytes <=? alloc_bytes_remaining_ a
  then let result := alloc_ptr_ a in Some (bump a nbytes, result)
  else Some (AllocateFallback a nbytes).

(** [sizeof(void* ) > 8 ? sizeof(void* ) : 8]. *)
Definition align : Z := if 8 <? sizeof_ptr then sizeof_ptr else 8.

Definition AllocateAligned (a : Arena) (nbytes : Z) : option (Arena * Z) :=
  let current_mod := Z.land (alloc_ptr_ a) (align - 1) in
  let slop := if current_mod =? 0 then 0 else align - current_mod in
  let needed := u64 (nbytes + slop) in
  let '(a, result) :=
    if needed <=? alloc_bytes_remaining_ a
    then let result := alloc_ptr_ a + slop in (bump a needed, result)
    else AllocateFallback a nbytes in
  ASSERT (Z.land result (align - 1) =? 0);
  Some (a, result).

(** [~Arena] deletes every block, in order: the blocks still live. *)
Definition Arena_delete (a : Arena) (live : list range) : list range :=
  filter (λ b, b ∉ blocks_ a) live.

(** ** The invariant *)

(** What is owned: the handed-out ranges lie in blocks, are disjoint from each
    other and from the free part of the current block. *)
Record Arena_ok (a : Arena) (out : list range) : Prop := {
  ao_rem : 0 <= alloc_bytes_remaining_ a < 2 ^ 64;
  ao_free : 0 < alloc_bytes_remaining_ a →
    ∃ b, b ∈ blocks_ a ∧ inside (alloc_ptr_ a, alloc_bytes_remaining_ a) b;
  ao_blocks : ∀ b, b ∈ blocks_ a → 0 < b.1 ∧ 0 < b.2;
  ao_in : ∀ r, r ∈ out → 0 < r.2 ∧ ∃ b, b ∈ blocks_ a ∧ inside r b;
  ao_out_free : ∀ r, r ∈ out → 0 < alloc_bytes_remaining_ a →
    disjoint_ranges r (alloc_ptr_ a, alloc_bytes_remaining_ a);
  ao_disjoint : ∀ i j r s, out !! i = Some r → out !! j = Some s → i ≠ j → disjoint_ranges r s;
  ao_usage : memory_usage_ a = u64 (foldr (λ b n, b.2 + sizeof_ptr + n) 0 (blocks_ a))
}.

Lemma Arena_new_ok : Arena_ok Arena_new [].
Proof.
  split; cbn; try lia; try (intros ? []%not_elem_of_nil); try done.
Qed.

(** Handing out a range of the free part. *)
Lemma bump_ok a out skip n :
  Arena_ok a out → 0 <= skip → 0 < n → skip + n <= alloc_bytes_remaining_ a →
  Arena_ok (bump a (skip + n)) ((alloc_ptr_ a + skip, n) :: out).
Proof.
  intros [] Hs Hn Hle. destruct ao_free0 as (b & Hb & Hin); [lia|].
  assert (u64 (alloc_bytes_remaining_ a - (skip + n)) = alloc_bytes_remaining_ a - (skip + n)) as E
    by (apply u64_small; lia).
  unfold inside, disjoint_ranges in *. cbn in Hin.
  assert (Hfree : ∀ r, r ∈ out → r.1 + r.2 <= alloc_ptr_ a
            ∨ alloc_ptr_ a + alloc_bytes_remaining_ a <= r.1)
    by (intros r Hr; destruct (ao_out_free0 r Hr); cbn in *; lia).
  split; unfold inside, disjoint_ranges; cbn; rewrite ?E; try done; try lia.
  - intros Hpos. exists b. split; [done|]. cbn. lia.
  - intros r [Hr|Hr]%elem_of_cons; [subst r; cbn|by apply ao_in0].
    split; [lia|]. exists b. split; [done|]. lia.
  - intros r [Hr|Hr]%elem_of_cons Hpos; [subst r; cbn; lia|]. destruct (Hfree r Hr); lia.
  - intros [|i] [|j] r s; cbn; intros Hi Hj Hne; simplify_eq; cbn.
    + destruct (Hfree s (list_elem_of_lookup_2 _ _ _ Hj)); lia.
    + destruct (Hfree r (list_elem_of_lookup_2 _ _ _ Hi)); lia.
    + eapply ao_disjoint0; [done..|lia].
Qed.

Lemma usage_app (bs : list range) (b : range) :
  foldr (λ b n, b.2 + sizeof_ptr + n) 0 (bs ++ [b])
  = foldr (λ b n, b.2 + sizeof_ptr + n) 0 bs + (b.2 + sizeof_ptr).
Proof. induction bs as [|c bs IH]; cbn; [lia|]. rewrite IH. lia. Qed.

Context `{!NewCharLaws}.

(** A new block is apart from everything handed out and from the free part. *)
Lemma new_block_fresh a out n r :
  Arena_ok a out → 0 < n → r ∈ out → disjoint_ranges r (new_char (blocks_ a) n, n).
Proof.
  intros [] Hn Hr. destruct (ao_in0 r Hr) as (_ & b & Hb & Hin).
  pose proof (new_char_disjoint (blocks_ a) n b Hn Hb).
  unfold disjoint_ranges, inside in *. cbn in *. lia.
Qed.

(** A block of its own for a large request. *)
Lemma AllocateNewBlock_ok a out n :
  Arena_ok a out → 0 < n →
  Arena_ok (AllocateNewBlock a n).1 ((new_char (blocks_ a) n, n) :: out).
Proof.
  intros Ha Hn. pose proof (new_char_range (blocks_ a) n Hn) as Hpos.
  pose proof (fun r => new_block_fresh a out n r Ha Hn) as Hfresh.
  destruct (Ha) as [Hrem Hfree Hbl Hin Hof Hdis Hus]. split; cbn; try done.
  - intros Hr. destruct (Hfree Hr) as (b & Hb & ?). exists b. split; [|done].
    apply elem_of_app. by left.
  - intros b [Hb|Hb%list_elem_of_singleton]%elem_of_app; [by apply Hbl|]. subst. cbn. lia.
  - intros r [Hr|Hr]%elem_of_cons; [subst r|].
    + split; [done|]. eexists. split; [by apply elem_of_app; right; left|].
      unfold inside. lia.
    + destruct (Hin r Hr) as (? & b & Hb & ?). split; [done|]. exists b. split; [|done].
      apply elem_of_app. by left.
  - intros r [Hr|Hr]%elem_of_cons Hp; [subst r|by apply Hof].
    destruct (Hfree Hp) as (b & Hb & Hi). pose proof (new_char_disjoint (blocks_ a) n b Hn Hb).
    unfold disjoint_ranges, inside in *. cbn in *. lia.
  - intros [|i] [|j] r s; cbn; intros Hi Hj Hne; simplify_eq; cbn.
    + apply list_elem_of_lookup_2, Hfresh in Hj. unfold disjoint_ranges in *. cbn in *. lia.
    + by apply list_elem_of_lookup_2, Hfresh in Hi.
    + eapply Hdis; [done..|lia].
  - rewrite usage_app, Hus. cbn. unfold u64.
    by rewrite Zplus_mod_idemp_l, Zplus_mod_idemp_r.
Qed.

(** A fresh standard block becomes the current one. *)
Lemma current_block_ok a out p :
  Arena_ok a ((p, kArenaBlockSize) :: out) →
  (p, kArenaBlockSize) ∈ blocks_ a →
  Arena_ok {| alloc_ptr_ := p; alloc_bytes_remaining_ := kArenaBlockSize;
              blocks_ := blocks_ a; memory_usage_ := memory_usage_ a |} out.
Proof.
  intros [] Hb. split; cbn; try done.
  - intros _. exists (p, kArenaBlockSize). split; [done|]. unfold inside. cbn. lia.
  - intros r Hr. apply ao_in0. by right.
  - intros r Hr _. apply list_elem_of_lookup in Hr as [i Hi].
    by apply (ao_disjoint0 (S i) 0%nat r (p, kArenaBlockSize)).
  - intros i j r s Hi Hj Hne. by apply (ao_disjoint0 (S i) (S j)); [..|lia].
Qed.

Lemma AllocateFallback_ok a out n :
  Arena_ok a out → 0 < n →
  ∃ a' p, AllocateFallback a n = (a', p) ∧ Arena_ok a' ((p, n) :: out) ∧ p mod 8 = 0.
Proof.
  intros Ha Hn. unfold AllocateFallback. change (kArenaBlockSize / 4) with 1024.
  destruct (Z.ltb_spec 1024 n) as [Hbig|Hsmall].
  - do 2 eexists. split; [reflexivity|]. split; [by apply AllocateNewBlock_ok|].
    apply new_char_aligned.
  - pose proof (AllocateNewBlock_ok a out kArenaBlockSize Ha eq_refl) as Hnew.
    apply current_block_ok in Hnew; [|by apply elem_of_app; right; left].
    cbn [AllocateNewBlock fst blocks_ memory_usage_] in Hnew.
    do 2 eexists. split; [reflexivity|]. cbn [alloc_ptr_].
    split; [|apply new_char_aligned].
    pose proof (bump_ok _ out 0 n Hnew ltac:(lia) Hn) as Hb. cbn [alloc_ptr_] in Hb.
    rewrite !Z.add_0_l, Z.add_0_r in Hb. apply Hb. cbn. unfold kArenaBlockSize. lia.
Qed.

Lemma Allocate_ok a out n :
  Arena_ok a out → 0 < n →
  ∃ a' p, Allocate a n = Some (a', p) ∧ Arena_ok a' ((p, n) :: out).
Proof.
  intros Ha Hn. unfold Allocate. rewrite (proj2 (Z.ltb_lt _ _)) by done.
  destruct (Z.leb_spec n (alloc_bytes_remaining_ a)).
  - do 2 eexists. split; [reflexivity|].
    pose proof (bump_ok a out 0 n Ha ltac:(lia) Hn) as Hb. rewrite Z.add_0_l, Z.add_0_r in Hb.
    by apply Hb.
  - destruct (AllocateFallback_ok a out n Ha Hn) as (a' & p & -> & ? & _). eauto.
Qed.

Lemma land_align p : Z.land p (align - 1) = p mod 8.
Proof. exact (Z.land_ones p 3 ltac:(lia)). Qed.

Lemma AllocateAligned_ok a out n :
  Arena_ok a out → 0 < n → n + 8 < 2 ^ 64 →
  ∃ a' p, AllocateAligned a n = Some (a', p) ∧ Arena_ok a' ((p, n) :: out) ∧ p mod 8 = 0.
Proof.
  intros Ha Hn Hsm. unfold AllocateAligned. rewrite land_align. change align with 8.
  set (slop := if _ =? 0 then _ else _).
  assert (0 <= slop < 8 ∧ (alloc_ptr_ a + slop) mod 8 = 0) as [Hs Hal].
  { subst slop. pose proof (Z.mod_pos_bound (alloc_ptr_ a) 8 eq_refl).
    destruct (Z.eqb_spec (alloc_ptr_ a mod 8) 0); [split; [lia|by rewrite Z.add_0_r]|].
    split; [lia|]. lia_div. }
  rewrite u64_small by lia. change (8 - 1) with (align - 1).
  destruct (Z.leb_spec (n + slop) (alloc_bytes_remaining_ a)).
  - rewrite land_align, Hal. do 2 eexists. split; [reflexivity|]. split; [|done].
    rewrite (Z.add_comm n). by apply bump_ok; [|lia..].
  - destruct (AllocateFallback_ok a out n Ha Hn) as (a' & p & -> & Hok & Hp).
    rewrite land_align, Hp. eauto.
Qed.

(** ** Sequences of requests *)

Inductive request := Plain (n : Z) | Aligned (n : Z).
Definition request_size (q : request) : Z := match q with Plain n | Aligned n => n end.
Definition serve (a : Arena) (q : request) : option (Arena * Z) :=
  match q with Plain n => Allocate a n | Aligned n => AllocateAligned a n end.
Fixpoint serve_all (a : Arena) (qs : list request) : option (Arena * list Z) :=
  match qs with
  | [] => Some (a, [])
  | q :: qs => '(a, p) ← serve a q; '(a, ps) ← serve_all a qs; Some (a, p :: ps)
  end.

Definition request_ok (q : request) : Prop := 0 < request_size q ∧ request_size q + 8 < 2 ^ 64.

Lemma serve_all_ok qs : ∀ a out,
  Arena_ok a out → Forall request_ok qs →
  ∃ a' ps, serve_all a qs = Some (a', ps) ∧ length ps = length qs
    ∧ Arena_ok a' (reverse (zip ps (request_size <$> qs)) ++ out)
    ∧ ∀ i n p, qs !! i = Some (Aligned n) → ps !! i = Some p → p mod 8 = 0.
Proof.
  induction qs as [|q qs IH]; intros a out Ha Hqs.
  { exists a, []. by split_and!. }
  apply Forall_cons in Hqs as [[Hq Hq'] Hqs]. cbn [serve_all].
  assert (∃ a1 p, serve a q = Some (a1, p) ∧ Arena_ok a1 ((p, request_size q) :: out)
            ∧ (∀ n, q = Aligned n → p mod 8 = 0)) as (a1 & p & -> & Ha1 & Hal).
  { destruct q as [n|n]; cbn in *.
    - destruct (Allocate_ok a out n Ha Hq) as (a1 & p & ? & ?). by exists a1, p.
    - destruct (AllocateAligned_ok a out n Ha Hq Hq') as (a1 & p & ? & ? & ?). by exists a1, p. }
  cbn [mbind option_bind].
  destruct (IH a1 _ Ha1 Hqs) as (a2 & ps & -> & Hlen & Ha2 & Hal2). cbn [mbind option_bind].
  exists a2, (p :: ps). split_and!; [done|cbn; lia| |].
  - cbn [fmap list_fmap zip zip_with]. rewrite reverse_cons, <- (assoc_L (++)). done.
  - intros [|i] n p'; cbn; [intros [= ->] [= <-]; by eapply Hal|by apply Hal2].
Qed.

(** C6: however [Allocate] and [AllocateAligned] calls are interleaved, starting
    from an empty arena every request of a positive size is served (no
    assertion fails), each served range lies inside one of the arena's blocks,
    no two served ranges overlap, aligned requests are aligned to 8 bytes, and
    [MemoryUsage] is the total size of the blocks plus a pointer for each. *)
Theorem Arena_correct qs :
  Forall request_ok qs →
  ∃ a ps, serve_all Arena_new qs = Some (a, ps) ∧ length ps = length qs
    ∧ (∀ i p q, ps !! i = Some p → qs !! i = Some q →
         ∃ b, b ∈ blocks_ a ∧ inside (p, request_size q) b)
    ∧ (∀ i j p p' q q', i ≠ j → ps !! i = Some p → qs !! i = Some q →
         ps !! j = Some p' → qs !! j = Some q' →
         disjoint_ranges (p, request_size q) (p', request_size q'))
    ∧ (∀ i n p, qs !! i = Some (Aligned n) → ps !! i = Some p → p mod 8 = 0)
    ∧ MemoryUsage a = u64 (foldr (λ b n, b.2 + sizeof_ptr + n) 0 (blocks_ a)).
Proof.
  intros Hqs. destruct (serve_all_ok qs Arena_new [] Arena_new_ok Hqs)
    as (a & ps & Hs & Hlen & Ha & Hal).
  exists a, ps. rewrite app_nil_r in Ha.
  assert (Hz : ∀ i p q, ps !! i = Some p → qs !! i = Some q →
            zip ps (request_size <$> qs) !! i = Some (p, request_size q)).
  { intros i p q Hp Hq. apply lookup_zip_with_Some. exists p, (request_size q).
    split; [done|]. split; [done|]. by rewrite list_lookup_fmap, Hq. }
  split_and!; [done..| | |done|by destruct Ha].
  - intros i p q Hp Hq. apply (ao_in _ _ Ha). apply elem_of_reverse.
    by eapply list_elem_of_lookup_2, Hz.
  - intros i j p p' q q' Hne Hp Hq Hp' Hq'.
    pose proof (Hz i p q Hp Hq) as Hi. pose proof (Hz j p' q' Hp' Hq') as Hj.
    set (l := zip ps (request_size <$> qs)) in *.
    pose proof (lookup_lt_Some _ _ _ Hi). pose proof (lookup_lt_Some _ _ _ Hj).
    assert (@length range l = @length (Z * Z) l) as El by done.
    apply (ao_disjoint _ _ Ha (length l - S i) (length l - S j)); [..|lia].
    + rewrite reverse_lookup by lia. etransitivity; [|exact Hi]. f_equal. lia.
    + rewrite reverse_lookup by lia. etransitivity; [|exact Hj]. f_equal. lia.
Qed.
End arena.

(** An allocator that places each block above the previous ones. *)
#[export] Instance bump_new_char : NewChar := {
  new_char bs _ := 8 * foldr (λ b m, Z.max ((b.1 + b.2 + 7) / 8) m) 1 bs
}.

Lemma bump_bound (bs : list range) m :
  m ∈ bs → m.1 + m.2 <= 8 * foldr (λ b m, Z.max ((b.1 + b.2 + 7) / 8) m) 1 bs.
Proof.
  induction bs as [|b bs IH]; intros Hm; [by apply elem_of_nil in Hm|].
  apply elem_of_cons in Hm as [->|Hm]; cbn [foldr]; [|specialize (IH Hm); lia].
  pose proof (Z.div_mod (b.1 + b.2 + 7) 8 ltac:(lia)).
  pose proof (Z.mod_pos_bound (b.1 + b.2 + 7) 8 eq_refl). lia.
Qed.

#[export] Instance bump_new_char_laws : NewCharLaws.
Proof.
  assert (∀ bs : list range, 1 <= foldr (λ b m, Z.max ((b.1 + b.2 + 7) / 8) m) 1 bs) as H1
    by (induction bs; cbn; lia).
  split; cbn.
  - intros bs n b Hn Hb. right. cbn. by apply bump_bound.
  - intros bs n _. specialize (H1 bs). lia.
  - intros bs n. rewrite Z.mul_comm. apply Z.mod_mul. lia.
Qed.

Lemma Arena_correct_witness :
  let qs := [Plain 3; Aligned 16; Plain 5000; Plain 1; Aligned 2000] in
  ∃ a ps, serve_all Arena_new qs = Some (a, ps) ∧ length ps = length qs
    ∧ (∀ i p q, ps !! i = Some p → qs !! i = Some q →
         ∃ b, b ∈ blocks_ a ∧ inside (p, request_size q) b)
    ∧ (∀ i j p p' q q', i ≠ j → ps !! i = Some p → qs !! i = Some q →
         ps !! j = Some p' → qs !! j = Some q' →
         disjoint_ranges (p, request_size q) (p', request_size q'))
    ∧ (∀ i n p, qs !! i = Some (Aligned n) → ps !! i = Some p → p mod 8 = 0)
    ∧ MemoryUsage a = u64 (foldr (λ b n, b.2 + sizeof_ptr + n) 0 (blocks_ a)).
Proof.
  intros qs. apply (Arena_correct qs).
  repeat constructor; (unfold request_ok; cbn; lia).
Defined.

