(* ===== verification/SkipList.v ===== *)
(** The skip list, db/skiplist.h, over any key type, comparator and allocator.

    Nodes live in a heap at the addresses the allocator returns; the null
    pointer is 0.  A [next_] slot is empty until it is first stored to, and
    loading an empty slot, a slot past the node's height or a node that does not
    exist is a fault. *)
From Stdlib Require Import Sorted.
From stdpp Require Import sorting.
From S2P Require Import Prelude Random.
Local Open Scope Z_scope.

(** ** What the list asks of its environment *)

(** The node allocator ([Arena::AllocateAligned]). *)
Class NodeAllocator (A : Type) := { alloc_node : A → Z → option (A * Z) }.
(** Allocation succeeds and never returns null or an address in use. *)
Class NodeAllocatorLaws A `{NodeAllocator A} (inv : A → gset Z → Prop) := {
  alloc_fresh : ∀ a used n, inv a used → 0 < n < 2 ^ 32 →
    ∃ a' p, alloc_node a n = Some (a', p) ∧ (p ∉ used) ∧ p ≠ 0 ∧ (inv a' ({[p]} ∪ used))
}.

(** The three-way order of the comparator on the keys that are used. *)
Class KeyOrder {K} (cmp : K → K → option Z) (ok : K → Prop) := {
  ko_total : ∀ a b, ok a → ok b → is_Some (cmp a b);
  ko_swap : ∀ a b r s, ok a → ok b → cmp a b = Some r → cmp b a = Some s → Z.sgn s = - Z.sgn r;
  ko_trans : ∀ a b c r s t, ok a → ok b → ok c →
    cmp a b = Some r → cmp b c = Some s → cmp a c = Some t → r <= 0 → s <= 0 → t <= 0
}.

Section skiplist.
Context {K : Type} (compare_ : K → K → option Z) {A : Type} `{NodeAllocator A}.

Definition kMaxHeight : nat := 12.
Definition kBranching : Z := 4.
(** [sizeof(Node)]: a key pointer and one [next_] slot. *)
Definition sizeof_Node : Z := 16.

Record Node := { nkey : K; next_ : list (option Z) }.
#[local] Abbreviation heap := (gmap Z Node).

Record SkipList := { nodes : heap; head_ : Z; max_height_ : nat; rnd_ : Random }.

Definition Node_Next (h : heap) (x : Z) (n : nat) : option Z :=
  nd ← h !! x; s ← next_ nd !! n; s.

Definition Node_SetNext (h : heap) (x : Z) (n : nat) (v : Z) : option heap :=
  nd ← h !! x;
  ASSERT (n <? length (next_ nd))%nat;
  Some (<[x := {| nkey := nkey nd; next_ := <[n := Some v]> (next_ nd) |}]> h).

Definition Node_key (h : heap) (x : Z) : option K := nkey <$> h !! x.

Definition NewNode (ar : A) (h : heap) (key : K) (height : nat) : option (A * heap * Z) :=
  '(ar, node_memory) ← alloc_node ar (sizeof_Node + 8 * (Z.of_nat height - 1));
  Some (ar, <[node_memory := {| nkey := key; next_ := replicate height None |}]> h, node_memory).

Definition GetMaxHeight (l : SkipList) : nat := max_height_ l.

(** [for (int i = ...; i < ...; i++)] over [levels], threading the heap. *)
Fixpoint set_null (h : heap) (x : Z) (levels : list nat) : option heap :=
  match levels with
  | [] => Some h
  | i :: levels => h ← Node_SetNext h x i 0; set_null h x levels
  end.

(** The constructor; [zero] is the key the head node is built with. *)
Definition SkipList_new (ar : A) (zero : K) : option (A * SkipList) :=
  '(ar, h, head) ← NewNode ar ∅ zero kMaxHeight;
  h ← set_null h head (seq 0 kMaxHeight);
  Some (ar, {| nodes := h; head_ := head; max_height_ := 1; rnd_ := Random_new 0xdeadbeef |}).

Definition KeyIsAfterNode (l : SkipList) (key : K) (n : Z) : option bool :=
  if n =? 0 then Some false
  else k ← Node_key (nodes l) n; c ← compare_ k key; Some (c <? 0).

(** The state of the search loops. *)
Inductive search := Searching (x : Z) (level : nat) | Found (n : Z).
Definition searching {P} (s : search * P) : bool :=
  match s.1 with Searching _ _ => true | Found _ => false end.

(** [if (prev != nullptr) prev[level] = x]: [prev] is null or an array. *)
Definition record_prev (prev : option (list Z)) (level : nat) (x : Z)
    : option (option (list Z)) :=
  match prev with
  | None => Some None
  | Some a => ASSERT (level <? length a)%nat; Some (Some (<[level := x]> a))
  end.

(** Body of the loop of [FindGreaterOrEqual]. *)
Definition FindGreaterOrEqual_body (l : SkipList) (key : K) (s : search * option (list Z))
    : option (search * option (list Z)) :=
  match s with
  | (Searching x level, prev) =>
    next ← Node_Next (nodes l) x level;
    after ← KeyIsAfterNode l key next;
    if (after : bool) then Some (Searching next level, prev)
    else
      prev ← record_prev prev level x;
      match level with
      | O => Some (Found next, prev)
      | S level => Some (Searching x level, prev)
      end
  | _ => None
  end.

(** Iterations: every one moves right or down. *)
Definition search_fuel (l : SkipList) : nat := 2 + kMaxHeight + size (nodes l).

Definition FindGreaterOrEqual (l : SkipList) (key : K) (prev : option (list Z))
    : option (Z * option (list Z)) :=
  level ← (if (GetMaxHeight l =? 0)%nat then None else Some (GetMaxHeight l - 1)%nat);
  '(s, prev) ← while (search_fuel l) searching (FindGreaterOrEqual_body l key)
                 (Searching (head_ l) level, prev);
  match s with Found n => Some (n, prev) | _ => None end.

Definition FindLessThan_body (l : SkipList) (key : K) (s : search * unit)
    : option (search * unit) :=
  match s with
  | (Searching x level, _) =>
    good ← (if x =? head_ l then Some true
            else k ← Node_key (nodes l) x; c ← compare_ k key; Some (c <? 0));
    ASSERT (good : bool);
    next ← Node_Next (nodes l) x level;
    stop ← (if next =? 0 then Some true
            else k ← Node_key (nodes l) next; c ← compare_ k key; Some (0 <=? c));
    if (stop : bool) then
      match level with
      | O => Some (Found x, tt)
      | S level => Some (Searching x level, tt)
      end
    else Some (Searching next level, tt)
  | _ => None
  end.

Definition FindLessThan (l : SkipList) (key : K) : option Z :=
  level ← (if (GetMaxHeight l =? 0)%nat then None else Some (GetMaxHeight l - 1)%nat);
  '(s, _) ← while (search_fuel l) searching (FindLessThan_body l key)
              (Searching (head_ l) level, tt);
  match s with Found n => Some n | _ => None end.

Definition FindLast_body (l : SkipList) (s : search * unit) : option (search * unit) :=
  match s with
  | (Searching x level, _) =>
    next ← Node_Next (nodes l) x level;
    if next =? 0 then
      match level with
      | O => Some (Found x, tt)
      | S level => Some (Searching x level, tt)
      end
    else Some (Searching next level, tt)
  | _ => None
  end.

Definition FindLast (l : SkipList) : option Z :=
  level ← (if (GetMaxHeight l =? 0)%nat then None else Some (GetMaxHeight l - 1)%nat);
  '(s, _) ← while (search_fuel l) searching (FindLast_body l) (Searching (head_ l) level, tt);
  match s with Found n => Some n | _ => None end.

Definition Equal (a b : K) : option bool := c ← compare_ a b; Some (c =? 0).

(** The loop of [RandomHeight]: at most [kMaxHeight] draws. *)
Fixpoint RandomHeight_loop (fuel : nat) (r : Random) (height : nat) : option (Random * nat) :=
  match fuel with
  | O => None
  | S k =>
    if (height <? kMaxHeight)%nat then
      '(r, one) ← OneIn r kBranching;
      if (one : bool) then RandomHeight_loop k r (S height) else Some (r, height)
    else Some (r, height)
  end.

Definition RandomHeight (r : Random) : option (Random * nat) :=
  '(r, height) ← RandomHeight_loop kMaxHeight r 1;
  ASSERT (0 <? height)%nat;
  ASSERT (height <=? kMaxHeight)%nat;
  Some (r, height).

(** One iteration of the linking loop of [Insert], as its two stores. *)
Definition link_level (h : heap) (x : Z) (prev : list Z) (i : nat) : option heap :=
  p ← prev !! i;
  n ← Node_Next h p i;
  h ← Node_SetNext h x i n;
  Node_SetNext h p i x.

Fixpoint link_levels (h : heap) (x : Z) (prev : list Z) (levels : list nat) : option heap :=
  match levels with
  | [] => Some h
  | i :: levels => h ← link_level h x prev i; link_levels h x prev levels
  end.

(** [prev[i] = head_] for the levels above the current height. *)
Definition fill_prev (prev : list Z) (lo hi : nat) (head : Z) : list Z :=
  foldl (λ p i, <[i := head]> p) prev (seq lo (hi - lo)).

(** [prev] is a local array; its entries are unspecified until assigned. *)
Definition Insert (ar : A) (l : SkipList) (key : K) : option (A * SkipList) :=
  '(x, prev) ← FindGreaterOrEqual l key (Some (replicate kMaxHeight 0));
  prev ← prev;
  dup ← (if x =? 0 then Some false else k ← Node_key (nodes l) x; Equal key k);
  ASSERT (negb dup);
  '(r, height) ← RandomHeight (rnd_ l);
  let grow := (GetMaxHeight l <? height)%nat in
  let prev := if grow then fill_prev prev (GetMaxHeight l) height (head_ l) else prev in
  let mh := if grow then height else max_height_ l in
  '(ar, h, x) ← NewNode ar (nodes l) key height;
  h ← link_levels h x prev (seq 0 height);
  Some (ar, {| nodes := h; head_ := head_ l; max_height_ := mh; rnd_ := r |}).

(** [Insert] up to its linking loop, which is [rest]. *)
Definition Insert_prepare {B} (ar : A) (l : SkipList) (key : K)
    (rest : A → Random → nat → list Z → heap → Z → option B) : option B :=
  '(x, prev) ← FindGreaterOrEqual l key (Some (replicate kMaxHeight 0));
  prev ← prev;
  dup ← (if x =? 0 then Some false else k ← Node_key (nodes l) x; Equal key k);
  ASSERT (negb dup);
  '(r, height) ← RandomHeight (rnd_ l);
  let grow := (GetMaxHeight l <? height)%nat in
  let prev := if grow then fill_prev prev (GetMaxHeight l) height (head_ l) else prev in
  '(ar, h, x) ← NewNode ar (nodes l) key height;
  rest ar r height prev h x.

Definition Contains (l : SkipList) (key : K) : option bool :=
  '(x, _) ← FindGreaterOrEqual l key None;
  if x =? 0 then Some false else k ← Node_key (nodes l) x; Equal key k.

(** ** Iterators: the node they stand at, null when not valid *)
Definition Iterator := Z.
Definition Iterator_new : Iterator := 0.
Definition Iter_Valid (it : Iterator) : bool := negb (it =? 0).
Definition Iter_key (l : SkipList) (it : Iterator) : option K :=
  ASSERT (Iter_Valid it); Node_key (nodes l) it.
Definition Iter_Next (l : SkipList) (it : Iterator) : option Iterator :=
  ASSERT (Iter_Valid it); Node_Next (nodes l) it 0.
Definition Iter_Prev (l : SkipList) (it : Iterator) : option Iterator :=
  ASSERT (Iter_Valid it);
  k ← Node_key (nodes l) it;
  n ← FindLessThan l k;
  Some (if n =? head_ l then 0 else n).
Definition Iter_Seek (l : SkipList) (target : K) : option Iterator :=
  '(n, _) ← FindGreaterOrEqual l target None; Some n.
Definition Iter_SeekToFirst (l : SkipList) : option Iterator := Node_Next (nodes l) (head_ l) 0.
Definition Iter_SeekToLast (l : SkipList) : option Iterator :=
  n ← FindLast l; Some (if n =? head_ l then 0 else n).
End skiplist.
Arguments SkipList : clear implicits.
Arguments Node : clear implicits.

(** ** The order of the keys *)
Section order.
Context {K : Type} (cmp : K → K → option Z) (ok : K → Prop) `{!KeyOrder cmp ok}.

Definition klt (a b : K) : Prop := ∃ r, cmp a b = Some r ∧ r < 0.
Definition keqv (a b : K) : Prop := cmp a b = Some 0.

Lemma klt_trans a b c : ok a → ok b → ok c → klt a b → klt b c → klt a c.
Proof using Type*.
  intros Ha Hb Hc (r & Hr & Hr0) (s & Hs & Hs0).
  destruct (ko_total a c Ha Hc) as [t Ht]. exists t. split; [done|].
  pose proof (ko_trans a b c r s t Ha Hb Hc Hr Hs Ht ltac:(lia) ltac:(lia)).
  destruct (decide (t = 0)) as [->|]; [|lia]. exfalso.
  destruct (ko_total c a Hc Ha) as [t' Ht']. destruct (ko_total c b Hc Hb) as [s' Hs'].
  pose proof (ko_swap a c _ _ Ha Hc Ht Ht'). pose proof (ko_swap b c _ _ Hb Hc Hs Hs').
  pose proof (ko_trans c a b t' r s' Hc Ha Hb Ht' Hr Hs' ltac:(lia) ltac:(lia)). lia.
Qed.

Lemma klt_irrefl a : ok a → ¬ klt a a.
Proof using Type*.
  intros Ha (r & Hr & ?). pose proof (ko_swap a a _ _ Ha Ha Hr Hr). lia.
Qed.

(** Not before and not equal is after. *)
Lemma not_klt a b : ok a → ok b → ¬ klt a b → ¬ keqv b a → klt b a.
Proof using Type*.
  intros Ha Hb Hn He. destruct (ko_total a b Ha Hb) as [r Hr].
  destruct (ko_total b a Hb Ha) as [s Hs]. pose proof (ko_swap a b _ _ Ha Hb Hr Hs).
  exists s. split; [done|]. destruct (decide (r < 0)); [by destruct Hn; exists r|].
  destruct (decide (s = 0)) as [->|]; [by destruct He|]. lia.
Qed.

Lemma klt_not_before a b c : ok a → ok b → ok c → ¬ klt a b → klt a c → ¬ klt c b.
Proof using Type*. intros Ha Hb Hc Hab Hac Hcb. apply Hab. by eapply (klt_trans a c b). Qed.

(** The number of leading keys before [k]: where [k] belongs in a sorted list. *)
Fixpoint rank (ks : list K) (k : K) : nat :=
  match ks with
  | [] => O
  | k' :: ks => match cmp k' k with Some c => if c <? 0 then S (rank ks k) else O | None => O end
  end.

Lemma rank_le ks k : (rank ks k ≤ length ks)%nat.
Proof. induction ks as [|k' ks IH]; cbn; [done|]. repeat case_match; lia. Qed.

(** In a sorted list exactly the keys below the rank are before [k]. *)
Lemma rank_lt ks k j k' :
  StronglySorted klt ks → Forall ok ks → ok k → ks !! j = Some k' →
  klt k' k ↔ (j < rank ks k)%nat.
Proof using Type*.
  revert j. induction ks as [|a ks IH]; intros j Hs Hok Hk Hj; [done|].
  apply StronglySorted_inv in Hs as [Hs Ha]. apply Forall_cons in Hok as [Hoa Hok].
  cbn. destruct (ko_total a k Hoa Hk) as [c Hc]. rewrite Hc.
  destruct (Z.ltb_spec c 0) as [Hlt|Hge].
  - destruct j as [|j]; cbn in Hj.
    + simplify_eq. split; [lia|]. intros _. by exists c.
    + rewrite (IH j) by done. lia.
  - split; [|lia]. intros Hlt. exfalso.
    assert (¬ klt a k) as Hna by (intros (c' & ? & ?); simplify_eq; lia).
    destruct j as [|j]; cbn in Hj; [by simplify_eq|].
    rewrite Forall_lookup in Ha. rewrite Forall_lookup in Hok.
    apply (klt_not_before a k k' Hoa Hk (Hok j k' Hj) Hna (Ha j k' Hj) Hlt).
Qed.

Definition insert_at (ks : list K) (k : K) : list K :=
  take (rank ks k) ks ++ k :: drop (rank ks k) ks.

(** Earlier keys of a sorted list are before later ones. *)
Lemma klt_lookup ks i j a b :
  StronglySorted klt ks → ks !! i = Some a → ks !! j = Some b → (i < j)%nat → klt a b.
Proof.
  intros Hs Hi Hj Hij. rewrite <- (take_drop j ks) in Hs.
  apply (StronglySorted_app_1_elem_of _ _ _ a b Hs).
  - apply list_elem_of_lookup. exists i. by rewrite lookup_take_lt.
  - apply list_elem_of_lookup. exists 0%nat. by rewrite lookup_drop, Nat.add_0_r.
Qed.

Lemma insert_at_sorted ks k :
  StronglySorted klt ks → Forall ok ks → ok k → Forall (λ k', ¬ keqv k k') ks →
  StronglySorted klt (insert_at ks k).
Proof using Type*.
  intros Hs Hok Hk Hne. unfold insert_at.
  pose proof (rank_lt ks k) as Hr. rewrite Forall_lookup in Hne. pose proof Hok as Hok'.
  rewrite Forall_lookup in Hok'.
  assert (Hlo : ∀ x, x ∈ take (rank ks k) ks → klt x k).
  { intros x [j Hj]%list_elem_of_lookup. apply lookup_take_Some in Hj as [Hj Hlt].
    by apply (Hr j). }
  assert (Hhi : ∀ x, x ∈ drop (rank ks k) ks → klt k x).
  { intros x [j Hj]%list_elem_of_lookup. rewrite lookup_drop in Hj.
    apply not_klt; [by eapply Hok'|done| |by eapply Hne].
    rewrite (Hr _ _ Hs Hok Hk Hj). lia. }
  pose proof Hs as Hs'. rewrite <- (take_drop (rank ks k) ks) in Hs'.
  apply StronglySorted_app in Hs' as (_ & Ha & Hb).
  apply StronglySorted_app_2; [|done|].
  2: { constructor; [done|]. apply Forall_forall. exact Hhi. }
  - intros x y Hx [->|Hy]%elem_of_cons; [by apply Hlo|].
    assert (Forall ok (take (rank ks k) ks)) as Ht by (by apply Forall_take).
    assert (Forall ok (drop (rank ks k) ks)) as Hd by (by apply Forall_drop).
    rewrite Forall_forall in Ht. rewrite Forall_forall in Hd.
    apply (klt_trans x k y); auto.
Qed.
End order.

(** ** Linked levels *)
Section links.
Context {K : Type}.
#[local] Abbreviation heap := (gmap Z (Node K)).
Implicit Types (h : heap) (L X Y P Q : list Z).

Definition tall h (i : nat) (x : Z) : bool :=
  match h !! x with Some nd => (i <? length (next_ nd))%nat | None => false end.

(** The nodes that reach level [i]. *)
Definition lvl h (i : nat) L : list Z := filter (λ x, tall h i x = true) L.

(** Level [i] leads from [x] through [ys] to null. *)
Fixpoint linked h (i : nat) (x : Z) (ys : list Z) : Prop :=
  match ys with
  | [] => Node_Next h x i = Some 0
  | y :: ys => Node_Next h x i = Some y ∧ linked h i y ys
  end.

Definition first Q : Z := default 0 (head Q).
Definition lastof (x : Z) P : Z := default x (last P).

Lemma lastof_cons x y P : lastof x (y :: P) = lastof y P.
Proof. unfold lastof. destruct P as [|z P]; [done|]. by rewrite last_cons; destruct (last (z :: P)) eqn:E; [|apply last_None in E]. Qed.
Lemma lastof_snoc x P y : lastof x (P ++ [y]) = y.
Proof. unfold lastof. by rewrite last_snoc. Qed.
Lemma lastof_in x P : lastof x P = x ∧ P = [] ∨ lastof x P ∈ P.
Proof.
  destruct (decide (P = [])) as [->|Hne]; [by left|right]. unfold lastof.
  destruct (last P) eqn:E; [by apply last_Some_elem_of in E|by apply last_None in E].
Qed.

Lemma linked_app h i x P Q : linked h i x (P ++ Q) → linked h i (lastof x P) Q.
Proof.
  revert x. induction P as [|y P IH]; intros x; [done|]. cbn. intros [_ Hl].
  rewrite lastof_cons. by apply IH.
Qed.

Lemma linked_next h i x P Q : linked h i x (P ++ Q) → Node_Next h (lastof x P) i = Some (first Q).
Proof. intros Hl%linked_app. destruct Q; cbn in *; tauto. Qed.

Lemma linked_ext h h' i x ys :
  linked h i x ys → (∀ y, y ∈ x :: ys → Node_Next h' y i = Node_Next h y i) → linked h' i x ys.
Proof.
  revert x. induction ys as [|y ys IH]; intros x; cbn.
  - intros Hl He. rewrite He; [done|by left].
  - intros [Hl Hls] He. split; [rewrite He; [done|by left]|].
    apply IH; [done|]. intros z Hz. apply He. by right.
Qed.

(** Splicing a node in. *)
Lemma linked_insert h h' i x0 P Q x :
  linked h i x0 (P ++ Q) → NoDup (x0 :: P ++ Q) → x ∉ x0 :: P ++ Q →
  Node_Next h' x i = Some (first Q) → Node_Next h' (lastof x0 P) i = Some x →
  (∀ y, y ≠ x → y ≠ lastof x0 P → Node_Next h' y i = Node_Next h y i) →
  linked h' i x0 (P ++ x :: Q).
Proof.
  revert x0. induction P as [|y P IH]; intros x0 Hl Hnd Hx Hnx Hnp Hext.
  - cbn [app lastof last default] in *. split; [done|].
    apply NoDup_cons in Hnd as [Hx0 Hnd].
    destruct Q as [|q Q]; [done|]. destruct Hl as [_ Hl]. split; [done|].
    apply (linked_ext h); [done|]. intros z Hz. apply Hext.
    + intros ->. apply Hx. by right.
    + intros ->. by apply Hx0.
  - cbn [app] in *. rewrite lastof_cons in *. destruct Hl as [Hl Hls].
    apply NoDup_cons in Hnd as [Hx0 Hnd].
    split.
    + rewrite Hext; [done|intros ->; apply Hx; by left|].
      intros E. apply Hx0. rewrite E.
      destruct (lastof_in y P) as [[-> _]|?]; [by left|]. right. apply elem_of_app. by left.
    + apply IH; try done. intros Hin. apply Hx. by right.
Qed.

Lemma lvl_app h i X Y : lvl h i (X ++ Y) = lvl h i X ++ lvl h i Y.
Proof. apply filter_app. Qed.

Lemma lvl_lastof h i x0 X :
  X = [] ∨ tall h i (lastof x0 X) = true → lastof x0 (lvl h i X) = lastof x0 X.
Proof.
  destruct X as [|y X] using rev_ind; [done|]. rewrite lastof_snoc, lvl_app.
  intros [Hn|Ht]; [by destruct X|]. unfold lvl at 2. rewrite filter_cons_True by done.
  cbn [filter list_filter]. apply lastof_snoc.
Qed.

(** The first node of a level is some node of the list, past which nothing on
    the way reaches the level. *)
Lemma lvl_first h i Y :
  lvl h i Y = [] ∨ ∃ C p Y', Y = C ++ p :: Y' ∧ lvl h i C = [] ∧ tall h i p = true
    ∧ lvl h i Y = p :: lvl h i Y'.
Proof.
  induction Y as [|y Y IH]; [by left|]. unfold lvl in *.
  destruct (tall h i y) eqn:E.
  - right. exists [], y, Y. split_and!; try done. by rewrite filter_cons_True.
  - destruct IH as [IH|(C & p & Y' & -> & HC & Hp & Heq)].
    + left. rewrite filter_cons_False; [done|congruence].
    + right. exists (y :: C), p, Y'. split_and!; try done.
      * rewrite filter_cons_False; [done|congruence].
      * rewrite filter_cons_False; [done|congruence].
Qed.

Lemma tall_lower h i j x : (j ≤ i)%nat → tall h i x = true → tall h j x = true.
Proof.
  intros Hj. unfold tall. case_match; [|done]. rewrite !Nat.ltb_lt. lia.
Qed.

(** ** Stores *)

Lemma SetNext_Some h x nd n v :
  h !! x = Some nd → (n < length (next_ nd))%nat →
  Node_SetNext h x n v
  = Some (<[x := {| nkey := nkey nd; next_ := <[n := Some v]> (next_ nd) |}]> h).
Proof.
  intros Hx Hn. unfold Node_SetNext. rewrite Hx. cbn [mbind option_bind].
  by rewrite (proj2 (Nat.ltb_lt _ _)).
Qed.

(** A store changes one slot only: keys, heights and the other slots stay. *)
Record same_shape h h' : Prop := {
  ss_key : ∀ y, Node_key h' y = Node_key h y;
  ss_tall : ∀ i y, tall h' i y = tall h i y;
  ss_dom : dom h' = dom h
}.

Lemma same_shape_refl h : same_shape h h.
Proof. by split. Qed.
Lemma same_shape_trans h1 h2 h3 : same_shape h1 h2 → same_shape h2 h3 → same_shape h1 h3.
Proof. intros [A B C] [D E F]. split; intros; congruence. Qed.

Lemma SetNext_spec h x n v :
  tall h n x = true →
  ∃ h', Node_SetNext h x n v = Some h' ∧ same_shape h h'
    ∧ Node_Next h' x n = Some v
    ∧ ∀ y m, (y, m) ≠ (x, n) → Node_Next h' y m = Node_Next h y m.
Proof.
  unfold tall. destruct (h !! x) as [nd|] eqn:Hx; [|done]. intros Hn%Nat.ltb_lt.
  rewrite (SetNext_Some h x nd) by done. eexists. split; [done|]. split_and!.
  - split.
    + intros y. unfold Node_key. destruct (decide (y = x)) as [->|].
      * by rewrite lookup_insert_eq, Hx.
      * by rewrite lookup_insert_ne.
    + intros i y. unfold tall. destruct (decide (y = x)) as [->|].
      * by rewrite lookup_insert_eq, Hx; cbn; rewrite length_insert.
      * by rewrite lookup_insert_ne.
    + rewrite dom_insert_L. apply elem_of_dom_2 in Hx.
      by apply subseteq_union_1_L, singleton_subseteq_l.
  - unfold Node_Next. rewrite lookup_insert_eq. cbn [mbind option_bind next_].
    by rewrite list_lookup_insert_eq.
  - intros y m Hne. unfold Node_Next. destruct (decide (y = x)) as [->|].
    + rewrite lookup_insert_eq, Hx. cbn [mbind option_bind next_].
      rewrite list_lookup_insert_ne; [done|congruence].
    + by rewrite lookup_insert_ne.
Qed.
End links.

(** ** The invariant *)
Section invariant.
Context {K : Type} (cmp : K → K → option Z) (ok : K → Prop) `{!KeyOrder cmp ok}.
#[local] Abbreviation heap := (gmap Z (Node K)).
Implicit Types (h : heap) (l : SkipList K) (L : list Z) (ks : list K).

(** [L] are the nodes in order and [ks] their keys: sorted, and every level of
    the heap links exactly the nodes tall enough for it, from the head on. *)
Record SL_heap (h : heap) (hd : Z) (mh : nat) L ks : Prop := {
  sl_head : tall h (kMaxHeight - 1) hd = true;
  sl_nodup : NoDup (0 :: hd :: L);
  sl_keys : Forall2 (λ x k, Node_key h x = Some k) L ks;
  sl_ok : Forall ok ks;
  sl_sorted : StronglySorted (klt cmp) ks;
  sl_tall : Forall (λ x, tall h 0 x = true ∧ tall h mh x = false) L;
  sl_mh : (1 ≤ mh ≤ kMaxHeight)%nat;
  sl_size : (length L < base.size h)%nat;
  sl_links : ∀ i, (i < kMaxHeight)%nat → linked h i hd (lvl h i L)
}.

Definition SL l L ks : Prop :=
  SL_heap (nodes l) (head_ l) (max_height_ l) L ks ∧ Random_ok (rnd_ l).

Section descend.
Context (l : SkipList K) (L : list Z) (ks : list K) (Hsl : SL l L ks).
#[local] Abbreviation h := (nodes l).
#[local] Abbreviation hd := (head_ l).

Lemma head_nz : hd ≠ 0 ∧ (hd ∉ L) ∧ (0 ∉ L) ∧ NoDup L.
Proof using Hsl.
  destruct Hsl as [[] _]. apply NoDup_cons in sl_nodup0 as [H0 Hn].
  apply NoDup_cons in Hn as [Hh Hn]. split_and!; try done.
  - intros E. apply H0. rewrite E. by left.
  - intros E. apply H0. by right.
Qed.

Lemma node_key j x : L !! j = Some x → ∃ k, ks !! j = Some k ∧ Node_key h x = Some k ∧ ok k.
Proof using Hsl.
  intros Hx. destruct Hsl as [[] _].
  destruct (Forall2_lookup_l _ _ _ _ _ sl_keys0 Hx) as (k & Hk & Hkey).
  exists k. split_and!; try done. rewrite Forall_lookup in sl_ok0. by eapply sl_ok0.
Qed.

Lemma length_keys : length L = length ks.
Proof using Hsl. destruct Hsl as [[] _]. by eapply Forall2_length. Qed.

Lemma tall_zero x : x ∈ L → tall h 0 x = true.
Proof using Hsl.
  destruct Hsl as [[] _]. rewrite Forall_forall in sl_tall0. intros Hx. by apply sl_tall0.
Qed.

Lemma lvl_zero X : (∀ x, x ∈ X → x ∈ L) → lvl h 0 X = X.
Proof using Hsl.
  intros HX. unfold lvl. induction X as [|x X IH]; [done|].
  rewrite filter_cons_True by (apply tall_zero, HX; by left).
  f_equal. apply IH. intros y Hy. apply HX. by right.
Qed.

(** A position of the search: [x] follows [X], the nodes passed so far. *)
Definition at_pos (rk : nat) (X : list Z) (x : Z) (level : nat) : Prop :=
  (∃ Y, L = X ++ Y) ∧ x = lastof hd X ∧ (X = [] ∨ tall h level x = true)
  ∧ (length X ≤ rk)%nat.

(** Bodies that go right onto the nodes below position [rk], and otherwise
    record the level and go down. *)
Context (rk : nat) (Hrk : (rk ≤ length L)%nat).
Context {P : Type} (body : search * P → option (search * P)).
Context (res : Z → Z → Z) (upd : P → nat → Z → P) (Q : nat → P → Prop).
Context (Hgo : ∀ X x level prev j next, at_pos rk X x level →
  Node_Next h x level = Some next → L !! j = Some next → (j < rk)%nat →
  body (Searching x level, prev) = Some (Searching next level, prev)).
Context (Hstop : ∀ X x level prev next, at_pos rk X x level →
  (level < kMaxHeight)%nat → Q (S level) prev → Node_Next h x level = Some next →
  (next = 0 ∨ ∃ j, L !! j = Some next ∧ (rk ≤ j)%nat) →
  body (Searching x level, prev)
  = Some (match level with O => Found (res x next) | S lv => Searching x lv end,
          upd prev level x)).
Context (HQ : ∀ level prev, (level < kMaxHeight)%nat → Q (S level) prev →
        Q level (upd prev level (lastof hd (lvl h level (take rk L))))).

Lemma next_at X x level :
  at_pos rk X x level → (level < kMaxHeight)%nat →
  ∃ next, Node_Next h x level = Some next
    ∧ ((∃ C, at_pos rk (X ++ C) next level ∧ C ≠ [] ∧ L !! (length X + length C - 1)%nat = Some next
          ∧ (length X + length C - 1 < rk)%nat)
       ∨ ((next = 0 ∨ ∃ j, L !! j = Some next ∧ (rk ≤ j)%nat)
          ∧ x = lastof hd (lvl h level (take rk L))
          ∧ (level = 0%nat → length X = rk ∧ next = first (drop rk L)))).
Proof using Hsl Hrk.
  intros ([Y HL] & Hx & Ht & Hle) Hlv.
  assert (Hlv' : lastof hd (lvl h level X) = x) by (by rewrite lvl_lastof; subst x).
  destruct (Hsl) as [Hh _]. pose proof (sl_links _ _ _ _ _ Hh level Hlv) as Hlink.
  rewrite HL, lvl_app in Hlink. apply linked_next in Hlink. rewrite Hlv' in Hlink.
  eexists. split; [exact Hlink|].
  assert (Htake : ∀ C, lvl h level C = [] → (rk ≤ length X + length C)%nat → (∃ Z', Y = C ++ Z') →
            x = lastof hd (lvl h level (take rk L))).
  { intros C HC Hl [Z' HZ]. rewrite HL, take_app, (firstn_all2 X), lvl_app by lia.
    assert (lvl h level (take (rk - length X) Y) = []) as ->; [|by rewrite app_nil_r].
    rewrite HZ, take_app_le by lia.
    rewrite <- (take_drop (rk - length X) C), lvl_app in HC. by apply app_nil in HC as [? _]. }
  destruct (lvl_first h level Y) as [Hn|(C & p & Y' & HY & HC & Hp & Heq)].
  - rewrite Hn. cbn [first head default]. right. split; [by left|].
    assert (length L = length X + length Y)%nat as Hll by (rewrite HL, length_app; done).
    split; [apply (Htake Y); [done|lia|exists []; by rewrite app_nil_r]|].
    intros ->. rewrite lvl_zero in Hn
      by (intros z Hz; rewrite HL; apply elem_of_app; by right).
    subst Y. rewrite app_nil_r in HL. subst X. split; [cbn in Hll; lia|].
    rewrite drop_ge; [done|]. cbn in Hll. lia.
  - rewrite Heq. cbn [first head default].
    assert (HLp : L !! (length X + length C)%nat = Some p).
    { rewrite HL, HY, lookup_app_r, lookup_app_r by lia.
      replace (length X + length C - length X - length C)%nat with 0%nat by lia. done. }
    destruct (decide (length X + length C < rk)%nat) as [Hlt|Hge].
    + left. exists (C ++ [p]). rewrite length_app. cbn [length].
      replace (length X + (length C + 1) - 1)%nat with (length X + length C)%nat by lia.
      split; [|split; [by destruct C|by split]].
      split_and!.
      * exists Y'. rewrite HL, HY, <- !(assoc_L (++)). done.
      * rewrite (assoc_L (++)). by rewrite lastof_snoc.
      * right. done.
      * rewrite !length_app. cbn. lia.
    + right. split; [right; eexists; split; [exact HLp|lia]|].
      split; [apply (Htake C); [done|lia|by exists (p :: Y')]|].
      intros ->. assert (C = []) as ->.
      { rewrite lvl_zero in HC; [done|]. intros z Hz. rewrite HL, HY.
        apply elem_of_app. right. apply elem_of_app. by left. }
      cbn in *. split; [lia|]. rewrite HL, HY, drop_app_ge by lia.
      replace (rk - length X)%nat with 0%nat by lia. done.
Qed.

Lemma descend fuel level X x prev :
  at_pos rk X x level → (level < kMaxHeight)%nat → Q (S level) prev →
  (level + (rk - length X) + 1 < fuel)%nat →
  ∃ prev', while fuel searching body (Searching x level, prev)
           = Some (Found (res (lastof hd (take rk L)) (first (drop rk L))), prev')
    ∧ Q 0 prev'.
Proof using Hsl Hrk Hgo Hstop HQ.
  revert level X x prev. induction fuel as [|k IH]; intros level X x prev Hat Hlv Hq Hf; [lia|].
  cbn [while searching fst].
  destruct (next_at X x level Hat Hlv)
    as (next & Hn & [(C & Hat' & HC & Hj & Hlt)|(Hst & Hx & Hz)]).
  - rewrite (Hgo X x level prev _ next Hat Hn Hj Hlt). cbn [mbind option_bind].
    apply (IH level (X ++ C)); [done..|]. rewrite length_app. destruct C; [done|].
    cbn [length] in *. lia.
  - rewrite (Hstop X x level prev next Hat Hlv Hq Hn Hst). cbn [mbind option_bind].
    assert (Hq' : Q level (upd prev level x)) by (rewrite Hx; by apply HQ).
    destruct level as [|level].
    + destruct (Hz eq_refl) as [Hlen ->]. destruct k as [|k]; [lia|]. cbn [while searching fst].
      eexists. split; [|done]. do 4 f_equal.
      destruct Hat as ([Y HL] & -> & _). f_equal.
      rewrite HL, take_app_le, firstn_all2 by lia. done.
    + destruct Hat as (HY & Hxl & Ht & Hle).
      apply (IH level X); [|lia|done|lia].
      split_and!; try done. destruct Ht as [?|Ht]; [by left|right].
      eapply tall_lower; [|exact Ht]. lia.
Qed.
End descend.

(** ** The searches *)
Section find.
Context (l : SkipList K) (L : list Z) (ks : list K) (Hsl : SL l L ks).

Definition rk (key : K) : nat := rank cmp ks key.

Lemma rk_le key : (rk key ≤ length L)%nat.
Proof using Hsl. rewrite (length_keys l L ks Hsl). apply rank_le. Qed.

(** Comparing the key of the [j]-th node with [key]. *)
Lemma compare_node key j x :
  ok key → L !! j = Some x →
  ∃ k c, x ≠ 0 ∧ Node_key (nodes l) x = Some k ∧ cmp k key = Some c
    ∧ (c <? 0) = bool_decide (j < rk key)%nat.
Proof using Type*.
  intros Hk Hx. destruct (node_key l L ks Hsl j x Hx) as (k & Hj & Hkey & Hok).
  destruct (ko_total k key Hok Hk) as [c Hc]. exists k, c.
  destruct (head_nz l L ks Hsl) as (_ & _ & Hz0 & _).
  split; [intros ->; by apply Hz0, (list_elem_of_lookup_2 _ _ _ Hx)|].
  split; [done|]. split; [done|].
  destruct Hsl as [[] _]. pose proof (rank_lt cmp ok ks key j k sl_sorted0 sl_ok0 Hk Hj) as Hr.
  case_bool_decide as Hlt.
  - apply Hr in Hlt as (c' & ? & ?). simplify_eq. by apply Z.ltb_lt.
  - apply Z.ltb_ge. destruct (decide (c < 0)); [|lia]. destruct Hlt. apply Hr. by exists c.
Qed.

Lemma KeyIsAfterNode_eq key j x :
  ok key → L !! j = Some x → KeyIsAfterNode cmp l key x = Some (bool_decide (j < rk key)%nat).
Proof using Type*.
  intros Hk Hx. destruct (compare_node key j x Hk Hx) as (k & c & H0 & Hkey & Hc & Hb).
  unfold KeyIsAfterNode. destruct (Z.eqb_spec x 0); [done|].
  rewrite Hkey. cbn [mbind option_bind]. rewrite Hc. cbn [mbind option_bind]. by rewrite Hb.
Qed.

Lemma start_pos rk0 level : at_pos l L rk0 [] (head_ l) level.
Proof. split_and!; [by exists L|done|by left|cbn; lia]. Qed.

(** The predecessor of position [n] on level [j]. *)
Definition pred_at (n j : nat) : Z := lastof (head_ l) (lvl (nodes l) j (take n L)).

(** What the search leaves in [prev] at the levels from [n] on. *)
Definition prev_ok (n : nat) (key : K) (pv : list Z) : Prop :=
  length pv = kMaxHeight
  ∧ ∀ j, (n ≤ j < max_height_ l)%nat → pv !! j = Some (pred_at (rk key) j).

Lemma FindGreaterOrEqual_eq key prev :
  ok key → (∀ a, prev = Some a → length a = kMaxHeight) →
  ∃ prev', FindGreaterOrEqual cmp l key prev = Some (first (drop (rk key) L), prev')
    ∧ (is_Some prev → ∃ a, prev' = Some a ∧ prev_ok 0 key a).
Proof using Type*.
  intros Hk Hprev. pose proof (rk_le key) as Hrk.
  unfold FindGreaterOrEqual, GetMaxHeight. pose proof Hsl as [Hh _].
  pose proof (sl_mh _ _ _ _ _ Hh). pose proof (sl_size _ _ _ _ _ Hh).
  destruct (Nat.eqb_spec (max_height_ l) 0); [lia|]. cbn [mbind option_bind].
  destruct (descend l L ks Hsl (rk key) Hrk (FindGreaterOrEqual_body cmp l key)
    (λ x next, next) (λ prev level x, (λ a, <[level := x]> a) <$> prev)
    (λ n pv, if prev is Some _ then ∃ a, pv = Some a ∧ prev_ok n key a else pv = None))
    with (fuel := search_fuel l) (level := (max_height_ l - 1)%nat) (X := @nil Z)
         (x := head_ l) (prev := prev) as (prev' & -> & Hpv).
  - intros X x level pv j next Hat Hn Hj Hlt. unfold FindGreaterOrEqual_body.
    rewrite Hn. cbn [mbind option_bind]. rewrite (KeyIsAfterNode_eq key j next) by done.
    by rewrite bool_decide_eq_true_2 by done.
  - intros X x level pv next Hat Hlv Hq Hn Hst. unfold FindGreaterOrEqual_body.
    rewrite Hn. cbn [mbind option_bind].
    assert (KeyIsAfterNode cmp l key next = Some false) as ->.
    { destruct Hst as [->|(j & Hj & Hle)]; [done|].
      rewrite (KeyIsAfterNode_eq key j next) by done. by rewrite bool_decide_eq_false_2 by lia. }
    cbn [mbind option_bind].
    assert (record_prev pv level x = Some ((λ a, <[level := x]> a) <$> pv)) as ->.
    { destruct prev; [destruct Hq as (a & -> & Hl & _)|by subst pv].
      unfold record_prev. rewrite Hl, (proj2 (Nat.ltb_lt _ _)) by done. done. }
    cbn [mbind option_bind]. by destruct level.
  - intros level pv Hlv Hq. destruct prev; [|by subst pv].
    destruct Hq as (a & -> & Hl & Ha). eexists. split; [done|].
    split; [by rewrite length_insert|]. intros j Hj. destruct (decide (j = level)) as [->|Hne].
    + rewrite list_lookup_insert_eq by lia. done.
    + rewrite list_lookup_insert_ne by done. apply Ha. lia.
  - apply start_pos.
  - unfold kMaxHeight in *. lia.
  - destruct prev as [a|]; [|done]. exists a. split; [done|]. split; [by apply Hprev|].
    intros j Hj. lia.
  - unfold search_fuel, kMaxHeight in *. cbn [length]. lia.
  - cbn [mbind option_bind]. exists prev'. split; [done|]. intros [a ->]. done.
Qed.

Lemma FindLessThan_eq key :
  ok key → FindLessThan cmp l key = Some (lastof (head_ l) (take (rk key) L)).
Proof using Type*.
  intros Hk. pose proof (rk_le key) as Hrk.
  unfold FindLessThan, GetMaxHeight. pose proof Hsl as [Hh _].
  pose proof (sl_mh _ _ _ _ _ Hh). pose proof (sl_size _ _ _ _ _ Hh).
  destruct (Nat.eqb_spec (max_height_ l) 0); [lia|]. cbn [mbind option_bind].
  assert (Hgood : ∀ X x level, at_pos l L (rk key) X x level →
    (if x =? head_ l then Some true
     else k ← Node_key (nodes l) x; c ← cmp k key; Some (c <? 0)) = Some true).
  { intros X x level ([Y HL] & Hx & _ & Hle). destruct (Z.eqb_spec x (head_ l)); [done|].
    destruct (lastof_in (head_ l) X) as [[E _]|Hin]; [congruence|].
    rewrite <- Hx in Hin. apply list_elem_of_lookup in Hin as [j Hj].
    pose proof (lookup_lt_Some _ _ _ Hj).
    destruct (compare_node key j x) as (k & c & _ & -> & Hc & Hb);
      [done|by rewrite HL, lookup_app_l by lia|].
    cbn [mbind option_bind]. rewrite Hc. cbn [mbind option_bind]. rewrite Hb.
    by rewrite bool_decide_eq_true_2 by lia. }
  assert (Hcmp : ∀ next j, L !! j = Some next →
    (if next =? 0 then Some true
     else k ← Node_key (nodes l) next; c ← cmp k key; Some (0 <=? c))
    = Some (bool_decide (rk key ≤ j)%nat)).
  { intros next j Hj. destruct (compare_node key j next) as (k & c & Hnz & Hkey & Hc & Hb); [done..|].
    destruct (Z.eqb_spec next 0); [done|]. rewrite Hkey. cbn [mbind option_bind]. rewrite Hc.
    cbn [mbind option_bind]. rewrite Z.leb_antisym, Hb. f_equal.
    repeat case_bool_decide; done || lia. }
  destruct (descend l L ks Hsl (rk key) Hrk (FindLessThan_body cmp l key)
    (λ x next, x) (λ _ _ _, tt) (λ _ _, True))
    with (fuel := search_fuel l) (level := (max_height_ l - 1)%nat) (X := @nil Z)
         (x := head_ l) (prev := tt) as (prev' & -> & _).
  - intros X x level [] j next Hat Hn Hj Hlt. unfold FindLessThan_body.
    rewrite (Hgood X x level Hat). cbn [mbind option_bind]. rewrite Hn. cbn [mbind option_bind].
    rewrite (Hcmp next j Hj). cbn [mbind option_bind].
    by rewrite bool_decide_eq_false_2 by lia.
  - intros X x level pv next Hat _ _ Hn Hst. unfold FindLessThan_body.
    rewrite (Hgood X x level Hat). cbn [mbind option_bind]. rewrite Hn. cbn [mbind option_bind].
    assert ((if next =? 0 then Some true
     else k ← Node_key (nodes l) next; c ← cmp k key; Some (0 <=? c)) = Some true) as ->.
    { destruct Hst as [->|(j & Hj & Hle)]; [done|]. rewrite (Hcmp next j Hj).
      by rewrite bool_decide_eq_true_2. }
    cbn [mbind option_bind]. by destruct level.
  - done.
  - apply start_pos.
  - unfold kMaxHeight in *. lia.
  - done.
  - unfold search_fuel, kMaxHeight in *. cbn [length]. lia.
  - done.
Qed.

Lemma FindLast_eq : FindLast l = Some (lastof (head_ l) L).
Proof using Type*.
  unfold FindLast, GetMaxHeight. pose proof Hsl as [Hh _].
  pose proof (sl_mh _ _ _ _ _ Hh). pose proof (sl_size _ _ _ _ _ Hh).
  destruct (Nat.eqb_spec (max_height_ l) 0); [lia|]. cbn [mbind option_bind].
  destruct (head_nz l L ks Hsl) as (_ & _ & Hz0 & _).
  destruct (descend l L ks Hsl (length L) (le_n _) (FindLast_body l)
    (λ x next, x) (λ _ _ _, tt) (λ _ _, True))
    with (fuel := search_fuel l) (level := (max_height_ l - 1)%nat) (X := @nil Z)
         (x := head_ l) (prev := tt) as (prev' & -> & _).
  - intros X x level [] j next Hat Hn Hj Hlt. unfold FindLast_body.
    rewrite Hn. cbn [mbind option_bind]. destruct (Z.eqb_spec next 0); [|done].
    subst. by apply list_elem_of_lookup_2 in Hj.
  - intros X x level pv next Hat _ _ Hn Hst. unfold FindLast_body.
    rewrite Hn. cbn [mbind option_bind].
    destruct Hst as [->|(j & Hj & Hle)]; [by destruct level|].
    apply lookup_lt_Some in Hj. lia.
  - done.
  - apply start_pos.
  - unfold kMaxHeight in *. lia.
  - done.
  - unfold search_fuel, kMaxHeight in *. cbn [length]. lia.
  - cbn [mbind option_bind]. by rewrite firstn_all.
Qed.
End find.

(** ** Construction and insertion *)

Lemma RandomHeight_loop_total k r height :
  Random_ok r → (1 ≤ height ≤ kMaxHeight)%nat → (kMaxHeight < height + k)%nat →
  ∃ r' n, RandomHeight_loop k r height = Some (r', n) ∧ Random_ok r' ∧ (1 ≤ n ≤ kMaxHeight)%nat.
Proof.
  revert r height. induction k as [|k IH]; intros r height Hr Hh Hk; [lia|].
  cbn [RandomHeight_loop]. destruct (Nat.ltb_spec height kMaxHeight); [|eauto].
  destruct (OneIn_total r kBranching) as (r' & b & -> & Hr'); [done|done|].
  cbn [mbind option_bind]. destruct b; [apply IH; [done|lia..]|eauto].
Qed.

Lemma RandomHeight_total r :
  Random_ok r →
  ∃ r' n, RandomHeight r = Some (r', n) ∧ Random_ok r' ∧ (1 ≤ n ≤ kMaxHeight)%nat.
Proof.
  intros Hr. unfold RandomHeight.
  destruct (RandomHeight_loop_total kMaxHeight r 1 Hr) as (r' & n & -> & Hr' & Hn);
    [unfold kMaxHeight; lia..|]. cbn [mbind option_bind].
  rewrite (proj2 (Nat.ltb_lt _ _)), (proj2 (Nat.leb_le _ _)) by lia. eauto.
Qed.

Lemma set_null_spec h x levels :
  Forall (λ i, tall h i x = true) levels →
  ∃ h', set_null h x levels = Some h' ∧ same_shape h h'
    ∧ ∀ i, i ∈ levels → Node_Next h' x i = Some 0.
Proof.
  revert h. induction levels as [|n levels IH]; intros h Hlv; cbn [set_null].
  { exists h. split_and!; [done|apply same_shape_refl|]. intros i []%elem_of_nil. }
  apply Forall_cons in Hlv as [Hn Hlv].
  destruct (SetNext_spec h x n 0 Hn) as (h1 & -> & Hss & Hnx & Hext). cbn [mbind option_bind].
  destruct (IH h1) as (h2 & Hs2 & Hss2 & Hall).
  { eapply Forall_impl; [exact Hlv|]. intros i Hi. by rewrite (ss_tall _ _ Hss). }
  exists h2. split_and!; [done|by eapply same_shape_trans|].
  intros i [->|Hi]%elem_of_cons; [|by apply Hall].
  destruct (decide (n ∈ levels)) as [Hin|Hnin]; [by apply Hall|].
  clear -Hs2 Hnx Hnin Hlv Hss.
  assert (Forall (λ i, tall h1 i x = true) levels) as Hlv1.
  { eapply Forall_impl; [exact Hlv|]. intros i Hi. by rewrite (ss_tall _ _ Hss). }
  revert h1 Hs2 Hnx Hlv1 Hss. clear Hlv. induction levels as [|m levels IH]; intros h1 Hs2 Hnx Hlv Hss;
    cbn [set_null] in Hs2; [by simplify_eq|].
  apply Forall_cons in Hlv as [Hm Hlv].
  destruct (SetNext_spec h1 x m 0 Hm) as (h3 & E & Hss3 & _ & Hext). rewrite E in Hs2.
  cbn [mbind option_bind] in Hs2.
  apply (IH ltac:(intros Hin; apply Hnin; by right) h3 Hs2).
  - rewrite Hext; [done|]. intros [= ->]. apply Hnin. by left.
  - eapply Forall_impl; [exact Hlv|]. intros i Hi. by rewrite (ss_tall _ _ Hss3).
  - by eapply same_shape_trans.
Qed.

Lemma fill_prev_lookup prev lo hi x j :
  (hi ≤ length prev)%nat →
  fill_prev prev lo hi x !! j = if decide (lo ≤ j < hi)%nat then Some x else prev !! j.
Proof.
  unfold fill_prev. intros Hlen.
  assert (∀ n (pv : list Z), (lo + n ≤ length pv)%nat →
    foldl (λ p i, <[i := x]> p) pv (seq lo n) !! j
    = if decide (lo ≤ j < lo + n)%nat then Some x else pv !! j) as H.
  { clear. induction n as [|n IH]; intros pv Hl.
    - cbn. by rewrite decide_False by lia.
    - rewrite seq_S, foldl_app. cbn [foldl].
      destruct (decide (j = lo + n)%nat) as [->|Hne].
      + rewrite list_lookup_insert_eq; [by rewrite decide_True by lia|].
        assert (∀ (q : list Z) ns, length (foldl (λ p i, <[i:=x]> p) q ns) = length q) as ->; [|lia].
        intros q ns. revert q. induction ns as [|m ns IHn]; intros q; cbn; [done|].
        by rewrite IHn, length_insert.
      + rewrite list_lookup_insert_ne by lia. rewrite IH by lia.
        repeat case_decide; done || lia. }
  destruct (decide (lo ≤ hi)%nat).
  - rewrite H by lia. repeat case_decide; done || lia.
  - replace (hi - lo)%nat with 0%nat by lia. cbn. by rewrite decide_False by lia.
Qed.

Section insert.
Context (h0 h1 : heap) (hd x : Z) (P Q : list Z) (height : nat) (prev : list Z).
Context (Hhd : tall h1 (kMaxHeight - 1) hd = true) (Hx : ∀ i, tall h1 i x = (i <? height)%nat)
  (Hnd : NoDup (hd :: P ++ Q)) (Hxn : x ∉ hd :: P ++ Q) (Hhgt : (height ≤ kMaxHeight)%nat)
  (Hprev : ∀ j, (j < height)%nat → prev !! j = Some (lastof hd (lvl h1 j P))).

(** Levels below [i] have the new node, the others not yet. *)
Definition linking (i : nat) (h : heap) : Prop :=
  same_shape h1 h ∧ ∀ j, (j < kMaxHeight)%nat →
    if decide (j < i)%nat then linked h j hd (lvl h1 j P ++ x :: lvl h1 j Q)
    else linked h j hd (lvl h1 j P ++ lvl h1 j Q).

Lemma lvl_sub j y : y ∈ lvl h1 j P ++ lvl h1 j Q → y ∈ P ++ Q.
Proof.
  rewrite <- lvl_app. unfold lvl. intros [_ Hy]%list_elem_of_filter. done.
Qed.

Lemma link_level_spec i h :
  linking i h → (i < height)%nat →
  ∃ h', link_level h x prev i = Some h' ∧ linking (S i) h'.
Proof using Hhd Hx Hnd Hxn Hhgt Hprev.
  intros [Hss Hl] Hi. unfold link_level. rewrite (Hprev i Hi). cbn [mbind option_bind].
  set (pr := lastof hd (lvl h1 i P)) in *.
  pose proof (Hl i ltac:(lia)) as Hli. rewrite decide_False in Hli by lia.
  pose proof (linked_next _ _ _ _ _ Hli) as Hnext. fold pr in Hnext. rewrite Hnext.
  cbn [mbind option_bind].
  destruct (SetNext_spec h x i (first (lvl h1 i Q))) as (h2 & -> & Hss2 & Hn2 & Hext2).
  { rewrite (ss_tall _ _ Hss), Hx. by apply Nat.ltb_lt. }
  cbn [mbind option_bind].
  assert (Hprx : pr ≠ x).
  { intros E. apply Hxn. rewrite <- E. subst pr.
    destruct (lastof_in hd (lvl h1 i P)) as [[-> _]|Hin]; [by left|right].
    apply (lvl_sub i), elem_of_app. by left. }
  destruct (SetNext_spec h2 pr i x) as (h3 & -> & Hss3 & Hn3 & Hext3).
  { rewrite (ss_tall _ _ Hss2), (ss_tall _ _ Hss). subst pr.
    destruct (lastof_in hd (lvl h1 i P)) as [[-> _]|Hin].
    - eapply tall_lower; [|exact Hhd]. unfold kMaxHeight in *. lia.
    - unfold lvl in Hin. by apply list_elem_of_filter in Hin as [? _]. }
  exists h3. split; [done|].
  split; [by eapply same_shape_trans; [|eapply same_shape_trans]|].
  assert (Hother : ∀ y j, (y, j) ≠ (x, i) → (y, j) ≠ (pr, i) → Node_Next h3 y j = Node_Next h y j)
    by (intros y j H1 H2; by rewrite Hext3, Hext2).
  intros j Hj. specialize (Hl j Hj). destruct (decide (j = i)) as [->|Hne].
  - rewrite decide_True by lia. apply (linked_insert h); [done|..].
    + rewrite <- lvl_app. apply NoDup_cons in Hnd as [H1 H2]. apply NoDup_cons. split.
      * intros Hin. apply H1. unfold lvl in Hin. by apply list_elem_of_filter in Hin as [_ ?].
      * by apply NoDup_filter.
    + intros [->|Hin]%elem_of_cons; apply Hxn; [by left|right]. by apply lvl_sub in Hin.
    + rewrite Hext3; [done|]. intros [= E]. by apply Hprx.
    + exact Hn3.
    + intros y H1 H2. apply Hother; intros [= E]; [by apply H1|by apply H2].
  - assert (∀ ys, linked h j hd ys → linked h3 j hd ys) as Hgo.
    { intros ys Hys. apply (linked_ext h); [done|]. intros y _. apply Hother; intros [= _ E]; by apply Hne. }
    destruct (decide (j < i)%nat); [rewrite decide_True by lia|rewrite decide_False by lia]; by apply Hgo.
Qed.

Lemma link_levels_spec i n h :
  linking i h → (i + n = height)%nat →
  ∃ h', link_levels h x prev (seq i n) = Some h' ∧ linking height h'.
Proof using Hhd Hx Hnd Hxn Hhgt Hprev.
  revert i h. induction n as [|n IH]; intros i h Hl Hi; cbn [seq link_levels].
  - exists h. split; [done|]. by replace height with i by lia.
  - destruct (link_level_spec i h Hl) as (h' & -> & Hl'); [lia|]. cbn [mbind option_bind].
    apply IH; [done|lia].
Qed.
End insert.

Context {A : Type} `{NodeAllocator A} (inv : A → gset Z → Prop) `{!NodeAllocatorLaws A inv}.

(** The nodes are among the allocated addresses. *)
Definition owned (ar : A) (l : SkipList K) : Prop := ∃ used, inv ar used ∧ dom (nodes l) ⊆ used.

Lemma NewNode_spec ar h used key height :
  inv ar used → dom h ⊆ used → (1 ≤ height ≤ kMaxHeight)%nat →
  ∃ ar' x, NewNode ar h key height
    = Some (ar', <[x := {| nkey := key; next_ := replicate height None |}]> h, x)
    ∧ h !! x = None ∧ x ≠ 0 ∧ inv ar' ({[x]} ∪ used).
Proof using Type*.
  intros Hinv Hdom Hh. unfold NewNode.
  destruct (alloc_fresh ar used (sizeof_Node + 8 * (Z.of_nat height - 1)) Hinv)
    as (ar' & x & -> & Hx & Hx0 & Hinv'); [unfold sizeof_Node, kMaxHeight in *; lia|].
  exists ar', x. split; [done|]. split; [|done].
  apply not_elem_of_dom. intros Hin. by apply Hx, Hdom.
Qed.

Lemma tall_None h i x : h !! x = None → tall h i x = false.
Proof. unfold tall. by intros ->. Qed.

Lemma size_pos h i x : tall h i x = true → (0 < base.size h)%nat.
Proof.
  unfold tall. destruct (h !! x) eqn:E; [|done]. intros _.
  destruct (decide (base.size h = 0%nat)) as [Hz|]; [|lia].
  apply map_size_empty_inv in Hz. by rewrite Hz, lookup_empty in E.
Qed.

Lemma SkipList_new_eq ar used zero :
  inv ar used →
  ∃ ar' l, SkipList_new ar zero = Some (ar', l) ∧ SL l [] [] ∧ owned ar' l.
Proof using Type*.
  intros Hinv. unfold SkipList_new.
  destruct (NewNode_spec ar ∅ used zero kMaxHeight Hinv) as (ar' & x & -> & Hn & Hx0 & Hinv').
  { by rewrite dom_empty. } { unfold kMaxHeight. lia. }
  cbn [mbind option_bind]. set (h := <[x := _]> ∅).
  assert (Htall : ∀ i, tall h i x = (i <? kMaxHeight)%nat).
  { intros i. unfold tall. subst h. by rewrite lookup_insert_eq; cbn [next_]; rewrite length_replicate. }
  destruct (set_null_spec h x (seq 0 kMaxHeight)) as (h' & -> & Hss & Hnull).
  { apply Forall_seq. intros i Hi. rewrite Htall. apply Nat.ltb_lt. lia. }
  cbn [mbind option_bind]. do 2 eexists. split; [done|].
  assert (tall h' (kMaxHeight - 1) x = true) as Hh by (by rewrite (ss_tall _ _ Hss), Htall).
  split; [split; [split; cbn [nodes head_ max_height_]|]|].
  - exact Hh.
  - apply NoDup_cons. split; [by intros ?%list_elem_of_singleton|apply NoDup_singleton].
  - constructor.
  - constructor.
  - constructor.
  - constructor.
  - unfold kMaxHeight. lia.
  - cbn [length]. by eapply size_pos.
  - intros i Hi. cbn. apply Hnull, elem_of_seq. lia.
  - apply Random_new_ok.
  - exists ({[x]} ∪ used). split; [done|]. cbn [nodes]. rewrite (ss_dom _ _ Hss). subst h.
    rewrite dom_insert_L, dom_empty_L. apply union_mono_l, empty_subseteq.
Qed.

Lemma lvl_ext h h' i L : (∀ y, y ∈ L → tall h' i y = tall h i y) → lvl h' i L = lvl h i L.
Proof.
  intros Hy. unfold lvl. induction L as [|y L IH]; [done|].
  assert (tall h' i y = tall h i y) as Hh by (apply Hy; by left).
  rewrite !filter_cons, Hh, IH by (intros z Hz; apply Hy; by right). done.
Qed.

Lemma lvl_none h i L : (∀ y, y ∈ L → tall h i y = false) → lvl h i L = [].
Proof.
  intros Hy. unfold lvl. induction L as [|y L IH]; [done|].
  rewrite filter_cons_False by (rewrite Hy; [done|by left]). apply IH.
  intros z Hz. apply Hy. by right.
Qed.

(** The heap with a new, unlinked node. *)
Section fresh_node.
Context (h : heap) (x : Z) (key : K) (height : nat) (Hx : h !! x = None).
Let h1 : heap := <[x := {| nkey := key; next_ := replicate height None |}]> h.

Lemma fresh_tall i y : tall h1 i y = if decide (y = x) then (i <? height)%nat else tall h i y.
Proof using Hx.
  unfold tall, h1. case_decide as E; [subst|by rewrite lookup_insert_ne].
  by rewrite lookup_insert_eq; cbn [next_]; rewrite length_replicate.
Qed.
Lemma fresh_key y : Node_key h1 y = if decide (y = x) then Some key else Node_key h y.
Proof using Hx.
  unfold Node_key, h1. case_decide as E; [subst|by rewrite lookup_insert_ne].
  by rewrite lookup_insert_eq.
Qed.
Lemma fresh_next y i : y ≠ x → Node_Next h1 y i = Node_Next h y i.
Proof using Hx. intros Hne. unfold Node_Next, h1. by rewrite lookup_insert_ne. Qed.
Lemma fresh_size : base.size h1 = S (base.size h).
Proof using Hx. by apply map_size_insert_None. Qed.
End fresh_node.

(** It leaves the nodes of the list as they are. *)
Lemma fresh_keeps h hd mh L ks key x height :
  let h1 := <[x := {| nkey := key; next_ := replicate height None |}]> h in
  SL_heap h hd mh L ks → h !! x = None →
  (∀ y, y ∈ hd :: L → y ≠ x)
  ∧ (∀ i y, y ∈ hd :: L → tall h1 i y = tall h i y)
  ∧ (∀ i, tall h1 i x = (i <? height)%nat)
  ∧ (∀ i Y, (∀ y, y ∈ Y → y ∈ L) → lvl h1 i Y = lvl h i Y)
  ∧ Forall2 (λ y k, Node_key h1 y = Some k) L ks ∧ Node_key h1 x = Some key.
Proof using Type*.
  intros h1 Hsl Hx. destruct Hsl.
  assert (Hin : ∀ y, y ∈ hd :: L → y ≠ x).
  { intros y Hy ->. apply elem_of_cons in Hy as [->|Hy].
    - by rewrite tall_None in sl_head0.
    - rewrite Forall_forall in sl_tall0. destruct (sl_tall0 x Hy) as [Ht _].
      by rewrite tall_None in Ht. }
  assert (Htall : ∀ i y, y ∈ hd :: L → tall h1 i y = tall h i y).
  { intros i y Hy. unfold h1. rewrite fresh_tall by done. by rewrite decide_False by (by apply Hin). }
  split_and!; [done..| | | |].
  - intros i. unfold h1. rewrite fresh_tall by done. by rewrite decide_True.
  - intros i Y HY. apply lvl_ext. intros y Hy. apply Htall. right. by apply HY.
  - apply Forall2_same_length_lookup. split; [by eapply Forall2_length|].
    intros i y k Hy Hki. unfold h1. rewrite fresh_key by done.
    rewrite decide_False by (apply Hin; right; by eapply list_elem_of_lookup_2).
    apply Forall2_same_length_lookup in sl_keys0 as [_ HF]. by eapply HF.
  - unfold h1. rewrite fresh_key by done. by rewrite decide_True.
Qed.

(** Linking a node of a new key at its place keeps the invariant. *)
Lemma link_fresh h hd mh L ks key x height prev :
  SL_heap h hd mh L ks → ok key → Forall (λ k, ¬ keqv cmp key k) ks →
  h !! x = None → x ≠ 0 → (1 ≤ height ≤ kMaxHeight)%nat →
  let P := take (rank cmp ks key) L in let Q := drop (rank cmp ks key) L in
  (∀ j, (j < height)%nat → prev !! j = Some (lastof hd (lvl h j P))) →
  ∃ h', link_levels (<[x := {| nkey := key; next_ := replicate height None |}]> h)
          x prev (seq 0 height) = Some h'
    ∧ SL_heap h' hd (Nat.max mh height) (P ++ x :: Q) (insert_at cmp ks key)
    ∧ dom h' = {[x]} ∪ dom h.
Proof using Type*.
  intros Hsl Hk Hne Hx Hx0 Hhgt P Q Hprev.
  destruct (fresh_keeps h hd mh L ks key x height Hsl Hx) as (Hin & Htall1 & Htx & Hlvl1 & Hkeys & Hkx).
  destruct Hsl. set (h1 := <[x := _]> h) in *.
  assert (HPQ : P ++ Q = L) by apply take_drop.
  assert (HP : ∀ y, y ∈ P → y ∈ L) by (intros y Hy; rewrite <- HPQ; apply elem_of_app; by left).
  assert (HQ : ∀ y, y ∈ Q → y ∈ L) by (intros y Hy; rewrite <- HPQ; apply elem_of_app; by right).
  pose proof sl_nodup0 as Hnd. apply NoDup_cons in Hnd as [Hz Hnd].
  destruct (link_levels_spec h1 hd x P Q height prev) with (i := 0%nat) (n := height) (h := h1)
    as (h' & Hlink & Hss & Hl).
  - rewrite Htall1; [done|by left].
  - exact Htx.
  - by rewrite HPQ.
  - rewrite HPQ. intros Hy. by apply (Hin x).
  - lia.
  - intros j Hj. rewrite (Hlvl1 j P HP). by apply Hprev.
  - split; [apply same_shape_refl|]. intros j Hj. rewrite decide_False by lia.
    rewrite <- lvl_app, HPQ, Hlvl1 by done. apply (linked_ext h); [by apply sl_links0|].
    intros y Hy. apply fresh_next; [done|]. apply Hin.
    apply elem_of_cons in Hy as [->|Hy]; [by left|right].
    unfold lvl in Hy. by apply list_elem_of_filter in Hy as [_ ?].
  - lia.
  - exists h'. split; [done|]. split; [|by rewrite (ss_dom _ _ Hss); unfold h1; rewrite dom_insert_L].
    assert (Htall' : ∀ i y, y ∈ hd :: L → tall h' i y = tall h i y)
      by (intros i y Hy; rewrite (ss_tall _ _ Hss); by apply Htall1).
    assert (Htx' : ∀ i, tall h' i x = (i <? height)%nat)
      by (intros i; rewrite (ss_tall _ _ Hss); apply Htx).
    split.
    + rewrite Htall'; [done|by left].
    + assert (0 :: hd :: P ++ x :: Q ≡ₚ x :: 0 :: hd :: L) as ->
        by (rewrite <- HPQ; solve_Permutation).
      apply NoDup_cons. split; [|done]. intros [->|Hy]%elem_of_cons; [done|]. by apply (Hin x).
    + apply (Forall2_impl (λ y k, Node_key h1 y = Some k));
        [|intros y k; by rewrite (ss_key _ _ Hss)].
      unfold insert_at. apply Forall2_app; [by apply Forall2_take|].
      constructor; [done|by apply Forall2_drop].
    + unfold insert_at. apply Forall_app. split; [by apply Forall_take|].
      constructor; [done|by apply Forall_drop].
    + by apply insert_at_sorted with (ok := ok).
    + assert (Ht : Forall (λ y, tall h' 0 y = true ∧ tall h' (mh `max` height) y = false) L).
      { apply Forall_forall. intros y Hy. rewrite Forall_forall in sl_tall0.
        destruct (sl_tall0 y Hy) as [H1 H2]. rewrite !Htall' by (by right). split; [done|].
        apply not_true_is_false. intros Hm. eapply tall_lower in Hm; [|apply Nat.le_max_l].
        congruence. }
      rewrite <- HPQ in Ht. apply Forall_app in Ht as [H1 H2]. apply Forall_app. split; [done|].
      constructor; [|done]. rewrite !Htx'. split; [apply Nat.ltb_lt|apply Nat.ltb_ge]; lia.
    + lia.
    + rewrite <- !size_dom, (ss_dom _ _ Hss), size_dom. unfold h1. rewrite fresh_size by done.
      rewrite length_app. cbn [length]. rewrite <- HPQ, length_app in sl_size0. lia.
    + intros i Hi. specialize (Hl i Hi). rewrite lvl_app.
      assert (Hlv : ∀ Y, lvl h' i Y = lvl h1 i Y)
        by (intros Y; apply lvl_ext; intros; apply (ss_tall _ _ Hss)).
      rewrite !Hlv. unfold lvl at 2. rewrite filter_cons. fold (lvl h1 i Q).
      destruct (decide (i < height)%nat) as [Hlt|Hge].
      * rewrite decide_True; [done|]. rewrite Htx. by apply Nat.ltb_lt.
      * rewrite decide_False; [done|]. rewrite Htx. rewrite Nat.ltb_lt. lia.
Qed.

Lemma Insert_prepare_eq {B} ar l L ks key
    (rest : A → Random → nat → list Z → heap → Z → option B) :
  SL l L ks → owned ar l → ok key → Forall (λ k, ¬ keqv cmp key k) ks →
  ∃ ar' r height prev x,
    Insert_prepare cmp ar l key rest
    = rest ar' r height prev (<[x := {| nkey := key; next_ := replicate height None |}]> (nodes l)) x
    ∧ Random_ok r ∧ (1 ≤ height ≤ kMaxHeight)%nat ∧ nodes l !! x = None ∧ x ≠ 0
    ∧ (∀ j, (j < height)%nat →
         prev !! j = Some (lastof (head_ l) (lvl (nodes l) j (take (rk ks key) L))))
    ∧ ∃ used, inv ar' ({[x]} ∪ used) ∧ dom (nodes l) ⊆ used.
Proof using Type*.
  intros Hsl (used & Hinv & Hdom) Hk Hne. unfold Insert_prepare.
  destruct (FindGreaterOrEqual_eq l L ks Hsl key (Some (replicate kMaxHeight 0)) Hk)
    as (pv & -> & Hpv); [by intros ? [= <-]|].
  destruct (Hpv ltac:(eauto)) as (prev & -> & Hlen & Hprev). cbn [mbind option_bind].
  assert ((if first (drop (rk ks key) L) =? 0 then Some false
           else k ← Node_key (nodes l) (first (drop (rk ks key) L)); Equal cmp key k)
          = Some false) as ->.
  { destruct (drop (rk ks key) L) as [|y Q] eqn:E; [done|]. change (first (y :: Q)) with y.
    assert (L !! rk ks key = Some y) as Hy
      by (rewrite <- (Nat.add_0_r (rk ks key)), <- lookup_drop, E; done).
    destruct (node_key l L ks Hsl _ y Hy) as (k & Hkj & Hkey & Hok).
    destruct (head_nz l L ks Hsl) as (_ & _ & Hz & _).
    destruct (Z.eqb_spec y 0) as [->|_]; [by apply list_elem_of_lookup_2 in Hy|].
    rewrite Hkey. cbn [mbind option_bind]. unfold Equal.
    destruct (ko_total key k Hk Hok) as [c Hc]. rewrite Hc. cbn [mbind option_bind].
    f_equal. apply Z.eqb_neq. intros ->. rewrite Forall_lookup in Hne. by apply (Hne _ k Hkj). }
  cbn [mbind option_bind negb]. destruct (Hsl) as [Hh Hr].
  destruct (RandomHeight_total (rnd_ l) Hr) as (r & height & -> & Hr' & Hhgt).
  cbn [mbind option_bind]. unfold GetMaxHeight.
  destruct (NewNode_spec ar (nodes l) used key height Hinv Hdom Hhgt)
    as (ar' & x & -> & Hx & Hx0 & Hinv'). cbn [mbind option_bind].
  do 5 eexists. split; [reflexivity|]. split_and!; try done; [lia..| |by eauto].
  intros j Hj. unfold pred_at, rk in *.
  assert (Hhigh : (max_height_ l ≤ j)%nat → lvl (nodes l) j (take (rank cmp ks key) L) = []).
  { intros Hle. apply lvl_none. intros y Hy.
    pose proof (sl_tall _ _ _ _ _ Hh) as Ht. rewrite Forall_forall in Ht.
    destruct (Ht y) as [_ Hty]; [by apply elem_of_take in Hy as (? & ?%list_elem_of_lookup_2 & _)|].
    apply not_true_is_false. intros Hm. eapply tall_lower in Hm; [|exact Hle]. congruence. }
  destruct (Nat.ltb_spec (max_height_ l) height); [|apply Hprev; lia].
  rewrite fill_prev_lookup by (rewrite Hlen; lia). case_decide as Hd.
  - by rewrite Hhigh by lia.
  - apply Hprev. lia.
Qed.

Lemma Insert_eq ar l L ks key :
  SL l L ks → owned ar l → ok key → Forall (λ k, ¬ keqv cmp key k) ks →
  ∃ ar' l' x, Insert cmp ar l key = Some (ar', l')
    ∧ SL l' (take (rk ks key) L ++ x :: drop (rk ks key) L) (insert_at cmp ks key)
    ∧ owned ar' l'.
Proof using Type*.
  intros Hsl How Hk Hne.
  pose (rest := λ ar r height prev h x,
    h ← link_levels h x prev (seq 0 height);
    Some (ar : A, {| nodes := h; head_ := head_ l;
                     max_height_ := if (GetMaxHeight l <? height)%nat then height else max_height_ l;
                     rnd_ := r |})).
  change (Insert cmp ar l key) with (Insert_prepare cmp ar l key rest).
  destruct (Insert_prepare_eq ar l L ks key rest Hsl How Hk Hne)
    as (ar' & r & height & prev & x & -> & Hr & Hhgt & Hx & Hx0 & Hprev & used & Hinv & Hdom).
  unfold rest.
  destruct (Hsl) as [Hh _].
  destruct (link_fresh (nodes l) (head_ l) (max_height_ l) L ks key x height prev)
    as (h' & -> & Hsl' & Hdom'); try done.
  assert ((if (GetMaxHeight l <? height)%nat then height else max_height_ l)
          = Nat.max (max_height_ l) height) as ->.
  { unfold GetMaxHeight. destruct (Nat.ltb_spec (max_height_ l) height); lia. }
  cbn [mbind option_bind]. exists ar'. eexists. exists x. split; [done|]. split; [done|].
  exists ({[x]} ∪ used). split; [done|]. cbn [nodes]. rewrite Hdom'. by apply union_mono_l.
Qed.

(** Where an equal key would be. *)
Lemma rank_eqv ks key :
  StronglySorted (klt cmp) ks → Forall ok ks → ok key →
  (∃ k, k ∈ ks ∧ keqv cmp key k) ↔ ∃ k, ks !! rank cmp ks key = Some k ∧ keqv cmp key k.
Proof using Type*.
  intros Hs Hok Hk. pose proof Hok as Hok'. rewrite Forall_lookup in Hok'. split.
  - intros (k & [j Hj]%list_elem_of_lookup & He).
    assert (¬ (j < rank cmp ks key)%nat) as Hge.
    { intros Hlt. apply (rank_lt cmp ok ks key j k Hs Hok Hk Hj) in Hlt as (r & Hr & ?).
      pose proof (ko_swap key k _ _ Hk (Hok' j k Hj) He Hr). lia. }
    destruct (decide (j = rank cmp ks key)) as [<-|Hne]; [eauto|exfalso].
    pose proof (lookup_lt_Some _ _ _ Hj).
    destruct (lookup_lt_is_Some_2 ks (rank cmp ks key)) as [k0 Hk0]; [lia|].
    assert (klt cmp k0 k) as Hlt
      by (apply (klt_lookup cmp ks (rank cmp ks key) j); [done..|lia]).
    assert (¬ klt cmp k0 key) as Hn.
    { rewrite (rank_lt cmp ok ks key _ k0 Hs Hok Hk Hk0). lia. }
    apply Hn. destruct (ko_total k0 key (Hok' _ _ Hk0) Hk) as [t Ht]. exists t. split; [done|].
    destruct Hlt as (r & Hr & Hr0).
    destruct (ko_total k key (Hok' _ _ Hj) Hk) as [s0 Hs0].
    pose proof (ko_swap key k _ _ Hk (Hok' _ _ Hj) He Hs0) as E0.
    assert (s0 = 0) as -> by lia.
    pose proof (ko_trans k0 k key r 0 t (Hok' _ _ Hk0) (Hok' _ _ Hj) Hk Hr Hs0 Ht
                  ltac:(lia) ltac:(lia)).
    destruct (decide (t = 0)) as [->|]; [|lia]. exfalso.
    destruct (ko_total key k0 Hk (Hok' _ _ Hk0)) as [t' Ht'].
    pose proof (ko_swap k0 key _ _ (Hok' _ _ Hk0) Hk Ht Ht') as E1.
    destruct (ko_total k k0 (Hok' _ _ Hj) (Hok' _ _ Hk0)) as [u Hu].
    pose proof (ko_swap k0 k _ _ (Hok' _ _ Hk0) (Hok' _ _ Hj) Hr Hu) as E2.
    pose proof (ko_trans k key k0 0 t' u (Hok' _ _ Hj) Hk (Hok' _ _ Hk0) Hs0 Ht' Hu
                  ltac:(lia) ltac:(lia)). lia.
  - intros (k & Hj & He). exists k. split; [by eapply list_elem_of_lookup_2|done].
Qed.

Lemma first_drop j L : first (drop j L) = default 0 (L !! j).
Proof. unfold first. by rewrite head_lookup, lookup_drop, Nat.add_0_r. Qed.

#[export] Instance keqv_dec a b : Decision (keqv cmp a b).
Proof. unfold keqv. apply _. Defined.

(** The test made at the node found: whether an equal key is in the list. *)
Lemma Equal_at_rank h L ks key :
  0 ∉ L → Forall2 (λ x k, Node_key h x = Some k) L ks → Forall ok ks →
  StronglySorted (klt cmp) ks → ok key →
  (if first (drop (rk ks key) L) =? 0 then Some false
   else k ← Node_key h (first (drop (rk ks key) L)); Equal cmp key k)
  = Some (bool_decide (Exists (keqv cmp key) ks)).
Proof using Type*.
  intros Hz Hkeys Hok Hs Hk. pose proof (rank_eqv ks key Hs Hok Hk) as Hre. rewrite first_drop.
  pose proof (Forall2_length _ _ _ Hkeys) as Hlen.
  destruct (L !! rk ks key) as [y|] eqn:Hy; cbn [default].
  - destruct (Forall2_lookup_l _ _ _ _ _ Hkeys Hy) as (k & Hkj & Hkey).
    change (id y) with y.
    destruct (Z.eqb_spec y 0) as [->|_]; [by apply list_elem_of_lookup_2 in Hy|].
    rewrite Hkey. cbn [mbind option_bind]. unfold Equal.
    rewrite Forall_lookup in Hok. destruct (ko_total key k Hk (Hok _ _ Hkj)) as [c Hc].
    rewrite Hc. cbn [mbind option_bind]. f_equal. case_bool_decide as He.
    + apply Z.eqb_eq. apply Exists_exists, Hre in He as (k' & Hk' & He).
      unfold rk in *. unfold keqv in He. simplify_eq. done.
    + apply Z.eqb_neq. intros ->. apply He, Exists_exists. apply Hre. eauto.
  - change (0 =? 0) with true. cbn iota. f_equal. symmetry. apply bool_decide_eq_false.
    intros He. apply Exists_exists, Hre in He as (k' & Hk' & He).
    apply lookup_ge_None in Hy. apply lookup_lt_Some in Hk'. unfold rk in *. lia.
Qed.

Lemma Equal_found l L ks key :
  SL l L ks → ok key →
  (if first (drop (rk ks key) L) =? 0 then Some false
   else k ← Node_key (nodes l) (first (drop (rk ks key) L)); Equal cmp key k)
  = Some (bool_decide (Exists (keqv cmp key) ks)).
Proof using Type*.
  intros Hsl Hk. destruct (head_nz l L ks Hsl) as (_ & _ & Hz & _). destruct (Hsl) as [[] _].
  by apply Equal_at_rank.
Qed.

Lemma Contains_eq l L ks key :
  SL l L ks → ok key → Contains cmp l key = Some (bool_decide (Exists (keqv cmp key) ks)).
Proof using Type*.
  intros Hsl Hk. unfold Contains.
  destruct (FindGreaterOrEqual_eq l L ks Hsl key None Hk) as (prev & -> & _); [done|].
  cbn [mbind option_bind]. by apply Equal_found with (L := L).
Qed.

(** ** Iterators *)

(** The iterator at the [j]-th entry; past the end it is not valid. *)
Definition cursor (L : list Z) (j : nat) : Iterator := default 0 (L !! j).

Lemma rank_self ks j k :
  StronglySorted (klt cmp) ks → Forall ok ks → ks !! j = Some k → rank cmp ks k = j.
Proof using Type*.
  intros Hs Hok Hj. pose proof Hok as Hok'. rewrite Forall_lookup in Hok'.
  pose proof (Hok' j k Hj) as Hk.
  assert (¬ (j < rank cmp ks k)%nat) as H1.
  { rewrite <- (rank_lt cmp ok ks k j k Hs Hok Hk Hj). by apply klt_irrefl with (ok := ok). }
  destruct (decide (rank cmp ks k = j)) as [|Hne]; [done|]. exfalso.
  pose proof (lookup_lt_Some _ _ _ Hj).
  destruct (lookup_lt_is_Some_2 ks (rank cmp ks k)) as [k0 Hk0]; [lia|].
  assert (klt cmp k0 k) as Hlt
      by (apply (klt_lookup cmp ks (rank cmp ks k) j); [done..|lia]).
  apply (rank_lt cmp ok ks k _ k0 Hs Hok Hk Hk0) in Hlt. lia.
Qed.

Lemma lastof_take_cursor hd L j :
  hd ∉ L → (j ≤ length L)%nat →
  (if lastof hd (take j L) =? hd then 0 else lastof hd (take j L))
  = match j with O => 0 | S i => cursor L i end.
Proof using Type.
  intros Hh Hj. destruct j as [|i]; [cbn; by rewrite Z.eqb_refl|].
  destruct (lookup_lt_is_Some_2 L i) as [y Hy]; [lia|].
  rewrite (take_S_r _ _ _ Hy), lastof_snoc. unfold cursor. rewrite Hy. cbn.
  destruct (Z.eqb_spec y hd) as [->|]; [|done].
  by apply list_elem_of_lookup_2 in Hy.
Qed.

Lemma SeekToFirst_eq l L ks : SL l L ks → Iter_SeekToFirst l = Some (cursor L 0).
Proof using Type*.
  intros Hsl. unfold Iter_SeekToFirst. destruct (Hsl) as [Hh _].
  pose proof (sl_links _ _ _ _ _ Hh 0%nat ltac:(unfold kMaxHeight; lia)) as Hl.
  rewrite (lvl_zero l L ks Hsl) in Hl by done.
  apply (linked_next _ _ _ []) in Hl. cbn in Hl. rewrite Hl. unfold first, cursor.
  by rewrite head_lookup.
Qed.

Lemma Iter_Next_eq l L ks j (y : Z) :
  SL l L ks → L !! j = Some y → Iter_Next l y = Some (cursor L (S j)).
Proof using Type*.
  intros Hsl Hy. unfold Iter_Next, Iter_Valid.
  destruct (head_nz l L ks Hsl) as (_ & _ & Hz & _).
  destruct (Z.eqb_spec y 0) as [->|_]; [by apply list_elem_of_lookup_2 in Hy|]. cbn [negb].
  destruct (Hsl) as [Hh _].
  pose proof (sl_links _ _ _ _ _ Hh 0%nat ltac:(unfold kMaxHeight; lia)) as Hl.
  rewrite (lvl_zero l L ks Hsl) in Hl by done.
  assert (linked (nodes l) 0 (head_ l) (take (S j) L ++ drop (S j) L)) as Hl2
    by (by rewrite take_drop).
  rewrite (take_S_r _ _ _ Hy) in Hl2.
  apply (linked_next _ _ _ (take j L ++ [y])) in Hl2. rewrite lastof_snoc in Hl2. rewrite Hl2.
  unfold cursor. by rewrite first_drop.
Qed.

Lemma SeekToLast_eq l L ks :
  SL l L ks →
  Iter_SeekToLast l = Some (match length L with O => 0 | S i => cursor L i end).
Proof using Type*.
  intros Hsl. unfold Iter_SeekToLast. rewrite (FindLast_eq l L ks Hsl).
  cbn [mbind option_bind]. f_equal.
  destruct (head_nz l L ks Hsl) as (_ & Hh & _).
  rewrite <- (lastof_take_cursor (head_ l) L (length L) Hh) by done. by rewrite firstn_all.
Qed.

Lemma Seek_eq l L ks target :
  SL l L ks → ok target → Iter_Seek cmp l target = Some (cursor L (rank cmp ks target)).
Proof using Type*.
  intros Hsl Ht. unfold Iter_Seek.
  destruct (FindGreaterOrEqual_eq l L ks Hsl target None Ht) as (p & -> & _); [done|].
  cbn [mbind option_bind]. by rewrite first_drop.
Qed.

Lemma Valid_cursor l L ks j :
  SL l L ks → Iter_Valid (cursor L j) = bool_decide (j < length ks)%nat.
Proof using Type*.
  intros Hsl. pose proof (length_keys l L ks Hsl) as Hlen.
  destruct (head_nz l L ks Hsl) as (_ & _ & Hz & _).
  unfold Iter_Valid, cursor. destruct (L !! j) as [y|] eqn:Hy; cbn [default].
  - rewrite bool_decide_eq_true_2 by (rewrite <- Hlen; by eapply lookup_lt_Some).
    apply negb_true_iff, Z.eqb_neq. intros E. change (id y) with y in E. subst.
    by apply list_elem_of_lookup_2 in Hy.
  - rewrite bool_decide_eq_false_2; [done|]. apply lookup_ge_None in Hy. lia.
Qed.

(** At the [j]-th entry. *)
Lemma Iter_at l L ks j k :
  SL l L ks → ks !! j = Some k →
  Iter_key l (cursor L j) = Some k
  ∧ Iter_Next l (cursor L j) = Some (cursor L (S j))
  ∧ Iter_Prev cmp l (cursor L j) = Some (match j with O => 0 | S i => cursor L i end).
Proof using Type*.
  intros Hsl Hk. pose proof (Valid_cursor l L ks j Hsl) as Hv.
  pose proof (length_keys l L ks Hsl) as Hlen. pose proof (lookup_lt_Some _ _ _ Hk) as Hlt.
  rewrite bool_decide_eq_true_2 in Hv by done.
  destruct (lookup_lt_is_Some_2 L j) as [y Hy]; [lia|].
  destruct (node_key l L ks Hsl j y Hy) as (k' & Hk' & Hkey & Hok). simplify_eq.
  assert (cursor L j = y) as E by (unfold cursor; by rewrite Hy). rewrite E in *.
  split_and!.
  - unfold Iter_key. by rewrite Hv.
  - by apply Iter_Next_eq with (ks := ks).
  - unfold Iter_Prev. rewrite Hv, Hkey. cbn [mbind option_bind].
    rewrite (FindLessThan_eq l L ks Hsl k Hok). cbn [mbind option_bind]. f_equal.
    destruct (Hsl) as [Hh _]. unfold rk.
    rewrite (rank_self ks j k (sl_sorted _ _ _ _ _ Hh) (sl_ok _ _ _ _ _ Hh) Hk).
    destruct (head_nz l L ks Hsl) as (_ & Hhd & _). apply (lastof_take_cursor _ _ _ Hhd). lia.
Qed.

(** C33: iterators walk the sorted keys.  [SeekToFirst], [SeekToLast] and [Seek]
    stand at the first entry, the last one, and the first one not before the
    target; an iterator is valid exactly at an entry; there [key] is the entry's
    key, [Next] goes one forward (past the last entry it is no longer valid) and
    [Prev] one back (before the first entry it is no longer valid).  No step
    faults or trips an assertion. *)
Theorem Iterator_correct l L ks target :
  SL l L ks → ok target →
  Iter_SeekToFirst l = Some (cursor L 0)
  ∧ Iter_SeekToLast l = Some (match length L with O => 0 | S i => cursor L i end)
  ∧ Iter_Seek cmp l target = Some (cursor L (rank cmp ks target))
  ∧ ∀ j, Iter_Valid (cursor L j) = bool_decide (j < length ks)%nat
     ∧ ∀ k, ks !! j = Some k →
         Iter_key l (cursor L j) = Some k
         ∧ Iter_Next l (cursor L j) = Some (cursor L (S j))
         ∧ Iter_Prev cmp l (cursor L j) = Some (match j with O => 0 | S i => cursor L i end).
Proof using Type*.
  intros Hsl Ht. split_and!.
  - by apply SeekToFirst_eq with (ks := ks).
  - by apply SeekToLast_eq with (ks := ks).
  - by apply Seek_eq.
  - intros j. split; [by apply Valid_cursor with (l := l)|]. intros k Hk. by apply Iter_at with (ks := ks).
Qed.

(** C7: the invariant, step by step: the constructor establishes it for the
    empty list; inserting a key equal to none of the list's keeps it, the keys
    becoming the sorted list with the new key at its place, whatever height is
    drawn; inserting an equal key trips the assertion; and [Contains] answers
    whether an equal key is in the list. *)
Theorem Insert_correct ar l L ks key :
  SL l L ks → owned ar l → ok key →
  (Forall (λ k, ¬ keqv cmp key k) ks →
     ∃ ar' l' L', Insert cmp ar l key = Some (ar', l')
       ∧ SL l' L' (insert_at cmp ks key) ∧ owned ar' l')
  ∧ (Exists (keqv cmp key) ks → Insert cmp ar l key = None)
  ∧ Contains cmp l key = Some (bool_decide (Exists (keqv cmp key) ks))
  ∧ ∀ ar0 used zero, inv ar0 used →
      ∃ ar1 l1, SkipList_new ar0 zero = Some (ar1, l1) ∧ SL l1 [] [] ∧ owned ar1 l1.
Proof using Type*.
  intros Hsl How Hk. split_and!.
  - intros Hne. destruct (Insert_eq ar l L ks key Hsl How Hk Hne) as (ar' & l' & x & HI & HS & HO).
    eexists ar', l', _. split; [exact HI|]. split; [exact HS|exact HO].
  - intros He. unfold Insert.
    destruct (FindGreaterOrEqual_eq l L ks Hsl key (Some (replicate kMaxHeight 0)) Hk)
      as (pv & -> & Hpv); [by intros ? [= <-]|].
    destruct (Hpv ltac:(eauto)) as (prev & -> & _). cbn [mbind option_bind]. rewrite (Equal_found l L ks key Hsl Hk).
    by rewrite bool_decide_eq_true_2.
  - by apply Contains_eq with (L := L).
  - intros ar0 used zero Hinv. by apply SkipList_new_eq with (used := used).
Qed.

(** ** A list from the outside *)

Fixpoint insert_all (ar : A) (l : SkipList K) (keys : list K) : option (A * SkipList K) :=
  match keys with
  | [] => Some (ar, l)
  | k :: keys => '(ar, l) ← Insert cmp ar l k; insert_all ar l keys
  end.

(** The keys an iterator delivers until it is no longer valid. *)
Fixpoint scan (fuel : nat) (l : SkipList K) (it : Iterator) : option (list K) :=
  match fuel with
  | O => None
  | S n =>
    if Iter_Valid it then
      k ← Iter_key l it; it ← Iter_Next l it; ks ← scan n l it; Some (k :: ks)
    else Some []
  end.

Lemma insert_at_perm ks key : insert_at cmp ks key ≡ₚ key :: ks.
Proof. unfold insert_at. rewrite <- Permutation_middle. by rewrite take_drop. Qed.

Lemma insert_all_eq keys ar l L ks :
  SL l L ks → owned ar l → Forall ok keys → ForallOrdPairs (λ a b, ¬ keqv cmp b a) keys →
  Forall (λ key, Forall (λ k, ¬ keqv cmp key k) ks) keys →
  ∃ ar' l' L' ks', insert_all ar l keys = Some (ar', l') ∧ SL l' L' ks' ∧ owned ar' l'
    ∧ ks' ≡ₚ keys ++ ks.
Proof using Type*.
  revert ar l L ks. induction keys as [|k keys IH]; intros ar l L ks Hsl How Hok Hp Hne.
  { by exists ar, l, L, ks. }
  apply Forall_cons in Hok as [Hk Hok]. apply Forall_cons in Hne as [Hkn Hne].
  inversion Hp as [|? ? Hk2 Hp2]; subst. cbn [insert_all].
  destruct (Insert_eq ar l L ks k Hsl How Hk Hkn) as (ar1 & l1 & x & -> & Hsl1 & How1).
  cbn [mbind option_bind].
  destruct (IH ar1 l1 _ _ Hsl1 How1 Hok Hp2) as (ar2 & l2 & L2 & ks2 & -> & ? & ? & Hperm).
  - apply Forall_forall. intros key Hin. rewrite Forall_forall in Hne. rewrite Forall_forall in Hk2.
    rewrite insert_at_perm. constructor; [by apply Hk2|by apply Hne].
  - exists ar2, l2, L2, ks2. split_and!; try done.
    rewrite Hperm, insert_at_perm. cbn. by rewrite Permutation_middle.
Qed.

Lemma scan_S n l it :
  scan (S n) l it
  = (if Iter_Valid it then
       k ← Iter_key l it; it ← Iter_Next l it; ks ← scan n l it; Some (k :: ks)
     else Some []).
Proof. reflexivity. Qed.

Lemma scan_eq l L ks : SL l L ks →
  ∀ n j, (length L ≤ j + n)%nat → scan (S n) l (cursor L j) = Some (drop j ks).
Proof using Type*.
  intros Hsl. pose proof (length_keys l L ks Hsl) as Hlen.
  destruct (head_nz l L ks Hsl) as (_ & _ & Hz & _).
  induction n as [|n IH]; intros j Hj; rewrite scan_S.
  - unfold cursor. rewrite lookup_ge_None_2 by lia. cbn. rewrite drop_ge by lia. done.
  - destruct (L !! j) as [y|] eqn:Hy.
    + assert (cursor L j = y) as -> by (unfold cursor; by rewrite Hy).
      destruct (node_key l L ks Hsl j y Hy) as (k & Hk & Hkey & _).
      assert (Iter_Valid y = true) as Hv.
      { unfold Iter_Valid. apply negb_true_iff, Z.eqb_neq. intros ->.
        by apply list_elem_of_lookup_2 in Hy. }
      unfold Iter_key. rewrite Hv, Hkey. cbn [mbind option_bind].
      rewrite (Iter_Next_eq l L ks j y Hsl Hy). cbn [mbind option_bind].
      rewrite (IH (S j)) by lia. cbn [mbind option_bind]. f_equal.
      by rewrite (drop_S _ _ _ Hk).
    + unfold cursor. rewrite Hy. cbn. apply lookup_ge_None in Hy. rewrite drop_ge by lia. done.
Qed.

(** C2: seen from outside, a skip list is the sorted list of what was inserted:
    after any sequence of insertions of pairwise different keys into a new list
    — every one of which succeeds — a forward scan delivers exactly the inserted
    keys in increasing order, and [Contains] tells for every key whether an
    equal one was inserted. *)
Theorem SkipList_refines_sorted_list ar used zero keys :
  inv ar used → Forall ok keys → ForallOrdPairs (λ a b, ¬ keqv cmp b a) keys →
  ∃ ar0 l0 ar' l' ks it,
    SkipList_new ar zero = Some (ar0, l0) ∧ insert_all ar0 l0 keys = Some (ar', l')
    ∧ ks ≡ₚ keys ∧ StronglySorted (klt cmp) ks
    ∧ Iter_SeekToFirst l' = Some it ∧ scan (S (length keys)) l' it = Some ks
    ∧ ∀ k, ok k → Contains cmp l' k = Some (bool_decide (Exists (keqv cmp k) keys)).
Proof using Type*.
  intros Hinv Hok Hp.
  destruct (SkipList_new_eq ar used zero Hinv) as (ar0 & l0 & Hnew & Hsl0 & How0).
  destruct (insert_all_eq keys ar0 l0 [] [] Hsl0 How0 Hok Hp)
    as (ar' & l' & L' & ks & Hall & Hsl & How & Hperm).
  { apply Forall_forall. intros. constructor. }
  rewrite app_nil_r in Hperm.
  exists ar0, l0, ar', l', ks, (cursor L' 0). split_and!; try done.
  - by destruct Hsl as [[] _].
  - by apply SeekToFirst_eq with (ks := ks).
  - rewrite (scan_eq l' L' ks Hsl); [done|]. rewrite (length_keys l' L' ks Hsl), Hperm. lia.
  - intros k Hk. rewrite (Contains_eq l' L' ks k Hsl Hk). f_equal.
    apply bool_decide_ext. rewrite !Exists_exists. by setoid_rewrite Hperm.
Qed.
End invariant.

(** The invariant depends on the comparator only through its answers on the keys
    of the list. *)
Lemma SL_mono {K} (cmp cmp' : K → K → option Z) (ok ok' : K → Prop) l L ks :
  (∀ a b, a ∈ ks → b ∈ ks → cmp' a b = cmp a b) → (∀ a, a ∈ ks → ok a → ok' a) →
  SL cmp ok l L ks → SL cmp' ok' l L ks.
Proof.
  intros Hc Hok [[] Hr]. split; [|done]. split; try done.
  - rewrite Forall_forall in *. auto.
  - clear -sl_sorted0 Hc. induction sl_sorted0 as [|k ks Hs IH Hk]; constructor.
    + apply IH. intros a b Ha Hb. apply Hc; by right.
    + rewrite Forall_forall in *. intros b Hb. destruct (Hk b Hb) as (r & ? & ?).
      exists r. split; [|done]. rewrite Hc; [done|by left|by right].
Qed.

(** The operations depend on the comparator only through the tests they make with
    the key they are given: [before] it, for the nodes, and equal to it. *)
Section alike.
Context {K : Type} (cmp cmp' : K → K → option Z) (ok : K → Prop) `{!KeyOrder cmp' ok}
  {A : Type} `{NodeAllocator A}.

Definition alike_before (key : K) : Prop :=
  ∀ k, (c ← cmp k key; Some (c <? 0)) = (c ← cmp' k key; Some (c <? 0)).

Lemma FindGreaterOrEqual_alike l key prev :
  alike_before key → FindGreaterOrEqual cmp l key prev = FindGreaterOrEqual cmp' l key prev.
Proof using Type.
  intros Hk. unfold FindGreaterOrEqual. destruct (_ =? 0)%nat; [done|]. cbn [mbind option_bind].
  rewrite (while_ext _ _ (FindGreaterOrEqual_body cmp l key) (FindGreaterOrEqual_body cmp' l key)); [done|].
  intros [[x level|n] pv]; [|done]. cbn. destruct (Node_Next (nodes l) x level) as [next|]; [|done].
  cbn. unfold KeyIsAfterNode. destruct (next =? 0); [done|].
  destruct (Node_key (nodes l) next) as [k|]; [|done]. cbn. specialize (Hk k). cbn in Hk. by rewrite Hk.
Qed.

Lemma Insert_alike ar l L ks key :
  SL cmp' ok l L ks → ok key → alike_before key →
  (∀ k, k ∈ ks → Equal cmp key k = Equal cmp' key k) →
  Insert cmp ar l key = Insert cmp' ar l key.
Proof using Type*.
  intros Hsl Hk Hb He. unfold Insert. rewrite FindGreaterOrEqual_alike by done.
  destruct (FindGreaterOrEqual_eq cmp' ok l L ks Hsl key (Some (replicate kMaxHeight 0)) Hk)
    as (pv & -> & _); [by intros ? [= <-]|]. cbn [mbind option_bind]. destruct pv as [prev|]; [|done].
  cbn [mbind option_bind]. rewrite first_drop.
  destruct (L !! rk cmp' ks key) as [x|] eqn:Hx; [|done]. cbn [default].
  destruct (node_key cmp' ok l L ks Hsl _ x Hx) as (k & Hj & Hkey & _). cbn [from_option id].
  rewrite Hkey. cbn [mbind option_bind]. by rewrite He by (by eapply list_elem_of_lookup_2).
Qed.

Lemma Iter_Seek_alike l key : alike_before key → Iter_Seek cmp l key = Iter_Seek cmp' l key.
Proof using Type. intros Hk. unfold Iter_Seek. by rewrite FindGreaterOrEqual_alike. Qed.
End alike.

(** ** A concrete list: integers, and addresses counted up *)

#[export] Instance counter_allocator : NodeAllocator Z := { alloc_node a n := Some (a + 1, a + 1) }.

Definition counter_inv (a : Z) (used : gset Z) : Prop := 0 <= a ∧ ∀ p, p ∈ used → p <= a.

#[export] Instance counter_laws : NodeAllocatorLaws Z counter_inv.
Proof.
  split. intros a used n [Ha Hu] Hn. exists (a + 1), (a + 1). split_and!; try done; try lia.
  - intros Hin%Hu. lia.
  - split; [lia|]. intros p [->%elem_of_singleton|Hp%Hu]%elem_of_union; lia.
Qed.

Definition cmp_Z (a b : Z) : option Z := Some (a - b).
Definition any_Z (_ : Z) : Prop := True.
#[export] Instance cmp_Z_order : KeyOrder cmp_Z any_Z.
Proof. unfold cmp_Z. split; intros; simplify_eq; eauto; lia. Qed.

Example skiplist_run :
  ('(ar, l) ← SkipList_new 0 0;
   '(ar, l) ← insert_all cmp_Z ar l [5; 1; 9; 7; 3];
   it ← Iter_SeekToFirst l;
   ks ← scan 6 l it; c ← Contains cmp_Z l 7; d ← Contains cmp_Z l 8;
   Some (ks, c, d)) = Some ([1; 3; 5; 7; 9], true, false).
Proof. vm_compute. reflexivity. Qed.


(** A list holding 5 and then also 1, for the witnesses. *)
Lemma two_keys_SL :
  ∃ ar l L, SL cmp_Z any_Z l L [1; 5] ∧ owned counter_inv ar l.
Proof.
  destruct (SkipList_new_eq cmp_Z any_Z counter_inv 0 ∅ 0) as (ar0 & l0 & _ & Hsl0 & How0).
  { split; [done|]. intros p Hp. by apply not_elem_of_empty in Hp. }
  destruct (Insert_eq cmp_Z any_Z counter_inv ar0 l0 [] [] 5 Hsl0 How0 I)
    as (ar1 & l1 & x1 & _ & Hsl1 & How1); [constructor|].
  destruct (Insert_eq cmp_Z any_Z counter_inv ar1 l1 _ _ 1 Hsl1 How1 I)
    as (ar2 & l2 & x2 & _ & Hsl2 & How2).
  { cbn. constructor; [done|constructor]. }
  cbn in Hsl2. eauto.
Qed.

Lemma Iterator_correct_witness :
  ∃ l L, SL cmp_Z any_Z l L [1; 5] ∧ any_Z 3
    ∧ Iter_Seek cmp_Z l 3 = Some (cursor L 1) ∧ Iter_key l (cursor L 1) = Some 5
    ∧ Iter_Prev cmp_Z l (cursor L 1) = Some (cursor L 0).
Proof.
  destruct two_keys_SL as (ar & l & L & Hsl & _). exists l, L.
  destruct (Iterator_correct cmp_Z any_Z l L [1; 5] 3 Hsl I) as (_ & _ & Hs & Hj).
  destruct (Hj 1%nat) as [_ Hk]. destruct (Hk 5 eq_refl) as (? & ? & ?). done.
Defined.

Lemma Insert_correct_witness :
  ∃ ar l L, SL cmp_Z any_Z l L [1; 5] ∧ owned counter_inv ar l ∧ any_Z 3
    ∧ (∃ ar' l' L', Insert cmp_Z ar l 3 = Some (ar', l') ∧ SL cmp_Z any_Z l' L' [1; 3; 5])
    ∧ Insert cmp_Z ar l 5 = None.
Proof.
  destruct two_keys_SL as (ar & l & L & Hsl & How). exists ar, l, L.
  destruct (Insert_correct cmp_Z any_Z counter_inv ar l L [1; 5] 3 Hsl How I) as (Hi & _).
  destruct (Insert_correct cmp_Z any_Z counter_inv ar l L [1; 5] 5 Hsl How I) as (_ & Hd & _).
  split_and!; try done.
  - destruct Hi as (ar' & l' & L' & ? & ? & _); [repeat constructor; by vm_compute|].
    exists ar', l', L'. by split.
  - apply Hd. right. left. reflexivity.
Defined.

Lemma SkipList_refines_sorted_list_witness :
  counter_inv 0 ∅ ∧ ∃ ar0 l0 ar' l' ks it,
    SkipList_new 0 0 = Some (ar0, l0) ∧ insert_all cmp_Z ar0 l0 [5; 1] = Some (ar', l')
    ∧ ks ≡ₚ [5; 1] ∧ Iter_SeekToFirst l' = Some it ∧ scan 3 l' it = Some ks
    ∧ Contains cmp_Z l' 4 = Some false.
Proof.
  assert (counter_inv 0 ∅) as Hi.
  { split; [done|]. intros p Hp. by apply not_elem_of_empty in Hp. }
  split; [done|].
  destruct (SkipList_refines_sorted_list cmp_Z any_Z counter_inv 0 ∅ 0 [5; 1] Hi)
    as (ar0 & l0 & ar' & l' & ks & it & ? & ? & ? & _ & ? & ? & Hc).
  - by repeat constructor.
  - repeat constructor; by vm_compute.
  - exists ar0, l0, ar', l', ks, it. split_and!; try done. rewrite (Hc 4 I). by vm_compute.
Defined.
