(* ===== verification/SkipListReaders.v ===== *)
(** Readers of the skip list that run while one thread inserts (db/skiplist.h),
    under the memory orders the code asks for.

    Insertions are serialised by the caller, so the stores to the list have one
    order, the [log], and what a thread knows is a number: it has seen the effects
    of so many stores.  A load may return what its location held at any moment
    from then to now; if it acquires and the store it reads was a release, the
    thread has from then on seen everything up to that store.  A relaxed load or
    store transfers nothing. *)
From Stdlib Require Import Sorted.
From stdpp Require Import sorting relations.
From S2P Require Import Prelude Random SkipList.
Local Open Scope Z_scope.

Section readers.
Context {K : Type} (compare_ : K → K → option Z) {A : Type} `{NodeAllocator A}.
#[local] Abbreviation heap := (gmap Z (Node K)).

(** ** Stores *)

Inductive memory_order := relaxed | release.

(** [max_height_.store], the construction of a node, and the stores to [next_]. *)
Inductive event :=
  | StoreHeight (height : nat)
  | Construct (x : Z) (key : K) (height : nat)
  | StoreNext (order : memory_order) (x : Z) (n : nat) (v : Z).

Record memory := { m_nodes : heap; m_height : nat }.

Definition apply (m : memory) (e : event) : memory :=
  match e with
  | StoreHeight height => {| m_nodes := m_nodes m; m_height := height |}
  | Construct x key height =>
    {| m_nodes := <[x := {| nkey := key; next_ := replicate height None |}]> (m_nodes m);
       m_height := m_height m |}
  | StoreNext _ x n v =>
    {| m_nodes := default (m_nodes m) (Node_SetNext (m_nodes m) x n v); m_height := m_height m |}
  end.

(** The stores of the linking loop of [Insert]. *)
Fixpoint link_stores (h : heap) (x : Z) (prev : list Z) (levels : list nat) : option (list event) :=
  match levels with
  | [] => Some []
  | i :: levels =>
    p ← prev !! i;
    n ← Node_Next h p i;
    h ← Node_SetNext h x i n;
    h ← Node_SetNext h p i x;
    es ← link_stores h x prev levels;
    Some (StoreNext relaxed x i n :: StoreNext release p i x :: es)
  end.

(** The stores of [Insert], in order.  The thread that inserts is the only one that
    stores, so that its own loads return the latest values. *)
Definition Insert_stores (ar : A) (l : SkipList K) (key : K) : option (A * Random * list event) :=
  Insert_prepare compare_ ar l key (λ ar r height prev h x,
    es ← link_stores h x prev (seq 0 height);
    Some (ar, r, (if (GetMaxHeight l <? height)%nat then [StoreHeight height] else []) ++
                 Construct x key height :: es)).

(** ** Readers *)

(** What clients of a reader call: [Contains], and the operations of its iterator. *)
Inductive op := Contains_op (k : K) | Seek (k : K) | SeekToFirst | SeekToLast | Next | Prev.

(** The loops: what they search for.  [Here] is a single load. *)
Inductive goal := AtLeast (k : K) | LessThan (k : K) | Last | Here.

(** Where a reader is: before the load of [max_height_], before a load of [next_];
    [Returned b] after an operation, [b] being the result of [Contains]. *)
Inductive place := Idle | Height (g : goal) | At (g : goal) (x : Z) (level : nat)
  | Returned (b : bool) | Faulted.

(** [view] is what the reader has seen, [node_] its iterator.  [since], [from] and
    [loads] remember [view] and [node_] at the beginning of the operation, and how
    many loads of [next_] it has made. *)
Record ListReader := {
  view : nat; node_ : Z; doing : op; place_ : place; since : nat; from : Z; loads : nat
}.

(** [arena] and [rnd] are the writer's; [pending] are the stores it has still to
    make.  [inserts] remembers each key with the times of the call and the return. *)
Record System := {
  start : memory; head : Z; log : list event; pending : list event; arena : A; rnd : Random;
  inserts : list (K * nat * nat); readers : list ListReader
}.

Definition now (s : System) : nat := length (log s).
Definition mem_at (s : System) (t : nat) : memory := foldl apply (start s) (take t (log s)).
Definition heap_at (s : System) (t : nat) : heap := m_nodes (mem_at s t).
Definition list_now (s : System) : SkipList K :=
  {| nodes := heap_at s (now s); head_ := head s; max_height_ := m_height (mem_at s (now s));
     rnd_ := rnd s |}.

Definition stores_to (x : Z) (n : nat) (e : event) : option memory_order :=
  match e with
  | StoreNext o x' n' _ => if decide (x' = x ∧ n' = n) then Some o else None
  | _ => None
  end.

(** The last store to [next_[n]] of [x]: the time after it, and its order. *)
Fixpoint last_store (es : list event) (x : Z) (n : nat) : option (nat * memory_order) :=
  match es with
  | [] => None
  | e :: es =>
    match last_store es x n with
    | Some (t, o) => Some (S t, o)
    | None => o ← stores_to x n e; Some (1%nat, o)
    end
  end.

(** [next_[n].load(std::memory_order_acquire)] by a thread that has seen [v] stores
    and reads what was there at time [t]: the value and what it has seen then. *)
Definition acquire_load (s : System) (v t : nat) (x : Z) (n : nat) : option (Z * nat) :=
  next ← Node_Next (heap_at s t) x n;
  Some (next, match last_store (take t (log s)) x n with
              | Some (t', release) => Nat.max v t'
              | _ => v
              end).

(** Whether the loop goes on to [next]. *)
Definition goes (h : heap) (g : goal) (next : Z) : option bool :=
  match g with
  | AtLeast key =>
    if next =? 0 then Some false
    else k ← Node_key h next; c ← compare_ k key; Some (c <? 0)
  | LessThan key =>
    stop ← (if next =? 0 then Some true
            else k ← Node_key h next; c ← compare_ k key; Some (0 <=? c));
    Some (negb stop)
  | Last => Some (negb (next =? 0))
  | Here => Some false
  end.

(** The assertion of [FindLessThan]. *)
Definition assertion (h : heap) (hd : Z) (g : goal) (x : Z) : option bool :=
  match g with
  | LessThan key =>
    if x =? hd then Some true else k ← Node_key h x; c ← compare_ k key; Some (c <? 0)
  | _ => Some true
  end.

(** The operation after its loop has ended between [x] and [next]. *)
Definition result (h : heap) (hd : Z) (o : op) (node x next : Z) : option (Z * bool) :=
  match o with
  | Contains_op key =>
    b ← (if next =? 0 then Some false else k ← Node_key h next; Equal compare_ key k);
    Some (node, b)
  | Seek _ | SeekToFirst | Next => Some (next, false)
  | SeekToLast | Prev => Some (if x =? hd then 0 else x, false)
  end.

(** The reader at another place. *)
Definition move (r : ListReader) (v : nat) (node : Z) (p : place) (n : nat) : ListReader :=
  {| view := v; node_ := node; doing := doing r; place_ := p; since := since r; from := from r;
     loads := n |}.

(** One iteration of a loop, its load returning what was there at [t]. *)
Definition Reader_load (s : System) (r : ListReader) (g : goal) (x : Z) (level t : nat) : option ListReader :=
  holds ← assertion (heap_at s (view r)) (head s) g x;
  ASSERT (holds : bool);
  '(next, v) ← acquire_load s (view r) t x level;
  right ← goes (heap_at s v) g next;
  if (right : bool) then Some (move r v (node_ r) (At g next level) (S (loads r)))
  else
    match level with
    | S level => Some (move r v (node_ r) (At g x level) (S (loads r)))
    | O =>
      '(node, b) ← result (heap_at s v) (head s) (doing r) (node_ r) x next;
      Some (move r v node (Returned b) (S (loads r)))
    end.

(** [GetMaxHeight() - 1]. *)
Definition Reader_height (s : System) (r : ListReader) (g : goal) (t : nat) : option ListReader :=
  match m_height (mem_at s t) with
  | O => None
  | S level => Some (move r (view r) (node_ r) (At g (head s) level) (loads r))
  end.

(** The next load of a reader; a fault or a failed assertion is [Faulted]. *)
Definition Reader_step (s : System) (r : ListReader) (t : nat) : option ListReader :=
  ASSERT ((view r <=? t) && (t <=? now s))%nat;
  let faulted := move r (view r) (node_ r) Faulted (loads r) in
  match place_ r with
  | Height g => Some (default faulted (Reader_height s r g t))
  | At g x level => Some (default faulted (Reader_load s r g x level t))
  | _ => None
  end.

(** Where an operation begins. *)
Definition entry (s : System) (r : ListReader) (o : op) : option place :=
  match o with
  | Contains_op k | Seek k => Some (Height (AtLeast k))
  | SeekToFirst => Some (At Here (head s) 0)
  | SeekToLast => Some (Height Last)
  | Next => ASSERT (Iter_Valid (node_ r)); Some (At Here (node_ r) 0)
  | Prev =>
    ASSERT (Iter_Valid (node_ r));
    k ← Node_key (heap_at s (view r)) (node_ r); Some (Height (LessThan k))
  end.

Definition Reader_begin (s : System) (r : ListReader) (o : op) : option ListReader :=
  match place_ r with
  | Idle | Returned _ =>
    p ← entry s r o;
    Some {| view := view r; node_ := node_ r; doing := o; place_ := p; since := view r;
            from := node_ r; loads := 0 |}
  | _ => None
  end.

(** ** The system *)

Definition set_reader (s : System) (i : nat) (r : ListReader) : System :=
  {| start := start s; head := head s; log := log s; pending := pending s; arena := arena s;
     rnd := rnd s; inserts := inserts s; readers := <[i := r]> (readers s) |}.

Definition Insert_begin (s : System) (key : K) : option System :=
  match pending s with
  | [] =>
    '(ar, r, es) ← Insert_stores (arena s) (list_now s) key;
    Some {| start := start s; head := head s; log := log s; pending := es; arena := ar; rnd := r;
            inserts := inserts s ++ [(key, now s, now s + length es)%nat]; readers := readers s |}
  | _ => None
  end.

Definition Writer_store (s : System) : option System :=
  match pending s with
  | e :: es =>
    Some {| start := start s; head := head s; log := log s ++ [e]; pending := es; arena := arena s;
            rnd := rnd s; inserts := inserts s; readers := readers s |}
  | [] => None
  end.

(** A list no thread is inserting into, and readers that have it. *)
Definition System_start (ar : A) (l : SkipList K) (n : nat) : System :=
  {| start := {| m_nodes := nodes l; m_height := max_height_ l |}; head := head_ l; log := [];
     pending := []; arena := ar; rnd := rnd_ l; inserts := [];
     readers := replicate n {| view := 0; node_ := 0; doing := SeekToFirst; place_ := Idle;
                               since := 0; from := 0; loads := 0 |} |}.

(** [ok] are the keys that may be used.  Between its operations a reader may learn
    of more stores, through whatever else the threads synchronise by. *)
Definition op_ok (ok : K → Prop) (o : op) : Prop :=
  match o with Contains_op k | Seek k => ok k | _ => True end.
Definition busy (r : ListReader) : bool :=
  match place_ r with Height _ | At _ _ _ => true | _ => false end.

Inductive step (ok : K → Prop) (s : System) : System → Prop :=
  | step_insert key s' : ok key → Insert_begin s key = Some s' → step ok s s'
  | step_store s' : Writer_store s = Some s' → step ok s s'
  | step_begin i r o r' :
      readers s !! i = Some r → op_ok ok o → Reader_begin s r o = Some r' →
      step ok s (set_reader s i r')
  | step_load i r t r' :
      readers s !! i = Some r → Reader_step s r t = Some r' → step ok s (set_reader s i r')
  | step_sync i r v :
      readers s !! i = Some r → busy r = false → (view r ≤ v ≤ now s)%nat →
      step ok s (set_reader s i (move r v (node_ r) (place_ r) (loads r))).
End readers.
Arguments event : clear implicits.
Arguments memory : clear implicits.
Arguments op : clear implicits.
Arguments goal : clear implicits.
Arguments place : clear implicits.
Arguments ListReader : clear implicits.
Arguments System : clear implicits.

(** ** What the stores of an insertion preserve *)
Section preservation.
Context {K : Type} (cmp : K → K → option Z) (ok : K → Prop) `{!KeyOrder cmp ok}.
#[local] Abbreviation heap := (gmap Z (Node K)).
Implicit Types (h : heap) (m : memory K) (L : list Z) (ks : list K).

(** The nodes linked on each level, which differ from the nodes tall enough for it
    while a node is being linked, and the keys of the lowest level. *)
Record levels := { g_lists : nat → list Z; g_keys : list K }.

Record ok_at (hd : Z) m (g : levels) : Prop := {
  oa_linked i : (i < kMaxHeight)%nat → linked (m_nodes m) i hd (g_lists g i);
  oa_sub i j : (j ≤ i)%nat → g_lists g i `sublist_of` g_lists g j;
  oa_nodup : NoDup (0 :: hd :: g_lists g 0);
  oa_keys : Forall2 (λ x k, Node_key (m_nodes m) x = Some k) (g_lists g 0) (g_keys g);
  oa_ok : Forall ok (g_keys g);
  oa_sorted : StronglySorted (klt cmp) (g_keys g);
  oa_height : (1 ≤ m_height m ≤ kMaxHeight)%nat
}.

(** A store adds to the lists and changes no key; a relaxed store is to a node that
    is not linked on the level, and nodes are constructed where none was. *)
Record grows (hd : Z) m (g : levels) (e : event K) (g' : levels) : Prop := {
  gr_lists i : g_lists g i `sublist_of` g_lists g' i;
  gr_keys : g_keys g ⊆ g_keys g';
  gr_key x k : Node_key (m_nodes m) x = Some k → Node_key (m_nodes (apply m e)) x = Some k;
  gr_relaxed x n v : e = StoreNext relaxed x n v → x ∉ hd :: g_lists g n;
  gr_fresh x k n : e = Construct x k n → x ∉ hd :: g_lists g 0
}.

(** Stores that do so one after the other. *)
Inductive grow_through (hd : Z) : memory K → levels → list (event K) → memory K → levels → Prop :=
  | grow_nil m g : ok_at hd m g → grow_through hd m g [] m g
  | grow_cons m g e g1 es m' g' :
      ok_at hd m g → grows hd m g e g1 → grow_through hd (apply m e) g1 es m' g' →
      grow_through hd m g (e :: es) m' g'.

Lemma apply_next h h' mh o x n v :
  Node_SetNext h x n v = Some h' →
  apply {| m_nodes := h; m_height := mh |} (StoreNext o x n v) = {| m_nodes := h'; m_height := mh |}.
Proof. intros E. unfold apply. cbn [m_nodes m_height]. by rewrite E. Qed.

Lemma grow_through_ok hd m g es m' g' : grow_through hd m g es m' g' → ok_at hd m g.
Proof. by inversion 1. Qed.

Lemma grow_through_app hd m g es m1 g1 es' m' g' :
  grow_through hd m g es m1 g1 → grow_through hd m1 g1 es' m' g' →
  grow_through hd m g (es ++ es') m' g'.
Proof. induction 1; [done|]. intros. cbn. econstructor; eauto. Qed.

Lemma grow_through_end hd m g es m' g' :
  grow_through hd m g es m' g' → m' = foldl apply m es ∧ g_keys g ⊆ g_keys g'.
Proof.
  induction 1 as [|m g e g1 es m' g' _ Hg _ [-> IH]]; [done|]. split; [done|].
  intros k Hk. apply IH. by apply (gr_keys _ _ _ _ _ Hg).
Qed.

(** *** Lists and sublists *)

Lemma lvl_sublist h i j L : (j ≤ i)%nat → lvl h i L `sublist_of` lvl h j L.
Proof.
  intros Hij. induction L as [|y L IH]; [done|]. unfold lvl in *. rewrite !filter_cons.
  destruct (decide (tall h i y = true)) as [E|_], (decide (tall h j y = true)) as [E'|E'];
    [by constructor| |by constructor|done].
  destruct E'. by eapply tall_lower.
Qed.

(** Linking [x] on the levels below [k]. *)
Definition partly_linked h (x : Z) (P Q : list Z) (ks0 ks1 : list K) (k : nat) : levels :=
  {| g_lists i := if decide (i < k)%nat then lvl h i P ++ x :: lvl h i Q
                  else lvl h i P ++ lvl h i Q;
     g_keys := if decide (0 < k)%nat then ks1 else ks0 |}.

Lemma partly_linked_mono h x P Q ks0 ks1 i k k' :
  (k ≤ k')%nat → g_lists (partly_linked h x P Q ks0 ks1 k) i `sublist_of`
                 g_lists (partly_linked h x P Q ks0 ks1 k') i.
Proof.
  intros Hk. cbn. repeat case_decide; try lia; [done| |done].
  apply sublist_app; [done|]. by apply sublist_cons.
Qed.

Lemma partly_linked_sub h x P Q ks0 ks1 i j k :
  (j ≤ i)%nat → g_lists (partly_linked h x P Q ks0 ks1 k) i `sublist_of`
                g_lists (partly_linked h x P Q ks0 ks1 k) j.
Proof.
  intros Hj. cbn. pose proof (lvl_sublist h i j P Hj). pose proof (lvl_sublist h i j Q Hj).
  repeat case_decide; try lia; apply sublist_app; try done; by constructor.
Qed.
Lemma lvl_all h i L : (∀ y, y ∈ L → tall h i y = true) → lvl h i L = L.
Proof.
  intros HL. unfold lvl. induction L as [|y L IH]; [done|].
  rewrite filter_cons_True by (apply HL; by left). f_equal. apply IH.
  intros z Hz. apply HL. by right.
Qed.

Lemma lvl_cons h i y L : lvl h i (y :: L) = if tall h i y then y :: lvl h i L else lvl h i L.
Proof.
  unfold lvl. destruct (tall h i y) eqn:E; [by rewrite filter_cons_True|].
  rewrite filter_cons_False; [done|by rewrite E].
Qed.

(** *** The linking loop *)
Section linking.
Context (h1 : heap) (hd x : Z) (P Q : list Z) (height : nat) (prev : list Z) (mh : nat)
  (ks0 ks1 : list K).
Context (Hhd : tall h1 (kMaxHeight - 1) hd = true) (Hx : ∀ i, tall h1 i x = (i <? height)%nat)
  (Hnd : NoDup (0 :: hd :: x :: P ++ Q)) (Hhgt : (height ≤ kMaxHeight)%nat)
  (Hprev : ∀ j, (j < height)%nat → prev !! j = Some (lastof hd (lvl h1 j P)))
  (Htall : ∀ y, y ∈ P ++ Q → tall h1 0 y = true)
  (Hk0 : Forall2 (λ x k, Node_key h1 x = Some k) (P ++ Q) ks0)
  (Hk1 : Forall2 (λ x k, Node_key h1 x = Some k) (P ++ x :: Q) ks1)
  (Hok : Forall ok ks1) (Hs0 : StronglySorted (klt cmp) ks0) (Hs1 : StronglySorted (klt cmp) ks1)
  (Hsub : ks0 ⊆ ks1) (Hmh : (1 ≤ mh ≤ kMaxHeight)%nat).
#[local] Abbreviation lists := (partly_linked h1 x P Q ks0 ks1).
#[local] Abbreviation mem h := {| m_nodes := h; m_height := mh |}.

Lemma linking_nodup : NoDup (hd :: P ++ Q) ∧ x ∉ hd :: P ++ Q.
Proof using Hnd.
  assert (0 :: hd :: x :: P ++ Q ≡ₚ 0 :: x :: hd :: P ++ Q) as E by solve_Permutation.
  rewrite E in Hnd. apply NoDup_cons in Hnd as [_ Hn]. apply NoDup_cons in Hn as [? ?]. done.
Qed.

Lemma lists_lowest k : g_lists (lists k) 0 = if decide (0 < k)%nat then P ++ x :: Q else P ++ Q.
Proof using Htall.
  cbn. rewrite !lvl_all; [done|..]; intros y Hy; apply Htall, elem_of_app; [by right|by left].
Qed.

Lemma linking_ok k h : linking h1 hd x P Q k h → ok_at hd (mem h) (lists k).
Proof using Hnd Htall Hk0 Hk1 Hok Hs0 Hs1 Hsub Hmh.
  intros [Hss Hl]. destruct linking_nodup as [Hn Hxn]. split.
  - intros i Hi. specialize (Hl i Hi). cbn. by case_decide.
  - intros i j. apply partly_linked_sub.
  - rewrite lists_lowest. case_decide.
    + assert (0 :: hd :: P ++ x :: Q ≡ₚ 0 :: hd :: x :: P ++ Q) as -> by solve_Permutation. done.
    + apply NoDup_cons in Hnd as [Hz _]. apply NoDup_cons. split; [|done].
      intros Hin. apply Hz. apply elem_of_cons in Hin as [->|Hin]; [by left|by do 2 right].
  - rewrite lists_lowest. cbn. case_decide; (eapply Forall2_impl; [eassumption|]); intros y k' Hy;
      by rewrite (ss_key _ _ Hss).
  - cbn. case_decide; [done|]. rewrite Forall_forall in *. auto.
  - cbn. by case_decide.
  - done.
Qed.

Lemma linking_done h i : linking h1 hd x P Q height h → g_lists (lists height) i = lvl h i (P ++ x :: Q).
Proof using Hx.
  intros [Hss _]. assert (Hlv : ∀ Y, lvl h i Y = lvl h1 i Y)
    by (intros Y; apply lvl_ext; intros; apply (ss_tall _ _ Hss)).
  rewrite Hlv, lvl_app, lvl_cons, Hx. cbn [g_lists partly_linked].
  destruct (Nat.ltb_spec i height); [by rewrite decide_True|].
  by rewrite decide_False by (by apply Nat.le_ngt).
Qed.

(** One iteration: first the relaxed store, then the release. *)
Lemma link_level_grows i h :
  linking h1 hd x P Q i h → (i < height)%nat →
  ∃ p n h2 h3, prev !! i = Some p ∧ Node_Next h p i = Some n
    ∧ Node_SetNext h x i n = Some h2 ∧ Node_SetNext h2 p i x = Some h3
    ∧ linking h1 hd x P Q (S i) h3
    ∧ grow_through hd (mem h) (lists i) [StoreNext relaxed x i n; StoreNext release p i x]
        (mem h3) (lists (S i)).
Proof using All.
  intros Hl Hi. destruct linking_nodup as [Hn Hxn].
  destruct (link_level_spec h1 hd x P Q height prev Hhd Hx Hn Hxn Hhgt Hprev i h Hl Hi)
    as (h3 & E & Hl3).
  unfold link_level in E. apply bind_Some in E as (p & Ep & E). apply bind_Some in E as (n & En & E).
  apply bind_Some in E as (h2 & E2 & E3). exists p, n, h2, h3.
  assert (Hxi : x ∉ hd :: g_lists (lists i) i).
  { cbn. rewrite decide_False by lia. intros [->|Hin]%elem_of_cons; apply Hxn; [by left|right].
    by eapply lvl_sub. }
  destruct (Hl) as [Hss Hlk].
  destruct (SetNext_spec h x i n) as (h2' & E2' & Hss2 & _ & Hext);
    [rewrite (ss_tall _ _ Hss), Hx; by apply Nat.ltb_lt|]. simplify_eq.
  assert (Hl2 : linking h1 hd x P Q i h2).
  { split; [by eapply same_shape_trans|]. intros j Hj. specialize (Hlk j Hj).
    assert (∀ ys, (j = i → x ∉ hd :: ys) → linked h j hd ys → linked h2 j hd ys) as Hgo.
    { intros ys Hys Hlys. apply (linked_ext h); [done|]. intros y Hy. apply Hext. intros [= -> ->].
      by apply Hys. }
    case_decide; apply Hgo; try done; [intros ->; lia|]. intros ->. cbn in Hxi.
    by rewrite decide_False in Hxi by lia. }
  split_and!; try done. destruct Hl3 as [Hss3 Hlk3].
  assert (Hkey : ∀ y k, Node_key h y = Some k → Node_key h2 y = Some k ∧ Node_key h3 y = Some k).
  { intros y k. by rewrite (ss_key _ _ Hss3), (ss_key _ _ Hss2), (ss_key _ _ Hss). }
  apply grow_cons with (lists i); [by apply linking_ok| |].
  { split; [done..| | |done].
    - rewrite (apply_next _ _ _ _ _ _ _ E2). naive_solver.
    - intros x' n' v [= -> -> ->]. done. }
  rewrite (apply_next _ _ _ _ _ _ _ E2).
  apply grow_cons with (lists (S i)); [by apply linking_ok| |].
  { split; [intros j; apply partly_linked_mono; lia| | |done..].
    - cbn. repeat case_decide; try lia; done.
    - rewrite (apply_next _ _ _ _ _ _ _ E3). intros y k. cbn [m_nodes].
      by rewrite (ss_key _ _ Hss3), (ss_key _ _ Hss2), (ss_key _ _ Hss). }
  rewrite (apply_next _ _ _ _ _ _ _ E3). apply grow_nil. by apply linking_ok.
Qed.

Lemma link_stores_grow i n h :
  linking h1 hd x P Q i h → (i + n = height)%nat →
  ∃ es h', link_stores h x prev (seq i n) = Some es ∧ link_levels h x prev (seq i n) = Some h'
    ∧ linking h1 hd x P Q height h'
    ∧ grow_through hd (mem h) (lists i) es (mem h') (lists height).
Proof using All.
  revert i h. induction n as [|n IH]; intros i h Hl Hi; cbn [seq link_stores link_levels].
  - replace height with i by lia. exists [], h. split_and!; [done..|]. apply grow_nil. by apply linking_ok.
  - destruct (link_level_grows i h Hl) as (p & v & h2 & h3 & Ep & E1 & E2 & E3 & Hl3 & Hg); [lia|].
    unfold link_level. rewrite Ep. cbn [mbind option_bind]. rewrite E1. cbn [mbind option_bind].
    rewrite E2. cbn [mbind option_bind]. rewrite E3. cbn [mbind option_bind].
    destruct (IH (S i) h3 Hl3) as (es & h' & -> & -> & Hl' & Hg'); [lia|]. cbn [mbind option_bind].
    eexists _, h'. do 3 (split; [done|]). by apply (grow_through_app _ _ _ [_; _] _ _ es _ _ Hg).
Qed.
End linking.

(** *** Insertion *)
Context {A : Type} `{NodeAllocator A} (inv : A → gset Z → Prop) `{!NodeAllocatorLaws A inv}.

Definition memory_of (l : SkipList K) : memory K :=
  {| m_nodes := nodes l; m_height := max_height_ l |}.

(** The list between insertions. *)
Definition settled (l : SkipList K) (g : levels) : Prop :=
  SL cmp ok l (g_lists g 0) (g_keys g) ∧ ∀ i, g_lists g i = lvl (nodes l) i (g_lists g 0).

Lemma settled_ok l g : settled l g → ok_at (head_ l) (memory_of l) g.
Proof.
  intros [[Hh _] Hl]. split; try apply Hh.
  - intros i Hi. rewrite Hl. by apply (sl_links _ _ _ _ _ _ _ Hh).
  - intros i j Hj. rewrite (Hl i), (Hl j). by apply lvl_sublist.
Qed.

Lemma Insert_prepare_bind {B} ar l key (rest : A → Random → nat → list Z → heap → Z → option B) :
  Insert_prepare cmp ar l key rest
  = '(ar, r, height, prev, h, x) ←
      Insert_prepare cmp ar l key (λ ar r height prev h x, Some (ar, r, height, prev, h, x));
    rest ar r height prev h x.
Proof using Type.
  unfold Insert_prepare.
  destruct (FindGreaterOrEqual _ _ _ _) as [[y [prev|]]|]; [|done..]. cbn [mbind option_bind].
  destruct (if y =? 0 then _ else _) as [dup|]; [|done]. cbn [mbind option_bind].
  destruct (negb dup); [|done]. destruct (RandomHeight _) as [[r height]|]; [|done].
  cbn [mbind option_bind]. by destruct (NewNode _ _ _ _) as [[[ar' h] x]|].
Qed.

Lemma Insert_via_prepare ar l key :
  Insert cmp ar l key = Insert_prepare cmp ar l key (λ ar r height prev h x,
    h ← link_levels h x prev (seq 0 height);
    Some (ar, {| nodes := h; head_ := head_ l;
                 max_height_ := if (GetMaxHeight l <? height)%nat then height else max_height_ l;
                 rnd_ := r |})).
Proof using Type. reflexivity. Qed.

(** The stores of [Insert] before the linking loop. *)
Lemma construct_grows l g x key height h' es g0 g' :
  settled l g → nodes l !! x = None → x ∉ head_ l :: g_lists g 0 → (height ≤ kMaxHeight)%nat →
  (∀ i, g_lists g i `sublist_of` g_lists g0 i) → g_keys g ⊆ g_keys g0 →
  let mh := if (GetMaxHeight l <? height)%nat then height else max_height_ l in
  let h1 := <[x := {| nkey := key; next_ := replicate height None |}]> (nodes l) in
  grow_through (head_ l) {| m_nodes := h1; m_height := mh |} g0 es
    {| m_nodes := h'; m_height := mh |} g' →
  grow_through (head_ l) (memory_of l) g
    ((if (GetMaxHeight l <? height)%nat then [StoreHeight height] else [])
     ++ Construct x key height :: es) {| m_nodes := h'; m_height := mh |} g'.
Proof.
  intros Hset Hx Hxn Hhgt Hlists Hkeys mh h1 Hg. pose proof (settled_ok l g Hset) as Hok0.
  set (m1 := {| m_nodes := nodes l; m_height := mh |}).
  assert (Hok1 : ok_at (head_ l) m1 g).
  { destruct Hok0 as [?????? Hmh]. split; try done. cbn [m_height memory_of m1] in *. unfold mh.
    destruct (Nat.ltb_spec (GetMaxHeight l) height); unfold GetMaxHeight in *; lia. }
  apply grow_through_app with m1 g.
  - unfold m1, mh. case_match; [|by apply grow_nil].
    apply grow_cons with g; [done|by split|by apply grow_nil].
  - apply grow_cons with g0; [done| |done]. split; try done.
    + intros y k. unfold Node_key. cbn. intros Hy. rewrite lookup_insert_ne; [done|].
      intros ->. by rewrite Hx in Hy.
    + by intros ??? [= <- <- <-].
Qed.

(** A new node, from its construction to its last link. *)
Lemma new_node_grows l g key x height prev r :
  settled l g → ok key → Forall (λ k, ¬ keqv cmp key k) (g_keys g) → nodes l !! x = None → x ≠ 0 →
  (1 ≤ height ≤ kMaxHeight)%nat → Random_ok r →
  (∀ j, (j < height)%nat → prev !! j =
     Some (lastof (head_ l) (lvl (nodes l) j (take (rank cmp (g_keys g) key) (g_lists g 0))))) →
  let mh := if (GetMaxHeight l <? height)%nat then height else max_height_ l in
  let h1 := <[x := {| nkey := key; next_ := replicate height None |}]> (nodes l) in
  ∃ es h' g', link_stores h1 x prev (seq 0 height) = Some es
    ∧ link_levels h1 x prev (seq 0 height) = Some h'
    ∧ grow_through (head_ l) (memory_of l) g
        ((if (GetMaxHeight l <? height)%nat then [StoreHeight height] else [])
         ++ Construct x key height :: es) {| m_nodes := h'; m_height := mh |} g'
    ∧ settled {| nodes := h'; head_ := head_ l; max_height_ := mh; rnd_ := r |} g'
    ∧ g_keys g' = insert_at cmp (g_keys g) key.
Proof.
  intros Hset Hk Hne Hx Hx0 Hhgt Hr Hprev mh h1. destruct (Hset) as [[Hh _] Hlv].
  set (L := g_lists g 0) in *. set (ks := g_keys g) in *. set (hd := head_ l) in *.
  destruct (link_fresh cmp ok (nodes l) hd (max_height_ l) L ks key x height prev)
    as (h' & Elink & Hh' & _); try done. fold h1 in Elink.
  set (P := take (rank cmp ks key) L) in *. set (Q := drop (rank cmp ks key) L) in *.
  assert (HPQ : P ++ Q = L) by apply take_drop.
  assert (Hnd : NoDup (0 :: hd :: x :: P ++ Q)).
  { pose proof (sl_nodup _ _ _ _ _ _ _ Hh') as Hn.
    assert (0 :: hd :: P ++ x :: Q ≡ₚ 0 :: hd :: x :: P ++ Q) as <- by solve_Permutation. done. }
  destruct (fresh_keeps cmp ok (nodes l) hd (max_height_ l) L ks key x height Hh Hx)
    as (Hold & Htall & Htx & Hlvl & Hkeys & Hkx).
  fold h1 in Htall, Htx, Hlvl, Hkeys, Hkx.
  assert (Hxn : x ∉ hd :: L) by (intros Hin; by apply (Hold x)).
  assert (Htall0 : ∀ y, y ∈ P ++ Q → tall h1 0 y = true).
  { rewrite HPQ. intros y Hy. rewrite Htall by (by right).
    pose proof (sl_tall _ _ _ _ _ _ _ Hh) as Ht. rewrite Forall_forall in Ht. by apply Ht. }
  assert (Hmh : mh = (max_height_ l `max` height)%nat).
  { unfold mh, GetMaxHeight. destruct (Nat.ltb_spec (max_height_ l) height); lia. }
  pose proof (sl_mh _ _ _ _ _ _ _ Hh) as Hmh0.
  destruct (link_stores_grow h1 hd x P Q height prev mh ks (insert_at cmp ks key))
    with (i := 0%nat) (n := height) (h := h1) as (es & h'' & ES & E' & Hlk & Hg);
    try done; try apply Hh; try apply Hh'; try lia.
  - rewrite Htall by (by left). apply Hh.
  - intros j Hj. rewrite Hlvl by (intros y Hy; rewrite <- HPQ; apply elem_of_app; by left).
    by apply Hprev.
  - by rewrite HPQ.
  - unfold insert_at. apply Forall2_app; [by apply Forall2_take|].
    constructor; [done|by apply Forall2_drop].
  - intros k Hki. rewrite insert_at_perm. by right.
  - split; [apply same_shape_refl|]. intros j Hj. rewrite decide_False by lia.
    rewrite <- lvl_app, HPQ, Hlvl by done. apply (linked_ext (nodes l)); [by apply Hh|].
    intros y Hy. apply fresh_next; [done|]. apply Hold.
    apply elem_of_cons in Hy as [->|Hy]; [by left|right].
    unfold lvl in Hy. by apply list_elem_of_filter in Hy as [_ ?].
  - rewrite Elink in E'. injection E' as <-.
    assert (H0 : (0 < height)%nat) by lia.
    exists es, h', (partly_linked h1 x P Q ks (insert_at cmp ks key) height).
    do 2 (split; [done|]). split; [|split; [split; [split|]|]].
    + apply (construct_grows l g x key height h' es (partly_linked h1 x P Q ks (insert_at cmp ks key) 0));
        try done; [lia|..].
      intros i. cbn. rewrite decide_False by lia. by rewrite <- lvl_app, HPQ, Hlvl, Hlv.
    + rewrite lists_lowest, decide_True by done. cbn. by rewrite decide_True, Hmh by done.
    + done.
    + intros i. rewrite lists_lowest, decide_True by done. by apply linking_done with (hd := hd).
    + cbn. by rewrite decide_True.
Qed.

Lemma Insert_stores_grow ar l g key :
  settled l g → owned inv ar l → ok key → Forall (λ k, ¬ keqv cmp key k) (g_keys g) →
  ∃ ar' es l' g', Insert_stores cmp ar l key = Some (ar', rnd_ l', es)
    ∧ Insert cmp ar l key = Some (ar', l') ∧ head_ l' = head_ l
    ∧ grow_through (head_ l) (memory_of l) g es (memory_of l') g'
    ∧ settled l' g' ∧ owned inv ar' l' ∧ g_keys g' = insert_at cmp (g_keys g) key.
Proof using Type*.
  intros Hset How Hk Hne. destruct (Hset) as [Hsl _].
  destruct (Insert_eq cmp ok inv ar l _ _ key Hsl How Hk Hne) as (ar1 & l' & x1 & HI & _ & How').
  destruct (Insert_prepare_eq cmp ok inv ar l _ _ key
    (λ ar r height prev h x, Some (ar, r, height, prev, h, x)) Hsl How Hk Hne)
    as (ar' & r & height & prev & x & E & Hr & Hhgt & Hx & Hx0 & Hprev & _).
  destruct (new_node_grows l g key x height prev r Hset Hk Hne Hx Hx0 Hhgt Hr Hprev)
    as (es & h' & g' & ES & EL & Hg & Hset' & Hkeys).
  pose proof HI as HI'. rewrite Insert_via_prepare, Insert_prepare_bind, E in HI'.
  cbn [mbind option_bind] in HI'. rewrite EL in HI'. injection HI' as <- El'.
  eexists ar', _, l', g'. rewrite <- El' in *. split; [unfold Insert_stores; rewrite Insert_prepare_bind, E; cbn [mbind option_bind];
    rewrite ES; reflexivity|]. by split_and!.
Qed.
End preservation.

(** ** Histories *)
Section history.
Context {K : Type} (cmp : K → K → option Z) (ok : K → Prop) {A : Type} `{NodeAllocator A}.
Implicit Types (s : System K A) (gs : nat → @levels K).

(** The levels at every moment so far. *)
Record history s gs : Prop := {
  hi_ok t : (t ≤ now s)%nat → ok_at cmp ok (head s) (mem_at s t) (gs t);
  hi_grows t e : log s !! t = Some e → grows (head s) (mem_at s t) (gs t) e (gs (S t))
}.

Lemma mem_at_S s t e : log s !! t = Some e → mem_at s (S t) = apply (mem_at s t) e.
Proof. intros E. unfold mem_at. by rewrite (take_S_r _ _ _ E), foldl_app. Qed.

Lemma log_at s t : (t < now s)%nat → ∃ e, log s !! t = Some e.
Proof. intros Ht. by apply lookup_lt_is_Some_2. Qed.

(** What holds at a moment and is kept by every store holds from then on. *)
Lemma since_then s (R : nat → Prop) t t' :
  (t ≤ t' ≤ now s)%nat → R t →
  (∀ u e, (t ≤ u < t')%nat → log s !! u = Some e → R u → R (S u)) → R t'.
Proof.
  intros Ht HR Hstep. induction t' as [|t' IH].
  - by replace 0%nat with t by lia.
  - destruct (decide (t = S t')) as [<-|Hne]; [done|].
    destruct (log_at s t') as [e He]; [lia|]. apply (Hstep _ e); [lia|done|].
    apply IH; [lia|]. intros u e' Hu. apply Hstep. lia.
Qed.

Section lemmas.
Context s gs (Hh : history s gs).

Lemma history_lists t t' i :
  (t ≤ t' ≤ now s)%nat → g_lists (gs t) i `sublist_of` g_lists (gs t') i.
Proof using Hh.
  intros Ht. apply (since_then s (λ u, g_lists (gs t) i `sublist_of` g_lists (gs u) i) t);
    [done..|]. intros u e _ He IH. etrans; [exact IH|]. by apply (hi_grows _ _ Hh u e).
Qed.

Lemma history_in t t' i x :
  (t ≤ t' ≤ now s)%nat → x ∈ head s :: g_lists (gs t) i → x ∈ head s :: g_lists (gs t') i.
Proof using Hh.
  intros Ht [->|Hx]%elem_of_cons; [by left|right].
  eapply sublist_subseteq; [by apply history_lists|done].
Qed.

Lemma history_keys t t' : (t ≤ t' ≤ now s)%nat → g_keys (gs t) ⊆ g_keys (gs t').
Proof using Hh.
  intros Ht. apply (since_then s (λ u, g_keys (gs t) ⊆ g_keys (gs u)) t); [done..|].
  intros u e _ He IH. etrans; [exact IH|]. by apply (hi_grows _ _ Hh u e).
Qed.

Lemma history_key t t' x k :
  (t ≤ t' ≤ now s)%nat → Node_key (heap_at s t) x = Some k → Node_key (heap_at s t') x = Some k.
Proof using Hh.
  intros Ht Hx. apply (since_then s (λ u, Node_key (heap_at s u) x = Some k) t); [done..|].
  intros u e _ He IH. unfold heap_at. rewrite (mem_at_S _ _ _ He). by apply (hi_grows _ _ Hh u e He).
Qed.

Lemma lower t i j x :
  (t ≤ now s)%nat → (j ≤ i)%nat → x ∈ head s :: g_lists (gs t) i → x ∈ head s :: g_lists (gs t) j.
Proof using Hh.
  intros Ht Hj [->|Hx]%elem_of_cons; [by left|right].
  eapply sublist_subseteq; [by apply (hi_ok _ _ Hh t Ht)|done].
Qed.

Lemma Node_Next_apply m e x i :
  stores_to x i e = None → (∀ k n, e ≠ Construct x k n) →
  Node_Next (m_nodes (apply m e)) x i = Node_Next (m_nodes (K := K) m) x i.
Proof using Type.
  destruct e as [n|y k n|o y n v]; cbn [apply m_nodes stores_to]; intros Hst Hc; [done|..].
  - unfold Node_Next. rewrite lookup_insert_ne; [done|]. intros ->. by apply (Hc k n).
  - case_decide as Hyn; [done|]. unfold Node_SetNext.
    destruct (m_nodes m !! y) as [nd|] eqn:Hy; [|done]. cbn [mbind option_bind].
    destruct (n <? length (next_ nd))%nat; [|done]. cbn [default].
    unfold Node_Next. change (id ?z) with z. destruct (decide (y = x)) as [->|Hne].
    + rewrite lookup_insert_eq, Hy. cbn [mbind option_bind next_].
      rewrite list_lookup_insert_ne; [done|]. intros ->. by apply Hyn.
    + by rewrite lookup_insert_ne.
Qed.

(** A slot nothing is stored to keeps its value. *)
Lemma history_next t t' x i :
  (t ≤ t' ≤ now s)%nat → x ∈ head s :: g_lists (gs t) i →
  (∀ u e, (t ≤ u < t')%nat → log s !! u = Some e → stores_to x i e = None) →
  Node_Next (heap_at s t') x i = Node_Next (heap_at s t) x i.
Proof using Hh.
  intros Ht Hx Hno.
  apply (since_then s (λ u, Node_Next (heap_at s u) x i = Node_Next (heap_at s t) x i) t); [done..|].
  intros u e Hu He <-. unfold heap_at. rewrite (mem_at_S _ _ _ He).
  apply Node_Next_apply; [by apply (Hno u)|]. intros k n ->.
  apply (gr_fresh _ _ _ _ _ (hi_grows _ _ Hh u _ He) x k n eq_refl).
  apply (lower u i); [lia..|]. by apply (history_in t); [lia|].
Qed.
End lemmas.

Lemma last_store_spec (es : list (event K)) x n :
  match last_store es x n with
  | Some (t, o) => (1 ≤ t ≤ length es)%nat
      ∧ (∃ e, es !! (t - 1)%nat = Some e ∧ stores_to x n e = Some o)
      ∧ ∀ u e, (t ≤ u)%nat → es !! u = Some e → stores_to x n e = None
  | None => ∀ u e, es !! u = Some e → stores_to x n e = None
  end.
Proof.
  induction es as [|e es IH]; cbn [last_store]; [done|].
  destruct (last_store es x n) as [[t o]|].
  - destruct IH as (Ht & (e' & He' & Hst) & Hno). cbn [length]. split; [lia|]. split.
    + exists e'. split; [|done]. by replace (S t - 1)%nat with (S (t - 1)) by lia.
    + intros [|u] e'' Hu; [lia|]. apply Hno. lia.
  - destruct (stores_to x n e) as [o|] eqn:E; cbn [mbind option_bind].
    + cbn [length]. split; [lia|]. split; [by exists e|]. intros [|u] e' Hu; [lia|]. apply IH.
    + intros [|u] e' He'; [by injection He' as <-|by eapply IH].
Qed.

(** A load from a node the reader knows to be linked on the level: it sees what the
    slot holds when it has seen what the load shows it. *)
Lemma acquire_load_ok s gs v t x i :
  history s gs → (v ≤ t ≤ now s)%nat → (i < kMaxHeight)%nat → x ∈ head s :: g_lists (gs v) i →
  ∃ next v', acquire_load s v t x i = Some (next, v') ∧ (v ≤ v' ≤ now s)%nat
    ∧ Node_Next (heap_at s v') x i = Some next.
Proof.
  intros Hh Ht Hi Hx. unfold acquire_load.
  assert (∃ next, Node_Next (heap_at s t) x i = Some next) as [next Hnext].
  { pose proof (history_in _ _ Hh v t i x Ht Hx) as Hxt.
    pose proof (oa_linked _ _ _ _ _ (hi_ok _ _ Hh t ltac:(lia)) i Hi) as Hl.
    apply elem_of_cons in Hxt as [->|Hxt].
    - apply (linked_next _ _ _ []) in Hl. eauto.
    - apply list_elem_of_split in Hxt as (P & Q & E). rewrite E, cons_middle, (assoc_L (++)) in Hl.
      apply linked_next in Hl. rewrite lastof_snoc in Hl. eauto. }
  rewrite Hnext. cbn [mbind option_bind]. do 2 eexists. split; [done|].
  pose proof (last_store_spec (take t (log s)) x i) as Hls.
  assert (Hlog : ∀ u e, (u < t)%nat → log s !! u = Some e → take t (log s) !! u = Some e)
    by (intros u e Hu He; by rewrite lookup_take_lt).
  assert (Hsame : ∀ v', (v ≤ v' ≤ t)%nat →
    (∀ u e, (v' ≤ u < t)%nat → log s !! u = Some e → stores_to x i e = None) →
    Node_Next (heap_at s v') x i = Some next).
  { intros v' Hv' Hno. rewrite <- Hnext. symmetry.
    apply (history_next _ _ Hh); [lia| |done]. by apply (history_in _ _ Hh v); [lia|]. }
  destruct (last_store (take t (log s)) x i) as [[t' o]|].
  - destruct Hls as (Ht' & (e & He & Hst) & Hno). rewrite length_take in Ht'.
    apply lookup_take_Some in He as [He _].
    assert (Hafter : ∀ u e, (t' ≤ u < t)%nat → log s !! u = Some e → stores_to x i e = None)
      by (intros u e' Hu He'; apply (Hno u); [lia|apply Hlog; [lia|done]]).
    destruct o.
    + (* the store is relaxed, so the reader has seen it *)
      assert (t' ≤ v)%nat as Hle.
      { destruct (decide (t' ≤ v)%nat) as [|Hn]; [done|]. exfalso.
        destruct e as [| |o y n w]; [done..|]. cbn in Hst. case_decide as Ey; [|done].
        destruct Ey as [-> ->]. injection Hst as ->.
        apply (gr_relaxed _ _ _ _ _ (hi_grows _ _ Hh _ _ He) x i w eq_refl).
        by apply (history_in _ _ Hh v); [lia|]. }
      split; [lia|]. apply Hsame; [lia|]. intros u e' Hu. apply Hafter. lia.
    + split; [lia|]. apply Hsame; [lia|]. intros u e' Hu. apply Hafter. lia.
  - split; [lia|]. apply Hsame; [lia|]. intros u e Hu He. apply (Hls u), Hlog; [lia|done].
Qed.
End history.

(** ** Searching *)

Lemma sublist_lookup_two {X} (l1 l2 : list X) i j x y :
  l1 `sublist_of` l2 → l1 !! i = Some x → l1 !! j = Some y → (i < j)%nat →
  ∃ i' j', l2 !! i' = Some x ∧ l2 !! j' = Some y ∧ (i' < j')%nat.
Proof.
  intros Hs. revert i j. induction Hs as [|z l1 l2 Hs IH|z l1 l2 Hs IH]; intros i j Hi Hj Hij; [done| |].
  - destruct j as [|j]; [lia|]. cbn in Hj. destruct i as [|i]; cbn in Hi.
    + injection Hi as ->. apply list_elem_of_lookup_2 in Hj.
      eapply sublist_subseteq in Hj; [|done]. apply list_elem_of_lookup in Hj as [j' Hj'].
      exists 0%nat, (S j'). split_and!; [done..|lia].
    + destruct (IH i j Hi Hj) as (i' & j' & ? & ? & ?); [lia|].
      exists (S i'), (S j'). split_and!; [done..|lia].
  - destruct (IH i j Hi Hj Hij) as (i' & j' & ? & ? & ?). exists (S i'), (S j').
    split_and!; [done..|lia].
Qed.

Lemma linked_split {K} (h : gmap Z (Node K)) i hd ys x next :
  linked h i hd ys → x ∈ hd :: ys → Node_Next h x i = Some next →
  ∃ P Q, ys = P ++ Q ∧ x = lastof hd P ∧ next = first Q.
Proof.
  intros Hl Hx Hn.
  assert (∃ P Q, ys = P ++ Q ∧ x = lastof hd P) as (P & Q & -> & ->).
  { apply elem_of_cons in Hx as [->|Hx]; [by exists [], ys|].
    apply list_elem_of_split in Hx as (P & Q & ->). exists (P ++ [x]), Q.
    rewrite lastof_snoc. by rewrite <- (assoc_L (++)). }
  exists P, Q. apply linked_next in Hl. split_and!; congruence.
Qed.

(** At least [n] nodes into the list. *)
Definition far_in (hd : Z) (L : list Z) (x : Z) (n : nat) : Prop :=
  (x = hd ∧ n = 0%nat) ∨ ∃ j, L !! j = Some x ∧ (n ≤ S j)%nat.

Lemma far_in_sublist hd L L' x n : L `sublist_of` L' → far_in hd L x n → far_in hd L' x n.
Proof.
  intros Hs [?|(j & Hj & Hn)]; [by left|right]. revert n j Hj Hn.
  induction Hs as [|z L L' Hs IH|z L L' Hs IH]; intros n j Hj Hn; [done| |].
  - destruct j as [|j]; [exists 0%nat; split; [done|lia]|].
    destruct (IH (pred n) j Hj ltac:(lia)) as (j' & ? & ?). exists (S j'). split; [done|lia].
  - destruct (IH n j Hj Hn) as (j' & ? & ?). exists (S j'). split; [done|lia].
Qed.

Lemma far_in_next hd L P next Q n :
  NoDup (hd :: L) → P ++ next :: Q `sublist_of` L → far_in hd L (lastof hd P) n →
  far_in hd L next (S n).
Proof.
  intros [Hhd Hnd]%NoDup_cons Hs Hn. right. destruct P as [|x P _] using rev_ind.
  - destruct Hn as [[_ ->]|(j & Hj & _)]; [|by destruct Hhd; apply list_elem_of_lookup_2 in Hj].
    assert (next ∈ L) as [j Hj]%list_elem_of_lookup
      by (eapply sublist_subseteq; [done|by left]).
    exists j. split; [done|lia].
  - rewrite lastof_snoc in Hn. rewrite <- (assoc_L (++)) in Hs.
    destruct (sublist_lookup_two _ L (length P) (S (length P)) x next Hs)
      as (i & j & Hi & Hj & Hij); [by rewrite lookup_app_r, Nat.sub_diag by lia| |lia|].
    { rewrite lookup_app_r by lia. by replace (S (length P) - length P)%nat with 1%nat by lia. }
    exists j. split; [done|]. destruct Hn as [[-> _]|(i' & Hi' & Hn)].
    + by destruct Hhd; apply list_elem_of_lookup_2 in Hi.
    + assert (i' = i) as -> by (by eapply NoDup_lookup). lia.
Qed.

Lemma far_in_le hd L x n : far_in hd L x n → (n ≤ length L)%nat.
Proof. intros [[_ ->]|(j & Hj & Hn)]; [lia|]. apply lookup_lt_Some in Hj. lia. Qed.

Section search.
Context {K : Type} (cmp : K → K → option Z) (ok : K → Prop) `{!KeyOrder cmp ok}.
Implicit Types (h : gmap Z (Node K)) (g : goal K) (o : op K) (L : list Z) (ks : list K).

(** Nodes the loop passes, and those it stops at. *)
Definition passes h (hd : Z) g (x : Z) : Prop :=
  match g with
  | AtLeast k | LessThan k => x = hd ∨ ∃ kx, Node_key h x = Some kx ∧ klt cmp kx k
  | _ => True
  end.
Definition stops h g (next : Z) : Prop :=
  match g with
  | AtLeast k | LessThan k => next = 0 ∨ ∃ kn, Node_key h next = Some kn ∧ ¬ klt cmp kn k
  | Last => next = 0
  | Here => True
  end.
Definition goal_ok g : Prop := match g with AtLeast k | LessThan k => ok k | _ => True end.

Lemma cmp_klt a b : ok a → ok b → ∃ c, cmp a b = Some c ∧ (if c <? 0 then klt cmp a b else ¬ klt cmp a b).
Proof using Type*.
  intros Ha Hb. destruct (ko_total a b Ha Hb) as [c Hc]. exists c. split; [done|].
  destruct (Z.ltb_spec c 0); [by exists c|]. intros (c' & Hc' & ?). simplify_eq. lia.
Qed.

Lemma goes_ok h hd g next :
  goal_ok g → next = 0 ∨ next ≠ 0 ∧ (∃ kn, Node_key h next = Some kn ∧ ok kn) →
  ∃ b, goes cmp h g next = Some b ∧
    if (b : bool) then next ≠ 0 ∧ passes h hd g next ∧ g ≠ Here else stops h g next.
Proof using Type*.
  intros Hg Hn. destruct g as [k|k| |]; cbn [goes goal_ok passes stops] in *.
  1,2: destruct Hn as [->|(Hnz & kn & Hkn & Hok)]; [exists false; cbn; auto|];
    destruct (Z.eqb_spec next 0) as [|_]; [done|]; rewrite Hkn; cbn [mbind option_bind];
    destruct (cmp_klt kn k Hok Hg) as (c & -> & Hc); cbn [mbind option_bind].
  - exists (c <? 0). split; [done|]. destruct (c <? 0); eauto 6.
  - exists (c <? 0). split; [by rewrite Z.leb_antisym, negb_involutive|].
    destruct (c <? 0); eauto 6.
  - exists (negb (next =? 0)). split; [done|]. by destruct (Z.eqb_spec next 0).
  - by exists false.
Qed.

Lemma assertion_ok h hd g x :
  goal_ok g → passes h hd g x → x = hd ∨ (∃ kx, Node_key h x = Some kx ∧ ok kx) →
  assertion cmp h hd g x = Some true.
Proof using Type*.
  intros Hg Hp Hx. destruct g as [|k| |]; try done. cbn [assertion goal_ok passes] in *.
  destruct (Z.eqb_spec x hd) as [|Hne]; [done|]. destruct Hp as [|(kx & Hkx & c & Hc & Hc0)]; [done|].
  rewrite Hkx. cbn [mbind option_bind]. rewrite Hc. cbn [mbind option_bind]. f_equal. by apply Z.ltb_lt.
Qed.

(** Where the search ends is where the key belongs. *)
Lemma rank_found h hd P Q ks k :
  NoDup (hd :: P ++ Q) → 0 ∉ P ++ Q → Forall2 (λ x k, Node_key h x = Some k) (P ++ Q) ks →
  Forall ok ks → StronglySorted (klt cmp) ks → ok k →
  passes h hd (AtLeast k) (lastof hd P) → stops h (AtLeast k) (first Q) →
  rank cmp ks k = length P.
Proof using Type*.
  intros Hnd Hz Hkeys Hok Hs Hk Hp Hq. pose proof (rank_lt cmp ok ks k) as Hr.
  assert (Hlen : length (P ++ Q) = length ks) by (by eapply Forall2_length).
  assert (Hat : ∀ j y ky, (P ++ Q) !! j = Some y → Node_key h y = Some ky → ks !! j = Some ky).
  { intros j y ky Hj Hy. destruct (Forall2_lookup_l _ _ _ _ _ Hkeys Hj) as (k' & ? & ?). congruence. }
  apply Nat.le_antisymm.
  - destruct Q as [|q Q].
    + rewrite app_nil_r in Hlen. rewrite Hlen. apply rank_le.
    + destruct Hq as [Hq0|(kn & Hkn & Hn)].
      { destruct Hz. cbn in Hq0. subst q. apply elem_of_app. right. by left. }
      apply Nat.nlt_ge. intros Hlt. apply Hn. apply (Hr (length P)); [done..| |done].
      apply (Hat _ q); [by rewrite list_lookup_middle|done].
  - destruct P as [|x P _] using rev_ind; [cbn; lia|]. rewrite lastof_snoc in Hp.
    destruct Hp as [->|(kx & Hkx & Hlt)].
    { apply NoDup_cons in Hnd as [Hhd _]. destruct Hhd. apply elem_of_app. left.
      apply elem_of_app. right. by left. }
    rewrite length_app. cbn [length]. rewrite Nat.add_1_r. apply Nat.le_succ_l.
    apply (Hr (length P) kx); [done..| |done].
    apply (Hat _ x); [|done]. rewrite <- (assoc_L (++)). by rewrite lookup_app_r, Nat.sub_diag by lia.
Qed.

(** What an operation that begins with the iterator at [from] answers on the list of
    the nodes [L] with the keys [ks]: where the iterator then is, and the result. *)
Definition answer (o : op K) L ks (from node : Z) (b : bool) : Prop :=
  match o with
  | Contains_op k => node = from ∧ b = bool_decide (Exists (keqv cmp k) ks)
  | Seek k => node = cursor L (rank cmp ks k)
  | SeekToFirst => node = cursor L 0
  | SeekToLast => node = match length L with O => 0 | S j => cursor L j end
  | Next => ∃ j, L !! j = Some from ∧ node = cursor L (S j)
  | Prev => ∃ j, L !! j = Some from ∧ node = match j with O => 0 | S i => cursor L i end
  end.

(** What an operation searches for, and from where it loads if it does not search. *)
Definition goal_for h (hd : Z) (o : op K) (from : Z) (L : list Z) g (x : Z) : Prop :=
  match o, g with
  | Contains_op k, AtLeast k' | Seek k, AtLeast k' => k' = k
  | SeekToFirst, Here => x = hd
  | SeekToLast, Last => True
  | Next, Here => x = from ∧ from ∈ L
  | Prev, LessThan k => Node_key h from = Some k ∧ from ∈ L
  | _, _ => False
  end.

Lemma lastof_length hd L P Q : L = P ++ Q → lastof hd P = lastof hd (take (length P) L).
Proof. intros ->. by rewrite take_app_length. Qed.
Lemma first_length L P Q : L = P ++ Q → first Q = cursor L (length P).
Proof. intros ->. unfold cursor. by rewrite <- first_drop, drop_app_length. Qed.

Lemma result_ok m hd gl o g from P Q :
  ok_at cmp ok hd m gl → goal_ok g → g_lists gl 0 = P ++ Q →
  goal_for (m_nodes m) hd o from (g_lists gl 0) g (lastof hd P) →
  passes (m_nodes m) hd g (lastof hd P) → stops (m_nodes m) g (first Q) →
  ∃ node b, result cmp (m_nodes m) hd o from (lastof hd P) (first Q) = Some (node, b)
    ∧ answer o (g_lists gl 0) (g_keys gl) from node b.
Proof using Type*.
  intros Hoa Hg HL Hfor Hp Hs. set (L := g_lists gl 0) in *.
  pose proof (oa_nodup _ _ _ _ _ Hoa) as Hnd. fold L in Hnd.
  apply NoDup_cons in Hnd as [Hz Hnd].
  assert (Hz' : 0 ∉ L) by (intros Hin; apply Hz; by right).
  pose proof Hnd as [Hhd HndL]%NoDup_cons.
  assert (Hlast : ∀ j, j = length P →
    (if lastof hd P =? hd then 0 else lastof hd P) = match j with O => 0 | S i => cursor L i end).
  { intros j ->. rewrite (lastof_length hd L P Q HL). apply lastof_take_cursor; [done|].
    rewrite HL, length_app. lia. }
  assert (Hrank : ∀ k, ok k → passes (m_nodes m) hd (AtLeast k) (lastof hd P) →
    stops (m_nodes m) (AtLeast k) (first Q) → rank cmp (g_keys gl) k = length P).
  { intros k Hk. rewrite HL in Hnd, Hz'. pose proof (oa_keys _ _ _ _ _ Hoa) as Hks. fold L in Hks.
    rewrite HL in Hks. apply (rank_found (m_nodes m) hd P Q); try done; apply Hoa. }
  destruct o as [k|k| | | |], g as [k'|k'| |]; cbn [goal_for answer result] in *; try done.
  - subst k'. pose proof (Equal_at_rank cmp ok (m_nodes m) L (g_keys gl) k Hz'
      (oa_keys _ _ _ _ _ Hoa) (oa_ok _ _ _ _ _ Hoa) (oa_sorted _ _ _ _ _ Hoa) Hg) as E.
    unfold rk in E. rewrite (Hrank k Hg Hp Hs) in E.
    assert (drop (length P) L = Q) as EQ by (by rewrite HL, drop_app_length).
    rewrite EQ in E. rewrite E. cbn [mbind option_bind]. eauto.
  - subst k'. do 2 eexists. split; [done|]. by rewrite (Hrank k Hg Hp Hs), <- (first_length L P Q).
  - do 2 eexists. split; [done|]. rewrite (first_length L P Q HL).
    destruct (lastof_in hd P) as [[_ ->]|Hin]; [done|]. destruct Hhd. rewrite Hfor in Hin.
    rewrite HL. apply elem_of_app. by left.
  - do 2 eexists. split; [done|]. apply (Hlast (length L)). rewrite HL.
    destruct Q as [|q Q]; [by rewrite app_nil_r|]. destruct Hz'. cbn in Hs. subst q.
    rewrite HL. apply elem_of_app. right. by left.
  - destruct Hfor as [Hx Hin]. do 2 eexists. split; [done|]. rewrite (first_length L P Q HL).
    destruct P as [|y P _] using rev_ind; [cbn in Hx; by subst from|].
    rewrite lastof_snoc in Hx. subst y. exists (length P). rewrite length_app, Nat.add_1_r.
    split; [|done]. rewrite HL, <- (assoc_L (++)). by rewrite lookup_app_r, Nat.sub_diag by lia.
  - destruct Hfor as [Hk Hin]. do 2 eexists. split; [done|].
    apply list_elem_of_lookup in Hin as [j Hj]. exists j. split; [done|]. apply Hlast.
    rewrite <- (Hrank k' Hg Hp Hs). symmetry.
    apply rank_self with ok; [exact KeyOrder0|apply Hoa..|].
    destruct (Forall2_lookup_l _ _ _ _ _ (oa_keys _ _ _ _ _ Hoa) Hj) as (k & Hkj & Hkey). congruence.
Qed.
End search.

(** ** Readers and the writer together *)
Section system.
Context {K : Type} (cmp : K → K → option Z) (ok : K → Prop) `{!KeyOrder cmp ok}.
Context {A : Type} `{NodeAllocator A} (inv : A → gset Z → Prop) `{!NodeAllocatorLaws A inv}.
Implicit Types (s : System K A) (gs : nat → @levels K) (r : ListReader K) (g : goal K).
#[local] Abbreviation history := (history cmp ok).

(** *** A reader *)

Definition place_ok s gs r : Prop :=
  let h := heap_at s (view r) in
  let L := g_lists (gs (view r)) in
  match place_ r with
  | Idle => loads r = 0%nat
  | Height g => node_ r = from r ∧ loads r = 0%nat ∧ goal_ok ok g ∧ g ≠ Here ∧
      goal_for h (head s) (doing r) (from r) (L 0%nat) g (head s)
  | At g x level => node_ r = from r ∧ goal_ok ok g ∧ (level < kMaxHeight)%nat ∧
      goal_for h (head s) (doing r) (from r) (L 0%nat) g x ∧ x ∈ head s :: L level ∧
      passes cmp h (head s) g x ∧ (g = Here → level = 0%nat) ∧
      ∃ n, far_in (head s) (g_lists (gs (now s)) 0) x n ∧ (loads r + level < kMaxHeight + n)%nat
  | Returned b => (loads r ≤ kMaxHeight + length (g_lists (gs (now s)) 0))%nat ∧
      ∃ t, (since r ≤ t ≤ view r)%nat ∧
        answer cmp (doing r) (g_lists (gs t) 0) (g_keys (gs t)) (from r) (node_ r) b
  | Faulted => False
  end.

Record reader_ok s gs r : Prop := {
  ro_since : (since r ≤ view r ≤ now s)%nat;
  ro_node : node_ r = 0 ∨ node_ r ∈ g_lists (gs (view r)) 0;
  ro_place : place_ok s gs r
}.

Lemma goal_for_mono h h' hd o (fr : Z) L L' g x :
  (∀ y k, Node_key (K := K) h y = Some k → Node_key h' y = Some k) → L ⊆ L' →
  goal_for h hd o fr L g x → goal_for h' hd o fr L' g x.
Proof using Type. intros Hk HL. destruct o, g; cbn; naive_solver. Qed.

Lemma goal_for_other h hd o (fr : Z) L g x y :
  g ≠ Here → goal_for (K := K) h hd o fr L g x → goal_for h hd o fr L g y.
Proof using Type. intros Hg. by destruct o, g. Qed.

Lemma passes_mono h h' hd g x :
  (∀ y k, Node_key (K := K) h y = Some k → Node_key h' y = Some k) →
  passes cmp h hd g x → passes cmp h' hd g x.
Proof using Type. intros Hk. destruct g; cbn; naive_solver. Qed.

Lemma answer_node o L ks (fr node : Z) b :
  answer cmp o L ks fr node b → node = fr ∨ node = 0 ∨ node ∈ L.
Proof using Type.
  assert (Hc : ∀ j, cursor L j = 0 ∨ cursor L j ∈ L).
  { intros j. unfold cursor. destruct (L !! j) eqn:E; [right|by left].
    by eapply list_elem_of_lookup_2. }
  destruct o; cbn; intros Ha; try (subst node; auto; fail).
  - left. apply Ha.
  - right. subst node. destruct (length L); auto.
  - destruct Ha as (j & _ & ->). auto.
  - destruct Ha as ([|j] & _ & ->); auto.
Qed.

Section reader.
Context s gs (Hh : history s gs).

Lemma node_facts t i x :
  (t ≤ now s)%nat → x ∈ g_lists (gs t) i →
  x ≠ 0 ∧ x ≠ head s ∧ ∃ k, Node_key (heap_at s t) x = Some k ∧ ok k.
Proof using Hh.
  intros Ht Hx. pose proof (hi_ok _ _ _ _ Hh t Ht) as Hoa.
  eapply sublist_subseteq in Hx; [|apply (oa_sub _ _ _ _ _ Hoa i 0); lia].
  pose proof (oa_nodup _ _ _ _ _ Hoa) as [Hz [Hhd _]%NoDup_cons]%NoDup_cons.
  split; [by intros ->; apply Hz; right|]. split; [by intros ->|].
  apply list_elem_of_lookup in Hx as [j Hj].
  destruct (Forall2_lookup_l _ _ _ _ _ (oa_keys _ _ _ _ _ Hoa) Hj) as (k & Hkj & Hkey).
  exists k. split; [done|]. pose proof (oa_ok _ _ _ _ _ Hoa) as Hok. rewrite Forall_lookup in Hok.
  by eapply Hok.
Qed.

Lemma key_later t t' : (t ≤ t' ≤ now s)%nat →
  ∀ y k, Node_key (heap_at s t) y = Some k → Node_key (heap_at s t') y = Some k.
Proof using Hh. intros Ht y k. by apply (history_key _ _ _ _ Hh). Qed.

Lemma list_later t t' : (t ≤ t' ≤ now s)%nat → g_lists (gs t) 0 ⊆ g_lists (gs t') 0.
Proof using Hh. intros Ht. by apply sublist_subseteq, (history_lists _ _ _ _ Hh). Qed.

Lemma Reader_begin_ok r o r' :
  reader_ok s gs r → op_ok ok o → Reader_begin s r o = Some r' → reader_ok s gs r'.
Proof using Type*.
  intros [Hs Hn Hp] Ho Hb. unfold Reader_begin in Hb.
  assert (Hb' : ∃ p, entry s r o = Some p ∧ r' = {| view := view r; node_ := node_ r; doing := o;
    place_ := p; since := view r; from := node_ r; loads := 0 |}).
  { destruct (place_ r); try done; apply bind_Some in Hb as (p & ? & [= <-]); eauto. }
  destruct Hb' as (p & He & ->). clear Hb. split; cbn [view since node_]; [lia|done|].
  assert (Hvalid : Iter_Valid (node_ r) = true → node_ r ∈ g_lists (gs (view r)) 0).
  { intros Hv. destruct Hn as [E|]; [by rewrite E in Hv|done]. }
  pose proof (node_facts (view r) 0) as Hf.
  unfold place_ok. cbn [place_ view node_ from loads doing].
  assert (Hfar : far_in (head s) (g_lists (gs (now s)) 0) (head s) 0) by (by left).
  destruct o; cbn [entry] in He; cbn [op_ok] in Ho.
  - injection He as <-. by split_and!.
  - injection He as <-. by split_and!.
  - injection He as <-. split_and!; try done; [unfold kMaxHeight; lia|by left|].
    exists 0%nat. unfold kMaxHeight. split; [done|lia].
  - injection He as <-. by split_and!.
  - destruct (Iter_Valid (node_ r)) eqn:Ev; [|done]. injection He as <-. specialize (Hvalid eq_refl).
    split_and!; try done; [unfold kMaxHeight; lia|by right|].
    exists 0%nat. unfold kMaxHeight. split; [|lia]. right.
    pose proof (list_later (view r) (now s) ltac:(lia) _ Hvalid) as [j Hj]%list_elem_of_lookup.
    exists j. split; [done|lia].
  - destruct (Iter_Valid (node_ r)) eqn:Ev; [|done]. specialize (Hvalid eq_refl).
    apply bind_Some in He as (k & Hk & [= <-]).
    destruct (Hf _ ltac:(lia) Hvalid) as (_ & _ & k' & Hk' & Hok).
    assert (k' = k) as -> by congruence. by split_and!.
Qed.

Lemma Reader_load_ok r g x level t :
  reader_ok s gs r → place_ r = At g x level → (view r ≤ t ≤ now s)%nat →
  ∃ r', Reader_load cmp s r g x level t = Some r' ∧ reader_ok s gs r'.
Proof using Type*.
  intros [Hs Hn Hp] E Ht. unfold place_ok in Hp. rewrite E in Hp.
  destruct Hp as (Hfrom & Hg & Hlv & Hfor & Hx & Hpass & Hhere & n & Hfar & Hloads).
  unfold Reader_load.
  assert (Hxf : x = head s ∨ ∃ k, Node_key (heap_at s (view r)) x = Some k ∧ ok k).
  { apply elem_of_cons in Hx as [->|Hx]; [by left|right].
    destruct (node_facts (view r) level x) as (_ & _ & ?); [lia|done..]. }
  rewrite (assertion_ok cmp ok) by done. cbn [mbind option_bind].
  destruct (acquire_load_ok cmp ok s gs (view r) t x level Hh Ht Hlv Hx)
    as (next & v & -> & Hv & Hnext). cbn [mbind option_bind].
  pose proof (hi_ok _ _ _ _ Hh v ltac:(lia)) as Hoa.
  pose proof (history_in _ _ _ _ Hh (view r) v level x ltac:(lia) Hx) as Hxv.
  destruct (linked_split _ level (head s) _ x next (oa_linked _ _ _ _ _ Hoa level Hlv) Hxv Hnext)
    as (P & Q & HPQ & Hxl & Hnl).
  assert (Hnf : next = 0 ∨ next ≠ 0 ∧ (∃ kn, Node_key (heap_at s v) next = Some kn ∧ ok kn)).
  { destruct Q as [|q Q]; [by left|right]. cbn in Hnl. subst q.
    destruct (node_facts v level next) as (? & _ & ?); [lia| |done].
    rewrite HPQ. apply elem_of_app. right. by left. }
  destruct (goes_ok cmp ok (heap_at s v) (head s) g next Hg Hnf) as (b & -> & Hb).
  cbn [mbind option_bind].
  assert (Hfor' : goal_for (heap_at s v) (head s) (doing r) (from r) (g_lists (gs v) 0) g x).
  { eapply goal_for_mono; [by apply (key_later (view r)); lia|by apply (list_later (view r)); lia|done]. }
  assert (Hpass' : passes cmp (heap_at s v) (head s) g x)
    by (eapply passes_mono; [by apply (key_later (view r)); lia|done]).
  assert (Hnode : node_ r = 0 ∨ node_ r ∈ g_lists (gs v) 0)
    by (destruct Hn; [by left|right; by apply (list_later (view r)); [lia|]]).
  destruct b.
  - destruct Hb as (Hnz & Hpn & Hgh). eexists. split; [done|].
    destruct Q as [|q Q]; [done|]. cbn in Hnl. subst q.
    split; cbn [view since node_ move]; [lia|done|].
    unfold place_ok. cbn [view node_ place_ from doing loads move]. split_and!; try done.
    + by eapply goal_for_other.
    + right. rewrite HPQ. apply elem_of_app. right. by left.
    + exists (S n). split; [|lia]. rewrite Hxl in Hfar.
      pose proof (hi_ok _ _ _ _ Hh (now s) ltac:(lia)) as Hnow.
      pose proof (oa_nodup _ _ _ _ _ Hnow) as [_ Hnd]%NoDup_cons.
      apply (far_in_next _ _ P next Q); [done| |done]. rewrite <- HPQ.
      etrans; [apply (oa_sub _ _ _ _ _ Hoa level 0); lia|].
      apply (history_lists _ _ _ _ Hh). lia.
  - destruct level as [|level].
    + subst x next.
      destruct (result_ok cmp ok (mem_at s v) (head s) (gs v) (doing r) g (from r) P Q Hoa Hg HPQ Hfor'
                  Hpass' Hb) as (node & b & Er & Ha).
      rewrite Hfrom. unfold heap_at. rewrite Er. cbn [mbind option_bind]. eexists. split; [done|].
      split; cbn [view since node_ move]; [lia| |].
      * destruct (answer_node _ _ _ _ _ _ Ha) as [->|[->|?]]; [by rewrite <- Hfrom|by left|by right].
      * unfold place_ok. cbn [view node_ place_ from doing loads since move].
        pose proof (far_in_le _ _ _ _ Hfar). split; [lia|]. exists v. split; [lia|done].
    + eexists. split; [done|]. split; cbn [view since node_ move]; [lia|done|].
      unfold place_ok. cbn [view node_ place_ from doing loads move]. split_and!; try done; [lia| | |].
      * by apply (lower _ _ _ _ Hh v (S level)); [lia|lia|].
      * intros Hgh. by specialize (Hhere Hgh).
      * exists n. split; [done|lia].
Qed.

Lemma Reader_height_ok r g t :
  reader_ok s gs r → place_ r = Height g → (view r ≤ t ≤ now s)%nat →
  ∃ r', Reader_height s r g t = Some r' ∧ reader_ok s gs r'.
Proof using Type*.
  intros [Hs Hn Hp] E Ht. unfold place_ok in Hp. rewrite E in Hp.
  destruct Hp as (Hfrom & Hloads & Hg & Hgh & Hfor). unfold Reader_height.
  pose proof (oa_height _ _ _ _ _ (hi_ok _ _ _ _ Hh t ltac:(lia))) as Hm.
  destruct (m_height (mem_at s t)) as [|level]; [lia|]. eexists. split; [done|].
  split; cbn [view since node_ move]; [lia|done|].
  unfold place_ok. cbn [view node_ place_ from doing loads move]. split_and!; try done; [lia|by left| |].
  - destruct g; try done; by left.
  - exists 0%nat. split; [by left|]. lia.
Qed.

(** A busy reader is never stuck and does not fault. *)
Lemma Reader_step_ok r t :
  reader_ok s gs r → busy r = true → (view r ≤ t ≤ now s)%nat →
  ∃ r', Reader_step cmp s r t = Some r' ∧ reader_ok s gs r'.
Proof using Type*.
  intros Hr Hb Ht. unfold Reader_step.
  rewrite (proj2 (Nat.leb_le _ _)), (proj2 (Nat.leb_le _ _)) by lia. cbn [andb].
  unfold busy in Hb. destruct (place_ r) as [|g|g x level| |] eqn:E; try done.
  - destruct (Reader_height_ok r g t Hr E Ht) as (r' & -> & Hr'). eauto.
  - destruct (Reader_load_ok r g x level t Hr E Ht) as (r' & -> & Hr'). eauto.
Qed.

Lemma Reader_step_inv r t r' :
  Reader_step cmp s r t = Some r' → busy r = true ∧ (view r ≤ t ≤ now s)%nat.
Proof using Type.
  unfold Reader_step. destruct (_ && _)%nat eqn:E; [|done].
  apply andb_true_iff in E as [?%Nat.leb_le ?%Nat.leb_le]. unfold busy.
  by destruct (place_ r).
Qed.

Lemma Reader_sync_ok r v :
  reader_ok s gs r → busy r = false → (view r ≤ v ≤ now s)%nat →
  reader_ok s gs (move r v (node_ r) (place_ r) (loads r)).
Proof using Type*.
  intros [Hs Hn Hp] Hb Hv. split; cbn [view since node_ move]; [lia| |].
  - destruct Hn; [by left|right]. by apply (list_later (view r)); [lia|].
  - unfold place_ok in *. unfold busy in Hb. cbn [view node_ place_ from doing loads since move].
    destruct (place_ r); try done. destruct Hp as (? & t & ? & ?). split; [done|].
    exists t. split; [lia|done].
Qed.
End reader.

(** A store of the writer changes nothing a reader has seen. *)
Lemma reader_ok_store s s' gs gs' r :
  (∀ t, (t ≤ now s)%nat → mem_at s' t = mem_at s t ∧ gs' t = gs t) → head s' = head s →
  (now s ≤ now s')%nat → history s' gs' → reader_ok s gs r → reader_ok s' gs' r.
Proof using Type.
  intros Hsame Hhd Hnow Hh [Hs Hn Hp]. destruct (Hsame (view r)) as [Em Eg]; [lia|].
  pose proof (history_lists _ _ _ _ Hh (now s) (now s') 0 ltac:(lia)) as Hsub.
  rewrite (proj2 (Hsame (now s) ltac:(lia))) in Hsub.
  split; [lia|by rewrite Eg|]. unfold place_ok in *. unfold heap_at in *. rewrite Em, Eg, Hhd.
  destruct (place_ r); try done.
  - destruct Hp as (? & ? & ? & ? & ? & ? & ? & n & Hfar & ?). split_and!; try done.
    exists n. split; [by eapply far_in_sublist|done].
  - apply sublist_length in Hsub. destruct Hp as (Hl & t & Ht & Ha). split; [lia|].
    exists t. split; [lia|]. rewrite (proj2 (Hsame t ltac:(lia))). done.
Qed.

(** Nor does what changes only the writer's part, or another reader. *)
Lemma history_same s s' gs :
  start s' = start s → log s' = log s → head s' = head s → history s gs → history s' gs.
Proof using Type.
  intros E1 E2 E3 [Hok Hgr]. split; unfold now, mem_at in *; rewrite ?E1, ?E2, ?E3; done.
Qed.

Lemma reader_ok_same s s' gs r :
  start s' = start s → log s' = log s → head s' = head s → history s gs →
  reader_ok s gs r → reader_ok s' gs r.
Proof using Type.
  intros E1 E2 E3 Hh. apply reader_ok_store; [|done| |by apply (history_same s)].
  - intros t _. unfold mem_at. by rewrite E1, E2.
  - unfold now. by rewrite E2.
Qed.

(** *** The writer *)

(** What remains of the insertion leads to a list in order; [ks0] are the keys of
    the start. *)
Definition writer_ok (ks0 : list K) s (gl : levels) : Prop :=
  ∃ (l' : SkipList K) (g' : levels), grow_through cmp ok (head s) (mem_at s (now s)) gl (pending s) (memory_of l') g'
    ∧ head_ l' = head s ∧ rnd_ l' = rnd s ∧ settled cmp ok l' g' ∧ owned inv (arena s) l'
    ∧ (∀ k, k ∈ g_keys g' → k ∈ ks0 ∨ ∃ b e, (k, b, e) ∈ inserts s)
    ∧ ∀ k b e, (k, b, e) ∈ inserts s → (b ≤ now s)%nat ∧ k ∈ g_keys g'
        ∧ (e ≤ now s ∨ e = now s + length (pending s))%nat.

(** The keys of the list at each moment: those inserted before, and perhaps those
    being inserted. *)
Record inserts_ok (ks0 : list K) s gs : Prop := {
  io_start : ks0 ⊆ g_keys (gs 0%nat);
  io_done k b e t : (k, b, e) ∈ inserts s → (e ≤ t ≤ now s)%nat → k ∈ g_keys (gs t);
  io_only t k : (t ≤ now s)%nat → k ∈ g_keys (gs t) →
    k ∈ ks0 ∨ ∃ b e, (k, b, e) ∈ inserts s ∧ (b < t)%nat
}.

Record system_ok (ks0 : list K) s gs : Prop := {
  so_history : history s gs;
  so_writer : writer_ok ks0 s (gs (now s));
  so_inserts : inserts_ok ks0 s gs;
  so_readers : Forall (reader_ok s gs) (readers s)
}.

(** Between insertions. *)
Lemma writer_idle ks0 s gl :
  writer_ok ks0 s gl → pending s = [] →
  settled cmp ok (list_now s) gl ∧ owned inv (arena s) (list_now s).
Proof using Type.
  intros (l' & g' & Hg & Hhd & Hr & Hset & How & _) E. rewrite E in Hg.
  apply grow_through_end in Hg as Hend. cbn in Hend. destruct Hend as [Hm _].
  assert (list_now s = l') as ->.
  { unfold list_now, heap_at. rewrite <- Hm, <- Hhd, <- Hr. by destruct l'. }
  inversion Hg; subst. done.
Qed.

Lemma Insert_begin_ok ks0 s gs key :
  system_ok ks0 s gs → pending s = [] → ok key →
  Forall (λ k, ¬ keqv cmp key k) (g_keys (gs (now s))) →
  ∃ s', Insert_begin cmp s key = Some s' ∧ system_ok ks0 s' gs.
Proof using Type*.
  intros [Hh Hw Hi Hr] E Hk Hne. destruct (writer_idle _ _ _ Hw E) as [Hset How].
  destruct (Insert_stores_grow cmp ok inv (arena s) (list_now s) (gs (now s)) key Hset How Hk Hne)
    as (ar' & es & l' & g' & Hst & _ & Hhd & Hg & Hset' & How' & Hkeys).
  assert (memory_of (list_now s) = mem_at s (now s)) as Em
    by (unfold memory_of, list_now, heap_at; cbn; by destruct (mem_at s (now s))).
  rewrite Em in Hg. unfold Insert_begin. rewrite E, Hst. cbn [mbind option_bind]. eexists. split; [done|].
  destruct Hw as (l0 & g0 & Hg0 & _ & _ & _ & _ & Hold & Hins). rewrite E in Hg0.
  inversion Hg0; subst.
  split; [by apply (history_same s)| | |eapply Forall_impl; [done|]; intros r; by apply reader_ok_same].
  - exists l', g'. split_and!; try done.
    + rewrite Hkeys. intros k. rewrite insert_at_perm. cbn [inserts].
      intros [->|Hk']%elem_of_cons.
      * right. do 2 eexists. apply elem_of_app. right. by left.
      * destruct (Hold k Hk') as [|(b & e & ?)]; [by left|right]. exists b, e.
        apply elem_of_app. by left.
    + cbn [inserts pending]. intros k b e [Hin|Hin%list_elem_of_singleton]%elem_of_app.
      * destruct (Hins k b e Hin) as (Hb & Hkin & He). rewrite E in He. cbn in He.
        split; [done|]. split; [rewrite Hkeys, insert_at_perm; by right|].
        left. unfold now in *. cbn in *. lia.
      * injection Hin as -> -> ->. split; [done|].
        split; [rewrite Hkeys, insert_at_perm; by left|by right].
  - destruct Hi as [Hstart Hdone Honly]. split; [done|..]; cbn [inserts]; intros *.
    + intros [Hin|Hin%list_elem_of_singleton]%elem_of_app Ht; [by eapply Hdone|].
      injection Hin as -> -> ->. unfold now in Ht. cbn in Ht. change (length (log s)) with (now s) in Ht.
      assert (t = now s) as -> by lia. destruct es; [|cbn in Ht; lia].
      inversion Hg; subst. rewrite Hkeys, insert_at_perm. by left.
    + intros Ht Hin. destruct (Honly t k Ht Hin) as [|(b & e & ? & ?)]; [by left|right].
      exists b, e. split; [|done]. apply elem_of_app. by left.
Qed.

(** An insertion that begins is of a new key. *)
Lemma Insert_begin_new ks0 s gs key s' :
  system_ok ks0 s gs → ok key → Insert_begin cmp s key = Some s' →
  pending s = [] ∧ Forall (λ k, ¬ keqv cmp key k) (g_keys (gs (now s))).
Proof using Type*.
  intros [_ Hw _ _] Hk Hb. unfold Insert_begin in Hb. destruct (pending s) eqn:E; [|done].
  split; [done|]. destruct (writer_idle _ _ _ Hw E) as [[Hsl _] _].
  apply bind_Some in Hb as (y & Hy & _). apply Stdlib.Lists.List.Forall_Exists_neg. intros He.
  unfold Insert_stores, Insert_prepare in Hy.
  destruct (FindGreaterOrEqual_eq cmp ok (list_now s) _ _ Hsl key (Some (replicate kMaxHeight 0)) Hk)
    as (pv & Ef & Hpv); [by intros ? [= <-]|]. rewrite Ef in Hy.
  destruct (Hpv ltac:(eauto)) as (prev & -> & _). cbn [mbind option_bind] in Hy.
  rewrite (Equal_found cmp ok (list_now s) _ _ key Hsl Hk) in Hy. by rewrite bool_decide_eq_true_2 in Hy.
Qed.

(** The levels of a history with one more store. *)
Definition extend gs (n : nat) (gl : levels) : nat → levels :=
  λ t, if decide (t ≤ n)%nat then gs t else gl.

Lemma Writer_store_ok ks0 s gs s' :
  system_ok ks0 s gs → Writer_store s = Some s' → ∃ gs', system_ok ks0 s' gs'.
Proof using Type*.
  intros [Hh Hw Hi Hr] Hs. unfold Writer_store in Hs.
  destruct (pending s) as [|e es] eqn:E; [done|]. injection Hs as <-. set (s' := {| start := _ |}).
  destruct Hw as (l' & g' & Hg & Hhd & Hrn & Hset & How & Hold & Hins). rewrite E in Hg.
  inversion Hg as [|? ? ? g1 ? ? ? Hok Hgr Hgt]; subst.
  set (gs' := extend gs (now s) g1).
  assert (Hnow : now s' = S (now s)) by (unfold now, s'; cbn; rewrite length_app; cbn; lia).
  assert (Hlog : log s' !! now s = Some e)
    by (unfold s', now; cbn; by rewrite lookup_app_r, Nat.sub_diag by lia).
  assert (Hsame : ∀ t, (t ≤ now s)%nat → mem_at s' t = mem_at s t ∧ gs' t = gs t).
  { intros t Ht. unfold gs', extend. rewrite decide_True by done. split; [|done].
    unfold mem_at, s'. cbn. by rewrite take_app_le. }
  assert (Hlast : mem_at s' (S (now s)) = apply (mem_at s (now s)) e ∧ gs' (S (now s)) = g1).
  { rewrite (mem_at_S s' (now s) e Hlog), (proj1 (Hsame (now s) ltac:(lia))). split; [done|].
    unfold gs', extend. by rewrite decide_False by lia. }
  destruct Hlast as [Hm1 Hg1].
  assert (Hh' : history s' gs').
  { split.
    - intros t Ht. destruct (decide (t ≤ now s)%nat) as [Hle|Hgt'].
      + destruct (Hsame t Hle) as [-> ->]. by apply (hi_ok _ _ _ _ Hh).
      + replace t with (S (now s)) by lia. rewrite Hm1, Hg1. by eapply grow_through_ok.
    - intros t e' He'. pose proof (lookup_lt_Some _ _ _ He') as Hlt.
      change (length (log s')) with (now s') in Hlt.
      destruct (decide (t = now s)) as [->|Hne].
      + rewrite He' in Hlog. injection Hlog as ->. rewrite Hg1.
        destruct (Hsame (now s) ltac:(lia)) as [-> ->]. done.
      + destruct (Hsame t ltac:(lia)) as [-> ->]. rewrite (proj2 (Hsame (S t) ltac:(lia))).
        apply (hi_grows _ _ _ _ Hh). unfold s' in He'. cbn in He'.
        rewrite lookup_app_l in He' by (unfold now in *; lia). done. }
  exists gs'. split; [done| | |].
  - rewrite Hnow, Hg1. exists l', g'. rewrite Hnow, Hm1. split_and!; try done.
    intros k b e' Hin. destruct (Hins k b e' Hin) as (Hb & Hk & He). rewrite E in He.
    split; [lia|]. split; [done|]. cbn [length] in He. change (pending s') with es. lia.
  - destruct Hi as [Hstart Hdone Honly]. split.
    + by rewrite (proj2 (Hsame 0%nat ltac:(lia))).
    + intros k b e' t Hin Ht. destruct (decide (t ≤ now s)%nat) as [Hle|Hgt'].
      { rewrite (proj2 (Hsame t Hle)). eapply Hdone; [done|lia]. }
      replace t with (S (now s)) by lia. rewrite Hg1.
      destruct (Hins k b e' Hin) as (_ & Hk & He). rewrite E in He. cbn [length] in He.
      destruct He as [He|He].
      * apply (gr_keys _ _ _ _ _ Hgr). eapply Hdone; [done|lia].
      * assert (es = []) as Ees by (destruct es; [done|cbn in He; lia]).
        clear -Hgt Hk Ees. rewrite Ees in Hgt. by inversion Hgt; subst.
    + intros t k Ht Hk. destruct (decide (t ≤ now s)%nat) as [Hle|Hgt'].
      { rewrite (proj2 (Hsame t Hle)) in Hk. by apply Honly. }
      replace t with (S (now s)) in * by lia. rewrite Hg1 in Hk.
      apply grow_through_end in Hgt as [_ Hincl]. destruct (Hold k (Hincl k Hk)) as [|(b & e' & Hin)].
      { by left. }
      right. exists b, e'. split; [done|]. destruct (Hins k b e' Hin) as [? _]. lia.
  - eapply Forall_impl; [exact Hr|]. intros r. apply reader_ok_store; [done|done|lia|done].
Qed.

Lemma System_start_ok ar l L ks n :
  SL cmp ok l L ks → owned inv ar l → ∃ gs, system_ok ks (System_start ar l n) gs.
Proof using Type.
  intros Hsl How. set (gl := {| g_lists := λ i, lvl (nodes l) i L; g_keys := ks |}).
  assert (HL : g_lists gl 0 = L) by by apply (lvl_zero cmp ok l L ks Hsl).
  assert (Hset : settled cmp ok l gl) by (split; rewrite HL; [done|by intros]).
  pose proof (settled_ok cmp ok l gl Hset) as Hok.
  exists (λ _, gl). split.
  - split; [|done]. intros t Ht. unfold mem_at. cbn. by rewrite take_nil.
  - exists l, gl. split_and!; try done; [by apply grow_nil|by left|by intros ??? ?%elem_of_nil].
  - split; [done|by intros ???? ?%elem_of_nil|by left].
  - apply Forall_replicate. split; cbn; [lia|by left|done].
Qed.

Lemma step_ok ks0 s gs s' :
  system_ok ks0 s gs → step cmp ok s s' → ∃ gs', system_ok ks0 s' gs'.
Proof using Type*.
  intros Hsys Hst. destruct (Hsys) as [Hh Hw Hi Hr].
  assert (Hset : ∀ i r', reader_ok s gs r' → system_ok ks0 (set_reader s i r') gs).
  { intros i r' Hr'. split; [by apply (history_same s)|done|by destruct Hi|].
    apply Forall_insert; [eapply Forall_impl; [exact Hr|]; intros r|]; by apply (reader_ok_same s). }
  rewrite Forall_lookup in Hr. destruct Hst as [key s' Hk Hb|s' Hb|i r o r' Hi' Ho Hb|i r t r' Hi' Hb|i r v Hi' Hb Hv].
  - destruct (Insert_begin_new ks0 s gs key s' Hsys Hk Hb) as [E Hne].
    destruct (Insert_begin_ok ks0 s gs key Hsys E Hk Hne) as (s1 & Hb1 & Hs1). exists gs. congruence.
  - by eapply Writer_store_ok.
  - exists gs. apply Hset. eapply Reader_begin_ok; [done|by eapply Hr|done|done].
  - exists gs. apply Hset. destruct (Reader_step_inv s r t r' Hb) as [Hbu Ht].
    destruct (Reader_step_ok s gs Hh r t) as (r1 & Hb1 & Hr1); [by eapply Hr|done..|]. congruence.
  - exists gs. apply Hset. apply Reader_sync_ok; [done|by eapply Hr|done|done].
Qed.

Lemma reachable_ok ar l L ks n s :
  SL cmp ok l L ks → owned inv ar l → rtc (step cmp ok) (System_start ar l n) s →
  ∃ gs, system_ok ks s gs.
Proof using Type*.
  intros Hsl How Hrtc. pose proof (System_start_ok ar l L ks n Hsl How) as Hs.
  revert Hs. induction Hrtc as [s|s1 s2 s3 Hst _ IH]; [done|]. intros [gs Hs].
  apply IH. by eapply step_ok.
Qed.

(** C3: readers need no lock.  One thread inserts while any number of others search,
    under the memory orders of the code.  At every moment the lowest level is a
    sorted list, which has every key whose insertion has returned and no key whose
    insertion has not begun; between insertions all levels are in order, and every
    new key can be inserted.  A reader never faults or trips an assertion: it never
    reads a slot or a node that is not initialised.  It can always go on, whichever
    values its loads return, and an operation makes at most [kMaxHeight] loads more
    than there are entries.  When it returns, its result and the position of its
    iterator are what the operation gives on the list as it was at one moment: not
    earlier than what the reader had seen when it began, and not later than what it
    has seen now. *)
Theorem readers_linearize ar l L ks n s :
  SL cmp ok l L ks → owned inv ar l → rtc (step cmp ok) (System_start ar l n) s →
  ∃ (lists : nat → list Z) (keys : nat → list K),
  (∀ t, (t ≤ now s)%nat →
     linked (heap_at s t) 0 (head s) (lists t)
     ∧ Forall2 (λ x k, Node_key (heap_at s t) x = Some k) (lists t) (keys t)
     ∧ StronglySorted (klt cmp) (keys t) ∧ ks ⊆ keys t
     ∧ (∀ k b e, (k, b, e) ∈ inserts s → (e ≤ t)%nat → k ∈ keys t)
     ∧ ∀ k, k ∈ keys t → k ∈ ks ∨ ∃ b e, (k, b, e) ∈ inserts s ∧ (b < t)%nat)
  ∧ (pending s = [] →
     SL cmp ok (list_now s) (lists (now s)) (keys (now s))
     ∧ ∀ key, ok key → Forall (λ k, ¬ keqv cmp key k) (keys (now s)) →
         is_Some (Insert_begin cmp s key))
  ∧ ∀ i r, readers s !! i = Some r →
     place_ r ≠ Faulted ∧ (loads r ≤ kMaxHeight + length (keys (now s)))%nat
     ∧ (busy r = true → ∀ t, (view r ≤ t ≤ now s)%nat → is_Some (Reader_step cmp s r t))
     ∧ ∀ b, place_ r = Returned b → ∃ t, (since r ≤ t ≤ view r)%nat ∧ (view r ≤ now s)%nat
         ∧ answer cmp (doing r) (lists t) (keys t) (from r) (node_ r) b.
Proof using Type*.
  intros Hsl How Hrtc. destruct (reachable_ok ar l L ks n s Hsl How Hrtc) as [gs Hsys].
  destruct (Hsys) as [Hh Hw [Hstart Hdone Honly] Hr].
  exists (λ t, g_lists (gs t) 0), (λ t, g_keys (gs t)). split_and!.
  - intros t Ht. pose proof (hi_ok _ _ _ _ Hh t Ht) as Hoa. split_and!; try apply Hoa.
    + unfold kMaxHeight. lia.
    + etrans; [exact Hstart|]. apply (history_keys _ _ _ _ Hh). lia.
    + intros k b e Hin He. by eapply Hdone.
    + intros k. by apply Honly.
  - intros E. split; [by apply (writer_idle ks s)|]. intros key Hk Hne.
    destruct (Insert_begin_ok ks s gs key Hsys E Hk Hne) as (s' & -> & _). by eexists.
  - intros i r Hi. rewrite Forall_lookup in Hr. pose proof (Hr i r Hi) as Hri.
    destruct (Hri) as [Hs _ Hp]. unfold place_ok in Hp.
    pose proof (Forall2_length _ _ _ (oa_keys _ _ _ _ _ (hi_ok _ _ _ _ Hh (now s) ltac:(lia)))) as Hlen.
    split_and!.
    + intros E. by rewrite E in Hp.
    + destruct (place_ r); try lia.
      destruct Hp as (_ & _ & _ & _ & _ & _ & _ & m & Hfar & Hl). pose proof (far_in_le _ _ _ _ Hfar). lia.
    + intros Hb t Ht. destruct (Reader_step_ok s gs Hh r t Hri Hb Ht) as (r' & -> & _). by eexists.
    + intros b E. rewrite E in Hp. destruct Hp as (_ & t & Ht & Ha). exists t. split_and!; [lia..|done].
Qed.
End system.

(** ** A run *)

Inductive action := DoInsert (key : Z) | DoStore | DoBegin (o : op Z) | DoLoad (t : nat) | DoSync (v : nat).

(** The reader is the first one. *)
Definition act (s : System Z Z) (a : action) : option (System Z Z) :=
  match a with
  | DoInsert key => Insert_begin cmp_Z s key
  | DoStore => Writer_store s
  | DoBegin o => r ← readers s !! 0%nat; r' ← Reader_begin s r o; Some (set_reader s 0 r')
  | DoLoad t => r ← readers s !! 0%nat; r' ← Reader_step cmp_Z s r t; Some (set_reader s 0 r')
  | DoSync v =>
    r ← readers s !! 0%nat;
    ASSERT (negb (busy r) && (view r <=? v)%nat && (v <=? now s)%nat);
    Some (set_reader s 0 (move r v (node_ r) (place_ r) (loads r)))
  end.

Fixpoint run (s : System Z Z) (acts : list action) : option (System Z Z) :=
  match acts with [] => Some s | a :: acts => s ← act s a; run s acts end.

Lemma act_step s a s' : act s a = Some s' → step cmp_Z any_Z s s'.
Proof.
  destruct a as [key| |o|t|v]; cbn [act]; intros E.
  - by apply step_insert with key.
  - by apply step_store.
  - apply bind_Some in E as (r & Hr & E). apply bind_Some in E as (r' & Hb & [= <-]).
    apply step_begin with r o; [done|by destruct o|done].
  - apply bind_Some in E as (r & Hr & E). apply bind_Some in E as (r' & Hb & [= <-]).
    by apply step_load with r t.
  - apply bind_Some in E as (r & Hr & E). destruct (_ && _) eqn:Eb; [|done].
    apply andb_true_iff in Eb as [[Hb ?%Nat.leb_le]%andb_true_iff ?%Nat.leb_le].
    injection E as <-. apply step_sync; [done|by apply negb_true_iff|lia].
Qed.

Lemma run_steps acts : ∀ s s', run s acts = Some s' → rtc (step cmp_Z any_Z) s s'.
Proof.
  induction acts as [|a acts IH]; intros s s' E; [by injection E as ->|].
  apply bind_Some in E as (s1 & Ha & E). eapply rtc_l; [by eapply act_step|by apply IH].
Qed.

(** A new list and one reader. *)
Definition new_list : Z * SkipList Z :=
  default (0, {| nodes := ∅; head_ := 0; max_height_ := 0; rnd_ := 1 |}) (SkipList_new 0 0).
Definition new_system : System Z Z := System_start new_list.1 new_list.2 1.

Lemma new_list_ok : SL cmp_Z any_Z new_list.2 [] [] ∧ owned counter_inv new_list.1 new_list.2.
Proof.
  destruct (SkipList_new_eq cmp_Z any_Z counter_inv 0 ∅ 0) as (ar & l & E & Hsl & How).
  { split; [done|]. intros p Hp. by apply not_elem_of_empty in Hp. }
  unfold new_list. by rewrite E.
Qed.

Definition first_reader (o : option (System Z Z)) : option (place Z * nat * nat) :=
  s ← o; r ← readers s !! 0%nat; Some (place_ r, view r, length (pending s)).

Example run_insert :
  (s ← run new_system [DoInsert 5]; Some (pending s)) =
  Some [StoreHeight 2; Construct 2 5 2; StoreNext relaxed 2 0 0; StoreNext release 1 0 2;
        StoreNext relaxed 2 1 0; StoreNext release 1 1 2].
Proof. vm_compute. reflexivity. Qed.

Definition insert_until (n : nat) : list action := DoInsert 5 :: replicate n DoStore.
Definition finds_5 (loads : list nat) : list action := DoBegin (Contains_op 5) :: map DoLoad loads.

(** Before the node is linked; afterwards, a reader that has not synchronised may
    read the old value or the new one, and an old height; one that reads the new
    height goes down a level; one that has synchronised may not read the old height. *)
Example run_reads :
  (first_reader (run new_system (insert_until 3 ++ finds_5 [0; 3]%nat)),
   first_reader (run new_system (insert_until 6 ++ finds_5 [0; 0]%nat)),
   first_reader (run new_system (insert_until 6 ++ finds_5 [0; 6]%nat)),
   first_reader (run new_system (insert_until 6 ++ finds_5 [6; 0; 5]%nat)),
   first_reader (run new_system (insert_until 6 ++ DoSync 6%nat :: finds_5 [0]%nat)))
  = (Some (Returned false, 0%nat, 3%nat), Some (Returned false, 0%nat, 0%nat),
     Some (Returned true, 4%nat, 0%nat), Some (Returned true, 4%nat, 0%nat), None).
Proof. vm_compute. reflexivity. Qed.

(** The reader finds the key in the middle of its insertion. *)
Definition found : System Z Z := default new_system (run new_system (insert_until 4 ++ finds_5 [0; 4]%nat)).
Definition finder : ListReader Z :=
  default {| view := 0; node_ := 0; doing := SeekToFirst; place_ := Faulted; since := 0; from := 0;
             loads := 0 |} (readers found !! 0%nat).

Lemma found_reachable : rtc (step cmp_Z any_Z) (System_start new_list.1 new_list.2 1) found.
Proof. apply (run_steps (insert_until 4 ++ finds_5 [0; 4]%nat)). vm_compute. reflexivity. Qed.

Lemma readers_linearize_witness :
  place_ finder = Returned true ∧ ∃ t keys, (since finder ≤ t ≤ view finder)%nat
    ∧ answer cmp_Z (doing finder) [] keys (from finder) (node_ finder) true.
Proof.
  split; [vm_compute; reflexivity|].
  destruct (readers_linearize cmp_Z any_Z counter_inv new_list.1 new_list.2 [] [] 1 found
    (proj1 new_list_ok) (proj2 new_list_ok) found_reachable) as (lists & keys & _ & _ & Hr).
  destruct (Hr 0%nat finder) as (_ & _ & _ & Ha); [vm_compute; reflexivity|].
  destruct (Ha true) as (t & Ht & _ & Ht'); [vm_compute; reflexivity|].
  exists t, (keys t). split; [exact Ht|exact Ht'].
Defined.
