(* ===== verification/MemTable.v ===== *)
(** The memtable: db/memtable.h and db/memtable.cc.

    Entries are written into arena memory and the skip list orders pointers to
    them, so the memory is modelled byte by byte: [mem_] maps the addresses that
    have been written to their contents, and reading an address that has not
    been written is a fault.  Pointers the memtable only reads through and that
    lead outside the arena (a lookup key, an encoded seek target) carry the
    buffer they point into. *)
From Stdlib Require Import Sorted.
From S2P Require Import Prelude Slice Coding Comparator DbFormat Status Random Arena SkipList.
Local Open Scope Z_scope.

(** ** Memory and pointers *)

Abbreviation memory := (gmap Z byte).

(** [const char* ]: null, an address, or an offset into another buffer. *)
Inductive cptr := Null | InMem (a : Z) | InBuf (b : bytes) (off : Z).

Definition cptr_add (p : cptr) (n : Z) : cptr :=
  match p with Null => Null | InMem a => InMem (a + n) | InBuf b off => InBuf b (off + n) end.

(** [p[i]]. *)
Definition char_at (m : memory) (p : cptr) (i : Z) : option byte :=
  match p with
  | Null => None
  | InMem a => m !! (a + i)
  | InBuf b off => if 0 <=? off + i then b !! Z.to_nat (off + i) else None
  end.

(** The characters from [p[i]] on: [n] of them, or up to the first one that
    cannot be read. *)
Fixpoint chars (n : nat) (m : memory) (p : cptr) (i : Z) : bytes :=
  match n with
  | O => []
  | S n => match char_at m p i with Some b => b :: chars n m p (i + 1) | None => [] end
  end.
Definition window (m : memory) (p : cptr) (n : nat) : bytes := chars n m p 0.

(** The contents of [Slice(p, n)]. *)
Definition slice_bytes (m : memory) (s : cptr * Z) : option bytes :=
  let w := window m s.1 (Z.to_nat s.2) in
  ASSERT (Z.of_nat (length w) =? s.2); Some w.

(** Stores of the bytes [bs] from address [a] on. *)
Fixpoint write (m : memory) (a : Z) (bs : bytes) : memory :=
  match bs with [] => m | b :: bs => write (<[a := b]> m) (a + 1) bs end.

(** The file's static [GetLengthPrefixedSlice]: the slice as a pointer and a
    length; a varint that does not end within five bytes leaves [len]
    uninitialised. *)
Definition GetLengthPrefixedSlice (m : memory) (data : cptr) : option (cptr * Z) :=
  r ← GetVarint32Ptr (window m data 5) 0 5;
  '(p, len) ← r;
  Some (cptr_add data (Z.of_nat p), len).

Definition prefixed_bytes (m : memory) (data : cptr) : option bytes :=
  s ← GetLengthPrefixedSlice m data; slice_bytes m s.

(** [MemTable::KeyComparator::operator()]. *)
Definition KeyComparator (uc : Comparator) (m : memory) (aptr bptr : cptr) : option Z :=
  a ← prefixed_bytes m aptr; b ← prefixed_bytes m bptr;
  Compare (InternalKeyComparator uc) a b.

(** The static [EncodeKey]: a pointer to the contents of [scratch]. *)
Definition EncodeKey (target : bytes) : option cptr :=
  scratch ← PutVarint32 [] (u32 (Z.of_nat (length target)));
  Some (InBuf (scratch ++ target) 0).

(** The skip list takes its nodes from the arena. *)
#[export] Instance Arena_allocator `{NewChar} : NodeAllocator Arena := {
  alloc_node := AllocateAligned
}.

Section memtable.
Context `{NewChar} (uc : Comparator).

Record MemTable := { mem_ : memory; arena_ : Arena; table_ : SkipList cptr; refs_ : Z }.

Definition MemTable_new : option MemTable :=
  '(ar, t) ← SkipList_new Arena_new Null;
  Some {| mem_ := ∅; arena_ := ar; table_ := t; refs_ := 0 |}.

(** The destructor, given the live blocks; the members go with it. *)
Definition MemTable_delete (mt : MemTable) (live : list range) : option (list range) :=
  ASSERT (refs_ mt =? 0); Some (Arena_delete (arena_ mt) live).

Definition with_refs (mt : MemTable) (n : Z) : MemTable :=
  {| mem_ := mem_ mt; arena_ := arena_ mt; table_ := table_ mt; refs_ := n |}.

Definition Ref (mt : MemTable) : MemTable := with_refs mt (refs_ mt + 1).

(** The table, unless this was the last reference, and the live blocks. *)
Definition Unref (mt : MemTable) (live : list range) : option (option MemTable * list range) :=
  let mt := with_refs mt (refs_ mt - 1) in
  ASSERT (0 <=? refs_ mt);
  if refs_ mt <=? 0 then live ← MemTable_delete mt live; Some (None, live)
  else Some (Some mt, live).

Definition ApproximateMemoryUsage (mt : MemTable) : Z := MemoryUsage (arena_ mt).

(** [Add]: the allocated object is filled as an array [b] of its size. *)
Definition Add (mt : MemTable) (s : Z) (type : ValueType) (key value : bytes)
    : option MemTable :=
  let key_size := Z.of_nat (length key) in
  let val_size := Z.of_nat (length value) in
  let internal_key_size := key_size + 8 in
  n1 ← VarintLength internal_key_size;
  n2 ← VarintLength val_size;
  let encoded_len := u64 (Z.of_nat n1 + internal_key_size + Z.of_nat n2 + val_size) in
  '(ar, buf) ← Allocate (arena_ mt) encoded_len;
  let b := char_array (Z.to_nat encoded_len) in
  '(b, p) ← EncodeVarint32 b 0 (u32 internal_key_size);
  b ← memcpy b p key;
  let p := (p + length key)%nat in
  b ← EncodeFixed64 b p (Z.lor (u64 (Z.shiftl s 8)) (ValueType_value type));
  let p := (p + 8)%nat in
  '(b, p) ← EncodeVarint32 b p (u32 val_size);
  b ← memcpy b p value;
  ASSERT (Z.of_nat p + val_size =? encoded_len);
  let m := write (mem_ mt) buf b in
  '(ar, t) ← Insert (KeyComparator uc m) ar (table_ mt) (InMem buf);
  Some {| mem_ := m; arena_ := ar; table_ := t; refs_ := refs_ mt |}.

(** [Get]: the return value, [*value] and [*s]. *)
Definition Get (mt : MemTable) (key : LookupKey) (value : bytes) (s : Status)
    : option (bool * bytes * Status) :=
  let m := mem_ mt in
  it ← Iter_Seek (KeyComparator uc m) (table_ mt) (InBuf (lk_buf key) 0);
  if Iter_Valid it then
    entry ← Iter_key (table_ mt) it;
    r ← GetVarint32Ptr (window m entry 5) 0 5;
    '(p, key_length) ← r;
    let key_ptr := cptr_add entry (Z.of_nat p) in
    ukey ← slice_bytes m (key_ptr, u32 (key_length - 8));
    c ← Compare uc ukey (LookupKey_user_key key);
    if c =? 0 then
      tag ← DecodeFixed64 (window m (cptr_add key_ptr (key_length - 8)) 8) 0;
      let type := Z.land tag 0xff in
      if type =? ValueType_value kTypeValue then
        v ← prefixed_bytes m (cptr_add key_ptr key_length);
        Some (true, v, s)
      else if type =? ValueType_value kTypeDeletion then
        st ← NotFound [] [];
        Some (true, value, st)
      else Some (false, value, s)
    else Some (false, value, s)
  else Some (false, value, s).

(** ** [MemTableIterator]: the skip list's iterator, decoding entries *)

Definition MemTable_NewIterator : Iterator := Iterator_new.
Definition MIter_Valid (it : Iterator) : bool := Iter_Valid it.
Definition MIter_Seek (mt : MemTable) (k : bytes) : option Iterator :=
  target ← EncodeKey k; Iter_Seek (KeyComparator uc (mem_ mt)) (table_ mt) target.
Definition MIter_SeekToFirst (mt : MemTable) : option Iterator := Iter_SeekToFirst (table_ mt).
Definition MIter_SeekToLast (mt : MemTable) : option Iterator := Iter_SeekToLast (table_ mt).
Definition MIter_Next (mt : MemTable) (it : Iterator) : option Iterator := Iter_Next (table_ mt) it.
Definition MIter_Prev (mt : MemTable) (it : Iterator) : option Iterator :=
  Iter_Prev (KeyComparator uc (mem_ mt)) (table_ mt) it.
Definition MIter_key (mt : MemTable) (it : Iterator) : option bytes :=
  p ← Iter_key (table_ mt) it; prefixed_bytes (mem_ mt) p.
Definition MIter_value (mt : MemTable) (it : Iterator) : option bytes :=
  p ← Iter_key (table_ mt) it;
  '(kp, klen) ← GetLengthPrefixedSlice (mem_ mt) p;
  prefixed_bytes (mem_ mt) (cptr_add kp klen).
Definition MIter_status (mt : MemTable) (it : Iterator) : Status := OK.
End memtable.

(** ** What was added *)

Record version := { v_key : bytes; v_seq : Z; v_type : ValueType; v_value : bytes }.
Definition ikey (e : version) : bytes := encode_internal (v_key e) (v_seq e) (v_type e).

Definition Add_version `{NewChar} uc mt (e : version) : option MemTable :=
  Add uc mt (v_seq e) (v_type e) (v_key e) (v_value e).

Fixpoint add_all `{NewChar} uc (mt : MemTable) (vs : list version) : option MemTable :=
  match vs with [] => Some mt | e :: vs => mt ← Add_version uc mt e; add_all uc mt vs end.

Definition lookup `{NewChar} uc (mt : MemTable) (ukey : bytes) (seq : Z) : option (bool * bytes * Status) :=
  k ← LookupKey_new ukey seq; Get uc mt k [] OK.

Example memtable_run :
  (mt ← MemTable_new;
   mt ← add_all LexComparator mt
          [{| v_key := str "a"; v_seq := 1; v_type := kTypeValue; v_value := str "one" |};
           {| v_key := str "b"; v_seq := 2; v_type := kTypeValue; v_value := str "two" |};
           {| v_key := str "a"; v_seq := 3; v_type := kTypeDeletion; v_value := [] |}];
   r1 ← lookup LexComparator mt (str "a") 2;
   r2 ← lookup LexComparator mt (str "a") 9;
   r3 ← lookup LexComparator mt (str "c") 9;
   st ← ToString r2.2;
   Some (r1.1, r2.1, r3.1, st))
  = Some ((true, str "one"), (true, []), (false, []), str "NotFound: ").
Proof. vm_compute. reflexivity. Qed.

(** ** Reading memory *)

(** The bytes [bs] are readable from [p] on. *)
Definition holds (m : memory) (p : cptr) (bs : bytes) : Prop :=
  ∀ i b, bs !! i = Some b → char_at m p (Z.of_nat i) = Some b.

Lemma char_at_add m p n i : 0 <= i → char_at m (cptr_add p n) i = char_at m p (n + i).
Proof.
  intros Hi. destruct p as [|a|b off]; cbn; [done|by rewrite Z.add_assoc|].
  by rewrite Z.add_assoc.
Qed.

Lemma holds_app m p x y :
  holds m p (x ++ y) ↔ holds m p x ∧ holds m (cptr_add p (Z.of_nat (length x))) y.
Proof.
  unfold holds. setoid_rewrite char_at_add; [|lia]. split.
  - intros Hh. split; intros i b Hi.
    + apply Hh. by apply lookup_app_l_Some.
    + replace (Z.of_nat (length x) + Z.of_nat i) with (Z.of_nat (length x + i)) by lia.
      apply Hh. rewrite lookup_app_r by lia. rewrite <- Hi. f_equal. lia.
  - intros [Hx Hy] i b [Hi|[Hle Hi]]%lookup_app_Some; [by apply Hx|].
    replace (Z.of_nat i) with (Z.of_nat (length x) + Z.of_nat (i - length x)) by lia.
    by apply Hy.
Qed.

Lemma holds_nil m p : holds m p [].
Proof. intros i b Hi. done. Qed.

Lemma chars_holds m p bs n i :
  (∀ j b, bs !! j = Some b → char_at m p (i + Z.of_nat j) = Some b) →
  chars (length bs + n) m p i = bs ++ chars n m p (i + Z.of_nat (length bs)).
Proof.
  revert i. induction bs as [|b bs IH]; intros i Hh; cbn.
  { by rewrite Z.add_0_r. }
  pose proof (Hh 0%nat b eq_refl) as H0. rewrite Z.add_0_r in H0. rewrite H0. f_equal.
  rewrite IH.
  - do 2 f_equal. lia.
  - intros j c Hj. rewrite <- (Hh (S j) c Hj). f_equal. lia.
Qed.

Lemma window_holds m p bs n :
  holds m p bs → ∃ rest, window m p (length bs + n) = bs ++ rest.
Proof. intros Hh. eexists. apply chars_holds. exact Hh. Qed.

Lemma window_exact m p bs : holds m p bs → window m p (length bs) = bs.
Proof.
  intros Hh. pose proof (chars_holds m p bs 0 0 Hh) as E. rewrite Nat.add_0_r in E.
  cbn in E. by rewrite app_nil_r in E.
Qed.

Lemma slice_holds m p bs : holds m p bs → slice_bytes m (p, Z.of_nat (length bs)) = Some bs.
Proof.
  intros Hh. unfold slice_bytes. cbn. rewrite Nat2Z.id, (window_exact m p bs Hh).
  by rewrite Z.eqb_refl.
Qed.

(** Reading a varint within five bytes, and the slice it is the length of. *)
Lemma GetVarint32Ptr_holds m p v :
  0 <= v < 2 ^ 32 → holds m p (varint v) →
  GetVarint32Ptr (window m p 5) 0 5 = Some (Some (length (varint v), v)).
Proof.
  intros Hv Hh. pose proof (length_varint32 v Hv) as Hlen.
  destruct (window_holds m p (varint v) (5 - length (varint v)) Hh) as [rest E].
  replace (length (varint v) + (5 - length (varint v)))%nat with 5%nat in E by lia.
  rewrite E. rewrite (GetVarint32Ptr_varint [] v rest) by done. unfold varint_at.
  by rewrite decide_True.
Qed.

Lemma GetLengthPrefixedSlice_holds m p v :
  0 <= v < 2 ^ 32 → holds m p (varint v) →
  GetLengthPrefixedSlice m p = Some (cptr_add p (Z.of_nat (length (varint v))), v).
Proof.
  intros Hv Hh. unfold GetLengthPrefixedSlice. by rewrite GetVarint32Ptr_holds with (v := v).
Qed.

Lemma prefixed_bytes_holds m p bs :
  Z.of_nat (length bs) < 2 ^ 32 → holds m p (varint (Z.of_nat (length bs)) ++ bs) →
  prefixed_bytes m p = Some bs.
Proof.
  intros Hl [Hv Hb]%holds_app. unfold prefixed_bytes.
  rewrite (GetLengthPrefixedSlice_holds m p (Z.of_nat (length bs))) by (done || lia).
  cbn [mbind option_bind]. by apply slice_holds.
Qed.

Lemma holds_buf m pre bs post : holds m (InBuf (pre ++ bs ++ post) (Z.of_nat (length pre))) bs.
Proof.
  intros i b Hi. cbn. rewrite (proj2 (Z.leb_le _ _)) by lia.
  replace (Z.to_nat _) with (length pre + i)%nat by lia.
  rewrite lookup_app_r by lia. replace (length pre + i - length pre)%nat with i by lia.
  by apply lookup_app_l_Some.
Qed.

(** ** Writing memory *)

Lemma write_lookup m a bs x :
  write m a bs !! x
  = if decide (a <= x < a + Z.of_nat (length bs)) then bs !! Z.to_nat (x - a) else m !! x.
Proof.
  revert m a. induction bs as [|b bs IH]; intros m a; cbn [write length].
  { rewrite decide_False by lia. done. }
  rewrite IH. destruct (decide (x = a)) as [->|Hne].
  - rewrite decide_False, decide_True by lia. rewrite lookup_insert_eq, Z.sub_diag. done.
  - rewrite lookup_insert_ne by done. destruct (decide (a + 1 <= x < _)).
    + rewrite decide_True by lia. replace (Z.to_nat (x - a)) with (S (Z.to_nat (x - (a + 1)))) by lia.
      done.
    + rewrite decide_False by lia. done.
Qed.

Lemma holds_write m a bs : holds (write m a bs) (InMem a) bs.
Proof.
  intros i b Hi. cbn. rewrite write_lookup. pose proof (lookup_lt_Some _ _ _ Hi).
  rewrite decide_True by lia. rewrite <- Hi. f_equal. lia.
Qed.

(** Writing one range leaves what is in a disjoint one. *)
Lemma holds_write_frame m a bs p bs' :
  disjoint_ranges (p, Z.of_nat (length bs')) (a, Z.of_nat (length bs)) →
  holds m (InMem p) bs' → holds (write m a bs) (InMem p) bs'.
Proof.
  unfold disjoint_ranges. cbn. intros Hd Hh i b Hi. cbn. rewrite write_lookup.
  pose proof (lookup_lt_Some _ _ _ Hi). rewrite decide_False by lia. by apply Hh.
Qed.

(** ** The order of the entries *)
Section order.
Context (uc : Comparator) (ok : bytes → Prop) `{!OrderLaws uc ok}.

(** Pointers to a well-formed length-prefixed internal key. *)
Definition kptr_ok (m : memory) (p : cptr) : Prop :=
  ∃ k, prefixed_bytes m p = Some k ∧ internal_ok ok k.

Lemma KeyComparator_eq m p q a b :
  prefixed_bytes m p = Some a → prefixed_bytes m q = Some b →
  KeyComparator uc m p q = Compare (InternalKeyComparator uc) a b.
Proof. intros Hp Hq. unfold KeyComparator. by rewrite Hp, Hq. Qed.

#[export] Instance KeyComparator_order m : KeyOrder (KeyComparator uc m) (kptr_ok m).
Proof using Type*.
  split.
  - intros p q (a & Ha & Hoa) (b & Hb & Hob). rewrite (KeyComparator_eq m p q a b) by done.
    by apply (cmp_total (ok := internal_ok ok)).
  - intros p q r s (a & Ha & Hoa) (b & Hb & Hob).
    rewrite (KeyComparator_eq m p q a b), (KeyComparator_eq m q p b a) by done.
    by apply (cmp_swap (ok := internal_ok ok)).
  - intros p q u r s t (a & Ha & Hoa) (b & Hb & Hob) (c & Hc & Hoc).
    rewrite (KeyComparator_eq m p q a b), (KeyComparator_eq m q u b c),
      (KeyComparator_eq m p u a c) by done.
    intros Hr Hs Ht Hr0 Hs0.
    destruct (cmp_trans (ok := internal_ok ok) (c := InternalKeyComparator uc) a b c Hoa Hob Hoc) as (t' & Ht' & ?);
      [by exists r|by exists s|]. rewrite Ht in Ht'. by simplify_eq.
Qed.
End order.

(** ** The arena as node allocator *)
Section arena_nodes.
Context `{NewChar} `{!NewCharLaws}.

(** The arena has handed out the ranges [E] and a node at every used address. *)
Definition arena_inv (E : list range) (a : Arena) (used : gset Z) : Prop :=
  ∃ out, Arena_ok a out ∧ (∀ r, r ∈ E → r ∈ out) ∧ ∀ p, p ∈ used → ∃ n, (p, n) ∈ out.

(** A range just handed out is apart from the earlier ones, and not null. *)
Lemma handed_out_fresh a out p n :
  Arena_ok a ((p, n) :: out) →
  p ≠ 0 ∧ (∀ r, r ∈ out → disjoint_ranges r (p, n)) ∧ ∀ n', (p, n') ∉ out.
Proof.
  intros [Hrem Hfree Hb Hin Hof Hd Hu].
  assert (∀ r, r ∈ out → disjoint_ranges r (p, n)) as Hdis.
  { intros r Hr. apply list_elem_of_lookup in Hr as [i Hi]. by apply (Hd (S i) 0%nat). }
  destruct (Hin (p, n)) as (Hn & b & Hbl & Hi); [by left|].
  destruct (Hb b Hbl) as [Hb1 Hb2]. unfold inside in Hi. cbn in *. split_and!; [lia|done|].
  intros n' Hr. pose proof (Hdis _ Hr) as Hdd. destruct (Hin (p, n')) as (Hn' & _); [by right|].
  unfold disjoint_ranges in Hdd. cbn in *. lia.
Qed.

#[export] Instance Arena_allocator_laws E : NodeAllocatorLaws Arena (arena_inv E).
Proof.
  split. intros a used n (out & Ha & HE & Hu) Hn.
  destruct (AllocateAligned_ok a out n Ha) as (a' & p & Hal & Ha' & _); [lia..|].
  exists a', p. destruct (handed_out_fresh a' out p n Ha') as (Hp & _ & Hf).
  split_and!; [exact Hal| |done|].
  - intros Hin. destruct (Hu p Hin) as [n' Hr]. by apply (Hf n').
  - exists ((p, n) :: out). split_and!; [done|intros r Hr; right; by apply HE|].
    intros q [->%elem_of_singleton|Hq]%elem_of_union; [exists n; by left|].
    destruct (Hu q Hq) as [n' ?]. exists n'. by right.
Qed.

Lemma Allocate_entry E a used n :
  arena_inv E a used → 0 < n →
  ∃ a' p, Allocate a n = Some (a', p) ∧ arena_inv ((p, n) :: E) a' used
    ∧ ∀ r, r ∈ E → disjoint_ranges r (p, n).
Proof.
  intros (out & Ha & HE & Hu) Hn. destruct (Allocate_ok a out n Ha Hn) as (a' & p & Hal & Ha').
  exists a', p. destruct (handed_out_fresh a' out p n Ha') as (_ & Hd & _).
  split_and!; [done| |auto].
  exists ((p, n) :: out). split_and!; [done| |].
  - intros r [->|Hr]%elem_of_cons; [by left|right; auto].
  - intros q Hq. destruct (Hu q Hq) as [n' ?]. exists n'. by right.
Qed.

Lemma arena_inv_new : arena_inv [] Arena_new ∅.
Proof.
  exists []. split_and!; [apply Arena_new_ok|done|]. intros p Hp. by apply not_elem_of_empty in Hp.
Qed.
End arena_nodes.

(** ** The invariant *)
Section invariant.
Context `{NewChar} `{!NewCharLaws} (uc : Comparator) (ok : bytes → Prop) `{!OrderLaws uc ok}.

(** The bytes of an entry, as the comment in [MemTable::Add] lays them out. *)
Definition entry (e : version) : bytes :=
  varint (Z.of_nat (length (ikey e))) ++ ikey e
  ++ varint (Z.of_nat (length (v_value e))) ++ v_value e.

Definition version_ok (e : version) : Prop :=
  ok (v_key e) ∧ 0 <= v_seq e <= kMaxSequenceNumber
  ∧ Z.of_nat (length (v_key e)) + 8 < 2 ^ 32 ∧ Z.of_nat (length (v_value e)) < 2 ^ 32.

(** Two versions the table could not tell apart. *)
Definition same_version (e e' : version) : Prop :=
  cmp_eqv uc (v_key e) (v_key e') ∧ v_seq e = v_seq e' ∧ v_type e = v_type e'.

Definition entry_range (pe : Z * version) : range := (pe.1, Z.of_nat (length (entry pe.2))).

(** [es]: the versions added, newest first, with the addresses of their
    entries.  The table holds exactly these pointers, in internal-key order;
    every entry is in memory, in a range of the arena of its own. *)
Record MT (mt : MemTable) (es : list (Z * version)) : Prop := {
  mt_sl : ∃ L ks, SL (KeyComparator uc (mem_ mt)) (kptr_ok ok (mem_ mt)) (table_ mt) L ks
            ∧ ks ≡ₚ ((λ pe, InMem pe.1) <$> es);
  mt_arena : owned (arena_inv (entry_range <$> es)) (arena_ mt) (table_ mt);
  mt_mem : ∀ p e, (p, e) ∈ es → holds (mem_ mt) (InMem p) (entry e);
  mt_ok : ∀ p e, (p, e) ∈ es → version_ok e
}.

Lemma length_ikey e : length (ikey e) = (length (v_key e) + 8)%nat.
Proof. apply length_encode_internal. Qed.

Lemma ikey_ok e : version_ok e → internal_ok ok (ikey e).
Proof.
  intros (Hk & _). split; [rewrite length_ikey; lia|]. unfold ikey. by rewrite user_part_encode.
Qed.

Lemma MemTable_new_MT : ∃ mt, MemTable_new = Some mt ∧ MT mt [] ∧ refs_ mt = 0.
Proof using Type*.
  unfold MemTable_new.
  destruct (SkipList_new_eq (KeyComparator uc ∅) (kptr_ok ok ∅) (arena_inv []) Arena_new ∅ Null
              arena_inv_new) as (ar & l & E & Hsl & How).
  rewrite E. cbn [mbind option_bind]. eexists. split; [reflexivity|]. split; [|done].
  split; cbn; try done.
  - exists [], []. by split.
  - intros p e Hin. by apply not_elem_of_nil in Hin.
  - intros p e Hin. by apply not_elem_of_nil in Hin.
Qed.

(** What the entry's parts are found by. *)
Lemma entry_parts m p e :
  version_ok e → holds m (InMem p) (entry e) →
  let n := Z.of_nat (length (ikey e)) in
  let kp := InMem (p + Z.of_nat (length (varint n))) in
  0 <= n < 2 ^ 32 ∧ holds m (InMem p) (varint n) ∧ holds m kp (v_key e)
  ∧ holds m (cptr_add kp (n - 8)) (le_bytes 8 (tag_of (v_seq e) (v_type e)))
  ∧ prefixed_bytes m (InMem p) = Some (ikey e)
  ∧ prefixed_bytes m (cptr_add kp n) = Some (v_value e).
Proof.
  intros (_ & _ & Hk & Hv) Hh. pose proof (length_ikey e) as Hl. unfold entry in Hh. cbn zeta.
  pose proof Hh as Hh0. rewrite app_assoc in Hh0. apply holds_app in Hh0 as [Hpk _].
  apply holds_app in Hh as [Hn Hh]. apply holds_app in Hh as [Hik Hval].
  set (n := Z.of_nat (length (ikey e))) in *.
  pose proof Hik as Hik2. unfold ikey, encode_internal in Hik2.
  apply holds_app in Hik2 as [Huk Htag]. split_and!.
  - lia.
  - lia.
  - done.
  - exact Huk.
  - replace (n - 8) with (Z.of_nat (length (v_key e))) by lia.
    exact Htag.
  - apply prefixed_bytes_holds; [lia|done].
  - by apply prefixed_bytes_holds.
Qed.

(** The buffer [Add] fills. *)
Lemma Add_buffer e : version_ok e →
  ∃ n1 n2,
    let ik := Z.of_nat (length (v_key e)) + 8 in
    let len := Z.of_nat n1 + ik + Z.of_nat n2 + Z.of_nat (length (v_value e)) in
    VarintLength ik = Some n1 ∧ VarintLength (Z.of_nat (length (v_value e))) = Some n2
    ∧ u64 len = len ∧ Z.of_nat (length (entry e)) = len ∧ 0 < len
    ∧ ∃ b1 p1 b2 b3 b4 p2,
      EncodeVarint32 (char_array (Z.to_nat len)) 0 (u32 ik) = Some (b1, p1)
      ∧ memcpy b1 p1 (v_key e) = Some b2
      ∧ EncodeFixed64 b2 (p1 + length (v_key e))
          (Z.lor (u64 (Z.shiftl (v_seq e) 8)) (ValueType_value (v_type e))) = Some b3
      ∧ EncodeVarint32 b3 (p1 + length (v_key e) + 8) (u32 (Z.of_nat (length (v_value e))))
        = Some (b4, p2)
      ∧ memcpy b4 p2 (v_value e) = Some (entry e)
      ∧ Z.of_nat p2 + Z.of_nat (length (v_value e)) = len.
Proof.
  destruct e as [key s t value]. intros (_ & Hs & Hk & Hv). cbn [v_key v_seq v_type v_value] in *.
  set (e := {| v_key := key |}).
  set (nk := Z.of_nat (length key) + 8). set (nv := Z.of_nat (length value)) in *.
  set (ek := varint nk). set (ev := varint nv).
  exists (length ek), (length ev). cbn zeta.
  pose proof (length_varint32 nk ltac:(lia)) as Hek. pose proof (length_varint32 nv ltac:(lia)) as Hev.
  fold ek in Hek. fold ev in Hev.
  assert (Hent : entry e = ek ++ key ++ le_bytes 8 (tag_of s t) ++ ev ++ value).
  { unfold entry. rewrite length_ikey. cbn [v_key v_value e].
    replace (Z.of_nat (length key + 8)) with nk by lia. fold nv ek ev.
    unfold ikey, encode_internal. cbn. by rewrite <- !app_assoc. }
  assert (Hlen : length (entry e) = (length ek + length key + 8 + length ev + length value)%nat).
  { rewrite Hent, !length_app, length_le_bytes. lia. }
  split_and!; [apply VarintLength_eq; lia|apply VarintLength_eq; lia|apply u64_small; lia|lia|lia|].
  rewrite !u32_small by lia.
  assert (Z.lor (u64 (Z.shiftl s 8)) (ValueType_value t) = tag_of s t) as ->.
  { pose proof (Pack_eq s t Hs) as Hp. unfold PackSequenceAndType in Hp. by simplify_exec. }
  replace (Z.to_nat _) with (length ek + (length key + (8 + (length ev + length value))))%nat by lia.
  unfold char_array. rewrite !replicate_add.
  pose proof (EncodeVarint32_app [] (replicate (length ek) x00)
    (replicate (length key) x00 ++ replicate 8 x00 ++ replicate (length ev) x00
       ++ replicate (length value) x00) nk ltac:(lia) ltac:(apply length_replicate)) as E1.
  cbn [app length] in E1. rewrite Nat.add_0_l in E1. fold ek in E1.
  do 6 eexists. split; [exact E1|].
  split; [apply memcpy_app; [done|apply length_replicate]|].
  rewrite <- !length_app, (assoc_L (++)).
  split; [apply EncodeFixed64_app, length_replicate|].
  replace (length (ek ++ key) + 8)%nat with (length ((ek ++ key) ++ le_bytes 8 (tag_of s t)))
    by (rewrite !length_app, length_le_bytes; lia).
  rewrite (assoc_L (++) (ek ++ key)).
  split; [apply EncodeVarint32_app; [lia|apply length_replicate]|]. fold ev.
  split.
  - rewrite (assoc_L (++)). rewrite <- (app_nil_r (replicate _ _)).
    rewrite memcpy_app; [|by rewrite !length_app|apply length_replicate].
    rewrite Hent, app_nil_r. by rewrite <- !(assoc_L (++)).
  - rewrite !length_app, length_le_bytes. lia.
Qed.

Lemma entry_prefixed m p e : version_ok e → holds m (InMem p) (entry e) →
  prefixed_bytes m (InMem p) = Some (ikey e).
Proof. intros He Hh. by destruct (entry_parts m p e He Hh) as (_ & _ & _ & _ & ? & _). Qed.

(** Comparing two entries compares their internal keys. *)
Lemma entry_compare m p q e e' : version_ok e → version_ok e' →
  holds m (InMem p) (entry e) → holds m (InMem q) (entry e') →
  KeyComparator uc m (InMem p) (InMem q) = Compare (InternalKeyComparator uc) (ikey e) (ikey e').
Proof. intros. by apply KeyComparator_eq; apply entry_prefixed. Qed.

Lemma ikey_eqv e e' : version_ok e → version_ok e' →
  cmp_eqv (InternalKeyComparator uc) (ikey e) (ikey e') ↔ same_version e e'.
Proof using Type*.
  intros He He'. pose proof (ikc_eqv uc ok _ _ (ikey_ok e He) (ikey_ok e' He')) as E.
  destruct He as (_ & Hs & _), He' as (_ & Hs' & _).
  unfold ikey in E at 3 4 5 6. rewrite !user_part_encode, !tag_part_encode in E by done.
  rewrite E. unfold same_version, tag_of.
  destruct (v_type e), (v_type e'); cbn; split; intros; destruct_and?; split_and?; try done; lia.
Qed.

(** [Add] up to the insertion of the pointer: the entry is in memory and in a range
    of its own, and the older entries are untouched. *)
Lemma Add_entry mt es e :
  owned (arena_inv (entry_range <$> es)) (arena_ mt) (table_ mt) →
  (∀ p e', (p, e') ∈ es → holds (mem_ mt) (InMem p) (entry e')) → version_ok e →
  ∃ ar buf, let m := write (mem_ mt) buf (entry e) in
    Add_version uc mt e
    = ('(ar, t) ← Insert (KeyComparator uc m) ar (table_ mt) (InMem buf);
       Some {| mem_ := m; arena_ := ar; table_ := t; refs_ := refs_ mt |})
    ∧ owned (arena_inv (entry_range <$> (buf, e) :: es)) ar (table_ mt)
    ∧ (∀ p e', (p, e') ∈ (buf, e) :: es → holds m (InMem p) (entry e'))
    ∧ ∀ e', (buf, e') ∉ es.
Proof.
  intros (used & Hinv & Hdom) Hmem He.
  destruct (Add_buffer e He) as (n1 & n2 & Hb). cbn zeta in Hb.
  set (len := _ + _ + _ + _) in Hb.
  destruct Hb as (E1 & E2 & E3 & Hlen & Hpos & b1 & p1 & b2 & b3 & b4 & p2 & F1 & F2 & F3 & F4 & F5 & F6).
  destruct (Allocate_entry _ _ _ len Hinv Hpos) as (ar & buf & Hal & Hinv' & Hdis).
  assert (Hrange : ∀ p e', (p, e') ∈ es → disjoint_ranges (entry_range (p, e')) (buf, len)).
  { intros p e' Hin. apply Hdis, list_elem_of_fmap. by exists (p, e'). }
  exists ar, buf. cbn zeta. split_and!.
  - unfold Add_version, Add. cbn zeta. rewrite E1. cbn [mbind option_bind]. rewrite E2.
    cbn [mbind option_bind]. fold len. rewrite E3, Hal. cbn [mbind option_bind].
    rewrite F1. cbn [mbind option_bind]. rewrite F2. cbn [mbind option_bind].
    rewrite F3. cbn [mbind option_bind]. rewrite F4. cbn [mbind option_bind].
    rewrite F5. cbn [mbind option_bind]. by rewrite F6, Z.eqb_refl.
  - exists used. split; [|done].
    change (entry_range <$> (buf, e) :: es)
      with ((buf, Z.of_nat (length (entry e))) :: (entry_range <$> es)).
    by rewrite Hlen.
  - intros p e' [Hpe|Hin]%elem_of_cons; [simplify_eq; apply holds_write|].
    apply holds_write_frame; [|by apply Hmem]. rewrite Hlen. by apply Hrange.
  - intros e' Hin%Hrange.
    assert (0 < length (entry e'))%nat by (unfold entry; rewrite !length_app, length_ikey; lia).
    unfold disjoint_ranges, entry_range in Hin. cbn [fst snd] in Hin. lia.
Qed.

Lemma Add_eq mt es e :
  MT mt es → version_ok e → (∀ p e', (p, e') ∈ es → ¬ same_version e e') →
  ∃ mt' p, Add_version uc mt e = Some mt' ∧ MT mt' ((p, e) :: es) ∧ refs_ mt' = refs_ mt.
Proof using Type*.
  intros [(L & ks & Hsl & Hks) How Hmem Hok] He Hne.
  destruct (Add_entry mt es e How Hmem He) as (ar & buf & -> & How1 & Hhold & _).
  set (m := write (mem_ mt) buf (entry e)) in *.
  assert (Hok' : ∀ p e', (p, e') ∈ (buf, e) :: es → version_ok e').
  { intros p e' [Hpe|Hin]%elem_of_cons; [by simplify_eq|by eapply Hok]. }
  assert (Hks' : ∀ k, k ∈ ks → ∃ p e', k = InMem p ∧ (p, e') ∈ es).
  { intros k. rewrite Hks. intros ([p e'] & -> & Hin)%list_elem_of_fmap. by exists p, e'. }
  assert (Hin : ∀ p e', (p, e') ∈ es → version_ok e' ∧ holds m (InMem p) (entry e')).
  { intros p e' ?. split; [eapply Hok'|apply Hhold]; by right. }
  assert (Hnew : holds m (InMem buf) (entry e)) by (apply Hhold; by left).
  assert (Hsl' : SL (KeyComparator uc m) (kptr_ok ok m) (table_ mt) L ks).
  { revert Hsl. apply SL_mono.
    - intros a b (p & e1 & -> & H1)%Hks' (q & e2 & -> & H2)%Hks'.
      destruct (Hin _ _ H1), (Hin _ _ H2). rewrite !(entry_compare _ p q e1 e2); auto.
    - intros a (p & e1 & -> & H1)%Hks' _. destruct (Hin _ _ H1). exists (ikey e1).
      split; [by apply entry_prefixed|by apply ikey_ok]. }
  assert (Hk : kptr_ok ok m (InMem buf)).
  { exists (ikey e). split; [by apply entry_prefixed|by apply ikey_ok]. }
  destruct (Insert_eq (KeyComparator uc m) (kptr_ok ok m) _ ar (table_ mt) L ks (InMem buf) Hsl' How1 Hk)
    as (ar' & t & x & -> & Hsl2 & How2).
  { apply Forall_forall. intros k (p & e' & -> & H1)%Hks' Heq. destruct (Hin _ _ H1).
    apply (Hne p e' H1), ikey_eqv; [done..|].
    unfold keqv in Heq. by rewrite (entry_compare m buf p e e') in Heq by done. }
  cbn [mbind option_bind]. eexists _, buf. split; [reflexivity|]. split; [|done].
  split; cbn [mem_ arena_ table_]; [|done..].
  eexists _, _. split; [exact Hsl2|]. by rewrite insert_at_perm, Hks.
Qed.

(** The table's pointers with their versions, in order. *)
Lemma MT_view mt es : MT mt es →
  ∃ L vs, SL (KeyComparator uc (mem_ mt)) (kptr_ok ok (mem_ mt)) (table_ mt) L
            ((λ pe, InMem pe.1) <$> vs)
    ∧ vs ≡ₚ es
    ∧ (∀ j p e, vs !! j = Some (p, e) → (p, e) ∈ es
         ∧ version_ok e ∧ holds (mem_ mt) (InMem p) (entry e))
    ∧ ∀ i j p q e e', vs !! i = Some (p, e) → vs !! j = Some (q, e') → (i < j)%nat →
        cmp_lt (InternalKeyComparator uc) (ikey e) (ikey e').
Proof using Type*.
  intros [(L & ks & Hsl & Hks) How Hmem Hok].
  apply Permutation_map_inv in Hks as (vs & Ek & Hp). exists L, vs.
  change (map _ vs) with ((λ pe : Z * version, InMem pe.1) <$> vs) in Ek. subst ks.
  assert (Hin : ∀ j p e, vs !! j = Some (p, e) → (p, e) ∈ es
            ∧ version_ok e ∧ holds (mem_ mt) (InMem p) (entry e)).
  { intros j p e Hj%list_elem_of_lookup_2. rewrite <- Hp in Hj. eauto. }
  split_and!; try done.
  intros i j p q e e' Hi Hj Hij.
  destruct (Hin _ _ _ Hi) as (_ & ? & ?), (Hin _ _ _ Hj) as (_ & ? & ?).
  assert (klt (KeyComparator uc (mem_ mt)) (InMem p) (InMem q)) as (r & Hr & ?).
  { destruct Hsl as [[] _].
    apply (klt_lookup (KeyComparator uc (mem_ mt)) _ i j _ _ sl_sorted);
      [by rewrite list_lookup_fmap, Hi|by rewrite list_lookup_fmap, Hj|done]. }
  rewrite (entry_compare _ p q e e') in Hr by done. by exists r.
Qed.

(** Where a seek with a well-formed target stops. *)
Lemma seek_view mt (es : list (Z * version)) target tk L vs :
  SL (KeyComparator uc (mem_ mt)) (kptr_ok ok (mem_ mt)) (table_ mt) L ((λ pe, InMem pe.1) <$> vs) →
  (∀ j p e, vs !! j = Some (p, e) → (p, e) ∈ es
     ∧ version_ok e ∧ holds (mem_ mt) (InMem p) (entry e)) →
  prefixed_bytes (mem_ mt) target = Some tk → internal_ok ok tk →
  ∃ j, Iter_Seek (KeyComparator uc (mem_ mt)) (table_ mt) target = Some (cursor L j)
    ∧ (j ≤ length vs)%nat
    ∧ ∀ i p e, vs !! i = Some (p, e) →
        cmp_lt (InternalKeyComparator uc) (ikey e) tk ↔ (i < j)%nat.
Proof using Type*.
  intros Hsl Hin Ht Hok. set (ks := (λ pe : Z * version, InMem pe.1) <$> vs) in *.
  assert (Hk : kptr_ok ok (mem_ mt) target) by (by exists tk).
  exists (rank (KeyComparator uc (mem_ mt)) ks target). split_and!.
  - by apply Seek_eq with (ok := kptr_ok ok (mem_ mt)); [apply _|..].
  - rewrite rank_le. subst ks. by rewrite length_fmap.
  - intros i p e Hi. destruct (Hin _ _ _ Hi) as (_ & He & Hh). destruct Hsl as [[] _].
    rewrite <- (rank_lt (KeyComparator uc (mem_ mt)) (kptr_ok ok (mem_ mt)) ks target i (InMem p));
      try done; [|subst ks; by rewrite list_lookup_fmap, Hi].
    unfold klt, cmp_lt. by rewrite (KeyComparator_eq uc _ _ _ (ikey e) tk) by (done || by apply entry_prefixed).
Qed.

(** ** What a lookup is meant to find *)

(** The versions of a key a reader at sequence number [seq] may see, and the
    newest of them. *)
Definition visible (ukey : bytes) (seq : Z) (e : version) : Prop :=
  cmp_eqv uc (v_key e) ukey ∧ v_seq e <= seq.
#[export] Instance visible_dec ukey seq e : Decision (visible ukey seq e).
Proof. unfold visible, cmp_eqv. apply _. Defined.

Definition vtag (e : version) : Z := tag_of (v_seq e) (v_type e).

Fixpoint newest (ukey : bytes) (seq : Z) (vs : list version) : option version :=
  match vs with
  | [] => None
  | e :: vs =>
    let n := newest ukey seq vs in
    if decide (visible ukey seq e) then
      match n with Some e' => if vtag e' <? vtag e then Some e else n | None => Some e end
    else n
  end.

(** What [Get] reports of it: a value, a deletion, or nothing. *)
Definition get_result (r : option version) (value : bytes) (s : Status) : option (bool * bytes * Status) :=
  match r with
  | None => Some (false, value, s)
  | Some e =>
    match v_type e with
    | kTypeValue => Some (true, v_value e, s)
    | kTypeDeletion => st ← NotFound [] []; Some (true, value, st)
    end
  end.

Lemma newest_spec ukey seq vs :
  match newest ukey seq vs with
  | Some e => e ∈ vs ∧ visible ukey seq e
              ∧ ∀ e', e' ∈ vs → visible ukey seq e' → vtag e' <= vtag e
  | None => ∀ e, e ∈ vs → ¬ visible ukey seq e
  end.
Proof.
  induction vs as [|e vs IH]; cbn; [intros e He; by apply not_elem_of_nil in He|].
  case_decide as Hv; destruct (newest ukey seq vs) as [n|].
  - destruct IH as (Hn & Hnv & Hmax). destruct (Z.ltb_spec (vtag n) (vtag e)).
    + split_and!; [by left|done|]. intros e' [->|He']%elem_of_cons Hv'; [done|].
      specialize (Hmax e' He' Hv'). lia.
    + split_and!; [by right|done|]. intros e' [->|He']%elem_of_cons Hv'; [lia|auto].
  - split_and!; [by left|done|]. intros e' [->|He']%elem_of_cons Hv'; [done|]. by destruct (IH e' He').
  - destruct IH as (Hn & Hnv & Hmax). split_and!; [by right|done|].
    intros e' [->|He']%elem_of_cons Hv'; [done|auto].
  - intros e' [->|He']%elem_of_cons; [done|auto].
Qed.

(** The part of [Get] after the seek, at an entry. *)
Lemma Get_entry mt k value s it p e :
  Iter_Seek (KeyComparator uc (mem_ mt)) (table_ mt) (InBuf (lk_buf k) 0) = Some it →
  Iter_Valid it = true → Iter_key (table_ mt) it = Some (InMem p) →
  version_ok e → holds (mem_ mt) (InMem p) (entry e) →
  Get uc mt k value s =
    (c ← Compare uc (v_key e) (LookupKey_user_key k);
     if c =? 0 then get_result (Some e) value s else Some (false, value, s)).
Proof.
  intros Hs Hv Hk He Hh. destruct (entry_parts (mem_ mt) p e He Hh) as (Hn & Hvi & Huk & Htag & _ & Hval).
  set (n := Z.of_nat (length (ikey e))) in *.
  assert (Hln : n = Z.of_nat (length (v_key e)) + 8) by (pose proof (length_ikey e); lia).
  unfold Get. rewrite Hs. cbn [mbind option_bind]. rewrite Hv, Hk. cbn [mbind option_bind].
  rewrite (GetVarint32Ptr_holds _ _ n) by done. cbn [mbind option_bind cptr_add].
  rewrite u32_small by lia. replace (n - 8) with (Z.of_nat (length (v_key e))) at 1 by lia.
  rewrite (slice_holds _ _ _ Huk). cbn [mbind option_bind].
  destruct (Compare uc (v_key e) (LookupKey_user_key k)) as [c|]; cbn [mbind option_bind]; [|done].
  destruct (c =? 0); [|done].
  apply window_exact in Htag. rewrite length_le_bytes in Htag. cbn [cptr_add] in Htag, Hval.
  rewrite Htag. pose proof (DecodeFixed64_app [] (le_bytes 8 (tag_of (v_seq e) (v_type e))) []
    ltac:(apply length_le_bytes)) as Ed.
  rewrite app_nil_r in Ed. cbn [app length] in Ed. rewrite Ed. cbn [mbind option_bind].
  rewrite le_value_le_bytes, Z.mod_small by (apply tag_range; by destruct He as (_ & ? & _)).
  change (Z.land ?x 0xff) with (Z.land x 255). rewrite land_255.
  unfold tag_of. rewrite Z.add_comm, Z_mod_plus_full. unfold get_result.
  destruct (v_type e); cbn [ValueType_value].
  - reflexivity.
  - change (1 mod 256 =? 1) with true. cbn iota. rewrite Hval. reflexivity.
Qed.

Lemma LookupKey_target m k ukey seq :
  0 <= seq <= kMaxSequenceNumber → Z.of_nat (length ukey) + 8 < 2 ^ 32 →
  LookupKey_new ukey seq = Some k →
  prefixed_bytes m (InBuf (lk_buf k) 0) = Some (encode_internal ukey seq kTypeValue)
  ∧ LookupKey_user_key k = ukey.
Proof.
  intros Hs Hl E. destruct (LookupKey_new_eq ukey seq Hs Hl) as [rest E']. rewrite E in E'.
  injection E' as ->. cbn [lk_buf].
  pose proof (length_encode_internal ukey seq kTypeValue) as Hle. split.
  - apply prefixed_bytes_holds; [lia|]. rewrite Hle.
    replace (Z.of_nat (length ukey + 8)) with (Z.of_nat (length ukey) + 8) by lia.
    pose proof (holds_buf m [] (varint (Z.of_nat (length ukey) + 8) ++ encode_internal ukey seq kTypeValue) rest) as Hb.
    by rewrite <- (assoc_L (++)) in Hb.
  - unfold LookupKey_user_key. cbn [lk_buf kstart_ end_]. rewrite drop_app_length.
    unfold encode_internal. rewrite <- (assoc_L (++)).
    replace (_ + _ - _ - 8)%nat with (length ukey) by lia. apply take_app_length.
Qed.

(** An entry is before the lookup's target if its key is smaller or it is too
    new to be seen. *)
Lemma before_target e ukey seq :
  version_ok e → ok ukey → 0 <= seq <= kMaxSequenceNumber →
  cmp_lt (InternalKeyComparator uc) (ikey e) (encode_internal ukey seq kTypeValue)
  ↔ cmp_lt uc (v_key e) ukey ∨ (cmp_eqv uc (v_key e) ukey ∧ ¬ v_seq e <= seq).
Proof using Type*.
  intros He Hk Hs. pose proof (ikey_ok e He) as Hi. destruct He as (_ & Hse & _).
  assert (internal_ok ok (encode_internal ukey seq kTypeValue)) as Hit.
  { split; [rewrite length_encode_internal; lia|by rewrite user_part_encode]. }
  rewrite (ikc_lt uc ok _ _ Hi Hit). unfold ikey.
  rewrite !user_part_encode, !tag_part_encode by done. unfold tag_of. cbn [ValueType_value].
  assert (0 <= ValueType_value (v_type e) <= 1) by (destruct (v_type e); cbn; lia).
  split; (intros [?|[? ?]]; [by left|right; split; [done|lia]]).
Qed.

(** A version the target does not pass, with a visible one behind it, is for the
    same key and newer. *)
Lemma between_target e e' ukey seq :
  version_ok e → version_ok e' → ok ukey →
  ¬ (cmp_lt uc (v_key e) ukey ∨ (cmp_eqv uc (v_key e) ukey ∧ ¬ v_seq e <= seq)) →
  cmp_lt (InternalKeyComparator uc) (ikey e) (ikey e') → visible ukey seq e' →
  cmp_eqv uc (v_key e) ukey ∧ vtag e' < vtag e.
Proof using Type*.
  intros He He' Hk Hge Hlt [Heq' _].
  apply (ikc_lt uc ok _ _ (ikey_ok e He) (ikey_ok e' He')) in Hlt.
  destruct He as (Hoke & Hse & _). destruct He' as (Hok' & Hse' & _).
  unfold ikey in Hlt. rewrite !user_part_encode, !tag_part_encode in Hlt by done.
  fold (vtag e) (vtag e') in Hlt. destruct Hlt as [Hlt|[Heq Hlt]].
  - exfalso. assert (cmp_le uc ukey (v_key e)) as Hn.
    { apply (cmp_not_lt uc ok); [done..|]. intros ?. apply Hge. by left. }
    assert (cmp_le uc (v_key e') (v_key e)) as Hle'.
    { apply (cmp_trans (ok := ok) _ ukey); try done. by apply cmp_eqv_le. }
    by apply (cmp_not_lt uc ok) in Hle'.
  - split; [|done]. by apply (cmp_eqv_trans uc ok _ (v_key e')).
Qed.

(** Where the seek stops: no visible version is before it, and if the version
    there is not for this key no version is visible. *)
Lemma Get_eq mt es k ukey seq value s :
  MT mt es → ok ukey → 0 <= seq <= kMaxSequenceNumber →
  Z.of_nat (length ukey) + 8 < 2 ^ 32 → LookupKey_new ukey seq = Some k →
  Get uc mt k value s = get_result (newest ukey seq es.*2) value s.
Proof using Type*.
  intros Hmt Hk Hseq Hlen HLk. destruct (MT_view mt es Hmt) as (L & vs & Hsl & Hp & Hin & Hsort).
  destruct (LookupKey_target (mem_ mt) k ukey seq Hseq Hlen HLk) as [Htk Huk].
  destruct (seek_view mt es _ _ L vs Hsl Hin Htk) as (j & Hseek & Hj & Hbef).
  { split; [rewrite length_encode_internal; lia|by rewrite user_part_encode]. }
  assert (Hvis : ∀ e, e ∈ es.*2 → visible ukey seq e → ∃ i q, vs !! i = Some (q, e) ∧ (j ≤ i)%nat).
  { intros e ([q e0] & -> & He)%list_elem_of_fmap [Heq Hle]. cbn in *.
    rewrite <- Hp in He. apply list_elem_of_lookup in He as [i Hi]. exists i, q. split; [done|].
    destruct (decide (j ≤ i)%nat); [done|]. exfalso.
    assert (i < j)%nat as Hlt by lia. apply (Hbef i q e0 Hi) in Hlt.
    destruct (Hin _ _ _ Hi) as (_ & He0 & _).
    apply before_target in Hlt as [Hlt|[_ ?]]; [|done..].
    by apply (cmp_eqv_not_lt uc ok (v_key e0) ukey); [destruct He0| | |]. }
  pose proof (newest_spec ukey seq es.*2) as Hnew.
  destruct (vs !! j) as [[p e]|] eqn:Hat.
  - destruct (Hin j p e Hat) as (Hes & He & Hh).
    assert (Hkj : ((λ pe : Z * version, InMem pe.1) <$> vs) !! j = Some (InMem p))
      by (by rewrite list_lookup_fmap, Hat).
    destruct (Iter_at _ (kptr_ok ok (mem_ mt)) _ _ _ j _ Hsl Hkj) as (Hkey & _).
    rewrite (Get_entry mt k value s (cursor L j) p e); try done.
    2: { rewrite (Valid_cursor _ (kptr_ok ok (mem_ mt)) _ _ _ j Hsl).
         apply bool_decide_eq_true_2. rewrite length_fmap. by eapply lookup_lt_Some. }
    rewrite Huk. assert (ok (v_key e)) as Hoke by by destruct He.
    destruct (cmp_total (v_key e) ukey Hoke Hk) as [c Hc]. rewrite Hc. cbn [mbind option_bind].
    assert (Hge : ¬ (cmp_lt uc (v_key e) ukey ∨ (cmp_eqv uc (v_key e) ukey ∧ ¬ v_seq e <= seq))).
    { rewrite <- before_target by done. rewrite (Hbef j p e Hat). lia. }
    assert (Hlater : ∀ e', e' ∈ es.*2 → visible ukey seq e' →
              e' = e ∨ cmp_eqv uc (v_key e) ukey ∧ vtag e' < vtag e).
    { intros e' He' Hv'. destruct (Hvis e' He' Hv') as (i & q & Hi & Hle).
      destruct (decide (i = j)) as [->|Hne]; [left; by simplify_eq|right].
      destruct (Hin i q e' Hi) as (_ & Hoe' & _).
      apply (between_target e e' ukey seq); try done. apply (Hsort j i p q e e'); [done..|lia]. }
    destruct (Z.eqb_spec c 0) as [->|Hc0].
    + assert (Hve : visible ukey seq e).
      { split; [done|]. destruct (decide (v_seq e <= seq)); [done|]. exfalso. apply Hge. by right. }
      assert (He2 : e ∈ es.*2) by (apply list_elem_of_fmap; by exists (p, e)).
      destruct (newest ukey seq es.*2) as [e'|]; [|by destruct (Hnew e He2)].
      destruct Hnew as (He' & Hv' & Hmax). specialize (Hmax e He2 Hve).
      destruct (Hlater e' He' Hv') as [->|[_ ?]]; [done|lia].
    + destruct (newest ukey seq es.*2) as [e'|]; [|done]. destruct Hnew as (He' & Hv' & _).
      destruct (Hlater e' He' Hv') as [->|[Heq _]].
      * destruct Hv' as [Heq _]. unfold cmp_eqv in Heq. by simplify_eq.
      * unfold cmp_eqv in Heq. by simplify_eq.
  - unfold Get. rewrite Hseek. cbn [mbind option_bind].
    rewrite (Valid_cursor _ (kptr_ok ok (mem_ mt)) _ _ _ j Hsl), length_fmap.
    apply lookup_ge_None in Hat. rewrite bool_decide_eq_false_2 by lia.
    destruct (newest ukey seq es.*2) as [e'|]; [|done]. destruct Hnew as (He' & Hv' & _).
    destruct (Hvis e' He' Hv') as (i & q & Hi & ?). apply lookup_lt_Some in Hi. lia.
Qed.

Lemma add_all_MT vs : ∀ mt es,
  MT mt es → Forall version_ok vs → ForallOrdPairs (λ e e', ¬ same_version e' e) vs →
  (∀ e p e', e ∈ vs → (p, e') ∈ es → ¬ same_version e e') →
  ∃ mt' es', add_all uc mt vs = Some mt' ∧ MT mt' es' ∧ es'.*2 = reverse vs ++ es.*2
    ∧ refs_ mt' = refs_ mt.
Proof using Type*.
  induction vs as [|e vs IH]; intros mt es Hmt Hok Hpair Hne.
  { by exists mt, es. }
  apply Forall_cons in Hok as [He Hok]. inversion Hpair as [|? ? Hp1 Hp2]; subst.
  destruct (Add_eq mt es e Hmt He) as (mt1 & p & Hadd & Hmt1 & Hr1).
  { intros q e' Hin. apply (Hne e q e'); [by left|done]. }
  cbn [add_all]. rewrite Hadd. cbn [mbind option_bind].
  destruct (IH mt1 ((p, e) :: es) Hmt1 Hok Hp2) as (mt' & es' & -> & Hmt' & Hes & Hr).
  - intros e' q e2 He' [Hq|Hq]%elem_of_cons; [|apply (Hne e' q e2); [by right|done]].
    simplify_eq. rewrite Forall_forall in Hp1. by apply Hp1.
  - exists mt', es'. split_and!; [done|done| |congruence].
    rewrite Hes, reverse_cons, <- (assoc_L (++)). done.
Qed.

(** C4: the memtable is the multi-version map it is meant to be.  Over any lawful
    user comparator, adding to a new table any versions of which no two have an
    equivalent key, the same sequence number and the same type succeeds, and a
    [Get] at sequence number [seq] then answers exactly what the newest version
    of the key at or below [seq] says: its value, a NotFound status for a
    deletion, or "not here" if there is none; entries, their arena memory and
    the lookup key are never read or written out of bounds. *)
Theorem MemTable_refines_versions vs :
  Forall version_ok vs → ForallOrdPairs (λ e e', ¬ same_version e' e) vs →
  ∃ mt0 mt, MemTable_new = Some mt0 ∧ add_all uc mt0 vs = Some mt
    ∧ ∀ ukey seq value s, ok ukey → 0 <= seq <= kMaxSequenceNumber →
        Z.of_nat (length ukey) + 8 < 2 ^ 32 →
        ∃ k, LookupKey_new ukey seq = Some k
          ∧ Get uc mt k value s = get_result (newest ukey seq (reverse vs)) value s.
Proof using Type*.
  intros Hok Hp. destruct MemTable_new_MT as (mt0 & Hnew & Hmt0 & _).
  destruct (add_all_MT vs mt0 [] Hmt0 Hok Hp) as (mt & es & Hadd & Hmt & Hes & _).
  { intros e p e' _ Hin. by apply not_elem_of_nil in Hin. }
  rewrite app_nil_r in Hes. exists mt0, mt. split_and!; [done..|].
  intros ukey seq value s Hk Hs Hl. destruct (LookupKey_new_eq ukey seq Hs Hl) as [rest E].
  eexists. split; [exact E|]. rewrite <- Hes. by apply Get_eq.
Qed.

(** The memtable's iterator walks the added versions in internal-key order
    (user keys ascending, newest first within a key): [SeekToFirst],
    [SeekToLast] and [Seek] stand where they should, [key] and [value] decode
    exactly the internal key and the value that were added, [Next] and [Prev]
    move by one and past either end the iterator is not valid. *)
Theorem MemTableIterator_correct mt es :
  MT mt es →
  ∃ L vs, vs ≡ₚ es.*2
    ∧ (∀ i j e e', vs !! i = Some e → vs !! j = Some e' → (i < j)%nat →
         cmp_lt (InternalKeyComparator uc) (ikey e) (ikey e'))
    ∧ MIter_SeekToFirst mt = Some (cursor L 0)
    ∧ MIter_SeekToLast mt = Some (match length vs with O => 0 | S i => cursor L i end)
    ∧ (∀ k, internal_ok ok k → Z.of_nat (length k) < 2 ^ 32 →
         ∃ j, MIter_Seek uc mt k = Some (cursor L j)
           ∧ ∀ i e, vs !! i = Some e →
               cmp_lt (InternalKeyComparator uc) (ikey e) k ↔ (i < j)%nat)
    ∧ ∀ j, MIter_Valid (cursor L j) = bool_decide (j < length vs)%nat
      ∧ ∀ e, vs !! j = Some e →
          MIter_key mt (cursor L j) = Some (ikey e)
          ∧ MIter_value mt (cursor L j) = Some (v_value e)
          ∧ MIter_Next mt (cursor L j) = Some (cursor L (S j))
          ∧ MIter_Prev uc mt (cursor L j) = Some (match j with O => 0 | S i => cursor L i end).
Proof using Type*.
  intros Hmt. destruct (MT_view mt es Hmt) as (L & vs & Hsl & Hp & Hin & Hsort).
  assert (Hlk : ∀ j e, vs.*2 !! j = Some e → ∃ p, vs !! j = Some (p, e)).
  { intros j e He. rewrite list_lookup_fmap in He. destruct (vs !! j) as [[p e0]|]; [|done].
    cbn in He. exists p. by simplify_eq. }
  exists L, vs.*2. split_and!.
  - by rewrite Hp.
  - intros i j e e' (p & Hi)%Hlk (q & Hj)%Hlk. by apply (Hsort i j p q).
  - by apply (SeekToFirst_eq _ _ _ _ _ Hsl).
  - unfold MIter_SeekToLast. rewrite (SeekToLast_eq _ _ _ _ _ Hsl).
    by rewrite (length_keys _ _ _ _ _ Hsl), !length_fmap.
  - intros k Hk Hl. unfold MIter_Seek, EncodeKey.
    rewrite u32_small, PutVarint32_eq by lia. cbn [mbind option_bind app].
    destruct (seek_view mt es (InBuf (varint (Z.of_nat (length k)) ++ k) 0) k L vs Hsl Hin)
      as (j & Hs & _ & Hb); [|done|].
    + apply prefixed_bytes_holds; [done|].
      pose proof (holds_buf (mem_ mt) [] (varint (Z.of_nat (length k)) ++ k) []) as Hh.
      by rewrite app_nil_r in Hh.
    + exists j. split; [done|]. intros i e (p & Hi)%Hlk. by eapply Hb.
  - intros j. split.
    { unfold MIter_Valid. rewrite (Valid_cursor _ _ _ _ _ _ Hsl). by rewrite !length_fmap. }
    intros e (p & Hj)%Hlk. destruct (Hin j p e Hj) as (_ & He & Hh).
    destruct (Iter_at _ _ _ _ _ j (InMem p) Hsl) as (Hkey & Hn & Hpv); [by rewrite list_lookup_fmap, Hj|].
    destruct (entry_parts _ _ _ He Hh) as (Hlen & Hvi & _ & _ & Hpk & Hpv2).
    unfold MIter_key, MIter_value. rewrite Hkey. cbn [mbind option_bind].
    split_and!; try done.
    rewrite (GetLengthPrefixedSlice_holds _ _ _ Hlen Hvi). cbn [mbind option_bind]. done.
Qed.
End invariant.

(** ** Witnesses *)

Definition version_a1 : version :=
  {| v_key := str "a"; v_seq := 1; v_type := kTypeValue; v_value := str "one" |}.
Definition version_a3 : version :=
  {| v_key := str "a"; v_seq := 3; v_type := kTypeDeletion; v_value := [] |}.

Lemma version_a1_ok : version_ok any_key version_a1.
Proof. by vm_compute. Qed.
Lemma version_a3_ok : version_ok any_key version_a3.
Proof. by vm_compute. Qed.
Lemma a1_a3_differ : ¬ same_version LexComparator version_a3 version_a1.
Proof. by intros (_ & ? & _). Qed.

Lemma MemTable_refines_versions_witness :
  let vs := [version_a1; version_a3] in
  Forall (version_ok any_key) vs
  ∧ ∃ mt0 mt k st, MemTable_new = Some mt0 ∧ add_all LexComparator mt0 vs = Some mt
      ∧ LookupKey_new (str "a") 2 = Some k
      ∧ Get LexComparator mt k [] OK = Some (true, str "one", OK)
      ∧ ∃ k', LookupKey_new (str "a") 7 = Some k'
        ∧ NotFound [] [] = Some st ∧ Get LexComparator mt k' [] OK = Some (true, [], st).
Proof.
  intros vs. assert (Forall (version_ok any_key) vs) as Hok.
  { repeat constructor; first [exact version_a1_ok|exact version_a3_ok|by vm_compute]. }
  split; [done|].
  destruct (MemTable_refines_versions LexComparator any_key vs Hok) as (mt0 & mt & Hnew & Hadd & Hget).
  { repeat constructor. exact a1_a3_differ. }
  destruct (Hget (str "a") 2 [] OK I ltac:(by vm_compute) ltac:(by vm_compute)) as (k & Hk & Hg).
  destruct (Hget (str "a") 7 [] OK I ltac:(by vm_compute) ltac:(by vm_compute)) as (k' & Hk' & Hg').
  eexists mt0, mt, k, _. split_and!; [done|done|done|by rewrite Hg|].
  exists k'. split; [done|]. split; [by vm_compute|by rewrite Hg'].
Defined.

Lemma MemTableIterator_correct_witness :
  ∃ mt es, MT LexComparator any_key mt es ∧ es.*2 = [version_a1]
    ∧ ∃ it, MIter_SeekToFirst mt = Some it ∧ MIter_Valid it = true
      ∧ MIter_key mt it = Some (ikey version_a1) ∧ MIter_value mt it = Some (str "one").
Proof.
  destruct (MemTable_new_MT LexComparator any_key) as (mt0 & _ & Hmt0 & _).
  destruct (Add_eq LexComparator any_key mt0 [] version_a1 Hmt0 version_a1_ok)
    as (mt & p & _ & Hmt & _).
  { intros q e' Hin. by apply not_elem_of_nil in Hin. }
  exists mt, [(p, version_a1)]. split_and!; [done|done|].
  destruct (MemTableIterator_correct LexComparator any_key mt _ Hmt)
    as (L & vs & Hp & _ & Hf & _ & _ & Hat).
  assert (vs = [version_a1]) as -> by by apply Permutation_singleton_r in Hp.
  destruct (Hat 0%nat) as [Hv Hk]. destruct (Hk version_a1 eq_refl) as (? & ? & _).
  exists (cursor L 0). by split_and!.
Defined.
