(* ===== verification/BytewiseTable.v ===== *)
(** The memtable over the built-in comparator.

    [BytewiseComparator] never answers 0, so the memtable of db/memtable.cc takes
    equal user keys for different ones: a key added later is put before the equal
    ones.  That is an order all the same, the one of [tie] below, in which the tests
    of the skip list come out as they do with the comparator; so adding works, and
    walking the table, and no look-up finds anything. *)
From Stdlib Require Import Sorted.
From S2P Require Import Prelude Slice Coding Comparator DbFormat Status Random Arena SkipList MemTable.
Local Open Scope Z_scope.

#[export] Instance cptr_eq_dec : EqDecision cptr.
Proof. solve_decision. Defined.

(** The order of the entries: by user key, and among equal ones by rank. *)
Definition tie (rk : cptr → Z) (m : memory) (p q : cptr) : option Z :=
  a ← prefixed_bytes m p; b ← prefixed_bytes m q;
  ua ← ExtractUserKey a; ub ← ExtractUserKey b;
  Some (match lex_compare ua ub with Lt => -1 | Gt => 1 | Eq => rk p - rk q end).

Abbreviation pointer_ok := (kptr_ok any_key).

(** [p] before all pointers that have a rank so far. *)
Definition promote (rk : cptr → Z) (n : Z) (p : cptr) : cptr → Z :=
  λ q, if decide (q = p) then n else rk q.

Section order.
Implicit Types (rk : cptr → Z) (m : memory) (p q : cptr).

Lemma pointer_user m p :
  pointer_ok m p → ∃ u, (a ← prefixed_bytes m p; ExtractUserKey a) = Some u.
Proof.
  intros (k & Hk & Hlen & _). rewrite Hk. cbn [mbind option_bind].
  rewrite ExtractUserKey_eq by done. by eexists.
Qed.

Lemma tie_eq rk m p q u v :
  (a ← prefixed_bytes m p; ExtractUserKey a) = Some u →
  (b ← prefixed_bytes m q; ExtractUserKey b) = Some v →
  tie rk m p q = Some (match lex_compare u v with Lt => -1 | Gt => 1 | Eq => rk p - rk q end).
Proof.
  intros (a & Ha & Hu)%bind_Some (b & Hb & Hv)%bind_Some. unfold tie.
  rewrite Ha, Hb. cbn [mbind option_bind]. by rewrite Hu, Hv.
Qed.

#[export] Instance tie_order rk m : KeyOrder (tie rk m) (pointer_ok m).
Proof.
  split.
  - intros p q (u & Hu)%pointer_user (v & Hv)%pointer_user. rewrite (tie_eq rk m p q u v) by done. by eexists.
  - intros p q r s (u & Hu)%pointer_user (v & Hv)%pointer_user.
    rewrite (tie_eq rk m p q u v), (tie_eq rk m q p v u) by done. intros [= <-] [= <-].
    rewrite (lex_antisym u v). destruct (lex_compare u v); cbn; lia.
  - intros p q t r s x (u & Hu)%pointer_user (v & Hv)%pointer_user (z & Hz)%pointer_user.
    rewrite (tie_eq rk m p q u v), (tie_eq rk m q t v z), (tie_eq rk m p t u z) by done.
    intros [= <-] [= <-] [= <-]. destruct (lex_compare u v) eqn:E1; [|intros _|lia].
    + apply lex_eq in E1 as ->. destruct (lex_compare v z) eqn:E2; lia.
    + destruct (lex_compare v z) eqn:E2; [|intros _|lia].
      * apply lex_eq in E2 as ->. rewrite E1. lia.
      * by rewrite (lex_lt_trans u v z E1 E2).
Qed.

Lemma Slice_compare_nz a b : Slice_compare a b ≠ 0.
Proof. pose proof (Slice_compare_spec a b). destruct (lex_compare a b); lia. Qed.

(** The comparator on two pointers. *)
Lemma KeyComparator_bytewise m p q :
  KeyComparator BytewiseComparator m p q
  = (a ← prefixed_bytes m p; b ← prefixed_bytes m q;
     ua ← ExtractUserKey a; ub ← ExtractUserKey b; Some (Slice_compare ua ub)).
Proof.
  unfold KeyComparator. destruct (prefixed_bytes m p) as [a|]; [|done].
  destruct (prefixed_bytes m q) as [b|]; [|done]. cbn [mbind option_bind Compare InternalKeyComparator].
  unfold InternalKeyComparator_Compare. destruct (ExtractUserKey a) as [ua|]; [|done].
  destruct (ExtractUserKey b) as [ub|]; [|done]. cbn.
  by rewrite (proj2 (Z.eqb_neq _ _) (Slice_compare_nz ua ub)).
Qed.

(** A pointer of lowest rank is compared as the comparator does. *)
Lemma tie_alike rk m p :
  (∀ q, rk p <= rk q) → alike_before (KeyComparator BytewiseComparator m) (tie rk m) p.
Proof.
  intros Hp q. rewrite KeyComparator_bytewise. unfold tie.
  destruct (prefixed_bytes m q) as [a|]; [|done]. destruct (prefixed_bytes m p) as [b|]; [|done].
  cbn [mbind option_bind]. destruct (ExtractUserKey a) as [ua|]; [|done].
  destruct (ExtractUserKey b) as [ub|]; [|done]. cbn [mbind option_bind]. specialize (Hp q).
  f_equal. pose proof (Slice_compare_spec ua ub) as Hs.
  destruct (lex_compare ua ub); [rewrite !(proj2 (Z.ltb_ge _ _)) by lia|rewrite !(proj2 (Z.ltb_lt _ _)) by lia
                                |rewrite !(proj2 (Z.ltb_ge _ _)) by lia]; done.
Qed.

Lemma tie_equal rk m p q :
  rk p < rk q → Equal (KeyComparator BytewiseComparator m) p q = Equal (tie rk m) p q.
Proof.
  intros Hlt. unfold Equal. rewrite KeyComparator_bytewise. unfold tie.
  destruct (prefixed_bytes m p) as [a|]; [|done]. destruct (prefixed_bytes m q) as [b|]; [|done].
  cbn [mbind option_bind]. destruct (ExtractUserKey a) as [ua|]; [|done].
  destruct (ExtractUserKey b) as [ub|]; [|done]. cbn [mbind option_bind].
  rewrite (proj2 (Z.eqb_neq _ _) (Slice_compare_nz ua ub)), (proj2 (Z.eqb_neq _ _)); [done|].
  destruct (lex_compare ua ub); lia.
Qed.
End order.

(** An iterator that starts at the first entry meets the versions [vs], each as
    often as it is there, in some order, and then is not valid. *)
Definition walks (mt : MemTable) (vs : list version) : Prop :=
  ∃ L es, es ≡ₚ vs ∧ MIter_SeekToFirst mt = Some (cursor L 0) ∧
    ∀ j, MIter_Valid (cursor L j) = bool_decide (j < length es)%nat ∧
      ∀ e, es !! j = Some e →
        MIter_key mt (cursor L j) = Some (ikey e) ∧ MIter_Next mt (cursor L j) = Some (cursor L (S j)).

(** ** The invariant *)
Section invariant.
Context `{NewChar} `{!NewCharLaws}.
Implicit Types (mt : MemTable) (es : list (Z * version)).

(** [es]: the versions added, newest first, with the addresses of their entries. *)
Record BT mt es : Prop := {
  bt_sl : ∃ rk n L ks, (∀ p, n <= rk p) ∧ SL (tie rk (mem_ mt)) (pointer_ok (mem_ mt)) (table_ mt) L ks
            ∧ ks ≡ₚ ((λ pe, InMem pe.1) <$> es);
  bt_arena : owned (arena_inv (entry_range <$> es)) (arena_ mt) (table_ mt);
  bt_mem : ∀ p e, (p, e) ∈ es → holds (mem_ mt) (InMem p) (entry e);
  bt_ok : ∀ p e, (p, e) ∈ es → version_ok any_key e
}.

Lemma MemTable_new_BT : ∃ mt, MemTable_new = Some mt ∧ BT mt [].
Proof.
  unfold MemTable_new.
  destruct (SkipList_new_eq (tie (λ _, 0) ∅) (pointer_ok ∅) (arena_inv []) Arena_new ∅ Null
              arena_inv_new) as (ar & l & E & Hsl & How).
  rewrite E. cbn [mbind option_bind]. eexists. split; [reflexivity|].
  split; cbn; try done; [|by intros p e ?%not_elem_of_nil..].
  by exists (λ _, 0), 0, [], [].
Qed.

(** Entries keep their order when another pointer gets a lower rank. *)
Lemma SL_promote rk n p m m' l L ks es :
  SL (tie rk m) (pointer_ok m) l L ks → ks ≡ₚ ((λ pe, InMem pe.1) <$> es) →
  (∀ q e, (q, e) ∈ es → version_ok any_key e ∧ holds m (InMem q) (entry e)
                        ∧ holds m' (InMem q) (entry e) ∧ InMem q ≠ p) →
  SL (tie (promote rk n p) m') (pointer_ok m') l L ks ∧ p ∉ ks.
Proof.
  intros Hsl Hks Hin.
  assert (Hks' : ∀ k, k ∈ ks → k ≠ p ∧ ∃ e, prefixed_bytes m k = Some (ikey e)
                    ∧ prefixed_bytes m' k = Some (ikey e) ∧ version_ok any_key e).
  { intros k. rewrite Hks. intros ([q e] & -> & He)%list_elem_of_fmap.
    destruct (Hin q e He) as (Hok & H1 & H2 & Hne). split; [done|]. exists e.
    by rewrite !(entry_prefixed any_key _ _ e). }
  split; [|by intros [? _]%Hks']. revert Hsl. apply SL_mono.
  - intros a b (Ha & e1 & A1 & A2 & _)%Hks' (Hb & e2 & B1 & B2 & _)%Hks'.
    unfold tie, promote. by rewrite A1, A2, B1, B2, !decide_False.
  - intros a (Ha & e1 & _ & A2 & Hok)%Hks' _. exists (ikey e1). split; [done|]. by apply ikey_ok.
Qed.

Lemma Add_BT mt es e :
  BT mt es → version_ok any_key e →
  ∃ mt' p, Add_version BytewiseComparator mt e = Some mt' ∧ BT mt' ((p, e) :: es).
Proof using Type*.
  intros [(rk & n & L & ks & Hn & Hsl & Hks) How Hmem Hok] He.
  destruct (Add_entry BytewiseComparator any_key mt es e How Hmem He)
    as (ar & buf & -> & How1 & Hhold & Hfresh).
  set (m := write (mem_ mt) buf (entry e)) in *. set (rk' := promote rk (n - 1) (InMem buf)).
  assert (Hok' : ∀ p e', (p, e') ∈ (buf, e) :: es → version_ok any_key e').
  { intros p e' [Hpe|Hin]%elem_of_cons; [by simplify_eq|by eapply Hok]. }
  destruct (SL_promote rk (n - 1) (InMem buf) (mem_ mt) m (table_ mt) L ks es Hsl Hks) as [Hsl' Hnin].
  { intros q e' Hq. split_and!; [by eapply Hok|by apply Hmem|apply Hhold; by right|].
    intros [= ->]. by apply (Hfresh e'). }
  fold rk' in Hsl'.
  assert (Hself : rk' (InMem buf) = n - 1) by (unfold rk', promote; by rewrite decide_True).
  assert (Hother : ∀ q, q ≠ InMem buf → n - 1 < rk' q).
  { intros q Hq. unfold rk', promote. rewrite decide_False by done. specialize (Hn q). lia. }
  assert (Hk : pointer_ok m (InMem buf)).
  { exists (ikey e). split; [|by apply ikey_ok]. apply (entry_prefixed any_key); [done|].
    apply Hhold. by left. }
  rewrite (Insert_alike _ (tie rk' m) (pointer_ok m) ar (table_ mt) L ks); [|done|done| |].
  2: { apply tie_alike. intros q. rewrite Hself.
       destruct (decide (q = InMem buf)) as [->|Hq]; [lia|]. specialize (Hother q Hq). lia. }
  2: { intros k Hin. apply tie_equal. rewrite Hself. apply Hother. by intros ->. }
  destruct (Insert_eq (tie rk' m) (pointer_ok m) _ ar (table_ mt) L ks (InMem buf) Hsl' How1 Hk)
    as (ar' & t & x & -> & Hsl2 & How2).
  { apply Forall_forall. intros k Hin. unfold keqv, tie.
    intros (a & _ & (b & _ & (ua & _ & (ub & _ & [= E])%bind_Some)%bind_Some)%bind_Some)%bind_Some.
    rewrite Hself in E. assert (n - 1 < rk' k) by (apply Hother; by intros ->).
    destruct (lex_compare ua ub); lia. }
  cbn [mbind option_bind]. eexists _, buf. split; [reflexivity|].
  split; cbn [mem_ arena_ table_]; [|done..].
  eexists rk', (n - 1), _, _. split_and!; [|exact Hsl2|by rewrite insert_at_perm, Hks].
  intros q. destruct (decide (q = InMem buf)) as [->|Hq]; [lia|]. specialize (Hother q Hq). lia.
Qed.

Lemma add_all_BT vs : ∀ mt es,
  BT mt es → Forall (version_ok any_key) vs →
  ∃ mt' es', add_all BytewiseComparator mt vs = Some mt' ∧ BT mt' es' ∧ es'.*2 = reverse vs ++ es.*2.
Proof using Type*.
  induction vs as [|e vs IH]; intros mt es Hmt Hok; [by exists mt, es|].
  apply Forall_cons in Hok as [He Hok]. destruct (Add_BT mt es e Hmt He) as (mt1 & p & Hadd & Hmt1).
  cbn [add_all]. rewrite Hadd. cbn [mbind option_bind].
  destruct (IH mt1 _ Hmt1 Hok) as (mt' & es' & -> & Hmt' & Hes). exists mt', es'. split_and!; [done..|].
  by rewrite Hes, reverse_cons, <- (assoc_L (++)).
Qed.

(** The table's pointers with their versions, in order. *)
Lemma BT_view mt es : BT mt es →
  ∃ rk n L vs, (∀ p, n <= rk p)
    ∧ SL (tie rk (mem_ mt)) (pointer_ok (mem_ mt)) (table_ mt) L ((λ pe, InMem pe.1) <$> vs) ∧ vs ≡ₚ es
    ∧ ∀ j p e, vs !! j = Some (p, e) → version_ok any_key e ∧ holds (mem_ mt) (InMem p) (entry e).
Proof.
  intros [(rk & n & L & ks & Hn & Hsl & Hks) _ Hmem Hok].
  apply Permutation_map_inv in Hks as (vs & -> & Hp). exists rk, n, L, vs. split_and!; [done..|].
  intros j p e Hj%list_elem_of_lookup_2. rewrite <- Hp in Hj. eauto.
Qed.

Lemma Get_bytewise mt es k ukey seq value s :
  BT mt es → 0 <= seq <= kMaxSequenceNumber → Z.of_nat (length ukey) + 8 < 2 ^ 32 →
  LookupKey_new ukey seq = Some k → Get BytewiseComparator mt k value s = Some (false, value, s).
Proof using Type*.
  intros Hmt Hseq Hlen HLk. destruct (BT_view mt es Hmt) as (rk & n & L & vs & Hn & Hsl & Hp & Hin).
  destruct (LookupKey_target (mem_ mt) k ukey seq Hseq Hlen HLk) as [Htk _].
  set (t := InBuf (lk_buf k) 0) in *. set (ks := (λ pe : Z * version, InMem pe.1) <$> vs) in *.
  destruct (SL_promote rk (n - 1) t (mem_ mt) (mem_ mt) (table_ mt) L ks vs Hsl) as [Hsl' _]; [done| |].
  { intros q e [j Hj]%list_elem_of_lookup. by destruct (Hin j q e Hj). }
  set (rk' := promote rk (n - 1) t) in *.
  assert (Hseek : Iter_Seek (KeyComparator BytewiseComparator (mem_ mt)) (table_ mt) t
                  = Some (cursor L (rank (tie rk' (mem_ mt)) ks t))).
  { rewrite (Iter_Seek_alike _ (tie rk' (mem_ mt))).
    - apply (Seek_eq _ (pointer_ok (mem_ mt))); [done|].
      eexists. split; [exact Htk|]. split; [rewrite length_encode_internal; lia|done].
    - apply tie_alike. intros q. unfold rk', promote. rewrite (decide_True (P := t = t)) by done.
      specialize (Hn q). case_decide; lia. }
  set (j := rank _ ks t) in *.
  destruct (vs !! j) as [[p e]|] eqn:Hat.
  - destruct (Hin j p e Hat) as [He Hh].
    assert (Hkj : ks !! j = Some (InMem p)) by (unfold ks; by rewrite list_lookup_fmap, Hat).
    destruct (Iter_at _ (pointer_ok (mem_ mt)) _ _ _ j _ Hsl' Hkj) as (Hkey & _).
    rewrite (Get_entry BytewiseComparator any_key mt k value s (cursor L j) p e); try done.
    + cbn. by rewrite (proj2 (Z.eqb_neq _ _) (Slice_compare_nz _ _)).
    + rewrite (Valid_cursor _ (pointer_ok (mem_ mt)) _ _ _ j Hsl').
      apply bool_decide_eq_true_2. by eapply lookup_lt_Some.
  - unfold Get. fold t. rewrite Hseek. cbn [mbind option_bind].
    rewrite (Valid_cursor _ (pointer_ok (mem_ mt)) _ _ _ j Hsl').
    apply lookup_ge_None in Hat. unfold ks. rewrite length_fmap. by rewrite bool_decide_eq_false_2 by lia.
Qed.

Lemma walk_bytewise mt es : BT mt es → walks mt es.*2.
Proof using Type*.
  intros Hmt. destruct (BT_view mt es Hmt) as (rk & n & L & vs & _ & Hsl & Hp & Hin).
  exists L, vs.*2. split_and!; [by rewrite Hp|by apply (SeekToFirst_eq _ _ _ _ _ Hsl)|].
  intros j. split; [unfold MIter_Valid; by rewrite (Valid_cursor _ _ _ _ _ _ Hsl), !length_fmap|].
  intros e He. rewrite list_lookup_fmap in He. destruct (vs !! j) as [[p e0]|] eqn:Hj; [|done].
  cbn in He. simplify_eq. destruct (Hin j p e Hj) as [He Hh].
  destruct (Iter_at _ _ _ _ _ j (InMem p) Hsl) as (Hkey & Hnx & _); [by rewrite list_lookup_fmap, Hj|].
  unfold MIter_key. rewrite Hkey. cbn [mbind option_bind]. split; [|done].
  by apply (entry_prefixed any_key).
Qed.
End invariant.

(** C34: with the built-in [BytewiseComparator] the memtable never finds anything.
    Adding any versions to a new table succeeds, whether their keys and sequence
    numbers are distinct or not, and an iterator then walks all of them; but every
    [Get], of a key that was added or not and at any sequence number, returns false
    and leaves its outputs alone, because the test [Compare(...) == 0] on the user
    keys never holds.  Nothing faults on the way. *)
Theorem Get_Bytewise_finds_nothing `{NewChar} `{!NewCharLaws} vs :
  Forall (version_ok any_key) vs →
  ∃ mt0 mt, MemTable_new = Some mt0 ∧ add_all BytewiseComparator mt0 vs = Some mt ∧
    (∀ ukey seq value s, 0 <= seq <= kMaxSequenceNumber → Z.of_nat (length ukey) + 8 < 2 ^ 32 →
       ∃ k, LookupKey_new ukey seq = Some k ∧
         Get BytewiseComparator mt k value s = Some (false, value, s)) ∧
    walks mt vs.
Proof.
  intros Hok. destruct MemTable_new_BT as (mt0 & Hnew & Hmt0).
  destruct (add_all_BT vs mt0 [] Hmt0 Hok) as (mt & es & Hadd & Hmt & Hes). rewrite app_nil_r in Hes.
  exists mt0, mt. split_and!; [done..| |].
  - intros ukey seq value s Hs Hl. destruct (LookupKey_new_eq ukey seq Hs Hl) as [rest E].
    eexists. split; [exact E|]. by eapply Get_bytewise.
  - destruct (walk_bytewise mt es Hmt) as (L & vs' & Hp & Hw). exists L, vs'. split; [|exact Hw].
    by rewrite Hp, Hes, reverse_Permutation.
Qed.

(** The versions [MemTable_refines_versions_witness] finds. *)
Lemma Get_Bytewise_finds_nothing_witness :
  Forall (version_ok any_key) [version_a1; version_a3] ∧
  ∃ mt0 mt k, MemTable_new = Some mt0 ∧
    add_all BytewiseComparator mt0 [version_a1; version_a3] = Some mt ∧
    LookupKey_new (str "a") 2 = Some k ∧ Get BytewiseComparator mt k [] OK = Some (false, [], OK).
Proof.
  assert (Forall (version_ok any_key) [version_a1; version_a3]) as Hok.
  { repeat constructor; first [exact version_a1_ok|exact version_a3_ok|by vm_compute]. }
  split; [done|].
  destruct (Get_Bytewise_finds_nothing _ Hok) as (mt0 & mt & Hnew & Hadd & Hget & _).
  destruct (Hget (str "a") 2 [] OK ltac:(by vm_compute) ltac:(by vm_compute)) as (k & Hk & Hg).
  by exists mt0, mt, k.
Defined.
