(* ===== verification/HandleTable.v ===== *)
(** The hash table of cache entries: [LRUHandle] and [HandleTable] of
    util/cache.cc.

    The pointer fields of the entries live in one map per field, indexed by the
    address of the entry, and the other fields in a record; a field that has not
    been assigned, or whose entry has been freed, is absent, and reading it is a
    fault.  The two list heads of a cache are objects of their own, at the
    addresses [lru_] and [in_use_]. *)
From S2P Require Import Prelude Slice.
Local Open Scope Z_scope.

Section table.
Context {V D : Type}.

Record LRUHandle := {
  value : V; deleter : D; charge : Z; key_data : bytes;
  in_cache : bool; refs : Z; hash : Z
}.

Record heap := {
  next : gmap Z Z; prev : gmap Z Z; next_hash : gmap Z Z; obj : gmap Z LRUHandle
}.

Definition lru_ : Z := 1.
Definition in_use_ : Z := 2.

Definition live (h : heap) (x : Z) : bool :=
  (x =? lru_) || (x =? in_use_) || bool_decide (is_Some (obj h !! x)).

Definition put_next (h : heap) (x v : Z) : option heap :=
  ASSERT (live h x);
  Some {| next := <[x := v]> (next h); prev := prev h; next_hash := next_hash h; obj := obj h |}.
Definition put_prev (h : heap) (x v : Z) : option heap :=
  ASSERT (live h x);
  Some {| next := next h; prev := <[x := v]> (prev h); next_hash := next_hash h; obj := obj h |}.
Definition put_next_hash (h : heap) (x v : Z) : option heap :=
  ASSERT (live h x);
  Some {| next := next h; prev := prev h; next_hash := <[x := v]> (next_hash h); obj := obj h |}.
Definition put_obj (h : heap) (x : Z) (o : LRUHandle) : heap :=
  {| next := next h; prev := prev h; next_hash := next_hash h; obj := <[x := o]> (obj h) |}.

(** [LRUHandle::key]. *)
Definition handle_key (h : heap) (e : Z) : option bytes :=
  o ← obj h !! e; n ← next h !! e;
  ASSERT (negb (n =? e)); Some (key_data o).

(** ** [HandleTable] *)

Record HandleTable := { length_ : Z; elems_ : Z; list_ : list Z }.

(** What an [LRUHandle**] points to: a bucket, or the link of an entry. *)
Inductive slot := Bucket (i : nat) | NextHash (e : Z).

Definition read_slot (t : HandleTable) (h : heap) (s : slot) : option Z :=
  match s with Bucket i => list_ t !! i | NextHash e => next_hash h !! e end.

Definition write_slot (t : HandleTable) (h : heap) (s : slot) (v : Z)
    : option (HandleTable * heap) :=
  match s with
  | Bucket i =>
    ASSERT (i <? length (list_ t))%nat;
    Some ({| length_ := length_ t; elems_ := elems_ t; list_ := <[i := v]> (list_ t) |}, h)
  | NextHash e => h ← put_next_hash h e v; Some (t, h)
  end.

(** The condition of the loop, given the entry [*ptr]. *)
Definition differs (h : heap) (key : bytes) (hsh : Z) (e : Z) : option bool :=
  o ← obj h !! e;
  if negb (hash o =? hsh) then Some true
  else k ← handle_key h e; Some (Slice_neb key k).

Fixpoint FindPointer_loop (fuel : nat) (t : HandleTable) (h : heap) (key : bytes) (hsh : Z)
    (ptr : slot) : option slot :=
  match fuel with
  | O => None
  | S n =>
    e ← read_slot t h ptr;
    if e =? 0 then Some ptr
    else
      d ← differs h key hsh e;
      if (d : bool) then FindPointer_loop n t h key hsh (NextHash e) else Some ptr
  end.

(** [hash & (length_ - 1)]. *)
Definition bucket_of (len hsh : Z) : nat := Z.to_nat (Z.land hsh (u32 (len - 1))).

(** A chain is no longer than the number of entries. *)
Definition FindPointer (t : HandleTable) (h : heap) (key : bytes) (hsh : Z) : option slot :=
  FindPointer_loop (S (size (obj h))) t h key hsh
    (Bucket (bucket_of (length_ t) hsh)).

Fixpoint grow_length (fuel : nat) (new_length elems : Z) : option Z :=
  match fuel with
  | O => None
  | S n => if new_length <? elems then grow_length n (u32 (new_length * 2)) elems
           else Some new_length
  end.

(** The inner loop of [Resize]: the chain from [e] onto the new buckets. *)
Fixpoint move_chain (fuel : nat) (h : heap) (new_list : list Z) (new_length e count : Z)
    : option (heap * list Z * Z) :=
  match fuel with
  | O => None
  | S n =>
    if e =? 0 then Some (h, new_list, count)
    else
      nxt ← next_hash h !! e;
      o ← obj h !! e;
      let i := bucket_of new_length (hash o) in
      p ← new_list !! i;
      h ← put_next_hash h e p;
      move_chain n h (<[i := e]> new_list) new_length nxt (u32 (count + 1))
  end.

Fixpoint move_all (old : list Z) (buckets : list nat) (h : heap) (new_list : list Z)
    (new_length count : Z) : option (heap * list Z * Z) :=
  match buckets with
  | [] => Some (h, new_list, count)
  | i :: buckets =>
    e ← old !! i;
    '(h, new_list, count) ← move_chain (S (size (obj h))) h new_list new_length e count;
    move_all old buckets h new_list new_length count
  end.

(** 29 doublings of 4 reach 2^31, the largest length of 32 bits. *)
Definition Resize (t : HandleTable) (h : heap) : option (HandleTable * heap) :=
  new_length ← grow_length 31 4 (elems_ t);
  let new_list := replicate (Z.to_nat new_length) 0 in
  '(h, new_list, count) ← move_all (list_ t) (seq 0 (Z.to_nat (length_ t))) h new_list new_length 0;
  ASSERT (elems_ t =? count);
  Some ({| length_ := new_length; elems_ := elems_ t; list_ := new_list |}, h).

Definition HandleTable_new (h : heap) : option (HandleTable * heap) :=
  Resize {| length_ := 0; elems_ := 0; list_ := [] |} h.

Definition with_elems (t : HandleTable) (n : Z) : HandleTable :=
  {| length_ := length_ t; elems_ := n; list_ := list_ t |}.

Definition Table_Lookup (t : HandleTable) (h : heap) (key : bytes) (hsh : Z) : option Z :=
  ptr ← FindPointer t h key hsh; read_slot t h ptr.

Definition Table_Insert (t : HandleTable) (h : heap) (e : Z) : option (HandleTable * heap * Z) :=
  k ← handle_key h e;
  o ← obj h !! e;
  ptr ← FindPointer t h k (hash o);
  old ← read_slot t h ptr;
  nxt ← (if old =? 0 then Some 0 else next_hash h !! old);
  h ← put_next_hash h e nxt;
  '(t, h) ← write_slot t h ptr e;
  if old =? 0 then
    let t := with_elems t (u32 (elems_ t + 1)) in
    if length_ t <? elems_ t then '(t, h) ← Resize t h; Some (t, h, old)
    else Some (t, h, old)
  else Some (t, h, old).

Definition Table_Remove (t : HandleTable) (h : heap) (key : bytes) (hsh : Z)
    : option (HandleTable * heap * Z) :=
  ptr ← FindPointer t h key hsh;
  result ← read_slot t h ptr;
  if result =? 0 then Some (t, h, result)
  else
    nxt ← next_hash h !! result;
    '(t, h) ← write_slot t h ptr nxt;
    Some (with_elems t (u32 (elems_ t - 1)), h, result).
End table.
Arguments LRUHandle : clear implicits.
Arguments heap : clear implicits.

(** ** Chains and the representation of the table *)

Section table_proofs.
Context {V D : Type}.
Implicit Types (h : heap V D) (t : HandleTable) (m : gmap (Z * bytes) Z) (nh : gmap Z Z).

(** The identity of an entry: its hash and its key. *)
Definition handle_id h (e : Z) : option (Z * bytes) :=
  o ← obj h !! e; Some (hash o, key_data o).

(** From the pointer [a], the entries [l] follow one another, then null. *)
Fixpoint chain nh (a : Z) (l : list Z) : Prop :=
  match l with
  | [] => a = 0
  | e :: l => a = e ∧ e ≠ 0 ∧ ∃ n, nh !! e = Some n ∧ chain nh n l
  end.

(** Only the hash links differ. *)
Definition same_but_links h h' : Prop :=
  next h' = next h ∧ prev h' = prev h ∧ obj h' = obj h.

Definition placed h (len : Z) (i : nat) (b : list Z) : Prop :=
  ∀ e, e ∈ b → ∃ o, obj h !! e = Some o ∧ bucket_of len (hash o) = i.

Record buckets_rep h (len : Z) (l : list Z) (bs : list (list Z)) : Prop := {
  br_length : length l = Z.to_nat len;
  br_chains : Forall2 (chain (next_hash h)) l bs;
  br_placed : ∀ i b, bs !! i = Some b → placed h len i b;
  br_nodup : NoDup (concat bs)
}.

(** A length the table can have. *)
Definition pow2_length (len : Z) : Prop := ∃ k, 2 <= k <= 31 ∧ len = 2 ^ k.

Record table_rep t h bs : Prop := {
  tr_buckets : buckets_rep h (length_ t) (list_ t) bs;
  tr_length : pow2_length (length_ t);
  tr_elems : elems_ t = Z.of_nat (length (concat bs))
}.

(** The entry is linked, so that [key()] does not trip its assertion. *)
Definition keyed h (e : Z) : Prop := ∃ n, next h !! e = Some n ∧ n ≠ e.

(** The table holds exactly the entries of the map [m]. *)
Definition table_map t h m : Prop :=
  Z.of_nat (size m) <= 2 ^ 31 ∧
  ∃ bs, table_rep t h bs ∧
    (∀ k e, m !! k = Some e ↔ e ∈ concat bs ∧ handle_id h e = Some k) ∧
    (∀ e, e ∈ concat bs → keyed h e).

(** *** Chains *)

Lemma chain_ext nh nh' a l :
  (∀ e, e ∈ l → nh' !! e = nh !! e) → chain nh a l → chain nh' a l.
Proof.
  revert a. induction l as [|e l IH]; intros a Hext; [done|]. simpl.
  intros (-> & ? & n & Hn & Hl). split_and!; [done..|]. exists n.
  rewrite Hext by set_solver. split; [done|]. apply IH; [set_solver|done].
Qed.

Lemma chain_link nh a l1 p l2 v l2' :
  NoDup (l1 ++ [p]) → p ∉ l2' → chain nh a (l1 ++ p :: l2) → chain nh v l2' →
  (∀ e, e ∈ l1 → e ∉ l2') →
  chain (<[p:=v]> nh) a (l1 ++ p :: l2').
Proof.
  intros Hnd Hp. revert a. induction l1 as [|e l1 IH]; intros a.
  - simpl. intros (-> & ? & n & Hn & _) Hv _. split_and!; [done..|].
    exists v. rewrite lookup_insert_eq. split; [done|].
    apply (chain_ext nh); [|done]. intros e He. apply lookup_insert_ne. congruence.
  - simpl in *. apply NoDup_cons in Hnd as [He Hnd].
    intros (-> & ? & n & Hn & Hl) Hv Hd. split_and!; [done..|]. exists n.
    rewrite lookup_insert_ne by set_solver. split; [done|]. apply IH; auto. set_solver.
Qed.

Lemma concat_bucket {A} (bs : list (list A)) i b :
  bs !! i = Some b →
  ∃ R, concat bs ≡ₚ b ++ R ∧ ∀ b', concat (<[i:=b']> bs) ≡ₚ b' ++ R.
Proof.
  intros Hi. exists (concat (take i bs) ++ concat (drop (S i) bs)).
  assert (Hlt := lookup_lt_Some _ _ _ Hi).
  assert (E : ∀ c, concat (take i bs ++ c :: drop (S i) bs) ≡ₚ
    c ++ concat (take i bs) ++ concat (drop (S i) bs)).
  { intros c. rewrite concat_app. simpl. rewrite !(assoc_L (++)).
    by rewrite (comm (++) (concat (take i bs)) c). }
  split; [|intros b'].
  - rewrite <- (take_drop_middle bs i b) at 1 by done. apply E.
  - rewrite insert_take_drop by done. apply E.
Qed.

Lemma elem_of_concat {A} (x : A) (bs : list (list A)) :
  x ∈ concat bs ↔ ∃ i b, bs !! i = Some b ∧ x ∈ b.
Proof.
  rewrite list_elem_of_In, in_concat. split.
  - intros (b & Hb & Hx). apply list_elem_of_In, list_elem_of_lookup in Hb as [i Hi].
    exists i, b. by rewrite list_elem_of_In.
  - intros (i & b & Hi & Hx). exists b. rewrite <- !list_elem_of_In.
    eauto using list_elem_of_lookup_2.
Qed.

(** Buckets do not share entries. *)
Lemma concat_disjoint {A} (bs : list (list A)) i j b c e :
  NoDup (concat bs) → bs !! i = Some b → bs !! j = Some c → e ∈ b → e ∈ c → i = j.
Proof.
  intros Hnd Hi Hj Hb Hc. destruct (decide (i = j)) as [|Hij]; [done|exfalso].
  destruct (concat_bucket bs i b Hi) as (R & E & E').
  rewrite E in Hnd. apply NoDup_app in Hnd as (_ & Hnd & _). apply (Hnd e Hb).
  change R with ([] ++ R). rewrite <- (E' []). apply elem_of_concat.
  exists j, c. by rewrite list_lookup_insert_ne.
Qed.

Lemma Forall2_update nh nh' l bs i b a' b' :
  Forall2 (chain nh) l bs → bs !! i = Some b → NoDup (concat bs) →
  (∀ e, e ∈ concat bs → e ∉ b → nh' !! e = nh !! e) → chain nh' a' b' →
  Forall2 (chain nh') (<[i:=a']> l) (<[i:=b']> bs).
Proof.
  intros HF Hi Hnd Hext Ha. apply Forall2_same_length_lookup.
  rewrite !length_insert. split; [by eapply Forall2_length|].
  intros j x y. destruct (decide (i = j)) as [<-|Hij].
  - rewrite !list_lookup_insert_Some.
    intros [(_ & -> & _)|[? _]] [(_ & -> & _)|[? _]]; done.
  - rewrite !list_lookup_insert_ne by done. intros Hx Hy.
    apply (chain_ext nh); [|by eapply Forall2_lookup_lr].
    intros e He. apply Hext; [apply elem_of_concat; eauto|].
    intros Hb. eapply Hij, concat_disjoint; eauto.
Qed.

(** *** Finding a link *)

(** The link from which the rest of a chain of bucket [i] hangs, after the
    entries [l]. *)
Definition slot_of (i : nat) (l : list Z) : slot :=
  match last l with None => Bucket i | Some e => NextHash e end.

Lemma handle_id_Some h e hsh key :
  handle_id h e = Some (hsh, key) ↔
  ∃ o, obj h !! e = Some o ∧ hash o = hsh ∧ key_data o = key.
Proof. unfold handle_id. destruct (obj h !! e); naive_solver. Qed.

Lemma handle_id_obj h e k : handle_id h e = Some k → is_Some (obj h !! e).
Proof. unfold handle_id. destruct (obj h !! e); [eauto|done]. Qed.

Lemma differs_eq h key hsh e k :
  keyed h e → handle_id h e = Some k →
  differs h key hsh e = Some (negb (bool_decide (k = (hsh, key)))).
Proof.
  destruct k as [hs k]. intros (n & Hn & Hne) (o & Ho & <- & <-)%handle_id_Some.
  unfold differs, handle_key. rewrite Ho. simpl.
  destruct (Z.eqb_spec (hash o) hsh) as [<-|Hh]; simpl.
  - rewrite Hn. simpl. rewrite (proj2 (Z.eqb_neq n e)) by done. simpl. f_equal.
    unfold Slice_neb. f_equal. rewrite Slice_eqb_spec.
    apply bool_decide_ext. naive_solver.
  - rewrite bool_decide_false by congruence. done.
Qed.

Lemma read_slot_chain t h i a l1 l2 :
  list_ t !! i = Some a → chain (next_hash h) a (l1 ++ l2) →
  ∃ v, read_slot t h (slot_of i l1) = Some v ∧ chain (next_hash h) v l2.
Proof.
  intros Hi. unfold slot_of. revert a Hi. induction l1 as [|p l1 _] using rev_ind.
  - simpl. eauto.
  - intros a Hi. rewrite last_snoc. simpl. rewrite <- (assoc_L (++)). simpl.
    clear Hi. revert a. induction l1 as [|e l1 IH]; intros a; simpl.
    + intros (_ & _ & n & Hn & Hc). eauto.
    + intros (_ & _ & n & _ & Hc). eauto.
Qed.

Lemma chain_head nh v l : chain nh v l → v = default 0 (head l) ∧ (v = 0 ↔ l = []).
Proof. destruct l; simpl; naive_solver. Qed.

(** The loop walks past the entries that differ. *)
Lemma FindPointer_loop_eq t h key hsh i a l1 l2 fuel :
  list_ t !! i = Some a → chain (next_hash h) a (l1 ++ l2) →
  (∀ e, e ∈ l2 → keyed h e ∧ is_Some (handle_id h e)) → (length l2 < fuel)%nat →
  ∃ l3 l4, l2 = l3 ++ l4 ∧
    FindPointer_loop fuel t h key hsh (slot_of i l1) = Some (slot_of i (l1 ++ l3)) ∧
    (∀ e, e ∈ l3 → handle_id h e ≠ Some (hsh, key)) ∧
    (∀ e, head l4 = Some e → handle_id h e = Some (hsh, key)).
Proof.
  intros Hi. revert l1 fuel. induction l2 as [|e l2 IH]; intros l1 fuel Hc Hk Hf.
  - destruct fuel as [|n]; [simpl in Hf; lia|].
    destruct (read_slot_chain t h i a l1 [] Hi Hc) as (v & Hv & ->).
    exists [], []. simpl. rewrite Hv, app_nil_r. simpl. split_and!; set_solver.
  - destruct fuel as [|n]; [simpl in Hf; lia|].
    destruct (read_slot_chain t h i a l1 (e :: l2) Hi Hc) as (v & Hv & -> & He & _).
    destruct (Hk e) as [Hke [k Hid]]; [set_solver|].
    simpl. rewrite Hv. simpl. rewrite (proj2 (Z.eqb_neq e 0)) by done.
    rewrite (differs_eq _ _ _ _ k) by done. simpl.
    case_bool_decide as E; simpl.
    + subst k. exists [], (e :: l2). rewrite app_nil_r.
      split_and!; [done|done|set_solver|]. intros ? [= <-]. done.
    + destruct (IH (l1 ++ [e]) n) as (l3 & l4 & -> & HF & H3 & H4).
      { by rewrite <- (assoc_L (++)). }
      { set_solver. } { simpl in Hf; lia. }
      exists (e :: l3), l4. split_and!; [done| |set_solver|done].
      rewrite <- (assoc_L (++)) in HF. etrans; [|exact HF].
      unfold slot_of. by rewrite last_snoc.
Qed.

Lemma obj_size h l :
  NoDup l → (∀ e, e ∈ l → is_Some (obj h !! e)) → (length l ≤ size (obj h))%nat.
Proof.
  intros Hnd Hl. rewrite <- (size_list_to_set (C:=gset Z)) by done. rewrite <- size_dom.
  apply subseteq_size. intros e He%elem_of_list_to_set. by apply elem_of_dom, Hl.
Qed.

(** Writing the link after [l1] replaces the rest of the chain. *)
Lemma write_slot_chain t h i a l1 l2 v l2' :
  list_ t !! i = Some a → chain (next_hash h) a (l1 ++ l2) → NoDup l1 →
  (∀ e, e ∈ l1 → is_Some (obj h !! e) ∧ e ∉ l2') → chain (next_hash h) v l2' →
  ∃ t' h' a', write_slot t h (slot_of i l1) v = Some (t', h') ∧
    t' = {| length_ := length_ t; elems_ := elems_ t; list_ := <[i:=a']> (list_ t) |} ∧
    same_but_links h h' ∧ chain (next_hash h') a' (l1 ++ l2') ∧
    (∀ e, e ∉ l1 → next_hash h' !! e = next_hash h !! e).
Proof.
  intros Hi Hc Hnd Hl1 Hv. unfold slot_of. destruct l1 as [|p l1 _] using rev_ind.
  - simpl. rewrite (proj2 (Nat.ltb_lt _ _)) by by eapply lookup_lt_Some.
    exists {| length_ := length_ t; elems_ := elems_ t; list_ := <[i:=v]> (list_ t) |}, h, v.
    done.
  - rewrite last_snoc. simpl. unfold put_next_hash, live.
    rewrite (bool_decide_true (is_Some (obj h !! p))) by (apply Hl1; set_solver).
    rewrite orb_true_r. simpl.
    exists t. eexists. exists a. split_and!; [done| |done| |].
    + rewrite list_insert_id by done. by destruct t.
    + simpl. rewrite <- !(assoc_L (++)) in *. eapply chain_link; [done| |done|done|].
      * apply Hl1. set_solver.
      * intros e He. apply Hl1. set_solver.
    + intros e He. simpl. apply lookup_insert_ne. set_solver.
Qed.

(** *** Buckets *)

Lemma bucket_of_lt len hsh : pow2_length len → (bucket_of len hsh < Z.to_nat len)%nat.
Proof.
  intros (k & Hk & ->). unfold bucket_of.
  assert (0 < 2 ^ k <= 2 ^ 31).
  { split; [apply Z.pow_pos_nonneg; lia|apply Z.pow_le_mono_r; lia]. }
  rewrite u32_small by lia. replace (2 ^ k - 1) with (Z.ones k) by (rewrite Z.ones_equiv; lia).
  rewrite Z.land_ones by lia.
  pose proof (Z.mod_pos_bound hsh (2 ^ k)). lia.
Qed.

Lemma NoDup_bucket {A} (bs : list (list A)) i b :
  NoDup (concat bs) → bs !! i = Some b → NoDup b.
Proof.
  intros Hnd Hi. destruct (concat_bucket bs i b Hi) as (R & E & _).
  rewrite E in Hnd. by apply NoDup_app in Hnd as [? _].
Qed.

Lemma buckets_lookup h len l bs i :
  buckets_rep h len l bs → (i < Z.to_nat len)%nat →
  ∃ a b, l !! i = Some a ∧ bs !! i = Some b ∧ chain (next_hash h) a b ∧ NoDup b.
Proof.
  intros [Hl HF _ Hnd] Hi.
  destruct (lookup_lt_is_Some_2 l i) as [a Ha]; [lia|].
  destruct (Forall2_lookup_l _ _ _ _ _ HF Ha) as (b & Hb & Hc).
  exists a, b. split_and!; [done..|]. by eapply NoDup_bucket.
Qed.

Lemma buckets_obj h len l bs e :
  buckets_rep h len l bs → e ∈ concat bs → is_Some (obj h !! e).
Proof.
  intros [_ _ Hp _] (i & b & Hi & He)%elem_of_concat.
  destruct (Hp i b Hi e He) as (o & Ho & _). eauto.
Qed.

Lemma buckets_ext h h' len l bs :
  buckets_rep h len l bs → (∀ e, e ∈ concat bs →
    next_hash h' !! e = next_hash h !! e ∧
    ∀ o, obj h !! e = Some o → ∃ o', obj h' !! e = Some o' ∧ hash o' = hash o) →
  buckets_rep h' len l bs.
Proof.
  intros [Hl HF Hp Hnd] Hext. split; [done| | |done].
  - apply Forall2_same_length_lookup. split; [by eapply Forall2_length|].
    intros i a b Ha Hb. apply (chain_ext (next_hash h)); [|by eapply Forall2_lookup_lr].
    intros e He. apply Hext, elem_of_concat. eauto.
  - intros i b Hi e He. destruct (Hp i b Hi e He) as (o & Ho & Hh).
    destruct (Hext e) as [_ Hxo]; [apply elem_of_concat; eauto|].
    destruct (Hxo o Ho) as (o' & -> & Ho').
    exists o'. by rewrite Ho'.
Qed.

Lemma buckets_update h h' len l bs i b a' b' :
  buckets_rep h len l bs → bs !! i = Some b → same_but_links h h' →
  (∀ e, e ∈ concat bs → e ∉ b → next_hash h' !! e = next_hash h !! e) →
  chain (next_hash h') a' b' → placed h len i b' → NoDup (concat (<[i:=b']> bs)) →
  buckets_rep h' len (<[i:=a']> l) (<[i:=b']> bs).
Proof.
  intros [Hl HF Hp Hnd] Hi (Hn & Hpv & Ho) Hext Hc Hb' Hnd'. split; [|by eapply Forall2_update| |done].
  - by rewrite length_insert.
  - intros j c. rewrite list_lookup_insert_Some. unfold placed. rewrite Ho.
    intros [(<- & <- & _)|[_ Hj]]; [apply Hb'|by apply Hp].
Qed.

Lemma bucket_write t h bs i l1 l2 v l2' :
  buckets_rep h (length_ t) (list_ t) bs → bs !! i = Some (l1 ++ l2) →
  chain (next_hash h) v l2' → placed h (length_ t) i l2' →
  NoDup (concat (<[i:=l1 ++ l2']> bs)) →
  ∃ t' h', write_slot t h (slot_of i l1) v = Some (t', h') ∧ same_but_links h h' ∧
    length_ t' = length_ t ∧ elems_ t' = elems_ t ∧
    buckets_rep h' (length_ t') (list_ t') (<[i:=l1 ++ l2']> bs).
Proof.
  intros Hb Hi Hv Hpl Hnd. assert (Hib := lookup_lt_Some _ _ _ Hi).
  assert (Hlen := Forall2_length _ _ _ (br_chains _ _ _ _ Hb)).
  destruct (buckets_lookup _ _ _ _ i Hb) as (a & ? & Ha & Hi' & Hc & Hndb).
  { rewrite <- (br_length _ _ _ _ Hb). lia. }
  rewrite Hi in Hi'. injection Hi' as <-.
  assert (Hnd' : NoDup (l1 ++ l2')).
  { eapply NoDup_bucket; [done|]. by apply list_lookup_insert_eq. }
  apply NoDup_app in Hnd' as (Hnd1 & Hdis & _).
  assert (Hobj : ∀ e, e ∈ l1 → is_Some (obj h !! e)).
  { intros e He. eapply buckets_obj; [done|]. apply elem_of_concat.
    exists i, (l1 ++ l2). set_solver. }
  destruct (write_slot_chain t h i a l1 l2 v l2') as (t' & h' & a' & Hw & -> & Hs & Hc' & Hext);
    [done|done|done|auto|done|].
  eexists _, h'. split_and!; [done|done|done|done|]. simpl.
  eapply buckets_update; [done|done|done| |done| |done].
  - intros e _ He. apply Hext. set_solver.
  - intros e [He|He]%elem_of_app; [|by apply Hpl].
    apply (br_placed _ _ _ _ Hb i _ Hi). set_solver.
Qed.

(** *** [Resize] *)

Lemma same_but_links_trans h1 h2 h3 :
  same_but_links h1 h2 → same_but_links h2 h3 → same_but_links h1 h3.
Proof. intros (? & ? & ?) (? & ? & ?). split_and!; congruence. Qed.

Lemma grow_length_eq fuel j n :
  2 <= j <= 31 → n <= 2 ^ 31 → 32 <= j + Z.of_nat fuel →
  ∃ k, 2 <= k <= 31 ∧ n <= 2 ^ k ∧ grow_length fuel (2 ^ j) n = Some (2 ^ k).
Proof.
  revert j. induction fuel as [|f IH]; intros j Hj Hn Hf; [lia|]. simpl.
  destruct (Z.ltb_spec (2 ^ j) n); [|by exists j].
  assert (j < 31) by (apply (Z.pow_lt_mono_r_iff 2); lia).
  replace (u32 (2 ^ j * 2)) with (2 ^ (j + 1)).
  - apply IH; lia.
  - rewrite Z.pow_add_r, Z.pow_1_r by lia. symmetry. apply u32_small.
    assert (2 ^ j <= 2 ^ 30) by (apply Z.pow_le_mono_r; lia). lia.
Qed.

Lemma put_next_hash_Some h e v :
  is_Some (obj h !! e) →
  ∃ h', put_next_hash h e v = Some h' ∧ same_but_links h h' ∧
    next_hash h' = <[e:=v]> (next_hash h).
Proof.
  intros He. unfold put_next_hash, live.
  rewrite (bool_decide_true (is_Some _)), orb_true_r by done. by eexists.
Qed.

Lemma concat_push {A} (bs : list (list A)) i b e :
  bs !! i = Some b → concat (<[i:=e :: b]> bs) ≡ₚ e :: concat bs.
Proof.
  intros Hi. destruct (concat_bucket bs i b Hi) as (R & E & E'). by rewrite E', E.
Qed.

Lemma move_chain_eq l : ∀ h new nbs len a count fuel,
  chain (next_hash h) a l → buckets_rep h len new nbs → pow2_length len →
  NoDup (l ++ concat nbs) → (∀ e, e ∈ l → is_Some (obj h !! e)) →
  0 <= count → count + Z.of_nat (length l) < 2 ^ 32 → (length l < fuel)%nat →
  ∃ h' new' nbs', move_chain fuel h new len a count
      = Some (h', new', count + Z.of_nat (length l)) ∧
    buckets_rep h' len new' nbs' ∧ concat nbs' ≡ₚ l ++ concat nbs ∧
    same_but_links h h' ∧ (∀ e, e ∉ l → next_hash h' !! e = next_hash h !! e).
Proof.
  induction l as [|e l IH]; intros h new nbs len a count fuel Hc Hb Hlen Hnd Ho H0 Hct Hf;
    (destruct fuel as [|f]; [simpl in Hf; lia|]); simpl.
  - simpl in Hc. subst a. exists h, new, nbs. by rewrite Z.add_0_r.
  - destruct Hc as (-> & He & nxt & Hnxt & Hc). rewrite (proj2 (Z.eqb_neq e 0)) by done.
    destruct (Ho e) as [o Hoe]; [set_solver|]. rewrite Hnxt, Hoe. simpl.
    set (i := bucket_of len (hash o)).
    destruct (buckets_lookup _ _ _ _ i Hb) as (p & b & Hp & Hbi & Hcb & _).
    { by apply bucket_of_lt. }
    rewrite Hp. simpl. destruct (put_next_hash_Some h e p) as (h1 & -> & Hs & Hh1); [eauto|].
    simpl. simpl in Hnd. apply NoDup_cons in Hnd as [Hel Hnd].
    assert (He_nbs : e ∉ concat nbs) by set_solver.
    assert (Heb : e ∉ b).
    { intros ?. apply He_nbs, elem_of_concat. eauto. }
    assert (Hb1 : buckets_rep h1 len (<[i:=e]> new) (<[i:=e :: b]> nbs)).
    { eapply buckets_update; [done|done|done| | | |].
      - intros x Hx _. rewrite Hh1. apply lookup_insert_ne. congruence.
      - split_and!; [done|done|]. exists p. rewrite Hh1, lookup_insert_eq. split; [done|].
        apply (chain_ext (next_hash h)); [|done]. intros x Hx. apply lookup_insert_ne. congruence.
      - intros x [->|Hx]%elem_of_cons; [by exists o|by apply (br_placed _ _ _ _ Hb i b)].
      - rewrite (concat_push nbs i b e Hbi). apply NoDup_cons. split; [done|apply Hb]. }
    assert (Hel' : e ∉ l) by set_solver.
    simpl in Hct, Hf. rewrite u32_small by lia.
    destruct (IH h1 _ _ len nxt (count + 1) f ltac:(
      apply (chain_ext (next_hash h)); [intros x Hx; rewrite Hh1; apply lookup_insert_ne; congruence|done])
      Hb1 Hlen) as (h' & new' & nbs' & HM & Hb' & Hp' & Hs' & Hext).
    + rewrite (concat_push nbs i b e Hbi). by apply NoDup_Permutation_proper with (e :: l ++ concat nbs);
        [rewrite Permutation_middle|apply NoDup_cons].
    + intros x Hx. destruct Hs as (_ & _ & ->). apply Ho. set_solver.
    + lia. + lia. + lia.
    + exists h', new', nbs'. split_and!; [rewrite HM; do 2 f_equal; lia|done| | |].
      * rewrite Hp', (concat_push nbs i b e Hbi). by rewrite Permutation_middle.
      * by eapply same_but_links_trans.
      * intros x Hx. rewrite Hext by set_solver. rewrite Hh1. apply lookup_insert_ne. set_solver.
Qed.

Lemma move_all_eq rest bso : ∀ pre h new nbs len count,
  Forall2 (chain (next_hash h)) rest bso → buckets_rep h len new nbs → pow2_length len →
  NoDup (concat bso ++ concat nbs) → (∀ e, e ∈ concat bso → is_Some (obj h !! e)) →
  0 <= count → count + Z.of_nat (length (concat bso)) < 2 ^ 32 →
  ∃ h' new' nbs', move_all (pre ++ rest) (seq (length pre) (length rest)) h new len count
      = Some (h', new', count + Z.of_nat (length (concat bso))) ∧
    buckets_rep h' len new' nbs' ∧ concat nbs' ≡ₚ concat bso ++ concat nbs ∧
    same_but_links h h'.
Proof.
  revert bso. induction rest as [|a rest IH]; intros bso pre h new nbs len count HF Hb Hlen Hnd Ho H0 Hct.
  - apply Forall2_nil_inv_l in HF as ->. exists h, new, nbs. simpl. by rewrite Z.add_0_r.
  - apply Forall2_cons_inv_l in HF as (l & bs & Hc & HF & ->).
    cbn [length seq move_all]. rewrite list_lookup_middle by done. cbn [concat] in *.
    cbn [mbind option_bind]. rewrite length_app in Hct.
    rewrite <- (assoc_L (++)) in Hnd. apply NoDup_app in Hnd as (Hl & Hd & Hnd).
    destruct (move_chain_eq l h new nbs len a count (S (size (obj h)))) as
      (h1 & new1 & nbs1 & -> & Hb1 & Hp1 & Hs1 & Hext); [done|done|done| |set_solver|done|lia| |].
    { apply NoDup_app in Hnd as (_ & _ & Hnd). apply NoDup_app. split_and!; [done|set_solver|done]. }
    { enough (length l <= size (obj h))%nat by lia. apply obj_size; [done|set_solver]. }
    cbn [mbind option_bind].
    replace (pre ++ a :: rest) with ((pre ++ [a]) ++ rest) by by rewrite <- (assoc_L (++)).
    replace (S (length pre)) with (length (pre ++ [a])) by (rewrite length_app; simpl; lia).
    destruct (IH bs (pre ++ [a]) h1 new1 nbs1 len (count + Z.of_nat (length l))) as
      (h' & new' & nbs' & -> & Hb' & Hp' & Hs'); [|done|done| | |lia|lia|].
    + apply Forall2_same_length_lookup. split; [by eapply Forall2_length|].
      intros i x y Hx Hy. apply (chain_ext (next_hash h)); [|by eapply Forall2_lookup_lr].
      intros e He. apply Hext. intros Hel. apply (Hd e Hel), elem_of_app. left.
      apply elem_of_concat. eauto.
    + rewrite Hp1. rewrite (assoc_L (++)), (comm (++) (concat bs)), <- (assoc_L (++)).
      apply NoDup_app. split_and!; [done| |done]. intros e. by apply Hd.
    + intros e He. destruct Hs1 as (_ & _ & ->). set_solver.
    + exists h', new', nbs'. split_and!; [do 2 f_equal; rewrite length_app; lia|done| |].
      * rewrite Hp', Hp1. rewrite !(assoc_L (++)). by rewrite (comm (++) (concat bs) l).
      * by eapply same_but_links_trans.
Qed.

Lemma concat_nils {A} n : concat (replicate n ([] : list A)) = [].
Proof. by induction n. Qed.

(** [Resize] keeps the entries, whatever the table it starts from: the one the
    constructor makes has no buckets. *)
Lemma Resize_eq t h bs :
  length_ t = Z.of_nat (length (list_ t)) → Forall2 (chain (next_hash h)) (list_ t) bs →
  NoDup (concat bs) → (∀ e, e ∈ concat bs → is_Some (obj h !! e)) →
  elems_ t = Z.of_nat (length (concat bs)) → elems_ t <= 2 ^ 31 →
  ∃ t' h' bs', Resize t h = Some (t', h') ∧ table_rep t' h' bs' ∧
    concat bs' ≡ₚ concat bs ∧ same_but_links h h'.
Proof.
  intros Hl HF Hnd Ho He Hmax. unfold Resize.
  destruct (grow_length_eq 31 2 (elems_ t)) as (k & Hk & _ & Hg); [lia|done|lia|].
  change (2 ^ 2) with 4 in Hg. rewrite Hg. cbn [mbind option_bind].
  set (n := Z.to_nat (2 ^ k)).
  destruct (move_all_eq (list_ t) bs [] h (replicate n 0) (replicate n []) (2 ^ k) 0) as
    (h' & new' & bs' & HM & Hb & Hp & Hs); [done| |by exists k| |done|lia|lia|].
  - split; [by rewrite length_replicate| | |].
    + by apply Forall2_replicate.
    + intros i b [-> _]%lookup_replicate e He'. by apply not_elem_of_nil in He'.
    + rewrite concat_nils. constructor.
  - by rewrite concat_nils, app_nil_r.
  - rewrite concat_nils, app_nil_r in Hp. simpl in HM. rewrite Hl, Nat2Z.id, HM.
    cbn [mbind option_bind]. rewrite (proj2 (Z.eqb_eq _ _)) by (rewrite He; lia).
    eexists _, h', bs'. split_and!; [done| |done|done].
    split; [done|by exists k|]. simpl. by rewrite He, Hp.
Qed.

(** *** The operations on the map *)

Lemma table_map_elems t h m bs :
  table_rep t h bs → (∀ k e, m !! k = Some e ↔ e ∈ concat bs ∧ handle_id h e = Some k) →
  length (concat bs) = size m.
Proof.
  intros [Hb _ _] Hm. rewrite <- length_map_to_list, <- (length_fmap snd).
  apply Permutation_length, NoDup_Permutation; [apply Hb| |].
  - apply NoDup_fmap_2_strong; [|apply NoDup_map_to_list].
    intros [k e] [k' e'] H%elem_of_map_to_list H'%elem_of_map_to_list [= <-].
    apply Hm in H as [_ H], H' as [_ H']. congruence.
  - intros e. rewrite list_elem_of_fmap. split.
    + intros He. destruct (buckets_obj _ _ _ _ _ Hb He) as [o Ho].
      exists ((hash o, key_data o), e). split; [done|].
      apply elem_of_map_to_list, Hm. split; [done|]. apply handle_id_Some. eauto.
    + intros ([k e'] & -> & Hk). apply elem_of_map_to_list, Hm in Hk. apply Hk.
Qed.

(** Where the search for a key stops. *)
Lemma FindPointer_eq t h m bs hsh key :
  table_rep t h bs → (∀ k e, m !! k = Some e ↔ e ∈ concat bs ∧ handle_id h e = Some k) →
  (∀ e, e ∈ concat bs → keyed h e) →
  let i := bucket_of (length_ t) hsh in
  ∃ a l1 l2, list_ t !! i = Some a ∧ bs !! i = Some (l1 ++ l2) ∧
    chain (next_hash h) a (l1 ++ l2) ∧
    FindPointer t h key hsh = Some (slot_of i l1) ∧ m !! (hsh, key) = head l2.
Proof.
  intros [Hb Hlen He] Hm Hk i.
  destruct (buckets_lookup _ _ _ _ i Hb) as (a & b & Ha & Hi & Hc & Hnd); [by apply bucket_of_lt|].
  assert (Hcat : ∀ e, e ∈ b → e ∈ concat bs) by (intros; apply elem_of_concat; eauto).
  assert (Hobj : ∀ e, e ∈ b → ∃ o, obj h !! e = Some o).
  { intros e Heb. eapply buckets_obj; eauto. }
  destruct (FindPointer_loop_eq t h key hsh i a [] b (S (size (obj h)))) as
    (l1 & l2 & -> & HF & H1 & H2); [done|done| | |].
  - intros e Heb. split; [auto|]. unfold handle_id. destruct (Hobj e Heb) as [o ->]. eauto.
  - enough (length b <= size (obj h))%nat by lia. by apply obj_size.
  - exists a, l1, l2. split_and!; [done|done|done|exact HF|].
    destruct l2 as [|e l2]; simpl.
    + apply eq_None_not_Some. intros [e Hme]. apply Hm in Hme as [(j & c & Hj & Hec)%elem_of_concat Hid].
      pose proof Hid as (o & Ho & Hh & _)%handle_id_Some.
      destruct (br_placed _ _ _ _ Hb j c Hj e Hec) as (o' & Ho' & Hp).
      assert (j = i) as -> by (unfold i; congruence).
      rewrite Hi in Hj. injection Hj as <-. apply (H1 e); [set_solver|done].
    + apply Hm. split; [apply Hcat; set_solver|]. by apply H2.
Qed.

Lemma Table_Lookup_eq t h m hsh key :
  table_map t h m → Table_Lookup t h key hsh = Some (default 0 (m !! (hsh, key))).
Proof.
  intros (_ & bs & Hr & Hm & Hk). unfold Table_Lookup.
  destruct (FindPointer_eq t h m bs hsh key Hr Hm Hk) as (a & l1 & l2 & Ha & _ & Hc & -> & ->).
  cbn [mbind option_bind]. destruct (read_slot_chain t h _ a l1 l2 Ha Hc) as (v & -> & Hv).
  f_equal. by apply chain_head in Hv as [-> _].
Qed.

(** The entries of the table. *)
Lemma table_map_entry t h m k e :
  table_map t h m → m !! k = Some e → e ≠ 0 ∧ handle_id h e = Some k ∧ keyed h e.
Proof.
  intros (_ & bs & [[_ HF _ _] _ _] & Hm & Hk) [He Hid]%Hm. split; [|auto].
  apply elem_of_concat in He as (i & b & Hi & Heb).
  destruct (Forall2_lookup_r _ _ _ _ _ HF Hi) as (a & _ & Hc). clear -Heb Hc.
  revert a Hc. induction b; [set_solver|]. simpl. intros a' (-> & ? & n & _ & ?).
  apply elem_of_cons in Heb as [->|]; eauto.
Qed.

Lemma table_map_inj t h m k k' e :
  table_map t h m → m !! k = Some e → m !! k' = Some e → k = k'.
Proof.
  intros HT (_ & H & _)%(table_map_entry _ _ _ _ _ HT) (_ & H' & _)%(table_map_entry _ _ _ _ _ HT).
  congruence.
Qed.

(** Only the links of the entries, their identities and their being in a list
    matter. *)
Lemma table_map_ext t h h' m :
  table_map t h m →
  (∀ k e, m !! k = Some e → next_hash h' !! e = next_hash h !! e ∧
    handle_id h' e = handle_id h e ∧ keyed h' e) →
  table_map t h' m.
Proof.
  intros (Hs & bs & [Hb Hlen He] & Hm & Hk) Hext. split; [done|]. exists bs.
  assert (Hin : ∀ e, e ∈ concat bs → ∃ k, handle_id h e = Some k ∧
    next_hash h' !! e = next_hash h !! e ∧ handle_id h' e = handle_id h e ∧ keyed h' e).
  { intros e Hbe. destruct (buckets_obj _ _ _ _ _ Hb Hbe) as [o Ho].
    exists (hash o, key_data o).
    assert (Hid : handle_id h e = Some (hash o, key_data o)) by (apply handle_id_Some; eauto).
    split; [done|]. by apply (Hext (hash o, key_data o)), Hm. }
  split_and!.
  - split; [|done|done]. apply (buckets_ext h); [done|]. intros e Hbe.
    destruct (Hin e Hbe) as ([hs ky] & Hid & Hnh & Hid' & _). split; [done|].
    intros o Ho. rewrite Hid in Hid'. apply handle_id_Some in Hid as (o1 & ? & ? & _).
    apply handle_id_Some in Hid' as (o2 & ? & ? & _). exists o2. split; [done|]. congruence.
  - intros k e. rewrite Hm. split; intros [Hbe Hid]; (split; [done|]);
      destruct (Hin e Hbe) as (k' & ? & _ & ? & _); congruence.
  - intros e Hbe. by destruct (Hin e Hbe) as (_ & _ & _ & _ & ?).
Qed.

Lemma handle_id_links h h' e : same_but_links h h' → handle_id h' e = handle_id h e.
Proof. intros (_ & _ & Ho). unfold handle_id. by rewrite Ho. Qed.

Lemma keyed_links h h' e : same_but_links h h' → keyed h e → keyed h' e.
Proof. intros (Hn & _). unfold keyed. by rewrite Hn. Qed.

(** Entries [l] hold the bindings of [m]. *)
Definition entries_map h (l : list Z) m : Prop :=
  ∀ k e, m !! k = Some e ↔ e ∈ l ∧ handle_id h e = Some k.

Lemma entries_map_remove h l rest m k e :
  entries_map h l m → NoDup l → m !! k = Some e → l ≡ₚ e :: rest →
  entries_map h rest (delete k m).
Proof.
  intros Hm Hnd Hk Hp k' x. rewrite lookup_delete_Some, (Hm k' x), Hp, elem_of_cons.
  rewrite Hp in Hnd. apply NoDup_cons in Hnd as [He _].
  pose proof (proj1 (Hm k e) Hk) as [_ Hid].
  split; [intros (Hne & [->|Hx] & Hidx); [congruence|done]|].
  intros [Hx Hidx]. split_and!; [|by right|done]. intros <-.
  assert (m !! k = Some x) by (apply Hm; rewrite Hp, elem_of_cons; auto). congruence.
Qed.

Lemma entries_map_add h l l' m k e :
  entries_map h l m → m !! k = None → handle_id h e = Some k → l' ≡ₚ e :: l →
  entries_map h l' (<[k:=e]> m).
Proof.
  intros Hm Hk Hid Hp k' x. rewrite lookup_insert_Some, (Hm k' x), Hp, elem_of_cons.
  split; [intros [[<- <-]|(_ & Hx & Hidx)]; auto|].
  intros [[->|Hx] Hidx]; [left; split; congruence|].
  right. split_and!; [|done|done]. intros <-.
  assert (m !! k = Some x) by by apply Hm. congruence.
Qed.

Lemma Table_Remove_eq t h m hsh key :
  table_map t h m →
  ∃ t' h', Table_Remove t h key hsh = Some (t', h', default 0 (m !! (hsh, key))) ∧
    table_map t' h' (delete (hsh, key) m) ∧ same_but_links h h'.
Proof.
  intros HT. pose proof HT as (Hsz & bs & Hr & Hm & Hk). pose proof Hr as [Hb Hlen He].
  unfold Table_Remove.
  destruct (FindPointer_eq t h m bs hsh key Hr Hm Hk) as (a & l1 & l2 & Ha & Hi & Hc & -> & Hl2).
  cbn [mbind option_bind]. destruct (read_slot_chain t h _ a l1 l2 Ha Hc) as (v & -> & Hv).
  cbn [mbind option_bind]. destruct l2 as [|e l2]; simpl in Hl2, Hv.
  { subst v. exists t, h. rewrite Hl2, delete_id by done. simpl. done. }
  destruct Hv as (-> & He0 & n & Hn & Hv). rewrite (proj2 (Z.eqb_neq e 0)), Hn by done.
  cbn [mbind option_bind]. rewrite Hl2.
  set (i := bucket_of _ _) in *.
  destruct (concat_bucket bs i _ Hi) as (R & E & E').
  assert (Hp : concat bs ≡ₚ e :: concat (<[i:=l1 ++ l2]> bs)).
  { rewrite E, E'. by rewrite <- Permutation_middle. }
  pose proof (br_nodup _ _ _ _ Hb) as Hnd. pose proof Hnd as Hnd'. rewrite Hp in Hnd'.
  apply NoDup_cons in Hnd' as [_ Hnd'].
  destruct (bucket_write t h bs i l1 (e :: l2) n l2) as (t' & h' & -> & Hs & Hl' & He' & Hb');
    [done|done|done| |done|].
  { intros x Hx. apply (br_placed _ _ _ _ Hb i _ Hi). set_solver. }
  cbn [mbind option_bind]. eexists _, h'. split_and!; [done| |done].
  pose proof (table_map_elems t h m bs Hr Hm) as Hsize.
  split.
  { etrans; [|exact Hsz]. apply Nat2Z.inj_le, map_subseteq_size, delete_subseteq. }
  exists (<[i:=l1 ++ l2]> bs). split_and!.
  - split; [done|simpl; by rewrite Hl'|]. simpl. rewrite He', He, u32_small; rewrite Hp in *; simpl in *; lia.
  - intros k x. rewrite (handle_id_links h h') by done.
    by apply (entries_map_remove h (concat bs) _ m (hsh, key) e).
  - intros x Hx. apply (keyed_links h); [done|]. apply Hk. rewrite Hp. set_solver.
Qed.

(** The two writes of [Insert]: [e] takes the place of the first entry of [l2],
    or ends the chain. *)
Lemma insert_link t h bs i l1 l2 e :
  buckets_rep h (length_ t) (list_ t) bs → bs !! i = Some (l1 ++ l2) →
  placed h (length_ t) i [e] → e ≠ 0 → e ∉ concat bs →
  ∃ h1 t' h', put_next_hash h e (default 0 (head (tail l2))) = Some h1 ∧
    write_slot t h1 (slot_of i l1) e = Some (t', h') ∧ same_but_links h h' ∧
    length_ t' = length_ t ∧ elems_ t' = elems_ t ∧
    buckets_rep h' (length_ t') (list_ t') (<[i:=l1 ++ e :: tail l2]> bs) ∧
    option_list (head l2) ++ concat (<[i:=l1 ++ e :: tail l2]> bs) ≡ₚ e :: concat bs.
Proof.
  intros Hb Hi Hpl He Hfr. assert (Hib := lookup_lt_Some _ _ _ Hi).
  destruct (put_next_hash_Some h e (default 0 (head (tail l2)))) as (h1 & Hput & Hs1 & Hh1).
  { destruct (Hpl e) as (o & Ho & _); [set_solver|eauto]. }
  assert (Hext : ∀ x, x ∈ concat bs → next_hash h1 !! x = next_hash h !! x).
  { intros x Hx. rewrite Hh1. apply lookup_insert_ne. congruence. }
  assert (Hb1 : buckets_rep h1 (length_ t) (list_ t) bs).
  { apply (buckets_ext h); [done|]. intros x Hx. split; [auto|].
    destruct Hs1 as (_ & _ & ->). eauto. }
  assert (Hp : option_list (head l2) ++ concat (<[i:=l1 ++ e :: tail l2]> bs) ≡ₚ e :: concat bs).
  { destruct (concat_bucket bs i _ Hi) as (R & E & E'). rewrite E', E.
    destruct l2 as [|x l2]; simpl; rewrite <- !Permutation_middle; [done|].
    simpl. apply perm_swap. }
  destruct (bucket_write t h1 bs i l1 l2 e (e :: tail l2)) as (t' & h' & Hw & Hs & ? & ? & ?);
    [done|done| | | |].
  - destruct (buckets_lookup _ _ _ _ i Hb1) as (a & b & Ha & Hi' & Hc & _).
    { rewrite <- (br_length _ _ _ _ Hb).
      by rewrite (Forall2_length _ _ _ (br_chains _ _ _ _ Hb)). }
    rewrite Hi in Hi'. injection Hi' as <-. split_and!; [done|done|].
    exists (default 0 (head (tail l2))). rewrite Hh1, lookup_insert_eq. split; [done|].
    rewrite <- Hh1. destruct (read_slot_chain t h1 i a l1 l2 Ha Hc) as (v & _ & Hv).
    destruct l2 as [|x l2]; [done|]. destruct Hv as (_ & _ & n & _ & Hv). simpl.
    by pose proof (chain_head _ _ _ Hv) as [<- _].
  - unfold placed. destruct Hs1 as (_ & _ & ->). intros x [->|Hx]%elem_of_cons; [apply Hpl; set_solver|].
    apply (br_placed _ _ _ _ Hb i _ Hi). destruct l2; set_solver.
  - assert (Hnd : NoDup (e :: concat bs)) by (constructor; [done|apply Hb]).
    rewrite <- Hp in Hnd. by apply NoDup_app in Hnd as (_ & _ & ?).
  - exists h1, t', h'. split_and!; [done|done| |done..].
    by eapply same_but_links_trans.
Qed.

#[global] Instance entries_map_perm h : Proper ((≡ₚ) ==> eq ==> iff) (entries_map h).
Proof. intros l l' Hl m ? <-. unfold entries_map. by setoid_rewrite Hl. Qed.

(** [Insert] grows a table that has more entries than buckets. *)
Lemma maybe_Resize_eq t h bs (r : Z) :
  buckets_rep h (length_ t) (list_ t) bs → pow2_length (length_ t) →
  elems_ t = Z.of_nat (length (concat bs)) → elems_ t <= 2 ^ 31 →
  ∃ t' h' bs', (if length_ t <? elems_ t then '(t, h) ← Resize t h; Some (t, h, r)
      else Some (t, h, r)) = Some (t', h', r) ∧
    table_rep t' h' bs' ∧ concat bs' ≡ₚ concat bs ∧ same_but_links h h'.
Proof.
  intros Hb Hlen He Hmax. destruct (length_ t <? elems_ t).
  - destruct (Resize_eq t h bs) as (t' & h' & bs' & -> & ?);
      [|apply Hb|apply Hb|intros; by eapply buckets_obj|done|done|by eauto].
    rewrite (br_length _ _ _ _ Hb). destruct Hlen as (k & ? & ->). lia.
  - by exists t, h, bs.
Qed.

Lemma Table_Insert_eq t h m e k :
  table_map t h m → e ≠ 0 → handle_id h e = Some k → keyed h e →
  (∀ k', m !! k' ≠ Some e) → Z.of_nat (size m) < 2 ^ 31 →
  ∃ t' h', Table_Insert t h e = Some (t', h', default 0 (m !! k)) ∧
    table_map t' h' (<[k:=e]> m) ∧ same_but_links h h'.
Proof.
  intros HT He0 Hid Hke Hfr Hmax.
  pose proof HT as (_ & bs & Hr & Hm & Hk). pose proof Hr as [Hb Hlen He].
  destruct k as [hsh key]. pose proof Hid as (o & Ho & Hh & Hky)%handle_id_Some.
  pose proof Hke as (n & Hn & Hne).
  assert (Hfr' : e ∉ concat bs) by (intros Hx; apply (Hfr (hsh, key)), Hm; done).
  unfold Table_Insert, handle_key. rewrite Ho. cbn [mbind option_bind]. rewrite Hn.
  cbn [mbind option_bind]. rewrite (proj2 (Z.eqb_neq n e)) by done. cbn [negb mbind option_bind].
  rewrite Hh, Hky.
  destruct (FindPointer_eq t h m bs hsh key Hr Hm Hk) as (a & l1 & l2 & Ha & Hi & Hc & -> & Hl2).
  cbn [mbind option_bind]. destruct (read_slot_chain t h _ a l1 l2 Ha Hc) as (v & -> & Hv).
  cbn [mbind option_bind]. rewrite Hl2. set (i := bucket_of _ _) in *.
  destruct (insert_link t h bs i l1 l2 e Hb Hi) as
    (h1 & t' & h' & Hput & Hw & Hs & Hl' & He' & Hb' & Hp); [|done|done|].
  { intros x ->%list_elem_of_singleton. exists o. by rewrite Hh. }
  pose proof (table_map_elems t h m bs Hr Hm) as Hsize.
  set (bs' := <[i:=_]> bs) in *.
  assert (Hsz' : Z.of_nat (size (<[(hsh, key):=e]> m)) <= 2 ^ 31).
  { rewrite map_size_insert. case_match; unfold id; lia. }
  destruct l2 as [|old l2]; simpl in Hl2, Hv, Hput, Hp |- *.
  - subst v. simpl. rewrite Hput. cbn [mbind option_bind]. rewrite Hw. cbn [mbind option_bind].
    assert (Hmap : entries_map h' (concat bs') (<[(hsh, key):=e]> m)).
    { intros k' x. rewrite (handle_id_links h h') by done.
      by apply (entries_map_add h (concat bs)). }
    assert (Hkey : ∀ x, x ∈ concat bs' → keyed h' x).
    { intros x Hx. apply (keyed_links h); [done|]. rewrite Hp in Hx. set_solver. }
    assert (Hlen' : length (concat bs') = S (length (concat bs))) by by rewrite Hp.
    destruct (maybe_Resize_eq (with_elems t' (u32 (elems_ t' + 1))) h' bs' 0) as
      (t2 & h2 & bs2 & HR & Hr2 & Hp2 & Hs2); [done|simpl; by rewrite Hl'| | |].
    { simpl. rewrite He', He, u32_small; lia. }
    { simpl. rewrite He', He, u32_small; lia. }
    exists t2, h2. split_and!; [exact HR| |by eapply same_but_links_trans].
    split; [done|]. exists bs2. split_and!; [done| |].
    + intros k' x. rewrite (handle_id_links h' h2) by done.
      apply (entries_map_perm h' _ _ Hp2 _ _ eq_refl), Hmap.
    + intros x. rewrite Hp2. intros Hx. apply (keyed_links h'); auto.
  - destruct Hv as (-> & Hold & n' & Hn' & Hv).
    rewrite (proj2 (Z.eqb_neq old 0)) by done. rewrite Hn'. cbn [mbind option_bind].
    rewrite (proj1 (chain_head _ _ _ Hv)). rewrite Hput. cbn [mbind option_bind]. rewrite Hw.
    cbn [mbind option_bind].
    exists t', h'. split_and!; [done| |done]. split; [done|]. exists bs'.
    assert (Hin : old ∈ concat bs) by (apply elem_of_concat; exists i, (l1 ++ old :: l2); set_solver).
    apply elem_of_Permutation in Hin as [rest Hrest].
    assert (Hp' : concat bs' ≡ₚ e :: rest).
    { apply (Permutation_cons_inv (a:=old)). rewrite Hp, Hrest. apply perm_swap. }
    split_and!.
    + split; [done|by rewrite Hl'|]. rewrite He', He, Hrest, Hp'. done.
    + intros k' x. rewrite (handle_id_links h h') by done. rewrite <- insert_delete_eq.
      apply (entries_map_add h rest); [|apply lookup_delete_eq|done|done].
      by apply (entries_map_remove h (concat bs) rest m (hsh, key) old); [|apply Hb| |].
    + intros x. rewrite Hp'. intros Hx. apply (keyed_links h); [done|].
      apply elem_of_cons in Hx as [->|Hx]; [done|]. apply Hk. rewrite Hrest. set_solver.
Qed.

Lemma HandleTable_new_eq h :
  ∃ t h', HandleTable_new h = Some (t, h') ∧ table_map t h' ∅ ∧ same_but_links h h'.
Proof.
  unfold HandleTable_new. destruct (Resize_eq {| length_ := 0; elems_ := 0; list_ := [] |} h [])
    as (t & h' & bs & -> & Hr & Hp & Hs); [done|constructor|constructor|set_solver|done|done|].
  exists t, h'. split_and!; [done| |done]. split; [done|]. exists bs.
  symmetry in Hp. apply Permutation_nil in Hp. rewrite Hp. simpl in *.
  split_and!; [done| |set_solver].
  intros k e. rewrite lookup_empty. set_solver.
Qed.

(** C16: the hash table is a finite map.  The constructor makes an empty table;
    [Lookup], [Insert] and [Remove] of any table that represents a map from
    hashes and keys to entries return, without a fault, the entry the map holds
    (null when it holds none) and leave a table that represents the map with the
    key bound to the new entry, or unbound, growing the bucket array and moving
    every chain when needed; the hash links are the only fields of the entries
    they change.  The lengths are 32-bit integers: a table of at most 2^31
    entries never wraps them. *)
Theorem HandleTable_refines_map t h m :
  (∃ t0 h0, HandleTable_new h = Some (t0, h0) ∧ table_map t0 h0 ∅ ∧ same_but_links h h0) ∧
  (table_map t h m →
    (∀ hsh key, Table_Lookup t h key hsh = Some (default 0 (m !! (hsh, key)))) ∧
    (∀ hsh key, ∃ t' h',
      Table_Remove t h key hsh = Some (t', h', default 0 (m !! (hsh, key))) ∧
      table_map t' h' (delete (hsh, key) m) ∧ same_but_links h h') ∧
    (∀ e k, e ≠ 0 → handle_id h e = Some k → keyed h e → (∀ k', m !! k' ≠ Some e) →
      Z.of_nat (size m) < 2 ^ 31 → ∃ t' h',
      Table_Insert t h e = Some (t', h', default 0 (m !! k)) ∧
      table_map t' h' (<[k:=e]> m) ∧ same_but_links h h')).
Proof.
  split; [apply HandleTable_new_eq|]. intros HT. split_and!.
  - intros. by apply Table_Lookup_eq.
  - intros. by apply Table_Remove_eq.
  - intros. by apply Table_Insert_eq.
Qed.
End table_proofs.

Section examples.
(** Two entries of the same bucket, linked into the list at [in_use_]. *)
Definition two_entries : heap unit unit :=
  let entry k := {| value := (); deleter := (); charge := 1; key_data := k;
                    in_cache := true; refs := 2; hash := 5 |} in
  {| next := {[ 10 := 11; 11 := 2 ]}; prev := {[ 10 := 2; 11 := 10 ]}; next_hash := ∅;
     obj := {[ 10 := entry [x01]; 11 := entry [x02] ]} |}.

Example Table_Lookup_runs :
  ('(t, h) ← HandleTable_new two_entries; '(t, h, _) ← Table_Insert t h 10;
   '(t, h, _) ← Table_Insert t h 11; '(t, h, r) ← Table_Remove t h [x01] 5;
   a ← Table_Lookup t h [x02] 5; b ← Table_Lookup t h [x01] 5; Some (r, a, b))
  = Some (10, 11, 0).
Proof. vm_compute. reflexivity. Qed.

Lemma HandleTable_refines_map_witness :
  ∃ t h t' (h' : heap unit unit), Table_Insert t h 10 = Some (t', h', 0) ∧
    Table_Lookup t' h' [x01] 5 = Some 10 ∧ Table_Lookup t' h' [x02] 5 = Some 0.
Proof.
  destruct (proj1 (HandleTable_refines_map {| length_ := 0; elems_ := 0; list_ := [] |}
    two_entries ∅)) as (t & h & _ & HT & Hn & _ & Ho).
  assert (Hid : handle_id h 10 = Some (5, [x01])) by (unfold handle_id; by rewrite Ho).
  assert (Hk : keyed h 10) by (exists 11; rewrite Hn; done).
  destruct (proj2 (HandleTable_refines_map t h ∅) HT) as (_ & _ & HI).
  destruct (HI 10 (5, [x01]) ltac:(done) Hid Hk ltac:(by intros; rewrite lookup_empty) ltac:(done))
    as (t' & h' & HI' & HT' & _).
  exists t, h, t', h'. split; [exact HI'|].
  destruct (proj2 (HandleTable_refines_map t' h' _) HT') as (HL & _ & _).
  split; rewrite HL; done.
Defined.
End examples.
