(* ===== verification/LRUList.v ===== *)
(** The lists of a cache: [LRU_Remove] and [LRU_Append] of util/cache.cc on the
    two circular lists that run through the entries. *)
From S2P Require Import Prelude Slice HandleTable.
Local Open Scope Z_scope.

Section lists.
Context {V D : Type}.

Definition LRU_Remove (h : heap V D) (e : Z) : option (heap V D) :=
  n ← next h !! e; p ← prev h !! e; h ← put_prev h n p;
  p ← prev h !! e; n ← next h !! e; put_next h p n.

Definition LRU_Append (h : heap V D) (list e : Z) : option (heap V D) :=
  h ← put_next h e list;
  p ← prev h !! list; h ← put_prev h e p;
  p ← prev h !! e; h ← put_next h p e;
  n ← next h !! e; put_prev h n e.

Implicit Types h : heap V D.

(** ** Circular lists *)

(** From [x] through [l] to [y], linked both ways. *)
Fixpoint path h (x : Z) (l : list Z) (y : Z) : Prop :=
  match l with
  | [] => next h !! x = Some y ∧ prev h !! y = Some x
  | z :: l => next h !! x = Some z ∧ prev h !! z = Some x ∧ path h z l y
  end.

Definition ring h (hd : Z) (l : list Z) : Prop := path h hd l hd.

Lemma path_app h x l1 z l2 y :
  path h x (l1 ++ z :: l2) y ↔ path h x l1 z ∧ path h z l2 y.
Proof. revert x. induction l1 as [|w l1 IH]; intros x; simpl; [tauto|]. rewrite IH. tauto. Qed.

Lemma path_ext h h' x l y :
  (∀ z, z ∈ x :: l → next h' !! z = next h !! z) →
  (∀ z, z ∈ l ++ [y] → prev h' !! z = prev h !! z) →
  path h x l y → path h' x l y.
Proof.
  revert x. induction l as [|w l IH]; intros x Hn Hp; simpl.
  - intros [? ?]. rewrite Hn, Hp by set_solver. done.
  - intros (? & ? & ?). rewrite Hn, Hp by set_solver.
    split_and!; [done|done|]. apply IH; set_solver.
Qed.

Lemma path_next h x l y : path h x l y → next h !! x = Some (default y (head l)).
Proof. destruct l; simpl; tauto. Qed.

Lemma path_prev h x l y : path h x l y → prev h !! y = Some (default x (last l)).
Proof.
  destruct l as [|e l _] using rev_ind; simpl; [tauto|].
  rewrite last_snoc, path_app. simpl. tauto.
Qed.

Lemma last_elem {A} (x : A) l : default x (last l) ∈ x :: l.
Proof.
  destruct (last l) as [y|] eqn:E; simpl; [|by left].
  right. apply last_Some in E as [l' ->]. set_solver.
Qed.
Lemma head_elem {A} (y : A) l : default y (head l) ∈ l ++ [y].
Proof. destruct l; set_solver. Qed.

(** The two writes of a removal join the parts before and after [e]. *)
Lemma path_join h h' x l1 e l2 y :
  path h x l1 e → path h e l2 y →
  next h' = <[default x (last l1) := default y (head l2)]> (next h) →
  prev h' = <[default y (head l2) := default x (last l1)]> (prev h) →
  NoDup (x :: l1) → NoDup (l2 ++ [y]) → x ∉ l2 → (∀ z, z ∈ l1 → z ∉ l2 ∧ z ≠ y) →
  path h' x (l1 ++ l2) y.
Proof.
  intros H1 H2 Hn Hp. revert x H1 Hn Hp.
  induction l1 as [|w l1 IH]; intros x H1 Hn Hp Hnd1 Hnd2 Hx Hd; simpl in *.
  - destruct l2 as [|z l2]; simpl in *; rewrite Hn, Hp, !lookup_insert_eq; [done|].
    split_and!; [done|done|]. apply NoDup_cons in Hnd2 as [Hz Hnd2].
    apply (path_ext h); [| |tauto]; intros w Hw; rewrite ?Hn, ?Hp; apply lookup_insert_ne;
      set_solver.
  - destruct H1 as (Hxw & Hwx & H1). rewrite last_cons in Hn, Hp.
    assert (Hlast : default x (Some (default w (last l1))) = default w (last l1)) by done.
    replace (match last l1 with Some y => Some y | None => Some w end)
      with (Some (default w (last l1))) in Hn, Hp by by destruct (last l1).
    rewrite Hlast in Hn, Hp.
    apply NoDup_cons in Hnd1 as [Hxl Hnd1]. pose proof (last_elem w l1) as Hl.
    pose proof (head_elem y l2) as Hh. destruct (Hd w) as [Hw1 Hw2]; [set_solver|].
    split_and!.
    + rewrite Hn, lookup_insert_ne; [done|]. congruence.
    + rewrite Hp, lookup_insert_ne; [done|]. set_solver.
    + apply IH; [done..| |]; [set_solver|]. intros z Hz. apply Hd. set_solver.
Qed.

(** The four writes of an insertion before [y]. *)
Lemma path_snoc h h' x l y e :
  path h x l y →
  next h' = <[default x (last l) := e]> (<[e := y]> (next h)) →
  prev h' = <[y := e]> (<[e := default x (last l)]> (prev h)) →
  NoDup (x :: l) → y ∉ l → e ∉ x :: l → e ≠ y → path h' x (l ++ [e]) y.
Proof.
  revert x. induction l as [|w l IH]; intros x H Hn Hp Hnd Hy He Hey; simpl in *.
  - rewrite Hn, Hp. rewrite (lookup_insert_ne _ y e) by done.
    rewrite (lookup_insert_ne _ x e) by set_solver. by rewrite !lookup_insert_eq.
  - destruct H as (Hxw & Hwx & H). rewrite last_cons in Hn, Hp.
    replace (default x (match last l with Some y => Some y | None => Some w end))
      with (default w (last l)) in Hn, Hp by by destruct (last l).
    apply NoDup_cons in Hnd as [Hxl Hnd]. pose proof (last_elem w l) as Hl.
    split_and!.
    + rewrite Hn, !lookup_insert_ne; [done|set_solver|congruence].
    + rewrite Hp, !lookup_insert_ne; [done|set_solver|set_solver].
    + apply IH; [done..|set_solver|set_solver|done].
Qed.

Lemma path_keyed h x l1 e l2 y :
  path h x (l1 ++ e :: l2) y → NoDup (e :: l2) → e ≠ y → keyed h e.
Proof.
  intros (_ & H)%path_app [He _]%NoDup_cons Hy. exists (default y (head l2)).
  split; [by apply path_next in H|]. pose proof (head_elem y l2). set_solver.
Qed.

(** ** The two operations on one list *)

(** Only the list pointers differ. *)
Definition same_entries h h' : Prop := obj h' = obj h ∧ next_hash h' = next_hash h.

Lemma same_entries_trans h1 h2 h3 :
  same_entries h1 h2 → same_entries h2 h3 → same_entries h1 h3.
Proof. intros [? ?] [? ?]. split; congruence. Qed.

Lemma same_entries_id h h' e : same_entries h h' → handle_id h' e = handle_id h e.
Proof. intros [Ho _]. unfold handle_id. by rewrite Ho. Qed.

Lemma live_head h hd : hd = lru_ ∨ hd = in_use_ → live h hd = true.
Proof. by intros [->| ->]. Qed.

Lemma live_obj h e : is_Some (obj h !! e) → live h e = true.
Proof. intros. unfold live. by rewrite (bool_decide_true (is_Some _)), orb_true_r. Qed.

Lemma put_next_live h x v :
  live h x = true → put_next h x v = Some {| next := <[x := v]> (next h); prev := prev h;
    next_hash := next_hash h; obj := obj h |}.
Proof. intros H. unfold put_next. by rewrite H. Qed.

Lemma put_prev_live h x v :
  live h x = true → put_prev h x v = Some {| next := next h; prev := <[x := v]> (prev h);
    next_hash := next_hash h; obj := obj h |}.
Proof. intros H. unfold put_prev. by rewrite H. Qed.

Lemma live_same_entries h h' x : same_entries h h' → live h' x = live h x.
Proof. intros [Ho _]. unfold live. by rewrite Ho. Qed.

Lemma LRU_Remove_ring h hd l1 e l2 :
  ring h hd (l1 ++ e :: l2) → NoDup (hd :: l1 ++ e :: l2) →
  (∀ x, x ∈ hd :: l1 ++ l2 → live h x = true) →
  ∃ h', LRU_Remove h e = Some h' ∧ ring h' hd (l1 ++ l2) ∧ same_entries h h' ∧
    (∀ x, x ∉ hd :: l1 ++ l2 → next h' !! x = next h !! x ∧ prev h' !! x = prev h !! x).
Proof.
  intros [H1 H2]%path_app Hnd Hlive. apply NoDup_cons in Hnd as [Hhd Hnd].
  apply NoDup_app in Hnd as (Hnd1 & Hd & Hnd2). apply NoDup_cons in Hnd2 as [He Hnd2].
  pose proof (path_prev _ _ _ _ H1) as Hp. pose proof (path_next _ _ _ _ H2) as Hn.
  pose proof (last_elem hd l1) as Hl. pose proof (head_elem hd l2) as Hh.
  set (p := default hd (last l1)) in *. set (n := default hd (head l2)) in *.
  assert (Hlp : live h p = true) by (apply Hlive; set_solver).
  assert (Hln : live h n = true) by (apply Hlive; set_solver).
  assert (Hne : n ≠ e) by set_solver.
  unfold LRU_Remove. rewrite Hn, Hp. cbn [mbind option_bind].
  rewrite put_prev_live by done. cbn [mbind option_bind next prev].
  rewrite lookup_insert_ne, Hp, Hn by done. cbn [mbind option_bind].
  rewrite put_next_live by done. eexists. split; [done|]. split_and!; [|done|].
  - eapply (path_join h _ hd l1 e l2 hd); [done|done|done|done|by constructor; set_solver| |set_solver|set_solver].
    apply NoDup_app. split_and!; [done|set_solver|apply NoDup_singleton].
  - intros x Hx. simpl. rewrite !lookup_insert_ne; [done|set_solver|set_solver].
Qed.

Lemma LRU_Append_ring h hd l e :
  ring h hd l → NoDup (hd :: l) → e ∉ hd :: l →
  (∀ x, x ∈ hd :: e :: l → live h x = true) →
  ∃ h', LRU_Append h hd e = Some h' ∧ ring h' hd (l ++ [e]) ∧ same_entries h h' ∧
    (∀ x, x ∉ hd :: l ++ [e] → next h' !! x = next h !! x ∧ prev h' !! x = prev h !! x).
Proof.
  intros H Hnd He Hlive. pose proof (path_prev _ _ _ _ H) as Hp.
  pose proof (last_elem hd l) as Hl. set (p := default hd (last l)) in *.
  assert (Hlp : live h p = true) by (apply Hlive; set_solver).
  assert (Hle : live h e = true) by (apply Hlive; set_solver).
  assert (Hlh : live h hd = true) by (apply Hlive; set_solver).
  assert (p ≠ e) by set_solver. assert (hd ≠ e) by set_solver.
  unfold LRU_Append. rewrite put_next_live by done. cbn [mbind option_bind prev].
  rewrite Hp. cbn [mbind option_bind]. rewrite put_prev_live by done. cbn [mbind option_bind next prev].
  rewrite lookup_insert_eq. cbn [mbind option_bind].
  rewrite put_next_live by done. cbn [mbind option_bind next prev].
  rewrite lookup_insert_ne, lookup_insert_eq by done. cbn [mbind option_bind].
  rewrite put_prev_live by done. eexists. split; [done|]. split_and!; [|done|].
  - apply NoDup_cons in Hnd as Hnd'. eapply (path_snoc h); [done|done|done|done|tauto|done|done].
  - intros x Hx. simpl. rewrite !lookup_insert_ne; [done|set_solver..].
Qed.

(** ** The two lists of a cache *)

Definition entry_address (e : Z) : Prop := e ≠ 0 ∧ e ≠ lru_ ∧ e ≠ in_use_.

(** The lists [L] and [U] at the heads [a] and [b]. *)
Record two_rings h (a : Z) (L : list Z) (b : Z) (U : list Z) : Prop := {
  lr_heads : a = lru_ ∧ b = in_use_ ∨ a = in_use_ ∧ b = lru_;
  lr_fst : ring h a L;
  lr_snd : ring h b U;
  lr_nodup : NoDup (L ++ U);
  lr_entry : ∀ e, e ∈ L ++ U → is_Some (obj h !! e) ∧ entry_address e
}.

Definition rings h (L U : list Z) : Prop := two_rings h lru_ L in_use_ U.

Lemma two_rings_sym h a L b U : two_rings h a L b U → two_rings h b U a L.
Proof.
  intros [Hh HL HU Hnd He]. split; [tauto|done|done|by rewrite Permutation_app_comm|].
  intros e. rewrite Permutation_app_comm. apply He.
Qed.

Definition without (e : Z) (l : list Z) : list Z := filter (λ x, x ≠ e) l.

Lemma elem_of_without e l x : x ∈ without e l ↔ x ≠ e ∧ x ∈ l.
Proof. unfold without. by rewrite list_elem_of_filter. Qed.

Lemma without_absent e l : e ∉ l → without e l = l.
Proof.
  intros He. unfold without. induction l as [|x l IH]; [done|]. rewrite filter_cons.
  rewrite decide_True by set_solver. f_equal. apply IH. set_solver.
Qed.

Lemma without_split e l1 l2 : NoDup (l1 ++ e :: l2) → without e (l1 ++ e :: l2) = l1 ++ l2.
Proof.
  intros (_ & Hd & Hnd)%NoDup_app. apply NoDup_cons in Hnd as [He _].
  unfold without. rewrite filter_app, filter_cons_False by naive_solver.
  fold (without e l1) (without e l2). rewrite !without_absent; [done|done|set_solver].
Qed.

Lemma without_NoDup e l : NoDup l → NoDup (without e l).
Proof. apply NoDup_filter. Qed.

Lemma two_rings_keyed h a L b U e : two_rings h a L b U → e ∈ L → keyed h e.
Proof.
  intros [Hh HL _ Hnd Hent] He.
  destruct (Hent e) as (_ & _ & ? & ?); [set_solver|].
  apply NoDup_app in Hnd as (Hnd & _). apply list_elem_of_split in He as (l1 & l2 & ->).
  apply NoDup_app in Hnd as (_ & _ & Hnd). eapply path_keyed; [exact HL|done|]. naive_solver.
Qed.

Lemma rings_keyed h L U e : rings h L U → e ∈ L ++ U → keyed h e.
Proof.
  intros HR [He|He]%elem_of_app; [by eapply two_rings_keyed|].
  eapply two_rings_keyed; [by apply two_rings_sym|done].
Qed.

(** A change outside the lists and their heads. *)
Lemma two_rings_ext h h' a L b U :
  two_rings h a L b U →
  (∀ e, e ∈ a :: b :: L ++ U →
    next h' !! e = next h !! e ∧ prev h' !! e = prev h !! e) →
  (∀ e, e ∈ L ++ U → is_Some (obj h' !! e)) →
  two_rings h' a L b U.
Proof.
  intros [Hh HL HU Hnd Hent] Hext Ho. split; [done| | |done|].
  - eapply path_ext; [| |done]; intros z Hz; apply Hext; set_solver.
  - eapply path_ext; [| |done]; intros z Hz; apply Hext; set_solver.
  - intros e He. split; [auto|]. by apply Hent.
Qed.

(** What a list operation keeps. *)
Definition keeps h h' : Prop :=
  same_entries h h' ∧ ∀ e, entry_address e → keyed h e → keyed h' e.

Lemma keeps_trans h1 h2 h3 : keeps h1 h2 → keeps h2 h3 → keeps h1 h3.
Proof. intros [? ?] [? ?]. split; [by eapply same_entries_trans|auto]. Qed.

(** The entries of the lists are keyed because they are linked, the others
    because nothing has changed. *)
Lemma keeps_intro h h' a L b U :
  same_entries h h' → two_rings h' a L b U →
  (∀ x, x ∉ a :: L → next h' !! x = next h !! x) → keeps h h'.
Proof.
  intros Hs HR Hx. split; [done|]. intros e (_ & ? & ?) (n & Hn & Hne).
  destruct (decide (e ∈ L)) as [He|He]; [by eapply two_rings_keyed|].
  exists n. rewrite Hx; [done|]. destruct (lr_heads _ _ _ _ _ HR) as [[-> _]|[-> _]]; set_solver.
Qed.

Lemma two_rings_live h a L b U x : two_rings h a L b U → x ∈ a :: L → live h x = true.
Proof.
  intros HR [->|Hx]%elem_of_cons.
  - apply live_head. destruct (lr_heads _ _ _ _ _ HR); naive_solver.
  - apply live_obj, (lr_entry _ _ _ _ _ HR). set_solver.
Qed.

Lemma two_rings_head h a L b U : two_rings h a L b U → a ≠ b ∧ a ∉ L ++ U ∧ b ∉ L ++ U.
Proof.
  intros [Hh _ _ _ Hent]. split_and!.
  - destruct Hh as [[-> ->]|[-> ->]]; done.
  - intros (_ & _ & ? & ?)%Hent. naive_solver.
  - intros (_ & _ & ? & ?)%Hent. naive_solver.
Qed.

Lemma two_rings_remove h a L b U e :
  two_rings h a L b U → e ∈ L →
  ∃ h', LRU_Remove h e = Some h' ∧ two_rings h' a (without e L) b U ∧ keeps h h'.
Proof.
  intros HR He. pose proof (two_rings_head _ _ _ _ _ HR) as (Hab & Ha & Hb).
  pose proof HR as [Hh HL HU Hnd Hent].
  apply list_elem_of_split in He as (l1 & l2 & ->).
  pose proof Hnd as (HndL & Hd & HndU)%NoDup_app.
  rewrite (without_split e l1 l2 HndL).
  destruct (LRU_Remove_ring h a l1 e l2) as (h' & HE & HL' & Hs & Hext); [done| | |].
  - constructor; [set_solver|done].
  - intros x Hx. eapply two_rings_live; [done|]. set_solver.
  - assert (He : e ∉ l1 ++ l2).
    { apply NoDup_app in HndL as (_ & ? & [??]%NoDup_cons). set_solver. }
    assert (Hp : (l1 ++ e :: l2) ++ U ≡ₚ e :: (l1 ++ l2) ++ U).
    { by rewrite <- Permutation_middle. }
    assert (HR' : two_rings h' a (l1 ++ l2) b U).
    { split; [done|done| | |].
      - eapply path_ext; [| |exact HU]; intros z Hz; apply Hext; set_solver.
      - rewrite Hp in Hnd. by apply NoDup_cons in Hnd as [_ ?].
      - intros x Hx. destruct Hs as [-> _]. apply Hent. rewrite Hp. set_solver. }
    exists h'. split_and!; [done|done|]. eapply keeps_intro; [done|done|].
    intros x Hx. by apply Hext.
Qed.

Lemma two_rings_append h a L b U e :
  two_rings h a L b U → e ∉ L ++ U → entry_address e → is_Some (obj h !! e) →
  ∃ h', LRU_Append h a e = Some h' ∧ two_rings h' a (L ++ [e]) b U ∧ keeps h h'.
Proof.
  intros HR He Hea Ho. pose proof (two_rings_head _ _ _ _ _ HR) as (Hab & Ha & Hb).
  pose proof HR as [Hh HL HU Hnd Hent]. pose proof Hnd as (HndL & Hd & HndU)%NoDup_app.
  assert (Hnea : e ≠ a ∧ e ≠ b).
  { destruct Hea as (_ & ? & ?). destruct Hh as [[-> ->]|[-> ->]]; done. }
  destruct (LRU_Append_ring h a L e) as (h' & HE & HL' & Hs & Hext); [done| | | |].
  - constructor; [set_solver|done].
  - set_solver.
  - intros x Hx. destruct (decide (x = e)) as [->|]; [by apply live_obj|].
    eapply two_rings_live; [done|]. set_solver.
  - assert (Hp : (L ++ [e]) ++ U ≡ₚ e :: L ++ U).
    { rewrite <- (assoc_L (++)). simpl. by rewrite <- Permutation_middle. }
    assert (HR' : two_rings h' a (L ++ [e]) b U).
    { split; [done|done| | |].
      - eapply path_ext; [| |exact HU]; intros z Hz; apply Hext; set_solver.
      - rewrite Hp. by constructor.
      - intros x. rewrite Hp. destruct Hs as [-> _].
        intros [->|Hx]%elem_of_cons; [done|by apply Hent]. }
    exists h'. split_and!; [done|done|]. eapply keeps_intro; [done|done|].
    intros x Hx. by apply Hext.
Qed.

(** Removal from whichever list holds the entry. *)
Lemma rings_remove h L U e :
  rings h L U → e ∈ L ++ U →
  ∃ h', LRU_Remove h e = Some h' ∧ rings h' (without e L) (without e U) ∧ keeps h h'.
Proof.
  intros HR [He|He]%elem_of_app; pose proof (lr_nodup _ _ _ _ _ HR) as (_ & Hd & _)%NoDup_app.
  - rewrite (without_absent e U) by auto. by apply two_rings_remove.
  - rewrite (without_absent e L) by (intros ?; by eapply Hd).
    destruct (two_rings_remove h in_use_ U lru_ L e) as (h' & ? & ? & ?);
      [by apply two_rings_sym|done|].
    exists h'. split_and!; [done|by apply two_rings_sym|done].
Qed.

Lemma rings_append_lru h L U e :
  rings h L U → e ∉ L ++ U → entry_address e → is_Some (obj h !! e) →
  ∃ h', LRU_Append h lru_ e = Some h' ∧ rings h' (L ++ [e]) U ∧ keeps h h'.
Proof. apply two_rings_append. Qed.

Lemma rings_append_in_use h L U e :
  rings h L U → e ∉ L ++ U → entry_address e → is_Some (obj h !! e) →
  ∃ h', LRU_Append h in_use_ e = Some h' ∧ rings h' L (U ++ [e]) ∧ keeps h h'.
Proof.
  intros HR He Hea Ho.
  destruct (two_rings_append h in_use_ U lru_ L e) as (h' & ? & ? & ?);
    [by apply two_rings_sym|by rewrite Permutation_app_comm|done|done|].
  exists h'. split_and!; [done|by apply two_rings_sym|done].
Qed.

(** Which entry is the oldest. *)
Lemma rings_first h L U : rings h L U → next h !! lru_ = Some (default lru_ (head L)).
Proof. intros HR. eapply path_next, HR. Qed.

Lemma rings_first_in_use h L U :
  rings h L U → next h !! in_use_ = Some (default in_use_ (head U)).
Proof. intros HR. eapply path_next, HR. Qed.
End lists.
