(* ===== verification/LRUCache.v ===== *)
(** A cache shard: [LRUCache] of util/cache.cc.

    The state of the object is its fields, the memory its entries live in and
    the list of the deleter calls it has made.  Two circular lists run through
    the entries, from the heads [lru_] and [in_use_].  Every public operation
    holds the mutex from its first statement to its last, so that it is one step;
    what a client can see is the order of these steps. *)
From stdpp Require Import gmultiset.
From S2P Require Import Prelude Slice HandleTable LRUList.
Local Open Scope Z_scope.

Section cache.
Context {V D : Type}.

Record LRUCache := {
  capacity_ : Z; usage_ : Z; table_ : HandleTable;
  mem : heap V D; calls : list (D * bytes * V)
}.

Definition with_mem (c : LRUCache) (h : heap V D) : LRUCache :=
  {| capacity_ := capacity_ c; usage_ := usage_ c; table_ := table_ c;
     mem := h; calls := calls c |}.
Definition with_table (c : LRUCache) (t : HandleTable) (h : heap V D) : LRUCache :=
  {| capacity_ := capacity_ c; usage_ := usage_ c; table_ := t;
     mem := h; calls := calls c |}.
Definition with_usage (c : LRUCache) (u : Z) : LRUCache :=
  {| capacity_ := capacity_ c; usage_ := u; table_ := table_ c;
     mem := mem c; calls := calls c |}.
Definition SetCapacity (c : LRUCache) (n : Z) : LRUCache :=
  {| capacity_ := n; usage_ := usage_ c; table_ := table_ c;
     mem := mem c; calls := calls c |}.

Definition with_refs (o : LRUHandle V D) (n : Z) : LRUHandle V D :=
  {| value := value o; deleter := deleter o; charge := charge o; key_data := key_data o;
     in_cache := in_cache o; refs := n; hash := hash o |}.
Definition with_in_cache (o : LRUHandle V D) (b : bool) : LRUHandle V D :=
  {| value := value o; deleter := deleter o; charge := charge o; key_data := key_data o;
     in_cache := b; refs := refs o; hash := hash o |}.

(** ** Reference counts *)

Definition Ref (c : LRUCache) (e : Z) : option LRUCache :=
  o ← obj (mem c) !! e;
  h ← (if (refs o =? 1) && in_cache o
       then h ← LRU_Remove (mem c) e; LRU_Append h in_use_ e
       else Some (mem c));
  Some (with_mem c (put_obj h e (with_refs o (u32 (refs o + 1))))).

(** [free(e)]. *)
Definition free_handle (h : heap V D) (e : Z) : heap V D :=
  {| next := delete e (next h); prev := delete e (prev h);
     next_hash := delete e (next_hash h); obj := delete e (obj h) |}.

(** The call of [e->deleter] on [e->key()] and [e->value]. *)
Definition call_deleter (c : LRUCache) (o : LRUHandle V D) (k : bytes) : LRUCache :=
  {| capacity_ := capacity_ c; usage_ := usage_ c; table_ := table_ c;
     mem := mem c; calls := calls c ++ [(deleter o, k, value o)] |}.

Definition Unref (c : LRUCache) (e : Z) : option LRUCache :=
  o ← obj (mem c) !! e;
  ASSERT (0 <? refs o);
  let o := with_refs o (u32 (refs o - 1)) in
  let h := put_obj (mem c) e o in
  if refs o =? 0 then
    ASSERT (negb (in_cache o));
    k ← handle_key h e;
    Some (with_mem (call_deleter c o k) (free_handle h e))
  else if in_cache o && (refs o =? 1) then
    h ← LRU_Remove h e; h ← LRU_Append h lru_ e; Some (with_mem c h)
  else Some (with_mem c h).

Definition FinishErase (c : LRUCache) (e : Z) : option (LRUCache * bool) :=
  if e =? 0 then Some (c, false)
  else
    o ← obj (mem c) !! e;
    ASSERT (in_cache o);
    h ← LRU_Remove (mem c) e;
    let h := put_obj h e (with_in_cache o false) in
    let c := with_usage (with_mem c h) (u64 (usage_ c - charge o)) in
    c ← Unref c e; Some (c, true).

(** ** The public operations *)

Definition LRUCache_new : option LRUCache :=
  let h := {| next := ∅; prev := ∅; next_hash := ∅; obj := ∅ |} in
  '(t, h) ← HandleTable_new h;
  h ← put_next h lru_ lru_; h ← put_prev h lru_ lru_;
  h ← put_next h in_use_ in_use_; h ← put_prev h in_use_ in_use_;
  Some {| capacity_ := 0; usage_ := 0; table_ := t; mem := h; calls := [] |}.

Definition Lookup (c : LRUCache) (key : bytes) (hsh : Z) : option (LRUCache * Z) :=
  e ← Table_Lookup (table_ c) (mem c) key hsh;
  if e =? 0 then Some (c, e) else c ← Ref c e; Some (c, e).

Definition Release (c : LRUCache) (e : Z) : option LRUCache := Unref c e.

Definition Erase (c : LRUCache) (key : bytes) (hsh : Z) : option LRUCache :=
  '(t, h, e) ← Table_Remove (table_ c) (mem c) key hsh;
  '(c, _) ← FinishErase (with_table c t h) e; Some c.

(** The body of the loops of [Insert] and [Prune]: the oldest entry goes. *)
Definition evict_oldest (c : LRUCache) : option LRUCache :=
  old ← next (mem c) !! lru_;
  o ← obj (mem c) !! old;
  ASSERT (refs o =? 1);
  k ← handle_key (mem c) old;
  '(t, h, r) ← Table_Remove (table_ c) (mem c) k (hash o);
  '(c, erased) ← FinishErase (with_table c t h) r;
  ASSERT (erased : bool); Some c.

Fixpoint evict (fuel : nat) (c : LRUCache) : option LRUCache :=
  match fuel with
  | O => None
  | S n =>
    first ← next (mem c) !! lru_;
    if (capacity_ c <? usage_ c) && negb (first =? lru_)
    then c ← evict_oldest c; evict n c else Some c
  end.

Fixpoint prune (fuel : nat) (c : LRUCache) : option LRUCache :=
  match fuel with
  | O => None
  | S n =>
    first ← next (mem c) !! lru_;
    if negb (first =? lru_) then c ← evict_oldest c; prune n c else Some c
  end.

(** Each round removes an entry. *)
Definition Prune (c : LRUCache) : option LRUCache := prune (S (size (obj (mem c)))) c.

(** The address [e] is what [malloc] returns: an address where nothing lives. *)
Definition Insert (c : LRUCache) (e : Z) (key : bytes) (hsh : Z) (v : V) (chg : Z) (del : D)
    : option (LRUCache * Z) :=
  ASSERT (negb (live (mem c) e) && negb (e =? 0));
  let o := {| value := v; deleter := del; charge := chg; key_data := key;
              in_cache := false; refs := 1; hash := hsh |} in
  let h := put_obj (mem c) e o in
  c ← (if 0 <? capacity_ c then
         let h := put_obj h e (with_in_cache (with_refs o (u32 (refs o + 1))) true) in
         h ← LRU_Append h in_use_ e;
         let c := with_usage (with_mem c h) (u64 (usage_ c + chg)) in
         '(t, h, old) ← Table_Insert (table_ c) (mem c) e;
         '(c, _) ← FinishErase (with_table c t h) old; Some c
       else h ← put_next h e 0; Some (with_mem c h));
  c ← evict (S (size (obj (mem c)))) c;
  Some (c, e).

Definition TotalCharge (c : LRUCache) : Z := usage_ c.

(** The destructor. *)
Fixpoint destroy (fuel : nat) (c : LRUCache) (e : Z) : option LRUCache :=
  match fuel with
  | O => None
  | S n =>
    if e =? lru_ then Some c
    else
      nxt ← next (mem c) !! e;
      o ← obj (mem c) !! e;
      ASSERT (in_cache o);
      ASSERT (refs o =? 1);
      c ← Unref (with_mem c (put_obj (mem c) e (with_in_cache o false))) e;
      destroy n c nxt
  end.

Definition LRUCache_destroy (c : LRUCache) : option LRUCache :=
  u ← next (mem c) !! in_use_;
  ASSERT (u =? in_use_);
  first ← next (mem c) !! lru_;
  destroy (S (size (obj (mem c)))) c first.
End cache.
Arguments LRUCache : clear implicits.

Section runs.
Definition insert_kv (c : LRUCache nat unit) e k v chg := Insert c e [k] 5 v chg ().
Example lru_runs :
  (c ← @LRUCache_new nat unit; let c := SetCapacity c 2 in
   '(c, a) ← insert_kv c 10 x01 100%nat 1; c ← Release c a;
   '(c, b) ← insert_kv c 11 x02 200%nat 1; c ← Release c b;
   '(c, a') ← Lookup c [x01] 5; c ← Release c a';
   '(c, d) ← insert_kv c 12 x03 300%nat 1;
   '(c, r1) ← Lookup c [x01] 5; '(c, r2) ← Lookup c [x02] 5; c ← Erase c [x03] 5;
   Some (a', r1, r2, usage_ c, calls c)) = Some (10, 10, 0, 1, [((), [x02], 200%nat)]).
Proof. vm_compute. reflexivity. Qed.
End runs.

(** ** What a cache promises

    The specification knows the entries that exist, the ones the cache has under
    each key, the handles clients hold (a client may hold several on the same
    entry), and the cached entries no client holds, oldest first.  Reference
    counts, the two lists and the hash table implement these. *)

Section spec.
Context {V D : Type}.

Record entry := { e_value : V; e_deleter : D; e_charge : Z; e_key : bytes; e_hash : Z }.

Record spec := {
  cap : Z;
  entries : gmap Z entry;
  index : gmap (Z * bytes) Z;
  held : gmultiset Z;
  recency : list Z;
  log : list (D * bytes * V)
}.

Definition entry_id (en : entry) : Z * bytes := (e_hash en, e_key en).
Definition deleter_call (en : entry) : D * bytes * V := (e_deleter en, e_key en, e_value en).

Definition zsum : list Z → Z := foldr Z.add 0.

Definition charge_of (E : gmap Z entry) (e : Z) : Z := from_option e_charge 0 (E !! e).

(** The sum of the charges of the entries a map of keys holds. *)
Definition total (E : gmap Z entry) (m : gmap (Z * bytes) Z) : Z :=
  zsum (charge_of E <$> (map_to_list m).*2).

Definition usage (s : spec) : Z := u64 (total (entries s) (index s)).

(** The entry goes away: its deleter is called. *)
Definition drop_entry (s : spec) (e : Z) : spec :=
  match entries s !! e with
  | None => s
  | Some en =>
    {| cap := cap s; entries := delete e (entries s); index := index s; held := held s;
       recency := recency s; log := log s ++ [deleter_call en] |}
  end.

Definition drop_unheld (s : spec) (e : Z) : spec :=
  if decide (e ∈ held s) then s else drop_entry s e.

(** The cached entries become those of [m], without [e]. *)
Definition reindex (s : spec) (m : gmap (Z * bytes) Z) (e : Z) : spec :=
  {| cap := cap s; entries := entries s; index := m; held := held s;
     recency := without e (recency s); log := log s |}.

(** The cache forgets a key; an entry nobody holds goes away. *)
Definition spec_erase (s : spec) (k : Z * bytes) : spec :=
  match index s !! k with
  | None => s
  | Some e => drop_unheld (reindex s (delete k (index s)) e) e
  end.

Definition spec_lookup (s : spec) (k : Z * bytes) : spec * Z :=
  match index s !! k with
  | None => (s, 0)
  | Some e =>
    ({| cap := cap s; entries := entries s; index := index s; held := {[+ e +]} ⊎ held s;
        recency := without e (recency s); log := log s |}, e)
  end.

Definition is_cached (s : spec) (e : Z) : bool :=
  match entries s !! e with
  | Some en => bool_decide (index s !! entry_id en = Some e)
  | None => false
  end.

(** Giving back the last handle makes a cached entry the newest evictable one. *)
Definition spec_release (s : spec) (e : Z) : spec :=
  let H := held s ∖ {[+ e +]} in
  let s := {| cap := cap s; entries := entries s; index := index s; held := H;
              recency := recency s; log := log s |} in
  if decide (e ∈ H) then s
  else if is_cached s e then
    {| cap := cap s; entries := entries s; index := index s; held := H;
       recency := recency s ++ [e]; log := log s |}
  else drop_entry s e.

Definition id_of (s : spec) (e : Z) : Z * bytes :=
  from_option entry_id (0, []) (entries s !! e).

(** The oldest entries go until the charges fit or nothing can go. *)
Fixpoint evict_list (l : list Z) (s : spec) : spec :=
  match l with
  | [] => s
  | e :: l => if cap s <? usage s then evict_list l (spec_erase s (id_of s e)) else s
  end.
Definition spec_evict (s : spec) : spec := evict_list (recency s) s.

Definition spec_prune (s : spec) : spec :=
  foldl (λ s e, spec_erase s (id_of s e)) s (recency s).

Definition add_entry (s : spec) (e : Z) (en : entry) : spec :=
  {| cap := cap s; entries := <[e := en]> (entries s); index := index s;
     held := {[+ e +]} ⊎ held s; recency := recency s; log := log s |}.

(** The new entry, held by the caller, under its key; what was there before
    goes. *)
Definition spec_bind (s : spec) (e : Z) (en : entry) : spec :=
  let s1 := add_entry s e en in
  if 0 <? cap s then
    let m := <[entry_id en := e]> (index s) in
    match index s !! entry_id en with
    | None => reindex s1 m e
    | Some old => drop_unheld (reindex s1 m old) old
    end
  else s1.

Definition spec_insert (s : spec) (e : Z) (en : entry) : spec := spec_evict (spec_bind s e en).
End spec.
Arguments entry : clear implicits.
Arguments spec : clear implicits.

(** ** The representation of the specification's state in memory *)

Section proofs.
Context {V D : Type}.
Implicit Types (h : heap V D) (c : LRUCache V D) (s : spec V D) (E : gmap Z (entry V D))
  (H : gmultiset Z) (L U : list Z).

(** An entry of [n] handles. *)
Definition handle_of (en : entry V D) (cached : bool) (n : nat) : LRUHandle V D :=
  {| value := e_value en; deleter := e_deleter en; charge := e_charge en;
     key_data := e_key en; in_cache := cached;
     refs := Z.of_nat n + (if cached then 1 else 0); hash := e_hash en |}.

(** The books of the cache: the evictable entries are not held, the cached ones
    in use are, and every entry is cached or held. *)
Record books E H L U : Prop := {
  bk_lru : ∀ e, e ∈ L → e ∉ H;
  bk_in_use : ∀ e, e ∈ U → e ∈ H;
  bk_held : ∀ e, e ∈ H → is_Some (E !! e);
  bk_owned : ∀ e, is_Some (E !! e) → e ∈ L ++ U ∨ e ∈ H
}.

Record heap_rep h E H L U : Prop := {
  hr_obj : ∀ e, obj h !! e =
    (λ en, handle_of en (bool_decide (e ∈ L ++ U)) (multiplicity e H)) <$> E !! e;
  hr_rings : rings h L U;
  hr_addr : ∀ e, is_Some (E !! e) → entry_address e ∧ keyed h e;
  hr_books : books E H L U
}.

Lemma hr_Some h E H L U e en :
  heap_rep h E H L U → E !! e = Some en →
  obj h !! e = Some (handle_of en (bool_decide (e ∈ L ++ U)) (multiplicity e H)).
Proof. intros R He. by rewrite (hr_obj _ _ _ _ _ R), He. Qed.

Lemma hr_entry h E H L U e : heap_rep h E H L U → is_Some (obj h !! e) ↔ is_Some (E !! e).
Proof. intros R. by rewrite (hr_obj _ _ _ _ _ R), fmap_is_Some. Qed.

Lemma hr_cached h E H L U e : heap_rep h E H L U → e ∈ L ++ U → is_Some (E !! e).
Proof. intros R He. apply (hr_entry h E H L U e R). by eapply lr_entry; [apply R|]. Qed.

Lemma hr_id h E H L U e : heap_rep h E H L U → handle_id h e = entry_id <$> E !! e.
Proof.
  intros R. unfold handle_id. rewrite (hr_obj _ _ _ _ _ R). by destruct (E !! e).
Qed.

Lemma hr_disjoint h E H L U e : heap_rep h E H L U → e ∈ L → e ∉ U.
Proof. intros R HL. pose proof (lr_nodup _ _ _ _ _ (hr_rings _ _ _ _ _ R)) as (_ & Hd & _)%NoDup_app. auto. Qed.

(** The table stays right when the entries it holds stay cached, keep their
    identity and their hash links. *)
Lemma table_map_rep t m h E H L U h' E' H' L' U' :
  table_map t h m → heap_rep h E H L U → heap_rep h' E' H' L' U' →
  (∀ k x, m !! k = Some x →
    x ∈ L' ++ U' ∧ E' !! x = E !! x ∧ next_hash h' !! x = next_hash h !! x) →
  table_map t h' m.
Proof.
  intros HT R R' Hm. apply (table_map_ext t h); [done|]. intros k x Hk.
  destruct (Hm k x Hk) as (Hc & HE & Hn). split_and!; [done| |].
  - rewrite (hr_id _ _ _ _ _ _ R), (hr_id _ _ _ _ _ _ R'). by rewrite HE.
  - eapply rings_keyed; [apply R'|done].
Qed.

(** Writing the fields of an entry does not touch the lists. *)
Lemma rings_put_obj h L U e o : rings h L U → rings (put_obj h e o) L U.
Proof.
  intros HR. eapply two_rings_ext; [done|done|].
  intros x Hx. simpl. destruct (decide (x = e)) as [->|Hne]; [by rewrite lookup_insert_eq|].
  rewrite lookup_insert_ne by done. by apply (lr_entry _ _ _ _ _ HR).
Qed.

Lemma keyed_put_obj h e o x : keyed (put_obj h e o) x ↔ keyed h x.
Proof. done. Qed.

Lemma free_keyed h e x : x ≠ e → keyed h x → keyed (free_handle h e) x.
Proof. intros Hne (n & Hn & ?). exists n. simpl. by rewrite lookup_delete_ne. Qed.

Lemma rings_free h L U e :
  rings h L U → entry_address e → e ∉ L ++ U → rings (free_handle h e) L U.
Proof.
  intros HR Hea He. eapply two_rings_ext; [done| |].
  - intros x Hx. simpl. rewrite !lookup_delete_ne; [done|..]; intros <-;
      destruct Hea as (_ & ? & ?); set_solver.
  - intros x Hx. simpl. rewrite lookup_delete_ne by (intros <-; done).
    by apply (lr_entry _ _ _ _ _ HR).
Qed.

(** Changing one entry's handle count. *)
Lemma handle_of_refs (en : entry V D) b n n' :
  with_refs (handle_of en b n) (Z.of_nat n' + (if b then 1 else 0)) = handle_of en b n'.
Proof. done. Qed.

Lemma elem_of_mult (e : Z) H : e ∈ H ↔ (0 < multiplicity e H)%nat.
Proof. by rewrite elem_of_multiplicity. Qed.

Lemma mult_size (e : Z) H : (multiplicity e H <= size H)%nat.
Proof.
  assert (Hs : (multiplicity e H *: {[+ e +]} : gmultiset Z) ⊆ H).
  { intros x. rewrite multiplicity_scalar_mul, multiplicity_singleton. case_decide; subst; lia. }
  apply gmultiset_subseteq_size in Hs.
  rewrite gmultiset_size_scalar_mul, gmultiset_size_singleton in Hs. lia.
Qed.

(** A step that concerns the entry [e] only. *)
Lemma hr_step h E H L U h' E' H' L' U' e :
  heap_rep h E H L U → rings h' L' U' →
  (∀ x, x ≠ e → obj h' !! x = obj h !! x ∧ E' !! x = E !! x ∧
    multiplicity x H' = multiplicity x H ∧ (x ∈ L' ↔ x ∈ L) ∧ (x ∈ U' ↔ x ∈ U)) →
  (∀ x, x ≠ e → entry_address x → keyed h x → keyed h' x) →
  obj h' !! e =
    (λ en, handle_of en (bool_decide (e ∈ L' ++ U')) (multiplicity e H')) <$> E' !! e →
  (is_Some (E' !! e) → entry_address e ∧ keyed h' e ∧ (e ∈ L' ++ U' ∨ e ∈ H')) →
  (e ∈ L' → e ∉ H') → (e ∈ U' → e ∈ H') → (e ∈ H' → is_Some (E' !! e)) →
  heap_rep h' E' H' L' U'.
Proof.
  intros R HR Hx Hk He HE HL HU HH. pose proof (hr_books _ _ _ _ _ R) as [B1 B2 B3 B4].
  split; [|done| |split].
  - intros x. destruct (decide (x = e)) as [->|Hne]; [done|].
    destruct (Hx x Hne) as (-> & -> & -> & H1 & H2). rewrite (hr_obj _ _ _ _ _ R).
    destruct (E !! x); [|done]. simpl. do 2 f_equal. apply bool_decide_ext.
    by rewrite !elem_of_app, H1, H2.
  - intros x. destruct (decide (x = e)) as [->|Hne]; [intros (? & ? & _)%HE; done|].
    destruct (Hx x Hne) as (_ & -> & _). intros [??]%(hr_addr _ _ _ _ _ R). auto.
  - intros x. destruct (decide (x = e)) as [->|Hne]; [done|].
    destruct (Hx x Hne) as (_ & _ & Hm & -> & _). rewrite !elem_of_mult, Hm, <- elem_of_mult. auto.
  - intros x. destruct (decide (x = e)) as [->|Hne]; [done|].
    destruct (Hx x Hne) as (_ & _ & Hm & _ & ->). rewrite !elem_of_mult, Hm, <- elem_of_mult. auto.
  - intros x. destruct (decide (x = e)) as [->|Hne]; [done|].
    destruct (Hx x Hne) as (_ & -> & Hm & _). rewrite !elem_of_mult, Hm, <- elem_of_mult. auto.
  - intros x. destruct (decide (x = e)) as [->|Hne]; [by intros (_ & _ & ?)%HE|].
    destruct (Hx x Hne) as (_ & -> & Hm & H1 & H2).
    rewrite elem_of_mult, Hm, <- elem_of_mult, elem_of_app, H1, H2, <- elem_of_app. auto.
Qed.

Lemma put_obj_ne h e o x : x ≠ e → obj (put_obj h e o) !! x = obj h !! x.
Proof. intros. simpl. by rewrite lookup_insert_ne. Qed.

Lemma elem_of_without_ne (e x : Z) l : x ≠ e → x ∈ without e l ↔ x ∈ l.
Proof. intros. rewrite elem_of_without. tauto. Qed.

Lemma not_elem_of_without (e : Z) l : e ∉ without e l.
Proof. rewrite elem_of_without. tauto. Qed.

Lemma mult_add_ne (x e : Z) H : x ≠ e → multiplicity x ({[+ e +]} ⊎ H) = multiplicity x H.
Proof. intros. by rewrite multiplicity_disj_union, multiplicity_singleton_ne. Qed.
Lemma mult_add_eq (e : Z) H : multiplicity e ({[+ e +]} ⊎ H) = S (multiplicity e H).
Proof. by rewrite multiplicity_disj_union, multiplicity_singleton_eq. Qed.
Lemma mult_del_ne (x e : Z) H : x ≠ e → multiplicity x (H ∖ {[+ e +]}) = multiplicity x H.
Proof. intros. rewrite multiplicity_difference, multiplicity_singleton_ne by done. lia. Qed.
Lemma mult_del_eq (e : Z) H : multiplicity e (H ∖ {[+ e +]}) = (multiplicity e H - 1)%nat.
Proof. by rewrite multiplicity_difference, multiplicity_singleton_eq. Qed.

(** The same lists except perhaps for [e]. *)
Definition same_but (e : Z) L U L' U' : Prop :=
  ∀ x, x ≠ e → (x ∈ L' ↔ x ∈ L) ∧ (x ∈ U' ↔ x ∈ U).

(** An entry that stays gets its new count and flag. *)
Lemma hr_keep h E H L U h' H' L' U' e en :
  heap_rep h E H L U → E !! e = Some en → rings h' L' U' →
  obj h' = <[e := handle_of en (bool_decide (e ∈ L' ++ U')) (multiplicity e H')]> (obj h) →
  (∀ x, entry_address x → keyed h x → keyed h' x) →
  same_but e L U L' U' → (∀ x, x ≠ e → multiplicity x H' = multiplicity x H) →
  (e ∈ L' → e ∉ H') → (e ∈ U' → e ∈ H') → e ∈ L' ++ U' ∨ e ∈ H' →
  heap_rep h' E H' L' U'.
Proof.
  intros R HE HR Ho Hk Hx Hm HL HU Hown.
  destruct (hr_addr _ _ _ _ _ R e) as [Hea Hke]; [eauto|].
  eapply (hr_step _ _ _ _ _ _ _ _ _ _ e R HR); [|by auto| | |done|done|by eauto].
  - intros x Hne. rewrite Ho, lookup_insert_ne by done.
    split_and!; try done; by (apply Hm || apply Hx).
  - by rewrite Ho, lookup_insert_eq, HE.
  - auto.
Qed.

(** An entry nobody refers to is freed. *)
Lemma hr_drop h E H L U h' H' L' U' e :
  heap_rep h E H L U → rings h' L' U' → obj h' = delete e (obj h) →
  (∀ x, x ≠ e → entry_address x → keyed h x → keyed h' x) →
  same_but e L U L' U' → (∀ x, x ≠ e → multiplicity x H' = multiplicity x H) →
  e ∉ L' ++ U' → e ∉ H' →
  heap_rep h' (delete e E) H' L' U'.
Proof.
  intros R HR Ho Hk Hx Hm HL HH.
  eapply (hr_step _ _ _ _ _ _ _ _ _ _ e R HR); [|done| | |set_solver|set_solver|done].
  - intros x Hne. rewrite Ho, !lookup_delete_ne by done.
    split_and!; try done; by (apply Hm || apply Hx).
  - by rewrite Ho, !lookup_delete_eq.
  - rewrite lookup_delete_eq. by intros [].
Qed.

(** A new entry. *)
Lemma hr_new h E H L U h' L' U' e en :
  heap_rep h E H L U → entry_address e → rings h' L' U' → keyed h' e →
  obj h' = <[e := handle_of en (bool_decide (e ∈ L' ++ U')) (S (multiplicity e H))]> (obj h) →
  (∀ x, x ≠ e → entry_address x → keyed h x → keyed h' x) →
  same_but e L U L' U' → e ∉ L' →
  heap_rep h' (<[e:=en]> E) ({[+ e +]} ⊎ H) L' U'.
Proof.
  intros R Hea HR Hke Ho Hk Hx HL.
  assert (HeH : e ∈ {[+ e +]} ⊎ H) by (rewrite elem_of_mult, mult_add_eq; lia).
  eapply (hr_step _ _ _ _ _ _ _ _ _ _ e R HR); [|done| |by auto|done|done|].
  - intros x Hne. rewrite Ho, !lookup_insert_ne, mult_add_ne by done.
    split_and!; try done; by apply Hx.
  - by rewrite Ho, !lookup_insert_eq, mult_add_eq.
  - rewrite lookup_insert_eq. eauto.
Qed.

(** *** [Ref] *)

Lemma hr_mult h E H L U e :
  heap_rep h E H L U → e ∈ L ++ U → (multiplicity e H = 0%nat ↔ e ∈ L).
Proof.
  intros R He. pose proof (hr_books _ _ _ _ _ R) as [B1 B2 _ _]. split.
  - intros Hm. apply elem_of_app in He as [?|HU]; [done|].
    apply B2 in HU. rewrite elem_of_mult in HU. lia.
  - intros HL. apply B1 in HL. rewrite elem_of_mult in HL. lia.
Qed.

Lemma keeps_refl h : keeps h h.
Proof. by split. Qed.

Lemma with_refs_handle (en : entry V D) (b : bool) (n : nat) (r : Z) (n' : nat) :
  r = Z.of_nat n' + (if b then 1 else 0) → with_refs (handle_of en b n) r = handle_of en b n'.
Proof. by intros ->. Qed.

Lemma Ref_eq c E H L U e :
  heap_rep (mem c) E H L U → e ∈ L ++ U → Z.of_nat (size H) < 2 ^ 32 - 2 →
  ∃ h' U', Ref c e = Some (with_mem c h') ∧
    heap_rep h' E ({[+ e +]} ⊎ H) (without e L) U' ∧ next_hash h' = next_hash (mem c) ∧
    (∀ x, x ∈ without e L ++ U' ↔ x ∈ L ++ U).
Proof.
  intros R He Hsz. destruct (hr_cached _ _ _ _ _ _ R He) as [en HE].
  pose proof (mult_size e H) as Hms. pose proof (hr_mult _ _ _ _ _ _ R He) as Hm0.
  pose proof (hr_addr _ _ _ _ _ R e) as [Hea Hke]; [eauto|].
  assert (Hin : ∃ h1 U', (if (refs (handle_of en true (multiplicity e H)) =? 1) && true
      then h ← LRU_Remove (mem c) e; LRU_Append h in_use_ e else Some (mem c)) = Some h1 ∧
    rings h1 (without e L) U' ∧ keeps (mem c) h1 ∧ same_but e L U (without e L) U' ∧ e ∈ U').
  { rewrite andb_true_r. cbn [refs handle_of]. destruct (Z.eqb_spec (Z.of_nat (multiplicity e H) + 1) 1).
    - destruct (rings_remove (mem c) L U e) as (h1 & -> & HR1 & Hk1); [apply R|done|].
      destruct (rings_append_in_use h1 (without e L) (without e U) e) as (h2 & HE2 & HR2 & Hk2);
        [done| |done| |].
      { rewrite elem_of_app. pose proof (not_elem_of_without e). naive_solver. }
      { destruct Hk1 as [[-> _] _]. by eapply hr_entry. }
      exists h2, (without e U ++ [e]). split_and!; [done|done|by eapply keeps_trans| |set_solver].
      intros x Hx. rewrite elem_of_app, !elem_of_without_ne, list_elem_of_singleton by done. naive_solver.
    - assert (HeL : e ∉ L) by (rewrite <- Hm0; lia). rewrite without_absent by done.
      exists (mem c), U. split_and!; [done|apply R|apply keeps_refl|done|set_solver]. }
  destruct Hin as (h1 & U' & Hin & HR & Hk & Hsb & HeU).
  unfold Ref. rewrite (hr_Some _ _ _ _ _ _ _ R HE). cbn [mbind option_bind].
  rewrite (bool_decide_true (e ∈ L ++ U)) by done. cbn [in_cache handle_of].
  rewrite Hin. cbn [mbind option_bind].
  rewrite (with_refs_handle _ _ _ _ (multiplicity e ({[+ e +]} ⊎ H)))
    by (rewrite mult_add_eq; simpl; rewrite u32_small; lia).
  eexists _, U'. split_and!; [done| |by destruct Hk as [[_ ?] _]|].
  - rewrite <- (bool_decide_true (e ∈ without e L ++ U')) at 1 by set_solver.
    eapply hr_keep; [exact R|done|by apply rings_put_obj| | |done| | | |left; set_solver].
    + simpl. destruct Hk as [[-> _] _]. done.
    + intros x Hx. destruct Hk as [_ Hk]. by apply Hk.
    + intros. by apply mult_add_ne.
    + by intros ?%not_elem_of_without.
    + intros _. rewrite elem_of_mult, mult_add_eq. lia.
  - intros x. destruct (decide (x = e)) as [->|Hx]; [set_solver|].
    rewrite !elem_of_app. destruct (Hsb x Hx) as [-> ->]. done.
Qed.

(** *** [Unref] *)

Lemma Unref_counts c e (en : entry V D) (b : bool) (n : nat) :
  obj (mem c) !! e = Some (handle_of en b (S n)) → Z.of_nat n <= 2 ^ 32 - 2 →
  Unref c e =
    let h := put_obj (mem c) e (handle_of en b n) in
    if (n =? 0)%nat then
      if b then h ← LRU_Remove h e; h ← LRU_Append h lru_ e; Some (with_mem c h)
      else k ← handle_key h e;
        Some (with_mem (call_deleter c (handle_of en b n) k) (free_handle h e))
    else Some (with_mem c h).
Proof.
  intros Ho Hn. unfold Unref. rewrite Ho. cbn [mbind option_bind].
  rewrite (proj2 (Z.ltb_lt 0 _)) by (simpl; destruct b; lia).
  rewrite (with_refs_handle _ _ _ _ n) by (simpl; destruct b; rewrite u32_small; lia).
  cbn [refs in_cache handle_of]. destruct (Nat.eqb_spec n 0) as [->|Hn0].
  - by destruct b.
  - rewrite (proj2 (Z.eqb_neq _ 0)) by (destruct b; lia).
    destruct b; [|done]. by rewrite (proj2 (Z.eqb_neq _ 1)) by lia.
Qed.

Lemma handle_key_eq h e o : obj h !! e = Some o → keyed h e → handle_key h e = Some (key_data o).
Proof.
  intros Ho (n & Hn & Hne). unfold handle_key. rewrite Ho, Hn. simpl.
  by rewrite (proj2 (Z.eqb_neq n e)).
Qed.

(** What an operation that only counts references leaves alone. *)
Definition same_object c c' : Prop :=
  capacity_ c' = capacity_ c ∧ table_ c' = table_ c.

Lemma keeps_put_obj h h' e o : keeps (put_obj h e o) h' → ∀ x, keyed h x → entry_address x → keyed h' x.
Proof. intros [_ Hk] x Hx Hea. by apply Hk. Qed.

Lemma Unref_eq c E H L U e :
  heap_rep (mem c) E H L U → e ∈ H → Z.of_nat (size H) <= 2 ^ 32 - 2 →
  ∃ c' E' L' U', Unref c e = Some c' ∧ heap_rep (mem c') E' (H ∖ {[+ e +]}) L' U' ∧
    same_object c c' ∧ usage_ c' = usage_ c ∧
    (∀ x, x ≠ e ∨ e ∈ L ++ U → next_hash (mem c') !! x = next_hash (mem c) !! x) ∧
    (∀ x, x ∈ L' ++ U' ↔ x ∈ L ++ U) ∧
    if decide (e ∈ H ∖ {[+ e +]}) then E' = E ∧ L' = L ∧ calls c' = calls c
    else if bool_decide (e ∈ L ++ U) then E' = E ∧ L' = L ++ [e] ∧ calls c' = calls c
    else ∃ en, E !! e = Some en ∧ E' = delete e E ∧ L' = L ∧
           calls c' = calls c ++ [deleter_call en].
Proof.
  intros R He Hsz. pose proof (hr_books _ _ _ _ _ R) as [B1 B2 B3 B4].
  destruct (B3 e He) as [en HE]. destruct (hr_addr _ _ _ _ _ R e) as [Hea Hke]; [eauto|].
  pose proof (mult_size e H) as Hms. pose proof He as Hm. rewrite elem_of_mult in Hm.
  destruct (multiplicity e H) as [|n] eqn:Em; [lia|].
  assert (HeL : e ∉ L) by (intros ?; by apply (B1 e)).
  rewrite (Unref_counts c e en (bool_decide (e ∈ L ++ U)) n); [|by rewrite <- Em; apply (hr_Some _ E)|lia].
  cbv zeta. assert (Em' : multiplicity e (H ∖ {[+ e +]}) = n) by (rewrite mult_del_eq; lia).
  assert (Hmx : ∀ x, x ≠ e → multiplicity x (H ∖ {[+ e +]}) = multiplicity x H) by (intros; by apply mult_del_ne).
  assert (Hsb : same_but e L U L U) by done.
  destruct (decide (e ∈ H ∖ {[+ e +]})) as [Hd|Hd].
  - rewrite (proj2 (Nat.eqb_neq n 0)) by (rewrite elem_of_mult in Hd; lia).
    exists (with_mem c (put_obj (mem c) e (handle_of en (bool_decide (e ∈ L ++ U)) n))), E, L, U.
    split_and!; try done. rewrite <- Em'.
    eapply hr_keep; [exact R|done|apply rings_put_obj, R|done|done|done|done|done|done|by right].
  - assert (n = 0%nat) as -> by (rewrite elem_of_mult in Hd; lia). simpl.
    case_bool_decide as HeLU.
    + set (h1 := put_obj _ _ _).
      destruct (rings_remove h1 L U e) as (h2 & -> & HR2 & Hk2); [by apply rings_put_obj, R|done|].
      cbn [mbind option_bind]. rewrite (without_absent e L HeL) in HR2.
      destruct (rings_append_lru h2 L (without e U) e) as (h3 & -> & HR3 & Hk3); [done| |done| |].
      { rewrite elem_of_app. pose proof (not_elem_of_without e U). tauto. }
      { destruct Hk2 as [[-> _] _]. simpl. rewrite lookup_insert_eq. eauto. }
      cbn [mbind option_bind].
      destruct Hk2 as [[Ho2 Hn2] Hk2], Hk3 as [[Ho3 Hn3] Hk3].
      exists (with_mem c h3), E, (L ++ [e]), (without e U). split_and!; try done.
      * eapply hr_keep; [exact R|done|done| | | |done|done| |left; set_solver].
        -- rewrite Em', bool_decide_true by set_solver. cbn [mem with_mem].
           by rewrite Ho3, Ho2.
        -- auto.
        -- intros x Hx. rewrite elem_of_without_ne, elem_of_app, list_elem_of_singleton by done.
           naive_solver.
        -- by intros ?%not_elem_of_without.
      * intros x _. simpl. by rewrite Hn3, Hn2.
      * intros x. rewrite !elem_of_app, elem_of_without, list_elem_of_singleton.
        destruct (decide (x = e)) as [->|]; [|tauto]. rewrite elem_of_app in HeLU. tauto.
    + rewrite (handle_key_eq _ _ (handle_of en false 0)) by (simpl; rewrite ?lookup_insert_eq; done).
      cbn [mbind option_bind]. eexists _, (delete e E), L, U. split_and!; [done| |done|done| |done|].
      * eapply hr_drop; [exact R| | | |done|done|done|done].
        -- apply rings_free; [apply rings_put_obj, R|done|done].
        -- simpl. apply delete_insert_eq.
        -- intros x Hx ? ?. by apply free_keyed.
      * intros x [Hx|]; [|done]. simpl. by rewrite lookup_delete_ne.
      * by exists en.
Qed.

(** *** [FinishErase] *)

Lemma FinishErase_eq c E H L U e en :
  heap_rep (mem c) E H L U → e ∈ L ++ U → E !! e = Some en → Z.of_nat (size H) <= 2 ^ 32 - 2 →
  ∃ c' E', FinishErase c e = Some (c', true) ∧
    heap_rep (mem c') E' H (without e L) (without e U) ∧
    same_object c c' ∧ usage_ c' = u64 (usage_ c - e_charge en) ∧
    (∀ x, x ≠ e → next_hash (mem c') !! x = next_hash (mem c) !! x) ∧
    if decide (e ∈ H) then E' = E ∧ calls c' = calls c
    else E' = delete e E ∧ calls c' = calls c ++ [deleter_call en].
Proof.
  intros R He HE Hsz. destruct (hr_addr _ _ _ _ _ R e) as [Hea Hke]; [eauto|].
  pose proof (mult_size e H) as Hms.
  unfold FinishErase. rewrite (proj2 (Z.eqb_neq e 0)) by apply Hea.
  rewrite (hr_Some _ _ _ _ _ _ _ R HE), (bool_decide_true (e ∈ L ++ U)) by done.
  cbn [mbind option_bind in_cache handle_of].
  destruct (rings_remove (mem c) L U e) as (h1 & -> & HR1 & [Ho1 Hn1] & Hk1); [apply R|done|].
  cbn [mbind option_bind].
  assert (Hne : e ∉ without e L ++ without e U).
  { rewrite elem_of_app. pose proof (not_elem_of_without e). naive_solver. }
  assert (Hsb : same_but e L U (without e L) (without e U)).
  { intros x Hx. by rewrite !elem_of_without_ne. }
  set (n := multiplicity e H) in *.
  replace (with_in_cache _ false) with (handle_of en false (S n))
    by (unfold handle_of, with_in_cache; simpl; f_equal; lia).
  set (c1 := with_usage _ _).
  rewrite (Unref_counts c1 e en false n) by (try lia; simpl; by rewrite lookup_insert_eq).
  cbv zeta. destruct (decide (e ∈ H)) as [HeH|HeH]; rewrite elem_of_mult in HeH; fold n in HeH.
  - rewrite (proj2 (Nat.eqb_neq n 0)) by lia. cbn [mbind option_bind].
    eexists _, E. split_and!; [done| |done|done| |done|done].
    + eapply hr_keep; [exact R|done|by do 2 apply rings_put_obj| | |done|done| | |].
      * rewrite bool_decide_false by done. simpl. rewrite insert_insert_eq. by rewrite Ho1.
      * intros x ? ?. by apply Hk1.
      * by intros ?%not_elem_of_without.
      * by intros ?%not_elem_of_without.
      * right. rewrite elem_of_mult. lia.
    + intros x _. simpl. by rewrite Hn1.
  - rewrite (proj2 (Nat.eqb_eq n 0)) by lia.
    rewrite (handle_key_eq _ _ (handle_of en false n)).
    2: { simpl. by rewrite lookup_insert_eq. }
    2: { do 2 apply keyed_put_obj. by apply Hk1. }
    cbn [mbind option_bind]. eexists _, (delete e E).
    split_and!; [done| |done|done| |done|done].
    + eapply hr_drop; [exact R| | | |done|done|done|].
      * apply rings_free; [by do 2 apply rings_put_obj|done|done].
      * simpl. by rewrite !delete_insert_eq, Ho1.
      * intros x Hx ? ?. apply free_keyed; [done|]. do 2 apply keyed_put_obj. by apply Hk1.
      * rewrite elem_of_mult. done.
    + intros x Hx. simpl. by rewrite lookup_delete_ne, Hn1.
Qed.

(** *** Charges *)

#[global] Instance zsum_perm : Proper ((≡ₚ) ==> eq) zsum.
Proof. intros l l' Hl. induction Hl; simpl; lia. Qed.

Lemma total_insert E m k e :
  m !! k = None → total E (<[k:=e]> m) = charge_of E e + total E m.
Proof. intros Hk. unfold total. by rewrite map_to_list_insert. Qed.

Lemma total_delete E m k e :
  m !! k = Some e → total E m = charge_of E e + total E (delete k m).
Proof.
  intros Hk. rewrite <- (total_insert _ _ k) by apply lookup_delete_eq.
  by rewrite insert_delete_id.
Qed.

Lemma total_ext E E' m :
  (∀ k e, m !! k = Some e → charge_of E' e = charge_of E e) → total E' m = total E m.
Proof.
  intros Hm. unfold total. f_equal. apply list_fmap_ext. intros i x Hx.
  apply list_elem_of_lookup_2 in Hx. apply list_elem_of_fmap in Hx as ([k e] & -> & Hk).
  apply elem_of_map_to_list in Hk. by apply (Hm k).
Qed.

Lemma charge_of_eq E E' x : E' !! x = E !! x → charge_of E' x = charge_of E x.
Proof. unfold charge_of. by intros ->. Qed.

(** *** The cache implements its specification *)

Record cache_rep c s U : Prop := {
  cr_heap : heap_rep (mem c) (entries s) (held s) (recency s) U;
  cr_table : table_map (table_ c) (mem c) (index s);
  cr_index : ∀ e, e ∈ recency s ++ U ↔ ∃ k, index s !! k = Some e;
  cr_usage : usage_ c = usage s;
  cr_capacity : capacity_ c = cap s;
  cr_calls : calls c = log s;
  cr_size : Z.of_nat (size (held s)) <= 2 ^ 32 - 2
}.

(** [c] is in a state the specification calls [s]. *)
Definition implements c s : Prop := ∃ U, cache_rep c s U.

Lemma cr_entry c s U k e :
  cache_rep c s U → index s !! k = Some e →
  e ≠ 0 ∧ e ∈ recency s ++ U ∧ ∃ en, entries s !! e = Some en ∧ entry_id en = k.
Proof.
  intros R Hk. destruct (table_map_entry _ _ _ _ _ (cr_table _ _ _ R) Hk) as (H0 & Hid & _).
  rewrite (hr_id _ _ _ _ _ _ (cr_heap _ _ _ R)) in Hid.
  apply fmap_Some in Hid as (en & HE & ->). split_and!; [done| |eauto].
  apply (cr_index _ _ _ R). eauto.
Qed.

Lemma hr_links h h' E H L U :
  heap_rep h E H L U → same_but_links h h' → heap_rep h' E H L U.
Proof.
  intros [R1 R2 R3 R4] (Hn & Hp & Ho). split; [by rewrite Ho| | |done].
  - eapply two_rings_ext; [exact R2|by rewrite Hn, Hp|].
    intros e He. rewrite Ho. by eapply lr_entry.
  - unfold keyed. by rewrite Hn.
Qed.

(** The end of every removal, once the table has forgotten the entry. *)
Lemma finish_implements c E H L U m e en :
  heap_rep (mem c) E H L U → e ∈ L ++ U → E !! e = Some en → table_map (table_ c) (mem c) m →
  (∀ k x, m !! k = Some x → x ∈ L ++ U ∧ x ≠ e) →
  (∀ x, x ∈ L ++ U → x = e ∨ ∃ k, m !! k = Some x) →
  usage_ c = u64 (e_charge en + total E m) → Z.of_nat (size H) <= 2 ^ 32 - 2 →
  ∃ c', FinishErase c e = Some (c', true) ∧
    implements c' (drop_unheld {| cap := capacity_ c; entries := E; index := m; held := H;
                                  recency := without e L; log := calls c |} e).
Proof.
  intros R He HE HT Hm1 Hm2 Hu Hsz.
  destruct (FinishErase_eq c E H L U e en R He HE Hsz)
    as (c' & E' & HF & R' & [Hc Ht] & Hu' & Hn & Hcase).
  exists c'. split; [done|]. exists (without e U).
  assert (HE' : ∀ x, x ≠ e → E' !! x = E !! x).
  { intros x Hx. destruct (decide (e ∈ H)); destruct Hcase as [-> _]; [done|].
    by apply lookup_delete_ne. }
  assert (Hs : drop_unheld {| cap := capacity_ c; entries := E; index := m; held := H;
      recency := without e L; log := calls c |} e =
    {| cap := capacity_ c'; entries := E'; index := m; held := H; recency := without e L;
       log := calls c' |}).
  { unfold drop_unheld, drop_entry. simpl. rewrite HE, Hc.
    destruct (decide (e ∈ H)); by destruct Hcase as [-> ->]. }
  rewrite Hs. split; simpl; [done| | | |done|done|done].
  - rewrite Ht. eapply table_map_rep; [exact HT|exact R|exact R'|]. intros k x Hk.
    destruct (Hm1 k x Hk) as [Hx Hne]. split_and!; [|by apply HE'|by apply Hn].
    by rewrite elem_of_app, !elem_of_without_ne, <- elem_of_app.
  - intros x. rewrite elem_of_app, !elem_of_without. split.
    + intros Hx. destruct (Hm2 x) as [->|?]; [apply elem_of_app; tauto|tauto|done].
    + intros (k & Hk). destruct (Hm1 k x Hk) as [Hx%elem_of_app Hne]. tauto.
  - rewrite Hu', Hu. unfold usage. simpl. rewrite (total_ext E E').
    + unfold u64. rewrite Zminus_mod_idemp_l. f_equal. lia.
    + intros k x Hk. apply charge_of_eq, HE'. by eapply Hm1.
Qed.
End proofs.

Section operations.
Context {V D : Type}.
Implicit Types (h : heap V D) (c : LRUCache V D) (s : spec V D).

Lemma cr_unique c s U k k' e :
  cache_rep c s U → index s !! k = Some e → index s !! k' = Some e → k = k'.
Proof. intros R. apply (table_map_inj _ _ _ _ _ _ (cr_table _ _ _ R)). Qed.

Lemma Lookup_implements c s key hsh :
  implements c s → Z.of_nat (size (held s)) < 2 ^ 32 - 2 →
  ∃ c', Lookup c key hsh = Some (c', snd (spec_lookup s (hsh, key))) ∧
    implements c' (fst (spec_lookup s (hsh, key))).
Proof.
  intros [U R] Hsz. unfold Lookup, spec_lookup.
  rewrite (Table_Lookup_eq _ _ _ hsh key (cr_table _ _ _ R)). cbn [mbind option_bind].
  destruct (index s !! (hsh, key)) as [e|] eqn:Hk; cbn [from_option default id].
  2: { exists c. split; [done|]. by exists U. }
  destruct (cr_entry _ _ _ _ _ R Hk) as (H0 & He & _).
  rewrite (proj2 (Z.eqb_neq e 0)) by done.
  destruct (Ref_eq c _ _ _ _ e (cr_heap _ _ _ R) He Hsz) as (h' & U' & -> & R' & Hn & Hin).
  cbn [mbind option_bind]. eexists. split; [done|]. exists U'.
  split; simpl; [done| | |apply R|apply R|apply R|].
  - eapply table_map_rep; [apply R|apply R|exact R'|]. intros k x Hkx.
    rewrite Hin, Hn. destruct (cr_entry _ _ _ _ _ R Hkx) as (_ & ? & _). done.
  - intros x. rewrite Hin. apply R.
  - rewrite gmultiset_size_disj_union, gmultiset_size_singleton. lia.
Qed.

Lemma cr_is_cached c s U e :
  cache_rep c s U → is_cached s e = bool_decide (e ∈ recency s ++ U).
Proof.
  intros R. unfold is_cached. case_bool_decide as He.
  - pose proof (proj1 (cr_index _ _ _ R e) He) as [k Hk].
    destruct (cr_entry _ _ _ _ _ R Hk) as (_ & _ & en & -> & ->). by apply bool_decide_true.
  - destruct (entries s !! e) as [en|] eqn:HE; [|done]. apply bool_decide_false. intros Hk.
    apply He, (cr_index _ _ _ R). eauto.
Qed.

Lemma Release_implements c s e :
  implements c s → e ∈ held s →
  ∃ c', Release c e = Some c' ∧ implements c' (spec_release s e).
Proof.
  intros [U R] He.
  destruct (Unref_eq c _ _ _ _ e (cr_heap _ _ _ R) He (cr_size _ _ _ R))
    as (c' & E' & L' & U' & HU & R' & [Hc Ht] & Hu & Hn & Hin & Hcase).
  exists c'. split; [done|]. exists U'.
  assert (HE' : ∀ x, x ∈ recency s ++ U → E' !! x = entries s !! x).
  { intros x Hx. destruct (decide _); [by destruct Hcase as [-> _]|].
    case_bool_decide as Hec; [by destruct Hcase as [-> _]|].
    destruct Hcase as (en & _ & -> & _). apply lookup_delete_ne. congruence. }
  assert (Hs : spec_release s e = {| cap := cap s; entries := E'; index := index s;
    held := held s ∖ {[+ e +]}; recency := L'; log := calls c' |}).
  { unfold spec_release. pose proof (cr_is_cached _ _ _ e R) as Hic.
    destruct (decide (e ∈ held s ∖ {[+ e +]})).
    - destruct Hcase as (-> & -> & ->). by rewrite (cr_calls _ _ _ R).
    - unfold is_cached in *. cbn [entries index] in *. rewrite Hic.
      case_bool_decide.
      + destruct Hcase as (-> & -> & ->). by rewrite (cr_calls _ _ _ R).
      + destruct Hcase as (en & HE & -> & -> & ->). unfold drop_entry. cbn [entries].
        by rewrite HE, (cr_calls _ _ _ R). }
  rewrite Hs. split; simpl; [done| | | | |done|].
  - rewrite Ht. eapply table_map_rep; [apply R|apply R|exact R'|]. intros k x Hkx.
    destruct (cr_entry _ _ _ _ _ R Hkx) as (_ & Hx & _). rewrite Hin.
    split_and!; [done|by apply HE'|]. apply Hn.
    destruct (decide (x = e)) as [->|]; [by right|by left].
  - intros x. rewrite Hin. apply R.
  - rewrite Hu, (cr_usage _ _ _ R). unfold usage. simpl. f_equal. symmetry. apply total_ext.
    intros k x Hkx. apply charge_of_eq, HE'. by eapply cr_entry.
  - rewrite Hc. apply R.
  - etrans; [|apply (cr_size _ _ _ R)].
    apply Nat2Z.inj_le, gmultiset_subseteq_size. multiset_solver.
Qed.

(** The table forgets a key, then the entry goes. *)
Lemma remove_implements c s U k e t h :
  cache_rep c s U → index s !! k = Some e →
  table_map t h (delete k (index s)) → same_but_links (mem c) h →
  ∃ c', FinishErase (with_table c t h) e = Some (c', true) ∧ implements c' (spec_erase s k).
Proof.
  intros R Hk HT Hl. destruct (cr_entry _ _ _ _ _ R Hk) as (_ & He & en & HE & Hid).
  unfold spec_erase. rewrite Hk.
  destruct (finish_implements (with_table c t h) (entries s) (held s) (recency s) U
    (delete k (index s)) e en) as (c' & HF & Hi); [|done|done|done| | | |apply R|].
  - eapply hr_links; [apply R|done].
  - intros k' x [Hne Hk']%lookup_delete_Some. destruct (cr_entry _ _ _ _ _ R Hk') as (_ & Hx & _).
    split; [done|]. intros ->. apply Hne. by eapply cr_unique.
  - intros x Hx. destruct (decide (x = e)) as [->|Hxe]; [by left|right].
    apply (cr_index _ _ _ R) in Hx as [k' Hk']. exists k'.
    rewrite lookup_delete_ne; [done|]. intros <-. congruence.
  - simpl. rewrite (cr_usage _ _ _ R). unfold usage. rewrite (total_delete _ _ k e) by done.
    unfold charge_of at 1. by rewrite HE.
  - exists c'. split; [done|]. unfold reindex. simpl in Hi.
    by rewrite (cr_capacity _ _ _ R), (cr_calls _ _ _ R) in Hi.
Qed.

Lemma with_table_rep c s U t h :
  cache_rep c s U → table_map t h (index s) → same_but_links (mem c) h →
  cache_rep (with_table c t h) s U.
Proof.
  intros R HT Hl. split; simpl; try apply R; [|done].
  eapply hr_links; [apply R|done].
Qed.

Lemma Erase_implements c s key hsh :
  implements c s →
  ∃ c', Erase c key hsh = Some c' ∧ implements c' (spec_erase s (hsh, key)).
Proof.
  intros [U R]. unfold Erase.
  destruct (Table_Remove_eq _ _ _ hsh key (cr_table _ _ _ R)) as (t & h & -> & HT & Hl).
  cbn [mbind option_bind]. destruct (index s !! (hsh, key)) as [e|] eqn:Hk.
  - destruct (remove_implements _ _ _ _ _ _ _ R Hk HT Hl) as (c' & HF & Hi). simpl. rewrite HF.
    by exists c'.
  - simpl. unfold FinishErase. simpl. exists (with_table c t h). split; [done|].
    unfold spec_erase. rewrite Hk. exists U. apply with_table_rep; [done| |done].
    by rewrite delete_id in HT.
Qed.

(** *** Eviction *)

Lemma cr_recency c s U : cache_rep c s U → NoDup (recency s).
Proof. intros R. by destruct (proj1 (NoDup_app _ _) (lr_nodup _ _ _ _ _ (hr_rings _ _ _ _ _ (cr_heap _ _ _ R)))). Qed.

Lemma spec_erase_recency s k e :
  index s !! k = Some e → recency (spec_erase s k) = without e (recency s).
Proof.
  intros Hk. unfold spec_erase, drop_unheld, drop_entry. rewrite Hk. simpl.
  case_decide; [done|]. by destruct (entries s !! e).
Qed.

Lemma cr_oldest c s U e l :
  cache_rep c s U → recency s = e :: l →
  index s !! id_of s e = Some e ∧ next (mem c) !! lru_ = Some e ∧ e ≠ lru_ ∧
  recency (spec_erase s (id_of s e)) = l.
Proof.
  intros R Hl. assert (Hx : e ∈ recency s ++ U) by (rewrite Hl; set_solver).
  pose proof (proj1 (cr_index _ _ _ R e) Hx) as [k Hk].
  destruct (cr_entry _ _ _ _ _ R Hk) as (_ & _ & en & HE & <-).
  assert (Hid : index s !! id_of s e = Some e) by (unfold id_of; by rewrite HE).
  pose proof (hr_rings _ _ _ _ _ (cr_heap _ _ _ R)) as HR. split_and!; [done| | |].
  - rewrite (rings_first _ _ _ HR). by rewrite Hl.
  - by apply (lr_entry _ _ _ _ _ HR).
  - rewrite (spec_erase_recency _ _ e) by done. pose proof (cr_recency _ _ _ R) as Hnd.
    rewrite Hl in *. by apply (without_split e [] l).
Qed.

Lemma evict_oldest_implements c s e l :
  implements c s → recency s = e :: l →
  ∃ c', evict_oldest c = Some c' ∧ implements c' (spec_erase s (id_of s e)).
Proof.
  intros [U R] Hl. destruct (cr_oldest _ _ _ _ _ R Hl) as (Hid & Hn & _ & _).
  pose proof (cr_heap _ _ _ R) as RH. assert (HeL : e ∈ recency s) by (rewrite Hl; set_solver).
  destruct (cr_entry _ _ _ _ _ R Hid) as (_ & He & en & HE & Hen).
  unfold evict_oldest. rewrite Hn. cbn [mbind option_bind].
  rewrite (hr_Some _ _ _ _ _ _ _ RH HE). cbn [mbind option_bind].
  rewrite (bool_decide_true (e ∈ _)) by done.
  rewrite (proj2 (hr_mult _ _ _ _ _ _ RH He)) by done. cbn [refs handle_of].
  rewrite (proj2 (Z.eqb_eq _ 1)) by done.
  rewrite (handle_key_eq _ _ (handle_of en true 0)).
  2: { rewrite (hr_Some _ _ _ _ _ _ _ RH HE). f_equal. f_equal; [by apply bool_decide_true|].
       by apply (hr_mult _ _ _ _ _ _ RH He). }
  2: { eapply rings_keyed; [apply RH|done]. }
  cbn [mbind option_bind key_data hash handle_of].
  destruct (Table_Remove_eq _ _ _ (e_hash en) (e_key en) (cr_table _ _ _ R)) as (t & h & -> & HT & Hli).
  cbn [mbind option_bind]. change (e_hash en, e_key en) with (entry_id en) in *.
  rewrite Hen in HT |- *. rewrite Hid.
  destruct (remove_implements _ _ _ _ _ _ _ R Hid HT Hli) as (c' & HF & Hi). simpl. rewrite HF.
  by exists c'.
Qed.

Lemma cr_recency_size c s U : cache_rep c s U → (length (recency s) <= size (obj (mem c)))%nat.
Proof.
  intros R. apply obj_size; [by eapply cr_recency|]. intros e He.
  apply (lr_entry _ _ _ _ _ (hr_rings _ _ _ _ _ (cr_heap _ _ _ R))). set_solver.
Qed.

Lemma evict_implements l : ∀ c s fuel,
  implements c s → recency s = l → (length l < fuel)%nat →
  ∃ c', evict fuel c = Some c' ∧ implements c' (evict_list l s).
Proof.
  induction l as [|e l IH]; intros c s fuel Hi Hl Hf; (destruct fuel as [|f]; [simpl in Hf; lia|]); simpl.
  - destruct Hi as [U R]. rewrite (rings_first _ _ _ (hr_rings _ _ _ _ _ (cr_heap _ _ _ R))), Hl.
    simpl. rewrite andb_false_r. exists c. split; [done|]. by exists U.
  - pose proof Hi as [U R]. destruct (cr_oldest _ _ _ _ _ R Hl) as (_ & -> & Hne & Hl').
    cbn [mbind option_bind]. rewrite (proj2 (Z.eqb_neq e lru_)) by done.
    rewrite (cr_capacity _ _ _ R), (cr_usage _ _ _ R). cbn [negb]. rewrite andb_true_r.
    destruct (cap s <? usage s); [|by exists c].
    destruct (evict_oldest_implements c s e l Hi Hl) as (c1 & -> & Hi1).
    cbn [mbind option_bind]. apply IH; [done|done|simpl in Hf; lia].
Qed.

Lemma prune_implements l : ∀ c s fuel,
  implements c s → recency s = l → (length l < fuel)%nat →
  ∃ c', prune fuel c = Some c' ∧ implements c' (foldl (λ s e, spec_erase s (id_of s e)) s l).
Proof.
  induction l as [|e l IH]; intros c s fuel Hi Hl Hf; (destruct fuel as [|f]; [simpl in Hf; lia|]); simpl.
  - destruct Hi as [U R]. rewrite (rings_first _ _ _ (hr_rings _ _ _ _ _ (cr_heap _ _ _ R))), Hl.
    simpl. exists c. split; [done|]. by exists U.
  - pose proof Hi as [U R]. destruct (cr_oldest _ _ _ _ _ R Hl) as (_ & -> & Hne & Hl').
    cbn [mbind option_bind]. rewrite (proj2 (Z.eqb_neq e lru_)) by done. cbn [negb].
    destruct (evict_oldest_implements c s e l Hi Hl) as (c1 & -> & Hi1).
    cbn [mbind option_bind]. apply IH; [done|done|simpl in Hf; lia].
Qed.

Lemma Prune_implements c s :
  implements c s → ∃ c', Prune c = Some c' ∧ implements c' (spec_prune s).
Proof.
  intros Hi. pose proof Hi as [U R]. pose proof (cr_recency_size _ _ _ R).
  apply prune_implements; [done|done|lia].
Qed.
End operations.

Section insertion.
Context {V D : Type}.
Implicit Types (h : heap V D) (c : LRUCache V D) (s : spec V D).

Definition with_capacity s (n : Z) : spec V D :=
  {| cap := n; entries := entries s; index := index s; held := held s;
     recency := recency s; log := log s |}.

Lemma SetCapacity_implements c s n :
  implements c s → implements (SetCapacity c n) (with_capacity s n).
Proof. intros [U R]. exists U. by split; simpl; try apply R. Qed.

Lemma cr_fresh c s U e :
  cache_rep c s U → entries s !! e = None →
  obj (mem c) !! e = None ∧ e ∉ recency s ++ U ∧ multiplicity e (held s) = 0%nat ∧
  ∀ k, index s !! k ≠ Some e.
Proof.
  intros R HE. pose proof (cr_heap _ _ _ R) as RH. split_and!.
  - by rewrite (hr_obj _ _ _ _ _ RH), HE.
  - intros He%(hr_cached _ _ _ _ _ _ RH). rewrite HE in He. by destruct He.
  - destruct (multiplicity e (held s)) eqn:Em; [done|]. exfalso.
    destruct (bk_held _ _ _ _ (hr_books _ _ _ _ _ RH) e) as [? ?]; [|congruence].
    rewrite elem_of_mult. lia.
  - intros k Hk. destruct (cr_entry _ _ _ _ _ R Hk) as (_ & _ & en & HE' & _). congruence.
Qed.

(** Adding the new entry to the list of used entries. *)
Lemma insert_cached c s U e en :
  cache_rep c s U → entries s !! e = None → entry_address e →
  ∃ h, LRU_Append (put_obj (put_obj (mem c) e (handle_of en false 1)) e (handle_of en true 1))
      in_use_ e = Some h ∧
    heap_rep h (<[e:=en]> (entries s)) ({[+ e +]} ⊎ held s) (recency s) (U ++ [e]) ∧
    table_map (table_ c) h (index s).
Proof.
  intros R HE Hea. pose proof (cr_heap _ _ _ R) as RH.
  destruct (cr_fresh _ _ _ _ R HE) as (Ho & HeL & Hm & Hk).
  set (h1 := put_obj _ _ _).
  destruct (rings_append_in_use h1 (recency s) U e) as (h & HA & HR & [Hoh Hnh] & Hkh);
    [by do 2 apply rings_put_obj; apply RH|done|done| |].
  { simpl. rewrite lookup_insert_eq. eauto. }
  exists h. assert (R' : heap_rep h (<[e:=en]> (entries s)) ({[+ e +]} ⊎ held s) (recency s) (U ++ [e])).
  { eapply hr_new; [exact RH|done|done| | | | |set_solver].
    - eapply rings_keyed; [done|set_solver].
    - rewrite Hoh, Hm, bool_decide_true by set_solver. simpl. by rewrite insert_insert_eq.
    - intros x _ ? ?. by apply Hkh.
    - intros x Hx. rewrite elem_of_app, list_elem_of_singleton. naive_solver. }
  split_and!; [done|done|]. eapply table_map_rep; [apply R|apply RH|exact R'|].
  intros k x Hkx. destruct (cr_entry _ _ _ _ _ R Hkx) as (_ & Hx & _).
  split_and!; [set_solver| |by rewrite Hnh].
  apply lookup_insert_ne. intros <-. by apply (Hk k).
Qed.

Lemma insert_uncached c s U e en :
  cache_rep c s U → entries s !! e = None → entry_address e →
  Z.of_nat (size (held s)) < 2 ^ 32 - 2 →
  ∃ h, put_next (put_obj (mem c) e (handle_of en false 1)) e 0 = Some h ∧
    implements (with_mem c h) (add_entry s e en).
Proof.
  intros R HE Hea Hsz. pose proof (cr_heap _ _ _ R) as RH.
  destruct (cr_fresh _ _ _ _ R HE) as (Ho & HeL & Hm & Hk).
  rewrite put_next_live.
  2: { apply live_obj. simpl. rewrite lookup_insert_eq. eauto. }
  eexists. split; [done|]. exists U.
  match goal with |- cache_rep (with_mem c ?x) _ _ => set (h := x) end.
  assert (HR : rings h (recency s) U).
  { eapply two_rings_ext; [apply (rings_put_obj (mem c) _ _ e (handle_of en false 1)), RH| |].
    - intros x Hx. simpl. rewrite lookup_insert_ne; [done|]. intros ->.
      destruct Hea as (_ & ? & ?). set_solver.
    - intros x Hx. simpl. destruct (decide (e = x)) as [<-|]; [done|].
      rewrite lookup_insert_ne by done. by apply (lr_entry _ _ _ _ _ (hr_rings _ _ _ _ _ RH)). }
  assert (R' : heap_rep h (<[e:=en]> (entries s)) ({[+ e +]} ⊎ held s) (recency s) U).
  { eapply hr_new; [exact RH|done|done| | | |done|set_solver].
    - exists 0. simpl. rewrite lookup_insert_eq. split; [done|]. intros E. destruct Hea. congruence.
    - rewrite Hm, bool_decide_false by done. done.
    - intros x Hx _ (n & Hn & ?). exists n. simpl. by rewrite lookup_insert_ne. }
  split; simpl; [done| |apply R| |apply R|apply R|].
  - eapply table_map_rep; [apply R|exact RH|exact R'|]. intros k x Hkx.
    destruct (cr_entry _ _ _ _ _ R Hkx) as (_ & Hx & _). split_and!; [done| |done].
    apply lookup_insert_ne. intros <-. by apply (Hk k).
  - rewrite (cr_usage _ _ _ R). unfold usage. f_equal. symmetry. apply total_ext.
    intros k x Hkx. apply charge_of_eq, lookup_insert_ne. intros <-. by apply (Hk k).
  - rewrite gmultiset_size_disj_union, gmultiset_size_singleton. lia.
Qed.

(** The table takes the entry; one that was there under the key goes. *)
Lemma insert_bind c s U e en h1 :
  cache_rep c s U → entries s !! e = None → e ≠ 0 →
  Z.of_nat (size (held s)) < 2 ^ 32 - 2 → Z.of_nat (size (index s)) < 2 ^ 31 →
  heap_rep h1 (<[e:=en]> (entries s)) ({[+ e +]} ⊎ held s) (recency s) (U ++ [e]) →
  table_map (table_ c) h1 (index s) →
  let c2 := with_usage (with_mem c h1) (u64 (usage_ c + e_charge en)) in
  let m := <[entry_id en := e]> (index s) in
  ∃ c1, ('(t, h, old) ← Table_Insert (table_ c2) (mem c2) e;
         '(c, _) ← FinishErase (with_table c2 t h) old; Some c) = Some c1 ∧
    implements c1 match index s !! entry_id en with
                  | None => reindex (add_entry s e en) m e
                  | Some old => drop_unheld (reindex (add_entry s e en) m old) old
                  end.
Proof.
  intros R HE H0 Hsz Hisz R1 HT1 c2 m. destruct (cr_fresh _ _ _ _ R HE) as (_ & HeL & _ & Hk).
  set (E1 := <[e:=en]> (entries s)) in *.
  assert (HeE : E1 !! e = Some en) by apply lookup_insert_eq.
  assert (HxE : ∀ k x, index s !! k = Some x → x ≠ e ∧ E1 !! x = entries s !! x).
  { intros k x Hkx. assert (Hxe : x ≠ e) by (intros ->; by apply (Hk k)).
    split; [done|]. by apply lookup_insert_ne. }
  destruct (Table_Insert_eq (table_ c) h1 (index s) e (entry_id en)) as (t & h & HI & HT & Hl);
    [done|done|by rewrite (hr_id _ _ _ _ _ _ R1), HeE| |done|done|].
  { eapply rings_keyed; [apply R1|set_solver]. }
  simpl. rewrite HI. cbn [mbind option_bind]. pose proof (hr_links _ _ _ _ _ _ R1 Hl) as R2.
  assert (Hsize : Z.of_nat (size ({[+ e +]} ⊎ held s)) <= 2 ^ 32 - 2).
  { rewrite gmultiset_size_disj_union, gmultiset_size_singleton. lia. }
  assert (HtE : ∀ m', (∀ k x, m' !! k = Some x → index s !! k = Some x) →
    total E1 m' = total (entries s) m').
  { intros m' Hm'. apply total_ext. intros k x Hkx. by eapply charge_of_eq, HxE, Hm'. }
  assert (Hce : charge_of E1 e = e_charge en) by (unfold charge_of; by rewrite HeE).
  destruct (index s !! entry_id en) as [old|] eqn:Hold; simpl.
  - destruct (cr_entry _ _ _ _ _ R Hold) as (Ho0 & HoL & eno & HEo & Hido).
    destruct (HxE _ _ Hold) as [Hoe HEo1].
    destruct (finish_implements (with_table c2 t h) E1 ({[+ e +]} ⊎ held s) (recency s) (U ++ [e])
      m old eno) as (c' & HF & Hi); [done|set_solver|congruence|done| | | |done|].
    + intros k x [[<- <-]|[Hne Hkx]]%lookup_insert_Some; [split; [set_solver|done]|].
      destruct (cr_entry _ _ _ _ _ R Hkx) as (_ & Hx & _). split; [set_solver|].
      intros ->. apply Hne. by eapply cr_unique.
    + intros x Hx. destruct (decide (x = old)) as [->|Hxo]; [by left|right].
      destruct (decide (x = e)) as [->|Hxe]; [exists (entry_id en); apply lookup_insert_eq|].
      assert (Hx' : x ∈ recency s ++ U) by set_solver.
      apply (cr_index _ _ _ R) in Hx' as [k Hkx]. exists k.
      unfold m. rewrite lookup_insert_ne; [done|]. intros <-. congruence.
    + unfold m. simpl. rewrite <- insert_delete_eq, total_insert by apply lookup_delete_eq.
      rewrite HtE by (intros k x [_ ?]%lookup_delete_Some; done).
      rewrite Hce, (cr_usage _ _ _ R). unfold usage.
      rewrite (total_delete _ _ _ _ Hold). unfold charge_of at 1. rewrite HEo.
      unfold u64. rewrite Zplus_mod_idemp_l. f_equal. simpl. lia.
    + rewrite HF. cbn [mbind option_bind]. exists c'. split; [done|].
      unfold reindex, add_entry. simpl in Hi |- *.
      by rewrite (cr_capacity _ _ _ R), (cr_calls _ _ _ R) in Hi.
  - exists (with_table c2 t h). split; [done|]. exists (U ++ [e]).
    assert (Hwo : without e (recency s) = recency s) by (apply without_absent; set_solver).
    split; simpl; [by rewrite Hwo|done| | |apply R|apply R|done].
    + intros x. rewrite Hwo, (assoc_L (++)), elem_of_app, (cr_index _ _ _ R), list_elem_of_singleton.
      split.
      * intros [(k & Hkx)| ->]; [|exists (entry_id en); apply lookup_insert_eq].
        exists k. unfold m. rewrite lookup_insert_ne; [done|]. congruence.
      * intros (k & [[_ <-]|[_ Hkx]]%lookup_insert_Some); eauto.
    + unfold usage. simpl. fold E1. unfold m. rewrite total_insert by done.
      rewrite HtE by done. rewrite Hce, (cr_usage _ _ _ R). unfold usage, u64.
      rewrite Zplus_mod_idemp_l. f_equal. lia.
Qed.

(** What the caller of [Insert] provides: an address where nothing lives, and
    counts that the 32-bit fields can hold. *)
Definition insertable s (e : Z) : Prop :=
  entries s !! e = None ∧ entry_address e ∧
  Z.of_nat (size (held s)) < 2 ^ 32 - 2 ∧ Z.of_nat (size (index s)) < 2 ^ 31.

(** The part of [Insert] before the eviction loop. *)
Lemma Insert_bind c s e key hsh v chg del :
  implements c s → insertable s e →
  let en := {| e_value := v; e_deleter := del; e_charge := chg; e_key := key; e_hash := hsh |} in
  ∃ c1, implements c1 (spec_bind s e en) ∧
    Insert c e key hsh v chg del = (c' ← evict (S (size (obj (mem c1)))) c1; Some (c', e)).
Proof.
  intros [U R] (HE & Hea & Hsz & Hisz) en. destruct (cr_fresh _ _ _ _ R HE) as (Ho & HeL & Hm & Hk).
  unfold Insert. assert (Hlive : live (mem c) e = false).
  { unfold live. rewrite Ho, !(proj2 (Z.eqb_neq _ _)) by apply Hea. done. }
  rewrite Hlive, (proj2 (Z.eqb_neq e 0)) by apply Hea. cbn [negb andb].
  change {| value := v; deleter := del; charge := chg; key_data := key; in_cache := false;
            refs := 1; hash := hsh |} with (handle_of en false 1).
  change (with_in_cache (with_refs (handle_of en false 1) (u32 (refs (handle_of en false 1) + 1)))
    true) with (handle_of en true 1).
  unfold spec_bind. set (s1 := add_entry s e en).
  match goal with |- ∃ c1, implements c1 ?x ∧ (?m ≫= _) = _ =>
    enough (∃ c1, m = Some c1 ∧ implements c1 x) as (c1 & -> & Hi) by by exists c1 end.
  rewrite (cr_capacity _ _ _ R). destruct (0 <? cap s).
  - destruct (insert_cached c s U e en R HE Hea) as (h1 & -> & R1 & HT1). cbn [mbind option_bind].
    destruct (insert_bind c s U e en h1) as (c1 & HI & Hi); try done; [apply Hea|].
    exists c1. split; [exact HI|exact Hi].
  - destruct (insert_uncached c s U e en R HE Hea Hsz) as (h & -> & Hi).
    cbn [mbind option_bind]. by exists (with_mem c h).
Qed.

Lemma Insert_implements c s e key hsh v chg del :
  implements c s → insertable s e →
  let en := {| e_value := v; e_deleter := del; e_charge := chg; e_key := key; e_hash := hsh |} in
  ∃ c', Insert c e key hsh v chg del = Some (c', e) ∧ implements c' (spec_insert s e en).
Proof.
  intros Hi Hins en. destruct (Insert_bind c s e key hsh v chg del Hi Hins) as (c1 & Hi1 & ->).
  pose proof Hi1 as [U1 R1]. pose proof (cr_recency_size _ _ _ R1).
  destruct (evict_implements _ c1 _ (S (size (obj (mem c1)))) Hi1 eq_refl) as (c' & -> & Hi');
    [lia|]. by exists c'.
Qed.
End insertion.

Section lifetime.
Context {V D : Type}.
Implicit Types (h : heap V D) (c : LRUCache V D) (s : spec V D).

Definition empty_spec : spec V D :=
  {| cap := 0; entries := ∅; index := ∅; held := ∅; recency := []; log := [] |}.

Lemma LRUCache_new_implements : ∃ c, LRUCache_new = Some c ∧ implements c empty_spec.
Proof.
  unfold LRUCache_new.
  destruct (HandleTable_new_eq {| next := ∅; prev := ∅; next_hash := ∅; obj := ∅ : gmap Z (LRUHandle V D) |})
    as (t & h & -> & HT & Hn & Hp & Ho). cbn [mbind option_bind].
  do 4 ((rewrite put_next_live by done) || (rewrite put_prev_live by done); cbn [mbind option_bind]).
  eexists. split; [done|]. exists []. split; simpl; [| | |done|done|done|done].
  - split; simpl.
    + intros e. by rewrite Ho, !lookup_empty.
    + split; [by left| | |constructor|set_solver]; split; simpl;
        by rewrite ?lookup_insert_eq, ?lookup_insert_ne, ?lookup_insert_eq by done.
    + intros e. rewrite lookup_empty. by intros [].
    + split; intros e; rewrite ?lookup_empty; try set_solver.
  - eapply table_map_ext; [done|]. intros k e. by rewrite lookup_empty.
  - intros e. split; [set_solver|]. intros (k & Hk). by rewrite lookup_empty in Hk.
Qed.

(** *** The destructor *)

Definition deleter_calls (E : gmap Z (entry V D)) (l : list Z) : list (D * bytes * V) :=
  omap (λ e, deleter_call <$> E !! e) l.

Lemma destroy_eq (E : gmap Z (entry V D)) l : ∀ c fuel,
  NoDup l → (∀ e, e ∈ l → e ≠ lru_ ∧ ∃ en, E !! e = Some en ∧
    obj (mem c) !! e = Some (handle_of en true 0)) →
  match l with [] => True | e :: l => path (mem c) e l lru_ end →
  (length l < fuel)%nat →
  ∃ c', destroy fuel c (default lru_ (head l)) = Some c' ∧
    calls c' = calls c ++ deleter_calls E l ∧
    (∀ e, obj (mem c') !! e = if decide (e ∈ l) then None else obj (mem c) !! e).
Proof.
  induction l as [|e l IH]; intros c fuel Hnd Hl Hp Hf; (destruct fuel as [|f]; [simpl in Hf; lia|]); simpl.
  - exists c. split_and!; [done|by rewrite app_nil_r|]. done.
  - destruct (Hl e) as (Hne & en & HE & Ho); [set_solver|].
    apply NoDup_cons in Hnd as [Hel Hnd].
    rewrite (proj2 (Z.eqb_neq e lru_)) by done.
    rewrite (path_next _ _ _ _ Hp), Ho. cbn [mbind option_bind in_cache handle_of refs].
    change (Z.of_nat 0 + 1 =? 1) with true. cbv iota.
    set (c1 := with_mem _ _).
    rewrite (Unref_counts c1 e en false 0) by (try lia; simpl; by rewrite lookup_insert_eq).
    cbn [Nat.eqb]. cbv zeta.
    rewrite (handle_key_eq _ _ (handle_of en false 0)).
    2: { simpl. by rewrite lookup_insert_eq. }
    2: { do 2 apply keyed_put_obj. exists (default lru_ (head l)).
         split; [by apply path_next in Hp|]. pose proof (head_elem lru_ l). set_solver. }
    cbn [mbind option_bind]. set (c2 := with_mem _ _).
    assert (Hoc2 : ∀ x, obj (mem c2) !! x = if decide (x = e) then None else obj (mem c) !! x).
    { intros x. simpl. destruct (decide (x = e)) as [->|]; [by rewrite lookup_delete_eq|].
      by rewrite lookup_delete_ne, !lookup_insert_ne. }
    destruct (IH c2 f Hnd) as (c' & HD & Hc & Hob).
    + intros x Hx. destruct (Hl x) as (? & enx & ? & ?); [set_solver|]. split; [done|].
      exists enx. split; [done|]. by rewrite Hoc2, decide_False by set_solver.
    + destruct l as [|z l]; [done|]. destruct Hp as (_ & _ & Hp).
      eapply path_ext; [| |exact Hp]; intros x Hx; simpl; apply lookup_delete_ne; set_solver.
    + simpl in Hf; lia.
    + exists c'. split_and!; [done| |].
      * rewrite Hc. simpl. unfold deleter_calls. simpl. rewrite HE. simpl.
        by rewrite <- (assoc_L (++)).
      * intros x. rewrite Hob, Hoc2. repeat case_decide; set_solver.
Qed.

Lemma LRUCache_destroy_implements c s :
  implements c s → held s = ∅ →
  ∃ c', LRUCache_destroy c = Some c' ∧ obj (mem c') = ∅ ∧
    calls c' = log s ++ deleter_calls (entries s) (recency s) ∧
    dom (entries s) = list_to_set (recency s).
Proof.
  intros [U R] Hh. pose proof (cr_heap _ _ _ R) as RH. pose proof (hr_rings _ _ _ _ _ RH) as HR.
  pose proof (hr_books _ _ _ _ _ RH) as [_ B2 _ B4].
  assert (HU : U = []).
  { destruct U as [|x U]; [done|]. specialize (B2 x). rewrite Hh in B2. multiset_solver. }
  subst U. rewrite app_nil_r in *. unfold LRUCache_destroy.
  rewrite (rings_first_in_use _ _ _ HR), (rings_first _ _ _ HR). cbn [mbind option_bind head default].
  rewrite Z.eqb_refl. pose proof (cr_recency_size _ _ _ R) as Hsz.
  assert (Hent : ∀ e, e ∈ recency s → ∃ en, entries s !! e = Some en ∧
      obj (mem c) !! e = Some (handle_of en true 0)).
  { intros e He. assert (He' : e ∈ recency s ++ []) by set_solver.
    destruct (hr_cached _ _ _ _ _ _ RH He') as [en HE]. exists en. split; [done|].
    rewrite (hr_Some _ _ _ _ _ _ _ RH HE), bool_decide_true by done.
    by rewrite (proj2 (hr_mult _ _ _ _ _ _ RH He')). }
  destruct (destroy_eq (entries s) (recency s) c (S (size (obj (mem c))))) as (c' & HD & Hc & Ho).
  - by eapply cr_recency.
  - intros e He. split; [|by apply Hent]. apply (lr_entry _ _ _ _ _ HR). set_solver.
  - pose proof (lr_fst _ _ _ _ _ HR) as Hp. unfold ring in Hp.
    destruct (recency s); [done|]. by destruct Hp as (_ & _ & ?).
  - lia.
  - exists c'. split_and!; [exact HD| |by rewrite Hc, (cr_calls _ _ _ R)|].
    + apply map_eq. intros e. rewrite Ho, lookup_empty. case_decide as He; [done|].
      rewrite (hr_obj _ _ _ _ _ RH). destruct (entries s !! e) as [en|] eqn:HE; [|done].
      exfalso. destruct (B4 e) as [?|?]; [eauto|set_solver|]. rewrite Hh in *. multiset_solver.
    + apply set_eq. intros e. rewrite elem_of_dom, elem_of_list_to_set. split.
      * intros [?|He]%B4; [set_solver|]. rewrite Hh in He. multiset_solver.
      * intros He. destruct (Hent e He) as (en & -> & _). eauto.
Qed.
End lifetime.
