(* ===== verification/LRUHistory.v ===== *)
(** Histories of a cache shard: any sequence of client calls that gives back only
    handles the client holds.  Every call takes the mutex for its whole duration,
    so that the calls of several threads form such a sequence. *)
From stdpp Require Import gmultiset.
From S2P Require Import Prelude Slice HandleTable LRUList LRUCache.
Local Open Scope Z_scope.

Section history.
Context {V D : Type}.
Implicit Types (c : LRUCache V D) (s : spec V D).

Inductive op :=
| OSetCapacity (n : Z)
| OInsert (e : Z) (key : bytes) (hsh : Z) (v : V) (chg : Z) (del : D)
| OLookup (key : bytes) (hsh : Z)
| ORelease (e : Z)
| OErase (key : bytes) (hsh : Z)
| OPrune
| OTotalCharge.

(** A call and what it returns (0 for the calls that return nothing). *)
Definition step c (o : op) : option (LRUCache V D * Z) :=
  match o with
  | OSetCapacity n => Some (SetCapacity c n, 0)
  | OInsert e key hsh v chg del => Insert c e key hsh v chg del
  | OLookup key hsh => Lookup c key hsh
  | ORelease e => c ← Release c e; Some (c, 0)
  | OErase key hsh => c ← Erase c key hsh; Some (c, 0)
  | OPrune => c ← Prune c; Some (c, 0)
  | OTotalCharge => Some (c, TotalCharge c)
  end.

Definition new_entry (o : op) : list (entry V D) :=
  match o with
  | OInsert _ key hsh v chg del =>
    [{| e_value := v; e_deleter := del; e_charge := chg; e_key := key; e_hash := hsh |}]
  | _ => []
  end.

Definition spec_step s (o : op) : spec V D * Z :=
  match o with
  | OSetCapacity n => (with_capacity s n, 0)
  | OInsert e key hsh v chg del => (spec_insert s e
      {| e_value := v; e_deleter := del; e_charge := chg; e_key := key; e_hash := hsh |}, e)
  | OLookup key hsh => spec_lookup s (hsh, key)
  | ORelease e => (spec_release s e, 0)
  | OErase key hsh => (spec_erase s (hsh, key), 0)
  | OPrune => (spec_prune s, 0)
  | OTotalCharge => (s, usage s)
  end.

(** The rules of the interface: only held handles are released, [malloc] returns
    fresh addresses, and there are fewer handles and entries than 32-bit fields
    can count. *)
Definition allowed s (o : op) : Prop :=
  match o with
  | OInsert e _ _ _ _ _ => insertable s e
  | OLookup _ _ => Z.of_nat (size (held s)) < 2 ^ 32 - 2
  | ORelease e => e ∈ held s
  | _ => True
  end.

Fixpoint run c (os : list op) : option (LRUCache V D * list Z) :=
  match os with
  | [] => Some (c, [])
  | o :: os => '(c, r) ← step c o; '(c, rs) ← run c os; Some (c, r :: rs)
  end.

Fixpoint spec_run s (os : list op) : spec V D * list Z :=
  match os with
  | [] => (s, [])
  | o :: os => let '(s, r) := spec_step s o in let '(s, rs) := spec_run s os in (s, r :: rs)
  end.

Fixpoint all_allowed s (os : list op) : Prop :=
  match os with
  | [] => True
  | o :: os => allowed s o ∧ all_allowed (fst (spec_step s o)) os
  end.

Lemma step_implements c s o :
  implements c s → allowed s o →
  ∃ c', step c o = Some (c', snd (spec_step s o)) ∧ implements c' (fst (spec_step s o)).
Proof.
  intros Hi Ha. destruct o as [n|e key hsh v chg del|key hsh|e|key hsh| |]; simpl in *.
  - eexists. split; [done|]. by apply SetCapacity_implements.
  - by apply Insert_implements.
  - by apply Lookup_implements.
  - destruct (Release_implements c s e) as (c' & -> & ?); [done..|]. by exists c'.
  - destruct (Erase_implements c s key hsh) as (c' & -> & ?); [done..|]. by exists c'.
  - destruct (Prune_implements c s) as (c' & -> & ?); [done..|]. by exists c'.
  - exists c. split; [|done]. destruct Hi as [U R]. unfold TotalCharge. by rewrite (cr_usage _ _ _ R).
Qed.

Lemma run_implements os : ∀ c s,
  implements c s → all_allowed s os →
  ∃ c', run c os = Some (c', snd (spec_run s os)) ∧ implements c' (fst (spec_run s os)).
Proof.
  induction os as [|o os IH]; intros c s Hi Ha; simpl in *; [by exists c|].
  destruct Ha as [Ho Ha]. destruct (step_implements c s o Hi Ho) as (c1 & -> & Hi1).
  cbn [mbind option_bind]. destruct (spec_step s o) as [s1 r]. simpl in *.
  destruct (IH c1 s1 Hi1 Ha) as (c' & -> & Hi'). cbn [mbind option_bind].
  destruct (spec_run s1 os) as [s' rs]. by exists c'.
Qed.

(** C12: a shard implements its specification.  From the constructor on, whatever
    sequence of [SetCapacity], [Insert], [Lookup], [Release], [Erase], [Prune] and
    [TotalCharge] the clients make, provided they release only handles they hold,
    no call faults, trips an assertion or fails to return; every result is the one
    the specification gives; and the reference counts, both linked lists, the hash
    table and the charge total agree with the specification's books of entries,
    keys, handles and recency. *)
Theorem LRUCache_refines os :
  all_allowed empty_spec os →
  ∃ c0 c, LRUCache_new = Some c0 ∧ run c0 os = Some (c, snd (spec_run empty_spec os)) ∧
    implements c (fst (spec_run empty_spec os)).
Proof.
  intros Ha. destruct (@LRUCache_new_implements V D) as (c0 & Hn & Hi).
  destruct (run_implements os c0 empty_spec Hi Ha) as (c & HR & ?). by exists c0, c.
Qed.

(** *** Every entry's deleter is called once *)

(** The calls made and the calls to come. *)
Definition account s : list (D * bytes * V) :=
  log s ++ (deleter_call <$> (map_to_list (entries s)).*2).

Lemma account_drop s e : account (drop_entry s e) ≡ₚ account s.
Proof.
  unfold account, drop_entry. destruct (entries s !! e) as [en|] eqn:HE; [|done]. simpl.
  rewrite <- (map_to_list_delete (entries s) e en) by done. simpl.
  by rewrite <- (assoc_L (++)).
Qed.

Lemma account_unheld s e : account (drop_unheld s e) ≡ₚ account s.
Proof. unfold drop_unheld. case_decide; [done|]. apply account_drop. Qed.

Lemma account_erase s k : account (spec_erase s k) ≡ₚ account s.
Proof. unfold spec_erase. destruct (index s !! k); [|done]. by rewrite account_unheld. Qed.

Lemma account_evict l : ∀ s, account (evict_list l s) ≡ₚ account s.
Proof.
  induction l as [|e l IH]; intros s; simpl; [done|].
  destruct (cap s <? usage s); [|done]. by rewrite IH, account_erase.
Qed.

Lemma account_prune l : ∀ s,
  account (foldl (λ s e, spec_erase s (id_of s e)) s l) ≡ₚ account s.
Proof. induction l as [|e l IH]; intros s; simpl; [done|]. by rewrite IH, account_erase. Qed.

Lemma account_step s o :
  allowed s o → account (fst (spec_step s o)) ≡ₚ account s ++ (deleter_call <$> new_entry o).
Proof.
  intros Ha. destruct o as [n|e key hsh v chg del|key hsh|e|key hsh| |]; simpl in *;
    rewrite ?app_nil_r.
  - done.
  - set (en := Build_entry _ _ _ _ _). unfold spec_insert, spec_evict. rewrite account_evict.
    assert (Hadd : account (add_entry s e en) ≡ₚ account s ++ [deleter_call en]).
    { unfold account, add_entry. simpl. rewrite map_to_list_insert by apply Ha. simpl.
      rewrite <- (assoc_L (++)). f_equiv. apply Permutation_cons_append. }
    unfold spec_bind. destruct (0 <? cap s); [|done].
    destruct (index s !! entry_id en); rewrite ?account_unheld; exact Hadd.
  - unfold spec_lookup. by destruct (index s !! (hsh, key)).
  - unfold spec_release. case_decide; [done|]. case_match; [done|]. by rewrite account_drop.
  - apply account_erase.
  - apply account_prune.
  - done.
Qed.

Lemma account_run os : ∀ s,
  all_allowed s os →
  account (fst (spec_run s os)) ≡ₚ account s ++ (deleter_call <$> (os ≫= new_entry)).
Proof.
  induction os as [|o os IH]; intros s Ha; simpl; [by rewrite app_nil_r|].
  destruct Ha as [Ho Ha]. pose proof (account_step s o Ho) as Hs.
  destruct (spec_step s o) as [s1 r]. simpl in *. pose proof (IH s1 Ha) as Hr.
  destruct (spec_run s1 os) as [s' rs]. simpl in *.
  rewrite Hr, Hs, fmap_app. by rewrite (assoc_L (++)).
Qed.

Lemma deleter_calls_all (E : gmap Z (entry V D)) l :
  NoDup l → dom E = list_to_set l →
  deleter_calls E l ≡ₚ deleter_call <$> (map_to_list E).*2.
Proof.
  intros Hnd Hd. assert (Hl : l ≡ₚ (map_to_list E).*1).
  { apply NoDup_Permutation; [done|apply NoDup_fst_map_to_list|]. intros e.
    rewrite <- (elem_of_list_to_set (C:=gset Z) e l), <- Hd, elem_of_dom. split.
    - intros [en He]. apply list_elem_of_fmap. exists (e, en). split; [done|].
      by apply elem_of_map_to_list.
    - intros ([e' en] & -> & He)%list_elem_of_fmap. apply elem_of_map_to_list in He. eauto. }
  unfold deleter_calls. rewrite Hl. clear.
  assert (Hin : ∀ x, x ∈ map_to_list E → E !! x.1 = Some x.2).
  { intros [e en] ?. by apply elem_of_map_to_list. }
  revert Hin. induction (map_to_list E) as [|[e en] m IH]; intros Hin; simpl; [done|].
  pose proof (Hin (e, en) ltac:(set_solver)) as He. simpl in He. rewrite He. simpl. f_equiv. apply IH. set_solver.
Qed.

(** C15: no entry leaks and none is deleted twice.  When the clients have given
    back every handle, the destructor returns, no entry is left in memory, and the
    deleters have been called exactly once for every [Insert] of the history, with
    the key and the value that were inserted. *)
Theorem LRUCache_deletes_once os :
  all_allowed empty_spec os → held (fst (spec_run empty_spec os)) = ∅ →
  ∃ c0 c rs c', LRUCache_new = Some c0 ∧ run c0 os = Some (c, rs) ∧
    LRUCache_destroy c = Some c' ∧ obj (mem c') = ∅ ∧
    calls c' ≡ₚ deleter_call <$> (os ≫= new_entry).
Proof.
  intros Ha Hh. destruct (@LRUCache_new_implements V D) as (c0 & Hn & Hi).
  destruct (run_implements os c0 empty_spec Hi Ha) as (c & HR & Hi').
  destruct (LRUCache_destroy_implements c _ Hi' Hh) as (c' & HD & Ho & Hc & Hdom).
  exists c0, c, (snd (spec_run empty_spec os)), c'. split_and!; [done..|].
  destruct Hi' as [U R].
  rewrite Hc, (deleter_calls_all _ _ (cr_recency _ _ _ R) Hdom).
  exact (account_run os empty_spec Ha).
Qed.

(** *** Eviction order *)

(** The [n] oldest evictable entries go. *)
Definition erase_oldest s (n : nat) : spec V D :=
  foldl (λ s e, spec_erase s (id_of s e)) s (take n (recency s)).

Lemma spec_erase_others s k e x k' :
  index s !! k = Some e → index s !! k' = Some x → x ≠ e →
  index (spec_erase s k) !! k' = Some x.
Proof.
  intros Hk Hk' Hne. unfold spec_erase. rewrite Hk.
  assert (Hi : index (drop_unheld (reindex s (delete k (index s)) e) e) = delete k (index s)).
  { unfold drop_unheld, drop_entry. case_decide; [done|]. by case_match. }
  rewrite Hi, lookup_delete_ne; [done|]. congruence.
Qed.

Lemma spec_erase_cap s k : cap (spec_erase s k) = cap s.
Proof.
  unfold spec_erase, drop_unheld, drop_entry. repeat (case_match || case_decide); done.
Qed.

Lemma evict_list_oldest l : ∀ c s,
  implements c s → recency s = l →
  ∃ n, evict_list l s = erase_oldest s n ∧
    recency (evict_list l s) = drop n l ∧ cap (evict_list l s) = cap s ∧
    (usage (evict_list l s) <= cap s ∨ drop n l = []) ∧
    (∀ i, (i < n)%nat → cap s < usage (erase_oldest s i)) ∧
    (∀ k x, index s !! k = Some x → x ∉ l → index (evict_list l s) !! k = Some x).
Proof.
  induction l as [|e l IH]; intros c s Hi Hl; simpl.
  - exists 0%nat. unfold erase_oldest. rewrite Hl. simpl. split_and!; auto. lia.
  - destruct (Z.ltb_spec (cap s) (usage s)) as [Hu|Hu].
    2: { exists 0%nat. unfold erase_oldest. rewrite Hl. simpl. split_and!; auto. lia. }
    pose proof Hi as [U R]. destruct (cr_oldest _ _ _ _ _ R Hl) as (Hid & _ & _ & Hl').
    destruct (evict_oldest_implements c s e l Hi Hl) as (c1 & _ & Hi1).
    destruct (IH c1 _ Hi1 Hl') as (n & He & Hr & Hcap & Hfit & Hmin & Hpin).
    rewrite spec_erase_cap in *. exists (S n). unfold erase_oldest in *. rewrite Hl, Hl' in *.
    split_and!; [done|done|done|done| |].
    + intros [|i] Hi'; simpl; [done|]. apply Hmin. lia.
    + intros k x Hk Hx. apply Hpin; [|set_solver].
      eapply spec_erase_others; [done|done|set_solver].
Qed.

(** C17: what [Insert] evicts.  Once the new entry is in place, exactly the
    [n] oldest entries no client holds go, in that order, each only because the
    charges still exceed the capacity; afterwards the charges fit or no entry is
    evictable.  Entries in use are never evicted; in particular the new entry is
    found under its key, when the cache is not disabled. *)
Theorem LRUCache_Insert_evicts c s e key hsh v chg del :
  implements c s → insertable s e →
  let en := {| e_value := v; e_deleter := del; e_charge := chg; e_key := key; e_hash := hsh |} in
  let s1 := spec_bind s e en in
  ∃ c' n, Insert c e key hsh v chg del = Some (c', e) ∧ implements c' (erase_oldest s1 n) ∧
    recency (erase_oldest s1 n) = drop n (recency s1) ∧
    (usage_ c' <= capacity_ c' ∨ drop n (recency s1) = []) ∧
    (∀ i, (i < n)%nat → cap s < usage (erase_oldest s1 i)) ∧
    (∀ k x, index s1 !! k = Some x → x ∉ recency s1 →
      index (erase_oldest s1 n) !! k = Some x) ∧
    (0 < capacity_ c → index (erase_oldest s1 n) !! (hsh, key) = Some e).
Proof.
  intros Hi Hins en s1. destruct (Insert_bind c s e key hsh v chg del Hi Hins) as (c1 & Hi1 & _).
  destruct (Insert_implements c s e key hsh v chg del Hi Hins) as (c' & HI & Hi').
  fold en s1 in Hi1, Hi'.
  destruct (evict_list_oldest _ c1 s1 Hi1 eq_refl) as (n & He & Hr & Hcap & Hfit & Hmin & Hpin).
  assert (Hc1 : cap s1 = cap s).
  { unfold s1, spec_bind. destruct (0 <? cap s); [|done].
    destruct (index s !! entry_id en); [|done]. unfold drop_unheld, drop_entry.
    case_decide; [done|]. by case_match. }
  unfold spec_insert, spec_evict in Hi'. fold s1 in Hi'. rewrite He in *.
  pose proof Hi' as [U' R']. exists c', n. split_and!; [done|done|done| | |done|].
  - by rewrite (cr_usage _ _ _ R'), (cr_capacity _ _ _ R'), Hcap.
  - by rewrite <- Hc1.
  - intros Hcap0. destruct Hi as [U R]. rewrite (cr_capacity _ _ _ R) in Hcap0.
    assert (Hs1 : index s1 = <[entry_id en := e]> (index s) ∧ held s1 = {[+ e +]} ⊎ held s).
    { unfold s1, spec_bind. rewrite (proj2 (Z.ltb_lt 0 (cap s))) by done.
      destruct (index s !! entry_id en); [|done]. unfold drop_unheld, drop_entry.
      case_decide; [done|]. by case_match. }
    destruct Hs1 as [Hix Hhd]. apply Hpin; [rewrite Hix; apply lookup_insert_eq|].
    destruct Hi1 as [U1 R1]. intros HL. eapply bk_lru; [apply R1|done|].
    rewrite Hhd. multiset_solver.
Qed.
End history.
Arguments op : clear implicits.

Section examples.
#[local] Instance allowed_dec {V D} (s : spec V D) o : Decision (allowed s o).
Proof. destruct o; simpl; unfold insertable, entry_address; apply _. Defined.

#[local] Instance all_allowed_dec {V D} (os : list (op V D)) : ∀ s, Decision (all_allowed s os).
Proof. induction os; intros s; simpl; apply _. Defined.

(** Two entries of charge 1 in a shard of capacity 2; the first is used again
    before a third comes, so that the second is evicted; the third is replaced
    while it is held. *)
Definition history : list (op nat unit) :=
  [OSetCapacity 2; OInsert 10 [x01] 5 100%nat 1 (); ORelease 10;
   OInsert 11 [x02] 5 200%nat 1 (); ORelease 11; OLookup [x01] 5; ORelease 10;
   OInsert 12 [x03] 5 300%nat 1 (); OLookup [x02] 5; OLookup [x01] 5; OTotalCharge;
   OInsert 13 [x03] 7 301%nat 1 (); OErase [x03] 5; ORelease 12; ORelease 10; ORelease 13; OPrune].

Example history_runs :
  (c ← LRUCache_new; '(c, rs) ← run c history; Some (rs, usage_ c, calls c)) =
  Some ([0; 10; 0; 11; 0; 10; 0; 12; 0; 10; 2; 13; 0; 0; 0; 0; 0], 0,
        [((), [x02], 200%nat); ((), [x03], 300%nat); ((), [x01], 100%nat); ((), [x03], 301%nat)]).
Proof. vm_compute. reflexivity. Qed.

Lemma LRUCache_refines_witness :
  all_allowed empty_spec history ∧
  ∃ c0 c rs, LRUCache_new = Some c0 ∧ run c0 history = Some (c, rs) ∧
    implements c (fst (spec_run empty_spec history)).
Proof.
  assert (Ha : all_allowed empty_spec history) by (apply (bool_decide_unpack _); vm_compute; exact I).
  split; [exact Ha|]. destruct (LRUCache_refines history Ha) as (c0 & c & Hn & Hr & Hi).
  exists c0, c, (snd (spec_run empty_spec history)). auto.
Defined.

Lemma LRUCache_deletes_once_witness :
  held (fst (spec_run empty_spec history)) = ∅ ∧
  ∃ c0 c rs c', LRUCache_new = Some c0 ∧ run c0 history = Some (c, rs) ∧
    LRUCache_destroy c = Some c' ∧ length (calls c') = 4%nat.
Proof.
  assert (Ha : all_allowed empty_spec history) by (apply (bool_decide_unpack _); vm_compute; exact I).
  assert (Hh : held (fst (spec_run empty_spec history)) = ∅)
    by (apply (bool_decide_unpack _); vm_compute; exact I).
  split; [exact Hh|].
  destruct (LRUCache_deletes_once history Ha Hh) as (c0 & c & rs & c' & Hn & Hr & Hd & _ & Hc).
  exists c0, c, rs, c'. split_and!; [done..|]. by rewrite Hc.
Defined.

Lemma LRUCache_Insert_evicts_witness :
  ∃ (c : LRUCache nat unit) c' n, Insert c 11 [x02] 5 200%nat 2 () = Some (c', 11) ∧
    implements c' (erase_oldest (spec_bind (fst (spec_run empty_spec (take 3 history))) 11
      {| e_value := 200%nat; e_deleter := (); e_charge := 2; e_key := [x02]; e_hash := 5 |}) n) ∧
    (usage_ c' <= capacity_ c' ∨ drop n [10] = []).
Proof.
  assert (Ha : all_allowed empty_spec (take 3 history))
    by (apply (bool_decide_unpack _); vm_compute; exact I).
  destruct (@LRUCache_new_implements nat unit) as (c0 & _ & Hi0).
  destruct (run_implements (take 3 history) c0 _ Hi0 Ha) as (c & _ & Hi).
  assert (Hins : insertable (fst (spec_run empty_spec (take 3 history))) 11)
    by (unfold insertable, entry_address; apply (bool_decide_unpack _); vm_compute; exact I).
  destruct (LRUCache_Insert_evicts c _ 11 [x02] 5 200%nat 2 () Hi Hins)
    as (c' & n & HI & Hi' & _ & Hfit & _).
  exists c, c', n. split_and!; [done|done|]. exact Hfit.
Defined.
End examples.
