(* ===== verification/ShardedCache.v ===== *)
(** The cache: [ShardedLRUCache] of util/cache.cc, sixteen shards and a counter.

    The memory of the process is divided by owner: the entries a shard allocates,
    and its two list heads, live in the memory of that shard, and [malloc] returns
    an address that is used by no shard.  A handle is the address of an entry. *)
From stdpp Require Import gmultiset.
From S2P Require Import Prelude Slice Hash HandleTable LRUList LRUCache LRUHistory.
Local Open Scope Z_scope.

Section sharded.
Context {V D : Type}.

Definition kNumShardBits : Z := 4.
Definition kNumShards : Z := Z.shiftl 1 kNumShardBits.

Record ShardedLRUCache := { shard_ : list (LRUCache V D); last_id_ : Z }.

Definition HashSlice (s : bytes) : option Z := Hash s 0.

Definition Shard (hash : Z) : Z := Z.shiftr hash (32 - kNumShardBits).

(** [(capacity + (kNumShards - 1)) / kNumShards] on [size_t]. *)
Definition per_shard (capacity : Z) : Z := u64 (capacity + (kNumShards - 1)) / kNumShards.

Definition ShardedLRUCache_new (capacity : Z) : option ShardedLRUCache :=
  shards ← mapM (λ _, c ← LRUCache_new; Some (SetCapacity c (per_shard capacity)))
                (seq 0 (Z.to_nat kNumShards));
  Some {| shard_ := shards; last_id_ := 0 |}.

(** [shard_[i].f(...)]. *)
Definition on_shard {A} (c : ShardedLRUCache) (i : Z) (f : LRUCache V D → option (LRUCache V D * A))
    : option (ShardedLRUCache * A) :=
  s ← shard_ c !! Z.to_nat i;
  '(s, r) ← f s;
  Some ({| shard_ := <[Z.to_nat i := s]> (shard_ c); last_id_ := last_id_ c |}, r).

(** The [LRUHandle] at an address. *)
Definition handle_at (c : ShardedLRUCache) (e : Z) : option (LRUHandle V D) :=
  head (omap (λ s, obj (mem s) !! e) (shard_ c)).

Definition Sharded_Insert (c : ShardedLRUCache) (e : Z) (key : bytes) (v : V) (chg : Z) (del : D)
    : option (ShardedLRUCache * Z) :=
  hash ← HashSlice key;
  on_shard c (Shard hash) (λ s, Insert s e key hash v chg del).

Definition Sharded_Lookup (c : ShardedLRUCache) (key : bytes) : option (ShardedLRUCache * Z) :=
  hash ← HashSlice key;
  on_shard c (Shard hash) (λ s, Lookup s key hash).

Definition Sharded_Release (c : ShardedLRUCache) (handle : Z) : option ShardedLRUCache :=
  h ← handle_at c handle;
  '(c, _) ← on_shard c (Shard (hash h)) (λ s, s ← Release s handle; Some (s, tt));
  Some c.

Definition Sharded_Erase (c : ShardedLRUCache) (key : bytes) : option ShardedLRUCache :=
  hash ← HashSlice key;
  '(c, _) ← on_shard c (Shard hash) (λ s, s ← Erase s key hash; Some (s, tt));
  Some c.

Definition Sharded_Value (c : ShardedLRUCache) (handle : Z) : option V :=
  h ← handle_at c handle; Some (value h).

Definition NewId (c : ShardedLRUCache) : ShardedLRUCache * Z :=
  let id := u64 (last_id_ c + 1) in
  ({| shard_ := shard_ c; last_id_ := id |}, id).

Definition Sharded_Prune (c : ShardedLRUCache) : option ShardedLRUCache :=
  shards ← mapM Prune (shard_ c);
  Some {| shard_ := shards; last_id_ := last_id_ c |}.

Definition Sharded_TotalCharge (c : ShardedLRUCache) : Z :=
  foldl (λ total s, u64 (total + TotalCharge s)) 0 (shard_ c).

Definition NewLRUCache (capacity : Z) : option ShardedLRUCache := ShardedLRUCache_new capacity.

(** [~ShardedLRUCache] destroys the shards, the last one first. *)
Definition Sharded_destroy (c : ShardedLRUCache) : option ShardedLRUCache :=
  shards ← mapM LRUCache_destroy (reverse (shard_ c));
  Some {| shard_ := reverse shards; last_id_ := last_id_ c |}.
End sharded.
Arguments ShardedLRUCache : clear implicits.

(** ** What the calls keep of a shard's specification *)

Section shrinking.
Context {V D : Type}.
Implicit Types (s : spec V D).

(** Nothing appears: the entries and the keys of [s'] are some of those of [s]. *)
Definition shrinks s s' : Prop :=
  entries s' ⊆ entries s ∧ index s' ⊆ index s ∧ cap s' = cap s.

#[global] Instance shrinks_preorder : PreOrder shrinks.
Proof.
  split; [intros s; by split_and!|]. intros s1 s2 s3 (? & ? & ?) (? & ? & ?).
  split_and!; [by etrans|by etrans|congruence].
Qed.

Lemma drop_unheld_shrinks s e : shrinks s (drop_unheld s e).
Proof.
  unfold drop_unheld, drop_entry. case_decide; [done|]. destruct (entries s !! e); [|done].
  split_and!; [apply delete_subseteq|done|done].
Qed.

Lemma erase_shrinks s k : shrinks s (spec_erase s k).
Proof.
  unfold spec_erase. destruct (index s !! k) as [e|] eqn:Hk; [|done].
  etrans; [|apply drop_unheld_shrinks]. split_and!; [done|apply delete_subseteq|done].
Qed.

Lemma index_erase s k : index (spec_erase s k) = delete k (index s).
Proof.
  unfold spec_erase. destruct (index s !! k) as [e|] eqn:Hk; [|by rewrite delete_id].
  unfold drop_unheld, drop_entry. case_decide; [done|]. by case_match.
Qed.

Lemma evict_shrinks l : ∀ s, shrinks s (evict_list l s).
Proof.
  induction l as [|e l IH]; intros s; simpl; [done|].
  destruct (cap s <? usage s); [|done]. etrans; [apply erase_shrinks|apply IH].
Qed.

Lemma prune_shrinks s : shrinks s (spec_prune s).
Proof.
  unfold spec_prune. generalize (recency s). intros l. revert s.
  induction l as [|e l IH]; intros s; simpl; [done|]. etrans; [apply erase_shrinks|apply IH].
Qed.

Lemma release_shrinks s e : shrinks s (spec_release s e).
Proof.
  unfold spec_release. case_decide; [done|]. case_match; [done|].
  unfold drop_entry. simpl. destruct (entries s !! e); [|done].
  split_and!; [apply delete_subseteq|done|done].
Qed.

Lemma lookup_shrinks s k : shrinks s (fst (spec_lookup s k)).
Proof. unfold spec_lookup. by destruct (index s !! k). Qed.

(** [Insert] adds its entry, under its key unless the shard is disabled. *)
Lemma insert_grows s e en :
  ∃ s1, shrinks s1 (spec_insert s e en) ∧ entries s1 = <[e:=en]> (entries s) ∧ cap s1 = cap s ∧
    index s1 = if 0 <? cap s then <[entry_id en := e]> (index s) else index s.
Proof.
  unfold spec_insert, spec_evict, spec_bind. set (s1 := add_entry s e en).
  destruct (0 <? cap s).
  - destruct (index s !! entry_id en) as [old|].
    + eexists. split; [etrans; [apply drop_unheld_shrinks|apply evict_shrinks]|done].
    + eexists. split; [apply evict_shrinks|done].
  - exists s1. split; [apply evict_shrinks|done].
Qed.
End shrinking.

(** ** The specification *)

Section spec.
Context {V D : Type}.

Inductive sop :=
| SInsert (e : Z) (key : bytes) (v : V) (chg : Z) (del : D)
| SLookup (key : bytes)
| SRelease (e : Z)
| SErase (key : bytes)
| SValue (e : Z)
| SNewId
| SPrune
| STotalCharge.

Record sspec := { shards : list (spec V D); last_id : Z }.

(** The hash of a key and the shard it is kept in. *)
Definition khash (key : bytes) : Z := hash_spec key 0.
Definition home (key : bytes) : nat := Z.to_nat (Shard (khash key)).

#[global] Arguments khash : simpl never.
#[global] Arguments home : simpl never.

(** The shard that has an entry. *)
Definition owner (ss : sspec) (e : Z) : option (nat * spec V D) :=
  list_find (λ s, is_Some (entries s !! e)) (shards ss).

Definition new_shard_entry (key : bytes) (v : V) (chg : Z) (del : D) : entry V D :=
  {| e_value := v; e_deleter := del; e_charge := chg; e_key := key; e_hash := khash key |}.

(** What a call on one shard does, [o] being the call on the shard. *)
Definition at_shard (ss : sspec) (i : nat) (o : op V D) : sspec * Z :=
  match shards ss !! i with
  | None => (ss, 0)
  | Some s =>
    let '(s, r) := spec_step s o in
    ({| shards := <[i := s]> (shards ss); last_id := last_id ss |}, r)
  end.

Definition sspec_step (ss : sspec) (o : sop) : sspec * (Z + option V) :=
  match o with
  | SInsert e key v chg del =>
    let '(ss, r) := at_shard ss (home key) (OInsert e key (khash key) v chg del) in (ss, inl r)
  | SLookup key =>
    let '(ss, r) := at_shard ss (home key) (OLookup key (khash key)) in (ss, inl r)
  | SErase key =>
    let '(ss, r) := at_shard ss (home key) (OErase key (khash key)) in (ss, inl r)
  | SRelease e =>
    match owner ss e with
    | None => (ss, inl 0)
    | Some (i, _) => let '(ss, r) := at_shard ss i (ORelease e) in (ss, inl r)
    end
  | SValue e => (ss, inr (p ← owner ss e; e_value <$> entries (snd p) !! e))
  | SNewId => let id := u64 (last_id ss + 1) in ({| shards := shards ss; last_id := id |}, inl id)
  | SPrune => ({| shards := spec_prune <$> shards ss; last_id := last_id ss |}, inl 0)
  | STotalCharge => (ss, inl (u64 (zsum (usage <$> shards ss))))
  end.

Definition sallowed (ss : sspec) (o : sop) : Prop :=
  match o with
  | SInsert e key _ _ _ =>
    Forall (λ s, entries s !! e = None) (shards ss) ∧
    from_option (λ s, insertable s e) False (shards ss !! home key)
  | SLookup key =>
    from_option (λ s, Z.of_nat (size (held s)) < 2 ^ 32 - 2) False (shards ss !! home key)
  | SRelease e | SValue e => Exists (λ s, e ∈ held s) (shards ss)
  | _ => True
  end.

(** The call as the code makes it. *)
Definition sstep (c : ShardedLRUCache V D) (o : sop)
    : option (ShardedLRUCache V D * (Z + option V)) :=
  match o with
  | SInsert e key v chg del => '(c, r) ← Sharded_Insert c e key v chg del; Some (c, inl r)
  | SLookup key => '(c, r) ← Sharded_Lookup c key; Some (c, inl r)
  | SRelease e => c ← Sharded_Release c e; Some (c, inl 0)
  | SErase key => c ← Sharded_Erase c key; Some (c, inl 0)
  | SValue e => v ← Sharded_Value c e; Some (c, inr (Some v))
  | SNewId => let '(c, id) := NewId c in Some (c, inl id)
  | SPrune => c ← Sharded_Prune c; Some (c, inl 0)
  | STotalCharge => Some (c, inl (Sharded_TotalCharge c))
  end.

(** Every entry is in the shard of its key, and in one shard only. *)
Record sharded_rep (c : ShardedLRUCache V D) (ss : sspec) : Prop := {
  sr_shards : Forall2 implements (shard_ c) (shards ss);
  sr_length : length (shards ss) = 16%nat;
  sr_last : last_id_ c = last_id ss;
  sr_home : ∀ i s e en, shards ss !! i = Some s → entries s !! e = Some en →
    i = home (e_key en) ∧ e_hash en = khash (e_key en);
  sr_owner : ∀ i j s t e, shards ss !! i = Some s → shards ss !! j = Some t →
    is_Some (entries s !! e) → is_Some (entries t !! e) → i = j
}.
End spec.
Arguments sop : clear implicits.
Arguments sspec : clear implicits.

Section proofs.
Context {V D : Type}.
Implicit Types (c : ShardedLRUCache V D) (ss : sspec V D) (s : spec V D).

Lemma Shard_range hash : 0 <= hash < 2 ^ 32 → 0 <= Shard hash < 16.
Proof.
  intros Hh. unfold Shard. rewrite Z.shiftr_div_pow2 by done.
  change (2 ^ (32 - kNumShardBits)) with (2 ^ 28). lia_div.
Qed.

Lemma home_lt key : (home key < 16)%nat.
Proof. unfold home. pose proof (Shard_range _ (hash_spec_range key 0)). unfold khash. lia. Qed.

Lemma sr_shard c ss key :
  sharded_rep c ss → ∃ cs s, shard_ c !! home key = Some cs ∧ shards ss !! home key = Some s ∧
    implements cs s.
Proof.
  intros R. destruct (lookup_lt_is_Some_2 (shards ss) (home key)) as [s Hs].
  { rewrite (sr_length _ _ R). apply home_lt. }
  destruct (Forall2_lookup_r _ _ _ _ _ (sr_shards _ _ R) Hs) as (cs & Hc & Hi). by exists cs, s.
Qed.

(** A call on one shard, which may add the entry [e]. *)
Lemma on_shard_rep {A} c ss i s (f : LRUCache V D → option (LRUCache V D * A)) s' r :
  sharded_rep c ss → shards ss !! i = Some s →
  (∀ cs, implements cs s → ∃ cs', f cs = Some (cs', r) ∧ implements cs' s') →
  (∀ e en, entries s' !! e = Some en → entries s !! e = Some en ∨
    (i = home (e_key en) ∧ e_hash en = khash (e_key en) ∧
     Forall (λ t, entries t !! e = None) (shards ss))) →
  ∃ c', on_shard c (Z.of_nat i) f = Some (c', r) ∧
    sharded_rep c' {| shards := <[i := s']> (shards ss); last_id := last_id ss |}.
Proof.
  intros R Hi Hf He. destruct (Forall2_lookup_r _ _ _ _ _ (sr_shards _ _ R) Hi) as (cs & Hc & Himp).
  destruct (Hf cs Himp) as (cs' & Hfc & Hi').
  unfold on_shard. rewrite Nat2Z.id, Hc. cbn [mbind option_bind]. rewrite Hfc. cbn [mbind option_bind].
  eexists. split; [done|].
  assert (Hnew : ∀ j t e, j ≠ i → shards ss !! j = Some t → is_Some (entries t !! e) →
    is_Some (entries s' !! e) → False).
  { intros j t e Hji Ht [en He1] [en' He2]. destruct (He e en' He2) as [He3|(_ & _ & Hfr)].
    - apply Hji. eapply (sr_owner _ _ R); eauto.
    - rewrite Forall_lookup in Hfr. specialize (Hfr j t Ht). congruence. }
  split; simpl.
  - apply Forall2_insert; [apply R|done].
  - rewrite length_insert. apply R.
  - apply R.
  - intros j t e en [(<- & <- & _)|[Hj Ht]]%list_lookup_insert_Some Hen; [|by eapply (sr_home _ _ R)].
    destruct (He e en Hen) as [He'|(? & ? & _)]; [by eapply (sr_home _ _ R)|done].
  - intros j k t u e [(<- & <- & _)|[Hj Ht]]%list_lookup_insert_Some
      [(<- & <- & _)|[Hk Hu]]%list_lookup_insert_Some H1 H2.
    + done.
    + exfalso. by eapply (Hnew k u e).
    + exfalso. by eapply (Hnew j t e).
    + by eapply (sr_owner _ _ R).
Qed.

Lemma shrinks_entry s s' e (en : entry V D) :
  shrinks s s' → entries s' !! e = Some en → entries s !! e = Some en.
Proof. intros (Hs & _) He. by eapply lookup_weaken. Qed.

(** Whose entry a handle is. *)
Lemma owner_eq c ss i s e :
  sharded_rep c ss → shards ss !! i = Some s → is_Some (entries s !! e) → owner ss e = Some (i, s).
Proof.
  intros R Hi He. apply list_find_Some. split_and!; [done|done|].
  intros j t Ht Hj Het. assert (j = i) by (eapply (sr_owner _ _ R); eauto). lia.
Qed.

Lemma head_omap {A B} (f : A → option B) l i x y :
  l !! i = Some x → f x = Some y → (∀ j z, l !! j = Some z → is_Some (f z) → j = i) →
  head (omap f l) = Some y.
Proof.
  revert i. induction l as [|z l IH]; intros i Hi Hf Hu; [done|].
  destruct i as [|i]; simpl in *.
  - injection Hi as ->. by rewrite Hf.
  - destruct (f z) as [w|] eqn:Hz; [by specialize (Hu 0%nat z eq_refl ltac:(by eexists))|].
    apply (IH i); [done|done|]. intros j u Hj Hfu. specialize (Hu (Datatypes.S j) u Hj Hfu). lia.
Qed.

Lemma handle_at_eq c ss i s e en :
  sharded_rep c ss → shards ss !! i = Some s → entries s !! e = Some en →
  ∃ o, handle_at c e = Some o ∧ value o = e_value en ∧ hash o = e_hash en.
Proof.
  intros R Hi He. destruct (Forall2_lookup_r _ _ _ _ _ (sr_shards _ _ R) Hi) as (cs & Hc & [U Rc]).
  pose proof (hr_Some _ _ _ _ _ _ _ (cr_heap _ _ _ Rc) He) as Ho.
  eexists. split; [|split]; [unfold handle_at; eapply head_omap; [exact Hc|exact Ho|]|..].
  - intros j ct Hct Hob. destruct (Forall2_lookup_l _ _ _ _ _ (sr_shards _ _ R) Hct) as (t & Ht & [Ut Rt]).
    eapply (sr_owner _ _ R); [done|done| |by eauto].
    by apply (hr_entry _ _ _ _ _ _ (cr_heap _ _ _ Rt)).
  - done.
  - done.
Qed.

(** A handle somebody holds is the address of an entry. *)
Lemma held_entry c ss e :
  sharded_rep c ss → Exists (λ s, e ∈ held s) (shards ss) →
  ∃ i s en, shards ss !! i = Some s ∧ e ∈ held s ∧ entries s !! e = Some en ∧
    owner ss e = Some (i, s).
Proof.
  intros R (s & Hs & He)%Exists_exists.
  apply list_elem_of_lookup in Hs as [i Hi].
  destruct (Forall2_lookup_r _ _ _ _ _ (sr_shards _ _ R) Hi) as (cs & _ & [U Rc]).
  destruct (bk_held _ _ _ _ (hr_books _ _ _ _ _ (cr_heap _ _ _ Rc)) e He) as [en Hen].
  exists i, s, en. split_and!; [done..|]. eapply owner_eq; eauto.
Qed.
End proofs.

Section steps.
Context {V D : Type}.
Implicit Types (c : ShardedLRUCache V D) (ss : sspec V D) (s : spec V D).

Lemma Shard_home key : Shard (khash key) = Z.of_nat (home key).
Proof. unfold home. pose proof (Shard_range _ (hash_spec_range key 0)). unfold khash. lia. Qed.

Lemma HashSlice_eq key : HashSlice key = Some (khash key).
Proof. apply Hash_eq. Qed.

(** A call on one shard after which there are no new entries. *)
Lemma at_shard_rep {A} c ss i s o (f : LRUCache V D → option (LRUCache V D * A)) r :
  sharded_rep c ss → shards ss !! i = Some s →
  (∀ cs, implements cs s →
    ∃ cs', f cs = Some (cs', r) ∧ implements cs' (fst (spec_step s o))) →
  (∀ e en, entries (fst (spec_step s o)) !! e = Some en → entries s !! e = Some en ∨
    (i = home (e_key en) ∧ e_hash en = khash (e_key en) ∧
     Forall (λ t, entries t !! e = None) (shards ss))) →
  ∃ c', on_shard c (Z.of_nat i) f = Some (c', r) ∧ sharded_rep c' (fst (at_shard ss i o)) ∧
    snd (at_shard ss i o) = snd (spec_step s o).
Proof.
  intros R Hi Hf He. destruct (on_shard_rep c ss i s f _ r R Hi Hf He) as (c' & HE & R').
  exists c'. unfold at_shard. rewrite Hi. by destruct (spec_step s o).
Qed.

Lemma at_shard_inl c ss i o r :
  sharded_rep c (fst (at_shard ss i o)) → snd (at_shard ss i o) = r →
  sharded_rep c (fst (let '(ss, r) := at_shard ss i o in (ss, inl r : Z + option V))) ∧
  snd (let '(ss, r) := at_shard ss i o in (ss, inl r : Z + option V)) = inl r.
Proof. destruct (at_shard ss i o) as [ss' r']. cbn [fst snd]. by intros ? ->. Qed.

Lemma Sharded_Insert_rep c ss e key v chg del :
  sharded_rep c ss → sallowed ss (SInsert e key v chg del) →
  ∃ c', Sharded_Insert c e key v chg del = Some (c', e) ∧
    sharded_rep c' (fst (sspec_step ss (SInsert e key v chg del))) ∧
    snd (sspec_step ss (SInsert e key v chg del)) = inl e.
Proof.
  intros R [Hfr Hins]. destruct (sr_shard c ss key R) as (cs & s & _ & Hs & _).
  rewrite Hs in Hins. cbn [from_option] in Hins. unfold Sharded_Insert. rewrite HashSlice_eq. cbn [mbind option_bind].
  rewrite Shard_home. set (o := OInsert e key (khash key) v chg del).
  destruct (at_shard_rep c ss (home key) s o (λ x, Insert x e key (khash key) v chg del) e R Hs)
    as (c' & HE & R' & Hr).
  - intros cs' Hi. by apply (step_implements cs' s o).
  - intros x en. simpl. destruct (insert_grows s e (new_shard_entry key v chg del)) as (s1 & Hsh & He1 & _).
    intros Hx. apply (shrinks_entry _ _ _ _ Hsh) in Hx. rewrite He1 in Hx.
    apply lookup_insert_Some in Hx as [[<- <-]|[_ Hx]]; [right|by left]. done.
  - exists c'. split; [done|]. cbn [sspec_step]. fold o. by apply (at_shard_inl _ _ _ _ _ R').
Qed.

Lemma Sharded_Lookup_rep c ss key :
  sharded_rep c ss → sallowed ss (SLookup key) →
  ∃ c' r, Sharded_Lookup c key = Some (c', r) ∧
    sharded_rep c' (fst (sspec_step ss (SLookup key))) ∧ snd (sspec_step ss (SLookup key)) = inl r.
Proof.
  intros R Ha. destruct (sr_shard c ss key R) as (cs & s & _ & Hs & _).
  unfold sallowed in Ha. rewrite Hs in Ha. cbn [from_option] in Ha.
  unfold Sharded_Lookup. rewrite HashSlice_eq. cbn [mbind option_bind]. rewrite Shard_home.
  set (o := OLookup key (khash key) : op V D).
  destruct (at_shard_rep c ss (home key) s o (λ x, Lookup x key (khash key)) (snd (spec_step s o)) R Hs)
    as (c' & HE & R' & Hr).
  - intros cs' Hi. by apply (step_implements cs' s o).
  - intros x en Hx. left. eapply shrinks_entry; [apply lookup_shrinks|exact Hx].
  - exists c', (snd (spec_step s o)). split; [done|]. cbn [sspec_step]. fold o.
    by apply (at_shard_inl _ _ _ _ _ R').
Qed.

Lemma Sharded_Erase_rep c ss key :
  sharded_rep c ss →
  ∃ c', Sharded_Erase c key = Some c' ∧
    sharded_rep c' (fst (sspec_step ss (SErase key))) ∧ snd (sspec_step ss (SErase key)) = inl 0.
Proof.
  intros R. destruct (sr_shard c ss key R) as (cs & s & _ & Hs & _).
  unfold Sharded_Erase. rewrite HashSlice_eq. cbn [mbind option_bind]. rewrite Shard_home.
  set (o := OErase key (khash key) : op V D).
  destruct (at_shard_rep c ss (home key) s o (λ x, x ← Erase x key (khash key); Some (x, tt)) tt R Hs)
    as (c' & HE & R' & Hr).
  - intros cs' Hi. destruct (Erase_implements cs' s key (khash key) Hi) as (cs1 & -> & ?). by exists cs1.
  - intros x en Hx. left. eapply shrinks_entry; [apply erase_shrinks|exact Hx].
  - rewrite HE. exists c'. split; [done|]. cbn [sspec_step]. fold o.
    by apply (at_shard_inl _ _ _ _ _ R').
Qed.

Lemma Sharded_Release_rep c ss e :
  sharded_rep c ss → sallowed ss (SRelease e) →
  ∃ c', Sharded_Release c e = Some c' ∧
    sharded_rep c' (fst (sspec_step ss (SRelease e))) ∧ snd (sspec_step ss (SRelease e)) = inl 0.
Proof.
  intros R Ha. destruct (held_entry c ss e R Ha) as (i & s & en & Hi & Hh & Hen & Hown).
  destruct (handle_at_eq c ss i s e en R Hi Hen) as (o & Ho & _ & Hho).
  destruct (sr_home _ _ R i s e en Hi Hen) as [Hhome Hhash].
  unfold Sharded_Release. rewrite Ho. cbn [mbind option_bind].
  rewrite Hho, Hhash, Shard_home, <- Hhome.
  destruct (at_shard_rep c ss i s (ORelease e) (λ x, x ← Release x e; Some (x, tt)) tt R Hi)
    as (c' & HE & R' & Hr).
  - intros cs' Hi'. destruct (Release_implements cs' s e Hi' Hh) as (cs1 & -> & ?). by exists cs1.
  - intros x enx Hx. left. eapply shrinks_entry; [apply release_shrinks|exact Hx].
  - rewrite HE. exists c'. split; [done|]. cbn [sspec_step]. rewrite Hown.
    by apply (at_shard_inl _ _ _ _ _ R').
Qed.

Lemma Sharded_Value_rep c ss e :
  sharded_rep c ss → sallowed ss (SValue e) →
  ∃ v, Sharded_Value c e = Some v ∧ snd (sspec_step ss (SValue e)) = inr (Some v).
Proof.
  intros R Ha. destruct (held_entry c ss e R Ha) as (i & s & en & Hi & _ & Hen & Hown).
  destruct (handle_at_eq c ss i s e en R Hi Hen) as (o & Ho & Hv & _).
  exists (value o). unfold Sharded_Value. rewrite Ho. split; [done|].
  simpl. rewrite Hown. simpl. by rewrite Hen, Hv.
Qed.

Lemma mapM_Forall2 {A B A' B'} (P : A → B → Prop) (Q : A' → B' → Prop) (f : A → option A')
    (g : B → B') l k :
  Forall2 P l k → (∀ x y, P x y → ∃ x', f x = Some x' ∧ Q x' (g y)) →
  ∃ l', mapM f l = Some l' ∧ Forall2 Q l' (g <$> k).
Proof.
  intros HF Hf. induction HF as [|x y l k Hx _ (l' & HM & HF')]; [by exists []|].
  destruct (Hf x y Hx) as (x' & Hfx & ?). exists (x' :: l').
  simpl. rewrite Hfx. cbn [mbind option_bind]. rewrite HM. split; [done|by constructor].
Qed.

Lemma Sharded_Prune_rep c ss :
  sharded_rep c ss →
  ∃ c', Sharded_Prune c = Some c' ∧ sharded_rep c' (fst (sspec_step ss SPrune)).
Proof.
  intros R. unfold Sharded_Prune.
  assert (HM : ∃ cs', mapM Prune (shard_ c) = Some cs' ∧
    Forall2 implements cs' (spec_prune <$> shards ss)).
  { apply (mapM_Forall2 implements implements); [apply R|]. intros cs s. apply Prune_implements. }
  destruct HM as (cs' & -> & HF). eexists. split; [done|]. split; simpl.
  - done.
  - rewrite length_fmap. apply R.
  - apply R.
  - intros i s e en (t & -> & Ht)%list_lookup_fmap_Some He. eapply (sr_home _ _ R); [done|].
    eapply shrinks_entry; [apply prune_shrinks|done].
  - intros i j s t e (s' & -> & Hs)%list_lookup_fmap_Some (t' & -> & Ht)%list_lookup_fmap_Some
      [en1 H1] [en2 H2].
    apply (shrinks_entry _ _ _ _ (prune_shrinks s')) in H1.
    apply (shrinks_entry _ _ _ _ (prune_shrinks t')) in H2. eapply (sr_owner _ _ R); eauto.
Qed.

Lemma Sharded_TotalCharge_eq c ss :
  sharded_rep c ss → Sharded_TotalCharge c = u64 (zsum (usage <$> shards ss)).
Proof.
  intros R. unfold Sharded_TotalCharge.
  assert (HF : ∀ l k t, Forall2 implements l k → u64 t = t →
    foldl (λ total (s : LRUCache V D), u64 (total + TotalCharge s)) t l =
    u64 (t + zsum (usage <$> k))).
  { intros l k t HF. revert t. induction HF as [|x s l k [U Rx] _ IH]; intros t Ht; simpl.
    - by rewrite Z.add_0_r, Ht.
    - rewrite IH by (unfold u64; by apply Z.mod_mod). unfold TotalCharge.
      rewrite (cr_usage _ _ _ Rx). unfold u64. rewrite Zplus_mod_idemp_l. by rewrite <- Z.add_assoc. }
  by rewrite (HF _ _ 0 (sr_shards _ _ R)).
Qed.

Lemma sstep_rep c ss o :
  sharded_rep c ss → sallowed ss o →
  ∃ c', sstep c o = Some (c', snd (sspec_step ss o)) ∧ sharded_rep c' (fst (sspec_step ss o)).
Proof.
  intros R Ha. destruct o as [e key v chg del|key|e|key|e| | |].
  - destruct (Sharded_Insert_rep _ _ _ _ _ _ _ R Ha) as (c' & HE & R' & ->).
    exists c'. unfold sstep. by rewrite HE.
  - destruct (Sharded_Lookup_rep _ _ _ R Ha) as (c' & r & HE & R' & ->).
    exists c'. unfold sstep. by rewrite HE.
  - destruct (Sharded_Release_rep _ _ _ R Ha) as (c' & HE & R' & ->).
    exists c'. unfold sstep. by rewrite HE.
  - destruct (Sharded_Erase_rep _ _ key R) as (c' & HE & R' & ->).
    exists c'. unfold sstep. by rewrite HE.
  - destruct (Sharded_Value_rep _ _ _ R Ha) as (v & HE & Hr).
    exists c. rewrite Hr. unfold sstep. by rewrite HE.
  - eexists. split; [simpl; by rewrite (sr_last _ _ R)|]. destruct R. by split.
  - destruct (Sharded_Prune_rep _ _ R) as (c' & HE & R').
    exists c'. unfold sstep. by rewrite HE.
  - exists c. split; [|done]. simpl. by rewrite (Sharded_TotalCharge_eq _ _ R).
Qed.
End steps.

(** ** Histories of the cache *)

Section history.
Context {V D : Type}.
Implicit Types (c : ShardedLRUCache V D) (ss : sspec V D) (s : spec V D).

Definition empty_shards (capacity : Z) : sspec V D :=
  {| shards := replicate 16 (with_capacity empty_spec (per_shard capacity)); last_id := 0 |}.

Fixpoint srun c (os : list (sop V D)) : option (ShardedLRUCache V D * list (Z + option V)) :=
  match os with
  | [] => Some (c, [])
  | o :: os => '(c, r) ← sstep c o; '(c, rs) ← srun c os; Some (c, r :: rs)
  end.

Fixpoint sspec_run ss (os : list (sop V D)) : sspec V D * list (Z + option V) :=
  match os with
  | [] => (ss, [])
  | o :: os => let '(ss, r) := sspec_step ss o in
               let '(ss, rs) := sspec_run ss os in (ss, r :: rs)
  end.

Fixpoint all_sallowed ss (os : list (sop V D)) : Prop :=
  match os with
  | [] => True
  | o :: os => sallowed ss o ∧ all_sallowed (fst (sspec_step ss o)) os
  end.

Lemma new_shards_rep capacity n m :
  ∃ l, mapM (λ _ : nat, c ← LRUCache_new; Some (SetCapacity c (per_shard capacity))) (seq m n)
    = Some l ∧
    Forall2 implements l (replicate n (with_capacity (empty_spec : spec V D) (per_shard capacity))).
Proof.
  destruct (@LRUCache_new_implements V D) as (c0 & Hc0 & Hi).
  set (s0 := with_capacity empty_spec (per_shard capacity)).
  rewrite <- (list_fmap_id (replicate n s0)).
  apply (mapM_Forall2 (λ (_ : nat) s, s = s0) implements).
  - apply Forall2_same_length_lookup. split; [by rewrite length_seq, length_replicate|].
    by intros i x y _ [-> _]%lookup_replicate.
  - intros x y ->. exists (SetCapacity c0 (per_shard capacity)). rewrite Hc0.
    split; [done|]. by apply SetCapacity_implements.
Qed.

Lemma NewLRUCache_rep capacity :
  ∃ c, NewLRUCache capacity = Some c ∧ sharded_rep c (empty_shards capacity).
Proof.
  destruct (new_shards_rep capacity 16 0) as (l & Hl & HF).
  unfold NewLRUCache, ShardedLRUCache_new. change (Z.to_nat kNumShards) with 16%nat. rewrite Hl.
  eexists. split; [done|].
  assert (He : ∀ i s, shards (empty_shards capacity) !! i = Some s → entries s = ∅).
  { intros i s [-> _]%lookup_replicate. done. }
  split; [exact HF|done|done| |].
  - intros i s e en Hi. by rewrite (He i s Hi), lookup_empty.
  - intros i j s t e Hi _. rewrite (He i s Hi), lookup_empty. by intros [].
Qed.

Lemma srun_rep os : ∀ c ss,
  sharded_rep c ss → all_sallowed ss os →
  ∃ c', srun c os = Some (c', snd (sspec_run ss os)) ∧ sharded_rep c' (fst (sspec_run ss os)).
Proof.
  induction os as [|o os IH]; intros c ss R Ha; [by exists c|].
  destruct Ha as [Ho Ha]. destruct (sstep_rep c ss o R Ho) as (c1 & Hs & R1).
  cbn [srun sspec_run]. rewrite Hs. cbn [mbind option_bind].
  destruct (sspec_step ss o) as [ss1 r]. cbn [fst snd] in *.
  destruct (IH c1 ss1 R1 Ha) as (c' & -> & R'). cbn [mbind option_bind].
  destruct (sspec_run ss1 os) as [ss' rs]. by exists c'.
Qed.

Lemma Sharded_destroy_rep c ss :
  sharded_rep c ss → Forall (λ s, held s = ∅) (shards ss) →
  ∃ c', Sharded_destroy c = Some c' ∧ Forall (λ x, obj (mem x) = ∅) (shard_ c').
Proof.
  intros R Hh. unfold Sharded_destroy.
  assert (HF : Forall2 (λ cs s, implements cs s ∧ held s = ∅) (reverse (shard_ c)) (reverse (shards ss))).
  { apply Forall2_reverse. apply Forall2_same_length_lookup.
    split; [by eapply Forall2_length, R|]. intros i cs s Hc Hs.
    split; [by eapply Forall2_lookup_lr; [apply R| |]|by eapply Forall_lookup_1 in Hh]. }
  destruct (mapM_Forall2 _ (λ cs (_ : spec V D), obj (mem cs) = ∅) LRUCache_destroy id _ _ HF)
    as (l & -> & Hl).
  - intros cs s [Hi He]. destruct (LRUCache_destroy_implements cs s Hi He) as (cs' & ? & ? & _).
    by exists cs'.
  - eexists. split; [done|]. cbn [shard_]. rewrite Forall_reverse.
    apply Forall_lookup. intros i cs Hcs.
    by destruct (Forall2_lookup_l _ _ _ _ _ Hl Hcs) as (_ & _ & ?).
Qed.

(** C13: the cache implements sixteen shards of the specification.  For every
    capacity and every sequence of calls in which clients release, or read the
    value of, only handles they hold, no call faults or fails to return; each
    key is served by the one shard its hash selects, a handle finds the shard of
    its entry, and every result (handles, values, fresh identifiers, total charge)
    is the specification's.  Once all handles are given back the destructor frees
    every entry of every shard. *)
Theorem ShardedLRUCache_refines capacity os :
  all_sallowed (empty_shards capacity) os →
  let '(ss, rs) := sspec_run (empty_shards capacity) os in
  ∃ c0 c, NewLRUCache capacity = Some c0 ∧ srun c0 os = Some (c, rs) ∧ sharded_rep c ss ∧
    (Forall (λ s, held s = ∅) (shards ss) →
     ∃ c', Sharded_destroy c = Some c' ∧ Forall (λ x, obj (mem x) = ∅) (shard_ c')).
Proof.
  intros Ha. destruct (NewLRUCache_rep capacity) as (c0 & Hn & R0).
  destruct (srun_rep os c0 _ R0 Ha) as (c & Hr & R).
  destruct (sspec_run (empty_shards capacity) os) as [ss rs]. exists c0, c.
  split_and!; [done..|]. by apply Sharded_destroy_rep.
Qed.
End history.

(** ** What a look-up can return *)

Section coherence.
Context {V D : Type}.
Implicit Types (c : ShardedLRUCache V D) (ss : sspec V D) (s : spec V D) (L : gmap bytes (Z * V)).

(** The handle and value of the last insertion of each key, if it has not been
    erased since. *)
Definition latest_step L (o : sop V D) : gmap bytes (Z * V) :=
  match o with
  | SInsert e key v _ _ => <[key := (e, v)]> L
  | SErase key => delete key L
  | _ => L
  end.
Definition latest (os : list (sop V D)) : gmap bytes (Z * V) := foldl latest_step ∅ os.

(** The cache holds only latest insertions, and none when it is disabled. *)
Definition coherent_shard s L : Prop :=
  (cap s <= 0 → index s = ∅) ∧
  ∀ key e en, index s !! (khash key, key) = Some e → entries s !! e = Some en →
    L !! key = Some (e, e_value en).

Definition coherent ss L : Prop := ∀ i s, shards ss !! i = Some s → coherent_shard s L.

Lemma coherent_shrinks s s' L : shrinks s s' → coherent_shard s L → coherent_shard s' L.
Proof.
  intros (He & Hi & Hc) [H0 HL]. split.
  - rewrite Hc. intros Hcap. specialize (H0 Hcap). rewrite H0 in Hi. apply (anti_symm (⊆)); [done|apply map_empty_subseteq].
  - intros key e en Hk Hen. apply HL; eapply lookup_weaken; eauto.
Qed.

(** The keys of a shard are at home there. *)
Lemma sr_key c ss i s key e :
  sharded_rep c ss → shards ss !! i = Some s → index s !! (khash key, key) = Some e →
  i = home key ∧ is_Some (entries s !! e).
Proof.
  intros R Hi Hk. destruct (Forall2_lookup_r _ _ _ _ _ (sr_shards _ _ R) Hi) as (cs & _ & [U Rc]).
  destruct (cr_entry _ _ _ _ _ Rc Hk) as (_ & _ & en & Hen & Hid). injection Hid as _ Hkey.
  destruct (sr_home _ _ R i s e en Hi Hen) as [-> _]. rewrite Hkey. eauto.
Qed.

(** An operation on one shard, the others seeing a change of [L] at a key that is
    not theirs. *)
Lemma coherent_at c ss L L' i s o key :
  sharded_rep c ss → shards ss !! i = Some s → i = home key → coherent ss L →
  (∀ key', key' ≠ key → L' !! key' = L !! key') →
  coherent_shard (fst (spec_step s o)) L' →
  coherent (fst (at_shard ss i o)) L'.
Proof.
  intros R Hi Hhome HC HL Hs. unfold at_shard. rewrite Hi.
  destruct (spec_step s o) as [s' r]. cbn [fst] in *.
  intros j t [(<- & <- & _)|[Hj Ht]]%list_lookup_insert_Some; [done|].
  destruct (HC j t Ht) as [H0 Ht']. split; [done|]. intros key' e en Hk He.
  destruct (sr_key _ _ _ _ _ _ R Ht Hk) as [Hj' _].
  rewrite HL; [by apply Ht'|]. intros ->. congruence.
Qed.

Lemma coherent_same ss L i s o :
  shards ss !! i = Some s → coherent ss L → shrinks s (fst (spec_step s o)) →
  coherent (fst (at_shard ss i o)) L.
Proof.
  intros Hi HC Hs. unfold at_shard. rewrite Hi. destruct (spec_step s o) as [s' r]. cbn [fst] in *.
  intros j t [(<- & <- & _)|[_ Ht]]%list_lookup_insert_Some; [|by eapply HC].
  eapply coherent_shrinks; [done|by eapply HC].
Qed.

Lemma fst_inl {A B C} (p : A * B) : fst (let '(a, b) := p in (a, inl b : B + C)) = fst p.
Proof. by destruct p. Qed.

Lemma insert_coherent c ss i s L e key v chg del :
  sharded_rep c ss → shards ss !! i = Some s → coherent_shard s L → entries s !! e = None →
  coherent_shard (spec_insert s e (new_shard_entry key v chg del)) (<[key := (e, v)]> L).
Proof.
  intros R Hi [H0 HL] Hfr. set (en := new_shard_entry key v chg del).
  destruct (insert_grows s e en) as (s1 & Hsh & He1 & Hc1 & Hi1).
  apply (coherent_shrinks s1); [done|]. split.
  - rewrite Hc1. intros Hcap. rewrite Hi1, (proj2 (Z.ltb_ge 0 (cap s))) by done. auto.
  - intros key' x enx Hk Hx. rewrite Hi1 in Hk. rewrite He1 in Hx.
    destruct (Z.ltb_spec 0 (cap s)) as [Hcap|Hcap]; [|by rewrite H0, lookup_empty in Hk by lia].
    apply lookup_insert_Some in Hk as [[Hid <-]|[Hne Hk]].
    + injection Hid as _ <-. rewrite lookup_insert_eq in Hx. injection Hx as <-.
      apply lookup_insert_eq.
    + destruct (sr_key _ _ _ _ _ _ R Hi Hk) as [_ [enx' Hx']].
      rewrite lookup_insert_ne in Hx by congruence.
      rewrite lookup_insert_ne; [by apply HL|]. intros <-. by apply Hne.
Qed.

Lemma coherent_step c ss L o :
  sharded_rep c ss → sallowed ss o → coherent ss L →
  coherent (fst (sspec_step ss o)) (latest_step L o).
Proof.
  intros R Ha HC. destruct o as [e key v chg del|key|e|key|e| | |]; cbn [sspec_step latest_step].
  - rewrite fst_inl. destruct Ha as [Hfr _]. destruct (sr_shard c ss key R) as (_ & s & _ & Hs & _).
    eapply coherent_at; [done|done|done|done| |].
    + intros key' Hne. by apply lookup_insert_ne.
    + eapply insert_coherent; [done|done|by eapply HC|]. by eapply Forall_lookup_1 in Hfr.
  - rewrite fst_inl. destruct (sr_shard c ss key R) as (_ & s & _ & Hs & _).
    eapply coherent_same; [done|done|apply lookup_shrinks].
  - destruct (held_entry c ss e R Ha) as (i & s & en & Hi & _ & _ & ->). rewrite fst_inl.
    eapply coherent_same; [done|done|apply release_shrinks].
  - rewrite fst_inl. destruct (sr_shard c ss key R) as (_ & s & _ & Hs & _).
    eapply coherent_at; [done|done|done|done| |].
    + intros key' Hne. by apply lookup_delete_ne.
    + destruct (coherent_shrinks _ _ _ (erase_shrinks s (khash key, key)) (HC _ _ Hs)) as [H0 HL].
      split; [done|]. intros key' x en. cbn [spec_step fst]. intros Hk Hx.
      rewrite lookup_delete_ne; [by apply HL|]. intros <-.
      by rewrite index_erase, lookup_delete_eq in Hk.
  - done.
  - done.
  - intros i s (t & -> & Ht)%list_lookup_fmap_Some.
    eapply coherent_shrinks; [apply prune_shrinks|by eapply HC].
  - done.
Qed.

Lemma coherent_run os : ∀ c ss L,
  sharded_rep c ss → all_sallowed ss os → coherent ss L →
  coherent (fst (sspec_run ss os)) (foldl latest_step L os).
Proof.
  induction os as [|o os IH]; intros c ss L R Ha HC; [done|].
  destruct Ha as [Ho Ha]. destruct (sstep_rep c ss o R Ho) as (c1 & _ & R1).
  pose proof (coherent_step c ss L o R Ho HC) as HC1. cbn [sspec_run foldl].
  destruct (sspec_step ss o) as [ss1 r]. cbn [fst] in *. pose proof (IH c1 ss1 _ R1 Ha HC1) as HC'.
  by destruct (sspec_run ss1 os).
Qed.

Lemma coherent_empty capacity : coherent (empty_shards capacity) ∅.
Proof.
  intros i s [-> _]%lookup_replicate. split; [done|]. intros k e en Hk.
  cbn [index with_capacity empty_spec] in Hk. by rewrite lookup_empty in Hk.
Qed.

Lemma all_sallowed_app os1 os2 : ∀ ss,
  all_sallowed ss (os1 ++ os2) ↔
  all_sallowed ss os1 ∧ all_sallowed (fst (sspec_run ss os1)) os2.
Proof.
  induction os1 as [|o os1 IH]; intros ss; cbn [app all_sallowed sspec_run fst]; [tauto|].
  rewrite IH. destruct (sspec_step ss o) as [ss1 r]. cbn [fst].
  destruct (sspec_run ss1 os1). cbn [fst]. tauto.
Qed.

(** C14: a look-up never returns a stale entry.  After any history of a cache of
    any capacity, a look-up of [key] either returns null, or the handle of the
    last insertion of [key], provided it has not been erased since, and the value
    of that handle is the value that was inserted. *)
Theorem ShardedLRUCache_coherent capacity os key :
  all_sallowed (empty_shards capacity) (os ++ [SLookup key]) →
  ∃ c0 c rs c' r, NewLRUCache capacity = Some c0 ∧ srun c0 os = Some (c, rs) ∧
    Sharded_Lookup c key = Some (c', r) ∧
    (r = 0 ∨ ∃ v, latest os !! key = Some (r, v) ∧ Sharded_Value c' r = Some v).
Proof.
  intros Ha. apply all_sallowed_app in Ha as [Ha [Hl _]].
  destruct (@NewLRUCache_rep V D capacity) as (c0 & Hn & R0).
  destruct (srun_rep os c0 _ R0 Ha) as (c & Hr & R).
  assert (HC : coherent (fst (sspec_run (empty_shards capacity) os)) (latest os)).
  { by eapply coherent_run; [..|apply coherent_empty]. }
  set (ss := fst (sspec_run (empty_shards capacity) os)) in *.
  destruct (Sharded_Lookup_rep c ss key R Hl) as (c' & r & HL & R' & Hres).
  exists c0, c, (snd (sspec_run (empty_shards capacity) os)), c', r. split_and!; [done..|].
  destruct (sr_shard c ss key R) as (_ & s & _ & Hs & _).
  cbn [sspec_step] in R', Hres. unfold at_shard in R', Hres. rewrite Hs in R', Hres.
  cbn [spec_step] in R', Hres. unfold spec_lookup in R', Hres.
  destruct (index s !! (khash key, key)) as [e|] eqn:Hk; cbn [fst snd] in R', Hres;
    injection Hres as <-; [right|by left].
  destruct (sr_key _ _ _ _ _ _ R Hs Hk) as [_ [en Hen]].
  destruct (HC _ _ Hs) as [_ Hlat]. exists (e_value en). split; [by apply Hlat|].
  destruct (handle_at_eq c' _ (home key) {| cap := cap s; entries := entries s; index := index s;
    held := {[+ e +]} ⊎ held s; recency := without e (recency s); log := log s |} e en R')
    as (o & Ho & Hv & _).
  - apply list_lookup_insert_eq. by eapply lookup_lt_Some.
  - done.
  - unfold Sharded_Value. rewrite Ho. cbn [mbind option_bind]. by rewrite Hv.
Qed.

(** *** Capacity *)

Lemma spec_step_cap s o :
  (∀ n, o ≠ OSetCapacity n) → cap (fst (spec_step s o)) = cap s.
Proof.
  intros Ho. destruct o as [n|e key hsh v chg del|key hsh|e|key hsh| |]; cbn [spec_step fst].
  - by destruct (Ho n).
  - edestruct (insert_grows s e) as (s1 & (_ & _ & Hs) & _ & Hc & _). by rewrite Hs, Hc.
  - apply lookup_shrinks.
  - apply release_shrinks.
  - apply erase_shrinks.
  - apply prune_shrinks.
  - done.
Qed.

Definition capacities ss (n : Z) : Prop := ∀ i s, shards ss !! i = Some s → cap s = n.

Lemma capacities_at ss n i o :
  (∀ m, o ≠ OSetCapacity m) → capacities ss n → capacities (fst (at_shard ss i o)) n.
Proof.
  intros Ho Hn. unfold at_shard. destruct (shards ss !! i) as [s|] eqn:Hi; [|done].
  pose proof (spec_step_cap s o Ho) as Hc. destruct (spec_step s o) as [s' r]. cbn [fst] in *.
  intros j t [(_ & <- & _)|[_ Ht]]%list_lookup_insert_Some; [|by eapply Hn].
  rewrite Hc. by eapply Hn.
Qed.

Lemma capacities_step ss n o : capacities ss n → capacities (fst (sspec_step ss o)) n.
Proof.
  intros Hn. destruct o as [e key v chg del|key|e|key|e| | |]; cbn [sspec_step];
    rewrite ?fst_inl; try by apply capacities_at.
  - destruct (owner ss e) as [[i s]|]; [|done]. rewrite fst_inl. by apply capacities_at.
  - done.
  - done.
  - intros i s (t & -> & Ht)%list_lookup_fmap_Some.
    destruct (prune_shrinks t) as (_ & _ & ->). by eapply Hn.
  - done.
Qed.

Lemma capacities_run os n : ∀ ss, capacities ss n → capacities (fst (sspec_run ss os)) n.
Proof.
  induction os as [|o os IH]; intros ss Hn; [done|]. cbn [sspec_run].
  pose proof (capacities_step ss n o Hn) as H1. destruct (sspec_step ss o) as [ss1 r].
  cbn [fst] in H1. pose proof (IH ss1 H1). by destruct (sspec_run ss1 os).
Qed.

Lemma per_shard_range capacity :
  0 <= capacity < 2 ^ 64 - 15 → capacity <= 16 * per_shard capacity < capacity + 16.
Proof.
  intros Hc. unfold per_shard. change kNumShards with 16. rewrite u64_small by lia. lia_div.
Qed.

Lemma per_shard_wraps capacity : 2 ^ 64 - 15 <= capacity < 2 ^ 64 → per_shard capacity = 0.
Proof.
  intros Hc. unfold per_shard. change kNumShards with 16.
  replace (u64 (capacity + (16 - 1))) with (capacity + 15 - 2 ^ 64); [lia_div|].
  unfold u64. apply (Z.mod_unique_pos _ _ 1); lia.
Qed.

(** C35: the capacity of a cache.  The shards together have at least the capacity
    asked for and less than 16 more, as long as the rounding does not wrap the
    64-bit addition; for the 15 largest capacities it does, every shard gets
    capacity 0, and (as for capacity 0) the cache is disabled: whatever has been
    inserted, every look-up returns null. *)
Theorem ShardedLRUCache_capacity capacity os key :
  0 <= capacity < 2 ^ 64 → all_sallowed (empty_shards capacity) (os ++ [SLookup key]) →
  (capacity < 2 ^ 64 - 15 → capacity <= 16 * per_shard capacity < capacity + 16) ∧
  (capacity = 0 ∨ 2 ^ 64 - 15 <= capacity →
    per_shard capacity = 0 ∧ ∃ c0 c rs c', NewLRUCache capacity = Some c0 ∧
      srun c0 os = Some (c, rs) ∧ Sharded_Lookup c key = Some (c', 0)).
Proof.
  intros Hcap Ha. split; [intros; apply per_shard_range; lia|]. intros Hz.
  assert (Hp : per_shard capacity = 0).
  { destruct Hz as [->|?]; [done|]. apply per_shard_wraps. lia. }
  split; [done|]. apply all_sallowed_app in Ha as [Ha [Hl _]].
  destruct (@NewLRUCache_rep V D capacity) as (c0 & Hn & R0).
  destruct (srun_rep os c0 _ R0 Ha) as (c & Hr & R).
  assert (HC : coherent (fst (sspec_run (empty_shards capacity) os)) (latest os)).
  { by eapply coherent_run; [..|apply coherent_empty]. }
  assert (HN : capacities (fst (sspec_run (empty_shards capacity) os)) 0).
  { apply capacities_run. intros i s [-> _]%lookup_replicate. done. }
  set (ss := fst (sspec_run (empty_shards capacity) os)) in *.
  destruct (Sharded_Lookup_rep c ss key R Hl) as (c' & r & HL & _ & Hres).
  exists c0, c, (snd (sspec_run (empty_shards capacity) os)), c'. split_and!; [done..|].
  destruct (sr_shard c ss key R) as (_ & s & _ & Hs & _).
  cbn [sspec_step] in Hres. unfold at_shard in Hres. rewrite Hs in Hres.
  cbn [spec_step] in Hres. unfold spec_lookup in Hres.
  destruct (HC _ _ Hs) as [H0 _]. rewrite H0, lookup_empty in Hres by by rewrite (HN _ _ Hs).
  cbn [fst snd] in Hres. by injection Hres as <-.
Qed.
End coherence.

Section examples.
#[local] Instance sallowed_dec {V D} (ss : sspec V D) o : Decision (sallowed ss o).
Proof.
  destruct o; cbn [sallowed]; unfold insertable, entry_address;
    try destruct (shards ss !! _); cbn [from_option]; apply _.
Defined.

#[local] Instance all_sallowed_dec {V D} (os : list (sop V D)) :
  ∀ ss, Decision (all_sallowed ss os).
Proof. induction os; intros ss; cbn [all_sallowed]; apply _. Defined.

Definition calls_example : list (sop nat unit) :=
  [SInsert 10 [x01] 100%nat 1 (); SInsert 11 [x02] 200%nat 1 (); SRelease 10;
   SLookup [x01]; SValue 10; SInsert 12 [x01] 101%nat 1 (); SValue 10; STotalCharge; SNewId;
   SRelease 10; SErase [x02]; SRelease 11; SNewId; SRelease 12; SPrune].

Example calls_example_runs :
  (c ← NewLRUCache 16; '(_, rs) ← srun c calls_example; Some rs) =
  Some [inl 10; inl 11; inl 0; inl 10; inr (Some 100%nat); inl 12; inr (Some 100%nat); inl 2;
        inl 1; inl 0; inl 0; inl 0; inl 2; inl 0; inl 0].
Proof. vm_compute. reflexivity. Qed.

Lemma ShardedLRUCache_refines_witness :
  all_sallowed (empty_shards 16) calls_example ∧
  let '(ss, rs) := sspec_run (empty_shards 16) calls_example in
  ∃ c0 c, NewLRUCache 16 = Some c0 ∧ srun c0 calls_example = Some (c, rs) ∧ sharded_rep c ss ∧
    (Forall (λ s, held s = ∅) (shards ss) →
     ∃ c', Sharded_destroy c = Some c' ∧ Forall (λ x, obj (mem x) = ∅) (shard_ c')).
Proof.
  assert (Ha : all_sallowed (empty_shards 16) calls_example)
    by (apply (bool_decide_unpack _); vm_compute; exact I).
  split; [exact Ha|]. exact (ShardedLRUCache_refines 16 calls_example Ha).
Defined.

Lemma ShardedLRUCache_coherent_witness :
  ∃ (c0 c : ShardedLRUCache nat unit) rs c' r,
    NewLRUCache 16 = Some c0 ∧ srun c0 (take 6 calls_example) = Some (c, rs) ∧
    Sharded_Lookup c [x01] = Some (c', r) ∧
    (r = 0 ∨ ∃ v, latest (take 6 calls_example) !! [x01] = Some (r, v) ∧
                  Sharded_Value c' r = Some v).
Proof.
  apply (ShardedLRUCache_coherent 16 (take 6 calls_example) [x01]).
  apply (bool_decide_unpack _); vm_compute; exact I.
Defined.

Lemma ShardedLRUCache_capacity_witness :
  ∃ (c0 c : ShardedLRUCache nat unit) rs c',
    NewLRUCache (2 ^ 64 - 1) = Some c0 ∧
    srun c0 [SInsert 10 [x01] 100%nat 1 ()] = Some (c, rs) ∧
    Sharded_Lookup c [x01] = Some (c', 0).
Proof.
  apply (ShardedLRUCache_capacity (2 ^ 64 - 1) [SInsert 10 [x01] 100%nat 1 ()] [x01]).
  - done.
  - apply (bool_decide_unpack _); vm_compute; exact I.
  - by right.
Defined.
End examples.
