(* ===== verification/Limiter.v ===== *)
(** [Limiter] of util/env_posix.cc: a counter of the resources left, shared by
    threads that take and give back resources through single atomic operations.
    The functions are the calls; the step relation interleaves their atomic
    halves. *)
From stdpp Require Import relations.
From S2P Require Import Prelude.
Local Open Scope Z_scope.

(** An atomic [int] wraps. *)
Definition i32 (z : Z) : Z := (z + 2 ^ 31) mod 2 ^ 32 - 2 ^ 31.

Record Limiter := { max_acquires_ : Z; acquires_allowed_ : Z }.

Definition Limiter_new (max_acquires : Z) : option Limiter :=
  ASSERT (0 <=? max_acquires);
  Some {| max_acquires_ := max_acquires; acquires_allowed_ := max_acquires |}.

(** [fetch_add] of 1 or -1: the old value and the limiter with the new one. *)
Definition fetch_add (l : Limiter) (d : Z) : Z * Limiter :=
  (acquires_allowed_ l,
   {| max_acquires_ := max_acquires_ l; acquires_allowed_ := i32 (acquires_allowed_ l + d) |}).

(** [Acquire] is [Acquire_first], followed by [Acquire_second] unless that
    returns true. *)
Definition Acquire_first (l : Limiter) : Limiter * bool :=
  let '(old_acquires_allowed, l) := fetch_add l (-1) in (l, 0 <? old_acquires_allowed).

Definition Acquire_second (l : Limiter) : option Limiter :=
  let '(pre_increment_acquires_allowed, l) := fetch_add l 1 in
  ASSERT (pre_increment_acquires_allowed <? max_acquires_ l); Some l.

Definition Acquire (l : Limiter) : option (Limiter * bool) :=
  let '(l, b) := Acquire_first l in
  if b then Some (l, true) else l ← Acquire_second l; Some (l, false).

Definition Release (l : Limiter) : option Limiter :=
  let '(old_acquires_allowed, l) := fetch_add l 1 in
  ASSERT (old_acquires_allowed <? max_acquires_ l); Some l.

(** ** Threads *)

(** A thread holds resources; it is between calls or in the middle of an
    [Acquire] that must give back what it took too much. *)
Inductive pc := Idle (held : nat) | Backing (held : nat).

Record LState := { lim : Limiter; pcs : list pc }.

(** One atomic operation of one thread; [None] is a failed assertion. *)
Inductive step (s : LState) : option LState → Prop :=
  | step_first i n l b :
      pcs s !! i = Some (Idle n) → Acquire_first (lim s) = (l, b) →
      step s (Some {| lim := l; pcs := <[i := if b then Idle (S n) else Backing n]> (pcs s) |})
  | step_second i n :
      pcs s !! i = Some (Backing n) →
      step s (l ← Acquire_second (lim s); Some {| lim := l; pcs := <[i := Idle n]> (pcs s) |})
  | step_release i n :
      pcs s !! i = Some (Idle (S n)) →
      step s (l ← Release (lim s); Some {| lim := l; pcs := <[i := Idle n]> (pcs s) |}).

Definition reachable (s s' : LState) : Prop := rtc (λ a b, step a (Some b)) s s'.

Definition start (max : Z) (threads : nat) : LState :=
  {| lim := {| max_acquires_ := max; acquires_allowed_ := max |};
     pcs := replicate threads (Idle 0) |}.

(** Resources in use, and threads that are backing off. *)
Definition held (p : pc) : Z := match p with Idle n | Backing n => Z.of_nat n end.
Definition backing (p : pc) : Z := match p with Idle _ => 0 | Backing _ => 1 end.
Fixpoint total (f : pc → Z) (l : list pc) : Z :=
  match l with [] => 0 | p :: l => f p + total f l end.
Definition in_use (s : LState) : Z := total held (pcs s).
Definition backing_off (s : LState) : Z := total backing (pcs s).

(** ** The invariant *)

Section proofs.
Lemma i32_small z : - 2 ^ 31 <= z < 2 ^ 31 → i32 z = z.
Proof. intros. unfold i32. rewrite Z.mod_small; lia. Qed.

Lemma total_update f l i p q :
  l !! i = Some p → total f (<[i := q]> l) = total f l - f p + f q.
Proof.
  revert i. induction l as [|x l IH]; intros [|i] Hi; simplify_eq/=; [lia|].
  rewrite (IH i Hi). lia.
Qed.

Lemma total_nonneg f l : (∀ p, 0 <= f p) → 0 <= total f l.
Proof. intros Hf. induction l as [|x l IH]; cbn; [lia|]. specialize (Hf x). lia. Qed.

Lemma total_ge f l i p : (∀ p, 0 <= f p) → l !! i = Some p → f p <= total f l.
Proof.
  intros Hf. revert i. induction l as [|x l IH]; intros [|i] Hi; simplify_eq/=.
  - pose proof (total_nonneg f l Hf). lia.
  - specialize (IH i Hi). specialize (Hf x). lia.
Qed.

Lemma total_backing_le l : total backing l <= Z.of_nat (length l).
Proof. induction l as [|[]]; cbn in *; lia. Qed.

Lemma held_nonneg p : 0 <= held p.
Proof. destruct p; cbn; lia. Qed.
Lemma backing_nonneg p : 0 <= backing p.
Proof. destruct p; cbn; lia. Qed.

(** What is left, in use or being given back is the maximum. *)
Record inv (max : Z) (threads : nat) (s : LState) : Prop := {
  inv_max : max_acquires_ (lim s) = max;
  inv_sum : acquires_allowed_ (lim s) = max - in_use s - backing_off s;
  inv_use : 0 <= in_use s <= max;
  inv_threads : length (pcs s) = threads
}.

Lemma inv_start max threads : 0 <= max → inv max threads (start max threads).
Proof.
  intros Hm. assert (H0 : ∀ f, f (Idle 0) = 0 → total f (replicate threads (Idle 0)) = 0).
  { intros f Hf. induction threads; cbn; lia. }
  split; unfold in_use, backing_off; cbn [pcs lim start max_acquires_ acquires_allowed_];
    rewrite ?H0 by done; [done|lia|lia|by rewrite length_replicate].
Qed.

Lemma inv_step max threads s o :
  0 <= max < 2 ^ 31 → Z.of_nat threads < 2 ^ 31 → inv max threads s → step s o →
  ∃ s', o = Some s' ∧ inv max threads s'.
Proof.
  intros Hm Ht [Hmax Hsum Huse Hlen] Hs. unfold in_use, backing_off in *.
  pose proof (total_backing_le (pcs s)). pose proof (total_nonneg backing (pcs s) backing_nonneg).
  destruct Hs as [i n l b Hi Hf|i n Hi|i n Hi].
  - unfold Acquire_first, fetch_add in Hf. injection Hf as <- <-.
    pose proof (total_ge backing _ _ _ backing_nonneg Hi).
    eexists. split; [done|].
    assert (Hroom : total backing (pcs s) + 1 <= Z.of_nat threads).
    { rewrite <- Hlen. rewrite <- (length_insert (pcs s) i (Backing n)).
      pose proof (total_backing_le (<[i := Backing n]> (pcs s))) as Hb.
      rewrite (total_update _ _ _ _ _ Hi) in Hb. cbn in Hb. lia. }
    split; unfold in_use, backing_off; cbn [lim pcs max_acquires_ acquires_allowed_];
      rewrite ?(total_update _ _ _ _ _ Hi), ?length_insert; try done.
    all: destruct (Z.ltb_spec 0 (acquires_allowed_ (lim s))); cbn; rewrite ?i32_small; lia.
  - pose proof (total_ge backing _ _ _ backing_nonneg Hi) as Hb. cbn in Hb.
    unfold Acquire_second, fetch_add. cbn [max_acquires_].
    rewrite (proj2 (Z.ltb_lt _ _)) by lia. cbn [mbind option_bind]. eexists. split; [done|].
    split; unfold in_use, backing_off; cbn [lim pcs max_acquires_ acquires_allowed_];
      rewrite ?(total_update _ _ _ _ _ Hi), ?length_insert; try done; cbn;
      rewrite ?i32_small; lia.
  - pose proof (total_ge held _ _ _ held_nonneg Hi) as Hb. cbn in Hb.
    unfold Release, fetch_add. cbn [max_acquires_].
    rewrite (proj2 (Z.ltb_lt _ _)) by lia. cbn [mbind option_bind]. eexists. split; [done|].
    split; unfold in_use, backing_off; cbn [lim pcs max_acquires_ acquires_allowed_];
      rewrite ?(total_update _ _ _ _ _ Hi), ?length_insert; try done; cbn;
      rewrite ?i32_small; lia.
Qed.

Lemma inv_reachable max threads s :
  0 <= max < 2 ^ 31 → Z.of_nat threads < 2 ^ 31 →
  reachable (start max threads) s → inv max threads s.
Proof.
  intros Hm Ht Hr. unfold reachable in Hr.
  assert (Hi : inv max threads (start max threads)) by (apply inv_start; lia).
  induction Hr as [|a b c Hab _ IH]; [done|]. apply IH.
  destruct (inv_step max threads a (Some b) Hm Ht Hi Hab) as (b' & [= <-] & ?). done.
Qed.
End proofs.

(** C20: [Limiter] under any interleaving of any number of threads.  The
    constructor accepts every maximum that is not negative.  Never more than
    [max] resources are in use; the counter never wraps and accounts exactly for
    what is in use and being given back; no assertion fails, provided only that
    threads release what they hold.  An [Acquire] that starts takes a resource
    exactly if one is left after those of the threads that are backing off; so
    when none is, it succeeds whenever fewer than [max] are in use. *)
Theorem Limiter_safe max threads s :
  0 <= max < 2 ^ 31 → Z.of_nat threads < 2 ^ 31 → reachable (start max threads) s →
  Limiter_new max = Some (lim (start max threads)) ∧
  0 <= in_use s <= max ∧
  acquires_allowed_ (lim s) = max - in_use s - backing_off s ∧
  (∀ o, step s o → ∃ s', o = Some s') ∧
  (∀ l b, Acquire_first (lim s) = (l, b) → (b = true ↔ in_use s + backing_off s < max)) ∧
  (backing_off s = 0 → ∃ l, Acquire (lim s) = Some (l, bool_decide (in_use s < max))).
Proof.
  intros Hm Ht Hr. pose proof (inv_reachable max threads s Hm Ht Hr) as Hi.
  pose proof Hi as [Hmax Hsum Huse Hlen]. split_and!; try lia.
  - unfold Limiter_new. by rewrite (proj2 (Z.leb_le _ _)) by lia.
  - intros o Ho. destruct (inv_step max threads s o Hm Ht Hi Ho) as (s' & -> & _). eauto.
  - intros l b E. unfold Acquire_first, fetch_add in E. injection E as _ <-.
    rewrite Z.ltb_lt. lia.
  - intros Hb. unfold Acquire, Acquire_first, Acquire_second, fetch_add.
    cbn [acquires_allowed_ max_acquires_]. case_bool_decide.
    + rewrite (proj2 (Z.ltb_lt _ _)) by lia. eauto.
    + rewrite (proj2 (Z.ltb_ge _ _)) by lia. rewrite i32_small, (proj2 (Z.ltb_lt _ _)) by lia.
      cbn [mbind option_bind]. eauto.
Qed.

(** A resource that is available can be refused.  With one resource in use
    and a second thread between the two halves of its failing [Acquire], the
    first thread gives the resource back; a third thread that asks now is
    refused although nothing is in use. *)
Theorem Limiter_refuses_spuriously :
  ∃ s l, reachable (start 1 3) s ∧ in_use s = 0 ∧ pcs s !! 2%nat = Some (Idle 0) ∧
    Acquire_first (lim s) = (l, false).
Proof.
  set (st v l := {| lim := {| max_acquires_ := 1; acquires_allowed_ := v |}; pcs := l |}).
  eexists (st 0 [Idle 0; Backing 0; Idle 0]), _. split_and!; [|done..].
  apply rtc_l with (st 0 [Idle 1; Idle 0; Idle 0]);
    [exact (step_first (start 1 3) 0 0 _ _ eq_refl eq_refl)|].
  apply rtc_l with (st (-1) [Idle 1; Backing 0; Idle 0]);
    [exact (step_first (st 0 [Idle 1; Idle 0; Idle 0]) 1 0 _ _ eq_refl eq_refl)|].
  apply rtc_l with (st 0 [Idle 0; Backing 0; Idle 0]);
    [exact (step_release (st (-1) [Idle 1; Backing 0; Idle 0]) 0 0 eq_refl)|].
  apply rtc_refl.
Qed.

Lemma Limiter_safe_witness :
  0 <= 1 < 2 ^ 31 ∧ 0 <= in_use (start 1 3) <= 1.
Proof.
  split; [lia|]. apply (Limiter_safe 1 3 (start 1 3)); [lia|lia|apply rtc_refl].
Defined.
