(* ===== verification/Posix.v ===== *)
(** The system calls util/env_posix.cc makes, as a type class over the state of
    the operating system, and what POSIX documents about the ones the theorems
    rely on. *)
From S2P Require Import Prelude Status.
Local Open Scope Z_scope.

(** What a call returns: its result, or -1 and [errno]. *)
Inductive sysres (A : Type) := Done (a : A) | Errno (e : Z).
Arguments Done {A} a.
Arguments Errno {A} e.

Inductive oflag := O_RDONLY | O_WRONLY | O_RDWR | O_CREAT | O_TRUNC | O_APPEND.
#[global] Instance oflag_eq_dec : EqDecision oflag.
Proof. solve_decision. Defined.

(** [W] is the state of the system.  A descriptor is a number; [sys_read] and
    [sys_pread] return the bytes they store, [sys_mmap] the mapped region.
    [interrupts w] is not visible to programs: it bounds how many calls signals
    will still interrupt. *)
Class Posix (W : Type) := {
  ENOENT : Z; EINTR : Z; EINVAL : Z;
  strerror : Z → bytes;
  interrupts : W → nat;
  sys_open : W → bytes → list oflag → W * sysres Z;
  sys_close : W → Z → W * sysres unit;
  sys_read : W → Z → Z → W * sysres bytes;
  sys_pread : W → Z → Z → Z → W * sysres bytes;
  sys_write : W → Z → bytes → W * sysres Z;
  sys_lseek_cur : W → Z → Z → W * sysres Z;
  sys_fsync : W → Z → W * sysres unit;
  sys_setlk : W → Z → bool → W * sysres unit;
  sys_stat_size : W → bytes → W * sysres Z;
  sys_mmap : W → Z → Z → W * sysres bytes;
  sys_munmap : W → bytes → W;
  sys_access : W → bytes → W * sysres unit;
  sys_unlink : W → bytes → W * sysres unit;
  sys_mkdir : W → bytes → W * sysres unit;
  sys_rmdir : W → bytes → W * sysres unit;
  sys_rename : W → bytes → bytes → W * sysres unit;
  sys_readdir : W → bytes → W * sysres (list bytes)
}.

Definition PosixError {W} `{Posix W} (context : bytes) (error_number : Z) : option Status :=
  if error_number =? ENOENT then NotFound context (strerror error_number)
  else IOError context (strerror error_number).

(** The messages of [strerror] are short. *)
Class StrerrorLaws W `{Posix W} := {
  strerror_short : ∀ e, (length (strerror e) <= 1024)%nat
}.

Definition name_fits (name : bytes) : Prop := Z.of_nat (length name) < 2 ^ 31.

Lemma PosixError_eq {W} `{StrerrorLaws W} context e :
  name_fits context →
  PosixError context e = Some (Some (state_of (if e =? ENOENT then kNotFound else kIOError)
                                              (full_msg context (strerror e)))).
Proof.
  intros Hn. unfold PosixError, NotFound, IOError. pose proof (strerror_short e).
  assert (msg_fits context (strerror e)) by (unfold msg_fits, name_fits in *; lia).
  destruct (e =? ENOENT); by apply Status_new_eq.
Qed.

Lemma PosixError_not_ok {W} `{StrerrorLaws W} context e :
  name_fits context → ∃ s, PosixError context e = Some s ∧ ok s = false.
Proof. intros Hn. rewrite PosixError_eq by done. eexists. by split. Qed.

(** ** What is documented about descriptors, reading and writing *)

(** The ghost state the documentation speaks of: the open descriptors, what has
    been written through a descriptor, and what of it is known to have reached
    the device. *)
Class WriteLaws W `{Posix W} (open_fds : W → gset Z) (written durable : W → Z → bytes) := {
  (** [open] returns a descriptor that is not in use. *)
  open_law : ∀ w name fl,
    let '(w', r) := sys_open w name fl in
    (∀ fd, fd ∈ open_fds w → written w' fd = written w fd) ∧
    match r with
    | Done fd => 0 <= fd ∧ fd ∉ open_fds w ∧ open_fds w' = {[fd]} ∪ open_fds w ∧ written w' fd = []
    | Errno _ => open_fds w' = open_fds w
    end;
  (** [close] gives the descriptor back, even when it reports an error. *)
  close_law : ∀ w fd,
    let '(w', _) := sys_close w fd in
    open_fds w' = open_fds w ∖ {[fd]} ∧ ∀ fd', written w' fd' = written w fd';
  (** [write] of at least one byte writes at least one, or fails and writes none;
      calls are interrupted finitely often. *)
  write_law : ∀ w fd d, d ≠ [] →
    let '(w', r) := sys_write w fd d in
    open_fds w' = open_fds w ∧ (interrupts w' <= interrupts w)%nat ∧
    match r with
    | Done k => 1 <= k <= Z.of_nat (length d) ∧
        written w' fd = written w fd ++ take (Z.to_nat k) d
    | Errno e => written w' fd = written w fd ∧
        (e = EINTR → (interrupts w' < interrupts w)%nat)
    end;
  fsync_law : ∀ w fd,
    let '(w', r) := sys_fsync w fd in
    open_fds w' = open_fds w ∧ (∀ fd', written w' fd' = written w fd') ∧
    match r with Done _ => durable w' fd = written w fd | Errno _ => True end
}.

(** A descriptor of a device that is healthy and has room: only signals get in
    the way of a write. *)
Class HealthyLaws W `{Posix W} (healthy : W → Z → Prop) := {
  healthy_write : ∀ w fd d, healthy w fd → d ≠ [] →
    let '(w', r) := sys_write w fd d in
    healthy w' fd ∧ match r with Done _ => True | Errno e => e = EINTR end;
  healthy_close : ∀ w fd, healthy w fd → ∃ w', sys_close w fd = (w', Done tt);
  healthy_fsync : ∀ w fd fd', healthy w fd' → healthy (fst (sys_fsync w fd)) fd';
  healthy_open : ∀ w name fl fd', healthy w fd' → healthy (fst (sys_open w name fl)) fd';
  healthy_close_other : ∀ w fd fd', fd ≠ fd' → healthy w fd' → healthy (fst (sys_close w fd)) fd'
}.

(** Reading: at most what was asked for; interrupted finitely often. *)
Class ReadLaws W `{Posix W} := {
  read_law : ∀ w fd n,
    let '(w', r) := sys_read w fd n in
    (interrupts w' <= interrupts w)%nat ∧
    match r with
    | Done d => Z.of_nat (length d) <= Z.max 0 n
    | Errno e => e = EINTR → (interrupts w' < interrupts w)%nat
    end
}.

(** A descriptor of a regular file nobody writes to, [unread] being what is left
    of it: a read delivers all that is asked for and left, a seek moves on, and
    past the end there is nothing. *)
Class RegularLaws W `{Posix W} (regular : W → Z → Prop) (unread : W → Z → bytes) := {
  regular_read : ∀ w fd n, regular w fd → 0 <= n < 2 ^ 62 →
    let '(w', r) := sys_read w fd n in
    regular w' fd ∧
    match r with
    | Done d => d = take (Z.to_nat n) (unread w fd) ∧ unread w' fd = drop (Z.to_nat n) (unread w fd)
    | Errno e => e = EINTR ∧ unread w' fd = unread w fd
    end;
  regular_seek : ∀ w fd n, regular w fd → 0 <= n < 2 ^ 62 →
    ∃ w' pos, sys_lseek_cur w fd n = (w', Done pos) ∧ regular w' fd ∧
      unread w' fd = drop (Z.to_nat n) (unread w fd)
}.

(** ** What is documented about the file system *)

(** What this process can observe: the inode each name stands for, the bytes of
    each regular file, the inode and the offset of each descriptor (no offset in
    append mode), the inodes the process has locked and how many regions it has
    mapped.  Several names may stand for one inode: hard links and other spellings
    of a path.  There are no symbolic links, which [rename] and [unlink] treat as
    files of their own. *)
Record View := {
  names : gmap bytes nat; inodes : gmap nat bytes; fds : gmap Z (nat * option nat);
  locks : gset nat; maps : nat
}.

Definition set_fds (v : View) (d : gmap Z (nat * option nat)) : View :=
  {| names := names v; inodes := inodes v; fds := d; locks := locks v; maps := maps v |}.
Definition set_inodes (v : View) (d : gmap nat bytes) : View :=
  {| names := names v; inodes := d; fds := fds v; locks := locks v; maps := maps v |}.
Definition set_names (v : View) (d : gmap bytes nat) : View :=
  {| names := d; inodes := inodes v; fds := fds v; locks := locks v; maps := maps v |}.
Definition set_locks (v : View) (d : gset nat) : View :=
  {| names := names v; inodes := inodes v; fds := fds v; locks := d; maps := maps v |}.
Definition set_maps (v : View) (n : nat) : View :=
  {| names := names v; inodes := inodes v; fds := fds v; locks := locks v; maps := n |}.

(** The file a name stands for; what a descriptor refers to; what is left to read. *)
Definition file (v : View) (name : bytes) : option bytes := i ← names v !! name; inodes v !! i.
Definition content (v : View) (fd : Z) : bytes :=
  match fds v !! fd with Some (i, _) => default [] (inodes v !! i) | None => [] end.
Definition position (v : View) (fd : Z) : nat :=
  match fds v !! fd with Some (_, Some o) => o | _ => 0 end.
Definition unread (v : View) (fd : Z) : bytes := drop (position v fd) (content v fd).

(** What creating, removing and renaming do to the names.  With a name its other
    spellings may come and go; the names of other files stay. *)
Definition names_added (nm : gmap bytes nat) (name : bytes) (i : nat) (nm' : gmap bytes nat) : Prop :=
  nm' !! name = Some i ∧ ∀ n j, nm !! n = Some j → nm' !! n = Some j.

Definition names_removed (nm : gmap bytes nat) (name : bytes) (nm' : gmap bytes nat) : Prop :=
  nm' !! name = None ∧ ∀ n j, nm !! n = Some j → nm !! name ≠ Some j → nm' !! n = Some j.

(** [rename] does nothing when both names stand for one file; otherwise [to] stands
    for the file, [from] for nothing, and if it is a regular file the names of the
    files that are not involved stay. *)
Definition renamed (v : View) (from to : bytes) (nm' : gmap bytes nat) : Prop :=
  ∃ i, names v !! from = Some i ∧ nm' !! to = Some i ∧
    (names v !! to = Some i → nm' = names v) ∧
    (names v !! to ≠ Some i → nm' !! from = None) ∧
    (i ∈ dom (inodes v) → ∀ n j, names v !! n = Some j → j ≠ i → names v !! to ≠ Some j →
       nm' !! n = Some j).

Definition open_view (v : View) (name : bytes) (fl : list oflag) (fd : Z) (v' : View) : Prop :=
  let opened i := <[fd := (i, if bool_decide (O_APPEND ∈ fl) then None else Some 0%nat)]> (fds v) in
  match names v !! name with
  | Some i =>
    v' = set_fds (if bool_decide (O_TRUNC ∈ fl) then set_inodes v (<[i := []]> (inodes v)) else v) (opened i)
  | None =>
    O_CREAT ∈ fl ∧ ∃ i nm, i ∉ dom (inodes v) ∧ names_added (names v) name i nm ∧
      v' = set_fds (set_inodes (set_names v nm) (<[i := []]> (inodes v))) (opened i)
  end.

(** Closing any descriptor of a file gives up the process's lock on the file. *)
Definition close_view (v : View) (fd : Z) : View :=
  let v' := set_fds v (delete fd (fds v)) in
  match fds v !! fd with Some (i, _) => set_locks v' (locks v ∖ {[i]}) | None => v' end.

(** Writing over and past the end, from a position or at the end. *)
Definition write_at (old new : bytes) (o : nat) : bytes :=
  take o (old ++ replicate (o - length old) x00) ++ new ++ drop (o + length new) old.
Definition write_view (v : View) (fd : Z) (d : bytes) : View :=
  match fds v !! fd with
  | Some (i, o) =>
    let old := default [] (inodes v !! i) in
    set_fds (set_inodes v (<[i := write_at old d (default (length old) o)]> (inodes v)))
            (<[fd := (i, (λ o, o + length d)%nat <$> o)]> (fds v))
  | None => v
  end.

Definition seek_view (v : View) (fd : Z) (o : nat) : View :=
  match fds v !! fd with
  | Some (i, _) => set_fds v (<[fd := (i, Some o)]> (fds v))
  | None => v
  end.

Lemma unread_seek v fd o :
  fd ∈ dom (fds v) →
  fd ∈ dom (fds (seek_view v fd o)) ∧ unread (seek_view v fd o) fd = drop o (content v fd).
Proof.
  intros [[i p] E]%elem_of_dom. unfold seek_view, unread, content, position.
  rewrite E. cbn. rewrite lookup_insert_eq. split; [|done].
  apply elem_of_dom_2 in E. rewrite dom_insert_L. set_solver.
Qed.

(** [view] is the [View] of a system, as far as nobody else interferes.  [read] and
    [pread] may transfer less than is asked for and there, but not nothing. *)
Class FsLaws W `{Posix W} (view : W → View) := {
  view_open : ∀ w name fl,
    let '(w', r) := sys_open w name fl in
    match r with
    | Done fd => 0 <= fd ∧ fds (view w) !! fd = None ∧ open_view (view w) name fl fd (view w')
    | Errno _ => view w' = view w
    end;
  view_close : ∀ w fd, view (fst (sys_close w fd)) = close_view (view w) fd;
  view_read : ∀ w fd n,
    let '(w', r) := sys_read w fd n in
    match r with
    | Done d => fd ∈ dom (fds (view w)) ∧
        view w' = seek_view (view w) fd (position (view w) fd + length d) ∧
        d `prefix_of` unread (view w) fd ∧ (d = [] → 0 < n → unread (view w) fd = [])
    | Errno _ => view w' = view w
    end;
  view_pread : ∀ w fd n off,
    let '(w', r) := sys_pread w fd n off in
    view w' = view w ∧
    match r with
    | Done d => let rest := drop (Z.to_nat off) (content (view w) fd) in
        0 <= off ∧ d `prefix_of` take (Z.to_nat n) rest ∧ (d = [] → 0 < n → rest = [])
    | Errno _ => True
    end;
  view_write : ∀ w fd d, d ≠ [] →
    let '(w', r) := sys_write w fd d in
    match r with
    | Done k => fd ∈ dom (fds (view w)) ∧ view w' = write_view (view w) fd (take (Z.to_nat k) d)
    | Errno _ => view w' = view w
    end;
  view_fsync : ∀ w fd, view (fst (sys_fsync w fd)) = view w;
  view_setlk : ∀ w fd lock,
    let '(w', r) := sys_setlk w fd lock in
    match r with
    | Done _ => ∃ i o, fds (view w) !! fd = Some (i, o) ∧
        view w' = set_locks (view w) (if lock then {[i]} ∪ locks (view w) else locks (view w) ∖ {[i]})
    | Errno _ => view w' = view w
    end;
  view_stat : ∀ w name,
    let '(w', r) := sys_stat_size w name in
    view w' = view w ∧
    match r with
    | Done n => 0 <= n < 2 ^ 63 ∧ ∀ d, file (view w) name = Some d → n = Z.of_nat (length d)
    | Errno _ => True
    end;
  view_mmap : ∀ w len fd,
    let '(w', r) := sys_mmap w len fd in
    match r with
    | Done m => 0 < len ∧ view w' = set_maps (view w) (S (maps (view w))) ∧ Z.of_nat (length m) = len ∧
        take (length (content (view w) fd)) m = take (Z.to_nat len) (content (view w) fd)
    | Errno _ => view w' = view w
    end;
  view_munmap : ∀ w m, view (sys_munmap w m) = set_maps (view w) (pred (maps (view w)));
  view_access : ∀ w name,
    let '(w', r) := sys_access w name in
    view w' = view w ∧
    match r with
    | Done _ => is_Some (names (view w) !! name)
    | Errno e => e = ENOENT → names (view w) !! name = None
    end;
  view_unlink : ∀ w name,
    let '(w', r) := sys_unlink w name in
    match r with
    | Done _ => ∃ nm, names_removed (names (view w)) name nm ∧ view w' = set_names (view w) nm
    | Errno _ => view w' = view w
    end;
  view_rename : ∀ w from to,
    let '(w', r) := sys_rename w from to in
    match r with
    | Done _ => ∃ nm, renamed (view w) from to nm ∧ view w' = set_names (view w) nm
    | Errno _ => view w' = view w
    end
}.
