(* ===== verification/SimOS.v ===== *)
(** A small operating system in memory: one process, a disk of named files, and
    the misbehaviour the code must cope with: signals that interrupt calls, short
    writes and short reads at a position, a full device, a full descriptor table
    and locks of other processes.  It meets every law of [Posix], so theorems
    about all systems have concrete instances. *)
From S2P Require Import Prelude Status Posix.
Local Open Scope Z_scope.

(** [outs] and [synced] remember what went through each descriptor and what of it
    is durable; [others] are the inodes other processes have locked; [signals]
    calls will be interrupted; a write and a read at a position take at most
    [S chunk] bytes, and a write what [room] is left. *)
Record Sim := {
  sview : View; outs : gmap Z bytes; synced : gmap Z bytes; others : gset nat;
  signals : nat; chunk : nat; room : option nat; max_fds : nat
}.

Definition with_view (w : Sim) (v : View) : Sim :=
  {| sview := v; outs := outs w; synced := synced w; others := others w;
     signals := signals w; chunk := chunk w; room := room w; max_fds := max_fds w |}.
Definition with_outs (w : Sim) (o s : gmap Z bytes) : Sim :=
  {| sview := sview w; outs := o; synced := s; others := others w;
     signals := signals w; chunk := chunk w; room := room w; max_fds := max_fds w |}.
Definition with_room (w : Sim) (r : option nat) : Sim :=
  {| sview := sview w; outs := outs w; synced := synced w; others := others w;
     signals := signals w; chunk := chunk w; room := r; max_fds := max_fds w |}.
Definition with_signals (w : Sim) (n : nat) : Sim :=
  {| sview := sview w; outs := outs w; synced := synced w; others := others w;
     signals := n; chunk := chunk w; room := room w; max_fds := max_fds w |}.

Definition sim_fds (w : Sim) : gset Z := dom (fds (sview w)).
Definition sim_written (w : Sim) (fd : Z) : bytes := default [] (outs w !! fd).
Definition sim_durable (w : Sim) (fd : Z) : bytes := default [] (synced w !! fd).

(** One more than the largest descriptor in use. *)
Definition free_fd (s : gset Z) : Z := 1 + foldr Z.max (-1) (elements s).

Lemma free_fd_fresh s : 0 <= free_fd s ∧ free_fd s ∉ s.
Proof.
  unfold free_fd. assert (H : ∀ l : list Z, -1 <= foldr Z.max (-1) l ∧
    ∀ x, x ∈ l → x <= foldr Z.max (-1) l).
  { induction l as [|y l [IH1 IH2]]; simpl; [split; [lia|]; intros x Hx; set_solver|].
    split; [lia|]. intros x [->|Hx%IH2]%elem_of_cons; lia. }
  destruct (H (elements s)) as [H1 H2]. split; [lia|].
  intros Hin%elem_of_elements%H2. lia.
Qed.

Definition free_inode (s : gset nat) : nat := S (foldr Nat.max 0%nat (elements s)).

Lemma free_inode_fresh s : free_inode s ∉ s.
Proof.
  unfold free_inode. assert (H : ∀ l x, x ∈ l → (x <= foldr Nat.max 0 l)%nat).
  { induction l as [|y l IH]; simpl; [set_solver|]. intros x [->|Hx%IH]%elem_of_cons; lia. }
  intros Hin%elem_of_elements%H. lia.
Qed.

Definition sim_open (w : Sim) (name : bytes) (fl : list oflag) : Sim * sysres Z :=
  let v := sview w in
  if bool_decide (max_fds w <= size (fds v))%nat then (w, Errno 24)
  else
    let fd := free_fd (dom (fds v)) in
    let opened i := <[fd := (i, if bool_decide (O_APPEND ∈ fl) then None else Some 0%nat)]> (fds v) in
    let w := with_outs w (<[fd := []]> (outs w)) (synced w) in
    match names v !! name with
    | Some i =>
      (with_view w (set_fds (if bool_decide (O_TRUNC ∈ fl) then set_inodes v (<[i := []]> (inodes v)) else v)
                            (opened i)), Done fd)
    | None =>
      if bool_decide (O_CREAT ∈ fl) then
        let i := free_inode (dom (inodes v)) in
        (with_view w (set_fds (set_inodes (set_names v (<[name := i]> (names v))) (<[i := []]> (inodes v)))
                              (opened i)), Done fd)
      else (with_outs w (outs w) (synced w), Errno 2)
    end.

Definition sim_close (w : Sim) (fd : Z) : Sim * sysres unit :=
  (with_view w (close_view (sview w) fd),
   match fds (sview w) !! fd with Some _ => Done tt | None => Errno 9 end).

Definition interrupted {A} (w : Sim) (k : Sim * sysres A) : Sim * sysres A :=
  match signals w with
  | O => k
  | S n => (with_signals w n, Errno 4)
  end.

Definition sim_read (w : Sim) (fd n : Z) : Sim * sysres bytes :=
  interrupted w
    match fds (sview w) !! fd with
    | None => (w, Errno 9)
    | Some _ =>
      let d := take (Z.to_nat n) (Posix.unread (sview w) fd) in
      (with_view w (seek_view (sview w) fd (position (sview w) fd + length d)), Done d)
    end.

Definition sim_pread (w : Sim) (fd n off : Z) : Sim * sysres bytes :=
  match fds (sview w) !! fd with
  | None => (w, Errno 9)
  | Some _ =>
    if off <? 0 then (w, Errno 22)
    else (w, Done (take (Z.to_nat n `min` S (chunk w)) (drop (Z.to_nat off) (content (sview w) fd))))
  end.

Definition sim_write (w : Sim) (fd : Z) (d : bytes) : Sim * sysres Z :=
  interrupted w
    match fds (sview w) !! fd with
    | None => (w, Errno 9)
    | Some _ =>
      let space := match room w with Some r => r | None => length d end in
      let k := (S (chunk w) `min` length d `min` space)%nat in
      if bool_decide (k = 0%nat) then (w, Errno 28)
      else
        (with_room
           (with_outs (with_view w (write_view (sview w) fd (take k d)))
                      (<[fd := sim_written w fd ++ take k d]> (outs w)) (synced w))
           ((λ r, r - k)%nat <$> room w),
         Done (Z.of_nat k))
    end.

Definition sim_lseek_cur (w : Sim) (fd n : Z) : Sim * sysres Z :=
  match fds (sview w) !! fd with
  | None => (w, Errno 9)
  | Some _ =>
    let pos := Z.of_nat (position (sview w) fd) + n in
    if pos <? 0 then (w, Errno 22)
    else (with_view w (seek_view (sview w) fd (Z.to_nat pos)), Done pos)
  end.

Definition sim_fsync (w : Sim) (fd : Z) : Sim * sysres unit :=
  match fds (sview w) !! fd with
  | None => (w, Errno 9)
  | Some _ => (with_outs w (outs w) (<[fd := sim_written w fd]> (synced w)), Done tt)
  end.

Definition sim_setlk (w : Sim) (fd : Z) (lock : bool) : Sim * sysres unit :=
  let v := sview w in
  match fds v !! fd with
  | None => (w, Errno 9)
  | Some (i, _) =>
    if lock then
      if bool_decide (i ∈ others w) then (w, Errno 11)
      else (with_view w (set_locks v ({[i]} ∪ locks v)), Done tt)
    else (with_view w (set_locks v (locks v ∖ {[i]})), Done tt)
  end.

Definition sim_stat_size (w : Sim) (name : bytes) : Sim * sysres Z :=
  match file (sview w) name with
  | Some d => if Z.of_nat (length d) <? 2 ^ 63 then (w, Done (Z.of_nat (length d))) else (w, Errno 75)
  | None => (w, Errno 2)
  end.

Definition sim_mmap (w : Sim) (len fd : Z) : Sim * sysres bytes :=
  let v := sview w in
  match fds v !! fd with
  | None => (w, Errno 9)
  | Some _ =>
    if len <=? 0 then (w, Errno 22)
    else
      let n := Z.to_nat len in
      (with_view w (set_maps v (S (maps v))),
       Done (take n (content v fd) ++ replicate (n - length (content v fd)) x00))
  end.

Definition sim_rename (w : Sim) (from to : bytes) : Sim * sysres unit :=
  let v := sview w in
  match names v !! from with
  | Some i =>
    (with_view w (if decide (names v !! to = Some i) then v
                  else set_names v (<[to := i]> (delete from (names v)))), Done tt)
  | None => (w, Errno 2)
  end.

Definition sim_remove (w : Sim) (name : bytes) : Sim * sysres unit :=
  let v := sview w in
  match names v !! name with
  | Some _ => (with_view w (set_names v (delete name (names v))), Done tt)
  | None => (w, Errno 2)
  end.

#[export] Instance Sim_posix : Posix Sim := {
  ENOENT := 2; EINTR := 4; EINVAL := 22;
  strerror e := if e =? 2 then str "No such file or directory" else str "Error";
  interrupts := signals;
  sys_open := sim_open;
  sys_close := sim_close;
  sys_read := sim_read;
  sys_pread := sim_pread;
  sys_write := sim_write;
  sys_lseek_cur := sim_lseek_cur;
  sys_fsync := sim_fsync;
  sys_setlk := sim_setlk;
  sys_stat_size := sim_stat_size;
  sys_mmap := sim_mmap;
  sys_munmap w _ := with_view w (set_maps (sview w) (pred (maps (sview w))));
  sys_access w name := (w, if bool_decide (is_Some (names (sview w) !! name)) then Done tt else Errno 2);
  sys_unlink := sim_remove;
  sys_mkdir w name :=
    let v := sview w in
    match names v !! name with
    | Some _ => (w, Errno 17)
    | None => (with_view w (set_names v (<[name := free_inode (dom (inodes v))]> (names v))), Done tt)
    end;
  sys_rmdir := sim_remove;
  sys_rename := sim_rename;
  sys_readdir w name :=
    if bool_decide (is_Some (names (sview w) !! name))
    then (w, Done (elements (dom (names (sview w))))) else (w, Errno 2)
}.

(** ** The laws *)

#[export] Instance Sim_strerror : StrerrorLaws Sim.
Proof. split. intros e. cbn. destruct (e =? 2); vm_compute; lia. Qed.

#[export] Instance Sim_fs_laws : FsLaws Sim sview.
Proof.
  split.
  - intros w name fl. cbn. unfold sim_open, open_view. case_bool_decide; [done|].
    destruct (free_fd_fresh (dom (fds (sview w)))) as [Hp Hf%not_elem_of_dom].
    destruct (names (sview w) !! name) as [i|] eqn:E; [done|].
    case_bool_decide; [|done]. split_and!; [done..|].
    exists (free_inode (dom (inodes (sview w)))), (<[name := free_inode (dom (inodes (sview w)))]> (names (sview w))).
    split; [apply free_inode_fresh|]. split; [|done]. split; [by rewrite lookup_insert_eq|].
    intros n j Hn. rewrite lookup_insert_ne; [done|congruence].
  - done.
  - intros w fd n. cbn. unfold sim_read, interrupted. destruct (signals w); [|done].
    destruct (fds (sview w) !! fd) as [p|] eqn:E; [|done]. set (u := Posix.unread (sview w) fd).
    split_and!; [by apply elem_of_dom_2 in E|done| |].
    + exists (drop (Z.to_nat n) u). by rewrite take_drop.
    + intros Hu Hn. destruct u; [done|]. apply (f_equal length) in Hu.
      rewrite length_take in Hu. cbn in Hu. lia.
  - intros w fd n off. cbn. unfold sim_pread. destruct (fds (sview w) !! fd); [|done].
    destruct (Z.ltb_spec off 0); [done|]. cbn zeta. set (u := drop _ _). split_and!; [done|done| |].
    + rewrite Nat.min_comm, <- take_take. exists (drop (S (chunk w)) (take (Z.to_nat n) u)).
      by rewrite take_drop.
    + intros Hu Hn. destruct u; [done|]. apply (f_equal length) in Hu.
      rewrite length_take in Hu. cbn in Hu. lia.
  - intros w fd d Hd. cbn. unfold sim_write, interrupted. destruct (signals w); [|done].
    destruct (fds (sview w) !! fd) as [p|] eqn:E; [|done]. case_bool_decide; [done|].
    split; [by apply elem_of_dom_2 in E|]. cbn. by rewrite Nat2Z.id.
  - intros w fd. cbn. unfold sim_fsync. by destruct (fds (sview w) !! fd).
  - intros w fd lock. cbn. unfold sim_setlk. destruct (fds (sview w) !! fd) as [[i o]|]; [|done].
    destruct lock; [case_bool_decide; [done|]|]; by exists i, o.
  - intros w name. cbn. unfold sim_stat_size. destruct (file (sview w) name) as [d|]; [|done].
    destruct (Z.ltb_spec (Z.of_nat (length d)) (2 ^ 63)); [|done].
    split; [done|]. split; [lia|]. by intros d' [= ->].
  - intros w len fd. cbn. unfold sim_mmap. destruct (fds (sview w) !! fd); [|done].
    destruct (Z.leb_spec len 0); [done|]. split_and!; [done|done| |].
    + rewrite length_app, length_take, length_replicate. lia.
    + set (c := content (sview w) fd).
      destruct (decide (Z.to_nat len <= length c)%nat).
      * replace (Z.to_nat len - length c)%nat with 0%nat by lia. rewrite app_nil_r.
        rewrite take_take. by rewrite Nat.min_r by lia.
      * rewrite !(firstn_all2 (n := Z.to_nat len)) by lia. by rewrite take_app_length.
  - done.
  - intros w name. cbn. case_bool_decide as Hn; [done|]. split; [done|]. intros _.
    by apply eq_None_not_Some.
  - intros w name. cbn. unfold sim_remove. destruct (names (sview w) !! name) as [i|] eqn:E; [|done].
    exists (delete name (names (sview w))). split; [|done]. split; [by rewrite lookup_delete_eq|].
    intros n j Hn Hj. rewrite lookup_delete_ne; [done|]. congruence.
  - intros w from to. cbn. unfold sim_rename. destruct (names (sview w) !! from) as [i|] eqn:Hi; [|done].
    exists (if decide (names (sview w) !! to = Some i) then names (sview w)
            else <[to := i]> (delete from (names (sview w)))).
    split; [|cbn; case_decide; [by destruct (sview w)|done]]. exists i. case_decide as Ht.
    { by split_and!. }
    assert (Hne : from ≠ to) by congruence.
    split_and!; [done|by rewrite lookup_insert_eq|done| |].
    + intros _. by rewrite lookup_insert_ne, lookup_delete_eq.
    + intros _ n j Hn Hj Hto. rewrite lookup_insert_ne by congruence.
      by rewrite lookup_delete_ne by congruence.
Qed.

#[export] Instance Sim_write_laws : WriteLaws Sim sim_fds sim_written sim_durable.
Proof.
  split.
  - intros w name fl. cbn. unfold sim_open, sim_fds, sim_written. case_bool_decide; [done|].
    destruct (free_fd_fresh (dom (fds (sview w)))) as [Hp Hf]. set (fd := free_fd _) in *.
    assert (Hout : ∀ fd', fd' ∈ dom (fds (sview w)) →
      default [] (<[fd:=[]]> (outs w) !! fd') = default [] (outs w !! fd')).
    { intros fd' Hfd. by rewrite lookup_insert_ne by set_solver. }
    destruct (names (sview w) !! name) as [i|]; [|case_bool_decide]; cbn; split_and!;
      rewrite ?lookup_insert_eq; auto; by rewrite dom_insert_L.
  - intros w fd. cbn. unfold sim_close, sim_fds, sim_written, close_view.
    destruct (fds (sview w) !! fd) as [[i o]|]; cbn; by rewrite dom_delete_L.
  - intros w fd d Hd. cbn. unfold sim_write, interrupted, sim_fds, sim_written.
    destruct (signals w) as [|n] eqn:Es; [|cbn; split_and!; [done|lia|done|intros _; lia]].
    destruct (fds (sview w) !! fd) as [[i o]|] eqn:E; [|cbn; split_and!; try done; lia].
    match goal with |- context [bool_decide (?x = 0%nat)] =>
      assert (Hx : (x <= length d)%nat) by lia; revert Hx; generalize x end. intros k Hx.
    case_bool_decide as Hk; [cbn; split_and!; try done; lia|].
    cbn. unfold write_view. rewrite E. cbn. rewrite lookup_insert_eq. cbn. rewrite Nat2Z.id.
    split_and!; try lia; try done. rewrite dom_insert_L. apply elem_of_dom_2 in E. set_solver.
  - intros w fd. cbn. unfold sim_fsync, sim_fds, sim_written, sim_durable.
    destruct (fds (sview w) !! fd); cbn; [|done]. by rewrite lookup_insert_eq.
Qed.

Definition sim_healthy (w : Sim) (fd : Z) : Prop := room w = None ∧ fd ∈ sim_fds w.

#[export] Instance Sim_healthy_laws : HealthyLaws Sim sim_healthy.
Proof.
  unfold sim_healthy, sim_fds. split.
  - intros w fd d [Hr Hfd] Hd. cbn. unfold sim_write, interrupted.
    destruct (signals w) as [|n]; [|done].
    destruct (fds (sview w) !! fd) as [[i o]|] eqn:E; [|by apply not_elem_of_dom in E].
    rewrite Hr. case_bool_decide as Hk.
    { destruct d; [done|]. cbn [length] in Hk. lia. }
    cbn. unfold write_view. rewrite E. cbn. split; [|done]. split; [done|].
    rewrite dom_insert_L. set_solver.
  - intros w fd [_ Hfd]. apply elem_of_dom in Hfd as [d Hd]. cbn. unfold sim_close.
    rewrite Hd. eauto.
  - intros w fd fd' [Hr Hfd]. cbn. unfold sim_fsync. by destruct (fds (sview w) !! fd).
  - intros w name fl fd' [Hr Hfd]. cbn. unfold sim_open.
    repeat case_match; repeat case_bool_decide; cbn; split; try done;
      rewrite dom_insert_L; set_solver.
  - intros w fd fd' Hne [Hr Hfd]. cbn. unfold sim_close, close_view. cbn.
    destruct (fds (sview w) !! fd) as [[i o]|]; cbn; split; try done; rewrite dom_delete_L;
      set_solver.
Qed.

#[export] Instance Sim_read_laws : ReadLaws Sim.
Proof.
  split. intros w fd n. cbn. unfold sim_read, interrupted.
  destruct (signals w) as [|k] eqn:Es; [|cbn; split; [lia|intros _; lia]].
  destruct (fds (sview w) !! fd) as [d|]; cbn; rewrite Es; split; try done.
  rewrite length_take. lia.
Qed.

Definition sim_regular (w : Sim) (fd : Z) : Prop := fd ∈ sim_fds w.
Definition sim_unread (w : Sim) (fd : Z) : bytes := Posix.unread (sview w) fd.

#[export] Instance Sim_regular_laws : RegularLaws Sim sim_regular sim_unread.
Proof.
  unfold sim_regular, sim_fds, sim_unread.
  split; intros w fd n Hfd Hn; apply elem_of_dom in Hfd as Hd; destruct Hd as [d Hd]; cbn.
  - unfold sim_read, interrupted. destruct (signals w) as [|k]; [|cbn; done].
    rewrite Hd. cbn. set (t := take _ _).
    destruct (unread_seek (sview w) fd (position (sview w) fd + length t) Hfd) as [H1 ->].
    split_and!; [done|done|]. unfold t, Posix.unread. rewrite length_take, length_drop, drop_drop.
    destruct (decide (Z.to_nat n <= length (content (sview w) fd) - position (sview w) fd)%nat).
    { do 2 f_equal. lia. }
    rewrite !drop_ge by lia. done.
  - unfold sim_lseek_cur. rewrite Hd, (proj2 (Z.ltb_ge _ _)) by lia.
    eexists _, _. split; [done|]. cbn.
    destruct (unread_seek (sview w) fd (Z.to_nat (Z.of_nat (position (sview w) fd) + n)) Hfd) as [H1 ->].
    split; [done|]. unfold Posix.unread. rewrite drop_drop. f_equal. lia.
Qed.
