(* ===== verification/PosixFile.v ===== *)
(** Two files of util/env_posix.cc: [PosixWritableFile], with its buffer, and
    [PosixSequentialFile].

    A file object is used together with the state of the system it runs on. *)
From stdpp Require Import relations.
From S2P Require Import Prelude Slice Coding Status File Posix SimOS.
Local Open Scope Z_scope.

(** ** [std::string] searches *)

Fixpoint find (c : byte) (s : bytes) (pos : nat) : option nat :=
  match s with
  | [] => None
  | b :: s =>
    match pos with
    | O => if decide (b = c) then Some O else S <$> find c s O
    | S pos => S <$> find c s pos
    end
  end.

Fixpoint rfind (c : byte) (s : bytes) : option nat :=
  match s with
  | [] => None
  | b :: s =>
    match rfind c s with
    | Some i => Some (S i)
    | None => if decide (b = c) then Some O else None
    end
  end.

Definition slash : byte := byte_of 47.

Definition Dirname (filename : bytes) : option bytes :=
  match rfind slash filename with
  | None => Some (str ".")
  | Some separator_pos =>
    ASSERT (bool_decide (find slash filename (separator_pos + 1) = None));
    Some (take separator_pos filename)
  end.

Definition Basename (filename : bytes) : option bytes :=
  match rfind slash filename with
  | None => Some filename
  | Some separator_pos =>
    ASSERT (bool_decide (find slash filename (separator_pos + 1) = None));
    load_range filename (separator_pos + 1) (length filename - separator_pos - 1)
  end.

Definition IsManifest (filename : bytes) : option bool :=
  base ← Basename filename; Some (starts_with base (str "MANIFEST")).

(** ** [PosixWritableFile] *)

Definition kWritableFileBufferSize : Z := 65536.

(** [buf_] is the whole array; its first [pos_] bytes are to be written. *)
Record PosixWritableFile := {
  buf_ : bytes; pos_ : Z; fd_ : Z; is_manifest_ : bool; filename_ : bytes; dirname_ : bytes
}.

Definition set_buf (f : PosixWritableFile) (buf : bytes) (pos : Z) : PosixWritableFile :=
  {| buf_ := buf; pos_ := pos; fd_ := fd_ f; is_manifest_ := is_manifest_ f;
     filename_ := filename_ f; dirname_ := dirname_ f |}.
Definition set_fd (f : PosixWritableFile) (fd : Z) : PosixWritableFile :=
  {| buf_ := buf_ f; pos_ := pos_ f; fd_ := fd; is_manifest_ := is_manifest_ f;
     filename_ := filename_ f; dirname_ := dirname_ f |}.

Definition PosixWritableFile_new (filename : bytes) (fd : Z) : option PosixWritableFile :=
  manifest ← IsManifest filename;
  dirname ← Dirname filename;
  Some {| buf_ := char_array (Z.to_nat kWritableFileBufferSize); pos_ := 0; fd_ := fd;
          is_manifest_ := manifest; filename_ := filename; dirname_ := dirname |}.

Section writable.
Context {W : Type} `{Posix W}.

Fixpoint WriteUnbuffered_loop (fuel : nat) (w : W) (f : PosixWritableFile) (data : bytes)
    : option (W * Status) :=
  match fuel with
  | O => None
  | S n =>
    match data with
    | [] => Some (w, OK)
    | _ =>
      match sys_write w (fd_ f) data with
      | (w, Done k) => WriteUnbuffered_loop n w f (drop (Z.to_nat k) data)
      | (w, Errno e) =>
        if e =? EINTR then WriteUnbuffered_loop n w f data
        else s ← PosixError (filename_ f) e; Some (w, s)
      end
    end
  end.

(** Every call writes at least a byte, fails, or is interrupted. *)
Definition WriteUnbuffered (w : W) (f : PosixWritableFile) (data : bytes) : option (W * Status) :=
  WriteUnbuffered_loop (S (interrupts w + length data)) w f data.

Definition FlushBuffer (w : W) (f : PosixWritableFile)
    : option (W * PosixWritableFile * Status) :=
  data ← load_range (buf_ f) 0 (Z.to_nat (pos_ f));
  '(w, status) ← WriteUnbuffered w f data;
  Some (w, set_buf f (buf_ f) 0, status).

Definition Writable_Append (w : W) (f : PosixWritableFile) (data : bytes)
    : option (W * PosixWritableFile * Status) :=
  let write_size := Z.of_nat (length data) in
  let copy_size := Z.min write_size (u64 (kWritableFileBufferSize - pos_ f)) in
  let n := Z.to_nat copy_size in
  buf ← memcpy (buf_ f) (Z.to_nat (pos_ f)) (take n data);
  let f := set_buf f buf (pos_ f + copy_size) in
  let data := drop n data in
  let write_size := write_size - copy_size in
  if write_size =? 0 then Some (w, f, OK)
  else
    '(w, f, status) ← FlushBuffer w f;
    if negb (ok status) then Some (w, f, status)
    else if write_size <? kWritableFileBufferSize then
      buf ← memcpy (buf_ f) 0 data; Some (w, set_buf f buf write_size, OK)
    else '(w, status) ← WriteUnbuffered w f data; Some (w, f, status).

Definition Writable_Close (w : W) (f : PosixWritableFile)
    : option (W * PosixWritableFile * Status) :=
  '(w, f, status) ← FlushBuffer w f;
  let '(w, close_result) := sys_close w (fd_ f) in
  status ← match close_result with
           | Errno e => if ok status then PosixError (filename_ f) e else Some status
           | Done _ => Some status
           end;
  Some (w, set_fd f (-1), status).

Definition Writable_Flush (w : W) (f : PosixWritableFile)
    : option (W * PosixWritableFile * Status) := FlushBuffer w f.

Definition SyncFd (w : W) (fd : Z) (fd_path : bytes) : option (W * Status) :=
  match sys_fsync w fd with
  | (w, Done _) => Some (w, OK)
  | (w, Errno e) => s ← PosixError fd_path e; Some (w, s)
  end.

Definition SyncDirIfManifest (w : W) (f : PosixWritableFile) : option (W * Status) :=
  if negb (is_manifest_ f) then Some (w, OK)
  else
    match sys_open w (dirname_ f) [O_RDONLY] with
    | (w, Errno e) => s ← PosixError (dirname_ f) e; Some (w, s)
    | (w, Done fd) =>
      '(w, status) ← SyncFd w fd (dirname_ f);
      let '(w, _) := sys_close w fd in Some (w, status)
    end.

Definition Writable_Sync (w : W) (f : PosixWritableFile)
    : option (W * PosixWritableFile * Status) :=
  '(w, status) ← SyncDirIfManifest w f;
  if negb (ok status) then Some (w, f, status)
  else
    '(w, f, status) ← FlushBuffer w f;
    if negb (ok status) then Some (w, f, status)
    else '(w, status) ← SyncFd w (fd_ f) (filename_ f); Some (w, f, status).

(** The destructor. *)
Definition PosixWritableFile_destroy (w : W) (f : PosixWritableFile) : option W :=
  if 0 <=? fd_ f then '(w, _, _) ← Writable_Close w f; Some w else Some w.

#[export] Instance PosixWritableFile_writable : WritableFile (W * PosixWritableFile) := {
  Append '(w, f) data := Writable_Append w f data;
  Close '(w, f) := Writable_Close w f;
  Flush '(w, f) := Writable_Flush w f;
  Sync '(w, f) := Writable_Sync w f
}.
End writable.

(** ** [PosixSequentialFile] *)

Record PosixSequentialFile := { sfd_ : Z; sfilename_ : bytes }.

Section sequential.
Context {W : Type} `{Posix W}.

(** [*result] is not assigned when the read fails. *)
Fixpoint Sequential_Read_loop (fuel : nat) (w : W) (f : PosixSequentialFile) (n : Z)
    : option (W * Status * option bytes) :=
  match fuel with
  | O => None
  | S k =>
    match sys_read w (sfd_ f) n with
    | (w, Errno e) =>
      if e =? EINTR then Sequential_Read_loop k w f n
      else s ← PosixError (sfilename_ f) e; Some (w, s, None)
    | (w, Done d) => Some (w, OK, Some d)
    end
  end.

Definition Sequential_Read (w : W) (f : PosixSequentialFile) (n : Z)
    : option (W * Status * option bytes) := Sequential_Read_loop (S (interrupts w)) w f n.

(** [n] is converted to the signed [off_t]. *)
Definition off_t (n : Z) : Z := if n <? 2 ^ 63 then n else n - 2 ^ 64.

Definition Sequential_Skip (w : W) (f : PosixSequentialFile) (n : Z) : option (W * Status) :=
  match sys_lseek_cur w (sfd_ f) (off_t n) with
  | (w, Done _) => Some (w, OK)
  | (w, Errno e) => s ← PosixError (sfilename_ f) e; Some (w, s)
  end.

Definition PosixSequentialFile_destroy (w : W) (f : PosixSequentialFile) : W :=
  fst (sys_close w (sfd_ f)).

#[export] Instance PosixSequentialFile_sequential : SequentialFile (W * PosixSequentialFile) := {
  Read '(w, f) n := '(w, s, r) ← Sequential_Read w f n; Some (w, f, s, r);
  Skip '(w, f) n := '(w, s) ← Sequential_Skip w f n; Some (w, f, s)
}.
End sequential.

(** ** Paths *)

Section paths.
Lemma rfind_None c s : rfind c s = None ↔ c ∉ s.
Proof.
  induction s as [|b s IH]; simpl; [set_solver|].
  destruct (rfind c s) as [i|]; [set_solver|]. case_decide as Hb; [set_solver|].
  rewrite elem_of_cons. naive_solver.
Qed.

Lemma rfind_Some c s i :
  rfind c s = Some i ↔ ∃ pre post, s = pre ++ c :: post ∧ length pre = i ∧ c ∉ post.
Proof.
  revert i. induction s as [|b s IH]; intros i; simpl.
  { split; [done|]. intros ([|] & ? & ? & _); done. }
  destruct (rfind c s) as [j|] eqn:Hj.
  - pose proof (proj1 (IH j) eq_refl) as (pre & post & -> & <- & Hp). split.
    + intros [= <-]. by exists (b :: pre), post.
    + intros ([|b' pre'] & post' & [= -> E] & <- & Hp').
      { exfalso. apply Hp'. rewrite <- E. set_solver. }
      f_equal. simpl. f_equal. apply (inj Some). apply IH.
      exists pre', post'. rewrite E. auto.
  - apply rfind_None in Hj. case_decide as Hb.
    + subst b. split; [intros [= <-]; by exists [], s|].
      intros ([|b' pre'] & post' & [= E] & <- & Hp'); [done|]. subst.
      exfalso. apply Hj. set_solver.
    + split; [done|]. intros ([|b' pre'] & post' & [= E1 E2] & <- & Hp'); [congruence|].
      subst. exfalso. apply Hj. set_solver.
Qed.

Lemma find_None c s pos : c ∉ drop pos s → find c s pos = None.
Proof.
  revert pos. induction s as [|b s IH]; intros [|pos] Hc; simpl in *; try done.
  - rewrite decide_False by set_solver. by rewrite (IH 0%nat) by (rewrite drop_0; set_solver).
  - by rewrite IH.
Qed.

Lemma split_path filename :
  (slash ∉ filename ∧ Dirname filename = Some (str ".") ∧ Basename filename = Some filename) ∨
  (∃ dir base, filename = dir ++ slash :: base ∧ slash ∉ base ∧
    Dirname filename = Some dir ∧ Basename filename = Some base).
Proof.
  unfold Dirname, Basename. destruct (rfind slash filename) as [i|] eqn:Hr; [right|left].
  - apply rfind_Some in Hr as (dir & base & -> & <- & Hb). exists dir, base.
    assert (Hd : drop (length dir + 1) (dir ++ slash :: base) = base).
    { rewrite <- drop_drop, drop_app_length. done. }
    rewrite bool_decide_true by (apply find_None; by rewrite Hd).
    split_and!; [done|done|by rewrite take_app_length|].
    rewrite length_app. cbn [length].
    rewrite load_range_Some by (rewrite length_app; cbn [length]; lia).
    rewrite Hd, firstn_all2 by lia. done.
  - by apply rfind_None in Hr.
Qed.
End paths.

(** Paths are taken apart at the last separator.  Every file name is its
    directory, a separator and its base name, which has no separator; a name
    without one is its own base name in the directory ["."].  The assertions never
    fail, and a file is taken for a manifest exactly when its base name begins with
    MANIFEST. *)
Theorem path_parts_correct filename :
  ∃ dir base manifest, Dirname filename = Some dir ∧ Basename filename = Some base ∧
    IsManifest filename = Some manifest ∧ slash ∉ base ∧
    ((slash ∉ filename ∧ dir = str "." ∧ base = filename) ∨
     filename = dir ++ slash :: base) ∧
    (manifest = true ↔ ∃ rest, base = str "MANIFEST" ++ rest).
Proof.
  assert (Hm : ∀ base, starts_with base (str "MANIFEST") = true ↔
    ∃ rest, base = str "MANIFEST" ++ rest).
  { intros base. rewrite starts_with_correct. split; [naive_solver|].
    intros [rest ->]. exists rest. split; [done|]. unfold remove_prefix.
    rewrite (proj2 (Nat.leb_le _ _)) by (rewrite length_app; lia). by rewrite drop_app_length. }
  unfold IsManifest. destruct (split_path filename) as [(Hs & HD & HB)|(dir & base & E & Hb & HD & HB)];
    rewrite HD, HB; cbn [mbind option_bind]; eexists _, _, _; split_and!; eauto.
Qed.

(** ** [PosixWritableFile] on any device *)

Section writable_proofs.
Context {W : Type} `{Posix W} `{!StrerrorLaws W}.
Context (open_fds : W → gset Z) (written durable : W → Z → bytes)
  `{!WriteLaws W open_fds written durable}.
Context (healthy : W → Z → Prop) `{!HealthyLaws W healthy}.
Implicit Types (w : W) (f : PosixWritableFile).

(** What is in the buffer. *)
Definition pending f : bytes := take (Z.to_nat (pos_ f)) (buf_ f).

Record file_ok f : Prop := {
  fo_buf : Z.of_nat (length (buf_ f)) = kWritableFileBufferSize;
  fo_pos : 0 <= pos_ f <= kWritableFileBufferSize;
  fo_name : name_fits (filename_ f);
  fo_dir : name_fits (dirname_ f)
}.

(** An operation ends OK with everything done, or fails. *)
Definition done_or_failed (s : Status) (done : Prop) (failed : Prop) : Prop :=
  s = OK ∧ done ∨ ok s = false ∧ failed.

Lemma WriteUnbuffered_loop_eq fuel : ∀ w f d,
  name_fits (filename_ f) → (interrupts w + length d < fuel)%nat →
  ∃ w' s out, WriteUnbuffered_loop fuel w f d = Some (w', s) ∧ open_fds w' = open_fds w ∧
    out `prefix_of` d ∧ written w' (fd_ f) = written w (fd_ f) ++ out ∧
    done_or_failed s (out = d) True ∧ (healthy w (fd_ f) → s = OK ∧ healthy w' (fd_ f)).
Proof.
  induction fuel as [|n IH]; intros w f d Hn Hf; [lia|]. cbn [WriteUnbuffered_loop].
  destruct d as [|b d].
  { exists w, OK, []. rewrite app_nil_r. split_and!; try done. by left. }
  set (data := b :: d) in *. assert (Hne : data ≠ []) by done.
  pose proof (write_law w (fd_ f) data Hne) as Hw.
  pose proof (λ Hh, healthy_write w (fd_ f) data Hh Hne) as Hh.
  destruct (sys_write w (fd_ f) data) as [w1 [k|e]]; destruct Hw as (Ho & Hi & Hw).
  - destruct Hw as (Hk & Hwr). set (n1 := Z.to_nat k) in *.
    destruct (IH w1 f (drop n1 data)) as (w' & s & out & -> & Ho' & Hp & Hwr' & Hs & Hhe);
      [done|rewrite length_drop; lia|].
    exists w', s, (take n1 data ++ out).
    split_and!; [done|congruence| | | |].
    + rewrite <- (take_drop n1 data) at 2. by apply prefix_app.
    + rewrite Hwr', Hwr. by rewrite <- (assoc_L (++)).
    + destruct Hs as [[-> ->]|Hs]; [left|by right]. by rewrite take_drop.
    + intros [Hh1 _]%Hh. auto.
  - destruct Hw as [Hwr Hint]. destruct (Z.eqb_spec e EINTR) as [->|Hne'].
    + specialize (Hint eq_refl).
      destruct (IH w1 f data) as (w' & s & out & -> & Ho' & Hp & Hwr' & Hs & Hhe); [done|lia|].
      exists w', s, out. split_and!; [done|congruence|done|congruence|done|].
      intros [Hh1 _]%Hh. auto.
    + destruct (PosixError_not_ok (filename_ f) e Hn) as (s & -> & Hs). cbn [mbind option_bind].
      exists w1, s, []. rewrite app_nil_r. split_and!; [done..|apply prefix_nil|done| |].
      * by right.
      * by intros [_ ?]%Hh.
Qed.

Lemma WriteUnbuffered_eq w f d :
  name_fits (filename_ f) →
  ∃ w' s out, WriteUnbuffered w f d = Some (w', s) ∧ open_fds w' = open_fds w ∧
    out `prefix_of` d ∧ written w' (fd_ f) = written w (fd_ f) ++ out ∧
    done_or_failed s (out = d) True ∧ (healthy w (fd_ f) → s = OK ∧ healthy w' (fd_ f)).
Proof. intros Hn. apply WriteUnbuffered_loop_eq; [done|]. lia. Qed.

Lemma pending_empty f buf : pending (set_buf f buf 0) = [].
Proof. done. Qed.

Lemma file_ok_set f buf pos :
  file_ok f → Z.of_nat (length buf) = kWritableFileBufferSize →
  0 <= pos <= kWritableFileBufferSize → file_ok (set_buf f buf pos).
Proof. intros [??]. by split. Qed.

(** One operation: the buffer stays well formed, what reaches the descriptor is
    the beginning of [todo], all of it is written or in the buffer if the status
    is OK, and what did not get out is dropped if it is not. *)
Record effect w f w' f' (s : Status) (todo : bytes) : Prop := {
  ef_ok : file_ok f';
  ef_names : filename_ f' = filename_ f ∧ dirname_ f' = dirname_ f;
  ef_prefix : ∃ out, out `prefix_of` todo ∧ written w' (fd_ f) = written w (fd_ f) ++ out;
  ef_done : s = OK → written w' (fd_ f) ++ pending f' = written w (fd_ f) ++ todo;
  ef_lost : s ≠ OK → ok s = false ∧ pending f' = []
}.

Lemma FlushBuffer_effect w f :
  file_ok f →
  ∃ w' f' s, FlushBuffer w f = Some (w', f', s) ∧ effect w f w' f' s (pending f) ∧
    f' = set_buf f (buf_ f) 0 ∧ open_fds w' = open_fds w ∧
    (healthy w (fd_ f) → s = OK ∧ healthy w' (fd_ f)).
Proof.
  intros Hf. pose proof Hf as [Hb Hp Hn Hd]. unfold FlushBuffer.
  rewrite load_range_Some, drop_0 by lia. cbn [mbind option_bind]. fold (pending f).
  destruct (WriteUnbuffered_eq w f (pending f) Hn) as (w' & s & out & -> & Ho & Hpre & Hw & Hs & Hh).
  cbn [mbind option_bind]. eexists _, _, s. split_and!; [done| |done..].
  split; [apply file_ok_set; lia || done|done|eauto| |].
  - intros ->. destruct Hs as [[_ E]|[? _]]; [|done]. by rewrite pending_empty, app_nil_r, Hw, E.
  - intros Hne. by destruct Hs as [[? _]|[? _]].
Qed.

(** Filling the buffer as far as it goes. *)
Lemma Append_fill w f data :
  file_ok f →
  let n := Z.to_nat (Z.min (Z.of_nat (length data)) (kWritableFileBufferSize - pos_ f)) in
  ∃ buf f1, memcpy (buf_ f) (Z.to_nat (pos_ f)) (take n data) = Some buf ∧
    f1 = set_buf f buf (pos_ f + Z.of_nat n) ∧ file_ok f1 ∧
    pending f1 = pending f ++ take n data.
Proof.
  intros Hf n. pose proof Hf as [Hb Hp _ _]. unfold kWritableFileBufferSize in *.
  assert (Hl : length (take n data) = n) by (rewrite length_take; lia).
  rewrite memcpy_Some by lia. eexists _, _. split_and!; [done..| |].
  - apply file_ok_set; [done| |unfold kWritableFileBufferSize; lia].
    rewrite !length_app, Hl, length_take, length_drop. unfold kWritableFileBufferSize. lia.
  - unfold pending. cbn [pos_ buf_ set_buf]. rewrite (assoc_L (++)), take_app_length'; [done|].
    rewrite length_app, length_take, Hl. lia.
Qed.

Lemma Append_effect w f data :
  file_ok f →
  ∃ w' f' s, Writable_Append w f data = Some (w', f', s) ∧
    effect w f w' f' s (pending f ++ data) ∧ fd_ f' = fd_ f ∧ open_fds w' = open_fds w ∧
    (healthy w (fd_ f) → s = OK ∧ healthy w' (fd_ f)).
Proof.
  intros Hf. pose proof Hf as [Hb Hp Hn Hd]. unfold Writable_Append.
  destruct (Append_fill w f data Hf) as (buf & f1 & Hm & Ef & Hf1 & Hp1).
  rewrite u64_small by (unfold kWritableFileBufferSize in *; lia).
  set (c := Z.min _ _) in *. rewrite Hm. cbn [mbind option_bind].
  replace (set_buf f buf (pos_ f + c)) with f1 by (rewrite Ef, Z2Nat.id by lia; done).
  assert (E1 : fd_ f1 = fd_ f) by by subst f1.
  assert (E2 : filename_ f1 = filename_ f) by by subst f1.
  assert (E3 : dirname_ f1 = dirname_ f) by by subst f1.
  destruct (Z.eqb_spec (Z.of_nat (length data) - c) 0) as [E|E].
  { eexists w, f1, OK. rewrite firstn_all2 in Hp1 by lia. split_and!; [done| |done..].
    split; [done|done|exists []; split; [apply prefix_nil|by rewrite app_nil_r]|by rewrite Hp1|done]. }
  destruct (FlushBuffer_effect w f1 Hf1) as (w2 & f2 & s2 & -> & [Hf2 _ (o2 & Hpre & Hw2) Hdn Hls] & Ef2 & Ho & Hh).
  cbn [mbind option_bind]. rewrite Hp1, E1 in *.
  assert (Hpre' : o2 `prefix_of` pending f ++ data).
  { etrans; [exact Hpre|]. exists (drop (Z.to_nat c) data).
    by rewrite <- (assoc_L (++)), take_drop. }
  destruct (decide (s2 = OK)) as [->|Hne]; cycle 1.
  { destruct (Hls Hne) as [Hk Hpe]. rewrite Hk. cbn [negb].
    eexists w2, f2, s2. subst f2. split_and!; [done| |done..]. by split; eauto. }
  cbn [ok negb]. specialize (Hdn eq_refl). subst f2.
  rewrite pending_empty, app_nil_r, (assoc_L (++)) in Hdn.
  assert (Hld : Z.of_nat (length (drop (Z.to_nat c) data)) = Z.of_nat (length data) - c)
    by (rewrite length_drop; lia).
  destruct (Z.ltb_spec (Z.of_nat (length data) - c) kWritableFileBufferSize) as [Hs|Hs].
  - cbn [buf_ set_buf]. rewrite memcpy_Some by (destruct Hf1; lia). cbn [mbind option_bind].
    eexists w2, _, OK. split_and!; [done| |done..].
    split; [| |eauto| |done].
    + apply file_ok_set; [done| |lia]. rewrite length_app, length_app, !length_drop.
      rewrite take_0. cbn [length]. pose proof (fo_buf _ Hf1). lia.
    + done.
    + intros _. unfold pending. cbn [pos_ buf_ set_buf take app]. rewrite <- Hld, Nat2Z.id.
      fold (pending f). rewrite take_0, app_nil_l, take_app_length, Hdn.
      rewrite <- !(assoc_L (++)). by rewrite take_drop.
  - destruct (WriteUnbuffered_eq w2 (set_buf f1 (buf_ f1) 0) (drop (Z.to_nat c) data))
      as (w3 & s3 & o3 & -> & Ho3 & Hpre3 & Hw3 & Hs3 & Hh3); [by cbn; rewrite E2|].
    cbn [mbind option_bind fd_ set_buf] in *. rewrite E1 in *.
    eexists w3, _, s3. split_and!; [done| |done|congruence|].
    + split; [done..| | |].
      * exists (pending f ++ take (Z.to_nat c) data ++ o3). split.
        { apply prefix_app. rewrite <- (take_drop (Z.to_nat c) data) at 2. by apply prefix_app. }
        rewrite Hw3, Hdn. by rewrite <- !(assoc_L (++)).
      * intros ->. destruct Hs3 as [[_ ->]|[? _]]; [|done].
        rewrite pending_empty, app_nil_r, Hw3, Hdn. rewrite <- !(assoc_L (++)). by rewrite take_drop.
      * intros Hne. by destruct Hs3 as [[? _]|[? _]].
    + intros [_ Hh2]%Hh. auto.
Qed.
Lemma Flush_effect w f :
  file_ok f →
  ∃ w' f' s, Writable_Flush w f = Some (w', f', s) ∧ effect w f w' f' s (pending f) ∧
    pending f' = [] ∧ fd_ f' = fd_ f ∧ open_fds w' = open_fds w ∧
    (healthy w (fd_ f) → s = OK ∧ healthy w' (fd_ f)).
Proof.
  intros (w' & f' & s & E & He & -> & Ho & Hh)%(FlushBuffer_effect w).
  exists w', (set_buf f (buf_ f) 0), s. by split_and!.
Qed.

(** The descriptor is given back whatever happens. *)
Lemma Close_effect w f :
  file_ok f →
  ∃ w' f' s, Writable_Close w f = Some (w', f', s) ∧ effect w f w' f' s (pending f) ∧
    pending f' = [] ∧ fd_ f' = -1 ∧ open_fds w' = open_fds w ∖ {[fd_ f]} ∧
    (healthy w (fd_ f) → s = OK).
Proof.
  intros Hf. unfold Writable_Close.
  destruct (FlushBuffer_effect w f Hf)
    as (w1 & f1 & s1 & -> & [Hf1 Hnm (out & Hpre & Hw1) Hdn Hls] & E1 & Ho & Hh).
  cbn [mbind option_bind]. subst f1. cbn [fd_ set_buf filename_] in *.
  pose proof (close_law w1 (fd_ f)) as Hc.
  pose proof (healthy_close w1 (fd_ f)) as Hhc.
  destruct (sys_close w1 (fd_ f)) as [w2 r]. destruct Hc as [Hc1 Hc2].
  assert (Hs : ∃ s, (match r with
      | Done _ => Some s1
      | Errno e => if ok s1 then PosixError (filename_ f) e else Some s1
      end) = Some s ∧ (s = OK → s1 = OK) ∧ (s ≠ OK → ok s = false) ∧
      (healthy w (fd_ f) → s = OK)).
  { assert (Hs1 : s1 ≠ OK → ok s1 = false) by (intros Hne; by apply Hls).
    destruct r as [u|e].
    { exists s1. split_and!; try done. by intros [-> _]%Hh. }
    assert (Hu : healthy w (fd_ f) → False).
    { intros [_ Hh1]%Hh. apply Hhc in Hh1 as [w' ?]. done. }
    destruct (decide (s1 = OK)) as [->|Hne].
    - destruct (PosixError_not_ok (filename_ f) e) as (s & -> & Hk); [by destruct Hf|].
      exists s. split_and!; naive_solver.
    - rewrite (Hs1 Hne). exists s1. naive_solver. }
  destruct Hs as (s & -> & Hsok & Hsf & Hsh). cbn [mbind option_bind].
  eexists _, _, s. split_and!; [done| |done..|by rewrite Hc1, Ho|done].
  split.
  - destruct Hf1. by split.
  - done.
  - rewrite Hc2, Hw1. eauto.
  - intros ?%Hsok. rewrite Hc2. by apply Hdn.
  - intros Hne. split; [by apply Hsf|done].
Qed.

Lemma SyncFd_eq w fd path :
  name_fits path →
  ∃ w' s, SyncFd w fd path = Some (w', s) ∧ open_fds w' = open_fds w ∧
    (∀ fd', written w' fd' = written w fd') ∧
    done_or_failed s (durable w' fd = written w fd) True ∧
    (∀ fd', healthy w fd' → healthy w' fd').
Proof.
  intros Hn. unfold SyncFd. pose proof (healthy_fsync w fd) as Hh. pose proof (fsync_law w fd) as Hl.
  destruct (sys_fsync w fd) as [w' [u|e]]; destruct Hl as (Ho & Hw & Hd).
  - exists w', OK. split_and!; [done..|by left|done].
  - destruct (PosixError_not_ok path e Hn) as (s & -> & Hs). cbn [mbind option_bind].
    exists w', s. split_and!; [done..|by right|done].
Qed.

Lemma SyncDirIfManifest_eq w f :
  file_ok f → fd_ f ∈ open_fds w →
  ∃ w' s, SyncDirIfManifest w f = Some (w', s) ∧ open_fds w' = open_fds w ∧
    written w' (fd_ f) = written w (fd_ f) ∧ done_or_failed s True True ∧
    (healthy w (fd_ f) → healthy w' (fd_ f)).
Proof.
  intros Hf Hfd. unfold SyncDirIfManifest.
  destruct (is_manifest_ f); cbn [negb]; [|exists w, OK; split_and!; [done..|by left|done]].
  pose proof (healthy_open w (dirname_ f) [O_RDONLY] (fd_ f)) as Hho.
  pose proof (open_law w (dirname_ f) [O_RDONLY]) as Ho.
  destruct (sys_open w (dirname_ f) [O_RDONLY]) as [w1 [fd|e]]; destruct Ho as [Hw Ho].
  - destruct Ho as (_ & Hfresh & Ho & _).
    destruct (SyncFd_eq w1 fd (dirname_ f)) as (w2 & s & -> & Ho2 & Hw2 & Hs & Hhs); [by destruct Hf|].
    cbn [mbind option_bind]. pose proof (close_law w2 fd) as Hc.
    pose proof (healthy_close_other w2 fd (fd_ f) ltac:(set_solver)) as Hhc.
    destruct (sys_close w2 fd) as [w3 r]. destruct Hc as [Hc1 Hc2].
    exists w3, s. split_and!; [done|rewrite Hc1, Ho2, Ho; clear -Hfresh; set_solver|by rewrite Hc2, Hw2, Hw| |auto].
    destruct Hs as [[? _]|[? _]]; [by left|by right].
  - destruct (PosixError_not_ok (dirname_ f) e) as (s & -> & Hs); [by destruct Hf|].
    cbn [mbind option_bind]. exists w1, s. split_and!; [done..|by apply Hw|by right|done].
Qed.

Lemma Sync_effect w f :
  file_ok f → fd_ f ∈ open_fds w →
  ∃ w' f' s, Writable_Sync w f = Some (w', f', s) ∧ file_ok f' ∧ fd_ f' = fd_ f ∧
    open_fds w' = open_fds w ∧
    (∃ out, out `prefix_of` pending f ∧ written w' (fd_ f) = written w (fd_ f) ++ out) ∧
    done_or_failed s (durable w' (fd_ f) = written w (fd_ f) ++ pending f ∧
               written w' (fd_ f) = written w (fd_ f) ++ pending f ∧ pending f' = []) True ∧
    (healthy w (fd_ f) → healthy w' (fd_ f)).
Proof.
  intros Hf Hfd. unfold Writable_Sync.
  destruct (SyncDirIfManifest_eq w f Hf Hfd) as (w1 & s1 & -> & Ho1 & Hw1 & Hs1 & Hh1).
  cbn [mbind option_bind].
  destruct Hs1 as [[-> _]|[Hk _]]; cycle 1.
  { rewrite Hk. cbn [negb]. exists w1, f, s1. split_and!; [done..| |by right|done].
    exists []. split; [apply prefix_nil|by rewrite app_nil_r]. }
  cbn [ok negb].
  destruct (FlushBuffer_effect w1 f Hf)
    as (w2 & f2 & s2 & -> & [Hf2 _ (out & Hpre & Hw2) Hdn Hls] & -> & Ho2 & Hh2).
  cbn [mbind option_bind]. rewrite Hw1 in *.
  destruct (decide (s2 = OK)) as [->|Hne]; cycle 1.
  { destruct (Hls Hne) as [Hk _]. rewrite Hk. cbn [negb].
    eexists _, _, s2. split_and!; [done..|congruence|eauto|by right|].
    intros Hh. by apply Hh2, Hh1. }
  cbn [ok negb]. specialize (Hdn eq_refl). rewrite pending_empty, app_nil_r in Hdn.
  destruct (SyncFd_eq w2 (fd_ f) (filename_ f)) as (w3 & s3 & E3 & Ho3 & Hw3 & Hs3 & Hh3);
    [by destruct Hf|].
  cbn [fd_ filename_ set_buf]. rewrite E3. cbn [mbind option_bind].
  eexists _, _, s3. split_and!; [done..|congruence|rewrite Hw3; eauto| |].
  2:{ intros Hh. apply Hh3. by apply Hh2, Hh1. }
  destruct Hs3 as [[-> Hd]|[? _]]; [left|by right]. rewrite Hw3, Hd, Hdn. done.
Qed.

Lemma Writable_destroy_eq w f :
  file_ok f →
  ∃ w', PosixWritableFile_destroy w f = Some w' ∧
    open_fds w' = (if 0 <=? fd_ f then open_fds w ∖ {[fd_ f]} else open_fds w).
Proof.
  intros Hf. unfold PosixWritableFile_destroy. destruct (0 <=? fd_ f); [|by eexists].
  destruct (Close_effect w f Hf) as (w' & f' & s & -> & _ & _ & _ & Ho & _).
  by eexists.
Qed.
End writable_proofs.

Arguments effect {W} written _ _ _ _ _ _.

(** C19: [PosixWritableFile] on any descriptor, whatever the system calls return.
    No operation faults or diverges, although writes are short, interrupted and
    fail.  Appending delivers the buffered bytes and then the new ones: with OK
    they are all written or buffered, in order; with an error a beginning of them
    was written and the rest, buffered bytes included, is gone.  Flushing and
    closing do the same with an empty buffer at the end, closing gives the
    descriptor back even when it fails, and the destructor closes a file exactly
    when it is open.  If [Sync] returns OK, everything is on the device. *)
Theorem PosixWritableFile_correct {W} `{Posix W} `{!StrerrorLaws W}
    (open_fds : W → gset Z) (written durable : W → Z → bytes)
    `{!WriteLaws W open_fds written durable} w f :
  file_ok f → fd_ f ∈ open_fds w →
  (∀ data, ∃ w' f' s, Append (w, f) data = Some ((w', f'), s) ∧
     effect written w f w' f' s (pending f ++ data) ∧ fd_ f' = fd_ f ∧
     open_fds w' = open_fds w) ∧
  (∃ w' f' s, Flush (w, f) = Some ((w', f'), s) ∧ effect written w f w' f' s (pending f) ∧
     pending f' = [] ∧ fd_ f' = fd_ f ∧ open_fds w' = open_fds w) ∧
  (∃ w' f' s, Close (w, f) = Some ((w', f'), s) ∧ effect written w f w' f' s (pending f) ∧
     pending f' = [] ∧ fd_ f' = -1 ∧ open_fds w' = open_fds w ∖ {[fd_ f]} ∧
     PosixWritableFile_destroy w' f' = Some w') ∧
  (∃ w' f' s, Sync (w, f) = Some ((w', f'), s) ∧ file_ok f' ∧ fd_ f' = fd_ f ∧
     open_fds w' = open_fds w ∧
     (∃ out, out `prefix_of` pending f ∧ written w' (fd_ f) = written w (fd_ f) ++ out) ∧
     (s = OK ∧ durable w' (fd_ f) = written w (fd_ f) ++ pending f ∧ pending f' = [] ∨
      ok s = false)) ∧
  (0 <= fd_ f → ∃ w', PosixWritableFile_destroy w f = Some w' ∧
     open_fds w' = open_fds w ∖ {[fd_ f]}).
Proof.
  intros Hf Hfd.
    assert (Hno : HealthyLaws W (λ _ _, False)) by (split; done).
  cbn [Append Flush Close Sync PosixWritableFile_writable]. split_and!.
  - intros data. destruct (Append_effect open_fds written durable (λ _ _, False) w f data Hf)
      as (w' & f' & s & -> & He & Hd & Ho & _). eauto 10.
  - destruct (Flush_effect open_fds written durable (λ _ _, False) w f Hf)
      as (w' & f' & s & -> & He & Hp & Hd & Ho & _). eauto 10.
  - destruct (Close_effect open_fds written durable (λ _ _, False) w f Hf)
      as (w' & f' & s & -> & He & Hp & Hd & Ho & _). exists w', f', s. split_and!; try done.
    unfold PosixWritableFile_destroy. by rewrite Hd.
  - destruct (Sync_effect open_fds written durable (λ _ _, False) w f Hf Hfd)
      as (w' & f' & s & -> & Hf' & Hd & Ho & Hout & Hs & _). exists w', f', s. split_and!; try done.
    destruct Hs as [(-> & ? & _ & ?)|[? _]]; [left|right]; done.
  - intros Hp. destruct (Writable_destroy_eq open_fds written durable (λ _ _, False) w f Hf) as (w' & -> & Ho).
    exists w'. split; [done|]. by rewrite Ho, (proj2 (Z.leb_le _ _)) by lia.
Qed.

(** On a healthy descriptor the file is a [WritableFile] whose contents are what
    was written and what is buffered. *)
#[export] Instance PosixWritableFile_laws {W} `{Posix W} `{!StrerrorLaws W}
    (open_fds : W → gset Z) (written durable : W → Z → bytes)
    `{!WriteLaws W open_fds written durable} (healthy : W → Z → Prop)
    `{!HealthyLaws W healthy} :
  WritableFileLaws (W * PosixWritableFile)
    (λ '(w, f), file_ok f ∧ fd_ f ∈ open_fds w ∧ healthy w (fd_ f))
    (λ '(w, f), written w (fd_ f) ++ pending f).
Proof.
  split; cbn [Append Flush PosixWritableFile_writable].
  - intros [w f] data (Hf & Hfd & Hh).
    destruct (Append_effect open_fds written durable healthy w f data Hf)
      as (w' & f' & s & -> & [Hf' _ _ Hd _] & Efd & Ho & Hh').
    destruct (Hh' Hh) as [-> Hh1]. exists (w', f'). rewrite Efd, Ho. split_and!; try done.
    by rewrite Hd, (assoc_L (++)).
  - intros [w f] (Hf & Hfd & Hh).
    destruct (Flush_effect open_fds written durable healthy w f Hf)
      as (w' & f' & s & -> & [Hf' _ _ Hd _] & _ & Efd & Ho & Hh').
    destruct (Hh' Hh) as [-> Hh1]. exists (w', f'). rewrite Efd, Ho. split_and!; try done.
    by apply Hd.
Qed.

Lemma PosixWritableFile_new_ok filename fd :
  name_fits filename →
  ∃ f, PosixWritableFile_new filename fd = Some f ∧ file_ok f ∧ fd_ f = fd ∧
    filename_ f = filename ∧ pending f = [].
Proof.
  intros Hn. unfold PosixWritableFile_new.
  assert (Hi : ∃ base, IsManifest filename = Some (starts_with base (str "MANIFEST")) ∧
    ∃ dir, Dirname filename = Some dir ∧ name_fits dir).
  { unfold IsManifest, name_fits in *.
    destruct (split_path filename) as [(_ & -> & ->)|(dir & base & E & _ & -> & ->)];
      eexists; (split; [done|]); eexists; (split; [done|]); [vm_compute; done|].
    rewrite E, length_app in Hn. lia. }
  destruct Hi as (base & -> & dir & -> & Hd). cbn [mbind option_bind]. eexists.
  split_and!; try done.
Qed.

(** ** [PosixSequentialFile] *)

Section sequential_proofs.
Context {W : Type} `{Posix W} `{!StrerrorLaws W} `{!ReadLaws W}.
Implicit Types (w : W) (f : PosixSequentialFile).

(** A read is repeated while it is interrupted, and only then. *)
Lemma Sequential_Read_loop_eq (I : W → Prop) fuel n f :
  name_fits (sfilename_ f) →
  (∀ w, I w → match sys_read w (sfd_ f) n with (w', Errno e) => e = EINTR → I w' | _ => True end) →
  ∀ w, I w → (interrupts w < fuel)%nat →
  ∃ w0, I w0 ∧ match sys_read w0 (sfd_ f) n with
    | (w', Done d) => Sequential_Read_loop fuel w f n = Some (w', OK, Some d)
    | (w', Errno e) => e ≠ EINTR ∧ ∃ s, PosixError (sfilename_ f) e = Some s ∧
        ok s = false ∧ Sequential_Read_loop fuel w f n = Some (w', s, None)
    end.
Proof.
  intros Hn HI. induction fuel as [|k IH]; intros w Hw Hf; [lia|]. cbn [Sequential_Read_loop].
  specialize (HI w Hw). pose proof (read_law w (sfd_ f) n) as Hr.
  destruct (sys_read w (sfd_ f) n) as [w1 [d|e]] eqn:E; destruct Hr as [Hi Hr].
  { exists w. by rewrite E. }
  destruct (Z.eqb_spec e EINTR) as [->|Hne].
  { apply IH; [auto|]. specialize (Hr eq_refl). lia. }
  exists w. rewrite E. split_and!; [done..|].
  destruct (PosixError_not_ok (sfilename_ f) e Hn) as (s & -> & Hs). eauto.
Qed.

Lemma Sequential_Read_eq (I : W → Prop) n f w :
  name_fits (sfilename_ f) → I w →
  (∀ w, I w → match sys_read w (sfd_ f) n with (w', Errno e) => e = EINTR → I w' | _ => True end) →
  ∃ w0, I w0 ∧ match sys_read w0 (sfd_ f) n with
    | (w', Done d) => Sequential_Read w f n = Some (w', OK, Some d)
    | (w', Errno e) => e ≠ EINTR ∧ ∃ s, PosixError (sfilename_ f) e = Some s ∧
        ok s = false ∧ Sequential_Read w f n = Some (w', s, None)
    end.
Proof. intros Hn Hw HI. apply Sequential_Read_loop_eq; [done..|lia]. Qed.
End sequential_proofs.

(** On a regular file the reader is a [SequentialFile] that delivers every byte,
    however often it is interrupted. *)
#[export] Instance PosixSequentialFile_laws {W} `{Posix W} `{!StrerrorLaws W} `{!ReadLaws W}
    (regular : W → Z → Prop) (unread : W → Z → bytes) `{!RegularLaws W regular unread} :
  SequentialFileLaws (W * PosixSequentialFile)
    (λ '(w, f), name_fits (sfilename_ f) ∧ regular w (sfd_ f))
    (λ '(w, f), unread w (sfd_ f)).
Proof.
  split; cbn [Read Skip PosixSequentialFile_sequential]; intros [w f] n (Hn & Hreg) Hb.
  - destruct (Sequential_Read_eq
      (λ w', regular w' (sfd_ f) ∧ unread w' (sfd_ f) = unread w (sfd_ f)) n f w)
      as (w0 & [Hr0 Hu0] & Hm); [done..| |].
    { intros w1 [Hr1 Hu1]. pose proof (regular_read w1 (sfd_ f) n Hr1 Hb) as Hl.
      destruct (sys_read w1 (sfd_ f) n) as [w2 [d|e]]; [done|].
      destruct Hl as (Hr2 & _ & Hu2). intros _. split; [done|congruence]. }
    pose proof (regular_read w0 (sfd_ f) n Hr0 Hb) as Hl.
    destruct (sys_read w0 (sfd_ f) n) as [w2 [d|e]].
    + destruct Hl as (Hr2 & -> & Hu2). rewrite Hm, Hu0 in *. cbn [mbind option_bind].
      exists (w2, f). split_and!; [done..|congruence].
    + destruct Hl as (_ & -> & _). by destruct Hm.
  - destruct (regular_seek w (sfd_ f) n Hreg Hb) as (w' & pos & E & Hr' & Hu').
    unfold Sequential_Skip, off_t. rewrite (proj2 (Z.ltb_lt _ _)) by lia. rewrite E.
    cbn [mbind option_bind]. by exists (w', f).
Qed.

(** [PosixSequentialFile] on any descriptor.  [Read] repeats the system call
    while it is interrupted and does not diverge; otherwise it reports what the
    last call returned: OK and its bytes, at most [n], or the error with
    [*result] not assigned.  [Skip] seeks once.  The bytes come from one
    successful call made in a state reached only through interrupted ones. *)
Theorem PosixSequentialFile_correct {W} `{Posix W} `{!StrerrorLaws W} `{!ReadLaws W}
    (w : W) f n :
  name_fits (sfilename_ f) → 0 <= n →
  (∃ w0 w' : W,
     rtc (λ u v : W, sys_read u (sfd_ f) n = (v, Errno EINTR)) w w0 ∧
     ((∃ d, sys_read w0 (sfd_ f) n = (w', Done d) ∧ Z.of_nat (length d) <= n ∧
         Read (w, f) n = Some ((w', f), OK, Some d)) ∨
      (∃ e s, sys_read w0 (sfd_ f) n = (w', Errno e) ∧ e ≠ EINTR ∧
         PosixError (sfilename_ f) e = Some s ∧ ok s = false ∧
         Read (w, f) n = Some ((w', f), s, None)))) ∧
  (∃ w' s, Skip (w, f) n = Some ((w', f), s) ∧
     match sys_lseek_cur w (sfd_ f) (off_t n) with
     | (w1, Done _) => w' = w1 ∧ s = OK
     | (w1, Errno e) => w' = w1 ∧ PosixError (sfilename_ f) e = Some s ∧ ok s = false
     end).
Proof.
  intros Hn Hpos. cbn [Read Skip PosixSequentialFile_sequential]. split.
  - set (R := λ u v : W, sys_read u (sfd_ f) n = (v, Errno EINTR)).
    destruct (Sequential_Read_eq (rtc R w) n f w) as (w0 & HR & Hm).
    + done.
    + apply rtc_refl.
    + intros w1 Hw1. destruct (sys_read w1 (sfd_ f) n) as [w2 [d|e]] eqn:E; [done|].
      intros ->. by eapply rtc_r.
    + pose proof (read_law w0 (sfd_ f) n) as Hl. exists w0.
      destruct (sys_read w0 (sfd_ f) n) as [w1 [d|e]]; exists w1; split; try done.
      * left. exists d. rewrite Hm. split_and!; [done|lia|done].
      * right. destruct Hm as (Hne & s & Hs & Hk & ->). exists e, s. by split_and!.
  - unfold Sequential_Skip. destruct (sys_lseek_cur w (sfd_ f) (off_t n)) as [w1 [p|e]].
    + by exists w1, OK.
    + destruct (PosixError_not_ok (sfilename_ f) e Hn) as (s & -> & Hk). by exists w1, s.
Qed.

(** ** Witnesses *)

(** A device with room for three more bytes, which takes two at a time and is
    interrupted twice; descriptor 0 is an empty file. *)
Definition tight : Sim :=
  {| sview := {| names := {[str "f" := 0%nat; str "." := 1%nat]}; inodes := {[0%nat := []; 1%nat := []]};
                 fds := {[0 := (0%nat, Some 0%nat)]}; locks := ∅; maps := 0 |};
     outs := {[0 := []]}; synced := ∅; others := ∅; signals := 2; chunk := 1; room := Some 3%nat;
     max_fds := 4 |}.

(** A file with a small buffer content, [n] bytes long. *)
Definition buffered (d : bytes) : PosixWritableFile :=
  {| buf_ := d ++ char_array (Z.to_nat kWritableFileBufferSize - length d); pos_ := Z.of_nat (length d);
     fd_ := 0; is_manifest_ := false; filename_ := str "f"; dirname_ := str "." |}.

Lemma buffered_ok d :
  Z.of_nat (length d) <= kWritableFileBufferSize → file_ok (buffered d).
Proof.
  intros Hd. split; cbn [buf_ pos_ filename_ dirname_ buffered]; [|lia|done|done].
  unfold char_array. rewrite length_app, length_replicate. unfold kWritableFileBufferSize in *. lia.
Qed.

(** Flushing five bytes to the tight device writes three and drops two. *)
Example Flush_drops :
  match Flush (tight, buffered (str "hello")) with
  | Some (w, f, s) => sim_written w 0 = str "hel" ∧ pos_ f = 0 ∧ ok s = false
  | None => False
  end.
Proof. vm_compute. done. Qed.

Lemma PosixWritableFile_correct_witness :
  ∃ w' f' s, Append (tight, buffered (str "hello")) (str "!") = Some ((w', f'), s) ∧
    effect sim_written tight (buffered (str "hello")) w' f' s (pending (buffered (str "hello")) ++ str "!").
Proof.
  destruct (PosixWritableFile_correct sim_fds sim_written sim_durable tight (buffered (str "hello")))
    as [H _]; [apply buffered_ok; done|vm_compute; done|].
  destruct (H (str "!")) as (w' & f' & s & E & He & _). exists w', f', s. split; [exact E|exact He].
Defined.

Lemma PosixSequentialFile_correct_witness :
  ∃ w' s, Skip (tight, {| sfd_ := 0; sfilename_ := str "f" |}) 5 =
    Some ((w', {| sfd_ := 0; sfilename_ := str "f" |}), s).
Proof.
  destruct (PosixSequentialFile_correct tight {| sfd_ := 0; sfilename_ := str "f" |} 5)
    as [_ (w' & s & E & _)]; [vm_compute; done|lia|].
  exists w', s. exact E.
Defined.
