(* ===== verification/PosixLog.v ===== *)
(** A log on the files of util/env_posix.cc: [log::Writer] over
    [PosixWritableFile], a synchronisation, a crash, and [log::Reader] over
    [PosixSequentialFile]. *)
From S2P Require Import Prelude Slice Coding Status Crc32c File LogFormat LogWriter LogReader.
From S2P Require Import Posix SimOS PosixFile.
Local Open Scope Z_scope.

Section log.
Context `{Checksum} (crc : Z → bytes → Z) `{!ChecksumLaws crc}.
Context {W : Type} `{Posix W} `{!StrerrorLaws W} `{!ReadLaws W}.
Context (open_fds : W → gset Z) (written durable : W → Z → bytes)
  `{!WriteLaws W open_fds written durable}.
Context (healthy : W → Z → Prop) `{!HealthyLaws W healthy}.
Context (regular : W → Z → Prop) (unread : W → Z → bytes) `{!RegularLaws W regular unread}.

(** The state of a file the writer may use, and what is or will be in it. *)
Definition ready (d : W * PosixWritableFile) : Prop :=
  let '(w, f) := d in file_ok f ∧ fd_ f ∈ open_fds w ∧ healthy w (fd_ f).
Definition all_bytes (d : W * PosixWritableFile) : bytes :=
  let '(w, f) := d in written w (fd_ f) ++ pending f.

Lemma Sync_ready w f w' f' :
  ready (w, f) → Sync (w, f) = Some ((w', f'), OK) →
  ready (w', f') ∧ all_bytes (w', f') = all_bytes (w, f) ∧
  durable w' (fd_ f') = all_bytes (w, f).
Proof.
  intros (Hf & Hfd & Hh) E.
  destruct (Sync_effect open_fds written durable healthy w f Hf Hfd)
    as (w1 & f1 & s & E1 & Hf1 & Efd & Ho & _ & Hs & Hhh).
  cbn [Sync PosixWritableFile_writable] in E. rewrite E1 in E. simplify_eq.
  destruct Hs as [(_ & Hd & Hw & Hp)|[? _]]; [|done].
  unfold ready, all_bytes. rewrite Efd, Ho, Hd, Hw, Hp, app_nil_r. auto.
Qed.

Lemma log_of_length ds itemss : log_of ds itemss → length ds = length itemss.
Proof. induction 1; cbn; congruence. Qed.

Lemma log_of_app ds1 itemss1 ds2 itemss2 :
  log_of ds1 itemss1 → log_of ds2 itemss2 → log_of (ds1 ++ ds2) (itemss1 ++ itemss2).
Proof. induction 1; intros; cbn; [done|]. constructor; auto. Qed.

Lemma zip_take_fst (A B : Type) (l : list A) (m : list B) k :
  length l = length m → (take k (zip l m)).*1 = take k l.
Proof. intros. by rewrite fmap_take, fst_zip by lia. Qed.

Lemma length_spots itemss : ∀ off pos, length (spots crc off pos itemss) = length itemss.
Proof. induction itemss; intros; cbn; auto. Qed.

(** C18: records that were synchronised survive.  Records [ds1] are added to an
    empty log file on a healthy device and [Sync] returns OK; then records [ds2]
    are added, none of which need reach the device.  Whatever the device holds
    after a crash — a beginning of the log with at least what was durable — a
    reader on the restarted system reads without an error all of [ds1] and then
    a beginning of [ds2], unaltered and in order: the buffering of the writable
    file, its short and interrupted writes and the interrupted reads are not
    visible. *)
Theorem PosixLog_survives ds1 ds2 w0 f0 :
  ready (w0, f0) → all_bytes (w0, f0) = [] →
  ∃ lw0 lw1, Writer_new (w0, f0) = Some lw0 ∧ write_all lw0 ds1 = Some lw1 ∧
  ∀ w2 f2, Sync (dest_ lw1) = Some ((w2, f2), OK) →
  ∃ lw3, write_all (set_dest lw1 (w2, f2)) ds2 = Some lw3 ∧
  ∀ (wr : W) fr image fuel reporter checksum,
    image `prefix_of` all_bytes (dest_ lw3) → durable w2 (fd_ f2) `prefix_of` image →
    name_fits (sfilename_ fr) → regular wr (sfd_ fr) → unread wr (sfd_ fr) = image →
    Z.of_nat (length (all_bytes (dest_ lw3))) < 2 ^ 64 →
    (length (all_bytes (dest_ lw3)) < fuel)%nat →
    ∃ k r' records,
      read_all (S (length (ds1 ++ ds2))) fuel (Reader_new (wr, fr) reporter checksum 0)
        = Some (r', records) ∧
      records.*1 = ds1 ++ take k ds2 ∧ reporter_ r' = reporter.
Proof.
  intros Hready Hnil.
  pose proof (PosixWritableFile_laws open_fds written durable healthy) as Hlaws.
  destruct (Writer_new_ok crc (w0, f0)) as (lw0 & Hnew & Hok0 & Hd0 & Ho0).
  destruct (write_all_good crc ready all_bytes ds1 lw0 Hok0) as (is1 & Hlog1 & Hp1 & Hk1);
    [by rewrite Hd0|].
  destruct (Hk1 (length ds1)) as (lw1 & Hw1 & Hok1 & Hg1 & Ho1 & Hc1).
  assert (Hl1 : length is1 = length ds1) by (symmetry; by apply log_of_length).
  rewrite firstn_all in Hw1. rewrite <- Hl1, firstn_all in Hc1, Ho1.
  rewrite Ho0, Hd0, Hnil, app_nil_l in *.
  exists lw0, lw1. split_and!; [done..|]. intros w2 f2 HS.
  destruct (dest_ lw1) as [w1 f1] eqn:Hd1.
  destruct (Sync_ready w1 f1 w2 f2 Hg1 HS) as (Hg2 & Hb2 & Hdur).
  destruct (write_all_good crc ready all_bytes ds2 (set_dest lw1 (w2, f2)))
    as (is2 & Hlog2 & Hp2 & Hk2); [done..|].
  destruct (Hk2 (length ds2)) as (lw3 & Hw3 & Hok3 & Hg3 & Ho3 & Hc3).
  assert (Hl2 : length is2 = length ds2) by (symmetry; by apply log_of_length).
  rewrite firstn_all in Hw3. rewrite <- Hl2, firstn_all in Hc3, Ho3.
  change (off (set_dest lw1 (w2, f2))) with (off lw1) in *. cbn [dest_ set_dest] in *.
  rewrite Ho1, Hb2, Hc1 in *.
  rewrite <- phys_bytes_app, <- concat_app in Hc3.
  exists lw3. split; [done|].
  intros wr fr image fuel rep check [rest Himg] [extra Hdurp] Hn Hreg Hun Hsz Hfuel.
  rewrite Hc3 in *.
  destruct (read_all_new crc _ _ (ds1 ++ ds2) (is1 ++ is2) (wr, fr) (length image) rep check fuel)
    as (k & r' & Hra & Hrep & Hk & Hlo & Hhi); try done.
  { by apply log_of_app. }
  { rewrite concat_app. by apply phys_ok_app. }
  { rewrite Himg, take_app_length. done. }
  rewrite Hun in Hlo, Hhi.
  assert (Hge : (length ds1 <= k)%nat).
  { destruct (decide (length ds1 <= k)%nat) as [|Hlt]; [done|exfalso].
    specialize (Hhi ltac:(rewrite length_app; lia)).
    assert (Hle : (log_length crc 0 (is1 ++ is2) (S k) <= length (phys_bytes crc 0 (concat is1)))%nat).
    { unfold log_length. rewrite take_app_le by lia.
      rewrite <- (take_drop (S k) is1) at 2. rewrite concat_app, phys_bytes_app, length_app. lia. }
    rewrite Hdurp, Hdur, length_app in Hhi. lia. }
  exists (k - length ds1)%nat, r'. eexists. split_and!; [exact Hra| |done].
  rewrite zip_take_fst by (rewrite length_spots, !length_app; lia).
  by rewrite take_app, (firstn_all2 ds1).
Qed.
End log.

(** ** A run *)

(** An empty log, descriptor 0, on a device that takes seven bytes at a time and
    is interrupted twice. *)
Definition blank : Sim :=
  {| sview := {| names := {[str "log" := 0%nat; str "." := 1%nat]}; inodes := {[0%nat := []; 1%nat := []]};
                 fds := {[0 := (0%nat, Some 0%nat)]}; locks := ∅; maps := 0 |};
     outs := {[0 := []]}; synced := ∅; others := ∅; signals := 2; chunk := 6; room := None;
     max_fds := 4 |}.

Lemma PosixLog_survives_witness :
  ∃ lw0 lw1, Writer_new (blank, buffered []) = Some lw0 ∧ write_all lw0 [str "one"] = Some lw1.
Proof.
  destruct (PosixLog_survives crc32c sim_fds sim_written sim_durable sim_healthy
              sim_regular sim_unread [str "one"] [str "two"] blank (buffered []))
    as (lw0 & lw1 & H1 & H2 & _).
  - split; [by apply buffered_ok|]. split; [vm_compute; done|]. split; [done|vm_compute; done].
  - vm_compute. done.
  - exists lw0, lw1. split; [exact H1|exact H2].
Defined.

(** The whole story, computed: one record is synchronised, another is added, and
    the system crashes keeping only what was durable, or not at all. *)
Definition log_run (crash : bool) : option (Status * list bytes) :=
  (lw ← Writer_new (blank, buffered []);
   lw ← write_all lw [str "one"];
   '(d, s) ← Sync (dest_ lw);
   lw ← write_all (set_dest lw d) [str "two"];
   let w := fst (dest_ lw) in
   let w := if crash then with_view w (set_inodes (sview w) {[0%nat := sim_durable w 0]}) else w in
   match sys_open w (str "log") [O_RDONLY] with
   | (w, Done fd) =>
     '(_, records) ← read_all 3 100 (Reader_new (w, {| sfd_ := fd; sfilename_ := str "log" |}) (Some []) true 0);
     Some (s, records.*1)
   | _ => None
   end).
Example log_run_crash : log_run true = Some (OK, [str "one"]).
Proof. vm_compute. reflexivity. Qed.
Example log_run_no_crash : log_run false = Some (OK, [str "one"; str "two"]).
Proof. vm_compute. reflexivity. Qed.
