(* ===== verification/PosixRandom.v ===== *)
(** [PosixRandomAccessFile] and [PosixMmapReadableFile] of util/env_posix.cc: two
    ways to read anywhere in a file, and the [Limiter]s that decide which is
    used.  A limiter is shared, so the operations that use it return it. *)
From S2P Require Import Prelude Slice Coding Status Limiter Posix SimOS PosixFile.
Local Open Scope Z_scope.

Record PosixRandomAccessFile := { has_permanent_fd_ : bool; rfd_ : Z; rfilename_ : bytes }.

(** [mmap_base_] is the region, whose bytes stand in for its address. *)
Record PosixMmapReadableFile := { mmap_base_ : bytes; length_ : Z; mfilename_ : bytes }.

Section operations.
Context {W : Type} `{Posix W}.

Definition PosixRandomAccessFile_new (w : W) (filename : bytes) (fd : Z) (fd_limiter : Limiter)
    : option (W * Limiter * PosixRandomAccessFile) :=
  '(fd_limiter, has_permanent_fd) ← Acquire fd_limiter;
  let f := {| has_permanent_fd_ := has_permanent_fd;
              rfd_ := if has_permanent_fd then fd else -1; rfilename_ := filename |} in
  if negb (has_permanent_fd_ f) then
    ASSERT (rfd_ f =? -1);
    let '(w, _) := sys_close w fd in Some (w, fd_limiter, f)
  else Some (w, fd_limiter, f).

Definition PosixRandomAccessFile_destroy (w : W) (f : PosixRandomAccessFile) (fd_limiter : Limiter)
    : option (W * Limiter) :=
  if has_permanent_fd_ f then
    ASSERT (negb (rfd_ f =? -1));
    let '(w, _) := sys_close w (rfd_ f) in
    fd_limiter ← Release fd_limiter; Some (w, fd_limiter)
  else Some (w, fd_limiter).

(** [*result] is not assigned when the file cannot be opened. *)
Definition RandomAccess_Read (w : W) (f : PosixRandomAccessFile) (offset n : Z)
    : option (W * Status * option bytes) :=
  match (if has_permanent_fd_ f then (w, Done (rfd_ f)) else sys_open w (rfilename_ f) [O_RDONLY]) with
  | (w, Errno e) => s ← PosixError (rfilename_ f) e; Some (w, s, None)
  | (w, Done fd) =>
    ASSERT (negb (fd =? -1));
    let '(w, read_size) := sys_pread w fd n (off_t offset) in
    '(status, result) ← match read_size with
                        | Done d => Some (OK, d)
                        | Errno e => s ← PosixError (rfilename_ f) e; Some (s, [])
                        end;
    if has_permanent_fd_ f then Some (w, status, Some result)
    else
      ASSERT (negb (fd =? rfd_ f));
      let '(w, _) := sys_close w fd in Some (w, status, Some result)
  end.

Definition Mmap_Read (f : PosixMmapReadableFile) (offset n : Z) : option (Status * bytes) :=
  if length_ f <? u64 (offset + n) then s ← PosixError (mfilename_ f) EINVAL; Some (s, [])
  else
    result ← load_range (mmap_base_ f) (Z.to_nat offset) (Z.to_nat n);
    Some (OK, result).

Definition PosixMmapReadableFile_destroy (w : W) (f : PosixMmapReadableFile) (mmap_limiter : Limiter)
    : option (W * Limiter) :=
  let w := sys_munmap w (mmap_base_ f) in
  mmap_limiter ← Release mmap_limiter; Some (w, mmap_limiter).
End operations.

(** A [RandomAccessFile*]: which class, and its object. *)
Inductive RandomAccessFile :=
  | Pread (f : PosixRandomAccessFile)
  | Mmap (f : PosixMmapReadableFile).

Definition Random_Read {W} `{Posix W} (w : W) (f : RandomAccessFile) (offset n : Z)
    : option (W * Status * option bytes) :=
  match f with
  | Pread f => RandomAccess_Read w f offset n
  | Mmap f => '(s, result) ← Mmap_Read f offset n; Some (w, s, Some result)
  end.

(** ** Limiters used by one call at a time *)

Definition limiter_ok (l : Limiter) : Prop :=
  0 <= acquires_allowed_ l <= max_acquires_ l ∧ max_acquires_ l < 2 ^ 31.

Definition taken (l : Limiter) (n : Z) : Limiter :=
  {| max_acquires_ := max_acquires_ l; acquires_allowed_ := acquires_allowed_ l - n |}.

Lemma Acquire_eq l :
  limiter_ok l →
  Acquire l = Some (if 0 <? acquires_allowed_ l then (taken l 1, true) else (l, false)).
Proof.
  intros [Ha Hm]. destruct l as [m a]. cbn [acquires_allowed_ max_acquires_] in *.
  unfold Acquire, Acquire_first, Acquire_second, fetch_add, taken.
  cbn [acquires_allowed_ max_acquires_]. rewrite i32_small by lia.
  destruct (Z.ltb_spec 0 a).
  - do 3 f_equal.
  - rewrite i32_small, (proj2 (Z.ltb_lt _ _)) by lia. cbn [mbind option_bind]. do 3 f_equal. lia.
Qed.

Lemma Release_taken l :
  limiter_ok l → 0 < acquires_allowed_ l → Release (taken l 1) = Some l.
Proof.
  intros [Ha Hm] Hp. destruct l as [m a]. cbn [acquires_allowed_ max_acquires_] in *.
  unfold Release, fetch_add, taken. cbn [acquires_allowed_ max_acquires_].
  rewrite i32_small, (proj2 (Z.ltb_lt _ _)) by lia. do 2 f_equal. lia.
Qed.

(** ** Reading *)

Section reading.
Context {W : Type} `{Posix W} `{!StrerrorLaws W}.
Context (view : W → View) `{!FsLaws W view}.

(** What a random-access file needs to deliver the bytes [d] of inode [i]. *)
Definition serves (w : W) (f : RandomAccessFile) (d : bytes) : Prop :=
  match f with
  | Pread f => name_fits (rfilename_ f) ∧
      if has_permanent_fd_ f then 0 <= rfd_ f ∧ content (view w) (rfd_ f) = d
      else rfd_ f = -1 ∧ file (view w) (rfilename_ f) = Some d
  | Mmap f => name_fits (mfilename_ f) ∧ mmap_base_ f = d ∧ length_ f = Z.of_nat (length d)
  end.

Lemma off_t_pos n : 0 <= n < 2 ^ 64 → 0 <= off_t n → off_t n = n.
Proof. unfold off_t. intros. destruct (Z.ltb_spec n (2 ^ 63)); lia. Qed.

(** Opening to read, reading and closing leaves everything as it was. *)
Lemma close_opened v name fd v' :
  fds v !! fd = None → open_view v name [O_RDONLY] fd v' → is_Some (names v !! name) →
  (∀ i, names v !! name = Some i → i ∉ locks v) → close_view v' fd = v.
Proof.
  unfold open_view. intros Hfd Ho [i Hi] Hl. rewrite Hi in Ho.
  rewrite (bool_decide_false (O_TRUNC ∈ _)), (bool_decide_false (O_APPEND ∈ _)) in Ho by set_solver.
  subst v'. unfold close_view. destruct v as [nm ino fs lk mp]. cbn in *.
  rewrite lookup_insert_eq. cbn. rewrite delete_insert_id by done.
  unfold set_locks. cbn. f_equal. specialize (Hl i Hi). set_solver.
Qed.

(** No process lock stands on the file: closing a descriptor would drop it. *)
Definition unlocked (w : W) (f : RandomAccessFile) : Prop :=
  match f with
  | Pread f => ∀ i, names (view w) !! rfilename_ f = Some i → i ∉ locks (view w)
  | Mmap _ => True
  end.

Lemma opened_content v name fd v' d :
  open_view v name [O_RDONLY] fd v' → file v name = Some d → content v' fd = d.
Proof.
  unfold open_view, file, content. intros Ho Hf.
  destruct (names v !! name) as [i|]; [|done]. cbn in Hf. subst v'.
  rewrite (bool_decide_false (O_TRUNC ∈ _)) by set_solver. cbn. by rewrite lookup_insert_eq, Hf.
Qed.

(** The bytes of the range that the file has. *)
Definition in_range (d : bytes) (offset n : Z) : bytes := take (Z.to_nat n) (drop (Z.to_nat offset) d).

(** The first bytes of the range are delivered, at least one if there is any, or
    none and an error. *)
Definition delivered (s : Status) (r : option bytes) (d : bytes) (offset n : Z) : Prop :=
  s = OK ∧ (∃ d', r = Some d' ∧ d' `prefix_of` in_range d offset n ∧
              (d' = [] → in_range d offset n = [])) ∨
  ok s = false ∧ default [] r = [].

(** A system whose [pread] always transfers everything that is asked for and there. *)
Definition whole_preads : Prop :=
  ∀ w fd n off w' d, sys_pread w fd n off = (w', Done d) → d = in_range (content (view w) fd) off n.

Lemma RandomAccess_Read_eq w f d offset n :
  serves w (Pread f) d → unlocked w (Pread f) → 0 <= offset < 2 ^ 64 →
  ∃ w' s r, RandomAccess_Read w f offset n = Some (w', s, r) ∧ view w' = view w ∧
    delivered s r d offset n ∧ (whole_preads → s = OK → r = Some (in_range d offset n)).
Proof.
  intros [Hn Hs] Hl Hoff. cbn [unlocked] in Hl.
  (* the read itself *)
  assert (Hread : ∀ w1 fd, content (view w1) fd = d → ∃ w2 s r,
    (let '(w2, read_size) := sys_pread w1 fd n (off_t offset) in
     '(status, result) ← match read_size with
                         | Done d => Some (OK, d)
                         | Errno e => s ← PosixError (rfilename_ f) e; Some (s, [])
                         end; Some (w2, status, result)) = Some (w2, s, r) ∧
    view w2 = view w1 ∧ delivered s (Some r) d offset n ∧
    (whole_preads → s = OK → r = in_range d offset n)).
  { intros w1 fd Hc. pose proof (view_pread w1 fd n (off_t offset)) as Hp.
    destruct (sys_pread w1 fd n (off_t offset)) as [w2 [m|e]] eqn:Ep; destruct Hp as [Hv Hp].
    - cbn zeta in Hp. destruct Hp as (Hpos & Hpre & Hend).
      rewrite (off_t_pos offset Hoff Hpos), Hc in *. exists w2, OK, m. split_and!; [done..| |].
      + left. split; [done|]. exists m. split_and!; [done..|]. intros ->.
        unfold in_range. destruct (decide (0 < n)) as [Hpn|Hpn].
        * by rewrite Hend, take_nil.
        * by rewrite Z2Nat.nonpos by lia.
      + intros Hw _. by rewrite (Hw _ _ _ _ _ _ Ep), Hc.
    - destruct (PosixError_not_ok (rfilename_ f) e Hn) as (s & -> & Hk). cbn [mbind option_bind].
      exists w2, s, []. split_and!; [done|done|by right|by intros _ ->]. }
  unfold RandomAccess_Read. destruct (has_permanent_fd_ f).
  - destruct Hs as [Hfd Hc]. rewrite (proj2 (Z.eqb_neq _ _)) by lia. cbn [negb].
    destruct (Hread w (rfd_ f) Hc) as (w2 & s & r & E & Hv & Hd & Hwh).
    destruct (sys_pread w (rfd_ f) n (off_t offset)) as [w3 o].
    apply bind_Some in E as [[s' r'] [-> E]]. cbn [mbind option_bind]. simplify_eq.
    exists w2, s, (Some r). split_and!; [done..|]. intros ? ?. by rewrite Hwh.
  - destruct Hs as [Hfd Hf]. pose proof (view_open w (rfilename_ f) [O_RDONLY]) as Ho.
    destruct (sys_open w (rfilename_ f) [O_RDONLY]) as [w1 [fd|e]].
    + destruct Ho as (Hp & Hfresh & Ho). rewrite (proj2 (Z.eqb_neq _ _)) by lia. cbn [negb].
      destruct (Hread w1 fd) as (w2 & s & r & E & Hv & Hd & Hwh); [by eapply opened_content|].
      destruct (sys_pread w1 fd n (off_t offset)) as [w3 o].
      apply bind_Some in E as [[s' r'] [-> E]]. cbn [mbind option_bind]. simplify_eq.
      rewrite (proj2 (Z.eqb_neq _ _)) by lia. cbn [negb].
      pose proof (view_close w2 fd) as Hc. destruct (sys_close w2 fd) as [w4 rc]. cbn in Hc.
      exists w4, s, (Some r). split_and!; [done| |done|by intros ? ?; rewrite Hwh].
      rewrite Hc, Hv.
      eapply close_opened; [exact Hfresh|exact Ho| |exact Hl].
      unfold file in Hf. by destruct (names (view w) !! rfilename_ f).
    + destruct (PosixError_not_ok (rfilename_ f) e Hn) as (s & -> & Hk). cbn [mbind option_bind].
      exists w1, s, None. split_and!; [done..|by right|by intros _ ->].
Qed.

Lemma Mmap_Read_eq w f d offset n :
  serves w (Mmap f) d → 0 <= offset → 0 <= n → offset + n < 2 ^ 64 →
  ∃ s r, Mmap_Read f offset n = Some (s, r) ∧
    (s = OK ∧ r = in_range d offset n ∨ ok s = false ∧ r = []) ∧
    (s = OK ↔ offset + n <= Z.of_nat (length d)).
Proof.
  intros (Hn & Hb & Hl) Ho Hnn Hs. unfold Mmap_Read. rewrite u64_small, Hl, Hb by lia.
  destruct (Z.ltb_spec (Z.of_nat (length d)) (offset + n)).
  - destruct (PosixError_not_ok (mfilename_ f) EINVAL Hn) as (s & -> & Hk). cbn [mbind option_bind].
    exists s, []. split_and!; [done|by right|]. split; [by intros ->|lia].
  - rewrite load_range_Some by lia. cbn [mbind option_bind]. eexists OK, _.
    split_and!; [done|by left|done].
Qed.
End reading.

(** C36: reading anywhere in a file, however it is kept open: through a permanent
    descriptor, through one opened for each read, or through a mapping.  With a
    range that ends below 2^64 a read never faults, changes nothing and leaves
    nothing open.  A mapping is OK and delivers exactly the range when the range is
    inside the file, and fails on every other.  A descriptor is OK and delivers the
    first bytes of the range that the file has, at least one if there is one, or
    fails and delivers none: [pread] is called once, so what a short transfer
    leaves out is missing from a result that is OK; on a system that transfers
    whole ranges the result is everything there is.  When [offset + n] wraps to a
    number not above the length, the mapping's check passes and the slice is
    outside the region. *)
Theorem Random_Read_correct {W} `{Posix W} `{!StrerrorLaws W} (view : W → View)
    `{!FsLaws W view} w f d offset n :
  serves view w f d → unlocked view w f → 0 <= offset < 2 ^ 64 → 0 <= n < 2 ^ 64 →
  match f with
  | Pread _ => ∃ w' s r, Random_Read w f offset n = Some (w', s, r) ∧ view w' = view w ∧
      delivered s r d offset n ∧ (whole_preads view → s = OK → r = Some (in_range d offset n))
  | Mmap _ =>
    (offset + n < 2 ^ 64 →
     ∃ s r, Random_Read w f offset n = Some (w, s, Some r) ∧
       (s = OK ∧ r = in_range d offset n ∨ ok s = false ∧ r = []) ∧
       (s = OK ↔ offset + n <= Z.of_nat (length d))) ∧
    (2 ^ 64 <= offset + n → offset + n - 2 ^ 64 <= Z.of_nat (length d) < 2 ^ 63 →
     Random_Read w f offset n = None)
  end.
Proof.
  intros Hs Hl Hoff Hn. destruct f as [f|f]; cbn [Random_Read].
  - by apply RandomAccess_Read_eq.
  - split.
    + intros Hlt. destruct (Mmap_Read_eq view w f d offset n Hs) as (s & r & -> & Hd); [lia..|].
      cbn [mbind option_bind]. by exists s, r.
    + intros Hge Hlen. destruct Hs as (Hnm & Hb & Hlf). unfold Mmap_Read.
      assert (E : u64 (offset + n) = offset + n - 2 ^ 64).
      { unfold u64. rewrite <- (Z.mod_add _ (-1)) by lia. rewrite Z.mod_small; lia. }
      rewrite E, Hlf, Hb, (proj2 (Z.ltb_ge _ _)) by lia.
      unfold load_range. rewrite decide_False by lia. done.
Qed.

(** A file of five bytes, open twice. *)
Definition five : Sim :=
  {| sview := {| names := {[str "f" := 0%nat]}; inodes := {[0%nat := str "hello"]};
                 fds := {[0 := (0%nat, Some 0%nat)]}; locks := ∅; maps := 0 |};
     outs := ∅; synced := ∅; others := ∅; signals := 0; chunk := 1; room := None; max_fds := 4 |}.

Lemma Random_Read_correct_witness :
  Random_Read five (Mmap {| mmap_base_ := str "hello"; length_ := 5; mfilename_ := str "f" |})
    (2 ^ 64 - 1) 2 = None ∧
  ∃ w' s r, Random_Read five (Pread {| has_permanent_fd_ := false; rfd_ := -1; rfilename_ := str "f" |})
    3 9 = Some (w', s, r) ∧ sview w' = sview five.
Proof.
  split.
  - apply (Random_Read_correct sview five
             (Mmap {| mmap_base_ := str "hello"; length_ := 5; mfilename_ := str "f" |})
             (str "hello") (2 ^ 64 - 1) 2); [done|done|lia|lia|lia|vm_compute; done].
  - destruct (Random_Read_correct sview five
             (Pread {| has_permanent_fd_ := false; rfd_ := -1; rfilename_ := str "f" |})
             (str "hello") 3 9) as (w' & s & r & E & Hv & _); [done|done|lia|lia|]. exists w', s, r. split; [exact E|exact Hv].
Defined.
