(* ===== verification/PosixEnv.v ===== *)
(** [PosixEnv] of util/env_posix.cc: opening files of every kind, the operations
    on names, and file locks.  The background queue is in Background.v. *)
From S2P Require Import Prelude Slice Coding Status Limiter Posix SimOS PosixFile PosixRandom.
Local Open Scope Z_scope.

(** [locks_] is the set inside [PosixLockTable]; each call on the table holds its
    mutex throughout. *)
Record PosixEnv := {
  locks_ : gset bytes; mmap_limiter_ : Limiter; fd_limiter_ : Limiter
}.

Definition with_locks (env : PosixEnv) (l : gset bytes) : PosixEnv :=
  {| locks_ := l; mmap_limiter_ := mmap_limiter_ env; fd_limiter_ := fd_limiter_ env |}.
Definition with_mmap_limiter (env : PosixEnv) (l : Limiter) : PosixEnv :=
  {| locks_ := locks_ env; mmap_limiter_ := l; fd_limiter_ := fd_limiter_ env |}.
Definition with_fd_limiter (env : PosixEnv) (l : Limiter) : PosixEnv :=
  {| locks_ := locks_ env; mmap_limiter_ := mmap_limiter_ env; fd_limiter_ := l |}.

(** [g_open_read_only_file_limit] and [getrlimit(RLIMIT_NOFILE)]. *)
Inductive rlimit := Failed | Infinity | Soft (rlim_cur : Z).

Definition kDefaultMmapLimit : Z := 1000.

(** The limit, and the new value of the variable. *)
Definition MaxOpenFiles (g_open_read_only_file_limit : Z) (rlim : rlimit) : Z :=
  if 0 <=? g_open_read_only_file_limit then g_open_read_only_file_limit
  else
    match rlim with
    | Failed => 50
    | Infinity => 2 ^ 31 - 1
    | Soft rlim_cur => i32 (rlim_cur / 5)
    end.

Definition PosixEnv_new (g_mmap_limit g_open_read_only_file_limit : Z) (rlim : rlimit)
    : option PosixEnv :=
  mmap_limiter ← Limiter_new g_mmap_limit;
  fd_limiter ← Limiter_new (MaxOpenFiles g_open_read_only_file_limit rlim);
  Some {| locks_ := ∅; mmap_limiter_ := mmap_limiter; fd_limiter_ := fd_limiter |}.

(** [PosixLockTable]: the new set, and whether the name was inserted. *)
Definition LockTable_Insert (locked_files : gset bytes) (fname : bytes) : gset bytes * bool :=
  ({[fname]} ∪ locked_files, bool_decide (fname ∉ locked_files)).
Definition LockTable_Remove (locked_files : gset bytes) (fname : bytes) : gset bytes :=
  locked_files ∖ {[fname]}.

Record PosixFileLock := { lfd_ : Z; lfilename_ : bytes }.

Section env.
Context {W : Type} `{Posix W}.
Implicit Types (w : W) (env : PosixEnv).

(** A null pointer in [*result] is [None]. *)
Definition NewSequentialFile w (filename : bytes) : option (W * Status * option PosixSequentialFile) :=
  match sys_open w filename [O_RDONLY] with
  | (w, Errno e) => s ← PosixError filename e; Some (w, s, None)
  | (w, Done fd) => Some (w, OK, Some {| sfd_ := fd; sfilename_ := filename |})
  end.

(** What [*size] is set to is the third component. *)
Definition GetFileSize w (filename : bytes) : option (W * Status * Z) :=
  match sys_stat_size w filename with
  | (w, Errno e) => s ← PosixError filename e; Some (w, s, 0)
  | (w, Done st_size) => Some (w, OK, u64 st_size)
  end.

(** The mapping of an open file: the middle of [NewRandomAccessFile]. *)
Definition map_file w (filename : bytes) (fd : Z) : option (W * Status * option RandomAccessFile) :=
  '(w, status, file_size) ← GetFileSize w filename;
  if ok status then
    match sys_mmap w file_size fd with
    | (w, Done mmap_base) =>
      Some (w, status, Some (Mmap {| mmap_base_ := mmap_base; length_ := file_size;
                                     mfilename_ := filename |}))
    | (w, Errno e) => s ← PosixError filename e; Some (w, s, None)
    end
  else Some (w, status, None).

Definition NewRandomAccessFile w env (filename : bytes)
    : option (W * PosixEnv * Status * option RandomAccessFile) :=
  match sys_open w filename [O_RDONLY] with
  | (w, Errno e) => s ← PosixError filename e; Some (w, env, s, None)
  | (w, Done fd) =>
    '(mmap_limiter, b) ← Acquire (mmap_limiter_ env);
    let env := with_mmap_limiter env mmap_limiter in
    if negb b then
      '(w, fd_limiter, f) ← PosixRandomAccessFile_new w filename fd (fd_limiter_ env);
      Some (w, with_fd_limiter env fd_limiter, OK, Some (Pread f))
    else
      '(w, status, result) ← map_file w filename fd;
      let '(w, _) := sys_close w fd in
      if negb (ok status) then
        mmap_limiter ← Release (mmap_limiter_ env);
        Some (w, with_mmap_limiter env mmap_limiter, status, result)
      else Some (w, env, status, result)
  end.

(** [delete] on a [RandomAccessFile*]. *)
Definition RandomAccessFile_destroy w env (f : RandomAccessFile) : option (W * PosixEnv) :=
  match f with
  | Pread f => '(w, l) ← PosixRandomAccessFile_destroy w f (fd_limiter_ env);
               Some (w, with_fd_limiter env l)
  | Mmap f => '(w, l) ← PosixMmapReadableFile_destroy w f (mmap_limiter_ env);
              Some (w, with_mmap_limiter env l)
  end.

(** The bodies of [NewWritableFile] and [NewAppendableFile] differ in a flag. *)
Definition open_writable (flag : oflag) w (filename : bytes)
    : option (W * Status * option PosixWritableFile) :=
  match sys_open w filename [flag; O_WRONLY; O_CREAT] with
  | (w, Errno e) => s ← PosixError filename e; Some (w, s, None)
  | (w, Done fd) => f ← PosixWritableFile_new filename fd; Some (w, OK, Some f)
  end.
Definition NewWritableFile := open_writable O_TRUNC.
Definition NewAppendableFile := open_writable O_APPEND.

Definition FileExists w (filename : bytes) : W * bool :=
  match sys_access w filename with (w, Done _) => (w, true) | (w, Errno _) => (w, false) end.

Definition GetChildren w (directory_path : bytes) : option (W * Status * list bytes) :=
  match sys_readdir w directory_path with
  | (w, Errno e) => s ← PosixError directory_path e; Some (w, s, [])
  | (w, Done entries) => Some (w, OK, entries)
  end.

(** [RemoveFile], [CreateDir], [RemoveDir] and [RenameFile] report one call. *)
Definition reported (r : W * sysres unit) (name : bytes) : option (W * Status) :=
  match r with
  | (w, Errno e) => s ← PosixError name e; Some (w, s)
  | (w, Done _) => Some (w, OK)
  end.
Definition RemoveFile w (filename : bytes) := reported (sys_unlink w filename) filename.
Definition CreateDir w (dirname : bytes) := reported (sys_mkdir w dirname) dirname.
Definition RemoveDir w (dirname : bytes) := reported (sys_rmdir w dirname) dirname.
Definition RenameFile w (from to : bytes) := reported (sys_rename w from to) from.

Definition LockOrUnlock w (fd : Z) (lock : bool) : W * sysres unit := sys_setlk w fd lock.

Definition LockFile w env (filename : bytes)
    : option (W * PosixEnv * Status * option PosixFileLock) :=
  match sys_open w filename [O_RDWR; O_CREAT] with
  | (w, Errno e) => s ← PosixError filename e; Some (w, env, s, None)
  | (w, Done fd) =>
    let '(locked, inserted) := LockTable_Insert (locks_ env) filename in
    let env := with_locks env locked in
    if negb inserted then
      let '(w, _) := sys_close w fd in
      s ← IOError (str "lock " ++ filename) (str "already held by process");
      Some (w, env, s, None)
    else
      match LockOrUnlock w fd true with
      | (w, Errno lock_errno) =>
        let '(w, _) := sys_close w fd in
        let env := with_locks env (LockTable_Remove (locks_ env) filename) in
        s ← PosixError (str "lock " ++ filename) lock_errno; Some (w, env, s, None)
      | (w, Done _) => Some (w, env, OK, Some {| lfd_ := fd; lfilename_ := filename |})
      end
  end.

(** The lock object is deleted exactly when the status is OK. *)
Definition UnlockFile w env (lock : PosixFileLock) : option (W * PosixEnv * Status) :=
  match LockOrUnlock w (lfd_ lock) false with
  | (w, Errno e) => s ← PosixError (str "unlock " ++ lfilename_ lock) e; Some (w, env, s)
  | (w, Done _) =>
    let env := with_locks env (LockTable_Remove (locks_ env) (lfilename_ lock)) in
    let '(w, _) := sys_close w (lfd_ lock) in Some (w, env, OK)
  end.

End env.

(** ** The constructor *)

(** The limits.  A limit that was set is used; otherwise a fifth of the
    descriptors the process may open, 50 if that cannot be asked and the largest
    [int] if there is no bound.  With a default mmap limit the constructor's
    assertions hold and all resources are free, unless a fifth of the bound does
    not fit an [int]: it is truncated, and when that makes it negative the
    assertion of [Limiter] fails. *)
Theorem PosixEnv_new_correct limit rlim :
  limit < 2 ^ 31 → (∀ cur, rlim = Soft cur → 0 <= cur < 2 ^ 64) →
  let max := MaxOpenFiles limit rlim in
  max = (if 0 <=? limit then limit else
         match rlim with Failed => 50 | Infinity => 2 ^ 31 - 1 | Soft cur => i32 (cur / 5) end) ∧
  (0 <= limit ∨ (∀ cur, rlim = Soft cur → cur / 5 < 2 ^ 31) →
     (∀ cur, limit < 0 → rlim = Soft cur → max = cur / 5) ∧
     ∃ env, PosixEnv_new kDefaultMmapLimit limit rlim = Some env ∧ locks_ env = ∅ ∧
       limiter_ok (mmap_limiter_ env) ∧ acquires_allowed_ (mmap_limiter_ env) = 1000 ∧
       limiter_ok (fd_limiter_ env) ∧ acquires_allowed_ (fd_limiter_ env) = max) ∧
  (∀ cur, limit < 0 → rlim = Soft cur → 2 ^ 31 <= cur / 5 < 2 ^ 32 →
     PosixEnv_new kDefaultMmapLimit limit rlim = None).
Proof.
  intros Hlim Hr max.
  assert (Hnew : ∀ m, Limiter_new m = if 0 <=? m then Some {| max_acquires_ := m; acquires_allowed_ := m |} else None)
    by done.
  split; [done|]. split.
  - intros Hfit. assert (Hrange : 0 <= max < 2 ^ 31 ∧ ∀ cur, limit < 0 → rlim = Soft cur → max = cur / 5).
    { unfold max, MaxOpenFiles. destruct (Z.leb_spec 0 limit); [split; lia|].
      destruct rlim as [| |cur]; [split; [lia|done]|split; [lia|done]|].
      destruct Hfit as [?|Hfit]; [lia|]. specialize (Hfit cur eq_refl). specialize (Hr cur eq_refl).
      assert (0 <= cur / 5) by (apply Z.div_pos; lia).
      rewrite i32_small by lia. split; [lia|]. by intros ? _ [= ->]. }
    destruct Hrange as [Hrange Hcur]. split; [done|].
    unfold PosixEnv_new. rewrite !Hnew. fold max. change (0 <=? kDefaultMmapLimit) with true.
    rewrite (proj2 (Z.leb_le _ _)) by lia. cbn [mbind option_bind]. eexists.
    split_and!; [done..| | | | ]; unfold limiter_ok, kDefaultMmapLimit; cbn; lia.
  - intros cur Hneg -> Hbig. unfold PosixEnv_new. rewrite !Hnew.
    change (0 <=? kDefaultMmapLimit) with true. cbn [mbind option_bind].
    assert (E : MaxOpenFiles limit (Soft cur) = cur / 5 - 2 ^ 32).
    { unfold MaxOpenFiles, i32. rewrite (proj2 (Z.leb_gt _ _)) by lia.
      set (q := cur / 5) in *. rewrite <- (Z.mod_add _ (-1)) by lia. rewrite Z.mod_small; lia. }
    rewrite E, (proj2 (Z.leb_gt _ _)) by lia. done.
Qed.

(** ** Opening files *)

Lemma file_named v filename d : file v filename = Some d → is_Some (names v !! filename).
Proof. unfold file. by destruct (names v !! filename). Qed.

Lemma opened_names v name fd v' :
  open_view v name [O_RDONLY] fd v' → is_Some (names v !! name) →
  names v' = names v ∧ inodes v' = inodes v ∧ locks v' = locks v ∧ maps v' = maps v.
Proof.
  unfold open_view. intros Ho [i Hi]. rewrite Hi in Ho.
  rewrite (bool_decide_false (O_TRUNC ∈ _)) in Ho by set_solver. by subst v'.
Qed.

Section opening.
Context {W : Type} `{Posix W} `{!StrerrorLaws W}.
Context (view : W → View) `{!FsLaws W view}.

(** No process lock stands on the file. *)
Definition not_locked (w : W) (filename : bytes) : Prop :=
  ∀ i, names (view w) !! filename = Some i → i ∉ locks (view w).

(** The permanent and the temporary descriptor. *)
Lemma Pread_new_eq w env filename fd w1 d :
  limiter_ok (fd_limiter_ env) → name_fits filename → 0 <= fd →
  file (view w) filename = Some d → not_locked w filename →
  fds (view w) !! fd = None → open_view (view w) filename [O_RDONLY] fd (view w1) →
  ∃ w' l f, PosixRandomAccessFile_new w1 filename fd (fd_limiter_ env) = Some (w', l, f) ∧
    serves view w' (Pread f) d ∧
    (if has_permanent_fd_ f
     then l = taken (fd_limiter_ env) 1 ∧ 0 < acquires_allowed_ (fd_limiter_ env) ∧
          fds (view w) !! rfd_ f = None ∧ open_view (view w) filename [O_RDONLY] (rfd_ f) (view w')
     else acquires_allowed_ (fd_limiter_ env) = 0 ∧ l = fd_limiter_ env ∧ view w' = view w) ∧
    ∃ w'', PosixRandomAccessFile_destroy w' f l = Some (w'', fd_limiter_ env) ∧ view w'' = view w.
Proof.
  intros Hl Hn Hp Hf Hnl Hfresh Ho. pose proof (file_named _ _ _ Hf) as Hnm.
  unfold PosixRandomAccessFile_new, PosixRandomAccessFile_destroy.
  rewrite Acquire_eq by done. destruct (Z.ltb_spec 0 (acquires_allowed_ (fd_limiter_ env)));
    cbn [mbind option_bind has_permanent_fd_ rfd_ negb]; [|change (-1 =? -1) with true]; cbn iota.
  - eexists _, _, _. split; [done|]. cbn [has_permanent_fd_ rfd_].
    split; [|split; [done|]].
    + split; [done|]. split; [done|]. cbn [rfd_]. by eapply opened_content.
    + rewrite (proj2 (Z.eqb_neq _ _)) by lia. cbn [negb].
      pose proof (view_close w1 fd) as Hc. destruct (sys_close w1 fd) as [w2 r]. cbn in Hc.
      rewrite Release_taken by done. cbn [mbind option_bind]. exists w2. split; [done|].
      rewrite Hc. by eapply close_opened.
  - pose proof (view_close w1 fd) as Hc. destruct (sys_close w1 fd) as [w2 r]. cbn in Hc.
    assert (Hv : view w2 = view w) by (rewrite Hc; by eapply close_opened).
    eexists _, _, _. split; [done|]. cbn [has_permanent_fd_ rfd_].
    split; [|split; [split; [destruct Hl; lia|done]|]].
    + split; [done|]. split; [done|]. cbn [rfilename_]. by rewrite Hv.
    + by exists w2.
Qed.

Lemma map_file_eq w filename fd d :
  name_fits filename → file (view w) filename = Some d → content (view w) fd = d →
  ∃ w' s r, map_file w filename fd = Some (w', s, r) ∧
    match r with
    | Some f => s = OK ∧ serves view w' f d ∧ d ≠ [] ∧ (∃ g, f = Mmap g) ∧
        view w' = set_maps (view w) (S (maps (view w)))
    | None => ok s = false ∧ view w' = view w
    end.
Proof.
  intros Hn Hf Hc. unfold map_file, GetFileSize. pose proof (view_stat w filename) as Hst.
  destruct (sys_stat_size w filename) as [w1 [n|e]]; destruct Hst as [Hv1 Hst]; cycle 1.
  { destruct (PosixError_not_ok filename e Hn) as (s & -> & Hk). cbn [mbind option_bind].
    rewrite Hk. by exists w1, s, None. }
  destruct Hst as [Hr Hlen]. specialize (Hlen d Hf). rewrite u64_small by lia.
  cbn [mbind option_bind ok]. pose proof (view_mmap w1 n fd) as Hm. rewrite Hv1 in Hm.
  destruct (sys_mmap w1 n fd) as [w2 [m|e]].
  - destruct Hm as (Hpos & Hv2 & Hlm & Hm). rewrite Hc in Hm.
    assert (m = d) as ->.
    { by rewrite !firstn_all2 in Hm by lia. }
    eexists w2, OK, _. split; [done|]. split_and!; try done.
    + intros ->. cbn in *. lia.
    + eauto.
  - destruct (PosixError_not_ok filename e Hn) as (s & -> & Hk). cbn [mbind option_bind].
    exists w2, s, None. split; [done|]. by rewrite Hm.
Qed.
End opening.

Lemma close_set_maps v n fd : close_view (set_maps v n) fd = set_maps (close_view v fd) n.
Proof. unfold close_view, set_maps, set_fds. cbn. by destruct (fds v !! fd) as [[i o]|]. Qed.

Lemma set_maps_id v n : n = maps v → set_maps v n = v.
Proof. intros ->. by destruct v. Qed.

Lemma with_mmap_limiter_id env l : l = mmap_limiter_ env → with_mmap_limiter env l = env.
Proof. intros ->. by destruct env. Qed.
Lemma with_fd_limiter_id env l : l = fd_limiter_ env → with_fd_limiter env l = env.
Proof. intros ->. by destruct env. Qed.

Section random_access.
Context {W : Type} `{Posix W} `{!StrerrorLaws W} (view : W → View) `{!FsLaws W view}.

(** What an object has taken when it is opened: a mapping and its resource, a
    descriptor and its resource, or nothing. *)
Definition acquired (w : W) env filename (w' : W) env' (f : RandomAccessFile) : Prop :=
  match f with
  | Mmap _ => 0 < acquires_allowed_ (mmap_limiter_ env) ∧
      env' = with_mmap_limiter env (taken (mmap_limiter_ env) 1) ∧
      view w' = set_maps (view w) (S (maps (view w)))
  | Pread f => acquires_allowed_ (mmap_limiter_ env) = 0 ∧
      if has_permanent_fd_ f
      then 0 < acquires_allowed_ (fd_limiter_ env) ∧
           env' = with_fd_limiter env (taken (fd_limiter_ env) 1) ∧
           open_view (view w) filename [O_RDONLY] (rfd_ f) (view w')
      else acquires_allowed_ (fd_limiter_ env) = 0 ∧ env' = env ∧ view w' = view w
  end.

(** Deleting the object gives everything back. *)
Definition given_back (w : W) env (w' : W) env' (f : RandomAccessFile) : Prop :=
  ∃ w'', RandomAccessFile_destroy w' env' f = Some (w'', env) ∧ view w'' = view w.

Lemma Pread_acquired w env filename fd w1 d :
  limiter_ok (mmap_limiter_ env) → acquires_allowed_ (mmap_limiter_ env) <= 0 →
  limiter_ok (fd_limiter_ env) → name_fits filename → 0 <= fd →
  file (view w) filename = Some d → not_locked view w filename →
  fds (view w) !! fd = None → open_view (view w) filename [O_RDONLY] fd (view w1) →
  ∃ w' l f, PosixRandomAccessFile_new w1 filename fd (fd_limiter_ env) = Some (w', l, f) ∧
    serves view w' (Pread f) d ∧
    acquired w env filename w' (with_fd_limiter env l) (Pread f) ∧
    given_back w env w' (with_fd_limiter env l) (Pread f).
Proof.
  intros Hlm Hno Hlf Hn Hp Hf Hnl Hfresh Ho.
  destruct (Pread_new_eq view w env filename fd w1 d Hlf Hn Hp Hf Hnl Hfresh Ho)
    as (w' & l & f & -> & Hs & Hacc & w'' & Hdel & Hv'').
  exists w', l, f. split_and!; [done..| |].
  - split; [destruct Hlm; lia|]. destruct (has_permanent_fd_ f).
    + destruct Hacc as (-> & ? & _ & ?). done.
    + destruct Hacc as (? & -> & Hv). by rewrite with_fd_limiter_id.
  - exists w''. split; [|done]. cbn [RandomAccessFile_destroy fd_limiter_ with_fd_limiter].
    rewrite Hdel. cbn [mbind option_bind]. by destruct env.
Qed.

Lemma Mmap_acquired w env filename w' g :
  limiter_ok (mmap_limiter_ env) → 0 < acquires_allowed_ (mmap_limiter_ env) →
  view w' = set_maps (view w) (S (maps (view w))) →
  let env' := with_mmap_limiter env (taken (mmap_limiter_ env) 1) in
  acquired w env filename w' env' (Mmap g) ∧ given_back w env w' env' (Mmap g).
Proof.
  intros Hlm Hroom Hv env'. split; [done|]. unfold given_back. cbn [RandomAccessFile_destroy].
  unfold PosixMmapReadableFile_destroy. cbn [mmap_limiter_ with_mmap_limiter env'].
  rewrite Release_taken by done. cbn [mbind option_bind]. eexists. split; [by destruct env|].
  rewrite view_munmap, Hv. cbn. by destruct (view w).
Qed.
End random_access.

(** C21: opening a file for random access.  The file is mapped while mappings are
    left, and otherwise read through a descriptor that is kept while descriptors
    are left.  The object serves exactly the bytes of the file and has taken from
    the limiters just what it uses; deleting it closes and unmaps everything and
    gives it back.  When the call fails, every descriptor, mapping and limiter is
    as it was.  It fails on an empty file as long as mappings are left, since
    [mmap] maps no empty region, and on a file that does not exist.  A descriptor
    is no substitute for a mapping that fails, unlike step 3 of doc/env.md has it:
    while mappings are left the call gives a mapping or an error. *)
Theorem NewRandomAccessFile_correct {W} `{Posix W} `{!StrerrorLaws W} (view : W → View)
    `{!FsLaws W view} w env filename :
  limiter_ok (mmap_limiter_ env) → limiter_ok (fd_limiter_ env) → name_fits filename →
  not_locked view w filename → (∀ i, names (view w) !! filename = Some i → i ∈ dom (inodes (view w))) →
  ∃ w' env' s r, NewRandomAccessFile w env filename = Some (w', env', s, r) ∧
  match r with
  | None => ok s = false ∧ view w' = view w ∧ env' = env
  | Some f => s = OK ∧
    (∃ d, file (view w) filename = Some d ∧ serves view w' f d ∧
       (d = [] → acquires_allowed_ (mmap_limiter_ env) = 0)) ∧
    acquired view w env filename w' env' f ∧ given_back view w env w' env' f ∧
    (0 < acquires_allowed_ (mmap_limiter_ env) → ∃ g, f = Mmap g)
  end.
Proof.
  intros Hlm Hlf Hn Hnl Hdom. unfold NewRandomAccessFile.
  pose proof (view_open w filename [O_RDONLY]) as Ho.
  destruct (sys_open w filename [O_RDONLY]) as [w1 [fd|e]]; cycle 1.
  { destruct (PosixError_not_ok filename e Hn) as (s & -> & Hk). cbn [mbind option_bind].
    by exists w1, env, s, None. }
  destruct Ho as (Hp & Hfresh & Ho). rewrite Acquire_eq by done. cbn [mbind option_bind].
  assert (Hnm : is_Some (names (view w) !! filename)).
  { unfold open_view in Ho. destruct (names (view w) !! filename); [done|]. destruct Ho. set_solver. }
  destruct Hnm as [i Hi]. pose proof (Hdom i Hi) as [d Hd]%elem_of_dom.
  assert (Hf : file (view w) filename = Some d) by (unfold file; by rewrite Hi).
  destruct (Z.ltb_spec 0 (acquires_allowed_ (mmap_limiter_ env))) as [Hroom|Hroom];
    cbn [mbind option_bind negb]; cycle 1.
  - rewrite with_mmap_limiter_id by done.
    destruct (Pread_acquired view w env filename fd w1 d) as (w' & l & f & -> & ? & ? & ?); [done..|].
    cbn [mbind option_bind]. eexists w', _, OK, (Some (Pread f)). split; [done|]. split; [done|].
    split; [|split_and!; [done..|lia]]. exists d. split_and!; [done..|]. intros _. destruct Hlm. lia.
  - destruct (opened_names _ _ _ _ Ho) as (En & Ei & El & Em); [by exists i|].
    destruct (map_file_eq view w1 filename fd d Hn) as (w2 & s & r & -> & Hr);
      [unfold file; by rewrite En, Ei|by eapply opened_content|]. cbn [mbind option_bind].
    pose proof (view_close w2 fd) as Hc. destruct (sys_close w2 fd) as [w3 rc]. cbn in Hc.
    assert (Hcl : close_view (view w1) fd = view w) by (eapply close_opened; eauto).
    destruct r as [f|].
    + destruct Hr as (-> & Hs & Hne & [g ->] & Hv2). cbn [ok negb].
      eexists w3, _, OK, (Some (Mmap g)). split; [done|]. split; [done|].
      split; [exists d; split_and!; [done|exact Hs|done]|].
      rewrite (assoc (∧)). split; [|by intros _; exists g].
      apply Mmap_acquired; [done..|]. by rewrite Hc, Hv2, close_set_maps, Hcl, Em.
    + destruct Hr as [Hk Hv2]. rewrite Hk. cbn [negb mmap_limiter_ with_mmap_limiter].
      rewrite Release_taken by done. cbn [mbind option_bind].
      eexists w3, _, s, None. split; [done|]. split_and!; [done| |by destruct env].
      by rewrite Hc, Hv2.
Qed.

Lemma NewRandomAccessFile_correct_witness :
  let env := {| locks_ := ∅; mmap_limiter_ := {| max_acquires_ := 1; acquires_allowed_ := 1 |};
                fd_limiter_ := {| max_acquires_ := 1; acquires_allowed_ := 0 |} |} in
  ∃ w' env' s r, NewRandomAccessFile five env (str "f") = Some (w', env', s, r).
Proof.
  intros env. destruct (NewRandomAccessFile_correct sview five env (str "f"))
    as (w' & env' & s & r & E & _).
  - split; cbn; lia.
  - split; cbn; lia.
  - vm_compute. done.
  - intros i Hi. cbn. set_solver.
  - intros i Hi. vm_compute in Hi. injection Hi as <-. apply elem_of_dom. exists (str "hello"). reflexivity.
  - exists w', env', s, r. exact E.
Defined.

Lemma PosixEnv_new_correct_witness :
  -1 < 2 ^ 31 ∧ PosixEnv_new kDefaultMmapLimit (-1) (Soft (2 ^ 34)) = None.
Proof.
  split; [lia|]. apply (PosixEnv_new_correct (-1) (Soft (2 ^ 34))) with (cur := 2 ^ 34);
    [lia|intros cur [= <-]; lia|lia|done|vm_compute; done].
Defined.

(** ** File locks *)

Section locks.
Context {W : Type} `{Posix W} `{!StrerrorLaws W}.
Context (view : W → View) `{!FsLaws W view}.
Implicit Types (w : W) (env : PosixEnv) (lock : PosixFileLock).

(** A lock object is in force: its name is in the table, and its descriptor holds
    the process's lock on the file. *)
Definition in_force w env lock : Prop :=
  lfilename_ lock ∈ locks_ env ∧
  ∃ i o, fds (view w) !! lfd_ lock = Some (i, o) ∧ i ∈ locks (view w).

Definition lock_name_fits (filename : bytes) : Prop := Z.of_nat (length filename) + 7 < 2 ^ 31.

Lemma lock_name_ok filename :
  lock_name_fits filename →
  name_fits filename ∧ name_fits (str "lock " ++ filename) ∧ name_fits (str "unlock " ++ filename).
Proof. unfold lock_name_fits, name_fits. rewrite !length_app. cbn. lia. Qed.

Lemma IOError_not_ok m1 m2 : msg_fits m1 m2 → ∃ s, IOError m1 m2 = Some s ∧ ok s = false.
Proof. intros Hm. unfold IOError. rewrite Status_new_eq by done. by eexists. Qed.

(** Closing a descriptor that was just opened restores the descriptors. *)
Lemma opened_closed v name fl fd v' :
  fds v !! fd = None → open_view v name fl fd v' → fds (close_view v' fd) = fds v.
Proof.
  intros Hf Ho. assert (E : delete fd (fds v') = fds v).
  { unfold open_view in Ho. destruct (names v !! name) as [i|].
    - subst v'. case_bool_decide; cbn; by rewrite delete_insert_id.
    - destruct Ho as (_ & i & nm & _ & _ & ->). cbn. by rewrite delete_insert_id. }
  unfold close_view. by destruct (fds v' !! fd) as [[i o]|].
Qed.

Lemma LockFile_eq w env filename :
  lock_name_fits filename →
  ∃ w' env' s r, LockFile w env filename = Some (w', env', s, r) ∧
    mmap_limiter_ env' = mmap_limiter_ env ∧ fd_limiter_ env' = fd_limiter_ env ∧
    match r with
    | Some lock => s = OK ∧ filename ∉ locks_ env ∧ locks_ env' = {[filename]} ∪ locks_ env ∧
        lfilename_ lock = filename ∧ in_force w' env' lock ∧ fds (view w) !! lfd_ lock = None
    | None => ok s = false ∧ locks_ env' = locks_ env ∧ fds (view w') = fds (view w)
    end.
Proof.
  intros (Hn & Hln & _)%lock_name_ok. unfold LockFile.
  pose proof (view_open w filename [O_RDWR; O_CREAT]) as Ho.
  destruct (sys_open w filename [O_RDWR; O_CREAT]) as [w1 [fd|e]]; cycle 1.
  { destruct (PosixError_not_ok filename e Hn) as (s & -> & Hk). cbn [mbind option_bind].
    exists w1, env, s, None. split_and!; try done. by rewrite Ho. }
  destruct Ho as (Hp & Hfresh & Ho). unfold LockTable_Insert, LockTable_Remove.
  case_bool_decide as Hin; cbn [negb]; cycle 1.
  { pose proof (view_close w1 fd) as Hc. destruct (sys_close w1 fd) as [w2 r]. cbn in Hc.
    destruct (IOError_not_ok (str "lock " ++ filename) (str "already held by process")) as (s & -> & Hk).
    { unfold msg_fits, name_fits in *. rewrite !length_app in *. cbn in *. lia. }
    cbn [mbind option_bind]. eexists w2, _, s, None. split_and!; try done.
    - cbn. set_solver.
    - rewrite Hc. by eapply opened_closed. }
  pose proof (view_setlk w1 fd true) as Hl. unfold LockOrUnlock.
  destruct (sys_setlk w1 fd true) as [w2 [u|e]].
  - destruct Hl as (i & o & Hi & Hv). eexists w2, _, OK, (Some _). split; [done|].
    split_and!; try done. split; cbn; [set_solver|].
    exists i, o. rewrite Hv. cbn. split; [done|set_solver].
  - pose proof (view_close w2 fd) as Hc. destruct (sys_close w2 fd) as [w3 r]. cbn in Hc.
    destruct (PosixError_not_ok (str "lock " ++ filename) e Hln) as (s & -> & Hk).
    cbn [mbind option_bind]. eexists w3, _, s, None. split_and!; try done.
    + cbn. set_solver.
    + rewrite Hc, Hl. by eapply opened_closed.
Qed.

Lemma UnlockFile_eq w env lock :
  lock_name_fits (lfilename_ lock) →
  ∃ w' env' s, UnlockFile w env lock = Some (w', env', s) ∧
    mmap_limiter_ env' = mmap_limiter_ env ∧ fd_limiter_ env' = fd_limiter_ env ∧
    (s = OK ∧ locks_ env' = locks_ env ∖ {[lfilename_ lock]} ∧
       (∃ i o, fds (view w) !! lfd_ lock = Some (i, o) ∧ i ∉ locks (view w')) ∧
       fds (view w') = delete (lfd_ lock) (fds (view w)) ∨
     ok s = false ∧ env' = env ∧ view w' = view w).
Proof.
  intros (_ & _ & Hun)%lock_name_ok. unfold UnlockFile, LockOrUnlock, LockTable_Remove.
  pose proof (view_setlk w (lfd_ lock) false) as Hl.
  destruct (sys_setlk w (lfd_ lock) false) as [w1 [u|e]].
  - destruct Hl as (i & o & Hi & Hv).
    pose proof (view_close w1 (lfd_ lock)) as Hc. destruct (sys_close w1 (lfd_ lock)) as [w2 r]. cbn in Hc.
    eexists w2, _, OK. split; [done|]. split_and!; try done. left.
    assert (Hi1 : fds (view w1) !! lfd_ lock = Some (i, o)) by (by rewrite Hv).
    unfold close_view in Hc. rewrite Hi1 in Hc. rewrite Hc, Hv. cbn.
    split_and!; try done. exists i, o. split; [done|set_solver].
  - destruct (PosixError_not_ok (str "unlock " ++ lfilename_ lock) e Hun) as (s & -> & Hk).
    cbn [mbind option_bind]. exists w1, env, s. split_and!; try done. by right.
Qed.

(** The lock objects that clients have, as calls of [LockFile] and [UnlockFile]
    come and go; between the calls the system may change. *)
Inductive lock_step : PosixEnv * list PosixFileLock → PosixEnv * list PosixFileLock → Prop :=
  | step_locked w env held filename w' env' s lock :
      lock_name_fits filename → LockFile w env filename = Some (w', env', s, Some lock) →
      lock_step (env, held) (env', lock :: held)
  | step_refused w env held filename w' env' s :
      lock_name_fits filename → LockFile w env filename = Some (w', env', s, None) →
      lock_step (env, held) (env', held)
  | step_unlocked w env l1 lock l2 w' env' :
      lock_name_fits (lfilename_ lock) → UnlockFile w env lock = Some (w', env', OK) →
      lock_step (env, l1 ++ lock :: l2) (env', l1 ++ l2)
  | step_not_unlocked w env held lock w' env' s :
      lock_name_fits (lfilename_ lock) → lock ∈ held → UnlockFile w env lock = Some (w', env', s) →
      ok s = false → lock_step (env, held) (env', held).

Definition locks_inv (st : PosixEnv * list PosixFileLock) : Prop :=
  NoDup (lfilename_ <$> st.2) ∧ locks_ st.1 = list_to_set (lfilename_ <$> st.2).

Lemma lock_step_inv st st' : lock_step st st' → locks_inv st → locks_inv st'.
Proof.
  unfold locks_inv. intros Hs [Hd Hl]. destruct Hs as
    [w env held filename w' env' s lock Hn E|w env held filename w' env' s Hn E
    |w env l1 lock l2 w' env' Hn E|w env held lock w' env' s Hn Hin E Hk]; cbn [fst snd] in *.
  - destruct (LockFile_eq w env filename Hn) as (? & ? & ? & ? & E' & _ & _ & Hr).
    rewrite E in E'. simplify_eq. destruct Hr as (_ & Hni & -> & <- & _). cbn [fmap list_fmap].
    split; [constructor; [|done]|cbn; by rewrite <- Hl]. rewrite Hl in Hni. set_solver.
  - destruct (LockFile_eq w env filename Hn) as (? & ? & ? & ? & E' & _ & _ & Hr).
    rewrite E in E'. simplify_eq. destruct Hr as (_ & -> & _). done.
  - destruct (UnlockFile_eq w env lock Hn) as (? & ? & ? & E' & _ & _ & Hr).
    rewrite E in E'. simplify_eq. destruct Hr as [(_ & -> & _)|[? _]]; [|done].
    rewrite fmap_app, fmap_cons in *. rewrite Hl.
    apply NoDup_app in Hd as (Hd1 & Hd2 & [Hd3 Hd4]%NoDup_cons).
    split; [apply NoDup_app; split_and!; [done| |done]; set_solver|].
    rewrite !list_to_set_app_L, list_to_set_cons. set_solver.
  - destruct (UnlockFile_eq w env lock Hn) as (? & ? & ? & E' & _ & _ & Hr).
    rewrite E in E'. simplify_eq. by destruct Hr as [[-> _]|(_ & -> & _)].
Qed.
End locks.

(** C22: locks exclude each other inside the process.  After any sequence of
    [LockFile] and [UnlockFile] calls, whatever the system answered and however it
    changed in between, no two outstanding locks have the same name and the lock
    table is the set of their names.  A call of [LockFile] never faults: with a
    name that is outstanding it fails, and whenever it fails no descriptor is left
    open and the table is unchanged; when it succeeds the lock is in force.
    [UnlockFile] either gives up the table entry, the process's lock and the
    descriptor, after which the name can be locked again, or fails and changes
    nothing. *)
Theorem LockFile_excludes {W} `{Posix W} `{!StrerrorLaws W} (view : W → View)
    `{!FsLaws W view} env0 env held :
  locks_ env0 = ∅ → rtc (lock_step (W := W)) (env0, []) (env, held) →
  NoDup (lfilename_ <$> held) ∧ locks_ env = list_to_set (lfilename_ <$> held) ∧
  (∀ (w : W) filename, lock_name_fits filename →
     ∃ w' env' s r, LockFile w env filename = Some (w', env', s, r) ∧
       (filename ∈ lfilename_ <$> held → r = None) ∧
       match r with
       | Some lock => s = OK ∧ lfilename_ lock = filename ∧ in_force view w' env' lock
       | None => ok s = false ∧ locks_ env' = locks_ env ∧ fds (view w') = fds (view w)
       end) ∧
  (∀ (w : W) lock, lock ∈ held → lock_name_fits (lfilename_ lock) →
     ∃ w' env' s, UnlockFile w env lock = Some (w', env', s) ∧
       (s = OK ∧ lfilename_ lock ∉ locks_ env' ∧ fds (view w') = delete (lfd_ lock) (fds (view w)) ∧
          (∃ i o, fds (view w) !! lfd_ lock = Some (i, o) ∧ i ∉ locks (view w')) ∨
        ok s = false ∧ env' = env ∧ view w' = view w)).
Proof.
  intros H0 Hr.
  assert (Hinv : locks_inv (env, held)).
  { assert (Hs : ∀ a b, rtc (lock_step (W := W)) a b → locks_inv a → locks_inv b).
    { induction 1; [done|]. intros. by eauto using lock_step_inv. }
    apply (Hs _ _ Hr). split; [constructor|exact H0]. }
  destruct Hinv as [Hd Hl]. cbn [fst snd] in *. split_and!; [done..| |].
  - intros w filename Hn. destruct (LockFile_eq view w env filename Hn)
      as (w' & env' & s & r & E & _ & _ & Hres). exists w', env', s, r. split; [done|].
    destruct r as [lock|]; [|by split_and!; try apply Hres].
    destruct Hres as (-> & Hni & _ & ? & ? & _). split; [|done].
    intros Hin. rewrite Hl in Hni. set_solver.
  - intros w lock Hin Hn. destruct (UnlockFile_eq view w env lock Hn)
      as (w' & env' & s & E & _ & _ & Hres). exists w', env', s. split; [done|].
    destruct Hres as [(-> & -> & ? & ?)|?]; [left|by right]. split_and!; try done. set_solver.
Qed.

(** C37: asking for a lock twice breaks it.  While a lock is in force on the file of
    its name, a second [LockFile] of that name for which the file can be opened is
    refused, as it should be; but its descriptor is closed again, and with it goes
    the process's lock on the file.  The first lock's name is still in the table and
    its descriptor still open, but it is not in force any more, so that another
    process can lock the file. *)
Theorem LockFile_drops_lock {W} `{Posix W} `{!StrerrorLaws W} (view : W → View)
    `{!FsLaws W view} w env lock fd :
  lock_name_fits (lfilename_ lock) → in_force view w env lock →
  names (view w) !! lfilename_ lock = fst <$> fds (view w) !! lfd_ lock →
  snd (sys_open w (lfilename_ lock) [O_RDWR; O_CREAT]) = Done fd →
  ∃ w' env' s, LockFile w env (lfilename_ lock) = Some (w', env', s, None) ∧ ok s = false ∧
    lfilename_ lock ∈ locks_ env' ∧ fds (view w') = fds (view w) ∧ ¬ in_force view w' env' lock ∧
    ∃ i, names (view w) !! lfilename_ lock = Some i ∧ i ∈ locks (view w) ∧
      locks (view w') = locks (view w) ∖ {[i]}.
Proof.
  intros (Hn & Hln & _)%lock_name_ok [Hin (i & o & Hi & Hl)] Hname E. rewrite Hi in Hname. unfold LockFile.
  set (filename := lfilename_ lock) in *.
  pose proof (view_open w filename [O_RDWR; O_CREAT]) as Ho.
  destruct (sys_open w filename [O_RDWR; O_CREAT]) as [w1 r]. cbn [snd] in E. subst r.
  destruct Ho as (_ & Hfresh & Ho). unfold LockTable_Insert.
  rewrite bool_decide_false by set_solver. cbn [negb].
  pose proof (view_close w1 fd) as Hc. destruct (sys_close w1 fd) as [w2 rc]. cbn in Hc.
  destruct (IOError_not_ok (str "lock " ++ filename) (str "already held by process")) as (s & -> & Hk).
  { unfold msg_fits, name_fits in *. rewrite !length_app in *. cbn in *. lia. }
  cbn [mbind option_bind]. eexists w2, _, s. split; [done|]. split; [done|]. split; [cbn; set_solver|].
  assert (Hfds : fds (view w2) = fds (view w)) by (rewrite Hc; by eapply opened_closed).
  unfold open_view in Ho. rewrite Hname in Ho. cbn in Ho.
  rewrite (bool_decide_false (O_TRUNC ∈ _)) in Ho by set_solver.
  assert (Hlocks : locks (view w2) = locks (view w) ∖ {[i]}).
  { rewrite Hc. unfold close_view. rewrite Ho. cbn. by rewrite lookup_insert_eq. }
  split; [done|]. split; [|by exists i].
  intros [_ (j & p & Hj & Hjl)]. rewrite Hfds, Hi in Hj. simplify_eq. set_solver.
Qed.

(** ** Names *)

(** The status of an operation on [name] that reports the result [r] of a call. *)
Definition reports {W} `{Posix W} {A} (r : sysres A) (name : bytes) (s : Status) : Prop :=
  match r with
  | Done _ => s = OK
  | Errno e => ok s = false ∧
      s = Some (state_of (if e =? ENOENT then kNotFound else kIOError) (full_msg name (strerror e)))
  end.

Section naming.
Context {W : Type} `{Posix W} `{!StrerrorLaws W} (view : W → View) `{!FsLaws W view}.
Implicit Types (w : W) (name : bytes).

Lemma PosixError_reports {A} name e :
  name_fits name → ∃ s, PosixError name e = Some s ∧ reports (Errno (A := A) e) name s.
Proof. intros Hn. rewrite PosixError_eq by done. eexists. by split. Qed.

Lemma reported_eq w' (r : sysres unit) name :
  name_fits name → ∃ s, reported (w', r) name = Some (w', s) ∧ reports r name s.
Proof.
  intros Hn. destruct r as [u|e]; cbn; [by exists OK|].
  destruct (PosixError_reports (A := unit) name e Hn) as (s & -> & Hs). by exists s.
Qed.

Lemma file_names v nm name : file (set_names v nm) name = i ← nm !! name; inodes v !! i.
Proof. done. Qed.

(** The files other than [name] and what is a link to it. *)
Definition others_kept w name w' : Prop :=
  ∀ n d, file (view w) n = Some d → names (view w) !! n ≠ names (view w) !! name →
    file (view w') n = Some d.

Lemma RemoveFile_eq w name :
  name_fits name →
  ∃ w' r s, sys_unlink w name = (w', r) ∧ RemoveFile w name = Some (w', s) ∧ reports r name s ∧
    match r with
    | Done _ => file (view w') name = None ∧ others_kept w name w'
    | Errno _ => view w' = view w
    end.
Proof.
  intros Hn. unfold RemoveFile. pose proof (view_unlink w name) as Hu.
  destruct (sys_unlink w name) as [w' r]. destruct (reported_eq w' r name Hn) as (s & -> & Hs).
  exists w', r, s. split_and!; [done..|]. destruct r as [u|e]; [|done].
  destruct Hu as (nm & [Hno Hkeep] & Hv). unfold others_kept. rewrite Hv, file_names, Hno.
  split; [done|]. intros n d Hd Hne. rewrite file_names. unfold file in Hd.
  destruct (names (view w) !! n) as [j|] eqn:Ej; [|done]. by rewrite (Hkeep n j).
Qed.

Lemma RenameFile_eq w from to :
  name_fits from →
  ∃ w' r s, sys_rename w from to = (w', r) ∧ RenameFile w from to = Some (w', s) ∧ reports r from s ∧
    match r with
    | Done _ => is_Some (names (view w) !! from) ∧ file (view w') to = file (view w) from ∧
        (if decide (names (view w) !! from = names (view w) !! to) then view w' = view w
         else file (view w') from = None) ∧
        (is_Some (file (view w) from) → ∀ n d, file (view w) n = Some d →
           names (view w) !! n ≠ names (view w) !! from → names (view w) !! n ≠ names (view w) !! to →
           file (view w') n = Some d)
    | Errno _ => view w' = view w
    end.
Proof.
  intros Hn. unfold RenameFile. pose proof (view_rename w from to) as Hu.
  destruct (sys_rename w from to) as [w' r]. destruct (reported_eq w' r from Hn) as (s & -> & Hs).
  exists w', r, s. split_and!; [done..|]. destruct r as [u|e]; [|done].
  destruct Hu as (nm & (i & Hi & Hto & Hsame & Hdiff & Hkeep) & Hv). rewrite Hv, !file_names.
  unfold file at 1. rewrite Hi, Hto. cbn [mbind option_bind]. split_and!; [done..| |].
  - case_decide as Hd; [rewrite Hsame by done; by destruct (view w)|by rewrite Hdiff by congruence].
  - intros [d0 Hd0] n d Hd Hnf Hnt. rewrite file_names. unfold file in Hd, Hd0. rewrite Hi in Hd0.
    cbn in Hd0. apply elem_of_dom_2 in Hd0.
    destruct (names (view w) !! n) as [j|] eqn:Ej; [|done].
    by rewrite (Hkeep Hd0 n j) by congruence.
Qed.

Lemma open_writable_eq flag w name :
  flag = O_TRUNC ∨ flag = O_APPEND → name_fits name →
  ∃ w' r s f, sys_open w name [flag; O_WRONLY; O_CREAT] = (w', r) ∧
    open_writable flag w name = Some (w', s, f) ∧ reports r name s ∧
    match r with
    | Done fd => ∃ g i, f = Some g ∧ file_ok g ∧ pending g = [] ∧ fd_ g = fd ∧ filename_ g = name ∧
        fds (view w) !! fd = None ∧ names (view w') !! name = Some i ∧
        fds (view w') !! fd = Some (i, if decide (flag = O_APPEND) then None else Some 0%nat) ∧
        inodes (view w') !! i = (if decide (flag = O_APPEND) then
          match names (view w) !! name with Some i => inodes (view w) !! i | None => Some [] end
          else Some [])
    | Errno _ => f = None ∧ view w' = view w
    end.
Proof.
  intros Hflag Hn. unfold open_writable. pose proof (view_open w name [flag; O_WRONLY; O_CREAT]) as Ho.
  destruct (sys_open w name [flag; O_WRONLY; O_CREAT]) as [w1 [fd|e]]; cycle 1.
  { destruct (PosixError_reports (A := Z) name e Hn) as (s & -> & Hs). cbn [mbind option_bind].
    by exists w1, (Errno e), s, None. }
  destruct Ho as (Hp & Hfresh & Ho).
  destruct (PosixWritableFile_new_ok name fd Hn) as (f & -> & Hf & Hfd & Hname & Hpe).
  cbn [mbind option_bind]. exists w1, (Done fd), OK, (Some f). split_and!; [done..|].
  unfold open_view in Ho.
  assert (Hb : bool_decide (O_APPEND ∈ [flag; O_WRONLY; O_CREAT]) = bool_decide (flag = O_APPEND) ∧
               bool_decide (O_TRUNC ∈ [flag; O_WRONLY; O_CREAT]) = negb (bool_decide (flag = O_APPEND)))
    by (by destruct Hflag as [-> | ->]).
  destruct Hb as [Hb1 Hb2]. rewrite Hb1, Hb2 in Ho.
  destruct (names (view w) !! name) as [i|] eqn:Ei; [|destruct Ho as (_ & i & nm & _ & [Hnm _] & Ho)];
    exists f, i; rewrite Ho; destruct (decide (flag = O_APPEND));
    [rewrite (bool_decide_true (flag = _)) by done|rewrite (bool_decide_false (flag = _)) by done..
    |rewrite (bool_decide_true (flag = _)) by done|rewrite (bool_decide_false (flag = _)) by done];
    cbn; rewrite ?lookup_insert_eq; by split_and!.
Qed.
End naming.

(** C38: the operations on names.  None faults, and each answers for the one call
    it makes: OK exactly when the call succeeds, and otherwise [NotFound] for
    [ENOENT] and [IOError] for any other error, with the name and the text of the
    error, and with nothing changed.  After OK a removed file is gone, a renamed one
    has its bytes under the new name and is gone from the old one, unless both
    names were links to one file, when nothing happens, and other files are as they
    were.  A size is the number of bytes.  [FileExists] holds exactly when the file
    can be accessed: the name then stands for a file, and stands for none when the
    answer is no because of [ENOENT].  A file opened for writing is empty when it is
    truncated, and an appendable one keeps its bytes and writes at the end. *)
Theorem PosixEnv_names_correct {W} `{Posix W} `{!StrerrorLaws W} (view : W → View)
    `{!FsLaws W view} (w : W) (name to : bytes) :
  name_fits name →
  (∃ w' r s, sys_unlink w name = (w', r) ∧ RemoveFile w name = Some (w', s) ∧ reports r name s ∧
     match r with
     | Done _ => file (view w') name = None ∧ others_kept view w name w'
     | Errno _ => view w' = view w
     end) ∧
  (∃ w' r s, sys_rename w name to = (w', r) ∧ RenameFile w name to = Some (w', s) ∧ reports r name s ∧
     match r with
     | Done _ => is_Some (names (view w) !! name) ∧ file (view w') to = file (view w) name ∧
         (if decide (names (view w) !! name = names (view w) !! to) then view w' = view w
          else file (view w') name = None) ∧
         (is_Some (file (view w) name) → ∀ n d, file (view w) n = Some d →
            names (view w) !! n ≠ names (view w) !! name → names (view w) !! n ≠ names (view w) !! to →
            file (view w') n = Some d)
     | Errno _ => view w' = view w
     end) ∧
  (∀ mk rm : W * sysres unit, mk = sys_mkdir w name → rm = sys_rmdir w name →
     ∃ s1 s2, CreateDir w name = Some (mk.1, s1) ∧ reports mk.2 name s1 ∧
       RemoveDir w name = Some (rm.1, s2) ∧ reports rm.2 name s2) ∧
  (∃ w' r s n, sys_stat_size w name = (w', r) ∧ GetFileSize w name = Some (w', s, n) ∧
     reports r name s ∧ view w' = view w ∧
     match r with
     | Done _ => ∀ d, file (view w) name = Some d → n = Z.of_nat (length d)
     | Errno _ => n = 0
     end) ∧
  (∃ w' r b, sys_access w name = (w', r) ∧ FileExists w name = (w', b) ∧ view w' = view w ∧
     match r with
     | Done _ => b = true ∧ is_Some (names (view w) !! name)
     | Errno e => b = false ∧ (e = ENOENT → names (view w) !! name = None)
     end) ∧
  (∃ w' r s l, sys_readdir w name = (w', r) ∧ GetChildren w name = Some (w', s, l) ∧
     reports r name s ∧ l = match r with Done entries => entries | Errno _ => [] end) ∧
  (∀ flag, flag = O_TRUNC ∨ flag = O_APPEND →
   ∃ w' r s f, sys_open w name [flag; O_WRONLY; O_CREAT] = (w', r) ∧
    open_writable flag w name = Some (w', s, f) ∧ reports r name s ∧
    match r with
    | Done fd => ∃ g i, f = Some g ∧ file_ok g ∧ pending g = [] ∧ fd_ g = fd ∧ filename_ g = name ∧
        fds (view w) !! fd = None ∧ names (view w') !! name = Some i ∧
        fds (view w') !! fd = Some (i, if decide (flag = O_APPEND) then None else Some 0%nat) ∧
        inodes (view w') !! i = (if decide (flag = O_APPEND) then
          match names (view w) !! name with Some i => inodes (view w) !! i | None => Some [] end
          else Some [])
    | Errno _ => f = None ∧ view w' = view w
    end) ∧
  (∀ e s, reports (Errno (A := unit) e) name s → IsNotFound s = Some (e =? ENOENT)).
Proof.
  intros Hn. split_and!; [by apply RemoveFile_eq|by apply RenameFile_eq| | | | |by intros; apply open_writable_eq|].
  - intros [w1 mk] [w2 rm] E1 E2. unfold CreateDir, RemoveDir. rewrite <- E1, <- E2.
    destruct (reported_eq w1 mk name Hn) as (s1 & -> & ?), (reported_eq w2 rm name Hn) as (s2 & -> & ?).
    by exists s1, s2.
  - unfold GetFileSize. pose proof (view_stat w name) as Hu.
    destruct (sys_stat_size w name) as [w1 [n|e]]; destruct Hu as [Hv Hu].
    + destruct Hu as [Hr Hlen]. rewrite u64_small by lia. by exists w1, (Done n), OK, n.
    + destruct (PosixError_reports (A := Z) name e Hn) as (s & -> & Hs). cbn [mbind option_bind].
      by exists w1, (Errno e), s, 0.
  - unfold FileExists. pose proof (view_access w name) as Hu.
    destruct (sys_access w name) as [w1 [u|e]]; destruct Hu as [Hv Hu];
      [by exists w1, (Done u), true|by exists w1, (Errno e), false].
  - unfold GetChildren. destruct (sys_readdir w name) as [w1 [l|e]]; [by exists w1, (Done l), OK, l|].
    destruct (PosixError_reports (A := list bytes) name e Hn) as (s & -> & Hs). cbn [mbind option_bind].
    by exists w1, (Errno e), s, [].
  - intros e s [_ ->]. by destruct (e =? ENOENT).
Qed.

(** ** Runs *)

Definition free_env : PosixEnv :=
  {| locks_ := ∅; mmap_limiter_ := {| max_acquires_ := 1; acquires_allowed_ := 1 |};
     fd_limiter_ := {| max_acquires_ := 1; acquires_allowed_ := 1 |} |}.

(** A lock that is in force. *)
Definition locked_env : PosixEnv := with_locks free_env {[str "f"]}.
Definition locked_sim : Sim :=
  with_view five (set_fds (set_locks (sview five) {[0%nat]}) {[7 := (0%nat, Some 0%nat)]}).

Lemma LockFile_excludes_witness :
  locks_ free_env = ∅ ∧
  ∃ w' env' s r, LockFile five free_env (str "f") = Some (w', env', s, r).
Proof.
  split; [done|]. destruct (LockFile_excludes (W := Sim) sview free_env free_env []) as (_ & _ & H & _).
  - done.
  - apply rtc_refl.
  - destruct (H five (str "f")) as (w' & env' & s & r & E & _); [vm_compute; done|].
    exists w', env', s, r. exact E.
Defined.

Lemma LockFile_drops_lock_witness :
  ∃ w' env' s, LockFile locked_sim locked_env (str "f") = Some (w', env', s, None) ∧
    str "f" ∈ locks_ env' ∧ (0%nat ∉ locks (sview w')).
Proof.
  destruct (LockFile_drops_lock sview locked_sim locked_env {| lfd_ := 7; lfilename_ := str "f" |} 8)
    as (w' & env' & s & E & _ & Hin & _ & _ & i & Hi & _ & Hl).
  - vm_compute. done.
  - split; [cbn; set_solver|]. exists 0%nat, (Some 0%nat). split; [vm_compute; done|cbn; set_solver].
  - vm_compute. done.
  - vm_compute. done.
  - exists w', env', s. split; [exact E|]. split; [exact Hin|].
    vm_compute in Hi. injection Hi as <-. set_solver.
Defined.

Lemma PosixEnv_names_correct_witness :
  name_fits (str "f") ∧
  ∃ w' s, RenameFile five (str "f") (str "g") = Some (w', s) ∧ s = OK ∧
    file (sview w') (str "g") = Some (str "hello").
Proof.
  split; [vm_compute; done|].
  destruct (PosixEnv_names_correct sview five (str "f") (str "g")) as (_ & (w' & r & s & E1 & E & Hs & Hr) & _);
    [vm_compute; done|].
  exists w', s. split; [exact E|]. vm_compute in E1. injection E1 as Ew <-. split; [exact Hs|].
  destruct Hr as (_ & Hf & _). rewrite Hf. vm_compute. reflexivity.
Defined.

(** One name is locked, refused, unlocked and locked again. *)
Example lock_run :
  ('(w, env, s1, l1) ← LockFile five free_env (str "LOCK");
   '(w, env, s2, l2) ← LockFile w env (str "LOCK");
   l1 ← l1;
   '(w, env, s3) ← UnlockFile w env l1;
   '(w, env, s4, l4) ← LockFile w env (str "LOCK");
   Some (ok s1, ok s2, ok s3, ok s4)) = Some (true, false, true, true).
Proof. vm_compute. reflexivity. Qed.

(** Random access: mapped, then through a descriptor, then without one.  The
    device transfers two bytes at a time: less than is asked for and there, and
    still OK. *)
Example random_run :
  ('(w, env, s1, f1) ← NewRandomAccessFile five free_env (str "f");
   '(w, env, s2, f2) ← NewRandomAccessFile w env (str "f");
   '(w, env, s3, f3) ← NewRandomAccessFile w env (str "f");
   f1 ← f1; f2 ← f2; f3 ← f3;
   '(w, s4, r4) ← Random_Read w f1 1 3;
   '(w, s5, r5) ← Random_Read w f2 1 9;
   '(w, s6, r6) ← Random_Read w f3 1 3;
   '(w, s7, r7) ← Random_Read w f1 1 9;
   Some (r4, r5, ok s5, r6, r7, ok s7, maps (sview w), size (fds (sview w)))) =
  Some (Some (str "ell"), Some (str "el"), true, Some (str "el"), Some [], false, 1%nat, 2%nat).
Proof. vm_compute. reflexivity. Qed.
