(* ===== verification/Env.v ===== *)
(** util/env.cc: whole files written and read through any [Env], and the default
    implementations of [Env].  The part of the interface they use is a type class
    over the state of the environment, with what it promises beside it. *)
From S2P Require Import Prelude Status File.
Local Open Scope Z_scope.

(** The operations of [Env] env.cc calls.  A file object is used together with
    the state of its environment; a null pointer in [*result] is [None]. *)
Class Env (E : Type) := {
  WFile : Type; SFile : Type;
  env_writable :: WritableFile (E * WFile);
  env_sequential :: SequentialFile (E * SFile);
  env_NewWritableFile : E → bytes → option (E * Status * option WFile);
  env_NewSequentialFile : E → bytes → option (E * Status * option SFile);
  env_RemoveFile : E → bytes → option (E * Status);
  delete_WFile : E → WFile → option E;
  delete_SFile : E → SFile → option E
}.

(** [EnvWrapper]: an environment that forwards to another. *)
Definition EnvWrapper {E} (target : Env E) : Env E := {|
  WFile := @WFile E target; SFile := @SFile E target;
  env_writable := @env_writable E target; env_sequential := @env_sequential E target;
  env_NewWritableFile e f := @env_NewWritableFile E target e f;
  env_NewSequentialFile e f := @env_NewSequentialFile E target e f;
  env_RemoveFile e f := @env_RemoveFile E target e f;
  delete_WFile e f := @delete_WFile E target e f;
  delete_SFile e f := @delete_SFile E target e f
|}.

(** ** The defaults of [Env] *)

Definition Env_NewAppendableFile (fname : bytes) : option Status :=
  NotSupported (str "NewAppendableFile") fname.

(** [RemoveFile] and [DeleteFile], and so [RemoveDir] and [DeleteDir]: a class
    derived from [Env] overrides some of the pair, and what it does not override
    calls the other. *)
Inductive remover := Remove | Delete.
Section defaults.
Context {E : Type} (override : remover → option (E → bytes → option (E * Status))).

Fixpoint remove (fuel : nat) (m : remover) (e : E) (fname : bytes) : option (E * Status) :=
  match fuel with
  | O => None
  | S fuel =>
    match override m with
    | Some f => f e fname
    | None => remove fuel (match m with Remove => Delete | Delete => Remove end) e fname
    end
  end.
End defaults.

(** ** Whole files *)

Section files.
Context {E : Type} `{Env E}.

Definition DoWriteStringToFile (env : E) (data fname : bytes) (should_sync : bool)
    : option (E * Status) :=
  '(env, s, file) ← env_NewWritableFile env fname;
  if negb (ok s) then Some (env, s)
  else
    file ← file;
    '(env, file, s) ← Append (env, file) data;
    '(env, file, s) ← if ok s && should_sync then Sync (env, file) else Some (env, file, s);
    '(env, file, s) ← if ok s then Close (env, file) else Some (env, file, s);
    env ← delete_WFile env file;
    if negb (ok s) then '(env, _) ← env_RemoveFile env fname; Some (env, s)
    else Some (env, s).

Definition WriteStringToFile (env : E) (data fname : bytes) : option (E * Status) :=
  DoWriteStringToFile env data fname false.
Definition WriteStringToFileSync (env : E) (data fname : bytes) : option (E * Status) :=
  DoWriteStringToFile env data fname true.

Definition kBufferSize : Z := 8192.

Fixpoint read_file (fuel : nat) (env : E) (file : SFile) (data : bytes)
    : option (E * SFile * Status * bytes) :=
  match fuel with
  | O => None
  | S fuel =>
    '(env, file, s, r) ← Read (env, file) kBufferSize;
    if negb (ok s) then Some (env, file, s, data)
    else
      let fragment := default [] r in
      let data := data ++ fragment in
      if bool_decide (fragment = []) then Some (env, file, s, data)
      else read_file fuel env file data
  end.

(** The environment, the status and [*data]. *)
Definition ReadFileToString (fuel : nat) (env : E) (fname : bytes) : option (E * Status * bytes) :=
  '(env, s, file) ← env_NewSequentialFile env fname;
  if negb (ok s) then Some (env, s, [])
  else
    file ← file;
    '(env, file, s, data) ← read_file fuel env file [];
    env ← delete_SFile env file;
    Some (env, s, data).
End files.

(** ** What an environment promises *)

(** [file e name] is the bytes of a file; [writing e f name d] says that [f] is open
    on it and that [d] has been written, [closed f] that it was closed, and
    [reading e f d] that [d] is left to read.  Any operation may fail, with a
    status that is not OK; the promise is about those that do not. *)
Class EnvLaws E `{Env E} (file : E → bytes → option bytes) (name_ok : bytes → Prop)
    (writing : E → WFile → bytes → bytes → Prop) (closed : WFile → Prop)
    (reading : E → SFile → bytes → Prop) := {
  new_writable_law : ∀ e name, name_ok name →
    ∃ e' s r, env_NewWritableFile e name = Some (e', s, r) ∧
      match r with
      | Some f => s = OK ∧ writing e' f name []
      | None => ok s = false ∧ ∀ n, file e' n = file e n
      end;
  append_law : ∀ e f name d d', writing e f name d →
    ∃ e' f' s, Append (e, f) d' = Some (e', f', s) ∧
      (s = OK ∧ writing e' f' name (d ++ d') ∨ ok s = false ∧ ∃ d'', writing e' f' name d'');
  sync_law : ∀ e f name d, writing e f name d →
    ∃ e' f' s, Sync (e, f) = Some (e', f', s) ∧
      (s = OK ∧ writing e' f' name d ∨ ok s = false ∧ ∃ d'', writing e' f' name d'');
  close_law : ∀ e f name d, writing e f name d →
    ∃ e' f' s, Close (e, f) = Some (e', f', s) ∧ closed f' ∧
      (s = OK ∧ file e' name = Some d ∨ ok s = false);
  delete_writing_law : ∀ e f name d, writing e f name d → ∃ e', delete_WFile e f = Some e';
  delete_closed_law : ∀ e f, closed f → delete_WFile e f = Some e;
  remove_law : ∀ e name, name_ok name →
    ∃ e' s, env_RemoveFile e name = Some (e', s) ∧ (s = OK ∧ file e' name = None ∨ ok s = false);
  new_sequential_law : ∀ e name d, name_ok name → file e name = Some d →
    ∃ e' s r, env_NewSequentialFile e name = Some (e', s, r) ∧
      match r with
      | Some f => s = OK ∧ reading e' f d
      | None => ok s = false
      end;
  read_law : ∀ e f d n, reading e f d → 0 < n < 2 ^ 62 →
    ∃ e' s r, Read (e, f) n = Some (e', f, s, r) ∧
      (s = OK ∧ (∃ d1 d2, r = Some d1 ∧ d = d1 ++ d2 ∧ reading e' f d2 ∧ (d1 = [] → d = [])) ∨
       ok s = false ∧ reading e' f d);
  delete_reading_law : ∀ e f d, reading e f d → ∃ e', delete_SFile e f = Some e'
}.

Section proofs.
Context {E : Type} `{Env E} (file : E → bytes → option bytes) (name_ok : bytes → Prop)
  (writing : E → WFile → bytes → bytes → Prop) (closed : WFile → Prop)
  (reading : E → SFile → bytes → Prop) `{!EnvLaws E file name_ok writing closed reading}.

(** Reading to the end: each round takes at least a byte, fails, or ends. *)
Lemma read_file_eq fuel : ∀ env f acc d,
  reading env f d → (length d < fuel)%nat →
  ∃ env' s r d', read_file fuel env f acc = Some (env', f, s, acc ++ r) ∧ reading env' f d' ∧
    (s = OK ∧ r = d ∨ ok s = false ∧ r `prefix_of` d).
Proof.
  induction fuel as [|k IH]; intros env f acc d Hr Hf; [lia|]. cbn [read_file].
  destruct (read_law env f d kBufferSize Hr) as (e1 & s & r & -> & Hs);
    [unfold kBufferSize; lia|]. cbn [mbind option_bind].
  destruct Hs as [(-> & d1 & d2 & -> & -> & Hr2 & He)|[Hk Hr2]]; cycle 1.
  { rewrite Hk. cbn [negb]. exists e1, s, [], d. rewrite app_nil_r.
    split_and!; [done..|]. right. split; [done|apply prefix_nil]. }
  cbn [ok negb]. change (default [] (Some d1)) with d1. case_bool_decide as Hd1.
  - subst d1. rewrite (He eq_refl) in *. exists e1, OK, [], d2. split_and!; [done..|by left].
  - rewrite length_app in Hf. destruct d1 as [|b d1]; [done|]. cbn [length] in Hf.
    destruct (IH e1 f (acc ++ b :: d1) d2 Hr2 ltac:(lia)) as (e2 & s & r & d' & -> & Hr' & Hs).
    exists e2, s, ((b :: d1) ++ r), d'. rewrite <- (assoc_L (++)). split_and!; [done..|].
    destruct Hs as [[-> ->]|[Hk Hp]]; [by left|right]. split; [done|by apply prefix_app].
Qed.

Lemma ReadFileToString_eq env fname d fuel :
  name_ok fname → file env fname = Some d → (length d < fuel)%nat →
  ∃ env' s data, ReadFileToString fuel env fname = Some (env', s, data) ∧
    (s = OK ∧ data = d ∨ ok s = false ∧ data `prefix_of` d).
Proof.
  intros Hn Hd Hfuel. unfold ReadFileToString.
  destruct (new_sequential_law env fname d Hn Hd) as (e1 & s & r & -> & Hr). cbn [mbind option_bind].
  destruct r as [f|]; cycle 1.
  { rewrite Hr. cbn [negb]. exists e1, s, []. split; [done|]. right. split; [done|apply prefix_nil]. }
  destruct Hr as (-> & Hr). cbn [ok negb mbind option_bind].
  destruct (read_file_eq fuel e1 f [] d Hr Hfuel) as (e2 & s & r & d' & -> & Hr' & Hs).
  cbn [mbind option_bind]. destruct (delete_reading_law e2 f d' Hr') as (e3 & ->).
  cbn [mbind option_bind]. by exists e3, s, r.
Qed.

(** The part of writing that ends with the file closed, or not. *)
Lemma write_all_eq env f name data should_sync :
  writing env f name [] →
  ∃ env' s, ('(env, f, s) ← Append (env, f) data;
             '(env, f, s) ← if ok s && should_sync then Sync (env, f) else Some (env, f, s);
             '(env, f, s) ← if ok s then Close (env, f) else Some (env, f, s);
             env ← delete_WFile env f; Some (env, s)) = Some (env', s) ∧
    (s = OK ∧ file env' name = Some data ∨ ok s = false).
Proof.
  intros Hw. destruct (append_law env f name [] data Hw) as (e1 & f1 & s1 & -> & Hs1).
  cbn [mbind option_bind].
  assert (Hsync : ∃ e2 f2 s2, (if ok s1 && should_sync then Sync (e1, f1) else Some (e1, f1, s1))
      = Some (e2, f2, s2) ∧
      (s2 = OK ∧ writing e2 f2 name data ∨ ok s2 = false ∧ ∃ d, writing e2 f2 name d)).
  { destruct Hs1 as [[-> Hw1]|[Hk Hw1]]; [|rewrite Hk; exists e1, f1, s1; auto].
    destruct should_sync; [|by exists e1, f1, OK; auto].
    destruct (sync_law e1 f1 name data Hw1) as (e2 & f2 & s2 & -> & Hs2). eauto 6. }
  destruct Hsync as (e2 & f2 & s2 & -> & Hs2). cbn [mbind option_bind].
  destruct Hs2 as [[-> Hw2]|[Hk [d Hw2]]]; change (ok OK) with true; cbn iota.
  - destruct (close_law e2 f2 name data Hw2) as (e3 & f3 & s3 & -> & Hcl & Hs3).
    cbn [mbind option_bind]. rewrite (delete_closed_law e3 f3 Hcl). cbn [mbind option_bind]. eauto.
  - rewrite Hk. cbn [mbind option_bind].
    destruct (delete_writing_law e2 f2 name d Hw2) as (e3 & ->). cbn [mbind option_bind]. eauto.
Qed.
End proofs.

(** C25: whole files through any environment that keeps its promises.  Writing
    never faults.  If the status is OK the file has exactly the given bytes, with
    or without synchronising, and reading it back gives them and OK, or an error;
    the loop ends after at most one round for each byte.  If it is not OK, either
    the file could not be created and nothing changed, or removing the file was
    the last thing done. *)
Theorem WriteStringToFile_roundtrip {E} `{Env E} (file : E → bytes → option bytes) name_ok
    writing closed reading `{!EnvLaws E file name_ok writing closed reading}
    env data fname should_sync :
  name_ok fname →
  ∃ env1 s, DoWriteStringToFile env data fname should_sync = Some (env1, s) ∧
  (s = OK ∧ file env1 fname = Some data ∧
     (∀ fuel, (length data < fuel)%nat →
        ∃ env2 s2 data2, ReadFileToString fuel env1 fname = Some (env2, s2, data2) ∧
          (s2 = OK ∧ data2 = data ∨ ok s2 = false)) ∨
   ok s = false ∧
     ((∀ n, file env1 n = file env n) ∨
      ∃ env0 s0, env_RemoveFile env0 fname = Some (env1, s0) ∧ (ok s0 = true → file env1 fname = None))).
Proof.
  intros Hn. unfold DoWriteStringToFile.
  destruct (new_writable_law env fname Hn) as (e1 & s & r & -> & Hr). cbn [mbind option_bind].
  destruct r as [f|]; cycle 1.
  { destruct Hr as [Hk Hr]. rewrite Hk. cbn [negb]. exists e1, s. auto. }
  destruct Hr as [-> Hw]. cbn [ok negb mbind option_bind].
  destruct (write_all_eq file name_ok writing closed reading e1 f fname data should_sync Hw)
    as (e2 & s2 & E2 & Hs2).
  repeat (apply bind_Some in E2 as ([[??]?] & -> & E2); cbn [mbind option_bind]).
  apply bind_Some in E2 as (e9 & -> & [= -> ->]). cbn [mbind option_bind].
  destruct Hs2 as [[-> Hd]|Hk]; cbn [ok negb].
  - exists e2, OK. split; [done|]. left. split_and!; [done..|]. intros fuel Hf.
    destruct (ReadFileToString_eq file name_ok writing closed reading e2 fname data fuel Hn Hd Hf)
      as (e4 & s4 & d4 & -> & Hs4).
    exists e4, s4, d4. split; [done|]. destruct Hs4 as [?|[? _]]; auto.
  - rewrite Hk. cbn [negb]. destruct (remove_law e2 fname Hn) as (e4 & s4 & Er & Hs4).
    rewrite Er. cbn [mbind option_bind]. exists e4, s2. split; [done|]. right. split; [done|].
    right. exists e2, s4. split; [done|]. intros Hok. destruct Hs4 as [[_ ?]|?]; congruence.
Qed.

(** The defaults of [Env].  A class that overrides one of [RemoveFile] and
    [DeleteFile] gets the other for it, and one that overrides both keeps them; a
    class that overrides neither recurses for ever. *)
Theorem Env_defaults {E} (override : remover → option (E → bytes → option (E * Status))) :
  (∀ m f fuel e fname, override m = Some f → remove override (S fuel) m e fname = f e fname) ∧
  (∀ f fuel e fname, override Delete = None → override Remove = Some f →
     remove override (S (S fuel)) Delete e fname = f e fname) ∧
  (∀ f fuel e fname, override Remove = None → override Delete = Some f →
     remove override (S (S fuel)) Remove e fname = f e fname) ∧
  (override Remove = None → override Delete = None →
     ∀ fuel m e fname, remove override fuel m e fname = None).
Proof.
  split_and!.
  - intros m f fuel e fname Hm. cbn [remove]. by rewrite Hm.
  - intros f fuel e fname Hd Hr. cbn [remove]. by rewrite Hd, Hr.
  - intros f fuel e fname Hr Hd. cbn [remove]. by rewrite Hr, Hd.
  - intros Hr Hd fuel. induction fuel as [|k IH]; intros m e fname; [done|]. cbn [remove].
    destruct m; by rewrite ?Hr, ?Hd.
Qed.

(** A wrapper that overrides nothing is its target: whatever the target promises, the
    wrapper does, and whole files are written and read through it alike. *)
Theorem EnvWrapper_forwards {E} (target : Env E) :
  EnvWrapper target = target ∧
  (∀ e data fname should_sync,
     @DoWriteStringToFile E (EnvWrapper target) e data fname should_sync
     = @DoWriteStringToFile E target e data fname should_sync) ∧
  ∀ fuel e fname, @ReadFileToString E (EnvWrapper target) fuel e fname
     = @ReadFileToString E target fuel e fname.
Proof. assert (EnvWrapper target = target) as -> by (by destruct target). done. Qed.
