(* ===== verification/EnvPosix.v ===== *)
(** The environment of util/env_posix.cc keeps the promises util/env.cc relies on:
    an instance of [EnvLaws] for every system that meets the laws of Posix.v. *)
From S2P Require Import Prelude Slice Coding Status File Env Posix SimOS PosixFile.
From S2P Require Import Limiter PosixRandom PosixEnv.
Local Open Scope Z_scope.

#[export] Instance posix_env {W} `{Posix W} : Env W := {
  WFile := PosixWritableFile;
  SFile := PosixSequentialFile;
  env_NewWritableFile := NewWritableFile;
  env_NewSequentialFile := NewSequentialFile;
  env_RemoveFile := RemoveFile;
  delete_WFile := PosixWritableFile_destroy;
  delete_SFile w f := Some (PosixSequentialFile_destroy w f)
}.

(** ** What every write preserves *)

Section invariant.
Context {W : Type} `{Posix W}.

(** [I] survives writes to [fd]. *)
Definition kept_by_writes (fd : Z) (I : W → Prop) : Prop :=
  ∀ w d, I w → d ≠ [] → I (fst (sys_write w fd d)).

Lemma WriteUnbuffered_inv fd I w f data w' s :
  kept_by_writes fd I → fd_ f = fd → I w → WriteUnbuffered w f data = Some (w', s) → I w'.
Proof.
  unfold WriteUnbuffered. generalize (S (interrupts w + length data)). intros fuel HI Hfd.
  revert w data. induction fuel as [|k IH]; intros w data Hw E; [done|].
  cbn [WriteUnbuffered_loop] in E. destruct data as [|b data]; [by simplify_eq|].
  pose proof (HI w (b :: data) Hw ltac:(done)) as La. rewrite Hfd in E.
  destruct (sys_write w fd (b :: data)) as [w1 [n|e]]; cbn [fst] in La; [by eapply IH|].
  case_match; [by eapply IH|]. apply bind_Some in E as (s' & _ & E). by simplify_eq.
Qed.

Lemma FlushBuffer_inv fd I w f w' f' s :
  kept_by_writes fd I → fd_ f = fd → I w → FlushBuffer w f = Some (w', f', s) → I w' ∧ fd_ f' = fd.
Proof.
  intros HI Hfd Hw E. unfold FlushBuffer in E. apply bind_Some in E as (d & _ & E).
  apply bind_Some in E as ([w1 s1] & E1 & E). simplify_eq. split; [|done].
  by eapply WriteUnbuffered_inv.
Qed.

Lemma Append_inv fd I w f data w' f' s :
  kept_by_writes fd I → fd_ f = fd → I w → Writable_Append w f data = Some (w', f', s) → I w'.
Proof.
  intros HI Hfd Hw E. unfold Writable_Append in E. apply bind_Some in E as (buf & _ & E).
  case_match; [by simplify_eq|]. apply bind_Some in E as ([[w1 f1] s1] & E1 & E).
  eapply FlushBuffer_inv in E1 as [Hw1 Hfd1]; [|done..].
  case_match; [by simplify_eq|]. case_match.
  - apply bind_Some in E as (buf' & _ & E). by simplify_eq.
  - apply bind_Some in E as ([w2 s2] & E2 & E). simplify_eq. by eapply WriteUnbuffered_inv.
Qed.

Lemma Sync_name w f w' f' s : Writable_Sync w f = Some (w', f', s) → filename_ f' = filename_ f.
Proof.
  intros E. unfold Writable_Sync in E. apply bind_Some in E as ([w1 s1] & _ & E).
  case_match; [by simplify_eq|]. apply bind_Some in E as ([[w2 f2] s2] & E2 & E).
  unfold FlushBuffer in E2. apply bind_Some in E2 as (d & _ & E2).
  apply bind_Some in E2 as ([w3 s3] & _ & E2). simplify_eq. case_match; [by simplify_eq|].
  apply bind_Some in E as ([w4 s4] & _ & E). by simplify_eq.
Qed.
End invariant.

Section env.
Context {W : Type} `{Posix W} `{!StrerrorLaws W} `{!Posix.ReadLaws W}.
Context (view : W → View) `{!FsLaws W view}.
Context (written durable : W → Z → bytes)
  `{!WriteLaws W (λ w, dom (fds (view w))) written durable}.
Implicit Types (w : W).

(** The descriptor stands at the end of the named file, which is what was written
    through it. *)
Definition linked w (fd : Z) (name : bytes) : Prop :=
  ∃ i, names (view w) !! name = Some i ∧
    fds (view w) !! fd = Some (i, Some (length (written w fd))) ∧
    inodes (view w) !! i = Some (written w fd).

Lemma linked_file w fd name : linked w fd name → file (view w) name = Some (written w fd).
Proof. intros (i & Hn & _ & Hi). unfold file. by rewrite Hn. Qed.

Lemma linked_open w fd name : linked w fd name → fd ∈ dom (fds (view w)).
Proof. intros (i & _ & Hf & _). by apply elem_of_dom_2 in Hf. Qed.

Lemma write_at_end old new : write_at old new (length old) = old ++ new.
Proof.
  unfold write_at. rewrite Nat.sub_diag, app_nil_r, firstn_all, drop_ge by lia.
  by rewrite app_nil_r.
Qed.

Lemma linked_writes fd name : kept_by_writes fd (λ w, linked w fd name).
Proof.
  intros w d (i & Hn & Hf & Hi) Hd. pose proof (write_law w fd d Hd) as Hw.
  pose proof (view_write w fd d Hd) as Hv.
  destruct (sys_write w fd d) as [w1 [k|e]]; cbn [fst]; destruct Hw as (_ & _ & Hw).
  - destruct Hw as [Hk Hwr], Hv as [_ Hv]. exists i. rewrite Hv. unfold write_view. rewrite Hf, Hi.
    cbn [default from_option id names fds inodes set_fds set_inodes fmap option_fmap option_map].
    rewrite write_at_end, !lookup_insert_eq, Hwr, length_app. done.
  - destruct Hw as [Hwr _]. exists i. by rewrite Hv, Hwr.
Qed.

(** Opening, syncing and closing a directory does not touch it. *)
Lemma linked_frame w w' fd name :
  linked w fd name → names (view w') = names (view w) → inodes (view w') = inodes (view w) →
  fds (view w') !! fd = fds (view w) !! fd → written w' fd = written w fd → linked w' fd name.
Proof. intros (i & ? & ? & ?) Hn Hi Hf Hw. exists i. by rewrite Hn, Hi, Hf, Hw. Qed.

Lemma linked_fsync w fd fd' name : linked w fd name → linked (fst (sys_fsync w fd')) fd name.
Proof.
  intros Hl. pose proof (view_fsync w fd') as Hv. pose proof (fsync_law w fd') as Hw.
  destruct (sys_fsync w fd') as [w1 r]. cbn [fst] in *. destruct Hw as (_ & Hw & _).
  by apply (linked_frame w); rewrite ?Hv.
Qed.

Lemma linked_close w fd fd' name :
  fd ≠ fd' → linked w fd name → linked (fst (sys_close w fd')) fd name.
Proof.
  intros Hne Hl. pose proof (view_close w fd') as Hv. pose proof (close_law w fd') as Hw.
  destruct (sys_close w fd') as [w1 r]. cbn [fst] in *. destruct Hw as (_ & Hw).
  apply (linked_frame w); rewrite ?Hv; unfold close_view; try done;
    destruct (fds (view w) !! fd') as [[??]|]; cbn; try done; by rewrite lookup_delete_ne.
Qed.

Lemma linked_open_dir w fd name dir :
  linked w fd name →
  match sys_open w dir [O_RDONLY] with
  | (w', Done fd') => fd ≠ fd' ∧ linked w' fd name
  | (w', Errno _) => linked w' fd name
  end.
Proof.
  intros Hl. pose proof (linked_open _ _ _ Hl) as Hfd.
  pose proof (view_open w dir [O_RDONLY]) as Hv. pose proof (open_law w dir [O_RDONLY]) as Hw.
  destruct (sys_open w dir [O_RDONLY]) as [w1 [fd'|e]]; destruct Hw as (Hw & _).
  - destruct Hv as (_ & Hfresh & Ho).
    assert (Hne : fd ≠ fd') by (intros ->; by apply elem_of_dom in Hfd as [? ?]; congruence).
    split; [done|]. unfold open_view in Ho. destruct (names (view w) !! dir) as [j|];
      [|destruct Ho as [Ho _]; set_solver].
    rewrite (bool_decide_false (O_TRUNC ∈ _)) in Ho by set_solver.
    apply (linked_frame w); rewrite ?Ho; cbn; try done; [by rewrite lookup_insert_ne|by apply Hw].
  - apply (linked_frame w); rewrite ?Hv; try done. by apply Hw.
Qed.

Lemma SyncFd_linked w fd path name w' s fd' :
  linked w fd name → SyncFd w fd' path = Some (w', s) → linked w' fd name.
Proof.
  intros Hl E. pose proof (linked_fsync w fd fd' name Hl) as La. unfold SyncFd in E.
  destruct (sys_fsync w fd') as [w1 [u|e]]; cbn [fst] in La; [by simplify_eq|].
  apply bind_Some in E as (s' & _ & E). by simplify_eq.
Qed.

Lemma SyncDirIfManifest_linked w f name w' s fd :
  linked w fd name → SyncDirIfManifest w f = Some (w', s) → linked w' fd name.
Proof.
  intros Hl E. unfold SyncDirIfManifest in E. case_match; [by simplify_eq|].
  pose proof (linked_open_dir w fd name (dirname_ f) Hl) as La.
  destruct (sys_open w (dirname_ f) [O_RDONLY]) as [w1 [fd'|e]].
  - destruct La as [Hne La]. apply bind_Some in E as ([w2 s2] & E2 & E).
    eapply SyncFd_linked in E2; [|exact La].
    pose proof (linked_close w2 fd fd' name Hne E2) as Lc.
    destruct (sys_close w2 fd') as [w3 r]. by simplify_eq.
  - apply bind_Some in E as (s' & _ & E). by simplify_eq.
Qed.

Lemma Sync_linked w f name w' f' s :
  linked w (fd_ f) name → Writable_Sync w f = Some (w', f', s) → linked w' (fd_ f) name.
Proof.
  intros Hl E. unfold Writable_Sync in E. apply bind_Some in E as ([w1 s1] & E1 & E).
  eapply SyncDirIfManifest_linked in E1; [|exact Hl]. case_match; [by simplify_eq|].
  apply bind_Some in E as ([[w2 f2] s2] & E2 & E).
  eapply (FlushBuffer_inv (fd_ f)) in E2 as [Lb Hfd]; [|apply linked_writes|done|exact E1].
  case_match; [by simplify_eq|]. apply bind_Some in E as ([w3 s3] & E3 & E). simplify_eq.
  by eapply SyncFd_linked in E3.
Qed.

(** ** The promises *)

Definition writing w (f : PosixWritableFile) (name d : bytes) : Prop :=
  file_ok f ∧ filename_ f = name ∧ 0 <= fd_ f ∧ linked w (fd_ f) name ∧
  d = written w (fd_ f) ++ pending f.
Definition closed (f : PosixWritableFile) : Prop := fd_ f = -1.
Definition reading w (f : PosixSequentialFile) (d : bytes) : Prop :=
  name_fits (sfilename_ f) ∧ sfd_ f ∈ dom (fds (view w)) ∧ unread (view w) (sfd_ f) = d.

#[local] Instance no_health : HealthyLaws W (λ _ _, False).
Proof. by split. Qed.

Lemma posix_new_writable w name :
  name_fits name →
  ∃ w' s r, NewWritableFile w name = Some (w', s, r) ∧
    match r with
    | Some f => s = OK ∧ writing w' f name []
    | None => ok s = false ∧ ∀ n, file (view w') n = file (view w) n
    end.
Proof.
  intros Hn. unfold NewWritableFile, open_writable.
  pose proof (view_open w name [O_TRUNC; O_WRONLY; O_CREAT]) as Hv.
  pose proof (open_law w name [O_TRUNC; O_WRONLY; O_CREAT]) as Hw.
  destruct (sys_open w name [O_TRUNC; O_WRONLY; O_CREAT]) as [w1 [fd|e]]; cycle 1.
  { destruct (PosixError_not_ok name e Hn) as (s & -> & Hk). cbn [mbind option_bind].
    exists w1, s, None. split_and!; try done. by rewrite Hv. }
  destruct (PosixWritableFile_new_ok name fd Hn) as (f & -> & Hf & Hfd & Hname & Hp).
  cbn [mbind option_bind]. exists w1, OK, (Some f). split; [done|]. split; [done|].
  destruct Hw as (_ & Hpos & _ & _ & Hwr), Hv as (_ & _ & Ho).
  unfold writing, linked. rewrite Hfd, Hp, Hwr. split_and!; try done.
  unfold open_view in Ho. rewrite (bool_decide_true (O_TRUNC ∈ _)) in Ho by set_solver.
  rewrite (bool_decide_false (O_APPEND ∈ _)) in Ho by set_solver.
  destruct (names (view w) !! name) as [i|] eqn:Ei; [|destruct Ho as (_ & i & nm & _ & [Hnm _] & Ho)];
    exists i; rewrite Ho; cbn; rewrite !lookup_insert_eq; by split_and!.
Qed.

Lemma posix_append w f name d d' :
  writing w f name d →
  ∃ w' f' s, Writable_Append w f d' = Some (w', f', s) ∧
    (s = OK ∧ writing w' f' name (d ++ d') ∨ ok s = false ∧ ∃ d'', writing w' f' name d'').
Proof.
  intros (Hf & Hname & Hpos & Hl & ->).
  destruct (Append_effect (λ w, dom (fds (view w))) written durable (λ _ _, False) w f d' Hf)
    as (w' & f' & s & E & [Hf' [Hn' _] _ Hd Hls] & Hfd & _ & _).
  exists w', f', s. split; [done|].
  assert (Hl' : linked w' (fd_ f) name).
  { by eapply (Append_inv (fd_ f)) in E; [|apply linked_writes|done|exact Hl]. }
  assert (Hw : writing w' f' name (written w' (fd_ f') ++ pending f')).
  { unfold writing. rewrite Hfd, Hn'. by split_and!. }
  destruct (decide (s = OK)) as [->|Hne]; [left|right; split; [by apply Hls|by eexists]].
  split; [done|]. rewrite <- (assoc_L (++)), <- (Hd eq_refl), <- Hfd. done.
Qed.

Lemma posix_sync w f name d :
  writing w f name d →
  ∃ w' f' s, Writable_Sync w f = Some (w', f', s) ∧
    (s = OK ∧ writing w' f' name d ∨ ok s = false ∧ ∃ d'', writing w' f' name d'').
Proof.
  intros (Hf & Hname & Hpos & Hl & ->).
  destruct (Sync_effect (λ w, dom (fds (view w))) written durable (λ _ _, False) w f Hf)
    as (w' & f' & s & E & Hf' & Hfd & _ & _ & Hs & _); [by eapply linked_open|].
  exists w', f', s. split; [done|]. pose proof (Sync_linked _ _ _ _ _ _ Hl E) as Hl'.
  assert (Hn' : filename_ f' = name) by (by apply Sync_name in E as ->).
  assert (Hw : writing w' f' name (written w' (fd_ f') ++ pending f')).
  { unfold writing. rewrite Hfd. by split_and!. }
  destruct Hs as [(-> & _ & Hwr & Hp)|[Hk _]]; [left|right; split; [done|by eexists]].
  split; [done|]. rewrite Hp, Hfd, Hwr, app_nil_r in Hw. done.
Qed.

Lemma posix_close w f name d :
  writing w f name d →
  ∃ w' f' s, Writable_Close w f = Some (w', f', s) ∧ closed f' ∧
    (s = OK ∧ file (view w') name = Some d ∨ ok s = false).
Proof.
  intros (Hf & Hname & Hpos & Hl & ->). unfold Writable_Close.
  destruct (FlushBuffer_effect (λ w, dom (fds (view w))) written durable (λ _ _, False) w f Hf)
    as (w1 & f1 & s1 & E1 & [_ _ _ Hd Hls] & -> & _ & _).
  rewrite E1. cbn [mbind option_bind fd_ set_buf filename_].
  eapply (FlushBuffer_inv (fd_ f)) in E1 as [Hl1 _]; [|apply linked_writes|done|exact Hl].
  apply linked_file in Hl1. rewrite pending_empty, app_nil_r in Hd.
  pose proof (view_close w1 (fd_ f)) as Hv. destruct (sys_close w1 (fd_ f)) as [w2 r].
  cbn [fst] in Hv.
  assert (Hfile : file (view w2) name = file (view w1) name).
  { rewrite Hv. unfold close_view, file. by destruct (fds (view w1) !! fd_ f) as [[??]|]. }
  assert (Hs : ∃ s, match r with
      | Done _ => Some s1
      | Errno e => if ok s1 then PosixError (filename_ f) e else Some s1
      end = Some s ∧ (s = OK ∧ s1 = OK ∨ ok s = false)).
  { assert (Hs1 : s1 = OK ∨ ok s1 = false) by (destruct (decide (s1 = OK)); [by left|right; by apply Hls]).
    destruct r as [u|e]; [exists s1; naive_solver|]. destruct Hs1 as [->|Hk].
    - destruct (PosixError_not_ok (filename_ f) e) as (s & -> & Hk); [by destruct Hf|]. eauto.
    - rewrite Hk. eauto. }
  destruct Hs as (s & -> & Hs). cbn [mbind option_bind]. eexists w2, _, s. split; [done|].
  split; [done|]. destruct Hs as [[-> ->]|Hk]; [left|by right]. split; [done|].
  by rewrite Hfile, Hl1, (Hd eq_refl).
Qed.

Lemma posix_new_sequential w name d :
  name_fits name → file (view w) name = Some d →
  ∃ w' s r, NewSequentialFile w name = Some (w', s, r) ∧
    match r with
    | Some f => s = OK ∧ reading w' f d
    | None => ok s = false
    end.
Proof.
  intros Hn Hd. unfold NewSequentialFile. pose proof (view_open w name [O_RDONLY]) as Hv.
  destruct (sys_open w name [O_RDONLY]) as [w1 [fd|e]]; cycle 1.
  { destruct (PosixError_not_ok name e Hn) as (s & -> & Hk). cbn [mbind option_bind].
    by exists w1, s, None. }
  destruct Hv as (_ & _ & Ho). eexists w1, OK, (Some _). split; [done|]. split; [done|].
  assert (Hc : content (view w1) fd = d) by (by eapply opened_content).
  unfold open_view in Ho. unfold file in Hd.
  destruct (names (view w) !! name) as [i|]; [|done]. cbn in Hd.
  rewrite (bool_decide_false (O_TRUNC ∈ _)), (bool_decide_false (O_APPEND ∈ _)) in Ho by set_solver.
  split; [done|]. cbn [sfd_]. split.
  - rewrite Ho. cbn. rewrite dom_insert_L. set_solver.
  - unfold unread. rewrite Hc. unfold position. rewrite Ho. cbn. by rewrite lookup_insert_eq.
Qed.

Lemma posix_read w f d n :
  reading w f d → 0 < n < 2 ^ 62 →
  ∃ w' s r, Read (w, f) n = Some ((w', f), s, r) ∧
    (s = OK ∧ (∃ d1 d2, r = Some d1 ∧ d = d1 ++ d2 ∧ reading w' f d2 ∧ (d1 = [] → d = [])) ∨
     ok s = false ∧ reading w' f d).
Proof.
  intros (Hn & Hfd & Hu) Hb. cbn [Read PosixSequentialFile_sequential].
  destruct (Sequential_Read_eq (λ w', view w' = view w) n f w Hn eq_refl) as (w0 & Hv0 & Hm).
  { intros w1 Hv1. pose proof (view_read w1 (sfd_ f) n) as Hv.
    destruct (sys_read w1 (sfd_ f) n) as [w2 [d1|e]]; [done|]. intros _. congruence. }
  pose proof (view_read w0 (sfd_ f) n) as Hv. rewrite Hv0 in Hv.
  destruct (sys_read w0 (sfd_ f) n) as [w1 [d1|e]].
  - destruct Hv as (_ & Hv & [d2 Hd2] & Hend). rewrite Hm. cbn [mbind option_bind].
    exists w1, OK, (Some d1). split; [done|]. left. split; [done|]. exists d1, d2.
    rewrite Hu in *. split_and!; [done|done| |intros ->; apply Hend; [done|lia]].
    destruct (unread_seek (view w) (sfd_ f) (position (view w) (sfd_ f) + length d1) Hfd) as [Hin Hun].
    rewrite <- Hv in Hin, Hun. split_and!; [done..|]. rewrite Hun, <- drop_drop.
    change (drop (position (view w) (sfd_ f)) (content (view w) (sfd_ f)))
      with (unread (view w) (sfd_ f)). by rewrite Hu, Hd2, drop_app_length.
  - destruct Hm as (_ & s & _ & Hk & ->). cbn [mbind option_bind]. exists w1, s, None.
    split; [done|]. right. split; [done|]. unfold reading. by rewrite Hv.
Qed.

#[export] Instance posix_env_laws :
  EnvLaws W (λ w name, file (view w) name) name_fits writing closed reading.
Proof.
  split; cbn [env_NewWritableFile env_NewSequentialFile env_RemoveFile delete_WFile delete_SFile
              posix_env env_writable env_sequential].
  - apply posix_new_writable.
  - intros w f name d d' Hw. destruct (posix_append w f name d d' Hw) as (w' & f' & s & E & Hs).
    exists w', f', s. split; [exact E|exact Hs].
  - intros w f name d Hw. destruct (posix_sync w f name d Hw) as (w' & f' & s & E & Hs).
    exists w', f', s. split; [exact E|exact Hs].
  - intros w f name d Hw. destruct (posix_close w f name d Hw) as (w' & f' & s & E & Hs).
    exists w', f', s. split; [exact E|exact Hs].
  - intros w f name d (Hf & _).
    destruct (Writable_destroy_eq (λ w, dom (fds (view w))) written durable (λ _ _, False) w f Hf)
      as (w' & E & _). by exists w'.
  - intros w f Hc. unfold PosixWritableFile_destroy. unfold closed in Hc. by rewrite Hc.
  - intros w name Hn. unfold RemoveFile, reported. pose proof (view_unlink w name) as Hv.
    destruct (sys_unlink w name) as [w1 [u|e]].
    + destruct Hv as (nm & [Hno _] & Hv). exists w1, OK. split; [done|]. left. split; [done|].
      by rewrite Hv, file_names, Hno.
    + destruct (PosixError_not_ok name e Hn) as (s & -> & Hk). cbn [mbind option_bind]. eauto.
  - intros w name d. apply posix_new_sequential.
  - intros w f d n Hr Hb. destruct (posix_read w f d n Hr Hb) as (w' & s & r & E & Hs).
    exists w', s, r. split; [exact E|exact Hs].
  - intros w f d _. by eexists.
Qed.
End env.

(** ** Runs *)

(** An empty disk with no directory, a device that takes two bytes at a time and is
    interrupted once; and the same with room for three bytes. *)
Definition empty_disk : Sim :=
  {| sview := {| names := ∅; inodes := ∅; fds := ∅; locks := ∅; maps := 0 |};
     outs := ∅; synced := ∅; others := ∅; signals := 1; chunk := 1; room := None; max_fds := 4 |}.
Definition small_disk : Sim := with_room empty_disk (Some 3%nat).

Lemma WriteStringToFile_roundtrip_witness :
  ∃ w1 s, DoWriteStringToFile empty_disk (str "hello") (str "f") true = Some (w1, s) ∧
    (s = OK ∧ file (sview w1) (str "f") = Some (str "hello") ∨ ok s = false).
Proof.
  destruct (WriteStringToFile_roundtrip (E := Sim) (H := posix_env) (λ w name, file (sview w) name) name_fits
              (writing sview sim_written) closed (reading sview) empty_disk (str "hello") (str "f") true)
    as (w1 & s & E & Hs); [vm_compute; done|].
  exists w1, s. split; [exact E|].
  destruct Hs as [(H1 & H2 & _)|[H1 _]]; [left|right]; auto.
Defined.

Example write_and_read :
  ('(w, s1) ← WriteStringToFileSync empty_disk (str "hello") (str "f");
   '(w, s2, data) ← ReadFileToString 9 w (str "f");
   Some (ok s1, ok s2, data, size (fds (sview w)))) = Some (true, true, str "hello", 0%nat).
Proof. vm_compute. reflexivity. Qed.

(** On a full device the file is removed again. *)
Example write_fails :
  ('(w, s1) ← WriteStringToFile small_disk (str "hello") (str "f");
   '(w, s2, data) ← ReadFileToString 9 w (str "f");
   Some (ok s1, ok s2, data, snd (FileExists w (str "f")))) = Some (false, false, [], false).
Proof. vm_compute. reflexivity. Qed.
