(* ===== verification/Background.v ===== *)
(** The background queue of [PosixEnv] (util/env_posix.cc): [Schedule], called by
    any number of threads, and [BackgroundThreadMain], as interleaved steps on a
    mutex, a condition variable and a queue.

    The step of a thread is what it does between two points where another thread
    can be noticed.  [Wait] gives up the mutex and sleeps in one step; it may wake
    without a signal. *)
From stdpp Require Import relations.
From S2P Require Import Prelude.

Section background.
Context {item : Type}.

(** A thread in [Schedule]: where it is, and what it schedules. *)
Inductive caller :=
  | Away
  | Starting (it : item)      (** has the mutex, at [if (!started_background_thread_)] *)
  | Signalling (it : item)    (** at [if (background_work_queue_.empty())] *)
  | Emplacing (it : item)     (** at [emplace] *)
  | Leaving.                  (** at [Unlock] *)

(** The background thread. *)
Inductive worker :=
  | Unborn
  | Locking                   (** at [Lock] *)
  | Testing                   (** has the mutex, at [while (empty())] *)
  | Waiting                   (** asleep in [Wait] *)
  | Woken                     (** in [Wait], taking the mutex back *)
  | Popping                   (** at the assertion and [front] *)
  | Unlocking (it : item)     (** at [Unlock], with the item in hand *)
  | Calling (it : item).      (** in the function *)

(** Who has [background_work_mutex_]. *)
Inductive holder := Worker | Caller (i : nat).

(** [Mutex] of include/mutex.h: taking a mutex that is taken blocks. *)
Definition Lock (m : option holder) (t : holder) : option (option holder) :=
  match m with None => Some (Some t) | Some _ => None end.
Definition Unlock (m : option holder) : option holder := None.

(** [emplaced] and [executed] are the histories of the queue and of the calls. *)
Record State := {
  mutex : option holder; started_background_thread_ : bool;
  background_work_queue_ : list item; background : worker; callers : list caller;
  emplaced : list item; executed : list item
}.

Definition PosixEnv_start (threads : nat) : State :=
  {| mutex := None; started_background_thread_ := false; background_work_queue_ := [];
     background := Unborn; callers := replicate threads Away; emplaced := []; executed := [] |}.

Definition set_caller (s : State) (m : option holder) (i : nat) (c : caller) : State :=
  {| mutex := m; started_background_thread_ := started_background_thread_ s;
     background_work_queue_ := background_work_queue_ s; background := background s;
     callers := <[i := c]> (callers s); emplaced := emplaced s; executed := executed s |}.
Definition set_background (s : State) (m : option holder) (b : worker) : State :=
  {| mutex := m; started_background_thread_ := started_background_thread_ s;
     background_work_queue_ := background_work_queue_ s; background := b;
     callers := callers s; emplaced := emplaced s; executed := executed s |}.

(** Creating the thread. *)
Definition start_thread (s : State) : State :=
  {| mutex := mutex s; started_background_thread_ := true;
     background_work_queue_ := background_work_queue_ s; background := Locking;
     callers := callers s; emplaced := emplaced s; executed := executed s |}.
(** [CondVar]: [Wait] gives up the mutex and sleeps; [Signal] wakes the thread that waits, if one does. *)
Definition Wait (s : State) : State := set_background s (Unlock (mutex s)) Waiting.
Definition Signal (s : State) : State :=
  match background s with Waiting => set_background s (mutex s) Woken | _ => s end.
Definition emplace (s : State) (it : item) : State :=
  {| mutex := mutex s; started_background_thread_ := started_background_thread_ s;
     background_work_queue_ := background_work_queue_ s ++ [it]; background := background s;
     callers := callers s; emplaced := emplaced s ++ [it]; executed := executed s |}.

(** [Schedule], from one point to the next. *)
Definition Schedule_step (s : State) (i : nat) : option State :=
  match callers s !! i with
  | Some (Starting it) =>
    let s := if started_background_thread_ s then s else start_thread s in
    Some (set_caller s (mutex s) i (Signalling it))
  | Some (Signalling it) =>
    let s := if decide (length (background_work_queue_ s) = 0) then Signal s else s in
    Some (set_caller s (mutex s) i (Emplacing it))
  | Some (Emplacing it) => Some (set_caller (emplace s it) (mutex s) i Leaving)
  | Some Leaving => Some (set_caller s (Unlock (mutex s)) i Away)
  | _ => None
  end.

(** [BackgroundThreadMain]: not enabled, or a new state, or ([Some None]) a failed
    assertion. *)
Definition BackgroundThreadMain_step (s : State) : option (option State) :=
  match background s with
  | Locking | Woken =>
    m ← Lock (mutex s) Worker; Some (Some (set_background s m Testing))
  | Testing =>
    Some (Some (if decide (length (background_work_queue_ s) = 0)
                then Wait s
                else set_background s (mutex s) Popping))
  | Popping =>
    Some match background_work_queue_ s with
         | [] => None
         | it :: queue =>
           Some {| mutex := mutex s; started_background_thread_ := started_background_thread_ s;
                   background_work_queue_ := queue; background := Unlocking it;
                   callers := callers s; emplaced := emplaced s; executed := executed s |}
         end
  | Unlocking it =>
    Some (Some {| mutex := Unlock (mutex s); started_background_thread_ := started_background_thread_ s;
                  background_work_queue_ := background_work_queue_ s; background := Calling it;
                  callers := callers s; emplaced := emplaced s; executed := executed s ++ [it] |})
  | Calling it => Some (Some (set_background s (mutex s) Locking))
  | Unborn | Waiting => None
  end.

(** Steps that finish what was begun; and with them, calls of [Schedule] that begin
    and wake-ups without a signal. *)
Inductive work (s : State) : option State → Prop :=
  | work_caller i s' : Schedule_step s i = Some s' → work s (Some s')
  | work_background o : BackgroundThreadMain_step s = Some o → work s o.

Inductive step (s : State) : option State → Prop :=
  | step_work o : work s o → step s o
  | step_call i it m : callers s !! i = Some Away → Lock (mutex s) (Caller i) = Some m →
      step s (Some (set_caller s m i (Starting it)))
  | step_spurious : background s = Waiting → step s (Some (set_background s (mutex s) Woken)).

Definition reachable (s s' : State) : Prop := rtc (λ a b, step a (Some b)) s s'.

(** ** The invariant *)

Definition in_hand (b : worker) : list item := match b with Unlocking it => [it] | _ => [] end.
Definition has_mutex (b : worker) : bool :=
  match b with Testing | Popping | Unlocking _ => true | _ => false end.

Definition born (b : worker) : bool := match b with Unborn => false | _ => true end.

Definition others_away (s : State) (i : nat) : Prop :=
  ∀ j c, callers s !! j = Some c → j ≠ i → c = Away.
Definition all_away (s : State) : Prop := ∀ j c, callers s !! j = Some c → c = Away.

(** Where a caller that has the mutex may be, given the background thread: it has
    been started once the caller is past the test, and it does not wait when an
    item is about to be added. *)
Definition caller_ok (b : worker) (c : caller) : Prop :=
  c ≠ Away ∧ (b = Unborn → ∃ it, c = Starting it) ∧ (b = Waiting → ∀ it, c ≠ Emplacing it).

Record inv (s : State) : Prop := {
  (** the mutex belongs to the only thread that is inside *)
  inv_mutex : match mutex s with
    | Some (Caller i) => has_mutex (background s) = false ∧ others_away s i ∧
        ∃ c, callers s !! i = Some c ∧ caller_ok (background s) c
    | Some Worker => has_mutex (background s) = true ∧ all_away s
    | None => has_mutex (background s) = false ∧ all_away s
    end;
  inv_started : started_background_thread_ s = born (background s);
  (** nothing waits, or is missing, while there is work *)
  inv_idle : background s = Unborn ∨ background s = Waiting →
    background_work_queue_ s = [];
  inv_popping : background s = Popping → background_work_queue_ s ≠ [];
  (** first in, first out, each once *)
  inv_fifo : emplaced s = executed s ++ in_hand (background s) ++ background_work_queue_ s
}.

Lemma sched_inv_start threads : inv (PosixEnv_start threads).
Proof. split; try done. split; [done|]. by intros i c [-> _]%lookup_replicate. Qed.

Lemma caller_inside s i c :
  inv s → callers s !! i = Some c → c ≠ Away →
  mutex s = Some (Caller i) ∧ has_mutex (background s) = false ∧ others_away s i ∧
  caller_ok (background s) c.
Proof.
  intros Hi Hc Hne. pose proof (inv_mutex s Hi) as Hm.
  destruct (mutex s) as [[|j]|]; [destruct Hm as [_ Ha]; by apply Ha in Hc| |
    destruct Hm as [_ Ha]; by apply Ha in Hc].
  destruct Hm as (Hb & Ho & c' & Hc' & Hok). destruct (decide (i = j)) as [->|Hij].
  - rewrite Hc in Hc'. simplify_eq. by split_and!.
  - destruct Hne. by apply (Ho i).
Qed.

Lemma others_away_insert s s' i c :
  others_away s i → callers s' = <[i := c]> (callers s) → others_away s' i.
Proof.
  intros Ho E j c' Hj Hne. rewrite E, list_lookup_insert_ne in Hj by done. by eapply Ho.
Qed.

Lemma lookup_set s i c (d : caller) : callers s !! i = Some c → <[i := d]> (callers s) !! i = Some d.
Proof. intros Hc. apply list_lookup_insert_eq. by eapply lookup_lt_Some. Qed.

Lemma Schedule_step_inv s i s' : inv s → Schedule_step s i = Some s' → inv s'.
Proof.
  intros Hi E. unfold Schedule_step in E. destruct (callers s !! i) as [c|] eqn:Hc; [|done].
  assert (Hne : c ≠ Away) by (by intros ->).
  destruct (caller_inside s i c Hi Hc Hne) as (Hm & Hb & Ho & _ & Hun & Hwa).
  pose proof (lookup_set s i c) as Hset. pose proof (λ s' c', others_away_insert s s' i c' Ho) as Hoth.
  destruct Hi as [_ Hst Hid Hpo Hff].
  destruct c as [|it|it|it|]; [done| | | |]; injection E as <-.
  - (* Starting *)
    destruct (started_background_thread_ s) eqn:Est.
    + split; cbn; rewrite ?Hm, ?Est; try done.
      split_and!; [done|by eapply Hoth|]. exists (Signalling it). rewrite Hset by done.
      split; [done|]. split; [done|]. split; [|done]. intros Eb. by rewrite Eb in Hst.
    + split; cbn; rewrite ?Hm; try done.
      * split_and!; [done|by eapply Hoth|]. exists (Signalling it). by rewrite Hset by done.
      * by intros [|].
      * rewrite Hff. by destruct (background s).
  - (* Signalling *)
    case_decide as Hq.
    + apply nil_length_inv in Hq.
      assert (Hs : Signal s = set_background s (mutex s)
        (match background s with Waiting => Woken | b => b end)).
      { unfold Signal. destruct s, background0; reflexivity. }
      rewrite Hs. split; cbn; rewrite ?Hm.
      * split_and!; [by destruct (background s)|by eapply Hoth|].
        exists (Emplacing it). rewrite Hset by done. split; [done|].
        split; [done|]. split; [|by destruct (background s)]. intros Eb. destruct Hun; [|done].
        by destruct (background s).
      * by rewrite Hst; destruct (background s).
      * by intros _.
      * intros Eb. exfalso. by destruct (background s).
      * rewrite Hff. by destruct (background s).
    + split; cbn; rewrite ?Hm; try done.
      split_and!; [done|by eapply Hoth|]. exists (Emplacing it). rewrite Hset by done.
      split; [done|]. split; [done|]. split; intros Eb; [by destruct (Hun Eb)|].
      by rewrite Hid in Hq by auto.
  - (* Emplacing *)
    split; cbn; rewrite ?Hm; try done.
    + split_and!; [done|by eapply Hoth|]. exists Leaving. rewrite Hset by done.
      split; [done|]. split; [done|]. split; [|done]. intros Eb. by destruct (Hun Eb).
    + intros [Eb|Eb]; [by destruct (Hun Eb)|by destruct (Hwa Eb it)].
    + intros _ Hq. by apply app_nil in Hq as [_ ?].
    + by rewrite Hff, !(assoc_L (++)).
  - (* Leaving *)
    split; cbn; try done. split; [done|]. intros j c Hj. cbn in Hj.
    destruct (decide (j = i)) as [->|Hne']; [rewrite Hset in Hj by done; congruence|].
    rewrite list_lookup_insert_ne in Hj by done. by apply (Ho j).
Qed.

(** A step of the background thread keeps the invariant and its assertion holds. *)
Lemma BackgroundThreadMain_step_inv s o :
  inv s → BackgroundThreadMain_step s = Some o → ∃ s', o = Some s' ∧ inv s'.
Proof.
  intros [Hmu Hst Hid Hpo Hff] E. unfold BackgroundThreadMain_step in E.
  assert (Hall : mutex s = None ∨ mutex s = Some Worker → all_away s).
  { intros [Em|Em]; rewrite Em in Hmu; apply Hmu. }
  assert (Hown : has_mutex (background s) = true → mutex s = Some Worker).
  { intros Eb. destruct (mutex s) as [[|j]|]; [done| |]; destruct Hmu; congruence. }
  destruct (background s) as [| | | | | |it|it] eqn:Eb; try done.
  - destruct (mutex s) eqn:Em; [done|]. injection E as <-. eexists. split; [done|].
    split; cbn; try done; [by split; auto|by intros [|]].
  - injection E as <-. eexists. split; [done|]. rewrite Hown by done.
    case_decide as Hq.
    + apply nil_length_inv in Hq. split; cbn; try done. by split; auto.
    + split; cbn; try done; [by split; auto|by intros [|]|]. intros _ Hn. by rewrite Hn in Hq.
  - destruct (mutex s) eqn:Em; [done|]. injection E as <-. eexists. split; [done|].
    split; cbn; try done; [by split; auto|by intros [|]].
  - destruct (background_work_queue_ s) as [|it q] eqn:Eq; [by destruct Hpo|].
    injection E as <-. eexists. split; [done|]. rewrite Hown by done.
    split; cbn; try done; [by split; auto|by intros [|]].
  - injection E as <-. eexists. split; [done|].
    split; cbn; try done; [by split; auto|by intros [|]|]. by rewrite Hff, (assoc_L (++)).
  - injection E as <-. eexists. split; [done|].
    split; cbn; try done; [|by intros [|]].
    destruct (mutex s) as [[|i]|]; [done| |done].
    destruct Hmu as (? & ? & c & ? & ? & ? & ?). split_and!; [done..|]. exists c. by split.
Qed.

Lemma Lock_free m t m' : Lock m t = Some m' → m = None ∧ m' = Some t.
Proof. destruct m; [done|]. by intros [= <-]. Qed.

Lemma step_inv s o : inv s → step s o → ∃ s', o = Some s' ∧ inv s'.
Proof.
  intros Hi Hs. destruct Hs as [o [i s' E|o' E]|i it m Hc Hm|Hb].
  - eexists. split; [done|]. by eapply Schedule_step_inv.
  - by eapply BackgroundThreadMain_step_inv.
  - eexists. split; [done|]. destruct Hi as [Hmu Hst Hid Hpo Hff]. apply Lock_free in Hm as [Hm ->].
    rewrite Hm in Hmu.
    destruct Hmu as [Hmu Hall]. split; cbn; try done. split_and!; [done| |].
    + intros j c Hj Hne. cbn in Hj. rewrite list_lookup_insert_ne in Hj by done. by apply (Hall j).
    + exists (Starting it). rewrite (lookup_set s i Away) by done.
      split; [done|]. split; [done|]. split; [by eexists|done].
  - eexists. split; [done|]. destruct Hi as [Hmu Hst Hid Hpo Hff]. rewrite Hb in *.
    split; cbn; try done; [|by intros [|]].
    destruct (mutex s) as [[|i]|]; [done| |done].
    destruct Hmu as (? & ? & c & ? & ? & ? & ?). split_and!; [done..|]. exists c. by split.
Qed.

Lemma sched_inv_reachable threads s : reachable (PosixEnv_start threads) s → inv s.
Proof.
  intros Hr. unfold reachable in Hr. remember (PosixEnv_start threads) as s0 eqn:E.
  assert (Hi : inv s0) by (subst; apply sched_inv_start). clear E.
  induction Hr as [|a b c Hab _ IH]; [done|]. apply IH.
  by destruct (step_inv a (Some b) Hi Hab) as (b' & [= <-] & ?).
Qed.

(** ** Work runs out *)

Definition caller_weight (c : caller) : nat :=
  match c with
  | Away => 0 | Leaving => 1 | Emplacing _ => 12 | Signalling _ => 16 | Starting _ => 20
  end.
Definition worker_weight (b : worker) : nat :=
  match b with
  | Unborn | Waiting => 0 | Popping => 1 | Testing => 2 | Locking | Woken => 3
  | Calling _ => 4 | Unlocking _ => 5
  end.
(** How many steps are left, at most. *)
Definition left_to_do (s : State) : nat :=
  sum_list_with caller_weight (callers s) + worker_weight (background s) +
  10 * length (background_work_queue_ s).

Lemma sum_list_with_update (f : caller → nat) l i c d :
  l !! i = Some c → sum_list_with f (<[i := d]> l) + f c = sum_list_with f l + f d.
Proof.
  revert i. induction l as [|x l IH]; intros [|i] Hi; simplify_eq/=; [lia|].
  specialize (IH i Hi). lia.
Qed.

Lemma Schedule_step_less s i s' :
  inv s → Schedule_step s i = Some s' → left_to_do s' < left_to_do s.
Proof.
  intros Hi E. unfold Schedule_step in E. destruct (callers s !! i) as [c|] eqn:Hc; [|done].
  pose proof (λ d, sum_list_with_update caller_weight _ _ _ d Hc) as Hsum.
  destruct Hi as [_ Hst _ _ _]. unfold left_to_do.
  destruct c as [|it|it|it|]; [done| | | |]; injection E as <-; cbn in *.
  - specialize (Hsum (Signalling it)). destruct (started_background_thread_ s); cbn in *; [lia|].
    destruct (background s); cbn in *; (lia || done).
  - specialize (Hsum (Emplacing it)). case_decide; cbn in *; [|lia].
    unfold Signal. destruct (background s) eqn:Eb; cbn in *; rewrite ?Eb; cbn; lia.
  - specialize (Hsum Leaving). rewrite length_app. cbn in *. lia.
  - specialize (Hsum Away). cbn in *. lia.
Qed.

Lemma work_less s s' : inv s → work s (Some s') → left_to_do s' < left_to_do s.
Proof.
  intros Hi Hw. inversion Hw as [i s1 E|o E]; subst; [by eapply Schedule_step_less|].
  unfold BackgroundThreadMain_step in E. unfold left_to_do.
  destruct (background s) as [| | | | | |it|it] eqn:Eb; try done.
  - destruct (mutex s); [done|]. injection E as <-. cbn. lia.
  - injection E as <-. case_decide; cbn; lia.
  - destruct (mutex s); [done|]. injection E as <-. cbn. lia.
  - destruct (background_work_queue_ s) as [|it q] eqn:Eq; [done|]. injection E as <-. cbn. lia.
  - injection E as <-. cbn. lia.
  - injection E as <-. cbn. lia.
Qed.

(** Nothing left to do means everything is done. *)
Lemma no_work_done s :
  inv s → (∀ o, ¬ work s o) → all_away s ∧ executed s = emplaced s.
Proof.
  intros [Hmu Hst Hid Hpo Hff] Hno.
  destruct (mutex s) as [[|i]|] eqn:Em.
  - destruct Hmu as [Hb _]. exfalso. destruct (background s) as [| | | | | |it|it] eqn:Eb; try done.
    + eapply Hno. eapply work_background. unfold BackgroundThreadMain_step. by rewrite Eb.
    + eapply Hno. eapply work_background. unfold BackgroundThreadMain_step. by rewrite Eb.
    + eapply Hno. eapply work_background. unfold BackgroundThreadMain_step. by rewrite Eb.
  - destruct Hmu as (_ & _ & c & Hc & Hne & _). exfalso.
    destruct c as [|it|it|it|]; [done| | | |];
      (eapply Hno; eapply (work_caller _ i); unfold Schedule_step; by rewrite Hc).
  - destruct Hmu as [Hb Hall]. split; [done|].
    destruct (background s) as [| | | | | |it|it] eqn:Eb; try done.
    + rewrite Hff, Hid by auto. by rewrite app_nil_r.
    + exfalso. eapply Hno. eapply work_background. unfold BackgroundThreadMain_step. by rewrite Eb, Em.
    + rewrite Hff, Hid by auto. by rewrite app_nil_r.
    + exfalso. eapply Hno. eapply work_background. unfold BackgroundThreadMain_step. by rewrite Eb, Em.
    + exfalso. eapply Hno. eapply work_background. unfold BackgroundThreadMain_step. by rewrite Eb.
Qed.

(** The item a call has yet to add. *)
Definition owed (c : caller) : list item :=
  match c with Starting it | Signalling it | Emplacing it => [it] | _ => [] end.

Lemma work_keeps s s' :
  work s (Some s') → emplaced s `prefix_of` emplaced s' ∧
  ∀ i c it, callers s !! i = Some c → it ∈ owed c →
    it ∈ emplaced s' ∨ ∃ c', callers s' !! i = Some c' ∧ it ∈ owed c'.
Proof.
  intros Hw. inversion Hw as [i s1 E|o E]; subst.
  - unfold Schedule_step in E. destruct (callers s !! i) as [c|] eqn:Hc; [|done].
    assert (Hcase : ∀ s1 m d, callers s1 = callers s → emplaced s `prefix_of` emplaced s1 →
      (∀ it, it ∈ owed c → it ∈ emplaced s1 ∨ it ∈ owed d) → s' = set_caller s1 m i d →
      emplaced s `prefix_of` emplaced s' ∧
      ∀ j c' it, callers s !! j = Some c' → it ∈ owed c' →
        it ∈ emplaced s' ∨ ∃ c', callers s' !! j = Some c' ∧ it ∈ owed c').
    { intros s1 m d Es Hp Ho ->. cbn. rewrite Es. split; [done|]. intros j c' it Hj Hit.
      destruct (decide (j = i)) as [->|Hne].
      - rewrite Hc in Hj. injection Hj as <-. rewrite (lookup_set s i c) by done.
        destruct (Ho it Hit); [by left|right; eauto].
      - right. exists c'. by rewrite list_lookup_insert_ne. }
    destruct c as [|it|it|it|]; [done| | | |]; injection E as <-;
      (eapply Hcase; [| | |reflexivity]); try done; try (by intros; right).
    + by destruct (started_background_thread_ s).
    + by destruct (started_background_thread_ s).
    + case_decide; [|done]. unfold Signal. by destruct (background s).
    + case_decide; [|done]. unfold Signal. by destruct (background s).
    + cbn. by apply prefix_app_r.
    + intros it' ->%list_elem_of_singleton. left. cbn. set_solver.
  - unfold BackgroundThreadMain_step, Lock in E.
    repeat (case_match; simplify_eq/=; try done); split; try done; eauto.
Qed.

Lemma works_keep s s' :
  rtc (λ a b, work a (Some b)) s s' → emplaced s `prefix_of` emplaced s' ∧
  ∀ i c it, callers s !! i = Some c → it ∈ owed c →
    it ∈ emplaced s' ∨ ∃ c', callers s' !! i = Some c' ∧ it ∈ owed c'.
Proof.
  induction 1 as [s|s s1 s' Hw _ [IHp IH]]; [split; [done|eauto]|].
  apply work_keeps in Hw as [Hp Hk]. split; [by etrans|]. intros i c it Hc Hit.
  destruct (Hk i c it Hc Hit) as [Hin|(c' & Hc' & Hit')]; [left|by eapply IH].
  destruct IHp as [l ->]. set_solver.
Qed.

Lemma works_inv s s' : inv s → rtc (λ a b, work a (Some b)) s s' → inv s'.
Proof.
  intros Hi Hr. induction Hr as [|a b c Hab _ IH]; [done|]. apply IH.
  by destruct (step_inv a (Some b) Hi (step_work _ _ Hab)) as (b' & [= <-] & ?).
Qed.
End background.

Arguments caller : clear implicits.
Arguments worker : clear implicits.
Arguments State : clear implicits.

(** C24: the background queue is first in, first out.  Whatever the number of
    threads that call [Schedule] and however they interleave, with each other, with
    the background thread and with wake-ups nobody signalled: at most one thread is
    between [Lock] and [Unlock]; the items executed and the one in hand, followed by
    those in the queue, are the items added, in their order, each once; the
    assertion that the queue is not empty holds; the background thread never waits
    while there is work; and there is one background thread, from the first call
    on. *)
Theorem Background_fifo {item} threads (s : State item) :
  reachable (PosixEnv_start threads) s →
  emplaced s = executed s ++ in_hand (background s) ++ background_work_queue_ s ∧
  (background s = Waiting → background_work_queue_ s = []) ∧
  (background s = Unborn ↔ started_background_thread_ s = false) ∧
  (∀ i j c c', callers s !! i = Some c → callers s !! j = Some c' → c ≠ Away → c' ≠ Away →
     i = j ∧ has_mutex (background s) = false) ∧
  (∀ o, step s o → ∃ s', o = Some s').
Proof.
  intros Hr. apply sched_inv_reachable in Hr as Hi. split_and!.
  - apply Hi.
  - intros Hb. apply (inv_idle s Hi). auto.
  - rewrite (inv_started s Hi). by destruct (background s).
  - intros i j c c' Hc Hc' Hne Hne'.
    destruct (caller_inside s i c Hi Hc Hne) as (Hm & Hb & _).
    destruct (caller_inside s j c' Hi Hc' Hne') as (Hm' & _). split; congruence.
  - intros o Hs. destruct (step_inv s o Hi Hs) as (s' & -> & _). eauto.
Qed.

(** C23: no wake-up is lost, and every scheduled item is executed.  From any state,
    once no more calls begin and whichever threads run, the calls that have begun
    return and the background thread works off the queue: every run of them ends
    after a number of steps known from the start, and when no thread can move every
    call has returned and everything that was added before or by these calls has
    been executed. *)
Theorem Background_live {item} threads (s : State item) :
  reachable (PosixEnv_start threads) s →
  (∀ n s', nsteps (λ a b, work a (Some b)) n s s' → n ≤ left_to_do s) ∧
  (∀ s', rtc (λ a b, work a (Some b)) s s' → (∀ o, ¬ work s' o) →
     all_away s' ∧ executed s' = emplaced s' ∧ emplaced s `prefix_of` executed s' ∧
     ∀ i c it, callers s !! i = Some c → it ∈ owed c → it ∈ executed s').
Proof.
  intros Hr. apply sched_inv_reachable in Hr as Hi. split.
  - clear Hr. intros n. revert s Hi. induction n as [|n IH]; intros s Hi s' Hn; [lia|].
    inversion Hn as [|? ? s1 ? Hw Hn']; subst. pose proof (work_less s s1 Hi Hw).
    assert (Hi1 : inv s1) by (eapply works_inv; [exact Hi|by apply rtc_once]).
    specialize (IH s1 Hi1 s' Hn'). lia.
  - intros s' Hw Hno. destruct (no_work_done s' (works_inv s s' Hi Hw) Hno) as [Hall E].
    destruct (works_keep s s' Hw) as [Hp Hk]. rewrite E. split_and!; [done..|].
    intros i c it Hc Hit. destruct (Hk i c it Hc Hit) as [?|(c' & Hc' & Hit')]; [done|].
    rewrite (Hall i c' Hc') in Hit'. set_solver.
Qed.

(** ** A run *)

(** The second of two threads has called [Schedule] with the item 7. *)
Definition one_call : State nat :=
  set_caller (PosixEnv_start 2) (Some (Caller 1)) 1 (Starting 7).

Lemma one_call_reachable : reachable (PosixEnv_start 2) one_call.
Proof. apply rtc_once. by apply step_call. Qed.

Lemma Background_fifo_witness :
  emplaced one_call = executed one_call ++ in_hand (background one_call) ++ background_work_queue_ one_call.
Proof. exact (proj1 (Background_fifo 2 one_call one_call_reachable)). Defined.

(** The four steps of the call and seven of the background thread. *)
Fixpoint run (s : State nat) (who : list (option nat)) : option (State nat) :=
  match who with
  | [] => Some s
  | Some i :: who => s ← Schedule_step s i; run s who
  | None :: who => o ← BackgroundThreadMain_step s; s ← o; run s who
  end.

Lemma run_works who : ∀ s s', run s who = Some s' → rtc (λ a b, work a (Some b)) s s'.
Proof.
  induction who as [|[i|] who IH]; intros s s' Hr; [by injection Hr as ->| |];
    apply bind_Some in Hr as (s1 & E & Hr).
  - eapply rtc_l; [by eapply work_caller|by apply IH].
  - apply bind_Some in Hr as (s2 & -> & Hr). eapply rtc_l; [by apply work_background|by apply IH].
Qed.

Definition whole_call : list (option nat) := replicate 4 (Some 1) ++ replicate 7 None.
Definition one_done : State nat := default one_call (run one_call whole_call).

Lemma one_done_works : rtc (λ a b, work a (Some b)) one_call one_done.
Proof. apply (run_works whole_call). vm_compute. reflexivity. Qed.

Lemma one_done_idle o : ¬ work one_done o.
Proof.
  inversion_clear 1 as [i s' Hs|? Hs].
  - destruct i as [|[|i]]; vm_compute in Hs; discriminate.
  - vm_compute in Hs. discriminate.
Qed.

Lemma Background_live_witness : executed one_done = emplaced one_done ∧ 7 ∈ executed one_done.
Proof.
  destruct (Background_live 2 one_call one_call_reachable) as [_ H].
  destruct (H one_done one_done_works one_done_idle) as (_ & Hall & _ & Hc).
  split; [exact Hall|]. apply (Hc 1 (Starting 7) 7); [reflexivity|]. cbn. set_solver.
Defined.

Example background_run :
  (executed one_done, background_work_queue_ one_done, background one_done) = ([7], [], Waiting).
Proof. vm_compute. reflexivity. Qed.
