(* ===== verification/Iterator.v ===== *)
(** include/iterator.h and table/iterator.cc: the list of cleanup functions every
    iterator carries, and the empty iterator. *)
From S2P Require Import Prelude Slice Status.
Local Open Scope Z_scope.

(** Functions and arguments are addresses and null is 0.  A field is [None] until
    it is first stored to. *)
Record CleanupNode := { function : option Z; arg1 : option Z; arg2 : option Z; next : option Z }.

(** The head is inside the iterator, the other nodes are in the heap. *)
Record Iterator := { cleanup_head_ : CleanupNode; nodes : gmap Z CleanupNode }.

Definition set_head (it : Iterator) (n : CleanupNode) : Iterator :=
  {| cleanup_head_ := n; nodes := nodes it |}.
Definition set_next (n : CleanupNode) (p : option Z) : CleanupNode :=
  {| function := function n; arg1 := arg1 n; arg2 := arg2 n; next := p |}.

Definition Iterator_new : Iterator :=
  {| cleanup_head_ := {| function := Some 0; arg1 := None; arg2 := None; next := Some 0 |};
     nodes := ∅ |}.

Definition IsEmpty (n : CleanupNode) : option bool := f ← function n; Some (f =? 0).

(** A call of a cleanup function: the function and its arguments. *)
Definition call : Type := Z * Z * Z.

Definition Run (n : CleanupNode) : option call :=
  f ← function n; ASSERT (negb (f =? 0)); a ← arg1 n; b ← arg2 n; Some (f, a, b).

(** [new_node] is the address [new CleanupNode()] returns if it is called. *)
Definition RegisterCleanup (it : Iterator) (new_node : Z) (func a1 a2 : Z) : option Iterator :=
  ASSERT (negb (func =? 0));
  empty ← IsEmpty (cleanup_head_ it);
  let filled p := {| function := Some func; arg1 := Some a1; arg2 := Some a2; next := p |} in
  if (empty : bool) then Some (set_head it (filled (next (cleanup_head_ it))))
  else
    Some {| cleanup_head_ := set_next (cleanup_head_ it) (Some new_node);
            nodes := <[new_node := filled (next (cleanup_head_ it))]> (nodes it) |}.

(** The loop of the destructor: the calls it makes, in order, and the heap. *)
Fixpoint run_nodes (fuel : nat) (h : gmap Z CleanupNode) (node : option Z)
    : option (list call * gmap Z CleanupNode) :=
  match fuel with
  | O => None
  | S fuel =>
    p ← node;
    if p =? 0 then Some ([], h)
    else
      n ← h !! p; c ← Run n;
      let next_node := next n in
      '(cs, h) ← run_nodes fuel (delete p h) next_node; Some (c :: cs, h)
  end.

Definition Iterator_destroy (it : Iterator) : option (list call * gmap Z CleanupNode) :=
  empty ← IsEmpty (cleanup_head_ it);
  if (empty : bool) then Some ([], nodes it)
  else
    c ← Run (cleanup_head_ it);
    '(cs, h) ← run_nodes (S (size (nodes it))) (nodes it) (next (cleanup_head_ it));
    Some (c :: cs, h).

(** [EmptyIterator] *)
Record EmptyIterator := { status_ : Status }.
Definition Empty_Valid (it : EmptyIterator) : bool := false.
Definition Empty_Seek (it : EmptyIterator) (target : bytes) : EmptyIterator := it.
Definition Empty_SeekToFirst (it : EmptyIterator) : EmptyIterator := it.
Definition Empty_SeekToLast (it : EmptyIterator) : EmptyIterator := it.
Definition Empty_Next (it : EmptyIterator) : option EmptyIterator := ASSERT false; Some it.
Definition Empty_Prev (it : EmptyIterator) : option EmptyIterator := ASSERT false; Some it.
Definition Empty_key (it : EmptyIterator) : option bytes := ASSERT false; Some [].
Definition Empty_value (it : EmptyIterator) : option bytes := ASSERT false; Some [].
Definition Empty_status (it : EmptyIterator) : Status := status_ it.
Definition NewEmptyIterator : EmptyIterator := {| status_ := OK |}.
Definition NewErrorIterator (status : Status) : EmptyIterator := {| status_ := status |}.

(** ** The list in the heap *)

(** From [p] the heap has the nodes at [ps], holding [cs], and nothing else. *)
Fixpoint chain (h : gmap Z CleanupNode) (p : Z) (ps : list Z) (cs : list call) : Prop :=
  match ps, cs with
  | [], [] => p = 0 ∧ h = ∅
  | q :: ps, (f, a, b) :: cs =>
    p = q ∧ q ≠ 0 ∧ f ≠ 0 ∧ ∃ r h', h !! q = Some {| function := Some f; arg1 := Some a;
                                             arg2 := Some b; next := Some r |} ∧
      h' = delete q h ∧ chain h' r ps cs
  | _, _ => False
  end.

Lemma chain_size h p ps cs : chain h p ps cs → size h = length ps ∧ length ps = length cs.
Proof.
  revert h p cs. induction ps as [|q ps IH]; intros h p [|[[f a] b] cs]; cbn; try done.
  - by intros [_ ->].
  - intros (-> & _ & _ & r & h' & Hq & -> & Hc). apply IH in Hc as [Hs Hl].
    rewrite map_size_delete, Hq in Hs. split; [|lia].
    assert (size h ≠ 0%nat); [|lia]. intros H0%map_size_empty_inv. subst. by rewrite lookup_empty in Hq.
Qed.

Lemma run_nodes_eq cs : ∀ fuel h p ps,
  chain h p ps cs → (length cs < fuel)%nat → run_nodes fuel h (Some p) = Some (cs, ∅).
Proof.
  induction cs as [|[[f a] b] cs IH]; intros [|fuel] h p [|q ps] Hc Hf; cbn in *; try lia; try done.
  - destruct Hc as [-> ->]. done.
  - destruct Hc as (-> & Hq0 & Hf0 & r & h' & Hq & -> & Hc).
    rewrite (proj2 (Z.eqb_neq _ _)) by done. rewrite Hq. cbn [mbind option_bind].
    unfold Run. cbn [function arg1 arg2 next mbind option_bind].
    rewrite (proj2 (Z.eqb_neq _ _)) by done. cbn [negb].
    erewrite IH; [done|exact Hc|lia].
Qed.

(** What an iterator with the calls [cs] registered looks like: none, or the first
    one in the head and the others behind it, the latest first. *)
Definition registered (it : Iterator) (cs : list call) : Prop :=
  match cs with
  | [] => it = Iterator_new
  | (f, a, b) :: rest =>
    f ≠ 0 ∧ ∃ p ps, cleanup_head_ it = {| function := Some f; arg1 := Some a; arg2 := Some b;
                                         next := Some p |} ∧
      chain (nodes it) p ps (rev rest)
  end.

Lemma RegisterCleanup_eq it cs new_node f a b :
  registered it cs → f ≠ 0 → new_node ≠ 0 → nodes it !! new_node = None →
  ∃ it', RegisterCleanup it new_node f a b = Some it' ∧ registered it' (cs ++ [(f, a, b)]).
Proof.
  intros Hr Hf Hn Hfresh. unfold RegisterCleanup. rewrite (proj2 (Z.eqb_neq _ _)) by done. cbn [negb].
  destruct cs as [|[[f1 a1] b1] rest]; cbn [registered app] in *.
  - subst it. eexists. split; [done|]. split; [done|]. by exists 0, [].
  - destruct Hr as (Hf1 & p & ps & Hh & Hc). rewrite Hh. unfold IsEmpty. cbn [function mbind option_bind].
    rewrite (proj2 (Z.eqb_neq _ _)) by done. eexists. split; [done|]. split; [done|].
    exists new_node, (new_node :: ps). split; [done|]. rewrite rev_app_distr. cbn.
    split_and!; [done..|]. exists p, (nodes it). rewrite lookup_insert_eq, delete_insert_id by done.
    by split_and!.
Qed.

Lemma Iterator_destroy_eq it cs :
  registered it cs →
  Iterator_destroy it = Some (match cs with [] => [] | c :: rest => c :: rev rest end, ∅).
Proof.
  intros Hr. unfold Iterator_destroy. destruct cs as [|[[f a] b] rest]; [cbn in Hr; by subst|].
  destruct Hr as (Hf & p & ps & Hh & Hc). rewrite Hh. unfold IsEmpty, Run.
  cbn [function arg1 arg2 next mbind option_bind]. rewrite (proj2 (Z.eqb_neq _ _)) by done.
  cbn [negb mbind option_bind]. destruct (chain_size _ _ _ _ Hc) as [Hs Hl].
  rewrite (run_nodes_eq (rev rest) _ _ _ _ Hc) by (rewrite Hs; lia). done.
Qed.

(** Registering one call after another, at the addresses the allocator gives. *)
Fixpoint register_all (it : Iterator) (rs : list (Z * call)) : option Iterator :=
  match rs with
  | [] => Some it
  | (p, (f, a, b)) :: rs => it ← RegisterCleanup it p f a b; register_all it rs
  end.

(** An allocator never returns null or an address that is in use. *)
Fixpoint fresh_nodes (it : Iterator) (rs : list (Z * call)) : Prop :=
  match rs with
  | [] => True
  | (p, (f, a, b)) :: rs =>
    f ≠ 0 ∧ p ≠ 0 ∧ nodes it !! p = None ∧
    ∀ it', RegisterCleanup it p f a b = Some it' → fresh_nodes it' rs
  end.

Lemma register_all_eq rs : ∀ it cs,
  registered it cs → fresh_nodes it rs →
  ∃ it', register_all it rs = Some it' ∧ registered it' (cs ++ rs.*2).
Proof.
  induction rs as [|[p [[f a] b]] rs IH]; intros it cs Hr Hfr; cbn [register_all fmap list_fmap].
  - exists it. by rewrite app_nil_r.
  - destruct Hfr as (Hf & Hp & Hfresh & Hnext).
    destruct (RegisterCleanup_eq it cs p f a b Hr Hf Hp Hfresh) as (it1 & E & Hr1).
    rewrite E. cbn [mbind option_bind]. destruct (IH it1 _ Hr1 (Hnext _ E)) as (it' & -> & Hr').
    exists it'. by rewrite <- (assoc_L (++)) in Hr'.
Qed.

(** C39: cleanup functions.  Whatever is registered with an iterator is called
    exactly once, with its arguments, when the iterator is destroyed: the first
    registered first, the others from the latest to the second.  No node is read
    after it was deleted, none is left, and an iterator nothing was registered with
    calls nothing. *)
Theorem Cleanup_once rs :
  fresh_nodes Iterator_new rs →
  ∃ it, register_all Iterator_new rs = Some it ∧
    Iterator_destroy it = Some (match rs.*2 with [] => [] | c :: rest => c :: rev rest end, ∅) ∧
    size (nodes it) = pred (length rs).
Proof.
  intros Hfr. destruct (register_all_eq rs Iterator_new [] eq_refl Hfr) as (it & E & Hr).
  exists it. split_and!; [done|by apply Iterator_destroy_eq|].
  cbn [app] in Hr. destruct rs as [|[p c] rs]; cbn in *; [by subst|].
  destruct c as [[f a] b]. destruct Hr as (_ & q & ps & _ & Hc).
  apply chain_size in Hc as [Hs Hl]. by rewrite Hs, Hl, length_rev, length_fmap.
Qed.

Lemma Cleanup_once_witness :
  ∃ it, register_all Iterator_new [(8, (1, 2, 3)); (16, (4, 5, 6)); (24, (7, 8, 9))] = Some it ∧
    Iterator_destroy it = Some ([(1, 2, 3); (7, 8, 9); (4, 5, 6)], ∅).
Proof.
  destruct (Cleanup_once [(8, (1, 2, 3)); (16, (4, 5, 6)); (24, (7, 8, 9))]) as (it & E & Hd & _).
  - split_and!; try done. intros it1 [= <-]. split_and!; try done. intros it2 [= <-].
    split_and!; try done.
  - exists it. split; [exact E|exact Hd].
Defined.
