(* ===== verification/PosixLogger.v ===== *)
(** util/posix_logger.h: a log message is formatted into a buffer on the stack or,
    if it does not fit, into one of the right size from the heap, and written. *)
From S2P Require Import Prelude Slice Coding Logging.
Local Open Scope Z_scope.

(** What [localtime_r] and [gettimeofday] return. *)
Record timestamp := {
  tm_year : Z; tm_mon : Z; tm_mday : Z; tm_hour : Z; tm_min : Z; tm_sec : Z; tv_usec : Z
}.

(** The conversion [%0<w>d] of a number that is not negative. *)
Definition print_0d (w : nat) (n : Z) : bytes :=
  let ds := print_llu n in replicate (w - length ds) (byte_of 48) ++ ds.

(** The text [snprintf] formats for the header. *)
Definition header_text (now : timestamp) (thread_id : bytes) : bytes :=
  print_0d 4 (tm_year now + 1900) ++ str "/" ++ print_0d 2 (tm_mon now + 1) ++ str "/" ++
  print_0d 2 (tm_mday now) ++ str "-" ++ print_0d 2 (tm_hour now) ++ str ":" ++
  print_0d 2 (tm_min now) ++ str ":" ++ print_0d 2 (tm_sec now) ++ str "." ++
  print_0d 6 (tv_usec now) ++ str " " ++ thread_id ++ str " ".

(** [snprintf(buffer + offset, size, ...)] where the arguments format to [text]: at
    most [size - 1] bytes and a terminating zero are stored; the length of the
    whole text is returned. *)
Definition snprintf (buffer : bytes) (offset : nat) (size : nat) (text : bytes) : option (bytes * Z) :=
  ASSERT (Z.of_nat (length text) <? 2 ^ 31);
  buffer ← match size with
           | O => Some buffer
           | S n => memcpy buffer offset (take n text ++ [x00])
           end;
  Some (buffer, Z.of_nat (length text)).

Definition kMaxThreadIdSize : Z := 32.
Definition kStackBufferSize : Z := 512.
Definition newline : byte := byte_of 10.

(** One iteration of the loop: [inl] is [continue] with the next
    [dynamic_buffer_size], [inr] the bytes written. *)
Definition Logv_iteration (iteration : nat) (dynamic_buffer_size : Z) (now : timestamp)
    (thread_id message : bytes) : option (Z + bytes) :=
  let buffer_size := if (iteration =? 0)%nat then kStackBufferSize else dynamic_buffer_size in
  let buffer := char_array (Z.to_nat buffer_size) in
  '(buffer, buffer_offset) ← snprintf buffer 0 (Z.to_nat buffer_size) (header_text now thread_id);
  ASSERT (buffer_offset <=? 28 + kMaxThreadIdSize);
  ASSERT (buffer_offset <? buffer_size);
  '(buffer, n) ← snprintf buffer (Z.to_nat buffer_offset) (Z.to_nat (buffer_size - buffer_offset)) message;
  let buffer_offset := buffer_offset + n in
  ASSERT (buffer_offset + 2 <? 2 ^ 31);
  if buffer_size - 1 <=? buffer_offset then
    ASSERT (iteration =? 0)%nat;
    Some (inl (buffer_offset + 2))
  else
    last ← load buffer (Z.to_nat (buffer_offset - 1));
    '(buffer, buffer_offset) ←
      (if decide (last = newline) then Some (buffer, buffer_offset)
       else buffer ← store buffer (Z.to_nat buffer_offset) newline; Some (buffer, buffer_offset + 1));
    ASSERT (buffer_offset <=? buffer_size);
    written ← load_range buffer 0 (Z.to_nat buffer_offset);
    Some (inr written).

(** [Logv], where the format and the arguments make [message]: the bytes given to
    [fwrite], if the loop is not left before. *)
Fixpoint Logv_loop (iterations iteration : nat) (dynamic_buffer_size : Z) (now : timestamp)
    (thread_id message : bytes) : option bytes :=
  match iterations with
  | O => Some []
  | S iterations =>
    r ← Logv_iteration iteration dynamic_buffer_size now thread_id message;
    match r with
    | inl dynamic_buffer_size =>
      Logv_loop iterations (S iteration) dynamic_buffer_size now thread_id message
    | inr written => Some written
    end
  end.

Definition Logv (now : timestamp) (thread_id message : bytes) : option bytes :=
  Logv_loop 2 0 0 now (take (Z.to_nat kMaxThreadIdSize) thread_id) message.

(** ** The text that is written *)

Definition time_ok (now : timestamp) : Prop :=
  0 <= tm_year now + 1900 < 10000 ∧ 0 <= tm_mon now < 12 ∧ 1 <= tm_mday now <= 31 ∧
  0 <= tm_hour now < 24 ∧ 0 <= tm_min now < 60 ∧ 0 <= tm_sec now <= 60 ∧
  0 <= tv_usec now < 1000000.

(** One line: the header, the message, and a newline unless the text ends in one. *)
Definition line (text : bytes) : bytes :=
  text ++ (if decide (last text = Some newline) then [] else [newline]).

Lemma length_print_0d (w : nat) n :
  (0 < w)%nat → 0 <= n < 10 ^ Z.of_nat w → length (print_0d w n) = w.
Proof.
  intros Hw Hn. unfold print_0d, print_llu. pose proof (digits_length w n [] Hw Hn 20) as Hl.
  cbn [length] in Hl. rewrite length_app, length_replicate. lia.
Qed.

Lemma length_header_text now thread_id :
  time_ok now → length (header_text now thread_id) = (28 + length thread_id)%nat.
Proof.
  intros (Hy & Hm & Hd & Hh & Hmi & Hs & Hu). unfold header_text.
  assert (P4 : 10 ^ Z.of_nat 4 = 10000) by reflexivity.
  assert (P2 : 10 ^ Z.of_nat 2 = 100) by reflexivity.
  assert (P6 : 10 ^ Z.of_nat 6 = 1000000) by reflexivity.
  rewrite !length_app, !length_print_0d by lia. cbn. lia.
Qed.

(** Two pieces of text that fit are stored one after the other. *)
Lemma snprintf_fits pre old text :
  (length text < length old)%nat → Z.of_nat (length text) < 2 ^ 31 →
  snprintf (pre ++ old) (length pre) (length old) text =
    Some (pre ++ text ++ x00 :: drop (S (length text)) old, Z.of_nat (length text)).
Proof.
  intros Hl Hs. unfold snprintf. rewrite (proj2 (Z.ltb_lt _ _)) by lia.
  destruct (length old) as [|n] eqn:E; [lia|]. rewrite firstn_all2 by lia.
  rewrite <- (take_drop (S (length text)) old) at 1.
  rewrite (memcpy_app pre (take (S (length text)) old)); [|done|].
  - cbn [mbind option_bind]. by rewrite <- (assoc_L (++)).
  - rewrite length_take, length_app, E. cbn [length]. lia.
Qed.

(** Text that does not fit is cut. *)
Lemma snprintf_cut pre old text :
  Z.of_nat (length text) < 2 ^ 31 →
  ∃ buffer, snprintf (pre ++ old) (length pre) (length old) text =
    Some (buffer, Z.of_nat (length text)).
Proof.
  intros Hs. unfold snprintf. rewrite (proj2 (Z.ltb_lt _ _)) by lia.
  destruct (length old) as [|n] eqn:E; [by eexists|].
  rewrite memcpy_Some; [by eexists|]. rewrite !length_app, length_take, E. cbn [length]. lia.
Qed.

(** The end of an iteration whose text fits: the newline and what is written. *)
Lemma line_written text rest buffer_size :
  text ≠ [] → Z.of_nat (length text) + 1 <= buffer_size →
  (last ← load (text ++ x00 :: rest) (Z.to_nat (Z.of_nat (length text) - 1));
   '(buffer, buffer_offset) ←
     (if decide (last = newline) then Some (text ++ x00 :: rest, Z.of_nat (length text))
      else buffer ← store (text ++ x00 :: rest) (Z.to_nat (Z.of_nat (length text))) newline;
           Some (buffer, Z.of_nat (length text) + 1));
   ASSERT (buffer_offset <=? buffer_size);
   written ← load_range buffer 0 (Z.to_nat buffer_offset);
   Some (@inr Z bytes written)) = Some (inr (line text)).
Proof.
  intros Hne Hsz. destruct (exists_last Hne) as (l & x & Et).
  assert (Hx : load (text ++ x00 :: rest) (Z.to_nat (Z.of_nat (length text) - 1)) = Some x).
  { rewrite Et, length_app. unfold load. cbn [length].
    replace (Z.to_nat _) with (length l) by lia. rewrite <- (assoc_L (++)). by apply list_lookup_middle. }
  rewrite Hx. cbn [mbind option_bind]. unfold line. rewrite Et, last_snoc, <- Et.
  destruct (decide (x = newline)) as [->|Hnl].
  - rewrite decide_True by done. cbn [mbind option_bind].
    rewrite (proj2 (Z.leb_le _ _)) by lia. rewrite Nat2Z.id, load_range_Some by (rewrite length_app; lia).
    cbn [mbind option_bind]. by rewrite drop_0, take_app_length, app_nil_r.
  - rewrite decide_False by congruence. rewrite Nat2Z.id, store_app. cbn [mbind option_bind].
    rewrite (proj2 (Z.leb_le _ _)) by lia.
    replace (Z.to_nat (Z.of_nat (length text) + 1)) with (length (text ++ [newline]))
      by (rewrite length_app; cbn; lia).
    rewrite load_range_Some by (rewrite !length_app; cbn; lia). cbn [mbind option_bind].
    rewrite drop_0. change (newline :: rest) with ([newline] ++ rest).
    by rewrite (assoc_L (++)), take_app_length.
Qed.

Lemma Logv_iteration_eq iteration size now thread_id message :
  time_ok now → (length thread_id <= 32)%nat →
  let text := header_text now thread_id ++ message in
  let buffer_size := if (iteration =? 0)%nat then 512 else size in
  28 + Z.of_nat (length thread_id) < buffer_size → Z.of_nat (length text) + 2 < 2 ^ 31 →
  (Z.of_nat (length text) < buffer_size - 1 →
   Logv_iteration iteration size now thread_id message = Some (inr (line text))) ∧
  (iteration = 0%nat → buffer_size - 1 <= Z.of_nat (length text) →
   Logv_iteration iteration size now thread_id message = Some (inl (Z.of_nat (length text) + 2))).
Proof.
  intros Ht Htid text buffer_size Hroom Hsmall. unfold Logv_iteration.
  change kStackBufferSize with 512. fold buffer_size.
  pose proof (length_header_text now thread_id Ht) as Hlh. set (hd := header_text now thread_id) in *.
  assert (Hlt : length text = (length hd + length message)%nat) by (unfold text; by rewrite length_app).
  set (n := Z.to_nat buffer_size). assert (Hn : length (char_array n) = n) by apply length_replicate.
  pose proof (snprintf_fits [] (char_array n) hd) as H1. rewrite Hn in H1. cbn [app length] in H1.
  rewrite H1 by lia. cbn [mbind option_bind]. clear H1.
  rewrite (proj2 (Z.leb_le _ _)), (proj2 (Z.ltb_lt _ _)) by (unfold kMaxThreadIdSize; lia).
  set (old := x00 :: drop (S (length hd)) (char_array n)).
  assert (Hold : length old = (n - length hd)%nat).
  { unfold old. cbn [length]. rewrite length_drop, Hn. lia. }
  replace (Z.to_nat (buffer_size - Z.of_nat (length hd))) with (length old) by lia.
  rewrite Nat2Z.id. split.
  - intros Hfits. rewrite snprintf_fits by lia. cbn [mbind option_bind].
    rewrite <- Nat2Z.inj_add, <- Hlt.
    rewrite (proj2 (Z.ltb_lt _ _)), (proj2 (Z.leb_gt _ _)) by lia.
    assert (Hb : (length (text ++ x00 :: drop (S (length message)) old) = n)%nat).
    { rewrite length_app. cbn [length]. rewrite length_drop. lia. }
    rewrite (assoc_L (++)). fold text.
    rewrite (line_written text (drop (S (length message)) old)); [done| |lia].
    intros Et%(f_equal length). cbn [length] in Et. lia.
  - intros -> Hbig. destruct (snprintf_cut hd old message) as [buffer ->]; [lia..|].
    cbn [mbind option_bind]. rewrite <- Nat2Z.inj_add, <- Hlt.
    rewrite (proj2 (Z.ltb_lt _ _)), (proj2 (Z.leb_le _ _)) by lia. done.
Qed.

Lemma Logv_spec now thread_id message :
  time_ok now → Z.of_nat (length message) + 62 < 2 ^ 31 →
  let text := header_text now (take 32 thread_id) ++ message in
  Logv now thread_id message = Some (line text) ∧
  (Logv_iteration 0 0 now (take 32 thread_id) message = Some (inr (line text)) ↔
   (length text <= 510)%nat).
Proof.
  intros Ht Hs text. pose proof (length_header_text now (take 32 thread_id) Ht) as Hlh.
  pose proof (firstn_le_length 32 thread_id) as Htid.
  assert (Hlt : length text = (28 + length (take 32%nat thread_id) + length message)%nat)
    by (unfold text; rewrite length_app; lia).
  destruct (Logv_iteration_eq 0 0 now (take 32 thread_id) message Ht Htid) as [H1 H2];
    [cbn; lia|fold text; lia|]. fold text in H1, H2. cbn [Nat.eqb] in H1, H2.
  unfold Logv. change (Z.to_nat kMaxThreadIdSize) with 32%nat. cbn [Logv_loop].
  destruct (decide (length text <= 510)%nat) as [Hle|Hgt].
  - rewrite H1 by lia. cbn [mbind option_bind]. by split.
  - rewrite H2 by (done || lia). cbn [mbind option_bind].
    destruct (Logv_iteration_eq 1 (Z.of_nat (length text) + 2) now (take 32 thread_id) message Ht Htid)
      as [H3 _]; [cbn [Nat.eqb]; lia|fold text; lia|]. fold text in H3. cbn [Nat.eqb] in H3.
    rewrite H3 by lia. cbn [mbind option_bind]. split; [done|]. split; [done|lia].
Qed.

(** C40: a log message is written as one line.  For every message, the empty one
    and the ones of any length included, at most two iterations are needed, no byte
    is stored outside the buffer of either, no assertion fails, and what is
    written is the header, the whole message and one newline, which is not added
    when the message ends in one.  The header has the first 32 bytes of the thread
    id.  The buffer on the stack is used exactly when the text has at most 510
    bytes. *)
Theorem Logv_correct now thread_id message :
  time_ok now → Z.of_nat (length message) + 62 < 2 ^ 31 →
  let text := header_text now (take 32 thread_id) ++ message in
  Logv now thread_id message = Some (line text) ∧
  (Logv_iteration 0 0 now (take 32 thread_id) message = Some (inr (line text)) ↔
   (length text <= 510)%nat).
Proof. apply Logv_spec. Qed.

(** The first of May 2024, five seconds past midnight. *)
Definition may_day : timestamp :=
  {| tm_year := 124; tm_mon := 4; tm_mday := 1; tm_hour := 0; tm_min := 0; tm_sec := 5; tv_usec := 7 |}.

Example Logv_example :
  Logv may_day (str "42") (str "hello") = Some (str "2024/05/01-00:00:05.000007 42 hello" ++ [newline]).
Proof. vm_compute. reflexivity. Qed.

Lemma Logv_correct_witness :
  Logv may_day (str "42") (replicate 600 x61)
  = Some (line (header_text may_day (str "42") ++ replicate 600 x61)).
Proof.
  apply (Logv_correct may_day (str "42") (replicate 600 x61)).
  - unfold time_ok. cbn. lia.
  - rewrite length_replicate. lia.
Defined.
