(* ===== verification/Process.v ===== *)
(** What a process has one of, and what [PosixEnv] hands to the C library: the
    default environment with the limits that can be set before it is made, loggers,
    the test directory and the clock (util/env_posix.cc, util/env.cc). *)
From S2P Require Import Prelude Coding Logging Status Posix SimOS Limiter PosixRandom PosixEnv PosixLogger.
Local Open Scope Z_scope.

(** ** The default environment *)

(** The variables of the file, [SingletonEnv<PosixEnv>::env_initialized_] and the
    static variable of [Env::Default].  The environment is recorded as it was made. *)
Record Globals := {
  g_open_read_only_file_limit : Z; g_mmap_limit : Z; env_initialized_ : bool;
  env_container : option PosixEnv
}.

Definition Globals_start : Globals :=
  {| g_open_read_only_file_limit := -1; g_mmap_limit := kDefaultMmapLimit;
     env_initialized_ := false; env_container := None |}.

Definition AssertEnvNotInitialized (g : Globals) : option unit :=
  ASSERT (negb (env_initialized_ g)); Some tt.

(** [EnvPosixTestHelper]. *)
Definition SetReadOnlyFDLimit (g : Globals) (limit : Z) : option Globals :=
  AssertEnvNotInitialized g ≫= λ _,
  Some {| g_open_read_only_file_limit := limit; g_mmap_limit := g_mmap_limit g;
          env_initialized_ := env_initialized_ g; env_container := env_container g |}.
Definition SetReadOnlyMMapLimit (g : Globals) (limit : Z) : option Globals :=
  AssertEnvNotInitialized g ≫= λ _,
  Some {| g_open_read_only_file_limit := g_open_read_only_file_limit g; g_mmap_limit := limit;
          env_initialized_ := env_initialized_ g; env_container := env_container g |}.

(** [Env::Default]: the first call constructs the environment, in which
    [MaxOpenFiles] stores the limit it computes. *)
Definition Env_Default (g : Globals) (rlim : rlimit) : option (Globals * PosixEnv) :=
  match env_container g with
  | Some env => Some (g, env)
  | None =>
    env ← PosixEnv_new (g_mmap_limit g) (g_open_read_only_file_limit g) rlim;
    Some ({| g_open_read_only_file_limit := MaxOpenFiles (g_open_read_only_file_limit g) rlim;
             g_mmap_limit := g_mmap_limit g; env_initialized_ := true;
             env_container := Some env |}, env)
  end.

(** ** Loggers *)

(** [fp_] is the stream of a descriptor. *)
Record PosixLogger := { fp_ : Z }.

Section loggers.
Context {W : Type} `{Posix W} (fdopen : W → Z → W * sysres unit).

(** [errno] is read after the descriptor is closed, so that an error of [close]
    takes the place of that of [fdopen]. *)
Definition NewLogger (w : W) (filename : bytes) : option (W * Status * option PosixLogger) :=
  match sys_open w filename [O_APPEND; O_WRONLY; O_CREAT] with
  | (w, Errno e) => s ← PosixError filename e; Some (w, s, None)
  | (w, Done fd) =>
    match fdopen w fd with
    | (w, Errno e) =>
      let '(w, closed) := sys_close w fd in
      s ← PosixError filename (match closed with Errno e' => e' | Done _ => e end);
      Some (w, s, None)
    | (w, Done _) => Some (w, OK, Some {| fp_ := fd |})
    end
  end.

(** [fclose] closes the descriptor. *)
Definition PosixLogger_destroy (w : W) (l : PosixLogger) : W := fst (sys_close w (fp_ l)).
End loggers.

(** [Log]: what is written, if anything is. *)
Definition Log (info_log : option PosixLogger) (now : timestamp) (thread_id message : bytes)
    : option bytes :=
  match info_log with Some _ => Logv now thread_id message | None => Some [] end.

(** ** The test directory *)

(** What a [char*] denotes: the bytes before the first zero. *)
Fixpoint c_str (buffer : bytes) : bytes :=
  match buffer with
  | [] => []
  | c :: buffer => if decide (c = x00) then [] else c :: c_str buffer
  end.

(** [env] is the value of [TEST_TMPDIR]. *)
Definition test_directory (env : option bytes) (geteuid : Z) : option bytes :=
  match env with
  | Some (c :: env) => Some (c :: env)
  | _ =>
    '(buf, _) ← snprintf (char_array 100) 0 100
                  (str "/tmp/leveldbtest-" ++ print_d (i32 geteuid));
    Some (c_str buf)
  end.

Definition GetTestDirectory {W} `{Posix W} (w : W) (env : option bytes) (geteuid : Z)
    : option (W * Status * bytes) :=
  result ← test_directory env geteuid;
  '(w, _) ← CreateDir w result;
  Some (w, OK, result).

(** ** The clock *)

Definition kUsecondsPerSecond : Z := 1000000.
Definition NowMicros (tv_sec tv_usec : Z) : Z :=
  (tv_sec mod 2 ^ 64 * kUsecondsPerSecond + tv_usec) mod 2 ^ 64.

(** ** Theorems *)

(** The limits can be set until the environment is made, and are then in force;
    setting one later fails an assertion.  [Env::Default] makes one environment, and
    returns it ever after, whatever [getrlimit] then says. *)
Theorem Env_Default_once fd_limit mmap_limit rlim :
  0 <= fd_limit < 2 ^ 31 → 0 <= mmap_limit < 2 ^ 31 →
  ∃ g0 g1 g2 env,
    SetReadOnlyFDLimit Globals_start fd_limit = Some g0 ∧
    SetReadOnlyMMapLimit g0 mmap_limit = Some g1 ∧
    Env_Default g1 rlim = Some (g2, env) ∧
    max_acquires_ (fd_limiter_ env) = fd_limit ∧ max_acquires_ (mmap_limiter_ env) = mmap_limit ∧
    limiter_ok (fd_limiter_ env) ∧ limiter_ok (mmap_limiter_ env) ∧
    (∀ rlim', Env_Default g2 rlim' = Some (g2, env)) ∧
    ∀ limit, SetReadOnlyFDLimit g2 limit = None ∧ SetReadOnlyMMapLimit g2 limit = None.
Proof.
  intros Hf Hm. do 4 eexists. do 2 (split; [reflexivity|]). split.
  { unfold Env_Default, PosixEnv_new, MaxOpenFiles, Limiter_new.
    cbn [env_container Globals_start g_open_read_only_file_limit g_mmap_limit].
    assert (Ef : (0 <=? fd_limit) = true) by (apply Z.leb_le; lia).
    assert (Em : (0 <=? mmap_limit) = true) by (apply Z.leb_le; lia).
    rewrite Em, Ef. cbn [mbind option_bind]. rewrite Ef. reflexivity. }
  split_and!; try done; unfold limiter_ok; cbn; lia.
Qed.

(** Opening a logger either succeeds and keeps one descriptor, or fails with the
    status of the error and keeps none; destroying the logger gives the descriptor
    back. *)
Theorem NewLogger_correct {W} `{Posix W} `{!StrerrorLaws W} (open_fds : W → gset Z)
    (written durable : W → Z → bytes) `{!WriteLaws W open_fds written durable}
    (fdopen : W → Z → W * sysres unit) w filename :
  (∀ w fd, open_fds (fst (fdopen w fd)) = open_fds w) → name_fits filename →
  ∃ w' s l, NewLogger fdopen w filename = Some (w', s, l) ∧
    match l with
    | None => ok s = false ∧ open_fds w' = open_fds w
    | Some l => s = OK ∧ fp_ l ∉ open_fds w ∧ open_fds w' = {[fp_ l]} ∪ open_fds w ∧
        open_fds (PosixLogger_destroy w' l) = open_fds w
    end.
Proof.
  intros Hfd Hn. unfold NewLogger. pose proof (open_law w filename [O_APPEND; O_WRONLY; O_CREAT]) as Ho.
  destruct (sys_open w filename _) as [w1 [fd|e]]; cycle 1.
  { destruct (PosixError_not_ok filename e Hn) as (s & -> & Hs). cbn [mbind option_bind].
    destruct Ho as [_ Ho]. by eexists _, _, _. }
  destruct Ho as [_ (_ & Hnew & Hopen & _)]. pose proof (Hfd w1 fd) as Hf.
  destruct (fdopen w1 fd) as [w2 [u|e]]; cbn [fst] in Hf; pose proof (close_law w2 fd) as Hc.
  - eexists _, _, _. split; [done|]. cbn [fp_]. unfold PosixLogger_destroy. cbn [fp_].
    destruct (sys_close w2 fd) as [w3 r]. cbn [fst]. destruct Hc as [Hc _].
    split_and!; [done|done|congruence|]. rewrite Hc, Hf, Hopen. set_solver.
  - destruct (sys_close w2 fd) as [w3 r]. destruct Hc as [Hc _].
    destruct (PosixError_not_ok filename (match r with Errno e' => e' | Done _ => e end) Hn)
      as (s & -> & Hs). cbn [mbind option_bind]. eexists _, _, _. split; [done|]. split; [done|].
    rewrite Hc, Hf, Hopen. set_solver.
Qed.

Lemma c_str_app text rest : Forall (λ c, c ≠ x00) text → c_str (text ++ x00 :: rest) = text.
Proof.
  induction 1 as [|c text Hc _ IH]; cbn; [by rewrite decide_True|].
  by rewrite decide_False, IH.
Qed.

Lemma print_d_int n :
  - 2 ^ 31 <= n < 2 ^ 31 → Forall (λ c, c ≠ x00) (print_d n) ∧ (length (print_d n) ≤ 11)%nat.
Proof.
  intros Hn. assert (Hp : ∀ m, 0 <= m < 2 ^ 32 →
    Forall (λ c, c ≠ x00) (print_llu m) ∧ (length (print_llu m) ≤ 10)%nat).
  { intros m Hm. unfold print_llu. destruct (decimal_loop_spec 20 m []) as (ds & E & Hd & _); [lia|lia|].
    pose proof (digits_length 10 m [] ltac:(lia) ltac:(lia) 20) as Hl.
    rewrite E, app_nil_r in *. split; [|cbn [length] in Hl; lia].
    eapply Forall_impl; [exact Hd|]. intros c Hc ->. unfold is_digit in Hc. cbn in Hc. lia. }
  unfold print_d. destruct (Z.ltb_spec n 0).
  - destruct (Hp (- n)) as [H1 H2]; [lia|]. split; [by constructor|].
    rewrite length_app. change (length (str "-")) with 1%nat. lia.
  - destruct (Hp n) as [H1 H2]; [lia|]. split; [done|lia].
Qed.

(** The test directory is [TEST_TMPDIR] if that is set and not empty, and otherwise
    named after the user, which always fits the buffer.  The status is OK even if
    the directory could not be made, and nothing but the attempt changes. *)
Theorem GetTestDirectory_correct {W} `{Posix W} `{!StrerrorLaws W} (w : W) env geteuid :
  0 <= geteuid < 2 ^ 32 → (∀ name, env = Some name → name_fits name) →
  let dir := match env with
             | Some (c :: name) => c :: name
             | _ => str "/tmp/leveldbtest-" ++ print_d (i32 geteuid)
             end in
  GetTestDirectory w env geteuid = Some (fst (sys_mkdir w dir), OK, dir).
Proof.
  intros He Henv dir. pose proof (print_d_int (i32 geteuid)) as [Hnz Hl].
  { unfold i32. pose proof (Z.mod_pos_bound (geteuid + 2 ^ 31) (2 ^ 32)). lia. }
  set (text := str "/tmp/leveldbtest-" ++ print_d (i32 geteuid)).
  assert (Hlen : (length text ≤ 28)%nat) by (unfold text; rewrite length_app; cbn; lia).
  assert (Hfit : name_fits dir).
  { unfold dir, name_fits in *. destruct env as [[|c name]|]; fold text; [lia| |lia]. by apply Henv. }
  assert (test_directory env geteuid = Some dir) as E.
  { unfold test_directory. fold text.
    pose proof (snprintf_fits [] (char_array 100) text) as E.
    change (length (char_array 100)) with 100%nat in E. cbn [app length] in E.
    rewrite E by lia. cbn [mbind option_bind]. rewrite c_str_app.
    - unfold dir. fold text. by destruct env as [[|c name]|].
    - unfold text. apply Forall_app. split; [|done]. repeat constructor; done. }
  unfold GetTestDirectory. rewrite E.
  cbn [mbind option_bind]. unfold CreateDir, reported.
  destruct (sys_mkdir w dir) as [w1 [u|e]]; [done|].
  destruct (PosixError_not_ok dir e Hfit) as (s & -> & _). done.
Qed.

(** The clock does not wrap for half a million years, and follows the time. *)
Theorem NowMicros_correct tv_sec tv_usec tv_sec' tv_usec' :
  0 <= tv_sec < 2 ^ 44 → 0 <= tv_usec < 1000000 → 0 <= tv_sec' < 2 ^ 44 → 0 <= tv_usec' < 1000000 →
  NowMicros tv_sec tv_usec = tv_sec * 1000000 + tv_usec ∧
  (NowMicros tv_sec tv_usec < NowMicros tv_sec' tv_usec' ↔
   tv_sec < tv_sec' ∨ tv_sec = tv_sec' ∧ tv_usec < tv_usec').
Proof.
  intros H1 H2 H3 H4. assert (E : ∀ s u, 0 <= s < 2 ^ 44 → 0 <= u < 1000000 →
    NowMicros s u = s * 1000000 + u).
  { intros s u Hs Hu. unfold NowMicros, kUsecondsPerSecond.
    rewrite (Z.mod_small s), Z.mod_small; lia. }
  rewrite !E by done. split; [done|]. lia.
Qed.

(** [Log] writes through a logger, and nothing without one. *)
Theorem Log_correct info_log now thread_id message :
  time_ok now → Z.of_nat (length message) + 62 < 2 ^ 31 →
  Log info_log now thread_id message = Some match info_log with
    | Some _ => line (header_text now (take 32 thread_id) ++ message)
    | None => []
    end.
Proof.
  intros Ht Hs. unfold Log. destruct info_log; [|done].
  by destruct (Logv_spec now thread_id message Ht Hs) as [-> _].
Qed.

(** ** In memory *)

Definition sim_fdopen (w : Sim) (fd : Z) : Sim * sysres unit :=
  (w, if bool_decide (fd ∈ sim_fds w) then Done tt else Errno 9).
